(* ===== verification/_CoqProject ===== *)
-Q . S2P
Prelude.v
Types.v
GoStrings.v
StateMachine.v
RaftLog.v
StoreIntf.v
Consensus.v
LogTree.v
Disk.v
NodeState.v
Node.v
Replication.v
Methods.v
NodeStep.v
VoteFrame.v
Wal.v
Json.v
JsonProofs.v
WalProofs.v
DiskWal.v
TestEnv.v
Cluster.v
NodeInv.v
ApplySys.v
Loops.v
LoopProofs.v
Raft.v
RaftInv.v
RaftNode.v
RaftSteps.v
RaftElect.v
RaftLead.v
RaftSnap.v
RaftApply.v
RaftProofs.v
RaftSafety.v
StaleSnapshot.v
RaftReads.v
Waiters.v
Proposals.v
Transfer.v
Handlers.v
StorageFault.v
RaftReadProofs.v
Reads.v
Calls.v
Api.v
Server.v
ServerProofs.v
Kvctl.v
KvctlProofs.v
ServerMain.v
MainProofs.v
