(* ===== verification/Prelude.v ===== *)
(** * go-raft-kv: a verification development

    The program is a replicated key-value store: every server runs a Raft
    node over a file-backed store, serves clients and peers over gRPC with
    JSON messages, and applies committed commands to a map; a command line
    client looks for the leader.  The development models the whole of it in
    Rocq as executable definitions and proves what makes it correct.

    ** The parts, and how they correspond to the source

    - [Types]: the structs and error values of internal/storage/types.go and
      internal/raft/types.go.  uint64 is [N] with the wrap-around written
      out ([uadd], [usub] below); a Go map is [gmap], a nil map [None].
    - [GoStrings]: what is used of strings, strconv and time.
    - [StateMachine]: the interface of internal/raft/statemachine.go as the
      class [StateMachine] with [StateMachineLaws]; module [KV] is
      internal/server/state_machine.go.
    - [RaftLog]: the functions of internal/raft/node.go on the in-memory log
      above a snapshot (lastIndexLocked, termAtLocked, mergeEntriesLocked,
      conflictIndexLocked, truncateFromLocked, ...).
    - [StoreIntf]: the Store interface as a class, its laws, and module
      [Mem], a store with injected faults.
    - [Wal]: internal/storage/wal.go over three files whose system calls may
      fail; [Json] is the part of encoding/json that the program's records
      use.  [WalProofs] and [JsonProofs] hold their theorems; [FileStore]
      is an instance of the class [Store].
    - [NodeState], [Node], [Replication]: the Node struct and every method of
      node.go.  The state is a record; each critical section of n.mu is one
      definition (a method that releases the mutex is split there:
      [Propose_start] and [Propose_select], [HandleInstallSnapshot_recv] and
      [_final], [applyReady_next], [_apply] and [_finish], ...).  Waiter
      channels are a map from channel numbers to buffers, so that a double
      close or a blocked send would show.
    - [Methods]: the blocking methods as wholes (Propose, LinearizableGet,
      ensureQuorum, startElection, the replication rounds, the turns of the
      three loops), composed from the sections with arbitrary moves of the
      rest of the system in between.
    - [Loops]: Start, Stop with its sync.Once, stop channel and WaitGroup,
      and the goroutines of a node (the three loops with their selects, the
      goroutines of a round and of a read barrier) as program points that
      interleave with each other and with the handlers ([pperform], [prun]).
    - [Api]: api/rpc.go, the messages with their JSON encoding, handler
      tables and client stubs.  [Server]: internal/server/service.go,
      command_codec.go and transport.go.  gRPC is the class [Grpc] with
      [GrpcLaws].
    - [Kvctl]: cmd/kvctl/main.go.  [ServerMain]: cmd/server/main.go.

    ** Step relations

    [NodeStep] lists the critical sections as operations of one node.
    [ApplySys] is the system of a node's apply goroutine, which is inside
    applyReady or persistSnapshot while other operations run ([sstep],
    [sys_reachable]).  [Cluster] is a cluster: nodes that are up, down or
    restarting, with messages lost, delayed, repeated and reordered and
    stores that fail; it follows the votes and lets a node do anything else
    at any time.  [Raft] refines it: the other messages are followed too
    (AppendEntries, snapshot chunks and their replies are sent and received
    by the critical sections of the source, at any time and in any order)
    and every node's apply goroutine is at one of its program points
    ([rstep], [rreachable]).  [RaftReads] adds calls of LinearizableGet in
    progress on any node of that cluster ([qstep], [qreachable]).

    ** The safety of the cluster

    - [Consensus]: why a majority protocol agrees, as an invariant ([ginv])
      of a history: the tree of all log positions ever created, who voted,
      who was elected, who vouched for which position in which term.
    - [LogTree]: logs as paths of that tree, for the functions of [RaftLog].
    - [Disk]: what a store promises about the snapshot and the log that a
      restart would load, failed writes included (class [DiskLaws]);
      [DiskWal] proves it of the file-backed store.
    - [RaftInv]: the invariant of one node, its disk, its apply goroutine
      and the messages, over a history.  [RaftNode], [RaftSteps],
      [RaftElect], [RaftLead], [RaftSnap] and [RaftApply] show that each
      critical section keeps it, and [RaftProofs] that every step of the
      cluster does.  The history also records every commit of a leader, so
      that a term with a commit has a leader whose no-op lies above all that
      was committed before its term.
    - [RaftSafety]: the theorems, and a run of three nodes over files.
    - [RaftReadProofs]: the invariant of the reads on top of it: who answered
      a barrier had cast no vote of a later term when the barrier began.
    - [StaleSnapshot]: how a node of the code loses committed entries from
      its disk after a failed write; the cluster model excludes it.

    ** What the theorems show

    - Agreement on leaders: [Cluster.election_safety], no term has two
      leaders, across crashes and failed writes.
    - Agreement on the log ([RaftSafety]): [state_machine_safety],
      [leader_completeness], [committed_entries_durable], [replicas_agree]
      and [log_matching], for any state machine and any store that satisfy
      the laws of their classes, and so for the map over files.  These and
      the reads below hold as long as no snapshot is saved over a newer
      snapshot file, which the code does not check ([StaleSnapshot]).
    - Linearizable reads ([RaftReadProofs]): [linearizable_read], a read on
      any node sees all that was committed anywhere when it was called, and
      reads do not go back in time.
    - Stopping ([LoopProofs]): [stop_returns], [stop_quiesces], and
      [reply_writes_after_stop], what can still be written after Stop.
    - One node's log and state machine: [state_machine_is_replay],
      [committed_entries_stable] (up to a restart) and
      [applyReady_catches_up] (with other goroutines running) ([ApplySys]),
      [mergeEntries_refines_reference] and [conflictIndex_first_of_term]
      ([RaftLog]), [kv_refines_map] ([StateMachine]).
    - The handlers' contracts ([Handlers]): RequestVote, AppendEntries and
      the commit rule.  Failed writes ([StorageFault]): over a store that
      records its writes, which failures are final for a node and which are
      only reported.
    - Proposals and reads: [Waiters] and [Proposals] follow the channels
      ([proposal_outcome]); [Reads] has the barrier
      ([barrier_counts_majority]) and the waits on the condition variable
      with their contexts and callbacks ([no_lost_wakeup]); [Calls] has
      [propose_is_truthful] and [read_sees_committed] of the whole calls.
    - Snapshot transfer ([Transfer]): [snapshot_transfer] terminates and
      installs what was sent; [refused_transfer_ends_unless_one_chunk].
    - Durability ([WalProofs]): recovery from torn appends and interrupted
      compactions, rejection of corrupt lines, and a window in which a
      compaction leaves a store that does not load;
      [stale_snapshot_loses_entries], a second window, in which an older
      snapshot replaces a newer one.
    - The wire ([ServerProofs]): [rpc_transparent],
      [pool_tracks_connections], and, end to end,
      [acknowledged_operation].
    - The commands: the client's search for the leader ([KvctlProofs]), the
      server's configuration, start and shutdown ([MainProofs]).

    ** Bounds and fuel

    Loops over data are structural.  [applyReady], [replicateLoop] and
    [sendSnapshotLoop] take fuel: [applyReady_catches_up] and
    [snapshot_transfer] give the amount that suffices, and replicateToPeer
    has the source's own bound of [maxReplicationAttempts].  A blocking call is
    given the list of moves that happen while it blocks; the context of a
    read, which has a deadline, is done when the list is used up, and
    [Propose] is told whether its context has ended then, and blocks on if
    it has not.  In [Loops] a context is the number of RPCs
    that complete before it is done, chosen freely at each round.  JSON parsing takes the length of the input
    as fuel, which the round trip shows to be enough.

    ** What is not modelled

    The gRPC runtime, the file system and the network, which are parameters
    with laws or scripts of faults; time, which is a clock that the
    environment moves; goroutine scheduling, which the step relations leave
    open (a select may take any ready case); the seed of the random source
    (hashID), which is an argument; the flag package, log output and signals.  The JSON decoder knows exact field
    names, natural numbers and the escapes that the encoder
    writes.  In [Methods] the goroutines of one replication round are run one
    after the other; [Raft] and [Loops] interleave them.  [Start] is called
    once.  [HandleInstallSnapshot_final] is scheduled only when the apply
    goroutine holds neither of its mutexes, also when the body does not
    decode and the code returns before it locks them.  [Open] leaves out the
    creation of the data directory, kvctl status a failure to print its
    JSON, and [shutdown] the wait for the loops, which is in [Loops].

    [Raft] makes these assumptions: all members have the same peer map
    ([config_ok]); a new state machine is its own restoration from no
    snapshot; indices and terms are used only while they are below 2^64 ([room] and
    the guards of [perform] and [rperform]); a snapshot file is not replaced by an older one
    ([apply_guard]).  A crash inside a critical section is the failure of
    the write at which it happens, followed by a crash. *)

From stdpp Require Export base gmap strings list fin_maps numbers pretty.
From Stdlib Require Export Lia.


(** ** Machine integers

    Go's [uint64] is a natural number below [two64]; the arithmetic the
    program performs on indices, terms and offsets wraps around. *)

Declare Scope go_scope.
Delimit Scope go_scope with go.

Abbreviation two64 := (18446744073709551616%N).

Definition uadd (a b : N) : N := ((a + b) mod two64)%N.
Definition usub (a b : N) : N := ((a + two64 - b mod two64) mod two64)%N.

Infix "+u" := uadd (at level 50, left associativity) : go_scope.
Infix "-u" := usub (at level 50, left associativity) : go_scope.
#[global] Open Scope go_scope.

(** [len s] is Go's [len] of a slice, converted to [uint64]. *)
Definition len {A} (l : list A) : N := N.of_nat (length l).

Lemma uadd_small (a b : N) : (a + b < two64)%N → a +u b = (a + b)%N.
Proof. intros. unfold uadd. by rewrite N.mod_small. Qed.

Lemma usub_small (a b : N) : (b ≤ a < two64)%N → a -u b = (a - b)%N.
Proof.
  intros. unfold usub. rewrite (N.mod_small b) by lia.
  replace (a + two64 - b)%N with ((a - b) + 1 * two64)%N by lia.
  rewrite N.Div0.mod_add. apply N.mod_small. lia.
Qed.

Lemma uadd_lt (a b : N) : (a +u b < two64)%N.
Proof. unfold uadd. apply N.mod_lt. lia. Qed.

Lemma uadd_overflow (a : N) : (a = two64 - 1)%N → a +u 1 = 0%N.
Proof. intros ->. reflexivity. Qed.

(** ** Tactics

    [usimp] removes the wrap-around of additions and subtractions whose
    result is known to be in range; [mcase] splits the first decision or
    match of the goal or of a hypothesis. *)
Ltac usimp :=
  repeat match goal with
  | |- context [?a +u ?b] => rewrite (uadd_small a b) by lia
  | |- context [?a -u ?b] => rewrite (usub_small a b) by lia
  | H : context [?a +u ?b] |- _ => rewrite (uadd_small a b) in H by lia
  | H : context [?a -u ?b] |- _ => rewrite (usub_small a b) in H by lia
  end.

Ltac mcase :=
  match goal with
  | |- context [decide ?P] => destruct (decide P)
  | H : context [decide ?P] |- _ => destruct (decide P)
  end.

Create HintDb raft.
Create Rewrite HintDb len.

(** ** Lists *)

(** The last element of a non-empty list, with the default Go would panic
    on replaced by a value: only ever used behind a length test. *)
Lemma last_lookup_app {A} (l : list A) (x : A) : last (l ++ [x]) = Some x.
Proof. by rewrite last_snoc. Qed.

Lemma filter_none {A} (P : A → Prop) `{∀ x, Decision (P x)} (l : list A) :
  Forall (λ x, ¬ P x) l → filter P l = [].
Proof.
  induction 1 as [|x l Hx _ IH]; [done|]. by rewrite filter_cons_False.
Qed.

Lemma filter_all {A} (P : A → Prop) `{∀ x, Decision (P x)} (l : list A) :
  Forall P l → filter P l = l.
Proof.
  induction 1 as [|x l Hx _ IH]; [done|]. rewrite filter_cons_True; congruence.
Qed.

(** A filter that is false on a prefix and true on the rest is a [drop]. *)
Lemma filter_split_at {A} (P : A → Prop) `{∀ x, Decision (P x)} (l : list A) (k : nat) :
  (∀ i x, l !! i = Some x → (P x ↔ k ≤ i)) → filter P l = drop k l.
Proof.
  intros Hk. rewrite <- (take_drop k l) at 1. rewrite filter_app.
  rewrite (filter_none _ (take k l)), (filter_all _ (drop k l)); [done| |].
  - apply Forall_lookup. intros i x Hi. rewrite lookup_drop in Hi.
    apply (Hk _ _ Hi). lia.
  - apply Forall_lookup. intros i x Hi.
    assert (i < k) by (apply lookup_lt_Some in Hi; rewrite length_take in Hi; lia).
    rewrite lookup_take_lt in Hi by done. rewrite (Hk _ _ Hi). lia.
Qed.

Lemma last_lookup_len {A} (l : list A) : last l = l !! pred (length l).
Proof. apply last_lookup. Qed.
