(* ===== verification/Types.v ===== *)
(** * Data types

    The structs of [internal/storage/types.go] and
    [internal/raft/types.go], and the error values of the module.  A field
    whose Go name occurs in several structs carries a short prefix of its
    struct's name. *)

From S2P Require Import Prelude.

(** ** internal/storage/types.go *)

(** Operations are Go strings: an unknown operation is representable, and
    the state machine rejects it. *)
Definition Operation := string.
Definition OpPut : Operation := "put".
Definition OpDelete : Operation := "delete".
Definition OpCAS : Operation := "cas".
Definition OpNoop : Operation := "noop".

Record Command := mkCommand {
  Op : Operation;
  Key : string;
  Value : string;
  Expected : string }.

Record ApplyResult := mkApplyResult {
  OK : bool;
  Found : bool;
  ResValue : string;
  Swapped : bool;
  ResError : string }.

Record LogEntry := mkLogEntry {
  Index : N;
  Term : N;
  EntryCommand : Command }.

Record HardState := mkHardState {
  CurrentTerm : N;
  VotedFor : string;
  CommitIndex : N }.

(** A Go map is a pointer: the [nil] map is [None]. *)
Record Snapshot := mkSnapshot {
  LastIncludedIndex : N;
  LastIncludedTerm : N;
  Data : option (gmap string string) }.

Definition zeroCommand : Command := mkCommand "" "" "" "".
Definition zeroApplyResult : ApplyResult := mkApplyResult false false "" false "".
Definition zeroLogEntry : LogEntry := mkLogEntry 0 0 zeroCommand.
Definition zeroHardState : HardState := mkHardState 0 "" 0.
Definition zeroSnapshot : Snapshot := mkSnapshot 0 0 None.

#[global] Instance Command_eq_dec : EqDecision Command.
Proof. solve_decision. Defined.
#[global] Instance ApplyResult_eq_dec : EqDecision ApplyResult.
Proof. solve_decision. Defined.
#[global] Instance LogEntry_eq_dec : EqDecision LogEntry.
Proof. solve_decision. Defined.
#[global] Instance HardState_eq_dec : EqDecision HardState.
Proof. solve_decision. Defined.

(** ** Errors

    The error values the module creates, wraps and inspects.  [ErrText] is
    [errors.New] or [fmt.Errorf] without a wrapped error; [WrapError] is
    [fmt.Errorf] with [%w]. *)
Inductive error :=
  | ErrNotLeader
  | ErrNodeStopped
  | NotLeaderError (LeaderID LeaderAddress : string)
  | ProposalUnknownError (ErrIndex : N) (Err : error)
  | ErrNotExist
  | ContextCanceled
  | ContextDeadlineExceeded
  | ErrText (msg : string)
  | WrapError (msg : string) (err : error).

#[global] Instance error_eq_dec : EqDecision error.
Proof. solve_decision. Defined.

(** The [Error()] method of each error value. *)
Fixpoint Error (e : error) : string :=
  match e with
  | ErrNotLeader => "not leader"
  | ErrNodeStopped => "node stopped"
  | NotLeaderError id addr =>
      if decide (addr = "") then "not leader"
      else "not leader: leader=" +:+ id +:+ " addr=" +:+ addr
  | ProposalUnknownError i e' =>
      "proposal accepted at log index " +:+ pretty i +:+ " but result unknown: " +:+ Error e'
  | ErrNotExist => "file does not exist"
  | ContextCanceled => "context canceled"
  | ContextDeadlineExceeded => "context deadline exceeded"
  | ErrText msg => msg
  | WrapError msg e' => msg +:+ ": " +:+ Error e'
  end.

(** [Unwrap()]: only these two kinds of error wrap another one. *)
Definition Unwrap (e : error) : option error :=
  match e with
  | ProposalUnknownError _ e' | WrapError _ e' => Some e'
  | _ => None
  end.

(** [errors.Is(err, ErrNotLeader)] follows the [Unwrap] chain. *)
Fixpoint errors_Is_NotLeader (e : error) : bool :=
  match e with
  | ErrNotLeader => true
  | ProposalUnknownError _ e' | WrapError _ e' => errors_Is_NotLeader e'
  | _ => false
  end.

(** [errors.As(err, &target)] for a target of type [NotLeaderError]. *)
Fixpoint errors_As_NotLeader (e : error) : option (string * string) :=
  match e with
  | NotLeaderError id addr => Some (id, addr)
  | ProposalUnknownError _ e' | WrapError _ e' => errors_As_NotLeader e'
  | _ => None
  end.

Definition IsNotLeader (err : option error) : bool :=
  match err with
  | None => false
  | Some e => errors_Is_NotLeader e || bool_decide (is_Some (errors_As_NotLeader e))
  end.

(** ** internal/raft/types.go *)

Inductive Role := Follower | Candidate | Leader.
#[global] Instance Role_eq_dec : EqDecision Role.
Proof. solve_decision. Defined.

(** The [string(role)] conversion of [Role]; a zero [Role] is the empty string. *)
Definition Role_string (r : Role) : string :=
  match r with Follower => "follower" | Candidate => "candidate" | Leader => "leader" end.

Record Config := mkConfig {
  cfg_ID : string;
  cfg_Address : string;
  cfg_Peers : option (gmap string string);
  cfg_ClientAddresses : option (gmap string string);
  cfg_ElectionTimeoutMin : Z;
  cfg_ElectionTimeoutMax : Z;
  cfg_HeartbeatInterval : Z;
  cfg_ReadTimeout : Z;
  cfg_SnapshotThreshold : Z;
  cfg_SnapshotChunkBytes : Z }.

Record RequestVoteRequest := mkRequestVoteRequest {
  rv_Term : N;
  rv_CandidateID : string;
  rv_LastLogIndex : N;
  rv_LastLogTerm : N }.

Record RequestVoteResponse := mkRequestVoteResponse {
  rvr_Term : N;
  rvr_VoteGranted : bool }.

Record AppendEntriesRequest := mkAppendEntriesRequest {
  ae_Term : N;
  ae_LeaderID : string;
  ae_PrevLogIndex : N;
  ae_PrevLogTerm : N;
  ae_Entries : list LogEntry;
  ae_LeaderCommit : N }.

Record AppendEntriesResponse := mkAppendEntriesResponse {
  aer_Term : N;
  aer_Success : bool;
  aer_LastLogIndex : N;
  aer_ConflictIndex : N }.

Record InstallSnapshotRequest := mkInstallSnapshotRequest {
  is_Term : N;
  is_LeaderID : string;
  is_LastIncludedIndex : N;
  is_LastIncludedTerm : N;
  is_Offset : N;
  is_Data : list Byte.byte;
  is_Done : bool }.

Record InstallSnapshotResponse := mkInstallSnapshotResponse {
  isr_Term : N;
  isr_Success : bool;
  isr_BytesReceived : N }.

Record PeerStatus := mkPeerStatus {
  ps_ID : string;
  ps_Address : string;
  ps_NextIndex : N;
  ps_MatchIndex : N }.

(** [st_Role] is [None] for the zero [Role]. *)
Record Status := mkStatus {
  st_ID : string;
  st_Address : string;
  st_Role : option Role;
  st_Term : N;
  st_LeaderID : string;
  st_LeaderAddress : string;
  st_CommitIndex : N;
  st_LastApplied : N;
  st_LastLogIndex : N;
  st_SnapshotIndex : N;
  st_Peers : list PeerStatus }.

#[global] Instance RequestVoteRequest_eq_dec : EqDecision RequestVoteRequest.
Proof. solve_decision. Defined.
#[global] Instance RequestVoteResponse_eq_dec : EqDecision RequestVoteResponse.
Proof. solve_decision. Defined.
#[global] Instance AppendEntriesResponse_eq_dec : EqDecision AppendEntriesResponse.
Proof. solve_decision. Defined.
#[global] Instance InstallSnapshotResponse_eq_dec : EqDecision InstallSnapshotResponse.
Proof. solve_decision. Defined.

(** A response that carries a leader hint never reads as "not a leader error":
    [IsNotLeader] recognises both spellings of the error, wrapped or not. *)
Lemma IsNotLeader_wrapped (e : error) (i : N) :
  IsNotLeader (Some (ProposalUnknownError i e)) = IsNotLeader (Some e).
Proof. done. Qed.
