(* ===== verification/GoStrings.v ===== *)
(** * Go's string functions

    What the program uses of the packages strings, strconv and time: [Split]
    and [Cut] with a one-character separator, [TrimSpace], [Quote], [Atoi]
    and [ParseDuration].  A character is a rune below 256; the white space
    among them is that of [unicode.IsSpace], and [UTF-8] encodes it in one byte
    or two. *)

From S2P Require Import Prelude Types.

(** ** Package strings *)

Definition isSpace (a : Ascii.ascii) : bool :=
  let c := Ascii.N_of_ascii a in
  bool_decide (c = 32 ∨ 9 ≤ c ≤ 13 ∨ c = 133 ∨ c = 160)%N.

Fixpoint trimLeftSpace (s : string) : string :=
  match s with
  | String a s' => if isSpace a then trimLeftSpace s' else s
  | EmptyString => EmptyString
  end.

(** Drops the white space at the end. *)
Fixpoint trimRightSpace (s : string) : string :=
  match s with
  | String a s' =>
      match trimRightSpace s' with
      | EmptyString => if isSpace a then EmptyString else String a EmptyString
      | s' => String a s'
      end
  | EmptyString => EmptyString
  end.

Definition TrimSpace (s : string) : string := trimRightSpace (trimLeftSpace s).

(** [strings.Split(s, sep)]: never empty. *)
Fixpoint Split (sep : Ascii.ascii) (s : string) : list string :=
  match s with
  | EmptyString => [EmptyString]
  | String a s' =>
      if decide (a = sep) then EmptyString :: Split sep s'
      else match Split sep s' with
           | p :: ps => String a p :: ps
           | [] => [String a EmptyString]
           end
  end.

(** [strings.Cut(s, sep)]: [None] when the separator does not occur. *)
Fixpoint Cut (sep : Ascii.ascii) (s : string) : option (string * string) :=
  match s with
  | EmptyString => None
  | String a s' =>
      if decide (a = sep) then Some (EmptyString, s')
      else '(before, after) ← Cut sep s'; Some (String a before, after)
  end.

Fixpoint Join (sep : Ascii.ascii) (ps : list string) : string :=
  match ps with
  | [] => EmptyString
  | [p] => p
  | p :: ps => p +:+ String sep (Join sep ps)
  end.

(** [a] does not occur in [s]. *)
Fixpoint free (a : Ascii.ascii) (s : string) : bool :=
  match s with
  | EmptyString => true
  | String b s => bool_decide (a ≠ b) && free a s
  end.

(** A string that starts, or ends, with a character that is not white
    space. *)
Definition headSolid (s : string) : bool :=
  match s with String a _ => negb (isSpace a) | EmptyString => false end.
Fixpoint lastSolid (s : string) : bool :=
  match s with
  | EmptyString => false
  | String a EmptyString => negb (isSpace a)
  | String _ s => lastSolid s
  end.

(** ** Quoting *)

Definition chr (c : N) : Ascii.ascii := Ascii.ascii_of_N c.
Definition lowerhex (n : N) : Ascii.ascii := chr (if decide (n < 10)%N then 48 + n else 87 + n)%N.

(** Two hexadecimal digits. *)
Definition hex2 (c : N) (s : string) : string := String (lowerhex (c / 16)) (String (lowerhex (c mod 16)) s).

(** The letter of the one-letter escapes of [strconv.Quote]. *)
Definition escapeLetter (c : N) : option Ascii.ascii :=
  match c with
  | 7 => Some (chr 97) | 8 => Some (chr 98) | 12 => Some (chr 102) | 10 => Some (chr 110)
  | 13 => Some (chr 114) | 9 => Some (chr 116) | 11 => Some (chr 118)
  | 34 => Some (chr 34) | 92 => Some (chr 92) | _ => None
  end%N.

Fixpoint quoteChars (s : string) : string :=
  match s with
  | EmptyString => String (chr 34) EmptyString
  | String a s =>
      let c := Ascii.N_of_ascii a in
      match escapeLetter c with
      | Some l => String (chr 92) (String l (quoteChars s))
      | None =>
          if decide (c < 32 ∨ c = 127)%N then String (chr 92) (String (chr 120) (hex2 c (quoteChars s)))
          else if decide (128 ≤ c ≤ 160 ∨ c = 173)%N then
            String (chr 92) (String (chr 117) (String (chr 48) (String (chr 48) (hex2 c (quoteChars s)))))
          else String a (quoteChars s)
      end
  end.

(** [strconv.Quote], which is [%q]. *)
Definition quoted (s : string) : string := String (chr 34) (quoteChars s).

(** The [quote] of package time. *)
Fixpoint timeQuoteChars (s : string) : string :=
  match s with
  | EmptyString => String (chr 34) EmptyString
  | String a s =>
      let c := Ascii.N_of_ascii a in
      if decide (c < 32)%N then String (chr 92) (String (chr 120) (hex2 c (timeQuoteChars s)))
      else if decide (128 ≤ c)%N then
        String (chr 92) (String (chr 120) (hex2 (192 + c / 64)
          (String (chr 92) (String (chr 120) (hex2 (128 + c mod 64) (timeQuoteChars s))))))
      else if decide (c = 34 ∨ c = 92)%N then String (chr 92) (String a (timeQuoteChars s))
      else String a (timeQuoteChars s)
  end.
Definition timeQuote (s : string) : string := String (chr 34) (timeQuoteChars s).

(** ** Numbers *)

Definition digit (a : Ascii.ascii) : option N :=
  let c := Ascii.N_of_ascii a in if decide (48 ≤ c ≤ 57)%N then Some (c - 48)%N else None.

(** The value of a string of digits, one at least. *)
Fixpoint digitsValue (acc : N) (s : string) : option N :=
  match s with
  | EmptyString => Some acc
  | String a s => d ← digit a; digitsValue (acc * 10 + d)%N s
  end.

(** A sign, when there is one: [true] for a minus. *)
Definition cutSign (s : string) : bool * string :=
  match s with
  | String a s' =>
      if decide (a = chr 45) then (true, s') else if decide (a = chr 43) then (false, s') else (false, s)
  | EmptyString => (false, s)
  end.

(** [strconv.Atoi]; [None] is a syntax or a range error. *)
Definition Atoi (s : string) : option Z :=
  let '(neg, ds) := cutSign s in
  if decide (ds = EmptyString) then None else
  v ← digitsValue 0 ds;
  let z := (if neg then - Z.of_N v else Z.of_N v)%Z in
  if decide (- 2 ^ 63 ≤ z < 2 ^ 63)%Z then Some z else None.

(** ** Durations

    [time.ParseDuration]: a signed sequence of decimal numbers with a unit
    each.  The product that scales a fraction is computed in floating point;
    it is the parameter [fracProduct f unit e] for a fraction of value
    [f / 10^e]. *)
Abbreviation two63 := (9223372036854775808%N).

Definition invalidDuration (orig : string) : error := ErrText ("time: invalid duration " +:+ timeQuote orig).

(** [leadingInt]; [None] is an overflow. *)
Fixpoint leadingInt (x : N) (s : string) : option (N * string) :=
  match s with
  | EmptyString => Some (x, s)
  | String a s' =>
      match digit a with
      | None => Some (x, s)
      | Some d =>
          if decide (two63 / 10 < x)%N then None
          else if decide (two63 < x * 10 + d)%N then None
          else leadingInt (x * 10 + d)%N s'
      end
  end.

(** [leadingFraction]: the value, the exponent of its scale and the rest;
    digits that would overflow are dropped. *)
Fixpoint leadingFraction (x e : N) (overflow : bool) (s : string) : N * N * string :=
  match s with
  | EmptyString => (x, e, s)
  | String a s' =>
      match digit a with
      | None => (x, e, s)
      | Some d =>
          if overflow then leadingFraction x e true s'
          else if decide ((two63 - 1) / 10 < x)%N then leadingFraction x e true s'
          else if decide (two63 < x * 10 + d)%N then leadingFraction x e true s'
          else leadingFraction (x * 10 + d)%N (e + 1)%N false s'
      end
  end.

Definition isDot (a : Ascii.ascii) : bool := bool_decide (a = chr 46).

(** The characters up to the next digit or period, and the rest. *)
Fixpoint cutUnit (s : string) : string * string :=
  match s with
  | EmptyString => (EmptyString, EmptyString)
  | String a s' =>
      if isDot a || bool_decide (is_Some (digit a)) then (EmptyString, s)
      else let '(u, rest) := cutUnit s' in (String a u, rest)
  end.

(** [unitMap], in nanoseconds; the micro sign is the character 181. *)
Definition unitMap (u : string) : option N :=
  if decide (u = "ns") then Some 1%N
  else if decide (u = "us" ∨ u = String (chr 181) "s") then Some 1000%N
  else if decide (u = "ms") then Some 1000000%N
  else if decide (u = "s") then Some 1000000000%N
  else if decide (u = "m") then Some 60000000000%N
  else if decide (u = "h") then Some 3600000000000%N
  else None.

Section duration.
Context (fracProduct : N → N → N → N).

(** The optional fraction: value, exponent, whether it had digits, rest. *)
Definition durationFraction (s : string) : N * N * bool * string :=
  match s with
  | String a s' =>
      if isDot a then
        let '(f, e, rest) := leadingFraction 0 0 false s' in
        (f, e, bool_decide (String.length s' ≠ String.length rest), rest)
      else (0%N, 0%N, false, s)
  | EmptyString => (0%N, 0%N, false, s)
  end.

(** One number with its unit: its value and the rest. *)
Definition durationTerm (orig s : string) : N * string + error :=
  match s with
  | EmptyString => inr (invalidDuration orig)
  | String a _ =>
      if isDot a || bool_decide (is_Some (digit a)) then
        match leadingInt 0 s with
        | None => inr (invalidDuration orig)
        | Some (v, s1) =>
            let pre := bool_decide (String.length s ≠ String.length s1) in
            let '(f, e, post, s2) := durationFraction s1 in
            if negb pre && negb post then inr (invalidDuration orig)
            else
              let '(u, s3) := cutUnit s2 in
              if decide (u = "") then inr (ErrText ("time: missing unit in duration " +:+ timeQuote orig))
              else match unitMap u with
                   | None => inr (ErrText ("time: unknown unit " +:+ timeQuote u +:+ " in duration " +:+ timeQuote orig))
                   | Some unit =>
                       if decide (two63 / unit < v)%N then inr (invalidDuration orig)
                       else
                         let v := (v * unit)%N in
                         if decide (0 < f)%N then
                           let v := v +u fracProduct f unit e in
                           if decide (two63 < v)%N then inr (invalidDuration orig) else inl (v, s3)
                         else inl (v, s3)
                   end
        end
      else inr (invalidDuration orig)
  end.

(** The loop; a term consumes a character at least, so that the length of the
    string is fuel enough. *)
Fixpoint durationLoop (fuel : nat) (orig s : string) (d : N) : N + error :=
  match s, fuel with
  | EmptyString, _ => inl d
  | _, O => inr (invalidDuration orig)
  | _, S fuel =>
      match durationTerm orig s with
      | inr err => inr err
      | inl (v, s) =>
          let d := d +u v in
          if decide (two63 < d)%N then inr (invalidDuration orig) else durationLoop fuel orig s d
      end
  end.

Definition ParseDuration (orig : string) : Z + error :=
  let '(neg, s) := cutSign orig in
  if decide (s = "0") then inl 0%Z
  else if decide (s = "") then inr (invalidDuration orig)
  else match durationLoop (String.length s) orig s 0 with
       | inr err => inr err
       | inl d =>
           if neg then inl (- Z.of_N d)%Z
           else if decide (two63 - 1 < d)%N then inr (invalidDuration orig)
           else inl (Z.of_N d)
       end.

End duration.

(** ** Lemmas *)

#[local] Arguments decide : simpl never.

(** [String.append] does not reduce by simplification. *)
Lemma append_cons a s t : String a s +:+ t = String a (s +:+ t).
Proof. done. Qed.

Lemma Split_free sep s : free sep s = true → Split sep s = [s].
Proof.
  induction s as [|a s IH]; [done|]. cbn. intros [Ha Hs]%andb_true_iff.
  apply bool_decide_eq_true in Ha. rewrite decide_False by congruence. by rewrite IH.
Qed.

Lemma Split_cons sep p s : free sep p = true → Split sep (p +:+ String sep s) = p :: Split sep s.
Proof.
  induction p as [|a p IH]; rewrite ?append_cons; cbn [Split free]; [intros _|].
  { change (Split sep (String sep s) = EmptyString :: Split sep s). cbn [Split]. by rewrite decide_True. }
  intros [Ha Hp]%andb_true_iff.
  apply bool_decide_eq_true in Ha. rewrite decide_False by congruence. by rewrite IH.
Qed.

(** Splitting what was joined. *)
Lemma Split_Join sep ps : ps ≠ [] → Forall (λ p, free sep p = true) ps → Split sep (Join sep ps) = ps.
Proof.
  intros Hne Hf. destruct ps as [|p ps]; [done|]. clear Hne. revert p Hf.
  induction ps as [|q ps IH]; intros p Hf; apply Forall_cons in Hf as [Hp Hf].
  - by apply Split_free.
  - change (Join sep (p :: q :: ps)) with (p +:+ String sep (Join sep (q :: ps))).
    rewrite Split_cons by done. by rewrite IH.
Qed.

Lemma Cut_app sep k v : free sep k = true → Cut sep (k +:+ String sep v) = Some (k, v).
Proof.
  induction k as [|a k IH]; rewrite ?append_cons; cbn [Cut free]; [intros _|].
  { change (Cut sep (String sep v) = Some (EmptyString, v)). cbn [Cut]. by rewrite decide_True. }
  intros [Ha Hk]%andb_true_iff.
  apply bool_decide_eq_true in Ha. rewrite decide_False by congruence. by rewrite IH.
Qed.

Lemma free_app a s t : free a (s +:+ t) = free a s && free a t.
Proof. induction s as [|b s IH]; [done|]. rewrite append_cons. cbn. by rewrite IH, andb_assoc. Qed.

Lemma headSolid_app s t : headSolid s = true → headSolid (s +:+ t) = true.
Proof. by destruct s. Qed.

Lemma lastSolid_app s t : lastSolid t = true → lastSolid (s +:+ t) = true.
Proof.
  intros Ht. induction s as [|a s IH]; [done|]. rewrite append_cons. cbn.
  by destruct (s +:+ t).
Qed.

Lemma trimRight_solid s : lastSolid s = true → trimRightSpace s = s.
Proof.
  induction s as [|a s IH]; [done|]. destruct s as [|b s].
  - cbn. by destruct (isSpace a).
  - intros Hs. specialize (IH Hs). cbn in *. by rewrite IH.
Qed.

Lemma TrimSpace_solid s : headSolid s = true → lastSolid s = true → TrimSpace s = s.
Proof.
  intros Hh Hl. unfold TrimSpace. destruct s as [|a s]; [done|]. cbn in Hh. cbn [trimLeftSpace].
  destruct (isSpace a); [done|]. by apply trimRight_solid.
Qed.

(** *** Decimal numbers *)

Lemma digit_pretty (d : N) : (d < 10)%N → digit (pretty_N_char d) = Some d.
Proof.
  intros Hd. assert (Forall (λ d, digit (pretty_N_char d) = Some d) [0;1;2;3;4;5;6;7;8;9]%N) as Hf
    by (repeat constructor).
  rewrite Forall_forall in Hf. apply Hf. rewrite !elem_of_cons. lia.
Qed.

(** Reading back a number that was printed. *)
Lemma leadingInt_go x : (x ≤ two63)%N → ∀ s, leadingInt 0 (pretty_N_go x s) = leadingInt x s.
Proof.
  induction (N.lt_wf_0 x) as [x _ IH]. intros Hx s. destruct (decide (x = 0%N)) as [->|Hne].
  { by rewrite pretty_N_go_0. }
  rewrite pretty_N_go_step by lia.
  pose proof (N.mod_lt x 10 ltac:(lia)) as Hm. pose proof (N.div_mod x 10 ltac:(lia)) as Hd.
  pose proof (N.div_lt x 10 ltac:(lia) ltac:(lia)) as Hlt.
  rewrite IH by (done || by apply N.lt_le_incl, (N.lt_le_trans _ x)). cbn [leadingInt]. rewrite digit_pretty by lia.
  replace (x / 10 * 10 + x mod 10)%N with x by (rewrite N.mul_comm; exact Hd).
  rewrite (decide_False (P:=(two63 / 10 < x / 10)%N)) by (apply N.le_ngt, N.Div0.div_le_mono; lia).
  by rewrite decide_False by lia.
Qed.

Definition headDigit (s : string) : bool :=
  match s with String a _ => bool_decide (is_Some (digit a)) | EmptyString => false end.

Lemma pretty_go_head x : ∀ s, (0 < x)%N ∨ headDigit s = true → headDigit (pretty_N_go x s) = true.
Proof.
  induction (N.lt_wf_0 x) as [x _ IH]. intros s Hs. destruct (decide (x = 0%N)) as [->|Hne].
  { rewrite pretty_N_go_0. by destruct Hs; [lia|]. }
  rewrite pretty_N_go_step by lia. apply IH; [apply N.div_lt; lia|right]. cbn.
  rewrite digit_pretty by (apply N.mod_lt; lia). by apply bool_decide_eq_true.
Qed.

Lemma pretty_go_app x : ∀ s t, pretty_N_go x (s +:+ t) = pretty_N_go x s +:+ t.
Proof.
  induction (N.lt_wf_0 x) as [x _ IH]. intros s t. destruct (decide (x = 0%N)) as [->|Hne].
  { by rewrite !pretty_N_go_0. }
  rewrite !(pretty_N_go_step x) by lia. rewrite <- append_cons. apply IH, N.div_lt; lia.
Qed.

(** A number of a unit. *)
Definition showDuration (n : N) (u : string) : string := pretty n +:+ u.

Lemma unit_nonempty u k : unitMap u = Some k → headDigit u = false ∧ cutSign u = (false, u) ∧
  durationFraction u = (0%N, 0%N, false, u) ∧ cutUnit u = (u, "") ∧ u ≠ "" ∧ (0 < k)%N.
Proof.
  unfold unitMap. repeat case_decide; intros [= <-]; subst; repeat match goal with H : _ ∨ _ |- _ => destruct H; subst end;
    split_and!; try reflexivity; lia || done.
Qed.

Lemma pretty_head (n : N) : headDigit (pretty n) = true.
Proof.
  destruct (decide (n = 0%N)) as [->|Hn]; [reflexivity|]. unfold pretty, pretty_N. rewrite decide_False by done.
  apply pretty_go_head. left. lia.
Qed.

Lemma leadingInt_show n u : (n ≤ two63)%N → headDigit u = false → leadingInt 0 (showDuration n u) = Some (n, u).
Proof.
  intros Hn Hu. assert (leadingInt n u = Some (n, u)) as Hl.
  { destruct u as [|a u]; [done|]. cbn in *. destruct (digit a); [|done]. apply bool_decide_eq_false in Hu. by destruct Hu. }
  unfold showDuration, pretty, pretty_N. case_decide as H0.
  - subst n. rewrite append_cons. cbn [leadingInt]. exact Hl.
  - rewrite <- pretty_go_app. by rewrite leadingInt_go.
Qed.

Lemma headDigit_app s t : headDigit s = true → headDigit (s +:+ t) = true.
Proof. by destruct s. Qed.

Lemma length_app_string s t : String.length (s +:+ t) = String.length s + String.length t.
Proof. induction s as [|a s IH]; [done|]. rewrite append_cons. cbn. by rewrite IH. Qed.

Lemma headDigit_shape s : headDigit s = true → ∃ a s', s = String a s' ∧ is_Some (digit a) ∧ cutSign s = (false, s).
Proof.
  destruct s as [|a s]; [done|]. cbn. intros Ha%bool_decide_eq_true. exists a, s. split_and!; [done|done|].
  destruct Ha as [d Ha]. rewrite !decide_False; [done|intros ->; by vm_compute in Ha..].
Qed.

Lemma durationTerm_show frac orig n u k :
  unitMap u = Some k → (n * k ≤ two63)%N → durationTerm frac orig (showDuration n u) = inl ((n * k)%N, "").
Proof.
  intros Hu Hn. destruct (unit_nonempty u k Hu) as (Hd & _ & Hf & Hc & Hne & Hk).
  assert (n ≤ two63)%N as Hn' by nia.
  pose proof (leadingInt_show n u Hn' Hd) as Hl. pose proof (headDigit_app _ u (pretty_head n)) as Hs.
  pose proof (length_app_string (pretty n) u) as Hlen. fold (showDuration n u) in Hs, Hlen.
  assert (0 < String.length (pretty n)) as Hp.
  { destruct (headDigit_shape _ (pretty_head n)) as (? & ? & -> & _). cbn. lia. }
  apply headDigit_shape in Hs as (a & s' & Hs & Ha & _). unfold durationTerm. rewrite Hl. rewrite Hs in *.
  rewrite (bool_decide_eq_true_2 _ Ha), orb_true_r. rewrite bool_decide_eq_true_2 by lia.
  rewrite Hf, Hc. cbn [negb andb]. rewrite decide_False, Hu by done.
  rewrite decide_False by (apply N.le_ngt, N.div_le_lower_bound; lia). by rewrite decide_False by lia.
Qed.

(** A whole number of a unit is read exactly, as far as it fits. *)
Lemma ParseDuration_show frac n u k :
  unitMap u = Some k → (n * k < two63)%N → ParseDuration frac (showDuration n u) = inl (Z.of_N (n * k)).
Proof.
  intros Hu Hn. pose proof (headDigit_app _ u (pretty_head n)) as Hs. fold (showDuration n u) in Hs.
  destruct (headDigit_shape _ Hs) as (a & s' & Heq & _ & Hc). unfold ParseDuration. rewrite Hc.
  pose proof (durationTerm_show frac (showDuration n u) n u k Hu ltac:(lia)) as Ht.
  assert (showDuration n u ≠ "0") as H0.
  { intros E. rewrite E in Ht. vm_compute in Ht. discriminate Ht. }
  rewrite decide_False by done. rewrite decide_False by (rewrite Heq; done).
  rewrite Heq in *. cbn [String.length durationLoop]. rewrite Ht, uadd_small by lia. rewrite N.add_0_l, decide_False by lia.
  destruct (String.length s'); cbn; by rewrite decide_False by lia.
Qed.

(** Every duration fits its type. *)
Lemma ParseDuration_range frac s d : ParseDuration frac s = inl d → (- 2 ^ 63 ≤ d < 2 ^ 63)%Z.
Proof.
  assert (∀ fuel orig s d0 d, (d0 ≤ two63)%N → durationLoop frac fuel orig s d0 = inl d → (d ≤ two63)%N) as Hl.
  { induction fuel as [|fuel IH]; intros orig [|a s'] d0 x Hd; cbn [durationLoop]; [by intros [= <-]|done|by intros [= <-]|].
    destruct (durationTerm _ _ _) as [[v rest]|err]; [|done]. case_decide; [done|]. intros E. eapply IH; [|done]. lia. }
  unfold ParseDuration. destruct (cutSign s) as [neg s'].
  case_decide; [intros [= <-]; lia|]. case_decide; [done|].
  destruct (durationLoop _ _ _ _ _) as [x|] eqn:E; [|done]. apply Hl in E; [|lia].
  destruct neg; [intros [= <-]; lia|]. case_decide; [done|]. intros [= <-]. lia.
Qed.
