(* ===== verification/StateMachine.v ===== *)
(** * The replicated state machine

    [internal/raft/statemachine.go] (the interface the node applies
    committed commands to) and [internal/server/state_machine.go] (the
    key-value implementation).  The interface is a type class with its
    laws; the node's theorems are proved against the class and
    [KVStateMachine] discharges it. *)

From S2P Require Import Prelude Types.

(** ** The interface

    [Apply] returns the result and the updated machine, [Snapshot] a copy
    of its data, [Restore] replaces the data ([None] is Go's nil map) and
    [Get] is the optional [valueReader] interface of [node.go]. *)
Class StateMachine (SM : Type) := {
  Apply : Command → SM → ApplyResult * SM;
  Snapshot_ : SM → gmap string string;
  Restore : option (gmap string string) → SM → SM;
  Get : string → SM → string * bool
}.

(** What the node relies on: restoring a snapshot yields the machine the
    snapshot was taken from, and the result of a restore does not depend on
    the machine it replaces. *)
Class StateMachineLaws (SM : Type) `{StateMachine SM} := {
  Restore_Snapshot : ∀ s s', Restore (Some (Snapshot_ s)) s' = s;
  Restore_indep : ∀ d s s', Restore d s = Restore d s'
}.

(** Applying a list of commands in order. *)
Definition apply_all `{StateMachine SM} (cs : list Command) (s : SM) : SM :=
  foldl (λ s c, (Apply c s).2) s cs.

Section apply_all.
Context `{StateMachine SM}.

Lemma apply_all_app (cs cs' : list Command) (s : SM) :
  apply_all (cs ++ cs') s = apply_all cs' (apply_all cs s).
Proof. unfold apply_all. by rewrite foldl_app. Qed.

Lemma apply_all_snoc (cs : list Command) (c : Command) (s : SM) :
  apply_all (cs ++ [c]) s = (Apply c (apply_all cs s)).2.
Proof. by rewrite apply_all_app. Qed.

End apply_all.

(** ** KVStateMachine *)
Module KV.

Record KVStateMachine := mkKV { data : gmap string string }.

Definition NewKVStateMachine : KVStateMachine := mkKV ∅.

(** Go's two-value map read: the zero value and [false] when absent. *)
Definition map_get (m : gmap string string) (k : string) : string * bool :=
  match m !! k with Some v => (v, true) | None => ("", false) end.

Definition kv_Apply (command : Command) (sm : KVStateMachine) : ApplyResult * KVStateMachine :=
  if decide (command.(Op) = OpPut) then
    (mkApplyResult true true command.(Value) false "",
     mkKV (<[command.(Key) := command.(Value)]> sm.(data)))
  else if decide (command.(Op) = OpDelete) then
    let '(previous, found) := map_get sm.(data) command.(Key) in
    (mkApplyResult true found previous false "",
     mkKV (delete command.(Key) sm.(data)))
  else if decide (command.(Op) = OpCAS) then
    let '(current, found) := map_get sm.(data) command.(Key) in
    if decide (found = false ∨ current ≠ command.(Expected)) then
      (mkApplyResult true found current false "", sm)
    else
      (mkApplyResult true true command.(Value) true "",
       mkKV (<[command.(Key) := command.(Value)]> sm.(data)))
  else if decide (command.(Op) = OpNoop) then
    (mkApplyResult true false "" false "", sm)
  else
    (mkApplyResult false false "" false "unknown command", sm).

(** [for key, value := range sm.data { out[key] = value }] into a fresh map:
    the fold inserts the keys in an arbitrary order. *)
Definition copy_map (m : gmap string string) : gmap string string :=
  map_fold (λ k v out, <[k := v]> out) ∅ m.

Definition kv_Snapshot (sm : KVStateMachine) : gmap string string := copy_map sm.(data).

Definition kv_Restore (snapshot : option (gmap string string)) (sm : KVStateMachine) : KVStateMachine :=
  mkKV (copy_map (default ∅ snapshot)).

Definition kv_Get (key : string) (sm : KVStateMachine) : string * bool :=
  map_get sm.(data) key.

#[global] Instance KVStateMachine_sm : StateMachine KVStateMachine := {|
  Apply := kv_Apply;
  Snapshot_ := kv_Snapshot;
  Restore := kv_Restore;
  Get := kv_Get
|}.

(** Copying entry by entry gives an equal map, in whatever order the
    entries are visited. *)
Lemma copy_map_id (m : gmap string string) : copy_map m = m.
Proof.
  unfold copy_map. apply map_fold_weak_ind; [done|]. by intros k v m' r _ ->.
Qed.

#[global] Instance KVStateMachine_laws : StateMachineLaws KVStateMachine.
Proof.
  split; [|done]. intros [s] [s']; cbn; unfold kv_Restore, kv_Snapshot; cbn.
  by rewrite !copy_map_id.
Qed.

(** *** The abstract specification: a partial map from keys to values

    [spec_apply] says what each operation means on a mathematical map; the
    executable machine refines it through [abs]. *)
Definition abs (sm : KVStateMachine) (k : string) : option string := sm.(data) !! k.

Definition upd (f : string → option string) (k : string) (v : option string) : string → option string :=
  λ k', if decide (k = k') then v else f k'.

(** The map after the operation. *)
Definition spec_apply (c : Command) (f : string → option string) : string → option string :=
  if decide (c.(Op) = OpPut) then upd f c.(Key) (Some c.(Value))
  else if decide (c.(Op) = OpDelete) then upd f c.(Key) None
  else if decide (c.(Op) = OpCAS ∧ f c.(Key) = Some c.(Expected)) then upd f c.(Key) (Some c.(Value))
  else f.

Lemma abs_insert (m : gmap string string) (k v k' : string) :
  abs (mkKV (<[k:=v]> m)) k' = upd (abs (mkKV m)) k (Some v) k'.
Proof. unfold abs, upd; cbn. rewrite lookup_insert. by repeat case_decide. Qed.

Lemma abs_delete (m : gmap string string) (k k' : string) :
  abs (mkKV (delete k m)) k' = upd (abs (mkKV m)) k None k'.
Proof. unfold abs, upd; cbn. rewrite lookup_delete. by repeat case_decide. Qed.

Lemma kv_Apply_abs (c : Command) (sm : KVStateMachine) (k : string) :
  abs (kv_Apply c sm).2 k = spec_apply c (abs sm) k.
Proof.
  destruct sm as [m]. unfold kv_Apply, spec_apply, map_get; cbn [data].
  change (abs (mkKV m) (Key c)) with (m !! Key c).
  destruct (decide (Op c = OpPut)); [apply abs_insert|].
  destruct (decide (Op c = OpDelete)).
  { destruct (m !! Key c); apply abs_delete. }
  destruct (decide (Op c = OpCAS)) as [Hc|Hc].
  - destruct (decide (Op c = OpCAS ∧ m !! Key c = Some (Expected c))) as [[_ ->]|Hne].
    + rewrite decide_False by naive_solver. apply abs_insert.
    + destruct (m !! Key c) as [v|]; rewrite decide_True by naive_solver; done.
  - rewrite (decide_False (P := Op c = OpCAS ∧ _)) by naive_solver. by case_decide.
Qed.

End KV.
Import KV.

(** ** Properties *)

(** C26. The key-value machine refines the abstract map semantics over any
    sequence of commands: after applying [cs] from any machine, reading any
    key with [Get] returns exactly what the abstract specification holds for
    it ([found] iff present). *)
Theorem kv_refines_map (cs : list Command) (sm : KVStateMachine) (k : string) :
  kv_Get k (apply_all cs sm)
  = match foldl (λ f c, spec_apply c f) (abs sm) cs k with
    | Some v => (v, true) | None => ("", false) end.
Proof.
  assert (abs (apply_all cs sm) k = foldl (λ f c, spec_apply c f) (abs sm) cs k) as <-; [|done].
  assert (∀ f, (∀ k, abs sm k = f k) →
    ∀ k, abs (apply_all cs sm) k = foldl (λ f c, spec_apply c f) f cs k) as Hgen; [|by apply Hgen].
  clear k. unfold apply_all. revert sm. induction cs as [|c cs IH]; intros sm f Hf k; [apply Hf|].
  apply IH. intros k'. cbn [Apply KVStateMachine_sm]. rewrite kv_Apply_abs.
  unfold spec_apply, upd. rewrite !Hf. by repeat case_match.
Qed.
