(* ===== verification/RaftLog.v ===== *)
(** * The in-memory log

    The log of a node is a snapshot plus the entries after it
    ([n.snapshot] and [n.log] of [internal/raft/node.go]).  This file
    models the functions of [node.go] that read and change this pair, each
    with the snapshot and the slice as arguments; a result [None] is Go's
    [ok == false]. *)

From S2P Require Import Prelude Types.

Implicit Types (snap : Snapshot) (log entries : list LogEntry) (index : N).

(** ** Definitions *)

Definition lastIndex snap entries : N :=
  match last entries with
  | None => snap.(LastIncludedIndex)
  | Some e => e.(Index)
  end.

Definition lastTerm snap log : N :=
  match last log with
  | None => snap.(LastIncludedTerm)
  | Some e => e.(Term)
  end.

Definition entryAt snap log index : option LogEntry :=
  if decide (index ≤ snap.(LastIncludedIndex))%N then None
  else
    let offset := index -u snap.(LastIncludedIndex) -u 1 in
    if decide (len log ≤ offset)%N then None
    else match log !! N.to_nat offset with
         | None => None
         | Some entry => if decide (entry.(Index) = index) then Some entry else None
         end.

Definition termAt snap log index : option N :=
  if decide (index = 0%N) then Some 0%N
  else if decide (index = snap.(LastIncludedIndex)) then Some snap.(LastIncludedTerm)
  else match entryAt snap log index with
       | None => None
       | Some entry => Some entry.(Term)
       end.

Definition entriesFrom log index : list LogEntry :=
  filter (λ entry, index ≤ entry.(Index))%N log.

(** The loop shared by [persistSnapshot] and [logAfterSnapshotLocked]:
    the entries with an index above the snapshot's. *)
Definition entriesAbove log index : list LogEntry :=
  filter (λ entry, index < entry.(Index))%N log.

Definition truncateFrom snap log index : list LogEntry :=
  if decide (index ≤ snap.(LastIncludedIndex))%N then []
  else
    let keep := index -u snap.(LastIncludedIndex) -u 1 in
    if decide (keep < len log)%N then take (N.to_nat keep) log else log.

(** [for index > snapshot.LastIncludedIndex+1 { ... index-- }]; the loop
    runs at most [index] times. *)
Fixpoint conflictLoop (fuel : nat) snap log (term index : N) : N :=
  match fuel with
  | O => index
  | S fuel =>
      if decide (snap.(LastIncludedIndex) +u 1 < index)%N then
        if decide (termAt snap log (index -u 1) = Some term) then
          conflictLoop fuel snap log term (index -u 1)
        else index
      else index
  end.

Definition conflictIndexOf snap log index : N :=
  if decide (lastIndex snap log < index)%N then lastIndex snap log +u 1
  else if decide (index ≤ snap.(LastIncludedIndex))%N then snap.(LastIncludedIndex) +u 1
  else match termAt snap log index with
       | None => lastIndex snap log +u 1
       | Some term => conflictLoop (N.to_nat index) snap log term index
       end.

Fixpoint validateLoop snap (prevLogIndex prev : N) entries : N :=
  match entries with
  | [] => 0
  | entry :: rest =>
      if decide (entry.(Index) ≤ snap.(LastIncludedIndex))%N then
        validateLoop snap prevLogIndex prev rest
      else if decide (prev = 0%N ∧ entry.(Index) ≠ prevLogIndex +u 1) then prevLogIndex +u 1
      else if decide (prev ≠ 0%N ∧ entry.(Index) ≠ prev +u 1) then prev +u 1
      else validateLoop snap prevLogIndex entry.(Index) rest
  end.

Definition validateEntries snap (prevLogIndex : N) entries : N :=
  validateLoop snap prevLogIndex 0 entries.

Record mergeEntriesResult := mkMerge {
  changed : bool;
  replaced : bool;
  appended : list LogEntry;
  conflictIndex : N;
  lastNewIndex : N }.

Fixpoint mergeLastNew snap (lastNew : N) entries : N :=
  match entries with
  | [] => lastNew
  | entry :: rest =>
      mergeLastNew snap
        (if decide (snap.(LastIncludedIndex) < entry.(Index) ∧ lastNew < entry.(Index))%N
         then entry.(Index) else lastNew) rest
  end.

(** The second loop of [mergeEntriesLocked]; the log is mutated as it runs. *)
Fixpoint mergeLoop snap (commit lastNew : N) (result : mergeEntriesResult) log entries
    : mergeEntriesResult * list LogEntry :=
  match entries with
  | [] => (result, log)
  | entry :: rest =>
      if decide (entry.(Index) ≤ snap.(LastIncludedIndex))%N then
        mergeLoop snap commit lastNew result log rest
      else if decide (entry.(Index) ≤ lastIndex snap log)%N then
        if decide (termAt snap log entry.(Index) = Some entry.(Term)) then
          mergeLoop snap commit lastNew result log rest
        else if decide (entry.(Index) ≤ commit)%N then
          (mkMerge false false [] entry.(Index) lastNew, log)
        else
          (mkMerge true true [] 0 lastNew,
           truncateFrom snap log entry.(Index) ++ entry :: rest)
      else if decide (entry.(Index) ≠ lastIndex snap log +u 1) then
        (mkMerge false false [] (lastIndex snap log +u 1) 0, log)
      else
        mergeLoop snap commit lastNew
          (mkMerge true result.(replaced) (result.(appended) ++ [entry])
                   result.(conflictIndex) result.(lastNewIndex))
          (log ++ [entry]) rest
  end.

Definition mergeEntries snap (commit : N) log (prevLogIndex : N) entries
    : mergeEntriesResult * list LogEntry :=
  let lastNew := mergeLastNew snap prevLogIndex entries in
  let conflict := validateEntries snap prevLogIndex entries in
  if decide (0 < conflict)%N then (mkMerge false false [] conflict 0, log)
  else mergeLoop snap commit lastNew (mkMerge false false [] 0 lastNew) log entries.

Definition logAfterSnapshot snap log (new : Snapshot) : list LogEntry :=
  if decide (termAt snap log new.(LastIncludedIndex) ≠ Some new.(LastIncludedTerm)) then []
  else entriesAbove log new.(LastIncludedIndex).

(** ** Well-formed logs

    [contiguous first l]: the entries carry consecutive indices from
    [first]; [wf_log] adds that the last index is a [uint64]. *)
Definition contiguous (first : N) entries : Prop :=
  ∀ i e, entries !! i = Some e → e.(Index) = (first + N.of_nat i)%N.

Record wf_log snap log : Prop := {
  wf_contiguous : contiguous (snap.(LastIncludedIndex) + 1) log;
  wf_range : (snap.(LastIncludedIndex) + len log < two64)%N }.

Lemma contiguous_nil first : contiguous first [].
Proof. intros i e. by rewrite lookup_nil. Qed.

Lemma contiguous_cons first e entries :
  contiguous first (e :: entries) ↔ e.(Index) = first ∧ contiguous (first + 1) entries.
Proof.
  split.
  - intros H. split; [rewrite (H 0 e); [lia|done]|].
    intros i x Hx. rewrite (H (S i) x Hx). lia.
  - intros [He H] [|i] x Hx; simplify_eq/=; [lia|]. rewrite (H i x Hx). lia.
Qed.

Lemma contiguous_app first l1 l2 :
  contiguous first (l1 ++ l2) ↔ contiguous first l1 ∧ contiguous (first + len l1) l2.
Proof.
  revert first. induction l1 as [|e l1 IH]; intros first; cbn.
  - unfold len; cbn. rewrite N.add_0_r. split; [by split; [apply contiguous_nil|]|by intros [_ ?]].
  - rewrite !contiguous_cons, IH.
    replace (first + len (e :: l1))%N with (first + 1 + len l1)%N by (unfold len; cbn; lia).
    tauto.
Qed.

Lemma contiguous_take first k l : contiguous first l → contiguous first (take k l).
Proof. intros H. rewrite <- (take_drop k l) in H. by apply contiguous_app in H as [? _]. Qed.

Lemma contiguous_drop first k l :
  contiguous first l → k ≤ length l → contiguous (first + N.of_nat k) (drop k l).
Proof.
  intros H Hk. rewrite <- (take_drop k l) in H. apply contiguous_app in H as [_ H].
  unfold len in H. rewrite length_take_le in H; done.
Qed.

Lemma contiguous_last first l e :
  contiguous first l → last l = Some e → (e.(Index) = first + len l - 1 ∧ 0 < len l)%N.
Proof.
  intros H Hl. destruct l as [|e' l] using rev_ind; [done|]. clear IHl.
  rewrite last_snoc in Hl. simplify_eq.
  apply contiguous_app in H as [_ H]. apply contiguous_cons in H as [-> _].
  unfold len. rewrite length_app; cbn. lia.
Qed.

#[export] Hint Resolve contiguous_nil contiguous_take : raft.

Lemma len_nil {A} : len (@nil A) = 0%N.
Proof. done. Qed.
Lemma len_cons {A} (x : A) l : len (x :: l) = (len l + 1)%N.
Proof. unfold len; cbn; lia. Qed.
Lemma len_app {A} (l1 l2 : list A) : len (l1 ++ l2) = (len l1 + len l2)%N.
Proof. unfold len. rewrite length_app. lia. Qed.
#[export] Hint Rewrite @len_nil @len_cons @len_app : len.

Section wf.
Context snap log (Hwf : wf_log snap log).

Lemma lastIndex_wf : lastIndex snap log = (snap.(LastIncludedIndex) + len log)%N.
Proof.
  destruct Hwf as [Hc Hr]. unfold lastIndex. destruct (last log) as [e|] eqn:Hl.
  - apply (contiguous_last _ _ _ Hc) in Hl. lia.
  - apply last_None in Hl. subst. rewrite len_nil. lia.
Qed.

Lemma lookup_wf i : (i < len log)%N →
  ∃ e, log !! N.to_nat i = Some e ∧ e.(Index) = (snap.(LastIncludedIndex) + 1 + i)%N.
Proof.
  intros Hi. destruct (lookup_lt_is_Some_2 log (N.to_nat i)) as [e He].
  { unfold len in Hi. lia. }
  exists e. split; [done|]. rewrite (wf_contiguous _ _ Hwf _ _ He). lia.
Qed.

(** [entryAt] is the slice element at the offset of the index, and the
    final [entry.Index == index] test never fails. *)
Lemma entryAt_wf index : (snap.(LastIncludedIndex) < index < two64)%N →
  entryAt snap log index = log !! N.to_nat (index - snap.(LastIncludedIndex) - 1).
Proof.
  intros [Hlo Hhi]. unfold entryAt. rewrite decide_False by lia. usimp.
  destruct (decide (len log ≤ index - LastIncludedIndex snap - 1)%N) as [Hge|Hlt].
  - symmetry. apply lookup_ge_None_2. unfold len in Hge. lia.
  - destruct (lookup_wf (index - LastIncludedIndex snap - 1)) as (e & -> & He); [lia|].
    rewrite decide_True by lia. done.
Qed.

Lemma entryAt_low index : (index ≤ snap.(LastIncludedIndex))%N → entryAt snap log index = None.
Proof. intros. unfold entryAt. by rewrite decide_True. Qed.

Lemma entryAt_is_Some index : (index < two64)%N →
  is_Some (entryAt snap log index) ↔ (snap.(LastIncludedIndex) < index ≤ lastIndex snap log)%N.
Proof.
  intros Hi. rewrite lastIndex_wf. destruct (decide (index ≤ LastIncludedIndex snap)%N) as [Hle|Hgt].
  - rewrite entryAt_low by done. split; [by intros []|lia].
  - rewrite entryAt_wf, lookup_lt_is_Some by lia. unfold len. lia.
Qed.

Lemma entryAt_Index index e : entryAt snap log index = Some e → e.(Index) = index.
Proof. unfold entryAt. intros. repeat case_match; by simplify_eq. Qed.

Lemma termAt_entry index : (snap.(LastIncludedIndex) < index)%N →
  termAt snap log index = Term <$> entryAt snap log index.
Proof.
  intros. unfold termAt. rewrite !decide_False by lia. by destruct (entryAt _ _ _).
Qed.

Lemma entriesFrom_wf index : (snap.(LastIncludedIndex) < index)%N →
  entriesFrom log index = drop (N.to_nat (index - snap.(LastIncludedIndex) - 1)) log.
Proof.
  intros. apply filter_split_at. intros i e He.
  rewrite (wf_contiguous _ _ Hwf _ _ He). lia.
Qed.

Lemma entriesAbove_wf index : (snap.(LastIncludedIndex) ≤ index)%N →
  entriesAbove log index = drop (N.to_nat (index - snap.(LastIncludedIndex))) log.
Proof.
  intros. apply filter_split_at. intros i e He.
  rewrite (wf_contiguous _ _ Hwf _ _ He). lia.
Qed.

Lemma truncateFrom_wf index : (snap.(LastIncludedIndex) < index < two64)%N →
  truncateFrom snap log index = take (N.to_nat (index - snap.(LastIncludedIndex) - 1)) log.
Proof.
  intros. unfold truncateFrom. rewrite decide_False by lia. usimp.
  case_decide as Hk; [done|]. symmetry. apply take_ge. unfold len in Hk. lia.
Qed.

Lemma wf_log_take k : wf_log snap (take k log).
Proof.
  destruct Hwf as [Hc Hr]. split; [auto with raft|].
  unfold len in *. rewrite length_take. lia.
Qed.

End wf.

Lemma wf_log_app snap log es :
  wf_log snap log → contiguous (lastIndex snap log + 1) es →
  (lastIndex snap log + len es < two64)%N → wf_log snap (log ++ es).
Proof.
  intros Hwf Hc Hr. rewrite (lastIndex_wf _ _ Hwf) in *. destruct Hwf as [Hc' Hr']. split.
  - apply contiguous_app. split; [done|].
    by replace (LastIncludedIndex snap + 1 + len log)%N with (LastIncludedIndex snap + len log + 1)%N by lia.
  - rewrite len_app. lia.
Qed.

Lemma lastIndex_snoc snap log e : lastIndex snap (log ++ [e]) = e.(Index).
Proof. unfold lastIndex. by rewrite last_snoc. Qed.

(** Dropping the prefix that a newer snapshot covers keeps the log well formed. *)
Lemma wf_log_compact snap log new :
  wf_log snap log →
  (snap.(LastIncludedIndex) ≤ new.(LastIncludedIndex) ≤ lastIndex snap log)%N →
  wf_log new (entriesAbove log new.(LastIncludedIndex)).
Proof.
  intros Hwf [Hlo Hhi]. rewrite (lastIndex_wf _ _ Hwf) in Hhi.
  rewrite (entriesAbove_wf _ _ Hwf) by done.
  destruct Hwf as [Hc Hr]. unfold len in Hhi, Hr. split.
  - replace (LastIncludedIndex new + 1)%N with (LastIncludedIndex snap + 1 +
      N.of_nat (N.to_nat (LastIncludedIndex new - LastIncludedIndex snap)))%N by lia.
    apply contiguous_drop; [done|lia].
  - unfold len. rewrite length_drop. lia.
Qed.

(** Compaction does not change what any index above the new base holds. *)
Lemma entryAt_compact snap log new index :
  wf_log snap log →
  (snap.(LastIncludedIndex) ≤ new.(LastIncludedIndex) ≤ lastIndex snap log)%N →
  (new.(LastIncludedIndex) < index < two64)%N →
  entryAt new (entriesAbove log new.(LastIncludedIndex)) index = entryAt snap log index.
Proof.
  intros Hwf Hb Hi. rewrite (entryAt_wf _ _ (wf_log_compact _ _ _ Hwf Hb)) by done.
  rewrite (entriesAbove_wf _ _ Hwf) by lia. rewrite (entryAt_wf _ _ Hwf) by lia.
  rewrite lookup_drop. f_equal. lia.
Qed.

(** ** The merge, against a reference definition

    [merge_ref tail es] is what the Raft paper asks of a follower: keep the
    existing suffix as long as the terms agree, and from the first
    disagreement on take the leader's entries.  [first_mismatch] is the
    position of that disagreement. *)
Fixpoint merge_ref (tail es : list LogEntry) {struct es} : list LogEntry :=
  match es, tail with
  | [], _ => tail
  | _, [] => es
  | e :: es', t :: tail' =>
      if decide (t.(Term) = e.(Term)) then t :: merge_ref tail' es' else es
  end.

Fixpoint first_mismatch (tail es : list LogEntry) {struct es} : option nat :=
  match es, tail with
  | [], _ | _, [] => None
  | e :: es', t :: tail' =>
      if decide (t.(Term) = e.(Term)) then S <$> first_mismatch tail' es' else Some 0
  end.

Lemma merge_ref_match tail es :
  first_mismatch tail es = None → merge_ref tail es = tail ++ drop (length tail) es.
Proof.
  revert tail. induction es as [|e es IH]; intros [|t tail]; cbn; [done| |done|].
  - by rewrite app_nil_r.
  - case_decide; [|done]. destruct (first_mismatch tail es) eqn:E; [done|].
    intros _. cbn. by rewrite IH.
Qed.

Lemma merge_ref_mismatch tail es k :
  first_mismatch tail es = Some k → merge_ref tail es = take k tail ++ drop k es.
Proof.
  revert tail k. induction es as [|e es IH]; intros [|t tail] k; cbn; [done..|].
  case_decide; [|by intros [= <-]].
  destruct (first_mismatch tail es) eqn:E; [|done]. intros [= <-]. cbn. by erewrite IH.
Qed.

Lemma first_mismatch_lt tail es k :
  first_mismatch tail es = Some k → k < length tail ∧ k < length es.
Proof.
  revert tail k. induction es as [|e es IH]; intros [|t tail] k; cbn; [done..|].
  case_decide; [|intros [= <-]; lia].
  destruct (first_mismatch tail es) eqn:E; [|done]. intros [= <-].
  apply IH in E. lia.
Qed.

(** Below the first disagreement both lists hold the same terms. *)
Lemma first_mismatch_agree tail es i t e :
  (∀ k, first_mismatch tail es = Some k → i < k) →
  tail !! i = Some t → es !! i = Some e → t.(Term) = e.(Term).
Proof.
  revert tail i. induction es as [|e' es IH]; intros [|t' tail] i Hk Ht He; cbn in *; [done..|].
  revert Hk. case_decide; intros Hk.
  - destruct i as [|i]; simplify_eq/=; [done|]. eapply IH; [|done..].
    intros k Hfm. specialize (Hk (S k)). rewrite Hfm in Hk. specialize (Hk eq_refl). lia.
  - specialize (Hk 0 eq_refl). lia.
Qed.

(** What the merge loop returns, by the position of the first disagreement. *)
Definition merge_outcome (commit lastNew : N) (res : mergeEntriesResult) (k0 : nat)
    (first : N) log es : mergeEntriesResult * list LogEntry :=
  let tail := drop k0 log in
  match first_mismatch tail es with
  | Some k =>
      if decide (first + N.of_nat k ≤ commit)%N
      then (mkMerge false false [] (first + N.of_nat k) lastNew, log)
      else (mkMerge true true [] 0 lastNew, take k0 log ++ merge_ref tail es)
  | None =>
      (mkMerge (res.(changed) || bool_decide (length tail < length es)) res.(replaced)
               (res.(appended) ++ drop (length tail) es) res.(conflictIndex) res.(lastNewIndex),
       take k0 log ++ merge_ref tail es)
  end.

Lemma mergeLoop_cons_present snap commit lastNew res log e es k0 t :
  wf_log snap log → log !! k0 = Some t →
  e.(Index) = (snap.(LastIncludedIndex) + 1 + N.of_nat k0)%N →
  mergeLoop snap commit lastNew res log (e :: es)
  = if decide (t.(Term) = e.(Term)) then mergeLoop snap commit lastNew res log es
    else if decide (e.(Index) ≤ commit)%N then (mkMerge false false [] e.(Index) lastNew, log)
    else (mkMerge true true [] 0 lastNew, take k0 log ++ e :: es).
Proof.
  intros Hwf Ht He. pose proof (lookup_lt_Some _ _ _ Ht) as Hlt.
  pose proof (wf_range _ _ Hwf) as Hr. unfold len in Hr. cbn.
  rewrite decide_False by lia.
  rewrite (lastIndex_wf _ _ Hwf), decide_True by (unfold len; lia).
  rewrite termAt_entry, entryAt_wf, He by (done || lia).
  replace (N.to_nat _) with k0 by lia. rewrite Ht; cbn.
  destruct (decide (Term t = Term e)) as [->|Hne]; [by rewrite decide_True|].
  rewrite (decide_False (P := Some _ = _)) by congruence.
  case_decide; [done|]. rewrite truncateFrom_wf by (done || lia).
  do 3 f_equal. lia.
Qed.

Lemma mergeLoop_cons_new snap commit lastNew res log e es :
  wf_log snap log → e.(Index) = (snap.(LastIncludedIndex) + 1 + len log)%N → (e.(Index) < two64)%N →
  mergeLoop snap commit lastNew res log (e :: es)
  = mergeLoop snap commit lastNew
      (mkMerge true res.(replaced) (res.(appended) ++ [e]) res.(conflictIndex) res.(lastNewIndex))
      (log ++ [e]) es.
Proof.
  intros Hwf He Hlt. cbn. rewrite !(lastIndex_wf _ _ Hwf).
  rewrite !decide_False by lia. usimp. rewrite decide_False by lia. done.
Qed.

Lemma mergeLoop_spec snap commit lastNew es : ∀ res log k0,
  wf_log snap log → k0 ≤ length log →
  contiguous (snap.(LastIncludedIndex) + 1 + N.of_nat k0) es →
  (snap.(LastIncludedIndex) + N.of_nat k0 + len es < two64)%N →
  mergeLoop snap commit lastNew res log es
  = merge_outcome commit lastNew res k0 (snap.(LastIncludedIndex) + 1 + N.of_nat k0) log es.
Proof.
  induction es as [|e es IH]; intros res log k0 Hwf Hk0 Hc Hr.
  - unfold merge_outcome; cbn. rewrite bool_decide_eq_false_2 by lia.
    rewrite drop_nil, app_nil_r, orb_false_r, take_drop. by destruct res.
  - apply contiguous_cons in Hc as [He Hc]. rewrite len_cons in Hr.
    replace (LastIncludedIndex snap + 1 + N.of_nat k0 + 1)%N
      with (LastIncludedIndex snap + 1 + N.of_nat (S k0))%N in Hc by lia.
    destruct (decide (k0 = length log)) as [->|Hne].
    + rewrite mergeLoop_cons_new by (done || unfold len; lia).
      rewrite (IH _ _ (S (length log))); [|apply wf_log_app|rewrite length_app; cbn; lia|done|lia].
      2: done.
      2: { rewrite (lastIndex_wf _ _ Hwf). apply contiguous_cons. split; [|apply contiguous_nil].
           unfold len. lia. }
      2: { rewrite (lastIndex_wf _ _ Hwf). unfold len in *. cbn. lia. }
      unfold merge_outcome.
      rewrite (drop_ge (log ++ [e])), (drop_ge log) by (rewrite ?length_app; cbn; lia).
      rewrite (take_ge (log ++ [e])), (take_ge log) by (rewrite ?length_app; cbn; lia).
      cbn [length]. rewrite (bool_decide_eq_true_2 (0 < S (length es))) by lia.
      destruct es as [|e2 es]; cbn; rewrite ?app_nil_r, <- ?app_assoc; cbn;
        by rewrite orb_true_r.
    + destruct (lookup_lt_is_Some_2 log k0) as [t Ht]; [lia|].
      rewrite (mergeLoop_cons_present _ _ _ _ _ _ _ k0 t) by done.
      unfold merge_outcome. rewrite (drop_S _ _ _ Ht). cbn [first_mismatch merge_ref].
      case_decide as Hterm.
      * rewrite (IH _ _ (S k0)) by (done || lia). unfold merge_outcome.
        destruct (first_mismatch _ es) as [k|]; cbn.
        -- replace (LastIncludedIndex snap + 1 + N.of_nat k0 + N.of_nat (S k))%N
             with (LastIncludedIndex snap + 1 + N.of_nat (S k0) + N.of_nat k)%N by lia.
           case_decide; [done|]. by rewrite (take_S_r _ _ _ Ht), <- app_assoc.
        -- rewrite (take_S_r _ _ _ Ht), <- app_assoc. cbn.
           do 3 f_equal. repeat case_bool_decide; auto; lia.
      * cbn. rewrite N.add_0_r, He. case_decide; done.
Qed.

(** ** Validation of the received entries *)

(** Every index in play is a [uint64] below its maximum, so that [index+1]
    does not wrap around. *)
Definition above snap entries : Prop :=
  Forall (λ e, snap.(LastIncludedIndex) < e.(Index) < two64 - 1)%N entries.

Lemma above_In snap es i e :
  above snap es → es !! i = Some e → (snap.(LastIncludedIndex) < e.(Index) < two64 - 1)%N.
Proof. intros H He. exact (Forall_lookup_1 _ _ _ _ H He). Qed.

Lemma validateLoop_spec snap prevLog es : ∀ prev,
  above snap es → (prevLog < two64 - 1)%N → (prev < two64 - 1)%N →
  validateLoop snap prevLog prev es = 0%N
  ↔ contiguous ((if decide (prev = 0%N) then prevLog else prev) + 1) es.
Proof.
  induction es as [|e es IH]; intros prev Ha Hp Hprev; cbn.
  { split; [intros _; apply contiguous_nil|done]. }
  apply Forall_cons in Ha as [He Ha]. rewrite contiguous_cons.
  rewrite decide_False by lia. usimp.
  destruct (decide (prev = 0%N)) as [->|Hne].
  - rewrite (decide_False (P := 0%N ≠ 0%N ∧ _)) by tauto.
    destruct (decide (0%N = 0%N ∧ Index e ≠ (prevLog + 1)%N)) as [[_ Hd]|Hd].
    + split; [lia|tauto].
    + assert (Index e = prevLog + 1)%N as Hi by (destruct (decide (Index e = prevLog + 1)%N); tauto).
      rewrite IH by (done || lia). rewrite decide_False by lia. rewrite Hi. tauto.
  - rewrite decide_False by tauto.
    destruct (decide (prev ≠ 0%N ∧ Index e ≠ (prev + 1)%N)) as [[_ Hd]|Hd].
    + split; [lia|tauto].
    + assert (Index e = prev + 1)%N as Hi by (destruct (decide (Index e = prev + 1)%N); tauto).
      rewrite IH by (done || lia). rewrite decide_False by lia. rewrite Hi. tauto.
Qed.

Lemma mergeLastNew_contiguous snap es : ∀ prev,
  above snap es → contiguous (prev + 1) es → mergeLastNew snap prev es = (prev + len es)%N.
Proof.
  induction es as [|e es IH]; intros prev Ha Hc; cbn.
  { rewrite len_nil. lia. }
  apply Forall_cons in Ha as [He Ha]. apply contiguous_cons in Hc as [Hi Hc].
  rewrite decide_True by lia. rewrite len_cons, Hi, IH by done. lia.
Qed.

Lemma contiguous_len_bound snap first es :
  above snap es → contiguous first es → (first < two64)%N → (first + len es < two64)%N.
Proof.
  intros Ha Hc Hf. destruct (last es) as [e|] eqn:Hl.
  - pose proof (contiguous_last _ _ _ Hc Hl) as Hi. rewrite last_lookup in Hl.
    pose proof (above_In _ _ _ _ Ha Hl). lia.
  - apply last_None in Hl as ->. rewrite len_nil. lia.
Qed.

Section merge.
Context snap log (Hwf : wf_log snap log).
Context (commit prev : N) es
  (Hprev : (snap.(LastIncludedIndex) ≤ prev ≤ lastIndex snap log)%N)
  (Hmax : (lastIndex snap log < two64 - 1)%N)
  (Habove : above snap es).

(** The number of slice elements up to [prev]. *)
#[local] Abbreviation k0 := (N.to_nat (prev - snap.(LastIncludedIndex))).

Lemma merge_k0 : k0 ≤ length log ∧ (snap.(LastIncludedIndex) + 1 + N.of_nat k0 = prev + 1)%N.
Proof using Hwf Hprev. clear Hmax. rewrite (lastIndex_wf _ _ Hwf) in Hprev. unfold len in *. lia. Qed.

(** [mergeEntries] on well-formed inputs: rejected entries leave the log
    alone; accepted ones give the reference merge. *)
Lemma mergeEntries_spec :
  (¬ contiguous (prev + 1) es →
     ∃ c, (0 < c)%N ∧ mergeEntries snap commit log prev es = (mkMerge false false [] c 0, log)) ∧
  (contiguous (prev + 1) es →
     mergeEntries snap commit log prev es
     = merge_outcome commit (prev + len es)
         (mkMerge false false [] 0 (prev + len es)) k0 (prev + 1) log es).
Proof.
  pose proof (validateLoop_spec snap prev es 0 Habove ltac:(lia) ltac:(lia)) as Hv.
  rewrite decide_True in Hv by done. unfold mergeEntries, validateEntries. split; intros Hc.
  - exists (validateLoop snap prev 0 es). rewrite decide_True; [split; [|done]|].
    all: destruct (decide (validateLoop snap prev 0 es = 0%N)) as [H|]; [tauto|lia].
  - rewrite (proj2 Hv Hc), decide_False by lia.
    rewrite (mergeLastNew_contiguous _ _ _ Habove Hc).
    destruct merge_k0 as [Hk0 Hk1]. rewrite <- Hk1.
    apply mergeLoop_spec; [done..| |].
    + by rewrite Hk1.
    + pose proof (contiguous_len_bound _ _ _ Habove Hc). lia.
Qed.

Lemma merge_agree :
  first_mismatch (drop k0 log) es = None →
  take k0 log ++ merge_ref (drop k0 log) es = log ++ drop (length (drop k0 log)) es.
Proof. intros Hm. by rewrite (merge_ref_match _ _ Hm), app_assoc, take_drop. Qed.

Lemma merge_differ k :
  first_mismatch (drop k0 log) es = Some k →
  take k0 log ++ merge_ref (drop k0 log) es = take (k0 + k) log ++ drop k es.
Proof.
  intros Hm. rewrite (merge_ref_mismatch _ _ _ Hm), app_assoc. f_equal.
  rewrite take_take_drop. done.
Qed.

End merge.

Lemma merge_ref_contiguous first es : ∀ tail,
  contiguous first tail → contiguous first es → contiguous first (merge_ref tail es).
Proof.
  revert first. induction es as [|e es IH]; intros first [|t tail] Ht Hes; cbn; [done..|].
  case_decide; [|done]. apply contiguous_cons in Ht as [? ?], Hes as [? ?].
  apply contiguous_cons. auto.
Qed.

Lemma merge_ref_length es : ∀ tail,
  length (merge_ref tail es) ≤ length tail `max` length es ∧ length es ≤ length (merge_ref tail es).
Proof.
  induction es as [|e es IH]; intros [|t tail]; cbn; [lia..|].
  case_decide; cbn; [|lia]. specialize (IH tail). lia.
Qed.

Lemma merge_ref_terms es : ∀ tail i e,
  es !! i = Some e → ∃ t, merge_ref tail es !! i = Some t ∧ t.(Term) = e.(Term).
Proof.
  induction es as [|e' es IH]; intros [|t tail] i e He; cbn; [done..|by eauto|].
  case_decide; [|by eauto]. destruct i as [|i]; simplify_eq/=; [by eauto|]. by apply IH.
Qed.

(** Two logs over one snapshot that agree on a prefix hold the same entries there. *)
Lemma entryAt_prefix snap log log' m index :
  wf_log snap log → wf_log snap log' → take m log' = take m log →
  (index ≤ snap.(LastIncludedIndex) + N.of_nat m)%N → (index < two64)%N →
  entryAt snap log' index = entryAt snap log index.
Proof.
  intros Hwf Hwf' Htake Hm Hi.
  destruct (decide (index ≤ LastIncludedIndex snap)%N) as [Hle|Hgt].
  { by rewrite !entryAt_low. }
  rewrite !entryAt_wf by (done || lia).
  set (k := N.to_nat _). assert (k < m) by lia.
  rewrite <- (lookup_take_lt log m), <- (lookup_take_lt log' m) by done. by rewrite Htake.
Qed.

(** What a caller of [mergeEntries] may rely on. *)
Record merge_ok snap (commit prev : N) log es (r : mergeEntriesResult) log' : Prop := {
  mo_wf : wf_log snap log';
  mo_max : (lastIndex snap log' < two64 - 1)%N;
  mo_conflict : (0 < r.(conflictIndex))%N → log' = log ∧ r.(changed) = false;
  mo_terms : r.(conflictIndex) = 0%N →
    r.(lastNewIndex) = (prev + len es)%N ∧ (r.(lastNewIndex) ≤ lastIndex snap log')%N ∧
    (∀ i e, es !! i = Some e →
       e.(Index) = (prev + 1 + N.of_nat i)%N ∧ termAt snap log' e.(Index) = Some e.(Term));
  mo_prev : ∀ index, (index ≤ prev)%N → entryAt snap log' index = entryAt snap log index;
  mo_commit : ∀ index, (index ≤ commit)%N → (index ≤ lastIndex snap log)%N →
    entryAt snap log' index = entryAt snap log index;
  mo_unchanged : r.(changed) = false → log' = log;
  mo_appended : r.(changed) = true → r.(replaced) = false →
    log' = log ++ r.(appended) ∧ r.(appended) ≠ [] }.

Section merge_ok.
Context snap log (Hwf : wf_log snap log).
Context (commit prev : N) es
  (Hprev : (snap.(LastIncludedIndex) ≤ prev ≤ lastIndex snap log)%N)
  (Hmax : (lastIndex snap log < two64 - 1)%N)
  (Habove : above snap es).

#[local] Abbreviation k0 := (N.to_nat (prev - snap.(LastIncludedIndex))).
#[local] Abbreviation merged := (take k0 log ++ merge_ref (drop k0 log) es).

Lemma merged_wf : contiguous (prev + 1) es → wf_log snap merged.
Proof.
  intros Hc. destruct (merge_k0 _ _ Hwf _ Hprev) as [Hk0 Hk1].
  pose proof (contiguous_len_bound _ _ _ Habove Hc ltac:(lia)) as Hb.
  pose proof (wf_contiguous _ _ Hwf) as Hwc. pose proof (wf_range _ _ Hwf) as Hwr.
  assert (len (take k0 log) = N.of_nat k0) as Hlt by (unfold len; rewrite length_take_le; done).
  split.
  - apply contiguous_app. split; [auto with raft|].
    rewrite Hlt, Hk1. apply merge_ref_contiguous; [|done].
    rewrite <- Hk1. apply contiguous_drop; done.
  - rewrite len_app, Hlt.
    pose proof (merge_ref_length es (drop k0 log)) as [Hml _]. rewrite length_drop in Hml.
    unfold len in *. lia.
Qed.

Lemma merged_take : take k0 merged = take k0 log.
Proof.
  destruct (merge_k0 _ _ Hwf _ Hprev) as [Hk0 _].
  rewrite take_app_le by (rewrite length_take_le; lia).
  rewrite take_take. f_equal. lia.
Qed.

Lemma merged_terms i e : contiguous (prev + 1) es → es !! i = Some e →
  e.(Index) = (prev + 1 + N.of_nat i)%N ∧ termAt snap merged e.(Index) = Some e.(Term).
Proof.
  intros Hc He. destruct (merge_k0 _ _ Hwf _ Hprev) as [Hk0 Hk1].
  pose proof (Hc _ _ He) as Hi. split; [lia|].
  pose proof (above_In _ _ _ _ Habove He) as Ha.
  rewrite termAt_entry, entryAt_wf by (apply merged_wf || lia; done).
  destruct (merge_ref_terms es (drop k0 log) i e He) as (t & Ht & <-).
  rewrite lookup_app_r by (rewrite length_take_le; lia).
  rewrite length_take_le by done. replace (N.to_nat _ - k0) with i by lia. by rewrite Ht.
Qed.

Lemma mergeEntries_ok :
  let '(r, log') := mergeEntries snap commit log prev es in
  merge_ok snap commit prev log es r log'.
Proof.
  destruct (mergeEntries_spec _ _ Hwf commit prev es Hprev Hmax Habove) as [Hrej Hacc].
  destruct (decide (validateEntries snap prev es = 0%N)) as [Hv|Hv];
    unfold validateEntries in Hv; rewrite (validateLoop_spec snap prev es 0) in Hv by (done || lia);
    rewrite decide_True in Hv by done.
  2: { destruct (Hrej Hv) as (c & Hc & ->). split; cbn; try done; lia. }
  rewrite (Hacc Hv). clear Hrej Hacc.
  assert (∀ index, (index ≤ prev)%N → entryAt snap merged index = entryAt snap log index) as Hpre.
  { intros. apply (entryAt_prefix _ _ _ k0); [done|by apply merged_wf|apply merged_take|lia..]. }
  assert (lastIndex snap merged = snap.(LastIncludedIndex) + len merged)%N as Hlast
    by (apply lastIndex_wf, merged_wf, Hv).
  assert (prev + len es ≤ lastIndex snap merged)%N as Hnew.
  { rewrite Hlast. unfold len. rewrite length_app, length_take_le.
    2: by apply (merge_k0 _ _ Hwf _ Hprev).
    pose proof (merge_ref_length es (drop k0 log)). lia. }
  assert (lastIndex snap merged < two64 - 1)%N as Hmaxm.
  { pose proof (contiguous_len_bound _ _ _ Habove Hv ltac:(lia)) as Hb.
    destruct (merge_k0 _ _ Hwf _ Hprev) as [Hk0 Hk1]. rewrite Hlast.
    rewrite (lastIndex_wf _ _ Hwf) in Hmax. unfold len in *.
    rewrite length_app, length_take_le by done.
    pose proof (merge_ref_length es (drop k0 log)) as [Hml _]. rewrite length_drop in Hml. lia. }
  unfold merge_outcome. destruct (first_mismatch _ es) as [k|] eqn:Hm.
  - case_decide as Hcommit; split; cbn; try done; try lia; try (by apply merged_wf).
    + intros _. split_and!; [done|done|]. intros; by apply merged_terms.
    + intros index Hi Hl. apply (entryAt_prefix _ _ _ (k0 + k)); [done|by apply merged_wf| |lia..].
      rewrite (merge_differ _ _ prev es k) by done.
      apply first_mismatch_lt in Hm as [Hm _]. rewrite length_drop in Hm.
      rewrite take_app_le by (rewrite length_take_le; lia). rewrite take_take. f_equal. lia.
  - pose proof (merge_agree snap log prev es Hm) as Hagree.
    split; cbn; try done; try lia; try (by apply merged_wf).
    + intros _. split_and!; [done|done|]. intros; by apply merged_terms.
    + intros index Hi Hl. apply (entryAt_prefix _ _ _ (length log)); [done|by apply merged_wf| | |lia].
      * by rewrite Hagree, take_app_le, take_ge by lia.
      * rewrite (lastIndex_wf _ _ Hwf) in Hl. done.
    + intros Hch%bool_decide_eq_false. rewrite Hagree, drop_ge, app_nil_r by lia. done.
    + intros Hch%bool_decide_eq_true _. split; [done|]. intros Hnil%(f_equal length).
      rewrite length_drop in Hnil. cbn in Hnil. lia.
Qed.

End merge_ok.

(** ** The conflict index *)

Lemma conflictLoop_spec snap log (t : N) : ∀ fuel index,
  wf_log snap log → (snap.(LastIncludedIndex) < index ≤ lastIndex snap log)%N →
  N.to_nat index ≤ fuel → termAt snap log index = Some t →
  let c := conflictLoop fuel snap log t index in
  (snap.(LastIncludedIndex) < c ≤ index)%N ∧
  (∀ j, c ≤ j ≤ index → termAt snap log j = Some t)%N ∧
  (c = snap.(LastIncludedIndex) + 1 ∨ termAt snap log (c - 1) ≠ Some t)%N.
Proof.
  induction fuel as [|fuel IH]; intros index Hwf Hi Hf Ht; [lia|].
  pose proof (wf_range _ _ Hwf) as Hr. rewrite <- (lastIndex_wf _ _ Hwf) in Hr.
  cbn. usimp. case_decide as Hlo.
  - case_decide as Hprev.
    + destruct (IH (index - 1)%N Hwf ltac:(lia) ltac:(lia) Hprev) as (Hc & Hall & Hend).
      split_and!; [lia|lia| |done]. intros j Hj.
      destruct (decide (j = index)) as [->|]; [done|]. apply Hall. lia.
    + split_and!; [lia|lia| |by right]. intros j Hj. by replace j with index by lia.
  - split_and!; [lia|lia| |left; lia]. intros j Hj. by replace j with index by lia.
Qed.

Lemma termAt_is_Some snap log index :
  wf_log snap log → (snap.(LastIncludedIndex) < index ≤ lastIndex snap log)%N →
  is_Some (termAt snap log index).
Proof.
  intros Hwf Hi. pose proof (wf_range _ _ Hwf) as Hr. rewrite <- (lastIndex_wf _ _ Hwf) in Hr.
  rewrite termAt_entry by lia. rewrite fmap_is_Some. apply entryAt_is_Some; [done|lia|lia].
Qed.

(** A term known at an index places the index inside the log. *)
Lemma termAt_range snap log index t :
  wf_log snap log → (index < two64)%N → (snap.(LastIncludedIndex) ≤ index)%N →
  termAt snap log index = Some t → (index ≤ lastIndex snap log)%N.
Proof.
  intros Hwf Hi Hlo Ht. rewrite (lastIndex_wf _ _ Hwf).
  destruct (decide (index = LastIncludedIndex snap)) as [->|Hne]; [lia|].
  rewrite termAt_entry in Ht by lia.
  apply fmap_Some in Ht as (e & He & _).
  assert (is_Some (entryAt snap log index)) as Hs by eauto.
  rewrite entryAt_is_Some, (lastIndex_wf _ _ Hwf) in Hs by done. lia.
Qed.

Lemma wf_logAfterSnapshot snap log new :
  wf_log snap log → (new.(LastIncludedIndex) < two64)%N →
  (snap.(LastIncludedIndex) ≤ new.(LastIncludedIndex))%N →
  wf_log new (logAfterSnapshot snap log new).
Proof.
  intros Hwf Hn Hlo. unfold logAfterSnapshot. case_decide as Ht.
  - split; [apply contiguous_nil|rewrite len_nil; lia].
  - apply (wf_log_compact snap); [done|]. split; [done|].
    apply (termAt_range _ _ _ (LastIncludedTerm new)); [done..|].
    destruct (decide (termAt snap log (LastIncludedIndex new) = Some (LastIncludedTerm new))); tauto.
Qed.

(** ** Properties *)

(** C10. Merging the leader's entries into a well-formed log is the reference
    merge of the Raft paper: when the entries carry consecutive indices after
    [prevLogIndex], the log becomes its prefix up to [prevLogIndex] followed
    by [merge_ref] of the old suffix and the entries, except that a
    disagreement at or below the commit index is reported as a conflict and
    changes nothing; entries that are not consecutive are rejected with a
    conflict index and change nothing. *)
Theorem mergeEntries_refines_reference snap log (commit prev : N) es :
  wf_log snap log →
  (snap.(LastIncludedIndex) ≤ prev ≤ lastIndex snap log)%N →
  (lastIndex snap log < two64 - 1)%N →
  above snap es →
  let k0 := N.to_nat (prev - snap.(LastIncludedIndex)) in
  let '(r, log') := mergeEntries snap commit log prev es in
  (contiguous (prev + 1) es →
     match first_mismatch (drop k0 log) es with
     | Some k =>
         if decide (prev + 1 + N.of_nat k ≤ commit)%N
         then r.(conflictIndex) = (prev + 1 + N.of_nat k)%N ∧ log' = log
         else r.(conflictIndex) = 0%N ∧ r.(replaced) = true ∧
              log' = take k0 log ++ merge_ref (drop k0 log) es
     | None =>
         r.(conflictIndex) = 0%N ∧ r.(replaced) = false ∧
         log' = take k0 log ++ merge_ref (drop k0 log) es
     end) ∧
  (¬ contiguous (prev + 1) es → (0 < r.(conflictIndex))%N ∧ log' = log).
Proof.
  intros Hwf Hprev Hmax Ha k0.
  destruct (mergeEntries_spec _ _ Hwf commit prev es Hprev Hmax Ha) as [Hrej Hacc].
  destruct (mergeEntries _ _ _ _ _) as [r log'] eqn:E. split.
  - intros Hc. specialize (Hacc Hc). unfold merge_outcome in Hacc. fold k0 in Hacc.
    destruct (first_mismatch _ _); [case_decide|]; by simplify_eq.
  - intros Hc. destruct (Hrej Hc) as (c & Hpos & Heq). by simplify_eq.
Qed.

Definition ent (i t : N) : LogEntry := mkLogEntry i t (mkCommand OpPut "k" "v" "").

Lemma mergeEntries_refines_reference_witness :
  let es := [ent 6 2; ent 7 3] in
  (mergeEntries (mkSnapshot 4 1 None) 5 [ent 5 1; ent 6 1; ent 7 1] 5 es).2
  = take 1 [ent 5 1; ent 6 1; ent 7 1] ++ merge_ref [ent 6 1; ent 7 1] es.
Proof.
  pose proof (mergeEntries_refines_reference (mkSnapshot 4 1 None)
    [ent 5 1; ent 6 1; ent 7 1] 5 5 [ent 6 2; ent 7 3]) as H.
  assert (wf_log (mkSnapshot 4 1 None) [ent 5 1; ent 6 1; ent 7 1]) as Hwf.
  { split; [|done]. repeat (apply contiguous_cons; split; [reflexivity|]). apply contiguous_nil. }
  specialize (H Hwf ltac:(vm_compute; split; discriminate) ltac:(done)
    ltac:(repeat constructor)).
  destruct H as [H _].
  specialize (H ltac:(repeat (apply contiguous_cons; split; [reflexivity|]); apply contiguous_nil)).
  exact (proj2 (proj2 H)).
Defined.

(** The conflict index a follower reports lets the leader skip a whole
    term: it lies just after the snapshot or above, at most one past the end
    of the log, and when the probed index is inside the log it is the first
    index of the run of entries that share the probed entry's term. *)
Theorem conflictIndex_first_of_term snap log index :
  wf_log snap log → (lastIndex snap log < two64 - 1)%N →
  let c := conflictIndexOf snap log index in
  (snap.(LastIncludedIndex) < c ≤ lastIndex snap log + 1)%N ∧
  ((snap.(LastIncludedIndex) < index ≤ lastIndex snap log)%N →
     (c ≤ index)%N ∧
     (∀ j, c ≤ j ≤ index → termAt snap log j = termAt snap log index)%N ∧
     (c = snap.(LastIncludedIndex) + 1 ∨ termAt snap log (c - 1) ≠ termAt snap log index)%N).
Proof.
  intros Hwf Hmax c. subst c. pose proof (lastIndex_wf _ _ Hwf) as Hl. unfold conflictIndexOf.
  case_decide; [usimp; split; lia|]. case_decide; [usimp; split; lia|].
  destruct (termAt_is_Some snap log index Hwf ltac:(lia)) as [t Ht]. rewrite Ht.
  destruct (conflictLoop_spec snap log t (N.to_nat index) index Hwf ltac:(lia) ltac:(lia) Ht)
    as (Hc & Hall & Hend). split; [lia|]. intros _. split_and!; [lia|done|done].
Qed.

Lemma conflictIndex_first_of_term_witness :
  conflictIndexOf (mkSnapshot 4 1 None) [ent 5 1; ent 6 2; ent 7 2] 7 = 6%N ∧
  (4 < conflictIndexOf (mkSnapshot 4 1 None) [ent 5 1; ent 6 2; ent 7 2] 7 ≤ 8)%N.
Proof.
  split; [reflexivity|].
  apply (conflictIndex_first_of_term (mkSnapshot 4 1 None) [ent 5 1; ent 6 2; ent 7 2] 7); [|done].
  split; [|done]. repeat (apply contiguous_cons; split; [reflexivity|]). apply contiguous_nil.
Defined.
