(* ===== verification/StoreIntf.v ===== *)
(** * The persistence interface of a node

    [Store] of [internal/raft/types.go] as a type class: every operation
    threads the state of the store and may return an error.  The laws are
    what the raft package relies on; the file-backed store and the in-memory
    store below are instances. *)

From S2P Require Import Prelude Types.

Class Store (St : Type) := {
  Load : St → (HardState * list LogEntry * Snapshot + error) * St;
  SaveHardState : HardState → St → option error * St;
  AppendEntries : list LogEntry → St → option error * St;
  ReplaceEntries : list LogEntry → St → option error * St;
  SaveSnapshot : Snapshot → St → option error * St
}.

(** The durable hard state: what a restart would load.  A write that
    reports success has replaced it; a write that reports an error has left
    the old value or, when the failure came after the file was renamed into
    place, the new one.  No other operation touches it. *)
Class HardStateLaws (St : Type) `{Store St} := {
  durable_hs : St → HardState;
  SaveHardState_ok : ∀ hs s s',
    SaveHardState hs s = (None, s') → durable_hs s' = hs;
  SaveHardState_err : ∀ hs s s' e,
    SaveHardState hs s = (Some e, s') → durable_hs s' = durable_hs s ∨ durable_hs s' = hs;
  AppendEntries_hs : ∀ es s, durable_hs (AppendEntries es s).2 = durable_hs s;
  ReplaceEntries_hs : ∀ es s, durable_hs (ReplaceEntries es s).2 = durable_hs s;
  SaveSnapshot_hs : ∀ sn s, durable_hs (SaveSnapshot sn s).2 = durable_hs s;
  Load_hs_frame : ∀ s, durable_hs (Load s).2 = durable_hs s;
  Load_hs : ∀ s s' hs es sn, Load s = (inl (hs, es, sn), s') → hs = durable_hs s
}.

Lemma SaveHardState_cases `{HardStateLaws St} (hs : HardState) (s : St) :
  durable_hs (SaveHardState hs s).2 = durable_hs s ∨ durable_hs (SaveHardState hs s).2 = hs.
Proof.
  destruct (SaveHardState hs s) as [[e|] s'] eqn:E; cbn.
  - by eapply SaveHardState_err.
  - right. by eapply SaveHardState_ok.
Qed.

#[export] Hint Rewrite @AppendEntries_hs @ReplaceEntries_hs @SaveSnapshot_hs : len.

(** The durable log.  [log_inv] holds of a store whose log is intact: no
    write of it was interrupted.  A write that reports success keeps it
    intact and has the effect it should have; saving the hard state does not
    touch the log. *)
Class LogLaws (St : Type) `{Store St} := {
  log_inv : St → Prop;
  durable_log : St → list LogEntry;
  AppendEntries_ok : ∀ es s s',
    log_inv s → AppendEntries es s = (None, s') → log_inv s' ∧ durable_log s' = durable_log s ++ es;
  ReplaceEntries_ok : ∀ es s s',
    log_inv s → ReplaceEntries es s = (None, s') → log_inv s' ∧ durable_log s' = es;
  SaveHardState_log : ∀ hs s,
    log_inv s → log_inv (SaveHardState hs s).2 ∧ durable_log (SaveHardState hs s).2 = durable_log s
}.

(** ** An in-memory store with injected faults

    The fault-injecting decorator of the package's tests, and a second
    instance of the interface: each write consumes one scripted outcome. *)
Module Mem.

Inductive fault := NoFault | FailBefore | FailAfter.

Record MemStore := mkMem {
  m_hs : HardState;
  m_log : list LogEntry;
  m_snap : Snapshot;
  m_faults : list fault }.

Definition empty (fs : list fault) : MemStore := mkMem zeroHardState [] zeroSnapshot fs.

(** Perform the update [f] as the script's next outcome says. *)
Definition scripted (f : MemStore → MemStore) (s : MemStore) : option error * MemStore :=
  let s0 := mkMem s.(m_hs) s.(m_log) s.(m_snap) (tail s.(m_faults)) in
  match s.(m_faults) with
  | FailBefore :: _ => (Some (ErrText "injected fault"), s0)
  | FailAfter :: _ => (Some (ErrText "injected fault"), f s0)
  | _ => (None, f s0)
  end.

#[global] Instance MemStore_store : Store MemStore := {|
  Load s := (inl (s.(m_hs), s.(m_log), s.(m_snap)), s);
  SaveHardState hs := scripted (λ s, mkMem hs s.(m_log) s.(m_snap) s.(m_faults));
  AppendEntries es := scripted (λ s, mkMem s.(m_hs) (s.(m_log) ++ es) s.(m_snap) s.(m_faults));
  ReplaceEntries es := scripted (λ s, mkMem s.(m_hs) es s.(m_snap) s.(m_faults));
  SaveSnapshot sn := scripted (λ s, mkMem s.(m_hs) s.(m_log) sn s.(m_faults))
|}.

#[global, program] Instance MemStore_hs : HardStateLaws MemStore := {| durable_hs := m_hs |}.
Solve All Obligations with
  (intros; unfold SaveHardState, AppendEntries, ReplaceEntries, SaveSnapshot, Load,
     MemStore_store, scripted in *; repeat case_match; simplify_eq/=; auto).

#[global, program] Instance MemStore_log : LogLaws MemStore :=
  {| log_inv _ := True; durable_log := m_log |}.
Solve All Obligations with
  (intros; unfold SaveHardState, AppendEntries, ReplaceEntries, MemStore_store, scripted in *;
   repeat case_match; simplify_eq/=; auto).

End Mem.
