(* ===== verification/Consensus.v ===== *)
(** * Agreement, on the tree of log positions

    The argument why all nodes of a cluster commit the same entries, apart
    from any program.  Every entry that a leader ever creates is a node of a
    tree: it is identified by its index and term, and its parent is the
    position before it in the leader's log.  A log is a path from the root to
    its tip; whether its lower part is kept as entries or as a snapshot does
    not matter.  A history records, besides the tree, the elections, the votes and the
    acknowledgements; [ginv] says what Raft's rules make true of it.

    From [ginv] follows leader completeness: a leader elected later has every
    committed position on its path.  So committed positions lie on one path. *)

From S2P Require Import Prelude Types.

(** ** The tree *)

(** Index and term. *)
Abbreviation pos := (N * N)%type.
Definition root : pos := (0%N, 0%N).

(** The term of the parent and the command of each position. *)
Abbreviation tree := (gmap (N * N) (N * Command)).

Implicit Types (T : gmap (N * N) (N * Command)) (x y z w e : N * N).

Definition valid T x : Prop := x = root ∨ is_Some (T !! x).

Definition parent T x y : Prop := ∃ p c, T !! x = Some (p, c) ∧ y = ((x.1 - 1)%N, p).

(** [on T x y]: [y] lies on the path from [x] to the root. *)
Definition on T : pos → pos → Prop := rtc (parent T).

Record tree_ok T : Prop := {
  to_index : ∀ x pc, T !! x = Some pc → (0 < x.1)%N;
  to_term : ∀ x p c, T !! x = Some (p, c) → (p ≤ x.2)%N ∧ (0 < x.2)%N;
  to_parent : ∀ x p c, T !! x = Some (p, c) → valid T ((x.1 - 1)%N, p) }.

Section tree.
Context T (Hok : tree_ok T).

Lemma parent_fun x y z : parent T x y → parent T x z → y = z.
Proof. intros (p & c & Hx & ->) (p' & c' & Hx' & ->). rewrite Hx in Hx'. by injection Hx' as <- <-. Qed.

Lemma parent_index x y : parent T x y → x.1 = (y.1 + 1)%N ∧ (y.2 ≤ x.2)%N.
Proof.
  intros (p & c & Hx & ->). pose proof (to_index _ Hok _ _ Hx). destruct (to_term _ Hok _ _ _ Hx). cbn. lia.
Qed.

Lemma on_index x y : on T x y → (y.1 ≤ x.1)%N ∧ (y.2 ≤ x.2)%N ∧ (y.1 = x.1 → y = x).
Proof.
  induction 1 as [|x y z Hp _ (IH1 & IH2 & IH3)]; [done|]. apply parent_index in Hp as [? ?]. split_and!; [lia..|].
  intros He. lia.
Qed.

(** The positions of a path are linearly ordered. *)
Lemma on_linear x y z : on T x y → on T x z → (z.1 ≤ y.1)%N → on T y z.
Proof.
  intros Hy. revert z. induction Hy as [x|x x' y Hp Hy IH]; intros z Hz Hle; [done|].
  inversion Hz as [|? x'' ? Hp' Hz']; subst.
  - apply on_index in Hy as (? & _). apply parent_index in Hp as [? _]. lia.
  - rewrite (parent_fun _ _ _ Hp Hp') in *. by apply IH.
Qed.

Lemma on_same_index x y z : on T x y → on T x z → y.1 = z.1 → y = z.
Proof.
  intros Hy Hz He. pose proof (on_linear x y z Hy Hz ltac:(lia)) as Hon.
  apply on_index in Hon as (_ & _ & Heq). symmetry. apply Heq. done.
Qed.

Lemma valid_root_index x : valid T x → x.1 = 0%N → x = root.
Proof. intros [->|[pc Hx]] H0; [done|]. pose proof (to_index _ Hok _ _ Hx). lia. Qed.

Lemma valid_term x : valid T x → x.2 = 0%N → x = root.
Proof. intros [->|[[p c] Hx]] H0; [done|]. destruct (to_term _ Hok _ _ _ Hx). lia. Qed.

Lemma on_valid x y : valid T x → on T x y → valid T y.
Proof.
  intros Hx Hon. induction Hon as [|x y z (p & c & Hxy & ->) _ IH]; [done|]. apply IH.
  by eapply to_parent.
Qed.

(** Every index up to a position's own is on its path. *)
Lemma on_at x i : valid T x → (i ≤ x.1)%N → ∃ y, on T x y ∧ y.1 = i.
Proof.
  intros Hx Hi. remember (N.to_nat (x.1 - i)) as k eqn:Hk. revert x Hx Hi Hk.
  induction k as [|k IH]; intros x Hx Hi Hk; [exists x; split; [done|lia]|].
  destruct Hx as [->|[[p c] Hx]]; [cbn in *; lia|].
  destruct (IH ((x.1 - 1)%N, p)) as (y & Hy & Hyi); [by eapply to_parent|cbn; lia|cbn; lia|].
  exists y. split; [|done]. eapply rtc_l; [|exact Hy]. by exists p, c.
Qed.

Lemma on_root x : valid T x → on T x root.
Proof.
  intros Hx. destruct (on_at x 0 Hx ltac:(lia)) as (y & Hy & H0).
  assert (y = root) as <-; [|done]. apply valid_root_index; [by eapply on_valid|done].
Qed.

Lemma on_or_not x y : valid T x → on T x y ∨ ¬ on T x y.
Proof.
  intros Hx. destruct (decide (y.1 ≤ x.1)%N) as [Hle|Hgt].
  - destruct (on_at x y.1 Hx Hle) as (z & Hz & Hzi). destruct (decide (z = y)) as [->|Hne]; [by left|right].
    intros Hy. by apply Hne, (on_same_index x).
  - right. intros Hy. apply on_index in Hy as (? & _). lia.
Qed.

End tree.

(** Growth: new positions only. *)
Section grow.
Context T T' (Hok : tree_ok T) (Hsub : T ⊆ T').

Lemma valid_grow x : valid T x → valid T' x.
Proof. intros [->|[pc Hx]]; [by left|right]. exists pc. by eapply lookup_weaken. Qed.

Lemma parent_grow x y : parent T x y → parent T' x y.
Proof. intros (p & c & Hx & ->). exists p, c. split; [by eapply lookup_weaken|done]. Qed.

Lemma on_grow x y : on T x y → on T' x y.
Proof. induction 1; [done|]. eapply rtc_l; [by apply parent_grow|done]. Qed.

(** The path of an old position does not change. *)
Lemma on_shrink (Hok' : tree_ok T') x y : valid T x → on T' x y → on T x y.
Proof.
  intros Hx Hon. induction Hon as [|x y z Hp Hon IH]; [done|].
  destruct Hx as [->|[[p c] Hx]].
  - destruct Hp as (p & c & Hr & _). pose proof (to_index _ Hok' _ _ Hr). cbn in *. lia.
  - destruct Hp as (p' & c' & Hx' & ->). rewrite (lookup_weaken _ _ _ _ Hx Hsub) in Hx'. injection Hx' as <- <-.
    eapply rtc_l; [by exists p, c|]. apply IH. by eapply to_parent.
Qed.

End grow.

Lemma tree_ok_insert T x p c :
  tree_ok T → T !! x = None → (0 < x.1)%N → (0 < x.2)%N → (p ≤ x.2)%N → valid T ((x.1 - 1)%N, p) →
  tree_ok (<[x := (p, c)]> T).
Proof.
  intros [H1 H2 H3] Hx Hi Ht Hp Hv. assert (T ⊆ <[x := (p, c)]> T) as Hsub by (by apply insert_subseteq). split.
  - intros y pc [[<- _]|[_ ?]]%lookup_insert_Some; [done|eauto].
  - intros y p' c' [[<- [= <- <-]]|[_ ?]]%lookup_insert_Some; [done|eauto].
  - intros y p' c' [[<- [= <- <-]]|[_ ?]]%lookup_insert_Some; (eapply valid_grow; [exact Hsub|]); [done|eauto].
Qed.

(** By term first, then by index: how votes compare logs. *)
Definition key_le x y : Prop := (x.2 < y.2)%N ∨ (x.2 = y.2 ∧ x.1 ≤ y.1)%N.

(** ** Histories *)

(** [h_elect]: by term, the leader and its position when it was elected.
    [h_votes]: voter, term and the candidate's position.  [h_acks]: who
    acknowledged the log up to which position, in which term.
    [h_commits]: the positions that the leader of a term committed. *)
Record history := mkHistory {
  h_tree : gmap (N * N) (N * Command);
  h_elect : gmap N (string * (N * N));
  h_votes : list (string * N * (N * N));
  h_acks : list (string * N * (N * N));
  h_commits : list (N * (N * N)) }.

Section history.
Context (members : gset string).
Implicit Types (h : history) (t u : N) (p q l : string).

Definition majority_of (Q : gset string) : Prop := Q ⊆ members ∧ size members / 2 + 1 ≤ size Q.

Lemma majorities_share (Q Q' : gset string) : majority_of Q → majority_of Q' → ∃ j, j ∈ Q ∧ j ∈ Q'.
Proof.
  intros [HQ Hs] [HQ' Hs']. destruct (decide (Q ∩ Q' = ∅)) as [He|Hne].
  - assert (size (Q ∪ Q') ≤ size members) as Hle by (apply subseteq_size; set_solver).
    rewrite size_union in Hle by set_solver. pose proof (Nat.div_mod_eq (size members) 2).
    pose proof (Nat.mod_upper_bound (size members) 2). lia.
  - apply set_choose_L in Hne as [j Hj]. exists j. set_solver.
Qed.

(** [x] was lost to a leader of a term between [t] and [u], which does not
    have it. *)
Definition superseded h t u x : Prop :=
  ∃ v l e, (t < v < u)%N ∧ h.(h_elect) !! v = Some (l, e) ∧ ¬ on h.(h_tree) e x.

(** [p] acknowledged, in term [t], a log that contains [x]. *)
Definition vouched h p t x : Prop := ∃ z, (p, t, z) ∈ h.(h_acks) ∧ on h.(h_tree) z x.

(** What a vote of [q] in term [u] for a candidate at [c] says about what [q]
    had acknowledged before. *)
Definition promise h q u (c : pos) : Prop :=
  ∀ t x, vouched h q t x → (t < u)%N →
    (∃ w, valid h.(h_tree) w ∧ on h.(h_tree) w x ∧ key_le w c) ∨ superseded h t u x.

(** A position of the log of the leader of term [t]. *)
Definition led h t x : Prop :=
  valid h.(h_tree) x ∧ ∃ l e, h.(h_elect) !! t = Some (l, e) ∧ (on h.(h_tree) e x ∨ x.2 = t).

Record ginv h : Prop := {
  gi_tree : tree_ok h.(h_tree);
  gi_node : ∀ x pt c, h.(h_tree) !! x = Some (pt, c) →
    ∃ l e, h.(h_elect) !! x.2 = Some (l, e) ∧ (((x.1 - 1)%N, pt) = e ∨ pt = x.2);
  gi_line : ∀ x y, valid h.(h_tree) x → valid h.(h_tree) y → x.2 = y.2 → (x.1 ≤ y.1)%N → on h.(h_tree) y x;
  gi_elect : ∀ t l e, h.(h_elect) !! t = Some (l, e) →
    valid h.(h_tree) e ∧ (e.2 < t)%N ∧
    ∃ Q, majority_of Q ∧ ∀ q, q ∈ Q → (q, t, e) ∈ h.(h_votes) ∧ promise h q t e;
  gi_ack : ∀ p t x, (p, t, x) ∈ h.(h_acks) → led h t x;
  gi_vote : ∀ q u c, (q, u, c) ∈ h.(h_votes) →
    valid h.(h_tree) c ∧ (h.(h_elect) !! u = None → promise h q u c);
  gi_commit : ∀ t y, (t, y) ∈ h.(h_commits) → is_Some (h.(h_elect) !! t) }.

(** A position of term [t] that a majority acknowledged in that term. *)
Definition agreed h t y : Prop :=
  valid h.(h_tree) y ∧ y.2 = t ∧ (0 < t)%N ∧
  ∃ Q, majority_of Q ∧ ∀ p, p ∈ Q → vouched h p t y.

(** Moreover the leader of [t] noticed. *)
Definition committed_in h t y : Prop := (t, y) ∈ h.(h_commits) ∧ agreed h t y.

(** Below a position committed in a term up to [u]. *)
Definition committed_by h u z : Prop :=
  z = root ∨ ∃ t y, (t ≤ u)%N ∧ committed_in h t y ∧ on h.(h_tree) y z.

Lemma committed_by_mono h u u' z : committed_by h u z → (u ≤ u')%N → committed_by h u' z.
Proof. intros [->|(t & y & ? & ? & ?)] Hu; [by left|right]. exists t, y. split_and!; [lia|done|done]. Qed.

Section ginv.
Context h (Hg : ginv h).
Let Hok : tree_ok h.(h_tree) := gi_tree _ Hg.

(** The positions of a term hang, in a row, from where its leader started. *)
Lemma node_path x pc l e : h.(h_tree) !! x = Some pc → h.(h_elect) !! x.2 = Some (l, e) →
  on h.(h_tree) x e ∧ (e.1 < x.1)%N ∧ ∀ y, on h.(h_tree) x y → (e.1 < y.1)%N → y.2 = x.2.
Proof.
  remember (N.to_nat x.1) as k eqn:Hk. revert x pc Hk.
  induction k as [|k IH]; intros x [p c] Hk Hx He; pose proof (to_index _ Hok _ _ Hx) as Hi; [lia|].
  assert (parent h.(h_tree) x ((x.1 - 1)%N, p)) as Hp by (by exists p, c).
  destruct (gi_node _ Hg _ _ _ Hx) as (l' & e' & He' & Hor). rewrite He in He'. injection He' as <- <-.
  assert (∀ y, on h.(h_tree) x y → y = x ∨ on h.(h_tree) ((x.1 - 1)%N, p) y) as Hcases.
  { intros y Hy. inversion Hy as [|? x' ? Hp' Hy']; subst; [by left|right].
    by rewrite (parent_fun _ _ _ _ Hp Hp'). }
  destruct Hor as [Heq| ->].
  - subst e. split; [by apply rtc_once|]. split; [cbn; lia|]. intros y Hy Hlt.
    destruct (Hcases y Hy) as [->|Hy']; [done|]. apply (on_index _ Hok) in Hy' as (? & _). cbn in *. lia.
  - destruct (to_parent _ Hok _ _ _ Hx) as [Hr|[pc' Hpar]].
    { destruct (to_term _ Hok _ _ _ Hx). injection Hr as _ Hr. lia. }
    destruct (IH ((x.1 - 1)%N, x.2) pc' ltac:(cbn; lia) Hpar He) as (H1 & H2 & H3). cbn in H2, H3.
    split; [by eapply rtc_l|]. split; [lia|]. intros y Hy Hlt.
    destruct (Hcases y Hy) as [->|Hy']; [done|]. by apply H3.
Qed.

(** Leader completeness. *)
Lemma leader_has_committed u l e t y :
  h.(h_elect) !! u = Some (l, e) → committed_in h t y → (t < u)%N → on h.(h_tree) e y.
Proof.
  revert l e. induction (N.lt_wf_0 u) as [u _ IH]. intros l e He Hc Htu.
  pose proof Hc as (_ & Hy & Hyt & Ht & Q & HQ & Hacks).
  destruct (gi_elect _ Hg _ _ _ He) as (Hve & Heu & Q' & HQ' & Hpr).
  destruct (majorities_share Q Q' HQ HQ') as (q & Hq & Hq').
  destruct (proj2 (Hpr q Hq') t y (Hacks q Hq) Htu) as [(w & Hw & Hwy & Hk)|(v & l' & e' & Hv & He' & Hno)].
  - pose proof (on_index _ Hok _ _ Hwy) as (Hi & Hterm & _).
    destruct Hk as [Hk|[Hk Hle]].
    + destruct Hve as [->|[pc Hpc]]; [cbn in Hk; lia|].
      destruct pc as [p c]. destruct (gi_node _ Hg _ _ _ Hpc) as (l' & e' & He' & _).
      destruct (node_path _ _ _ _ Hpc He') as [Hon _]. etrans; [exact Hon|]. apply (IH e.2 Heu l' e' He' Hc). lia.
    + etrans; [|exact Hwy]. by apply (gi_line _ Hg).
  - destruct Hno. apply (IH v ltac:(lia) l' e' He' Hc). lia.
Qed.

Lemma led_on t x y : led h t x → on h.(h_tree) x y → led h t y.
Proof.
  intros (Hv & l & e & He & Hx) Hon. split; [by eapply on_valid|]. exists l, e. split; [done|].
  destruct Hx as [Hx|Hx]; [left; by etrans|]. destruct (decide (y.2 = t)) as [|Hne]; [by right|left].
  destruct Hv as [->|[pc Hpc]].
  { destruct (gi_elect _ Hg _ _ _ He) as (_ & ? & _). cbn in *. lia. }
  rewrite <- Hx in He. destruct (node_path _ _ _ _ Hpc He) as (Hxe & _ & Hterm).
  destruct (decide (y.1 ≤ e.1)%N) as [Hle|Hgt]; [by eapply on_linear|].
  destruct Hne. rewrite <- Hx. apply Hterm; [done|lia].
Qed.

(** Two positions of the log of one leader lie on one path. *)
Lemma led_linear t x y : led h t x → led h t y → on h.(h_tree) x y ∨ on h.(h_tree) y x.
Proof.
  assert (∀ x y, led h t x → led h t y → (y.1 ≤ x.1)%N → on h.(h_tree) x y) as Hwlog.
  { clear x y. intros x y (Hx & l & e & He & Hxo) (Hy & l' & e' & He' & Hyo) Hle.
    rewrite He in He'. injection He' as <- <-. destruct (gi_elect _ Hg _ _ _ He) as (Hve & Het & _).
    assert (∀ z, valid h.(h_tree) z → z.2 = t → on h.(h_tree) z e ∧ (e.1 < z.1)%N) as Hz.
    { intros z Hv Hzt. destruct Hv as [->|[pc Hpc]]; [cbn in *; lia|]. rewrite <- Hzt in He.
      by destruct (node_path _ _ _ _ Hpc He) as (? & ? & _). }
    destruct Hxo as [Hxo|Hxo], Hyo as [Hyo|Hyo].
    - by eapply on_linear.
    - destruct (Hz y Hy Hyo) as [_ Hlt]. apply (on_index _ Hok) in Hxo as (? & _). lia.
    - destruct (Hz x Hx Hxo) as [Hon _]. by etrans.
    - apply (gi_line _ Hg); [done|done|congruence|done]. }
  intros Hx Hy. destruct (decide (y.1 ≤ x.1)%N); [left|right]; apply Hwlog; done || lia.
Qed.

Lemma led_mono t x l e : h.(h_elect) !! t = Some (l, e) → on h.(h_tree) e x → led h t x.
Proof.
  intros He Hx. destruct (gi_elect _ Hg _ _ _ He) as (Hve & _). split; [by eapply on_valid|]. exists l, e. auto.
Qed.

Lemma vouched_led p t x : vouched h p t x → led h t x.
Proof. intros (z & Hz & Hon). eapply led_on; [by eapply gi_ack|done]. Qed.

Lemma committed_led t y : committed_in h t y → led h t y.
Proof.
  intros (_ & Hy & Hyt & Ht & Q & [HQ Hs] & Hst). assert (Q ≠ ∅) as Hne by (intros ->; rewrite size_empty in Hs; lia).
  apply set_choose_L in Hne as [q Hq]. by eapply vouched_led, Hst.
Qed.

(** Whatever was committed is on the path of every later leader. *)
Lemma committed_led_later t y u : committed_in h t y → (t ≤ u)%N → is_Some (h.(h_elect) !! u) → led h u y.
Proof.
  intros Hc Hle [[l e] He]. destruct (decide (t = u)) as [->|Hne]; [by apply committed_led|].
  eapply led_mono; [done|]. eapply leader_has_committed; [done|done|lia].
Qed.

Lemma committed_valid u z : committed_by h u z → valid h.(h_tree) z.
Proof. intros [->|(t & y & _ & (_ & Hy & _) & Hz)]; [by left|by eapply on_valid]. Qed.

Lemma committed_on u z x : committed_by h u z → on h.(h_tree) z x → committed_by h u x.
Proof.
  intros [->|(t & y & ? & ? & ?)] Hon; [left|right; exists t, y; split_and!; [done..|by etrans]].
  apply (valid_root_index _ Hok); [by eapply on_valid; [|left|]|].
  apply (on_index _ Hok) in Hon as (? & _). cbn in *. lia.
Qed.

(** The log of a leader holds what was committed up to its term. *)
Lemma committed_by_led u z : committed_by h u z → is_Some (h.(h_elect) !! u) → led h u z.
Proof.
  intros [->|(t & y & Hle & Hc & Hon)] Hu.
  - destruct Hu as [[l e] He]. eapply led_mono; [done|]. apply (on_root _ Hok). by apply (gi_elect _ Hg) in He as (? & _).
  - eapply led_on; [by apply (committed_led_later t y u)|done].
Qed.

(** All committed positions lie on one path. *)
Lemma committed_linear u u' z z' :
  committed_by h u z → committed_by h u' z' → on h.(h_tree) z z' ∨ on h.(h_tree) z' z.
Proof.
  assert (∀ t y t' y' z z', committed_in h t y → committed_in h t' y' → (t ≤ t')%N →
    on h.(h_tree) y z → on h.(h_tree) y' z' → on h.(h_tree) z z' ∨ on h.(h_tree) z' z) as Hwlog.
  { clear z z'. intros t y t' y' z z' Hc Hc' Hle Hz Hz'.
    assert (led h t' y') as (_ & l & e & He & _) by by apply committed_led.
    assert (led h t' z') as L1 by (eapply led_on; [by apply committed_led|done]).
    assert (led h t' z) as L2 by (eapply led_on; [by apply (committed_led_later t y t')|done]).
    by apply (led_linear t'). }
  intros Hz Hz'. pose proof (committed_valid _ _ Hz) as Hv. pose proof (committed_valid _ _ Hz') as Hv'.
  destruct Hz as [->|(t & y & _ & Hc & Hon)]; [right; by apply on_root|].
  destruct Hz' as [->|(t' & y' & _ & Hc' & Hon')]; [left; by apply on_root|].
  destruct (decide (t ≤ t')%N) as [Hle|Hgt]; [exact (Hwlog t y t' y' z z' Hc Hc' Hle Hon Hon')|].
  apply or_comm. exact (Hwlog t' y' t y z' z Hc' Hc ltac:(lia) Hon' Hon).
Qed.

Lemma committed_below u u' z z' :
  committed_by h u z → committed_by h u' z' → (z'.1 ≤ z.1)%N → on h.(h_tree) z z'.
Proof.
  intros Hz Hz' Hle. destruct (committed_linear u u' z z' Hz Hz') as [?|Hon]; [done|].
  pose proof (on_index _ Hok _ _ Hon) as (? & _ & Heq). rewrite Heq by lia. done.
Qed.

End ginv.

(** ** What a node keeps

    [w] is the tip of a log of [p], in memory or on disk: what [p]
    acknowledged is still on its path, unless a later leader, of a term up to
    [vt], does not have it. *)
Definition keep h p (w : pos) (vt : N) : Prop :=
  ∀ t x, vouched h p t x → (t ≤ vt)%N ∧
    (on h.(h_tree) w x ∨ ∃ u l e, (t < u ≤ vt)%N ∧ h.(h_elect) !! u = Some (l, e) ∧ ¬ on h.(h_tree) e x).

(** ** How a history grows *)

Record extends h h' : Prop := {
  ex_ok : tree_ok h.(h_tree);
  ex_ok' : tree_ok h'.(h_tree);
  ex_tree : h.(h_tree) ⊆ h'.(h_tree);
  ex_elect : h.(h_elect) ⊆ h'.(h_elect);
  ex_evalid : ∀ u l e, h.(h_elect) !! u = Some (l, e) → valid h.(h_tree) e;
  ex_votes : ∀ a, a ∈ h.(h_votes) → a ∈ h'.(h_votes);
  ex_acks : ∀ a, a ∈ h.(h_acks) → a ∈ h'.(h_acks) ∧ valid h.(h_tree) a.2;
  ex_commits : ∀ a, a ∈ h.(h_commits) → a ∈ h'.(h_commits) }.

Section extends.
Context h h' (Hgr : extends h h').

Lemma ex_on x y : on h.(h_tree) x y → on h'.(h_tree) x y.
Proof. apply on_grow, Hgr. Qed.
Lemma ex_on_inv x y : valid h.(h_tree) x → on h'.(h_tree) x y → on h.(h_tree) x y.
Proof. destruct Hgr. by apply on_shrink. Qed.
Lemma ex_valid x : valid h.(h_tree) x → valid h'.(h_tree) x.
Proof. apply valid_grow, Hgr. Qed.
Lemma ex_elected u l e : h.(h_elect) !! u = Some (l, e) → h'.(h_elect) !! u = Some (l, e).
Proof. intros He. eapply lookup_weaken; [done|apply Hgr]. Qed.

Lemma ex_vouched p t x : vouched h p t x → vouched h' p t x.
Proof. intros (z & Hz & Hon). exists z. split; [by apply (ex_acks _ _ Hgr)|by apply ex_on]. Qed.

Lemma ex_superseded t u x : superseded h t u x → superseded h' t u x.
Proof.
  intros (v & l & e & Hv & He & Hno). exists v, l, e. split_and!; [lia..|by apply ex_elected|].
  intros Hon. apply Hno, ex_on_inv; [by eapply ex_evalid|done].
Qed.

Lemma ex_led t x : led h t x → led h' t x.
Proof.
  intros (Hv & l & e & He & Hx). split; [by apply ex_valid|]. exists l, e. split; [by apply ex_elected|].
  destruct Hx; [left; by apply ex_on|by right].
Qed.

Lemma ex_committed_in t y : committed_in h t y → committed_in h' t y.
Proof.
  intros (Hn & Hy & Ht & H0 & Q & HQ & Hst). split; [by apply Hgr|]. split_and!; [by apply ex_valid|done|done|]. exists Q.
  split; [done|]. intros p Hp. by apply ex_vouched, Hst.
Qed.

Lemma ex_committed u z : committed_by h u z → committed_by h' u z.
Proof.
  intros [->|(t & y & ? & Hc & Hz)]; [by left|right]. exists t, y. split_and!; [done|by apply ex_committed_in|by apply ex_on].
Qed.

(** Nothing new was vouched by [p], or only what [x] accounts for. *)
Definition same_vouched p : Prop := ∀ t x, vouched h' p t x → vouched h p t x.

Lemma ex_promise p u c : same_vouched p → promise h p u c → promise h' p u c.
Proof.
  intros Hs Hp t x Hx Ht. destruct (Hp t x (Hs t x Hx) Ht) as [(w & Hw & Hon & Hk)|Hsup].
  - left. exists w. split_and!; [by apply ex_valid|by apply ex_on|done].
  - right. by apply ex_superseded.
Qed.

Lemma ex_keep p w vt : same_vouched p → keep h p w vt → keep h' p w vt.
Proof.
  intros Hs Hk t x Hx. destruct (Hk t x (Hs t x Hx)) as [Ht Hor]. split; [done|].
  destruct Hor as [Hon|(u & l & e & Hu & He & Hno)]; [left; by apply ex_on|right].
  exists u, l, e. split_and!; [lia..|by apply ex_elected|]. intros Hon. apply Hno, ex_on_inv; [by eapply ex_evalid|done].
Qed.

(** The same acknowledgements. *)
Lemma ex_same_acks p : h'.(h_acks) = h.(h_acks) → same_vouched p.
Proof.
  intros Ha t x (z & Hz & Hon). rewrite Ha in Hz. exists z. split; [done|].
  apply ex_on_inv; [|done]. by destruct (ex_acks _ _ Hgr _ Hz).
Qed.

End extends.

Lemma extends_refl h : ginv h → extends h h.
Proof.
  intros Hg. pose proof (gi_tree _ Hg). split; try done.
  - intros u l e He. by apply (gi_elect _ Hg) in He as (? & _).
  - intros [[p t] x] Hx. split; [done|]. by apply (gi_ack _ Hg) in Hx as (? & _).
Qed.

Lemma extends_trans h h1 h2 : extends h h1 → extends h1 h2 → extends h h2.
Proof.
  intros [] []. split; try done; [by etrans|by etrans|auto| |auto].
  intros a Ha. destruct (ex_acks0 a Ha) as [Ha1 ?]. split; [by apply ex_acks1|done].
Qed.

(** *** A leader appends an entry *)
Definition h_append x (pt : N) (cmd : Command) h : history :=
  mkHistory (<[x := (pt, cmd)]> h.(h_tree)) h.(h_elect) h.(h_votes) h.(h_acks) h.(h_commits).

Lemma append_ok h l e w cmd :
  ginv h →
  ∀ t, h.(h_elect) !! t = Some (l, e) → led h t w → (w = e ∨ w.2 = t) →
  (∀ y, valid h.(h_tree) y → y.2 = t → on h.(h_tree) w y) →
  let x := ((w.1 + 1)%N, t) in
  ginv (h_append x w.2 cmd h) ∧ extends h (h_append x w.2 cmd h).
Proof.
  intros Hg t He Hw Hor Hall x. pose proof (gi_tree _ Hg) as Hok. pose proof Hw as (Hwv & _).
  destruct (gi_elect _ Hg _ _ _ He) as (Hev & Het & _).
  assert (h.(h_tree) !! x = None) as Hx.
  { destruct (h_tree h !! x) as [pc|] eqn:E; [|done]. exfalso.
    assert (on h.(h_tree) w x) as Hon by (apply Hall; [right; by exists pc|done]).
    apply (on_index _ Hok) in Hon as (? & _). subst x. cbn in *. lia. }
  assert (tree_ok (h_append x w.2 cmd h).(h_tree)) as Hok'.
  { apply tree_ok_insert; [done|done|cbn; lia|cbn; lia|cbn; destruct Hor; subst; lia|].
    cbn. replace (w.1 + 1 - 1)%N with w.1 by lia. by destruct w. }
  assert (extends h (h_append x w.2 cmd h)) as Hgr.
  { split; try done; [by apply insert_subseteq|..].
    - intros u l' e' He'. by apply (gi_elect _ Hg) in He' as (? & _).
    - intros [[p t'] z] Hz. split; [done|]. by apply (gi_ack _ Hg) in Hz as (? & _). }
  split; [|done]. set (h' := h_append x w.2 cmd h) in *.
  assert (∀ p, same_vouched h h' p) as Hs by (intros p; by apply ex_same_acks).
  assert (parent h'.(h_tree) x w) as Hxw.
  { exists w.2, cmd. split; [cbn; by rewrite lookup_insert_eq|]. cbn. replace (w.1 + 1 - 1)%N with w.1 by lia. by destruct w. }
  assert (∀ y, valid h'.(h_tree) y → y = x ∨ valid h.(h_tree) y) as Hvx.
  { intros y [->|[pc Hpc]]; [right; by left|]. cbn in Hpc. apply lookup_insert_Some in Hpc as [[<- _]|[_ ?]]; [by left|right; right; eauto]. }
  split.
  - done.
  - intros y pt c Hy. cbn in Hy. apply lookup_insert_Some in Hy as [[<- [= <- <-]]|[_ Hy]].
    + exists l, e. split; [done|]. destruct Hor as [->|Hor]; [left|by right]. cbn. replace (e.1 + 1 - 1)%N with e.1 by lia. by destruct e.
    + destruct (gi_node _ Hg _ _ _ Hy) as (l' & e' & ? & ?). by exists l', e'.
  - intros y z Hy Hz Hyz Hle. destruct (Hvx y Hy) as [->|Hy'], (Hvx z Hz) as [->|Hz'].
    + done.
    + exfalso. assert (on h.(h_tree) w z) as Hon by (apply Hall; [done|cbn in *; done]).
      apply (on_index _ Hok) in Hon as (? & _). cbn in *. lia.
    + eapply rtc_l; [exact Hxw|]. apply (ex_on _ _ Hgr). apply Hall; [done|]. cbn in Hyz. done.
    + apply (ex_on _ _ Hgr). by apply (gi_line _ Hg).
  - intros u l' e' He'. destruct (gi_elect _ Hg _ _ _ He') as (Hv & Hlt & Q & HQ & Hpr).
    split_and!; [by apply (ex_valid _ _ Hgr)|done|]. exists Q. split; [done|]. intros q Hq.
    destruct (Hpr q Hq). split; [done|]. by apply (ex_promise _ _ Hgr).
  - intros p u z Hz. apply (ex_led _ _ Hgr). by eapply gi_ack.
  - intros q u c Hc. destruct (gi_vote _ Hg _ _ _ Hc) as [Hv Hpr]. split; [by apply (ex_valid _ _ Hgr)|].
    intros Hn. apply (ex_promise _ _ Hgr); [done|]. by apply Hpr.
  - apply (gi_commit _ Hg).
Qed.

(** *** A leader is elected *)
Definition h_lead u l e h : history :=
  mkHistory h.(h_tree) (<[u := (l, e)]> h.(h_elect)) h.(h_votes) h.(h_acks) h.(h_commits).

Lemma lead_ok h u l e Q :
  ginv h → h.(h_elect) !! u = None → valid h.(h_tree) e → (e.2 < u)%N → majority_of Q →
  (∀ q, q ∈ Q → (q, u, e) ∈ h.(h_votes) ∧ promise h q u e) →
  ginv (h_lead u l e h) ∧ extends h (h_lead u l e h).
Proof.
  intros Hg Hn Hv Hlt HQ Hpr. pose proof (gi_tree _ Hg) as Hok.
  assert (extends h (h_lead u l e h)) as Hgr.
  { split; try done; [by apply insert_subseteq|..].
    - intros t l' e' He'. by apply (gi_elect _ Hg) in He' as (? & _).
    - intros [[p t'] z] Hz. split; [done|]. by apply (gi_ack _ Hg) in Hz as (? & _). }
  split; [|done]. set (h' := h_lead u l e h) in *.
  assert (∀ p, same_vouched h h' p) as Hs by (intros p; by apply ex_same_acks).
  split.
  - done.
  - intros x pt c Hx. destruct (gi_node _ Hg _ _ _ Hx) as (l' & e' & He' & ?). exists l', e'.
    split; [by apply (ex_elected _ _ Hgr)|done].
  - apply (gi_line _ Hg).
  - intros t l' e' He'. cbn in He'. apply lookup_insert_Some in He' as [[<- [= <- <-]]|[_ He']].
    + split_and!; [done|done|]. exists Q. split; [done|]. intros q Hq. destruct (Hpr q Hq). split; [done|].
      by apply (ex_promise _ _ Hgr).
    + destruct (gi_elect _ Hg _ _ _ He') as (? & ? & Q' & ? & Hpr'). split_and!; [done|done|]. exists Q'.
      split; [done|]. intros q Hq. destruct (Hpr' q Hq). split; [done|]. by apply (ex_promise _ _ Hgr).
  - intros p t x Hx. apply (ex_led _ _ Hgr). by eapply gi_ack.
  - intros q t c Hc. destruct (gi_vote _ Hg _ _ _ Hc) as [? Hp]. split; [done|]. cbn.
    intros [Hn' _]%lookup_insert_None. apply (ex_promise _ _ Hgr); [done|]. by apply Hp.
  - intros t y Hy. cbn. destruct (decide (t = u)) as [->|Hne]; [rewrite lookup_insert_eq; by eexists|].
    rewrite lookup_insert_ne by done. by apply (gi_commit _ Hg) in Hy.
Qed.

(** *** A vote *)
Definition h_vote q u (c : pos) h : history :=
  mkHistory h.(h_tree) h.(h_elect) ((q, u, c) :: h.(h_votes)) h.(h_acks) h.(h_commits).

Lemma vote_ok h q u c :
  ginv h → valid h.(h_tree) c → (h.(h_elect) !! u = None → promise h q u c) →
  ginv (h_vote q u c h) ∧ extends h (h_vote q u c h).
Proof.
  intros Hg Hv Hpr. pose proof (gi_tree _ Hg) as Hok.
  assert (extends h (h_vote q u c h)) as Hgr.
  { split; try done; [|by right|].
    - intros t l' e' He'. by apply (gi_elect _ Hg) in He' as (? & _).
    - intros [[p t'] z] Hz. split; [done|]. by apply (gi_ack _ Hg) in Hz as (? & _). }
  split; [|done]. split; try apply Hg.
  - intros t l e He. destruct (gi_elect _ Hg _ _ _ He) as (? & ? & Q & ? & Hq). split_and!; [done|done|].
    exists Q. split; [done|]. intros p Hp. destruct (Hq p Hp). split; [by right|done].
  - intros p t x [Heq|Hx]%elem_of_cons; [|by apply (gi_vote _ Hg)]. by injection Heq as -> -> ->.
Qed.

(** A voter whose log is not ahead of the candidate's keeps its promise. *)
Lemma keep_promise h q w vt u c :
  valid h.(h_tree) w → keep h q w vt → key_le w c → (vt ≤ u)%N →
  h.(h_elect) !! u = None → promise h q u c.
Proof.
  intros Hv Hk Hle Hu Hn t x Hx Ht. destruct (Hk t x Hx) as [_ [Hon|(u' & l & e & Hu' & He & Hno)]].
  - left. by exists w.
  - right. exists u', l, e. split_and!; [lia| |done..]. destruct (decide (u' = u)) as [->|]; [congruence|lia].
Qed.

(** *** An acknowledgement *)
Definition h_ack p t x h : history :=
  mkHistory h.(h_tree) h.(h_elect) h.(h_votes) ((p, t, x) :: h.(h_acks)) h.(h_commits).

Lemma ack_vouched h p t x p' t' y : vouched (h_ack p t x h) p' t' y →
  vouched h p' t' y ∨ (p' = p ∧ t' = t ∧ on h.(h_tree) x y).
Proof.
  intros (z & [Heq|Hz]%elem_of_cons & Hon); [injection Heq as -> -> ->; by right|left; by exists z].
Qed.

Lemma ack_ok h p t x :
  ginv h → led h t x → (∀ u c, (p, u, c) ∈ h.(h_votes) → (u ≤ t)%N) →
  ginv (h_ack p t x h) ∧ extends h (h_ack p t x h).
Proof.
  intros Hg Hl Hv. pose proof (gi_tree _ Hg) as Hok.
  assert (extends h (h_ack p t x h)) as Hgr.
  { split; try done.
    - intros u l' e' He'. by apply (gi_elect _ Hg) in He' as (? & _).
    - intros [[p' t'] z] Hz. split; [by right|]. by apply (gi_ack _ Hg) in Hz as (? & _). }
  assert (∀ q u c, (q, u, c) ∈ h.(h_votes) → promise h q u c → promise (h_ack p t x h) q u c) as Hpr.
  { intros q u c Hq Hp t' y Hy Ht'. apply ack_vouched in Hy as [Hy|(-> & -> & Hy)].
    - destruct (Hp t' y Hy Ht') as [?|?]; [by left|right]. by apply (ex_superseded _ _ Hgr).
    - apply Hv in Hq. lia. }
  split; [|done]. split; try apply Hg.
  - intros u l e He. destruct (gi_elect _ Hg _ _ _ He) as (? & ? & Q & ? & Hq). split_and!; [done|done|].
    exists Q. split; [done|]. intros q Hqq. destruct (Hq q Hqq). split; [done|]. by apply Hpr.
  - intros p' t' y [Heq|Hy]%elem_of_cons; [injection Heq as -> -> ->; exact Hl|]. by apply (gi_ack _ Hg p').
  - intros q u c Hc. destruct (gi_vote _ Hg _ _ _ Hc) as [? Hp]. split; [done|]. intros Hn. apply Hpr; [done|by apply Hp].
Qed.

(** The logs of the node that acknowledges contain the position. *)
Lemma ack_keep h p t x p' w vt :
  keep h p' w vt → (p' = p → on h.(h_tree) w x ∧ (t ≤ vt)%N) → keep (h_ack p t x h) p' w vt.
Proof.
  intros Hk Hp t' y Hy. apply ack_vouched in Hy as [Hy|(-> & -> & Hy)]; [by apply Hk|].
  destruct (Hp eq_refl) as [? ?]. split; [done|]. left. by etrans.
Qed.

(** ** How a follower's log moves *)

(** A node in term [t] takes over a position [y] of that leader's log: either
    its tip stays, or its new tip is [y], which extends the old log or was not in
    it. *)
Definition follows h w y w' : Prop :=
  w' = w ∨ (w' = y ∧ (on h.(h_tree) y w ∨ ¬ on h.(h_tree) w y)).

Lemma follow_keep h p w t y w' :
  ginv h → keep h p w t → led h t y → follows h w y w' → keep h p w' t.
Proof.
  intros Hg Hk Hy Hf t' x Hx. destruct (Hk t' x Hx) as [Hle Hor]. split; [done|]. cbn in *.
  destruct Hor as [Hon|(u & l & e & ? & ? & ?)]; [|right; by exists u, l, e].
  pose proof Hy as (_ & l & e & He & _). pose proof (gi_tree _ Hg) as Hok.
  assert (led h t x → on h.(h_tree) w' x) as Hsh.
  { intros Hlx. destruct Hf as [->|[-> Hf]]; [done|].
    destruct (led_linear h Hg t x y Hlx Hy) as [Hxy|Hyx]; [|done].
    destruct Hf as [Hyw|Hno]; [by etrans|]. destruct Hno. by etrans. }
  destruct (decide (t' = t)) as [->|Hne]; [left; by apply Hsh, (vouched_led h Hg p)|].
  destruct (gi_elect _ Hg _ _ _ He) as (Hev & _).
  destruct (on_or_not _ Hok e x Hev) as [Hex|Hno].
  - left. apply Hsh. by eapply led_mono.
  - right. exists t, l, e. split_and!; [lia|done|done|done].
Qed.

(** A later term. *)
Lemma keep_term h p w t t' : keep h p w t → (t ≤ t')%N → keep h p w t'.
Proof.
  intros Hk Hle u x Hx. destruct (Hk u x Hx) as [? Hor]. cbn in *. split; [lia|].
  destruct Hor as [?|(v & l & e & ? & ? & ?)]; [by left|right]. exists v, l, e. split_and!; [lia..|done|done].
Qed.

(** The log grows. *)
Lemma keep_extend h p w t w' : keep h p w t → on h.(h_tree) w' w → keep h p w' t.
Proof.
  intros Hk Hon u x Hx. destruct (Hk u x Hx) as [? Hor]. cbn in *. split; [done|].
  destruct Hor as [?|?]; [left; by etrans|by right].
Qed.

(** *** A leader commits *)
Definition h_commit t y h : history :=
  mkHistory h.(h_tree) h.(h_elect) h.(h_votes) h.(h_acks) ((t, y) :: h.(h_commits)).

Lemma commit_ok h t y : ginv h → is_Some (h.(h_elect) !! t) → ginv (h_commit t y h) ∧ extends h (h_commit t y h).
Proof.
  intros Hg He. split.
  - split; try apply Hg. intros t' y' [Heq|Hy]%elem_of_cons; [by injection Heq as -> ->|by apply (gi_commit _ Hg) in Hy].
  - destruct (extends_refl h Hg). split; try done. intros a Ha. by right.
Qed.

(** A majority acknowledged a position of the leader's own term. *)
Lemma majority_commits h t y Q :
  ginv h → valid h.(h_tree) y → y.2 = t → (0 < t)%N → majority_of Q →
  (∀ p, p ∈ Q → ∃ x, (p, t, x) ∈ h.(h_acks) ∧ (y.1 ≤ x.1)%N) → agreed h t y.
Proof.
  intros Hg Hy Ht H0 HQ Hacks. split_and!; [done|done|done|]. exists Q. split; [done|]. intros p Hp.
  destruct (Hacks p Hp) as (x & Hx & Hle). exists x. split; [done|].
  assert (led h t y) as Hly.
  { split; [done|]. destruct (gi_ack _ Hg _ _ _ Hx) as (_ & l & e & He & _). exists l, e. auto. }
  destruct (led_linear h Hg t x y (gi_ack _ Hg _ _ _ Hx) Hly) as [?|Hyx]; [done|].
  pose proof (on_index _ (gi_tree _ Hg) _ _ Hyx) as (? & _ & Heq). rewrite Heq by lia. done.
Qed.

(** The initial history. *)
Definition h_empty : history := mkHistory ∅ ∅ [] [] [].

Lemma empty_ok : ginv h_empty.
Proof.
  assert (∀ x, valid ∅ x → x = root) as Hv by (intros x [->|[? Hx]]; [done|by rewrite lookup_empty in Hx]).
  split; cbn.
  - split; intros *; by rewrite lookup_empty.
  - intros *. by rewrite lookup_empty.
  - intros x y ->%Hv ->%Hv. done.
  - intros *. by rewrite lookup_empty.
  - by intros * ?%not_elem_of_nil.
  - by intros * ?%not_elem_of_nil.
  - by intros * ?%not_elem_of_nil.
Qed.

End history.
