(* ===== verification/LogTree.v ===== *)
(** * Logs in the tree of positions

    How the operations of [RaftLog.v] move a log along the tree of
    [Consensus.v]: a log whose entries hang in the tree, one below the
    other from the position of the snapshot, keeps doing so when it is
    merged with a request, appended to, compacted or cut down to what
    follows a snapshot, and its tip moves the way the safety argument
    allows. *)

From S2P Require Import Prelude Types RaftLog Consensus.

Definition entry_pos (e : LogEntry) : N * N := (e.(Index), e.(Term)).
Definition snap_pos (sn : Snapshot) : N * N := (sn.(LastIncludedIndex), sn.(LastIncludedTerm)).

(** Where a list of entries that starts after [x] ends. *)
Definition end_pos (x : N * N) (l : list LogEntry) : N * N :=
  match last l with None => x | Some e => entry_pos e end.

Definition tip (sn : Snapshot) (l : list LogEntry) : N * N := (lastIndex sn l, lastTerm sn l).

Lemma tip_end sn l : tip sn l = end_pos (snap_pos sn) l.
Proof. unfold tip, lastIndex, lastTerm, end_pos. by destruct (last l). Qed.

(** The entries of [l] hang in the tree, one below the other, from [x]. *)
Fixpoint chained (T : gmap (N * N) (N * Command)) (x : N * N) (l : list LogEntry) : Prop :=
  match l with
  | [] => True
  | e :: l => e.(Index) = (x.1 + 1)%N ∧ T !! entry_pos e = Some (x.2, e.(EntryCommand)) ∧ chained T (entry_pos e) l
  end.

Lemma end_pos_cons x e l : end_pos x (e :: l) = end_pos (entry_pos e) l.
Proof. unfold end_pos. destruct l as [|e' l]; [done|]. rewrite last_cons. by destruct (last (e' :: l)) eqn:E; [|by apply last_None in E]. Qed.

Lemma end_pos_app x l l' : end_pos x (l ++ l') = end_pos (end_pos x l) l'.
Proof. unfold end_pos. rewrite last_app. by destruct (last l'). Qed.

Lemma chained_app T l l' : ∀ x, chained T x (l ++ l') ↔ chained T x l ∧ chained T (end_pos x l) l'.
Proof.
  induction l as [|e l IH]; intros x; cbn; [naive_solver|]. rewrite IH, end_pos_cons. tauto.
Qed.

Lemma chained_grow T T' l : ∀ x, T ⊆ T' → chained T x l → chained T' x l.
Proof.
  induction l as [|e l IH]; intros x Hs; cbn; [done|]. intros (? & ? & ?). split_and!; [done|by eapply lookup_weaken|auto].
Qed.

Lemma chained_contiguous T l : ∀ x, chained T x l → contiguous (x.1 + 1) l.
Proof.
  induction l as [|e l IH]; intros x; cbn; [intros _; apply contiguous_nil|]. intros (He & _ & Hl).
  apply contiguous_cons. split; [done|]. apply IH in Hl. cbn in Hl. by rewrite He in Hl.
Qed.

Lemma chained_parent T x e l : chained T x (e :: l) → parent T (entry_pos e) x.
Proof.
  intros (He & HT & _). exists x.2, e.(EntryCommand). split; [done|]. cbn. rewrite He. replace (x.1 + 1 - 1)%N with x.1 by lia. by destruct x.
Qed.

Lemma chained_on T l : ∀ x, chained T x l → on T (end_pos x l) x.
Proof.
  induction l as [|e l IH]; intros x Hc; [done|]. pose proof (chained_parent _ _ _ _ Hc) as Hp.
  destruct Hc as (_ & _ & Hc). rewrite end_pos_cons. eapply rtc_r; [by apply IH|done].
Qed.

Lemma chained_valid T x l : valid T x → chained T x l → valid T (end_pos x l).
Proof.
  revert x. induction l as [|e l IH]; intros x Hx Hc; [done|]. destruct Hc as (_ & HT & Hc).
  rewrite end_pos_cons. apply IH; [right; by eexists|done].
Qed.

Lemma chained_index T x l : chained T x l → (end_pos x l).1 = (x.1 + len l)%N.
Proof.
  revert x. induction l as [|e l IH]; intros x Hc; [cbn; rewrite len_nil; lia|]. destruct Hc as (He & _ & Hc).
  rewrite end_pos_cons, (IH _ Hc), len_cons. cbn. lia.
Qed.

Lemma chained_take T x l k : chained T x l → chained T x (take k l) ∧ on T (end_pos x l) (end_pos x (take k l)).
Proof.
  intros Hc. rewrite <- (take_drop k l) in Hc. apply chained_app in Hc as [H1 H2]. split; [done|].
  rewrite <- (take_drop k l) at 1. rewrite end_pos_app. by apply chained_on.
Qed.

Lemma chained_entry T x l i e : chained T x l → l !! i = Some e →
  on T (end_pos x l) (entry_pos e) ∧ ∃ p, T !! entry_pos e = Some (p, e.(EntryCommand)).
Proof.
  intros Hc Hi. rewrite <- (take_drop_middle _ _ _ Hi) in *. apply chained_app in Hc as [_ Hc].
  rewrite end_pos_app, end_pos_cons. destruct Hc as (_ & HT & Hc). split; [by apply chained_on|]. by eexists.
Qed.

(** Positions of the tree determine the entries. *)
Lemma chained_same T l : ∀ l' x k, chained T x l → chained T x l' →
  k ≤ length l → k ≤ length l' →
  (∀ i e e', i < k → l !! i = Some e → l' !! i = Some e' → e.(Term) = e'.(Term)) → take k l = take k l'.
Proof.
  induction l as [|e l IH]; intros [|e' l'] x [|k] Hc Hc' Hk Hk' Ht; cbn in *; try lia; try done.
  destruct Hc as (Hi & HT & Hc), Hc' as (Hi' & HT' & Hc').
  assert (entry_pos e = entry_pos e') as He by (unfold entry_pos; f_equal; [congruence|apply (Ht 0); lia || done]).
  assert (e = e') as ->.
  { rewrite <- He, HT in HT'. injection HT' as HT'. destruct e, e'. unfold entry_pos in He. cbn in *. congruence. }
  f_equal. apply (IH l' (entry_pos e')); [done|done|lia|lia|]. intros i a a' Hlt. apply (Ht (S i)). lia.
Qed.

Lemma first_mismatch_differ es : ∀ tail k a b,
  first_mismatch tail es = Some k → tail !! k = Some a → es !! k = Some b → a.(Term) ≠ b.(Term).
Proof.
  induction es as [|e es IH]; intros [|t tail] k a b; cbn; [done..|]. case_decide as Ht.
  - destruct (first_mismatch tail es) as [k'|] eqn:E; [|done]. intros [= <-]. cbn. by apply IH.
  - intros [= <-]. cbn. intros. by simplify_eq.
Qed.

Lemma from_above l i : entriesFrom l (i + 1) = entriesAbove l i.
Proof. apply list_filter_iff. intros e. lia. Qed.

(** ** Reading a log *)

Section log.
Context T (Hok : tree_ok T) (sn : Snapshot) (l : list LogEntry).
Context (Hv : valid T (snap_pos sn)) (Hc : chained T (snap_pos sn) l) (Hmax : (lastIndex sn l < two64)%N).

Lemma chained_wf : wf_log sn l.
Proof.
  split; [exact (chained_contiguous _ _ _ Hc)|]. pose proof (chained_index _ _ _ Hc) as Hi. rewrite <- tip_end in Hi.
  cbn in Hi. lia.
Qed.

Lemma tip_valid : valid T (tip sn l).
Proof. rewrite tip_end. by apply chained_valid. Qed.

Lemma tip_on_snap : on T (tip sn l) (snap_pos sn).
Proof. rewrite tip_end. by apply chained_on. Qed.

Lemma entryAt_on i e : entryAt sn l i = Some e →
  e.(Index) = i ∧ on T (tip sn l) (entry_pos e) ∧ ∃ p, T !! entry_pos e = Some (p, e.(EntryCommand)).
Proof.
  unfold entryAt. intros He. repeat case_match; simplify_eq. split; [done|]. rewrite tip_end. by eapply chained_entry.
Qed.

Lemma termAt_on i t : termAt sn l i = Some t → on T (tip sn l) (i, t).
Proof.
  unfold termAt. case_decide as H0; [intros [= <-]; subst; apply (on_root _ Hok), tip_valid|].
  case_decide as Hs; [intros [= <-]; subst; apply tip_on_snap|].
  destruct (entryAt sn l i) as [e|] eqn:He; [|done]. intros [= <-]. apply entryAt_on in He as (<- & Hon & _). done.
Qed.

Lemma on_termAt x : on T (tip sn l) x → (sn.(LastIncludedIndex) ≤ x.1)%N → termAt sn l x.1 = Some x.2.
Proof.
  intros Hon Hle. pose proof (on_index _ Hok _ _ Hon) as (Hi & _). cbn in Hi.
  assert (is_Some (termAt sn l x.1)) as [t Ht].
  { unfold termAt. case_decide; [by eexists|]. case_decide; [by eexists|].
    assert (is_Some (entryAt sn l x.1)) as [e ->]; [|by eexists]. apply (entryAt_is_Some _ _ chained_wf); lia. }
  rewrite Ht. f_equal. apply termAt_on in Ht. pose proof (on_same_index _ Hok _ _ _ Hon Ht eq_refl) as ->. done.
Qed.

(** The entry at a position of the log. *)
Lemma on_entryAt x : on T (tip sn l) x → (sn.(LastIncludedIndex) < x.1)%N →
  ∃ e, entryAt sn l x.1 = Some e ∧ entry_pos e = x.
Proof.
  intros Hon Hlt. pose proof (on_termAt x Hon ltac:(lia)) as Ht. unfold termAt in Ht.
  rewrite decide_False in Ht by lia. rewrite decide_False in Ht by lia.
  destruct (entryAt sn l x.1) as [e|] eqn:He; [|done]. exists e. split; [done|].
  apply entryAt_on in He as (He & _). unfold entry_pos. destruct x. cbn in *. congruence.
Qed.

(** ** Cutting a log *)

Lemma drop_chained k : k ≤ length l → 
  let x := end_pos (snap_pos sn) (take k l) in
  chained T x (drop k l) ∧ end_pos x (drop k l) = tip sn l ∧ x.1 = (sn.(LastIncludedIndex) + N.of_nat k)%N ∧ on T (tip sn l) x.
Proof.
  intros Hk x. pose proof Hc as Hc'. rewrite <- (take_drop k l) in Hc'. apply chained_app in Hc' as [H1 H2].
  split; [done|]. assert (end_pos x (drop k l) = tip sn l) as He.
  { subst x. by rewrite <- end_pos_app, take_drop, tip_end. }
  split; [done|]. split; [|rewrite <- He; by apply chained_on].
  subst x. rewrite (chained_index _ _ _ H1). unfold len. rewrite length_take_le; done.
Qed.

Lemma above_chained x : on T (tip sn l) x → (sn.(LastIncludedIndex) ≤ x.1)%N →
  chained T x (entriesAbove l x.1) ∧ end_pos x (entriesAbove l x.1) = tip sn l.
Proof.
  intros Hon Hle. rewrite (entriesAbove_wf _ _ chained_wf) by done.
  pose proof (on_index _ Hok _ _ Hon) as (Hi & _). cbn in Hi. rewrite (lastIndex_wf _ _ chained_wf) in Hi. unfold len in Hi.
  destruct (ex_intro (eq (N.to_nat (x.1 - sn.(LastIncludedIndex)))) _ eq_refl) as [k Hk]. rewrite Hk.
  destruct (drop_chained k ltac:(lia)) as (H1 & H2 & H3 & H4).
  assert (end_pos (snap_pos sn) (take k l) = x) as <-; [|done].
  apply (on_same_index _ Hok (tip sn l)); [done|done|]. rewrite H3. lia.
Qed.

(** What remains of the log after a snapshot. *)
Lemma after_chained new : valid T (snap_pos new) → (sn.(LastIncludedIndex) ≤ new.(LastIncludedIndex))%N →
  chained T (snap_pos new) (logAfterSnapshot sn l new) ∧
  ((tip new (logAfterSnapshot sn l new) = snap_pos new ∧ ¬ on T (tip sn l) (snap_pos new)) ∨
   (tip new (logAfterSnapshot sn l new) = tip sn l ∧ on T (tip sn l) (snap_pos new))).
Proof.
  intros Hvn Hle. unfold logAfterSnapshot. case_decide as Ht.
  - split; [done|]. left. split; [done|]. intros Hon. exact (Ht (on_termAt (snap_pos new) Hon Hle)).
  - assert (termAt sn l new.(LastIncludedIndex) = Some new.(LastIncludedTerm)) as Ht'
      by (destruct (decide (termAt sn l new.(LastIncludedIndex) = Some new.(LastIncludedTerm))); [done|tauto]).
    pose proof (termAt_on _ _ Ht') as Hon. rewrite (tip_end new).
    destruct (above_chained (snap_pos new) Hon Hle) as [H1 H2]. split; [done|]. by right.
Qed.

(** An entry at the end. *)
Lemma snoc_chained e : e.(Index) = (lastIndex sn l + 1)%N → T !! entry_pos e = Some (lastTerm sn l, e.(EntryCommand)) →
  chained T (snap_pos sn) (l ++ [e]) ∧ tip sn (l ++ [e]) = entry_pos e.
Proof.
  intros Hi HT. rewrite !tip_end, end_pos_app. split; [|done]. apply chained_app. split; [done|]. rewrite <- tip_end. done.
Qed.

(** ** Merging *)

Context (commit prev pt : N) (es : list LogEntry).
Context (Hprev : on T (tip sn l) (prev, pt)) (Hlow : (sn.(LastIncludedIndex) ≤ prev)%N).
Context (Hes : chained T (prev, pt) es).

(** The first entries of the request that the log has as well. *)
Lemma merge_common k : let k0 := N.to_nat (prev - sn.(LastIncludedIndex)) in
  k ≤ length (drop k0 l) → k ≤ length es →
  (∀ i e e', i < k → drop k0 l !! i = Some e → es !! i = Some e' → e.(Term) = e'.(Term)) →
  take k (drop k0 l) = take k es ∧ end_pos (snap_pos sn) (take (k0 + k) l) = end_pos (prev, pt) (take k es) ∧
  chained T (snap_pos sn) (take (k0 + k) l).
Proof.
  intros k0 Hk Hk' Ht. pose proof (on_index _ Hok _ _ Hprev) as (Hi & _). cbn in Hi.
  rewrite (lastIndex_wf _ _ chained_wf) in Hi. unfold len in Hi.
  destruct (drop_chained k0 ltac:(lia)) as (H1 & H2 & H3 & H4).
  assert (end_pos (snap_pos sn) (take k0 l) = (prev, pt)) as Hx.
  { apply (on_same_index _ Hok (tip sn l)); [done|done|]. rewrite H3. cbn. lia. }
  rewrite Hx in *. assert (take k (drop k0 l) = take k es) as Heq by (by apply (chained_same T _ _ (prev, pt))).
  split; [done|]. split; [|by apply chained_take].
  rewrite <- Hx, <- Heq, <- end_pos_app, take_take_drop. done.
Qed.

(** The merged log hangs in the tree, holds the request's end, and its tip
    is the old one or the end of the request. *)
Lemma merge_chained (Hm : (lastIndex sn l < two64 - 1)%N) (Ha : above sn es) r l' :
  mergeEntries sn commit l prev es = (r, l') → r.(conflictIndex) = 0%N →
  let y := end_pos (prev, pt) es in
  chained T (snap_pos sn) l' ∧ on T (tip sn l') y ∧
  (tip sn l' = tip sn l ∨ (tip sn l' = y ∧ (on T y (tip sn l) ∨ ¬ on T (tip sn l) y))).
Proof.
  intros Hmerge Hconf y. pose proof (on_index _ Hok _ _ Hprev) as (Hi & _). cbn in Hi.
  pose proof (chained_contiguous _ _ _ Hes) as Hcon. cbn in Hcon.
  destruct (mergeEntries_spec _ _ chained_wf commit prev es ltac:(lia) Hm Ha) as [_ Hspec].
  rewrite (Hspec Hcon) in Hmerge. clear Hspec. unfold merge_outcome in Hmerge.
  set (k0 := N.to_nat (prev - sn.(LastIncludedIndex))) in *.
  destruct (first_mismatch (drop k0 l) es) as [k|] eqn:Hfm.
  - pose proof (first_mismatch_lt _ _ _ Hfm) as [Hk Hk']. case_decide; simplify_eq/=; [lia|].
    pose proof (merge_differ sn l prev es k Hfm) as Hd. fold k0 in Hd. rewrite Hd.
    destruct (merge_common k ltac:(fold k0; lia) ltac:(lia)) as (Heq & Hend & Hch).
    { intros i e e' Hlt. apply (first_mismatch_agree _ es i). fold k0. rewrite Hfm. intros ? [= <-]. done. }
    fold k0 in Hend, Hch. pose proof Hes as Hes'. rewrite <- (take_drop k es) in Hes'. apply chained_app in Hes' as [He1 He2].
    assert (tip sn (take (k0 + k) l ++ drop k es) = y) as Htip.
    { subst y. rewrite tip_end, end_pos_app, Hend, <- end_pos_app, take_drop. done. }
    split; [apply chained_app; by rewrite Hend|]. rewrite Htip. split; [done|]. right. split; [done|]. right.
    intros Hon. destruct (lookup_lt_is_Some_2 (drop k0 l) k Hk) as [a Hla]. destruct (lookup_lt_is_Some_2 es k Hk') as [b Hlb].
    assert (entry_pos a = entry_pos b) as Hab.
    { apply (on_same_index _ Hok (tip sn l)).
      - rewrite lookup_drop in Hla. rewrite tip_end. by eapply chained_entry.
      - etrans; [exact Hon|]. by eapply chained_entry.
      - cbn. rewrite (Hcon _ _ Hlb). rewrite lookup_drop in Hla. rewrite (wf_contiguous _ _ chained_wf _ _ Hla). lia. }
    apply (first_mismatch_differ _ _ _ _ _ Hfm Hla Hlb). unfold entry_pos in Hab. by injection Hab.
  - simplify_eq/=. pose proof (merge_agree sn l prev es Hfm) as Hd. fold k0 in Hd. rewrite Hd.
    destruct (merge_common (length (drop k0 l) `min` length es)) as (Heq & Hend & Hch); fold k0; [lia..| |].
    { intros i e e' Hlt. apply (first_mismatch_agree _ es i). fold k0. by rewrite Hfm. }
    fold k0 in Heq, Hend, Hch. destruct (decide (length es ≤ length (drop k0 l))) as [Hle|Hgt].
    + rewrite (drop_ge es) by done. rewrite app_nil_r. split; [done|]. split; [|by left].
      rewrite Nat.min_r in Hend by done. rewrite (take_ge es) in Hend by done. subst y. rewrite <- Hend, tip_end.
      by apply chained_take.
    + rewrite Nat.min_l in * by lia. pose proof Hes as Hes'. rewrite <- (take_drop (length (drop k0 l)) es) in Hes'.
      apply chained_app in Hes' as [He1 He2]. rewrite <- Hend in He2.
      rewrite (take_ge l) in Hend, He2 by (rewrite length_drop; lia).
      assert (tip sn (l ++ drop (length (drop k0 l)) es) = y) as Htip.
      { subst y. rewrite tip_end, end_pos_app, Hend, <- end_pos_app, take_drop. done. }
      split; [by apply chained_app|]. rewrite Htip. split; [done|]. right. split; [done|]. left.
      rewrite <- Htip, !tip_end, end_pos_app. by apply chained_on.
Qed.

End log.

(** ** The commands of a position *)

(** The commands on the path from the root to a position, oldest first. *)
Inductive trace (T : gmap (N * N) (N * Command)) : N * N → list Command → Prop :=
  | trace_root : trace T root []
  | trace_node x p c cs : T !! x = Some (p, c) → trace T ((x.1 - 1)%N, p) cs → trace T x (cs ++ [c]).

Lemma trace_fun T x cs cs' : tree_ok T → trace T x cs → trace T x cs' → cs = cs'.
Proof.
  intros Hok Ht. revert cs'. induction Ht as [|x p c cs HT Ht IH]; intros cs' Ht'.
  - inversion Ht' as [|? ? ? ? HT]; subst; [done|]. pose proof (to_index _ Hok _ _ HT). cbn in *. lia.
  - inversion Ht' as [|? p' c' cs2 HT' Ht2]; subst.
    + pose proof (to_index _ Hok _ _ HT). cbn in *. lia.
    + rewrite HT in HT'. injection HT' as <- <-. f_equal. by apply IH.
Qed.

Lemma trace_total T x : tree_ok T → valid T x → ∃ cs, trace T x cs.
Proof.
  intros Hok. remember (N.to_nat x.1) as k eqn:Hk. revert x Hk. induction k as [|k IH]; intros x Hk Hv.
  - rewrite (valid_root_index _ Hok x Hv) by lia. exists []. constructor.
  - destruct Hv as [->|[[p c] HT]]; [exists []; constructor|].
    destruct (IH ((x.1 - 1)%N, p)) as [cs Hcs]; [cbn; lia|by eapply to_parent|].
    exists (cs ++ [c]). by econstructor.
Qed.

Lemma trace_grow T T' x cs : T ⊆ T' → trace T x cs → trace T' x cs.
Proof. intros Hs. induction 1; [constructor|]. econstructor; [by eapply lookup_weaken|done]. Qed.

Lemma trace_index T x cs : tree_ok T → trace T x cs → x.1 = len cs.
Proof.
  intros Hok. induction 1 as [|x p c cs HT _ IH]; [done|]. rewrite len_app, <- IH. cbn.
  pose proof (to_index _ Hok _ _ HT). unfold len; cbn. lia.
Qed.

Lemma trace_chained T l : ∀ x cs, trace T x cs → chained T x l → trace T (end_pos x l) (cs ++ (EntryCommand <$> l)).
Proof.
  induction l as [|e l IH]; intros x cs Ht Hc; [by rewrite app_nil_r|]. destruct Hc as (Hi & HT & Hc).
  rewrite end_pos_cons. change (EntryCommand <$> e :: l) with ([e.(EntryCommand)] ++ (EntryCommand <$> l)).
  rewrite app_assoc. apply IH; [|done]. apply (trace_node _ _ x.2); [done|]. cbn. rewrite Hi.
  replace (x.1 + 1 - 1)%N with x.1 by lia. by destruct x.
Qed.

(** A shorter path has a prefix of the commands. *)
Lemma trace_on T x y cs : tree_ok T → on T x y → trace T x cs → ∃ cs1 cs2, cs = cs1 ++ cs2 ∧ trace T y cs1.
Proof.
  intros Hok Hon. revert cs. induction Hon as [x|x x' y (p & c & HT & ->) _ IH]; intros cs Ht.
  - exists cs, []. by rewrite app_nil_r.
  - inversion Ht as [|? p' c' cs' HT' Ht']; subst.
    + pose proof (to_index _ Hok _ _ HT). cbn in *. lia.
    + rewrite HT in HT'. injection HT' as <- <-. destruct (IH _ Ht') as (cs1 & cs2 & -> & ?).
      exists cs1, (cs2 ++ [c]). by rewrite app_assoc.
Qed.
