(* ===== verification/Disk.v ===== *)
(** * What a restart would load

    The laws of a store that the safety of the cluster rests on.  [disk] is
    the snapshot and the log that [Load] hands to a restarted node, or
    nothing when [Load] refuses; the laws say how every operation of the
    interface moves it, when the operation succeeds and when it fails half
    way.  A failed append may leave any number of the new entries; a failed
    replacement leaves the old content or the new one. *)

From S2P Require Import Prelude Types StoreIntf RaftLog.

(** More entries at the end of what is loaded. *)
Definition disk_append (es : list LogEntry) (d : option (Snapshot * list LogEntry)) : option (Snapshot * list LogEntry) :=
  (λ '(sn, l), (sn, l ++ es)) <$> d.

(** [sound]: the files are ones this store wrote.  [appendable]: moreover
    the log ends with a complete line and follows the snapshot. *)
Class DiskLaws (St : Type) `{Store St} := {
  disk : St → option (Snapshot * list LogEntry);
  disk_snap : St → Snapshot;
  sound : St → Prop;
  appendable : St → Prop;
  disk_snap_eq : ∀ s sn l, disk s = Some (sn, l) → sn = disk_snap s;
  Load_disk : ∀ s s' hs es sn, Load s = (inl (hs, es, sn), s') → sound s →
    disk s = Some (sn, es) ∧ disk s' = Some (sn, es) ∧ sound s' ∧ appendable s';
  Load_disk_err : ∀ s s' e, Load s = (inr e, s') → sound s →
    disk s' = disk s ∧ disk_snap s' = disk_snap s ∧ sound s';
  SaveHardState_disk : ∀ hs s, let s' := (SaveHardState hs s).2 in
    disk s' = disk s ∧ disk_snap s' = disk_snap s ∧ (sound s → sound s') ∧ (appendable s → appendable s');
  AppendEntries_disk : ∀ es s r s', AppendEntries es s = (r, s') → sound s → appendable s → es ≠ [] →
    Forall (λ e, (disk_snap s).(LastIncludedIndex) < e.(Index) < two64)%N es →
    disk_snap s' = disk_snap s ∧ sound s' ∧ (r = None → appendable s') ∧
    (disk s' = None ∨ ∃ k, disk s' = disk_append (take k es) (disk s) ∧ (r = None → length es ≤ k));
  ReplaceEntries_disk : ∀ es s r s', ReplaceEntries es s = (r, s') → sound s →
    Forall (λ e, e.(Index) < two64)%N es →
    disk_snap s' = disk_snap s ∧ sound s' ∧
    ((r ≠ None ∧ disk s' = disk s ∧ (appendable s → appendable s')) ∨
     (appendable s' ∧
      (disk s' = None ∨
       (disk s' = Some (disk_snap s, es) ∧ contiguous ((disk_snap s).(LastIncludedIndex) + 1) es))));
  SaveSnapshot_disk : ∀ sn s r s', SaveSnapshot sn s = (r, s') → sound s → (0 < sn.(LastIncludedIndex) < two64)%N →
    sound s' ∧
    ((r ≠ None ∧ disk_snap s' = disk_snap s ∧ disk s' = disk s ∧ (appendable s → appendable s')) ∨
     (disk_snap s' = sn ∧
      ((disk s = None ∧ disk s' = None ∧ (appendable s → appendable s')) ∨
       ∃ l, disk s = Some (disk_snap s, l) ∧
         ((termAt (disk_snap s) l sn.(LastIncludedIndex) = Some sn.(LastIncludedTerm) ∧
           (disk_snap s).(LastIncludedIndex) ≤ sn.(LastIncludedIndex))%N ∨
          (appendable s ∧ (disk_snap s).(LastIncludedIndex) < sn.(LastIncludedIndex))%N →
          disk s' = Some (sn, logAfterSnapshot (disk_snap s) l sn) ∧
          (appendable s → termAt (disk_snap s) l sn.(LastIncludedIndex) = Some sn.(LastIncludedTerm) → appendable s')))))
}.
