(* ===== verification/NodeState.v ===== *)
(** * The state of a node

    The [Node] struct of [internal/raft/node.go].  Fields that [NewNode]
    sets once are grouped in [NodeParams]; the others are the state the
    handlers change while holding [n.mu].

    - [store] and [sm] are the state of the store and of the state machine
      behind the two interfaces;
    - a [chan applyOutcome] is a reference into [chans], the heap of waiter
      channels, and [nextChan] is the next free reference;
    - [applyCh] and [replicateCh] are one-slot channels: the flag says
      whether a token is pending; [broadcasts] counts the calls of
      [applyCond.Broadcast];
    - [now] is the clock [time.Now] reads and [rng] the position in the
      random stream; durations and times are [Z] nanoseconds. *)

From S2P Require Import Prelude Types StateMachine StoreIntf RaftLog.

(** ** Waiter channels

    [make(chan applyOutcome, 1)].  Sending on a closed channel panics and
    sending on a full one blocks the sender, which holds [n.mu]; closing a
    closed channel panics.  [misuse] records that one of these happened. *)
Record applyOutcome := mkOutcome {
  ao_result : ApplyResult;
  ao_err : option error }.

Record chan := mkChan {
  buf : list applyOutcome;
  closed : bool;
  misuse : bool }.

Definition newChan : chan := mkChan [] false false.

Definition chan_send (o : applyOutcome) (c : chan) : chan :=
  if decide (c.(closed) = true ∨ c.(buf) ≠ []) then mkChan c.(buf) c.(closed) true
  else mkChan [o] c.(closed) c.(misuse).

Definition chan_close (c : chan) : chan :=
  mkChan c.(buf) true (c.(misuse) || c.(closed)).

(** [w <- outcome; close(w)] for one waiter and for a list of them. *)
Definition deliver (o : applyOutcome) (w : nat) (chs : gmap nat chan) : gmap nat chan :=
  alter (chan_close ∘ chan_send o) w chs.

Definition deliver_all (o : applyOutcome) (ws : list nat) (chs : gmap nat chan) : gmap nat chan :=
  foldl (λ chs w, deliver o w chs) chs ws.

Record snapshotProgress := mkProgress {
  sp_leaderID : string;
  sp_lastIncludedIndex : N;
  sp_lastIncludedTerm : N;
  sp_buffer : list Byte.byte }.

Definition defaultSnapshotChunkBytes : Z := 1048576.
Definition maxReplicationAttempts : nat := 128.

Record NodeParams := mkParams {
  id : string;
  address : string;
  peerAddrs : gmap string string;
  clientAddrs : gmap string string;
  heartbeatEvery : Z;
  readTimeout : Z;
  timeoutMin : Z;
  timeoutMax : Z;
  snapshotEvery : Z;
  snapshotChunkBytes : Z }.

(** [rand.Rand.Int63n], documented to return a number in [[0,n)]; the
    generator is seeded from the clock, so its values are the environment's. *)
Class RandSource := {
  Int63n : nat → Z → Z;
  Int63n_range : ∀ s n, (0 < n)%Z → (0 ≤ Int63n s n < n)%Z
}.

(** Reads of Go maps: the zero value when the key is absent. *)
Definition map_N (m : gmap string N) (k : string) : N := default 0%N (m !! k).
Definition map_bool (m : gmap string bool) (k : string) : bool := default false (m !! k).
Definition map_str (m : gmap string string) (k : string) : string := default "" (m !! k).

Section node.
Context {SM St : Type}.

Record Node := mkNode {
  params : NodeParams;
  role : Role;
  currentTerm : N;
  votedFor : string;
  leaderID : string;
  log : list LogEntry;
  snapshot : Snapshot;
  commitIndex : N;
  lastApplied : N;
  leaderNoopIndex : N;
  nextIndex : gmap string N;
  matchIndex : gmap string N;
  replicating : gmap string bool;
  electionDue : Z;
  rng : nat;
  waiters : gmap N (list nat);
  pendingSnapshot : option snapshotProgress;
  lastErr : option error;
  storageFatal : option error;
  stopped : bool;
  store : St;
  sm : SM;
  applyCh : bool;
  replicateCh : bool;
  now : Z;
  chans : gmap nat chan;
  nextChan : nat;
  broadcasts : nat }.

(** Assignments to one field. *)
Definition with_role (v : Role) (n : Node) : Node :=
  mkNode n.(params) v n.(currentTerm) n.(votedFor) n.(leaderID) n.(log) n.(snapshot)
    n.(commitIndex) n.(lastApplied) n.(leaderNoopIndex) n.(nextIndex) n.(matchIndex)
    n.(replicating) n.(electionDue) n.(rng) n.(waiters) n.(pendingSnapshot) n.(lastErr)
    n.(storageFatal) n.(stopped) n.(store) n.(sm) n.(applyCh) n.(replicateCh) n.(now) n.(chans)
    n.(nextChan) n.(broadcasts).
Definition with_currentTerm (v : N) (n : Node) : Node :=
  mkNode n.(params) n.(role) v n.(votedFor) n.(leaderID) n.(log) n.(snapshot) n.(commitIndex)
    n.(lastApplied) n.(leaderNoopIndex) n.(nextIndex) n.(matchIndex) n.(replicating)
    n.(electionDue) n.(rng) n.(waiters) n.(pendingSnapshot) n.(lastErr) n.(storageFatal)
    n.(stopped) n.(store) n.(sm) n.(applyCh) n.(replicateCh) n.(now) n.(chans) n.(nextChan)
    n.(broadcasts).
Definition with_votedFor (v : string) (n : Node) : Node :=
  mkNode n.(params) n.(role) n.(currentTerm) v n.(leaderID) n.(log) n.(snapshot) n.(commitIndex)
    n.(lastApplied) n.(leaderNoopIndex) n.(nextIndex) n.(matchIndex) n.(replicating)
    n.(electionDue) n.(rng) n.(waiters) n.(pendingSnapshot) n.(lastErr) n.(storageFatal)
    n.(stopped) n.(store) n.(sm) n.(applyCh) n.(replicateCh) n.(now) n.(chans) n.(nextChan)
    n.(broadcasts).
Definition with_leaderID (v : string) (n : Node) : Node :=
  mkNode n.(params) n.(role) n.(currentTerm) n.(votedFor) v n.(log) n.(snapshot) n.(commitIndex)
    n.(lastApplied) n.(leaderNoopIndex) n.(nextIndex) n.(matchIndex) n.(replicating)
    n.(electionDue) n.(rng) n.(waiters) n.(pendingSnapshot) n.(lastErr) n.(storageFatal)
    n.(stopped) n.(store) n.(sm) n.(applyCh) n.(replicateCh) n.(now) n.(chans) n.(nextChan)
    n.(broadcasts).
Definition with_log (v : list LogEntry) (n : Node) : Node :=
  mkNode n.(params) n.(role) n.(currentTerm) n.(votedFor) n.(leaderID) v n.(snapshot)
    n.(commitIndex) n.(lastApplied) n.(leaderNoopIndex) n.(nextIndex) n.(matchIndex)
    n.(replicating) n.(electionDue) n.(rng) n.(waiters) n.(pendingSnapshot) n.(lastErr)
    n.(storageFatal) n.(stopped) n.(store) n.(sm) n.(applyCh) n.(replicateCh) n.(now) n.(chans)
    n.(nextChan) n.(broadcasts).
Definition with_snapshot (v : Snapshot) (n : Node) : Node :=
  mkNode n.(params) n.(role) n.(currentTerm) n.(votedFor) n.(leaderID) n.(log) v n.(commitIndex)
    n.(lastApplied) n.(leaderNoopIndex) n.(nextIndex) n.(matchIndex) n.(replicating)
    n.(electionDue) n.(rng) n.(waiters) n.(pendingSnapshot) n.(lastErr) n.(storageFatal)
    n.(stopped) n.(store) n.(sm) n.(applyCh) n.(replicateCh) n.(now) n.(chans) n.(nextChan)
    n.(broadcasts).
Definition with_commitIndex (v : N) (n : Node) : Node :=
  mkNode n.(params) n.(role) n.(currentTerm) n.(votedFor) n.(leaderID) n.(log) n.(snapshot) v
    n.(lastApplied) n.(leaderNoopIndex) n.(nextIndex) n.(matchIndex) n.(replicating)
    n.(electionDue) n.(rng) n.(waiters) n.(pendingSnapshot) n.(lastErr) n.(storageFatal)
    n.(stopped) n.(store) n.(sm) n.(applyCh) n.(replicateCh) n.(now) n.(chans) n.(nextChan)
    n.(broadcasts).
Definition with_lastApplied (v : N) (n : Node) : Node :=
  mkNode n.(params) n.(role) n.(currentTerm) n.(votedFor) n.(leaderID) n.(log) n.(snapshot)
    n.(commitIndex) v n.(leaderNoopIndex) n.(nextIndex) n.(matchIndex) n.(replicating)
    n.(electionDue) n.(rng) n.(waiters) n.(pendingSnapshot) n.(lastErr) n.(storageFatal)
    n.(stopped) n.(store) n.(sm) n.(applyCh) n.(replicateCh) n.(now) n.(chans) n.(nextChan)
    n.(broadcasts).
Definition with_leaderNoopIndex (v : N) (n : Node) : Node :=
  mkNode n.(params) n.(role) n.(currentTerm) n.(votedFor) n.(leaderID) n.(log) n.(snapshot)
    n.(commitIndex) n.(lastApplied) v n.(nextIndex) n.(matchIndex) n.(replicating)
    n.(electionDue) n.(rng) n.(waiters) n.(pendingSnapshot) n.(lastErr) n.(storageFatal)
    n.(stopped) n.(store) n.(sm) n.(applyCh) n.(replicateCh) n.(now) n.(chans) n.(nextChan)
    n.(broadcasts).
Definition with_nextIndex (v : gmap string N) (n : Node) : Node :=
  mkNode n.(params) n.(role) n.(currentTerm) n.(votedFor) n.(leaderID) n.(log) n.(snapshot)
    n.(commitIndex) n.(lastApplied) n.(leaderNoopIndex) v n.(matchIndex) n.(replicating)
    n.(electionDue) n.(rng) n.(waiters) n.(pendingSnapshot) n.(lastErr) n.(storageFatal)
    n.(stopped) n.(store) n.(sm) n.(applyCh) n.(replicateCh) n.(now) n.(chans) n.(nextChan)
    n.(broadcasts).
Definition with_matchIndex (v : gmap string N) (n : Node) : Node :=
  mkNode n.(params) n.(role) n.(currentTerm) n.(votedFor) n.(leaderID) n.(log) n.(snapshot)
    n.(commitIndex) n.(lastApplied) n.(leaderNoopIndex) n.(nextIndex) v n.(replicating)
    n.(electionDue) n.(rng) n.(waiters) n.(pendingSnapshot) n.(lastErr) n.(storageFatal)
    n.(stopped) n.(store) n.(sm) n.(applyCh) n.(replicateCh) n.(now) n.(chans) n.(nextChan)
    n.(broadcasts).
Definition with_replicating (v : gmap string bool) (n : Node) : Node :=
  mkNode n.(params) n.(role) n.(currentTerm) n.(votedFor) n.(leaderID) n.(log) n.(snapshot)
    n.(commitIndex) n.(lastApplied) n.(leaderNoopIndex) n.(nextIndex) n.(matchIndex) v
    n.(electionDue) n.(rng) n.(waiters) n.(pendingSnapshot) n.(lastErr) n.(storageFatal)
    n.(stopped) n.(store) n.(sm) n.(applyCh) n.(replicateCh) n.(now) n.(chans) n.(nextChan)
    n.(broadcasts).
Definition with_electionDue (v : Z) (n : Node) : Node :=
  mkNode n.(params) n.(role) n.(currentTerm) n.(votedFor) n.(leaderID) n.(log) n.(snapshot)
    n.(commitIndex) n.(lastApplied) n.(leaderNoopIndex) n.(nextIndex) n.(matchIndex)
    n.(replicating) v n.(rng) n.(waiters) n.(pendingSnapshot) n.(lastErr) n.(storageFatal)
    n.(stopped) n.(store) n.(sm) n.(applyCh) n.(replicateCh) n.(now) n.(chans) n.(nextChan)
    n.(broadcasts).
Definition with_rng (v : nat) (n : Node) : Node :=
  mkNode n.(params) n.(role) n.(currentTerm) n.(votedFor) n.(leaderID) n.(log) n.(snapshot)
    n.(commitIndex) n.(lastApplied) n.(leaderNoopIndex) n.(nextIndex) n.(matchIndex)
    n.(replicating) n.(electionDue) v n.(waiters) n.(pendingSnapshot) n.(lastErr)
    n.(storageFatal) n.(stopped) n.(store) n.(sm) n.(applyCh) n.(replicateCh) n.(now) n.(chans)
    n.(nextChan) n.(broadcasts).
Definition with_waiters (v : gmap N (list nat)) (n : Node) : Node :=
  mkNode n.(params) n.(role) n.(currentTerm) n.(votedFor) n.(leaderID) n.(log) n.(snapshot)
    n.(commitIndex) n.(lastApplied) n.(leaderNoopIndex) n.(nextIndex) n.(matchIndex)
    n.(replicating) n.(electionDue) n.(rng) v n.(pendingSnapshot) n.(lastErr) n.(storageFatal)
    n.(stopped) n.(store) n.(sm) n.(applyCh) n.(replicateCh) n.(now) n.(chans) n.(nextChan)
    n.(broadcasts).
Definition with_pendingSnapshot (v : option snapshotProgress) (n : Node) : Node :=
  mkNode n.(params) n.(role) n.(currentTerm) n.(votedFor) n.(leaderID) n.(log) n.(snapshot)
    n.(commitIndex) n.(lastApplied) n.(leaderNoopIndex) n.(nextIndex) n.(matchIndex)
    n.(replicating) n.(electionDue) n.(rng) n.(waiters) v n.(lastErr) n.(storageFatal)
    n.(stopped) n.(store) n.(sm) n.(applyCh) n.(replicateCh) n.(now) n.(chans) n.(nextChan)
    n.(broadcasts).
Definition with_lastErr (v : option error) (n : Node) : Node :=
  mkNode n.(params) n.(role) n.(currentTerm) n.(votedFor) n.(leaderID) n.(log) n.(snapshot)
    n.(commitIndex) n.(lastApplied) n.(leaderNoopIndex) n.(nextIndex) n.(matchIndex)
    n.(replicating) n.(electionDue) n.(rng) n.(waiters) n.(pendingSnapshot) v n.(storageFatal)
    n.(stopped) n.(store) n.(sm) n.(applyCh) n.(replicateCh) n.(now) n.(chans) n.(nextChan)
    n.(broadcasts).
Definition with_storageFatal (v : option error) (n : Node) : Node :=
  mkNode n.(params) n.(role) n.(currentTerm) n.(votedFor) n.(leaderID) n.(log) n.(snapshot)
    n.(commitIndex) n.(lastApplied) n.(leaderNoopIndex) n.(nextIndex) n.(matchIndex)
    n.(replicating) n.(electionDue) n.(rng) n.(waiters) n.(pendingSnapshot) n.(lastErr) v
    n.(stopped) n.(store) n.(sm) n.(applyCh) n.(replicateCh) n.(now) n.(chans) n.(nextChan)
    n.(broadcasts).
Definition with_stopped (v : bool) (n : Node) : Node :=
  mkNode n.(params) n.(role) n.(currentTerm) n.(votedFor) n.(leaderID) n.(log) n.(snapshot)
    n.(commitIndex) n.(lastApplied) n.(leaderNoopIndex) n.(nextIndex) n.(matchIndex)
    n.(replicating) n.(electionDue) n.(rng) n.(waiters) n.(pendingSnapshot) n.(lastErr)
    n.(storageFatal) v n.(store) n.(sm) n.(applyCh) n.(replicateCh) n.(now) n.(chans)
    n.(nextChan) n.(broadcasts).
Definition with_store (v : St) (n : Node) : Node :=
  mkNode n.(params) n.(role) n.(currentTerm) n.(votedFor) n.(leaderID) n.(log) n.(snapshot)
    n.(commitIndex) n.(lastApplied) n.(leaderNoopIndex) n.(nextIndex) n.(matchIndex)
    n.(replicating) n.(electionDue) n.(rng) n.(waiters) n.(pendingSnapshot) n.(lastErr)
    n.(storageFatal) n.(stopped) v n.(sm) n.(applyCh) n.(replicateCh) n.(now) n.(chans)
    n.(nextChan) n.(broadcasts).
Definition with_sm (v : SM) (n : Node) : Node :=
  mkNode n.(params) n.(role) n.(currentTerm) n.(votedFor) n.(leaderID) n.(log) n.(snapshot)
    n.(commitIndex) n.(lastApplied) n.(leaderNoopIndex) n.(nextIndex) n.(matchIndex)
    n.(replicating) n.(electionDue) n.(rng) n.(waiters) n.(pendingSnapshot) n.(lastErr)
    n.(storageFatal) n.(stopped) n.(store) v n.(applyCh) n.(replicateCh) n.(now) n.(chans)
    n.(nextChan) n.(broadcasts).
Definition with_applyCh (v : bool) (n : Node) : Node :=
  mkNode n.(params) n.(role) n.(currentTerm) n.(votedFor) n.(leaderID) n.(log) n.(snapshot)
    n.(commitIndex) n.(lastApplied) n.(leaderNoopIndex) n.(nextIndex) n.(matchIndex)
    n.(replicating) n.(electionDue) n.(rng) n.(waiters) n.(pendingSnapshot) n.(lastErr)
    n.(storageFatal) n.(stopped) n.(store) n.(sm) v n.(replicateCh) n.(now) n.(chans)
    n.(nextChan) n.(broadcasts).
Definition with_replicateCh (v : bool) (n : Node) : Node :=
  mkNode n.(params) n.(role) n.(currentTerm) n.(votedFor) n.(leaderID) n.(log) n.(snapshot)
    n.(commitIndex) n.(lastApplied) n.(leaderNoopIndex) n.(nextIndex) n.(matchIndex)
    n.(replicating) n.(electionDue) n.(rng) n.(waiters) n.(pendingSnapshot) n.(lastErr)
    n.(storageFatal) n.(stopped) n.(store) n.(sm) n.(applyCh) v n.(now) n.(chans) n.(nextChan)
    n.(broadcasts).
Definition with_now (v : Z) (n : Node) : Node :=
  mkNode n.(params) n.(role) n.(currentTerm) n.(votedFor) n.(leaderID) n.(log) n.(snapshot)
    n.(commitIndex) n.(lastApplied) n.(leaderNoopIndex) n.(nextIndex) n.(matchIndex)
    n.(replicating) n.(electionDue) n.(rng) n.(waiters) n.(pendingSnapshot) n.(lastErr)
    n.(storageFatal) n.(stopped) n.(store) n.(sm) n.(applyCh) n.(replicateCh) v n.(chans)
    n.(nextChan) n.(broadcasts).
Definition with_chans (v : gmap nat chan) (n : Node) : Node :=
  mkNode n.(params) n.(role) n.(currentTerm) n.(votedFor) n.(leaderID) n.(log) n.(snapshot)
    n.(commitIndex) n.(lastApplied) n.(leaderNoopIndex) n.(nextIndex) n.(matchIndex)
    n.(replicating) n.(electionDue) n.(rng) n.(waiters) n.(pendingSnapshot) n.(lastErr)
    n.(storageFatal) n.(stopped) n.(store) n.(sm) n.(applyCh) n.(replicateCh) n.(now) v
    n.(nextChan) n.(broadcasts).
Definition with_nextChan (v : nat) (n : Node) : Node :=
  mkNode n.(params) n.(role) n.(currentTerm) n.(votedFor) n.(leaderID) n.(log) n.(snapshot)
    n.(commitIndex) n.(lastApplied) n.(leaderNoopIndex) n.(nextIndex) n.(matchIndex)
    n.(replicating) n.(electionDue) n.(rng) n.(waiters) n.(pendingSnapshot) n.(lastErr)
    n.(storageFatal) n.(stopped) n.(store) n.(sm) n.(applyCh) n.(replicateCh) n.(now) n.(chans)
    v n.(broadcasts).
Definition with_broadcasts (v : nat) (n : Node) : Node :=
  mkNode n.(params) n.(role) n.(currentTerm) n.(votedFor) n.(leaderID) n.(log) n.(snapshot)
    n.(commitIndex) n.(lastApplied) n.(leaderNoopIndex) n.(nextIndex) n.(matchIndex)
    n.(replicating) n.(electionDue) n.(rng) n.(waiters) n.(pendingSnapshot) n.(lastErr)
    n.(storageFatal) n.(stopped) n.(store) n.(sm) n.(applyCh) n.(replicateCh) n.(now) n.(chans)
    n.(nextChan) v.

(** ** Reading the state *)

Definition lastIndexLocked (n : Node) : N := lastIndex n.(snapshot) n.(log).
Definition lastTermLocked (n : Node) : N := lastTerm n.(snapshot) n.(log).
Definition termAtLocked (n : Node) (index : N) : option N := termAt n.(snapshot) n.(log) index.
Definition entryAtLocked (n : Node) (index : N) : option LogEntry :=
  entryAt n.(snapshot) n.(log) index.
Definition entriesFromLocked (n : Node) (index : N) : list LogEntry := entriesFrom n.(log) index.
Definition conflictIndexLocked (n : Node) (index : N) : N :=
  conflictIndexOf n.(snapshot) n.(log) index.

Definition quorum (n : Node) : nat := (size n.(params).(peerAddrs) + 1) / 2 + 1.

Definition isLeader (n : Node) : bool := bool_decide (n.(role) = Leader).

Definition isKnownRemotePeerLocked (n : Node) (pid : string) : bool :=
  if decide (pid = "" ∨ pid = n.(params).(id)) then false
  else bool_decide (is_Some (n.(params).(peerAddrs) !! pid)).

Definition leaderAddressLocked (n : Node) : string :=
  if decide (n.(leaderID) = "") then ""
  else
    let addr := map_str n.(params).(clientAddrs) n.(leaderID) in
    if decide (addr ≠ "") then addr
    else if decide (n.(leaderID) = n.(params).(id)) then n.(params).(address)
    else map_str n.(params).(peerAddrs) n.(leaderID).

Definition notLeaderLocked (n : Node) : error :=
  NotLeaderError n.(leaderID) (leaderAddressLocked n).

Definition LastError (n : Node) : option error := n.(lastErr).

(** [n.storageFatal != nil || n.stopped], the guard of every handler. *)
Definition disabled (n : Node) : Prop := n.(stopped) = true ∨ n.(storageFatal) ≠ None.
#[global] Instance disabled_dec (n : Node) : Decision (disabled n).
Proof. unfold disabled. apply _. Defined.

(** ** Small updates *)

(** [applyCond.Broadcast()] *)
Definition broadcast (n : Node) : Node := with_broadcasts (S n.(broadcasts)) n.

Definition notifyApplyLocked (n : Node) : Node := broadcast (with_applyCh true n).

Definition kickReplication (n : Node) : Node := with_replicateCh true n.

Definition finishWaitersLocked (index : N) (result : ApplyResult) (n : Node) : Node :=
  let ws := default [] (n.(waiters) !! index) in
  with_chans (deliver_all (mkOutcome result None) ws n.(chans))
    (with_waiters (delete index n.(waiters)) n).

(** The loop over [n.waiters] that fails the entries above the commit index:
    the remaining waiters and the channels. *)
Definition failLoop (n : Node) : gmap N (list nat) * gmap nat chan :=
  map_fold (λ index waiting acc,
      if decide (index ≤ n.(commitIndex))%N then acc
      else (delete index acc.1,
            deliver_all (mkOutcome zeroApplyResult (Some (notLeaderLocked n))) waiting acc.2))
    (n.(waiters), n.(chans)) n.(waiters).

Definition failUncommittedWaitersLocked (n : Node) : Node :=
  with_chans (failLoop n).2 (with_waiters (failLoop n).1 n).

(** [removeWaiter]: drop the first occurrence of [target] under [index]. *)
Fixpoint remove_first (target : nat) (ws : list nat) : list nat :=
  match ws with
  | [] => []
  | w :: ws => if decide (w = target) then ws else w :: remove_first target ws
  end.

Definition removeWaiter (index : N) (target : nat) (n : Node) : Node :=
  let ws := remove_first target (default [] (n.(waiters) !! index)) in
  if decide (ws = []) then with_waiters (delete index n.(waiters)) n
  else with_waiters (<[index := ws]> n.(waiters)) n.

Context `{RandSource}.

(** The random part of the election timeout, and the generator after it. *)
Definition electionDelay (n : Node) : Z * nat :=
  let span := (n.(params).(timeoutMax) - n.(params).(timeoutMin))%Z in
  let delay := n.(params).(timeoutMin) in
  if decide (0 < span)%Z then ((delay + Int63n n.(rng) span)%Z, S n.(rng))
  else (delay, n.(rng)).

Definition resetElectionLocked (n : Node) : Node :=
  with_electionDue (n.(now) + (electionDelay n).1)%Z (with_rng (electionDelay n).2 n).

Definition failStorageLocked (err : error) (n : Node) : Node :=
  let n := with_lastErr (Some err) n in
  let n := with_storageFatal (Some err) n in
  let n := with_role Follower n in
  let n := with_leaderID "" n in
  let n := with_leaderNoopIndex 0 n in
  let n := resetElectionLocked n in
  let n := failUncommittedWaitersLocked n in
  broadcast n.

Context `{Store St}.

Definition saveHardStateLocked (commit : N) (n : Node) : option error * Node :=
  let '(err, st) := SaveHardState (mkHardState n.(currentTerm) n.(votedFor) commit) n.(store) in
  let n := with_store st n in
  match err with
  | Some _ => (err, with_lastErr err n)
  | None => (None, n)
  end.

Definition persistHardStateLocked (n : Node) : option error * Node :=
  saveHardStateLocked n.(commitIndex) n.

Definition becomeFollowerWithTimerLocked (term : N) (leader : string) (resetElection : bool)
    (n : Node) : option error * Node :=
  let prevRole := n.(role) in
  let n := if decide (n.(currentTerm) < term)%N
           then with_votedFor "" (with_currentTerm term n) else n in
  let n := with_role Follower n in
  let n := with_leaderID leader n in
  let n := with_leaderNoopIndex 0 n in
  let n := if resetElection then resetElectionLocked n else n in
  match persistHardStateLocked n with
  | (Some err, n) => (Some err, failStorageLocked err n)
  | (None, n) =>
      (None, if decide (prevRole = Leader) then broadcast (failUncommittedWaitersLocked n) else n)
  end.

Definition becomeFollowerLocked (term : N) (leader : string) (n : Node) : option error * Node :=
  becomeFollowerWithTimerLocked term leader true n.

Definition becomeFollowerForVoteLocked (term : N) (n : Node) : option error * Node :=
  becomeFollowerWithTimerLocked term "" false n.

Definition stepDown (term : N) (leader : string) (n : Node) : Node :=
  (becomeFollowerLocked term leader n).2.

(** [for index := last; index > n.commitIndex; index--]: the greatest index
    of the current term that a majority stores, if any. *)
Fixpoint advanceLoop (fuel : nat) (index : N) (n : Node) : option N :=
  match fuel with
  | O => None
  | S fuel =>
      if decide (n.(commitIndex) < index)%N then
        if decide (termAtLocked n index ≠ Some n.(currentTerm)) then
          advanceLoop fuel (index -u 1) n
        else
          let count := 1 + length (filter (λ p, index ≤ map_N n.(matchIndex) p)%N
                                          (map_to_list n.(params).(peerAddrs)).*1) in
          if decide (quorum n ≤ count) then Some index
          else advanceLoop fuel (index -u 1) n
      else None
  end.

Definition advanceCommitLocked (n : Node) : Node :=
  match advanceLoop (N.to_nat (lastIndexLocked n)) (lastIndexLocked n) n with
  | None => n
  | Some index =>
      let prev := n.(commitIndex) in
      let n := with_commitIndex index n in
      match persistHardStateLocked n with
      | (Some err, n) => failStorageLocked err (with_commitIndex prev n)
      | (None, n) => notifyApplyLocked n
      end
  end.

Context `{StateMachine SM}.

(** [snapshotAtLocked]; [cloneMap] of the fresh map [Snapshot()] returns is
    that map. *)
Definition snapshotAtLocked (n : Node) (index : N) : option Snapshot :=
  match termAtLocked n index with
  | None => None
  | Some term => Some (mkSnapshot index term (Some (Snapshot_ n.(sm))))
  end.

Definition logAfterSnapshotLocked (n : Node) (snap : Snapshot) : list LogEntry :=
  logAfterSnapshot n.(snapshot) n.(log) snap.

(** [Status]: [sort.Slice] by id; ids are distinct map keys. *)
Fixpoint insert_peer (p : PeerStatus) (l : list PeerStatus) : list PeerStatus :=
  match l with
  | [] => [p]
  | q :: l' => if String.leb p.(ps_ID) q.(ps_ID) then p :: l else q :: insert_peer p l'
  end.

Definition sort_peers (l : list PeerStatus) : list PeerStatus := foldr insert_peer [] l.

Definition NodeStatus (n : Node) : Status :=
  if n.(stopped) then
    mkStatus n.(params).(id) n.(params).(address) None n.(currentTerm) "" ""
      n.(commitIndex) n.(lastApplied) (lastIndexLocked n) n.(snapshot).(LastIncludedIndex) []
  else
    let peers := (λ '(pid, addr),
        mkPeerStatus pid addr (map_N n.(nextIndex) pid) (map_N n.(matchIndex) pid))
      <$> map_to_list n.(params).(peerAddrs) in
    mkStatus n.(params).(id) n.(params).(address) (Some n.(role)) n.(currentTerm) n.(leaderID)
      (leaderAddressLocked n) n.(commitIndex) n.(lastApplied) (lastIndexLocked n)
      n.(snapshot).(LastIncludedIndex) (sort_peers peers).

(** [Stop]: fails every waiter, wakes the waiting readers.  [stopOnce]
    makes a second call do nothing. *)
Definition stopLoop (n : Node) : gmap N (list nat) * gmap nat chan :=
  map_fold (λ index waiting acc,
      (delete index acc.1,
       deliver_all (mkOutcome zeroApplyResult (Some ErrNodeStopped)) waiting acc.2))
    (n.(waiters), n.(chans)) n.(waiters).

Definition Stop (n : Node) : Node :=
  if n.(stopped) then n
  else
    let n := with_stopped true n in
    broadcast (with_chans (stopLoop n).2 (with_waiters (stopLoop n).1 n)).

End node.
Arguments Node : clear implicits.
