(* ===== verification/Node.v ===== *)
(** * The node: construction, elections, RPC handlers, proposals and apply

    The operations of [internal/raft/node.go] on the state of [NodeState].
    Each definition is one critical section of [n.mu] (or a whole method
    when the method is one critical section): between two sections of one
    method other goroutines may run, and the theorems about interleavings
    take the sections as steps. *)

From S2P Require Import Prelude Types GoStrings StateMachine StoreIntf RaftLog NodeState.

(** [json.Marshal] and [json.Unmarshal] of [map[string]string] (a snapshot
    body); [None] is the nil map, which marshals to [null]. *)
Class MapCodec := {
  marshalMap : option (gmap string string) → list Byte.byte;
  unmarshalMap : list Byte.byte → option (option (gmap string string))
}.

(** A snapshot body can be read back and is not empty. *)
Class MapCodecLaws `{MapCodec} := {
  unmarshal_marshal : ∀ d, unmarshalMap (marshalMap d) = Some d;
  marshal_nonempty : ∀ d, marshalMap d ≠ [] }.

Section ops.
Context {SM St : Type} `{StateMachine SM} `{Store St} `{RandSource} `{MapCodec}.
#[local] Abbreviation Node := (Node SM St).
Implicit Types n : Node.

(** ** Configuration *)

Definition normalizeConfig (cfg : Config) : Config :=
  let peers := match cfg.(cfg_Peers) with
               | None => {[ cfg.(cfg_ID) := cfg.(cfg_Address) ]}
               | Some m => m
               end in
  let addr := if decide (cfg.(cfg_Address) = "") then map_str peers cfg.(cfg_ID)
              else cfg.(cfg_Address) in
  let tmin := if decide (cfg.(cfg_ElectionTimeoutMin) ≤ 0)%Z then 300000000%Z
              else cfg.(cfg_ElectionTimeoutMin) in
  let tmax := if decide (cfg.(cfg_ElectionTimeoutMax) ≤ tmin)%Z then 600000000%Z
              else cfg.(cfg_ElectionTimeoutMax) in
  let hb := if decide (cfg.(cfg_HeartbeatInterval) ≤ 0)%Z then 75000000%Z
            else cfg.(cfg_HeartbeatInterval) in
  let rt := if decide (cfg.(cfg_ReadTimeout) ≤ 0)%Z then 5000000000%Z
            else cfg.(cfg_ReadTimeout) in
  let thr := if decide (cfg.(cfg_SnapshotThreshold) ≤ 0)%Z then 64%Z
             else cfg.(cfg_SnapshotThreshold) in
  let chunk := if decide (cfg.(cfg_SnapshotChunkBytes) ≤ 0)%Z then defaultSnapshotChunkBytes
               else cfg.(cfg_SnapshotChunkBytes) in
  mkConfig cfg.(cfg_ID) addr (Some peers) cfg.(cfg_ClientAddresses) tmin tmax hb rt thr chunk.

Definition validateConfig (cfg : Config) : option error :=
  let peers := default ∅ cfg.(cfg_Peers) in
  if decide (size peers = 0) then Some (ErrText "raft peers must not be empty")
  else if decide (peers !! cfg.(cfg_ID) = None) then
    Some (ErrText ("raft peers must include local node " +:+ quoted cfg.(cfg_ID)))
  else if decide (map_str peers cfg.(cfg_ID) = "") then
    Some (ErrText ("raft peers must include a non-empty address for local node " +:+ quoted cfg.(cfg_ID)))
  else None.

(** ** NewNode *)

(** [for _, entry := range entries { if entry.Index > commitIndex { break } ... }] *)
Fixpoint replayLoop (commit applied : N) (s : SM) (entries : list LogEntry) : N * SM :=
  match entries with
  | [] => (applied, s)
  | entry :: rest =>
      if decide (commit < entry.(Index))%N then (applied, s)
      else replayLoop commit entry.(Index) (Apply entry.(EntryCommand) s).2 rest
  end.

(** [cfg] is passed by value; the nil checks of [store], [sm] and
    [transport] have no counterpart here.  [rng0] and [now0] are the
    environment's random seed and clock. *)
Definition NewNode (cfg : Config) (st : St) (s : SM) (rng0 : nat) (now0 : Z)
    : Node + error * St :=
  if decide (cfg.(cfg_ID) = "") then inr (ErrText "raft node id is required", st)
  else
  let cfg := normalizeConfig cfg in
  match validateConfig cfg with
  | Some err => inr (err, st)
  | None =>
  match Load st with
  | (inr err, st) => inr (err, st)
  | (inl (hs, entries, snap), st) =>
      let s := match snap.(Data) with Some _ => Restore snap.(Data) s | None => s end in
      let commit := hs.(CommitIndex) in
      let commit := if decide (commit < snap.(LastIncludedIndex))%N
                    then snap.(LastIncludedIndex) else commit in
      let commit := if decide (lastIndex snap entries < commit)%N
                    then lastIndex snap entries else commit in
      let '(applied, s) := replayLoop commit snap.(LastIncludedIndex) s entries in
      let peers := filter (λ kv, kv.1 ≠ cfg.(cfg_ID)) (default ∅ cfg.(cfg_Peers)) in
      let clients := default ∅ cfg.(cfg_ClientAddresses) in
      let clients := if decide (map_str clients cfg.(cfg_ID) = "")
                     then <[cfg.(cfg_ID) := cfg.(cfg_Address)]> clients else clients in
      let p := mkParams cfg.(cfg_ID) cfg.(cfg_Address) peers clients
                 cfg.(cfg_HeartbeatInterval) cfg.(cfg_ReadTimeout)
                 cfg.(cfg_ElectionTimeoutMin) cfg.(cfg_ElectionTimeoutMax)
                 cfg.(cfg_SnapshotThreshold) cfg.(cfg_SnapshotChunkBytes) in
      let n : Node :=
        mkNode p Follower hs.(CurrentTerm) hs.(VotedFor) "" entries snap commit applied 0
          ∅ ∅ ∅ 0 rng0 ∅ None None None false st s false false now0 ∅ 0 0 in
      let n := resetElectionLocked n in
      if decide (hs.(CommitIndex) ≠ commit) then
        match persistHardStateLocked n with
        | (Some err, n) => inr (err, n.(store))
        | (None, n) => inl n
        end
      else inl n
  end end.

(** ** Elections *)

(** [electionLoop]: whether a tick starts an election. *)
Definition electionTick n : bool :=
  bool_decide (n.(role) ≠ Leader ∧ n.(electionDue) < n.(now))%Z.

(** The first critical section of [startElection]: [Some (term, req)] when
    the candidacy is durable. *)
Definition startElection n : option (N * RequestVoteRequest) * Node :=
  if decide (n.(stopped) = true ∨ n.(role) = Leader ∨ n.(storageFatal) ≠ None) then (None, n)
  else
    let prevRole := n.(role) in
    let prevTerm := n.(currentTerm) in
    let prevVotedFor := n.(votedFor) in
    let prevLeader := n.(leaderID) in
    let prevElectionDue := n.(electionDue) in
    let n := with_role Candidate n in
    let n := with_currentTerm (n.(currentTerm) +u 1) n in
    let term := n.(currentTerm) in
    let n := with_votedFor n.(params).(id) n in
    let n := with_leaderID "" n in
    let n := with_leaderNoopIndex 0 n in
    let n := resetElectionLocked n in
    let last := lastIndexLocked n in
    let lastT := lastTermLocked n in
    match persistHardStateLocked n with
    | (Some _, n) =>
        let n := with_role prevRole n in
        let n := with_currentTerm prevTerm n in
        let n := with_votedFor prevVotedFor n in
        let n := with_leaderID prevLeader n in
        let n := with_electionDue prevElectionDue n in
        (None, n)
    | (None, n) =>
        (Some (term, mkRequestVoteRequest term n.(params).(id) last lastT), n)
    end.

(** One turn of the loop that collects the votes, after a result arrived
    ([None]: the RPC failed): what the candidate does next. *)
Inductive voteAction :=
  | VoteContinue (votes : nat)
  | VoteStepDown (term : N)
  | VoteBecomeLeader.

Definition collectVote n (term : N) (votes : nat) (result : option RequestVoteResponse) : voteAction :=
  match result with
  | None => VoteContinue votes
  | Some resp =>
      if decide (term < resp.(rvr_Term))%N then VoteStepDown resp.(rvr_Term)
      else if resp.(rvr_VoteGranted) then
        if decide (quorum n ≤ S votes) then VoteBecomeLeader else VoteContinue (S votes)
      else VoteContinue votes
  end.

(** The critical section of [becomeLeader]; the flag says whether the first
    replication round follows. *)
Definition becomeLeader (term : N) n : bool * Node :=
  if decide (n.(stopped) = true ∨ n.(role) ≠ Candidate ∨ n.(currentTerm) ≠ term) then (false, n)
  else
    let n := with_role Leader n in
    let n := with_leaderID n.(params).(id) n in
    let last := lastIndexLocked n in
    let n := with_replicating ∅ n in
    let n := with_nextIndex
      (<[n.(params).(id) := last +u 1]> ((λ _, last +u 1) <$> n.(params).(peerAddrs))) n in
    let n := with_matchIndex
      (<[n.(params).(id) := last]> ((λ _, 0%N) <$> n.(params).(peerAddrs))) n in
    let noop := mkLogEntry (lastIndexLocked n +u 1) term (mkCommand OpNoop "" "" "") in
    let '(err, st) := AppendEntries [noop] n.(store) in
    let n := with_store st n in
    match err with
    | Some err => (false, failStorageLocked err n)
    | None =>
        let n := with_log (n.(log) ++ [noop]) n in
        let n := with_leaderNoopIndex noop.(Index) n in
        let n := with_matchIndex (<[n.(params).(id) := noop.(Index)]> n.(matchIndex)) n in
        let n := with_nextIndex (<[n.(params).(id) := noop.(Index) +u 1]> n.(nextIndex)) n in
        (true, advanceCommitLocked n)
    end.

(** ** HandleRequestVote *)

Definition HandleRequestVote (req : RequestVoteRequest) n : RequestVoteResponse * Node :=
  if decide (disabled n) then (mkRequestVoteResponse n.(currentTerm) false, n)
  else if decide (isKnownRemotePeerLocked n req.(rv_CandidateID) = false) then
    (mkRequestVoteResponse n.(currentTerm) false, n)
  else if decide (req.(rv_Term) < n.(currentTerm))%N then
    (mkRequestVoteResponse n.(currentTerm) false, n)
  else
    match (if decide (n.(currentTerm) < req.(rv_Term))%N
           then becomeFollowerForVoteLocked req.(rv_Term) n else (None, n)) with
    | (Some _, n) => (mkRequestVoteResponse n.(currentTerm) false, n)
    | (None, n) =>
        let canVote := n.(votedFor) = "" ∨ n.(votedFor) = req.(rv_CandidateID) in
        let upToDate := (lastTermLocked n < req.(rv_LastLogTerm))%N ∨
          (req.(rv_LastLogTerm) = lastTermLocked n ∧ lastIndexLocked n ≤ req.(rv_LastLogIndex))%N in
        if decide (canVote ∧ upToDate) then
          let prevVotedFor := n.(votedFor) in
          let n := with_votedFor req.(rv_CandidateID) n in
          match persistHardStateLocked n with
          | (Some _, n) =>
              let n := with_votedFor prevVotedFor n in
              (mkRequestVoteResponse n.(currentTerm) false, n)
          | (None, n) =>
              let n := resetElectionLocked n in
              (mkRequestVoteResponse n.(currentTerm) true, n)
          end
        else (mkRequestVoteResponse n.(currentTerm) false, n)
    end.

(** ** HandleAppendEntries *)

(** The answer that reports no conflict index. *)
Definition aeReject n : AppendEntriesResponse * Node :=
  (mkAppendEntriesResponse n.(currentTerm) false (lastIndexLocked n) 0, n).

Definition aeConflict (c : N) n : AppendEntriesResponse * Node :=
  (mkAppendEntriesResponse n.(currentTerm) false (lastIndexLocked n) c, n).

(** From [newCommit := min(...)] to the end. *)
Definition aeCommit (req : AppendEntriesRequest) (lastNew : N) n : AppendEntriesResponse * Node :=
  let newCommit := N.min req.(ae_LeaderCommit) lastNew in
  if decide (n.(commitIndex) < newCommit)%N then
    let prevCommit := n.(commitIndex) in
    let n := with_commitIndex newCommit n in
    match persistHardStateLocked n with
    | (Some _, n) => aeReject (with_commitIndex prevCommit n)
    | (None, n) =>
        let n := notifyApplyLocked n in
        (mkAppendEntriesResponse n.(currentTerm) true (lastIndexLocked n) 0, n)
    end
  else (mkAppendEntriesResponse n.(currentTerm) true (lastIndexLocked n) 0, n).

(** From [prevLog := n.log] on: merge, persist, commit. *)
Definition aeMerge (req : AppendEntriesRequest) n : AppendEntriesResponse * Node :=
  let prevLog := n.(log) in
  let '(merge, log') :=
    mergeEntries n.(snapshot) n.(commitIndex) n.(log) req.(ae_PrevLogIndex) req.(ae_Entries) in
  let n := with_log log' n in
  if decide (0 < merge.(conflictIndex))%N then aeConflict merge.(conflictIndex) n
  else if merge.(changed) then
    let '(err, st) := if merge.(replaced) then ReplaceEntries n.(log) n.(store)
                      else AppendEntries merge.(appended) n.(store) in
    let n := with_store st n in
    match err with
    | Some err => aeReject (failStorageLocked err (with_log prevLog n))
    | None => aeCommit req merge.(lastNewIndex) n
    end
  else aeCommit req merge.(lastNewIndex) n.

Definition HandleAppendEntries (req : AppendEntriesRequest) n : AppendEntriesResponse * Node :=
  if decide (disabled n) then aeReject n
  else if decide (isKnownRemotePeerLocked n req.(ae_LeaderID) = false) then aeReject n
  else if decide (req.(ae_Term) < n.(currentTerm))%N then aeReject n
  else
    match (if decide ((n.(currentTerm) < req.(ae_Term))%N ∨ n.(role) ≠ Follower)
           then becomeFollowerLocked req.(ae_Term) req.(ae_LeaderID) n else (None, n)) with
    | (Some _, n) => aeReject n
    | (None, n) =>
        let n := with_leaderID req.(ae_LeaderID) n in
        let n := resetElectionLocked n in
        if decide (req.(ae_PrevLogIndex) < n.(snapshot).(LastIncludedIndex))%N then
          aeConflict (n.(snapshot).(LastIncludedIndex) +u 1) n
        else if decide (termAtLocked n req.(ae_PrevLogIndex) ≠ Some req.(ae_PrevLogTerm)) then
          aeConflict (conflictIndexLocked n req.(ae_PrevLogIndex)) n
        else aeMerge req n
    end.

(** ** HandleInstallSnapshot *)

(** The guards that both critical sections of the method start with, up to
    the commit-index test: [inl] is an early return. *)
Definition isGuards (req : InstallSnapshotRequest) n : (InstallSnapshotResponse + unit) * Node :=
  if decide (disabled n) then (inl (mkInstallSnapshotResponse n.(currentTerm) false 0), n)
  else if decide (isKnownRemotePeerLocked n req.(is_LeaderID) = false) then
    (inl (mkInstallSnapshotResponse n.(currentTerm) false 0), n)
  else if decide (req.(is_Term) < n.(currentTerm))%N then
    (inl (mkInstallSnapshotResponse n.(currentTerm) false 0), n)
  else
    match (if decide ((n.(currentTerm) < req.(is_Term))%N ∨ n.(role) ≠ Follower)
           then becomeFollowerLocked req.(is_Term) req.(is_LeaderID) n else (None, n)) with
    | (Some _, n) =>
        let n := with_pendingSnapshot None n in
        (inl (mkInstallSnapshotResponse n.(currentTerm) false 0), n)
    | (None, n) =>
        let n := with_leaderID req.(is_LeaderID) n in
        let n := resetElectionLocked n in
        if decide (req.(is_LastIncludedIndex) ≤ n.(commitIndex))%N then
          let n := with_pendingSnapshot None n in
          (inl (mkInstallSnapshotResponse n.(currentTerm) true 0), n)
        else (inr tt, n)
    end.

(** [progress] belongs to the stream of [req]. *)
Definition sameStream (p : snapshotProgress) (req : InstallSnapshotRequest) : Prop :=
  p.(sp_leaderID) = req.(is_LeaderID) ∧
  p.(sp_lastIncludedIndex) = req.(is_LastIncludedIndex) ∧
  p.(sp_lastIncludedTerm) = req.(is_LastIncludedTerm).
#[global] Instance sameStream_dec p req : Decision (sameStream p req).
Proof. unfold sameStream. apply _. Defined.

(** The chunk joins the buffer of [progress]; [inr body] hands the whole
    body of a finished transfer to the second part. *)
Definition isChunk (req : InstallSnapshotRequest) (progress : snapshotProgress) n
    : (InstallSnapshotResponse + list Byte.byte) * Node :=
  if decide (req.(is_Offset) ≠ len progress.(sp_buffer)) then
    (inl (mkInstallSnapshotResponse n.(currentTerm) false (len progress.(sp_buffer))), n)
  else
    let progress := mkProgress progress.(sp_leaderID) progress.(sp_lastIncludedIndex)
      progress.(sp_lastIncludedTerm) (progress.(sp_buffer) ++ req.(is_Data)) in
    let n := with_pendingSnapshot (Some progress) n in
    if req.(is_Done) then (inr progress.(sp_buffer), n)
    else (inl (mkInstallSnapshotResponse n.(currentTerm) true (len progress.(sp_buffer))), n).

(** The first critical section. *)
Definition HandleInstallSnapshot_recv (req : InstallSnapshotRequest) n
    : (InstallSnapshotResponse + list Byte.byte) * Node :=
  match isGuards req n with
  | (inl resp, n) => (inl resp, n)
  | (inr _, n) =>
      let fresh := mkProgress req.(is_LeaderID) req.(is_LastIncludedIndex)
                     req.(is_LastIncludedTerm) [] in
      match n.(pendingSnapshot) with
      | Some progress =>
          if decide (sameStream progress req) then isChunk req progress n
          else if decide (req.(is_Offset) ≠ 0%N) then
            (inl (mkInstallSnapshotResponse n.(currentTerm) false 0), n)
          else isChunk req fresh (with_pendingSnapshot (Some fresh) n)
      | None =>
          if decide (req.(is_Offset) ≠ 0%N) then
            (inl (mkInstallSnapshotResponse n.(currentTerm) false 0), n)
          else isChunk req fresh (with_pendingSnapshot (Some fresh) n)
      end
  end.

(** A storage failure while the snapshot is installed. *)
Definition isStorageFail (err : error) n : InstallSnapshotResponse * Node :=
  let n := failStorageLocked err (with_pendingSnapshot None n) in
  (mkInstallSnapshotResponse n.(currentTerm) false 0, n).

(** From [newSnap := ...] on: disk first, then memory, then the machine. *)
Definition isInstall (req : InstallSnapshotRequest) (data : option (gmap string string)) (size : N) n
    : InstallSnapshotResponse * Node :=
  let newSnap := mkSnapshot req.(is_LastIncludedIndex) req.(is_LastIncludedTerm) data in
  let newLog := logAfterSnapshotLocked n newSnap in
  let newCommit := if decide (n.(commitIndex) < newSnap.(LastIncludedIndex))%N
                   then newSnap.(LastIncludedIndex) else n.(commitIndex) in
  let '(err, st) := SaveSnapshot newSnap n.(store) in
  let n := with_store st n in
  match err with
  | Some err => isStorageFail err n
  | None =>
  let '(err, st) := ReplaceEntries newLog n.(store) in
  let n := with_store st n in
  match err with
  | Some err => isStorageFail err n
  | None =>
  match saveHardStateLocked newCommit n with
  | (Some err, n) => isStorageFail err n
  | (None, n) =>
      let n := with_snapshot newSnap n in
      let n := with_log newLog n in
      let n := with_commitIndex newCommit n in
      let n := if decide (n.(lastApplied) < newSnap.(LastIncludedIndex))%N
               then with_lastApplied newSnap.(LastIncludedIndex) n else n in
      let n := with_sm (Restore newSnap.(Data) n.(sm)) n in
      let n := with_pendingSnapshot None n in
      let n := notifyApplyLocked (broadcast n) in
      (mkInstallSnapshotResponse n.(currentTerm) true size, n)
  end end end.

(** The second part: decode the body outside the lock, then the critical
    section under [applyMu] and [mu].  An early return of the guards also
    drops the pending transfer. *)
Definition HandleInstallSnapshot_final (req : InstallSnapshotRequest) (body : list Byte.byte) n
    : InstallSnapshotResponse * Node :=
  match (match body with [] => Some None | _ => unmarshalMap body end) with
  | None =>
      let n := with_pendingSnapshot None n in
      (mkInstallSnapshotResponse n.(currentTerm) false 0, n)
  | Some data =>
      match isGuards req n with
      | (inl resp, n) => (resp, with_pendingSnapshot None n)
      | (inr _, n) =>
          match n.(pendingSnapshot) with
          | Some progress =>
              if decide (sameStream progress req ∧ len progress.(sp_buffer) = len body) then
                isInstall req data (len body) n
              else (mkInstallSnapshotResponse n.(currentTerm) false 0, n)
          | None => (mkInstallSnapshotResponse n.(currentTerm) false 0, n)
          end
      end
  end.

(** The method; [others] is what the other goroutines do to the node
    between the two critical sections. *)
Definition HandleInstallSnapshot (others : Node → Node) (req : InstallSnapshotRequest) n
    : InstallSnapshotResponse * Node :=
  match HandleInstallSnapshot_recv req n with
  | (inl resp, n) => (resp, n)
  | (inr body, n) => HandleInstallSnapshot_final req body (others n)
  end.

(** ** Proposals *)

(** [proposeAppend]: the waiter channel and the index, or the error. *)
Definition proposeAppend (command : Command) n : (nat * N + error) * Node :=
  if n.(stopped) then (inr ErrNodeStopped, n)
  else match n.(storageFatal) with
  | Some err => (inr err, n)
  | None =>
  if decide (n.(role) ≠ Leader) then (inr (notLeaderLocked n), n)
  else
    let entry := mkLogEntry (lastIndexLocked n +u 1) n.(currentTerm) command in
    let '(err, st) := AppendEntries [entry] n.(store) in
    let n := with_store st n in
    match err with
    | Some err => (inr err, failStorageLocked err n)
    | None =>
        let n := with_log (n.(log) ++ [entry]) n in
        let n := with_matchIndex (<[n.(params).(id) := entry.(Index)]> n.(matchIndex)) n in
        let n := with_nextIndex (<[n.(params).(id) := entry.(Index) +u 1]> n.(nextIndex)) n in
        let waiter := n.(nextChan) in
        let n := with_nextChan (S waiter) n in
        let n := with_chans (<[waiter := newChan]> n.(chans)) n in
        let n := with_waiters
          (<[entry.(Index) := default [] (n.(waiters) !! entry.(Index)) ++ [waiter]]> n.(waiters)) n in
        (inl (waiter, entry.(Index)), advanceCommitLocked n)
    end
  end.

Definition resultFromOutcome (o : applyOutcome) : ApplyResult * option error :=
  match o.(ao_err) with
  | Some err => (zeroApplyResult, Some err)
  | None =>
      if decide (o.(ao_result).(OK) = false ∧ o.(ao_result).(ResError) ≠ "")
      then (o.(ao_result), Some (ErrText o.(ao_result).(ResError)))
      else (o.(ao_result), None)
  end.

(** The [select] of [Propose]: [None] while it blocks.  A context that is
    done still yields the outcome when one is in the channel; a receive from
    a closed and drained channel yields the zero outcome. *)
Definition Propose_select (waiter : nat) (index : N) (ctxErr : option error) n
    : option (ApplyResult * option error) * Node :=
  match n.(chans) !! waiter with
  | Some (mkChan (o :: rest) c m) =>
      let n := match ctxErr with None => n | Some _ => removeWaiter index waiter n end in
      (Some (resultFromOutcome o), with_chans (<[waiter := mkChan rest c m]> n.(chans)) n)
  | Some (mkChan [] true _) =>
      let n := match ctxErr with None => n | Some _ => removeWaiter index waiter n end in
      (Some (resultFromOutcome (mkOutcome zeroApplyResult None)), n)
  | _ =>
      match ctxErr with
      | None => (None, n)
      | Some err =>
          (Some (zeroApplyResult, Some (ProposalUnknownError index err)), removeWaiter index waiter n)
      end
  end.

(** The non-blocking part of [Propose]: context test, append, kick. *)
Definition Propose_start (ctxErr : option error) (command : Command) n : (nat * N + error) * Node :=
  match ctxErr with
  | Some err => (inr err, n)
  | None =>
      match proposeAppend command n with
      | (inr err, n) => (inr err, n)
      | (inl wi, n) => (inl wi, kickReplication n)
      end
  end.

(** ** The apply loop *)

(** What the first critical section of an [applyReady] turn decides. *)
Inductive applyStep :=
  | ApplyDone
  | ApplyAgain
  | ApplyEntry (entry : LogEntry).

Definition applyReady_next n : applyStep * Node :=
  if decide (n.(commitIndex) ≤ n.(lastApplied))%N then (ApplyDone, n)
  else
    let next := n.(lastApplied) +u 1 in
    if decide (next ≤ n.(snapshot).(LastIncludedIndex))%N then
      (ApplyAgain, with_lastApplied n.(snapshot).(LastIncludedIndex) n)
    else match entryAtLocked n next with
         | None => (ApplyDone, n)
         | Some entry => (ApplyEntry entry, n)
         end.

(** [n.sm.Apply(entry.Command)], with [applyMu] held and [mu] released. *)
Definition applyReady_apply (entry : LogEntry) n : ApplyResult * Node :=
  let '(result, s) := Apply entry.(EntryCommand) n.(sm) in (result, with_sm s n).

(** The second critical section: [None] ends the loop, [Some snap] goes on
    with the snapshot to persist, if any. *)
Definition applyReady_finish (entry : LogEntry) (result : ApplyResult) n
    : option (option Snapshot) * Node :=
  let cur := entryAtLocked n entry.(Index) in
  if decide (entry.(Index) ≠ n.(lastApplied) +u 1 ∨ (n.(commitIndex) < entry.(Index))%N ∨
             cur = None ∨ Term <$> cur ≠ Some entry.(Term)) then (None, n)
  else
    let n := with_lastApplied entry.(Index) n in
    let n := broadcast n in
    let n := finishWaitersLocked entry.(Index) result n in
    let snap := if decide ((0 < n.(params).(snapshotEvery))%Z ∧
                           (n.(params).(snapshotEvery) < Z.of_nat (length n.(log)))%Z ∧
                           (n.(snapshot).(LastIncludedIndex) < n.(lastApplied))%N)
                then snapshotAtLocked n n.(lastApplied) else None in
    (Some snap, n).

(** [persistSnapshot]: the test both critical sections make, the save
    between them, and the second section. *)
Definition persistSnapshot_stale (snap : Snapshot) n : Prop :=
  (snap.(LastIncludedIndex) ≤ n.(snapshot).(LastIncludedIndex))%N ∨
  (n.(lastApplied) < snap.(LastIncludedIndex))%N.
#[global] Instance persistSnapshot_stale_dec snap n : Decision (persistSnapshot_stale snap n).
Proof. unfold persistSnapshot_stale. apply _. Defined.

Definition persistSnapshot_save (snap : Snapshot) n : bool * Node :=
  let '(err, st) := SaveSnapshot snap n.(store) in
  let n := with_store st n in
  match err with
  | Some _ => (false, with_lastErr err n)
  | None => (true, n)
  end.

Definition persistSnapshot_finish (snap : Snapshot) n : Node :=
  if decide (persistSnapshot_stale snap n) then n
  else
    let newLog := entriesAbove n.(log) snap.(LastIncludedIndex) in
    let '(err, st) := ReplaceEntries newLog n.(store) in
    let n := with_store st n in
    match err with
    | Some _ => with_lastErr err n
    | None => with_log newLog (with_snapshot snap n)
    end.

(** [persistSnapshot] with [others] running between its sections. *)
Definition persistSnapshot (others : Node → Node) (snap : Snapshot) n : Node :=
  if decide (persistSnapshot_stale snap n) then n
  else match persistSnapshot_save snap (others n) with
       | (false, n) => n
       | (true, n) => persistSnapshot_finish snap (others n)
       end.

(** One turn of the [applyReady] loop with [others] running wherever [mu]
    is released; the flag says whether the loop goes on. *)
Definition applyReady_turn (others : Node → Node) n : bool * Node :=
  match applyReady_next n with
  | (ApplyDone, n) => (false, n)
  | (ApplyAgain, n) => (true, n)
  | (ApplyEntry entry, n) =>
      let '(result, n) := applyReady_apply entry (others n) in
      match applyReady_finish entry result (others n) with
      | (None, n) => (false, n)
      | (Some None, n) => (true, n)
      | (Some (Some snap), n) => (true, persistSnapshot others snap n)
      end
  end.

(** [applyReady] for at most [fuel] turns; the flag says that the loop
    returned. *)
Fixpoint applyReady (fuel : nat) (others : Node → Node) n : bool * Node :=
  match fuel with
  | O => (false, n)
  | S fuel =>
      match applyReady_turn others n with
      | (false, n) => (true, n)
      | (true, n) => applyReady fuel others (others n)
      end
  end.

End ops.
