(* ===== verification/Replication.v ===== *)
(** * Replication, snapshot transfer and reads of the leader

    [replicateAllOnce], [replicateToPeer], [sendSnapshot], [ensureQuorum]
    and [LinearizableGet] of [internal/raft/node.go], as critical sections
    and as the loops that run them.  In a loop, [rpc] is the transport
    together with everything the rest of the system does while the call is
    out: it maps the request and the world (this node and the others) to
    the reply ([None] is a transport error) and the world afterwards. *)

From S2P Require Import Prelude Types StateMachine StoreIntf RaftLog NodeState Node.

Section repl.
Context {SM St : Type} `{StateMachine SM} `{Store St} `{RandSource} `{MapCodec}.
#[local] Abbreviation Node := (Node SM St).
Implicit Types n : Node.

(** ** Replication slots *)

Definition finishPeerReplication (peerID : string) n : Node :=
  with_replicating (delete peerID n.(replicating)) n.

(** One poll of [acquirePeerReplication]: [Some b] returns [b], [None]
    waits for the next poll. *)
Definition acquirePeerReplication_poll (ctxDone : bool) (peerID : string) n : option bool * Node :=
  if ctxDone then (Some false, n)
  else if decide (disabled n ∨ n.(role) ≠ Leader) then (Some false, n)
  else if map_bool n.(replicating) peerID then (None, n)
  else (Some true, with_replicating (<[peerID := true]> n.(replicating)) n).

(** The critical section of [replicateAllOnce]: the peers this round will
    contact, each with its slot taken. *)
Definition replicateAllOnce_begin n : (list string + error) * Node :=
  if n.(stopped) then (inr ErrNodeStopped, n)
  else if decide (n.(role) ≠ Leader) then (inr (notLeaderLocked n), n)
  else
    let peers := filter (λ p, map_bool n.(replicating) p = false)
                        (map_to_list n.(params).(peerAddrs)).*1 in
    (inl peers, with_replicating (foldl (λ m p, <[p := true]> m) n.(replicating) peers) n).

(** ** replicateToPeer *)

Inductive replAction :=
  | ReplReturn (acked : bool)
  | ReplRetry
  | ReplSnapshot (term snapIdx snapTerm : N) (data : option (gmap string string)) (chunk : Z)
  | ReplAppend (req : AppendEntriesRequest).

(** From the top of the loop body to the point where [mu] is released. *)
Definition replicateToPeer_prepare (peerID : string) n : replAction * Node :=
  if decide (n.(stopped) = true ∨ n.(role) ≠ Leader) then (ReplReturn false, n)
  else
    let next0 := map_N n.(nextIndex) peerID in
    let '(next, n) :=
      if decide (next0 = 0%N) then
        let next := lastIndexLocked n +u 1 in
        (next, with_nextIndex (<[peerID := next]> n.(nextIndex)) n)
      else (next0, n) in
    if decide (next ≤ n.(snapshot).(LastIncludedIndex))%N then
      (ReplSnapshot n.(currentTerm) n.(snapshot).(LastIncludedIndex)
         n.(snapshot).(LastIncludedTerm) n.(snapshot).(Data) n.(params).(snapshotChunkBytes), n)
    else
      let prevIndex := next -u 1 in
      match termAtLocked n prevIndex with
      | None =>
          (ReplRetry, with_nextIndex
             (<[peerID := N.max 1 (n.(snapshot).(LastIncludedIndex) +u 1)]> n.(nextIndex)) n)
      | Some prevTerm =>
          (ReplAppend (mkAppendEntriesRequest n.(currentTerm) n.(params).(id) prevIndex prevTerm
             (entriesFromLocked n next) n.(commitIndex)), n)
      end.

(** [if m[p] < v { m[p] = v }] *)
Definition raise (m : gmap string N) (p : string) (v : N) : gmap string N :=
  if decide (map_N m p < v)%N then <[p := v]> m else m.

(** After [sendSnapshot] reported success. *)
Definition replicateToPeer_snapshotDone (peerID : string) (term snapIdx : N) n : Node :=
  if decide (n.(role) = Leader ∧ n.(currentTerm) = term) then
    let n := with_matchIndex (raise n.(matchIndex) peerID snapIdx) n in
    with_nextIndex (raise n.(nextIndex) peerID (snapIdx +u 1)) n
  else n.

(** The reply to an AppendEntries: [Some b] returns [b], [None] loops. *)
Definition replicateToPeer_response (peerID : string) (req : AppendEntriesRequest)
    (resp : AppendEntriesResponse) n : option bool * Node :=
  if decide (n.(currentTerm) < resp.(aer_Term))%N then
    (Some false, (becomeFollowerLocked resp.(aer_Term) "" n).2)
  else if decide (n.(role) ≠ Leader ∨ n.(currentTerm) ≠ req.(ae_Term)) then (Some false, n)
  else if resp.(aer_Success) then
    let match_ := req.(ae_PrevLogIndex) +u len req.(ae_Entries) in
    let n := with_matchIndex (raise n.(matchIndex) peerID match_) n in
    let n := with_nextIndex (raise n.(nextIndex) peerID (match_ +u 1)) n in
    (Some true, advanceCommitLocked n)
  else if decide (0 < resp.(aer_ConflictIndex))%N then
    (None, with_nextIndex (<[peerID := resp.(aer_ConflictIndex)]> n.(nextIndex)) n)
  else (Some false, n).

(** ** sendSnapshot *)

(** [body[offset:end]] *)
Definition slice (body : list Byte.byte) (from to : N) : list Byte.byte :=
  take (N.to_nat (to - from)) (drop (N.to_nat from) body).

Definition chunkEnd (total offset : N) (chunkSize : Z) : N :=
  let end_ := offset +u Z.to_N chunkSize in
  if decide (total < end_)%N then total else end_.

Definition snapshotRequest (leader : string) (term lastIdx lastT : N) (body : list Byte.byte)
    (chunkSize : Z) (offset : N) : InstallSnapshotRequest :=
  let end_ := chunkEnd (len body) offset chunkSize in
  mkInstallSnapshotRequest term leader lastIdx lastT offset (slice body offset end_)
    (bool_decide (end_ = len body)).

(** The critical section after the reply: [true] goes on. *)
Definition sendSnapshot_check (term : N) (resp : InstallSnapshotResponse) n : bool * Node :=
  if decide (n.(currentTerm) < resp.(isr_Term))%N then
    (false, (becomeFollowerLocked resp.(isr_Term) "" n).2)
  else if decide (n.(role) ≠ Leader ∨ n.(currentTerm) ≠ term) then (false, n)
  else (true, n).

Inductive sendStep :=
  | SendReturn (ok : bool)
  | SendNext (offset : N).

(** What follows an accepted or refused chunk. *)
Definition sendSnapshot_next (total offset end_ : N) (resp : InstallSnapshotResponse) : sendStep :=
  let done := bool_decide (end_ = total) in
  if decide (resp.(isr_Success) = false) then
    if decide (resp.(isr_BytesReceived) = offset ∧ done = false) then SendReturn false
    else if decide (total < resp.(isr_BytesReceived))%N then SendReturn false
    else SendNext resp.(isr_BytesReceived)
  else if done then SendReturn true
  else SendNext end_.

Section loops.
Context {W : Type}.
Context (rpcIS : InstallSnapshotRequest → Node * W → option InstallSnapshotResponse * (Node * W)).
Context (rpcAE : AppendEntriesRequest → Node * W → option AppendEntriesResponse * (Node * W)).

(** The [for] loop of [sendSnapshot]; [ctx k] tells whether the context is
    done at the [k]-th turn counted from the end of the fuel.  [None] means
    that the fuel ran out with the loop still running. *)
Fixpoint sendSnapshotLoop (fuel : nat) (ctx : nat → bool) (term lastIdx lastT : N)
    (body : list Byte.byte) (chunkSize : Z) (offset : N) (w : Node * W) : option bool * (Node * W) :=
  match fuel with
  | O => (None, w)
  | S fuel =>
      if ctx fuel then (Some false, w)
      else
        let end_ := chunkEnd (len body) offset chunkSize in
        let req := snapshotRequest w.1.(params).(id) term lastIdx lastT body chunkSize offset in
        match rpcIS req w with
        | (None, w) => (Some false, w)
        | (Some resp, (n, x)) =>
            match sendSnapshot_check term resp n with
            | (false, n) => (Some false, (n, x))
            | (true, n) =>
                match sendSnapshot_next (len body) offset end_ resp with
                | SendReturn ok => (Some ok, (n, x))
                | SendNext offset =>
                    sendSnapshotLoop fuel ctx term lastIdx lastT body chunkSize offset (n, x)
                end
            end
        end
  end.

Definition sendSnapshot (fuel : nat) (ctx : nat → bool) (term lastIdx lastT : N)
    (data : option (gmap string string)) (chunkSize : Z) (w : Node * W) : option bool * (Node * W) :=
  let body := marshalMap data in
  let chunkSize := if decide (chunkSize ≤ 0)%Z then defaultSnapshotChunkBytes else chunkSize in
  sendSnapshotLoop fuel ctx term lastIdx lastT body chunkSize 0 w.

(** [replicateToPeer]: at most [maxReplicationAttempts] turns. *)
Fixpoint replicateLoop (attempts : nat) (ctx : nat → bool) (snapFuel : nat) (peerID : string)
    (w : Node * W) : option bool * (Node * W) :=
  match attempts with
  | O => (Some false, w)
  | S attempts =>
      if ctx attempts then (Some false, w)
      else
        let '(n, x) := w in
        match replicateToPeer_prepare peerID n with
        | (ReplReturn b, n) => (Some b, (n, x))
        | (ReplRetry, n) => replicateLoop attempts ctx snapFuel peerID (n, x)
        | (ReplSnapshot term snapIdx snapTerm data chunk, n) =>
            match sendSnapshot snapFuel ctx term snapIdx snapTerm data chunk (n, x) with
            | (Some true, (n, x)) =>
                (Some true, (replicateToPeer_snapshotDone peerID term snapIdx n, x))
            | (r, w) => (r, w)
            end
        | (ReplAppend req, n) =>
            match rpcAE req (n, x) with
            | (None, w) => (Some false, w)
            | (Some resp, (n, x)) =>
                match replicateToPeer_response peerID req resp n with
                | (Some b, n) => (Some b, (n, x))
                | (None, n) => replicateLoop attempts ctx snapFuel peerID (n, x)
                end
            end
        end
  end.

Definition replicateToPeer (ctx : nat → bool) (snapFuel : nat) (peerID : string) (w : Node * W)
    : option bool * (Node * W) :=
  replicateLoop maxReplicationAttempts ctx snapFuel peerID w.

End loops.

(** ** Reads *)

(** [ensureQuorum]: the tests before the barrier round; [inl] holds the
    term to confirm. *)
Definition ensureQuorum_begin n : N + error :=
  if n.(stopped) then inr ErrNodeStopped
  else if decide (n.(role) ≠ Leader) then inr (notLeaderLocked n)
  else inl n.(currentTerm).

(** The barrier's counters after a list of per-peer results (an ack counts
    only if the node is still leader of [term] when it is recorded). *)
Record tally := mkTally { acked : nat; failed : nat }.

Definition tally_result (t : tally) (ok : bool) : tally :=
  if ok then mkTally (S t.(acked)) t.(failed) else mkTally t.(acked) (S t.(failed)).

(** The [signal] closure: [Some true] on [quorumCh], [Some false] on [doneCh]. *)
Definition tally_signal (target npeers : nat) (t : tally) : option bool :=
  if decide (target ≤ t.(acked)) then Some true
  else if decide (npeers + 1 ≤ t.(acked) + t.(failed)) then Some false
  else None.

(** The first signal raised while the results arrive in order. *)
Fixpoint barrier (target npeers : nat) (t : tally) (results : list bool) : option bool :=
  match results with
  | [] => None
  | ok :: rest =>
      let t := tally_result t ok in
      match tally_signal target npeers t with
      | Some b => Some b
      | None => barrier target npeers t rest
      end
  end.

(** After the barrier signalled; [n] is the node at that moment. *)
Definition ensureQuorum_end (term : N) (signal : bool) n : N + error :=
  if signal then
    if n.(stopped) then inr ErrNodeStopped
    else if decide (n.(role) ≠ Leader ∨ n.(currentTerm) ≠ term) then inr (notLeaderLocked n)
    else inl term
  else inr (ErrText "leader cannot contact quorum").

(** The three ways a critical section of [LinearizableGet] ends. *)
Inductive readStep (A : Type) :=
  | ReadError (err : error)
  | ReadRetry
  | ReadOk (a : A).
Arguments ReadError {A}. Arguments ReadRetry {A}. Arguments ReadOk {A}.

Definition LinearizableGet_index (confirmedTerm : N) n : readStep N :=
  if n.(stopped) then ReadError ErrNodeStopped
  else if decide (n.(role) ≠ Leader) then ReadError (notLeaderLocked n)
  else if decide (n.(currentTerm) ≠ confirmedTerm) then ReadRetry
  else ReadOk (if decide (n.(commitIndex) < n.(leaderNoopIndex))%N
               then n.(leaderNoopIndex) else n.(commitIndex)).

Definition LinearizableGet_read (confirmedTerm : N) (key : string) n : readStep (string * bool) :=
  if n.(stopped) then ReadError ErrNodeStopped
  else if decide (n.(role) ≠ Leader) then ReadError (notLeaderLocked n)
  else if decide (n.(currentTerm) ≠ confirmedTerm) then ReadRetry
  else ReadOk (Get key n.(sm)).

(** What [context.AfterFunc] runs, in a goroutine of its own, when the
    context of a wait is done: a broadcast under the lock. *)
Definition waitUntilApplied_afterFunc n : Node := broadcast n.

Definition waitUntilAppliedAsLeader_afterFunc n : Node := broadcast n.

(** One wake-up of the wait loops: [None] waits for the next broadcast,
    [Some err] returns [err]. *)
Definition waitUntilApplied_check (ctxErr : option error) (index : N) n : option (option error) :=
  if decide (n.(lastApplied) < index)%N then
    if n.(stopped) then Some (Some ErrNodeStopped)
    else match n.(storageFatal) with
    | Some err => Some (Some err)
    | None => match ctxErr with Some err => Some (Some err) | None => None end
    end
  else Some None.

Definition waitUntilAppliedAsLeader_check (ctxErr : option error) (index term : N) n
    : option (option error) :=
  if n.(stopped) then Some (Some ErrNodeStopped)
  else match n.(storageFatal) with
  | Some err => Some (Some err)
  | None =>
      if decide (n.(role) ≠ Leader ∨ n.(currentTerm) ≠ term) then Some (Some (notLeaderLocked n))
      else if decide (n.(lastApplied) < index)%N then
        match ctxErr with Some err => Some (Some err) | None => None end
      else Some None
  end.

End repl.
Arguments ReadError {A}. Arguments ReadRetry {A}. Arguments ReadOk {A}.
