(* ===== verification/Methods.v ===== *)
(** * The blocking methods as wholes

    [Propose], [LinearizableGet], [ensureQuorum], the wait loops,
    [startElection] and the replication rounds of [internal/raft/node.go],
    composed from the critical sections of [Node.v] and [Replication.v].
    While a method holds no lock, the rest of the system runs: the state is
    the node together with an arbitrary world [X], and the moves of the rest
    are arguments ([step]).  A blocking call is given the list of moves that
    happen while it blocks.  [Propose] is given the error its context ends
    with after these moves, or none for a context that has not ended, in
    which case the call may still be blocked when the moves are used up; the
    reads always have a deadline ([readContext]), and their context is done
    when the list is used up.  How a sleeping reader is woken, by the end of
    its context too, is in [Reads.v]. *)

From S2P Require Import Prelude Types StateMachine StoreIntf RaftLog NodeState Node Replication.

Section methods.
Context {SM St X : Type} `{StateMachine SM} `{Store St} `{RandSource} `{MapCodec}.
#[local] Abbreviation Node := (Node SM St).
#[local] Abbreviation world := (Node * X)%type.
#[local] Abbreviation step := (world → world).

(** ** Propose *)

(** The [select]: tried after every move, and once more with [ctx.Err()] as
    it is after the moves ([None]: the context has not ended).  The result is
    [None] while the call is blocked. *)
Fixpoint Propose_wait (waiter : nat) (index : N) (moves : list step) (ctxErr : option error) (w : world)
    : option (ApplyResult * option error) * world :=
  match Propose_select waiter index None w.1 with
  | (Some r, n) => (Some r, (n, w.2))
  | (None, _) =>
      match moves with
      | m :: moves => Propose_wait waiter index moves ctxErr (m w)
      | [] => let '(r, n) := Propose_select waiter index ctxErr w.1 in (r, (n, w.2))
      end
  end.

(** [entryErr] is [ctx.Err()] when the method is entered. *)
Definition Propose (entryErr : option error) (command : Command) (moves : list step) (ctxErr : option error)
    (w : world) : option (ApplyResult * option error) * world :=
  match Propose_start entryErr command w.1 with
  | (inr err, n) => (Some (zeroApplyResult, Some err), (n, w.2))
  | (inl (waiter, index), n) => Propose_wait waiter index moves ctxErr (n, w.2)
  end.

(** ** Waiting for the apply loop *)

Fixpoint waitUntilApplied (index : N) (moves : list step) (ctxErr : error) (w : world)
    : option error * world :=
  match waitUntilApplied_check None index w.1 with
  | Some r => (r, w)
  | None =>
      match moves with
      | m :: moves => waitUntilApplied index moves ctxErr (m w)
      | [] => (default None (waitUntilApplied_check (Some ctxErr) index w.1), w)
      end
  end.

Fixpoint waitUntilAppliedAsLeader (index term : N) (moves : list step) (ctxErr : error) (w : world)
    : option error * world :=
  match waitUntilAppliedAsLeader_check None index term w.1 with
  | Some r => (r, w)
  | None =>
      match moves with
      | m :: moves => waitUntilAppliedAsLeader index term moves ctxErr (m w)
      | [] => (default None (waitUntilAppliedAsLeader_check (Some ctxErr) index term w.1), w)
      end
  end.

(** ** ensureQuorum *)

(** While the barrier round is out: a move of the rest of the system, or the
    result of [replicateToPeerForRead] for one of the peers. *)
Inductive barrierEvent :=
  | BarrierMove (m : step)
  | BarrierResult (ok : bool).

(** The goroutine of one peer: an ack counts while the node leads [term]. *)
Definition barrierAck (term : N) (ok : bool) (n : Node) : bool :=
  ok && bool_decide (n.(role) = Leader ∧ n.(currentTerm) = term).

(** The moves before the caller's [select] notices the signal. *)
Fixpoint barrierLag (events : list barrierEvent) (w : world) : world :=
  match events with
  | BarrierMove m :: events => barrierLag events (m w)
  | _ => w
  end.

Fixpoint barrierWait (term : N) (t : tally) (events : list barrierEvent) (ctxErr : error) (w : world)
    : (N + error) * world :=
  match events with
  | [] => (inr ctxErr, w)
  | BarrierMove m :: events => barrierWait term t events ctxErr (m w)
  | BarrierResult ok :: events =>
      let t := tally_result t (barrierAck term ok w.1) in
      match tally_signal (quorum w.1) (size w.1.(params).(peerAddrs)) t with
      | Some signal => let w := barrierLag events w in (ensureQuorum_end term signal w.1, w)
      | None => barrierWait term t events ctxErr w
      end
  end.

Definition ensureQuorum (events : list barrierEvent) (ctxErr : error) (w : world) : (N + error) * world :=
  match ensureQuorum_begin w.1 with
  | inr err => (inr err, w)
  | inl term =>
      if decide (quorum w.1 = 1) then (inl term, w)
      else barrierWait term (mkTally 1 0) events ctxErr w
  end.

(** ** LinearizableGet *)

(** The deadline of the context the read runs with. *)
Definition readContext (n : Node) (deadline : option Z) : option Z :=
  if decide (n.(params).(readTimeout) ≤ 0)%Z then deadline
  else match deadline with
       | Some d => Some d
       | None => Some (n.(now) + n.(params).(readTimeout))%Z
       end.

(** One turn of the loop: what happens during the barrier, between the
    barrier and the read index, during the wait, and between the wait and
    the read. *)
Record readTurn := mkTurn {
  rt_barrier : list barrierEvent;
  rt_before : step;
  rt_wait : list step;
  rt_after : step }.

Fixpoint LinearizableGet (key : string) (turns : list readTurn) (ctxErr : error) (w : world)
    : (string * bool + error) * world :=
  match turns with
  | [] => (inr ctxErr, w)
  | turn :: turns =>
      match ensureQuorum turn.(rt_barrier) ctxErr w with
      | (inr err, w) => (inr err, w)
      | (inl confirmedTerm, w) =>
          let w := turn.(rt_before) w in
          match LinearizableGet_index confirmedTerm w.1 with
          | ReadError err => (inr err, w)
          | ReadRetry => LinearizableGet key turns ctxErr w
          | ReadOk applied =>
              match waitUntilAppliedAsLeader applied confirmedTerm turn.(rt_wait) ctxErr w with
              | (Some err, w) => (inr err, w)
              | (None, w) =>
                  let w := turn.(rt_after) w in
                  match LinearizableGet_read confirmedTerm key w.1 with
                  | ReadError err => (inr err, w)
                  | ReadRetry => LinearizableGet key turns ctxErr w
                  | ReadOk v => (inl v, w)
                  end
              end
          end
      end
  end.

(** ** Replication rounds *)

(** [acquirePeerReplication]: polls until the slot is free; the list is used
    up when the context is done. *)
Fixpoint acquirePeerReplication (peerID : string) (moves : list step) (w : world) : bool * world :=
  match acquirePeerReplication_poll false peerID w.1 with
  | (Some b, n) => (b, (n, w.2))
  | (None, n) =>
      match moves with
      | m :: moves => acquirePeerReplication peerID moves (m (n, w.2))
      | [] => (false, (n, w.2))
      end
  end.

Context (rpcIS : InstallSnapshotRequest → world → option InstallSnapshotResponse * world).
Context (rpcAE : AppendEntriesRequest → world → option AppendEntriesResponse * world).

Definition replicateToPeerForRead (peerID : string) (moves : list step) (ctx : nat → bool) (snapFuel : nat)
    (w : world) : option bool * world :=
  match acquirePeerReplication peerID moves w with
  | (false, w) => (Some false, w)
  | (true, w) =>
      match replicateToPeer rpcIS rpcAE ctx snapFuel peerID w with
      | (r, (n, x)) => (r, (finishPeerReplication peerID n, x))
      end
  end.

(** The goroutines of [replicateAllOnce], one after another: what the others
    do while one of them waits is part of its RPC. *)
Fixpoint replicateRound (ctx : nat → bool) (snapFuel : nat) (peers : list string) (w : world) : world :=
  match peers with
  | [] => w
  | p :: peers =>
      match replicateToPeer rpcIS rpcAE ctx snapFuel p w with
      | (_, (n, x)) => replicateRound ctx snapFuel peers (finishPeerReplication p n, x)
      end
  end.

Definition replicateAllOnce (ctx : nat → bool) (snapFuel : nat) (w : world) : option error * world :=
  match replicateAllOnce_begin w.1 with
  | (inr err, n) => (Some err, (n, w.2))
  | (inl peers, n) => (None, replicateRound ctx snapFuel peers (n, w.2))
  end.

(** ** Elections *)

(** The results in the order of their arrival, each after a move of the rest
    of the system; [None] is a failed RPC.  The list ends early when the
    context is done. *)
Fixpoint collectVotes (term : N) (votes : nat) (results : list (step * option RequestVoteResponse)) (w : world)
    : option voteAction * world :=
  match results with
  | [] => (None, w)
  | (m, result) :: results =>
      let w := m w in
      match collectVote w.1 term votes result with
      | VoteContinue votes => collectVotes term votes results w
      | action => (Some action, w)
      end
  end.

(** [becomeLeader] with the first round of heartbeats. *)
Definition becomeLeader_round (ctx : nat → bool) (snapFuel : nat) (term : N) (w : world) : world :=
  match becomeLeader term w.1 with
  | (true, n) => (replicateAllOnce ctx snapFuel (n, w.2)).2
  | (false, n) => (n, w.2)
  end.

Definition startElection_run (ctx : nat → bool) (snapFuel : nat)
    (results : list (step * option RequestVoteResponse)) (w : world) : world :=
  match startElection w.1 with
  | (None, n) => (n, w.2)
  | (Some (term, _), n) =>
      if decide (quorum n = 1) then becomeLeader_round ctx snapFuel term (n, w.2)
      else
        match collectVotes term 1 (take (size n.(params).(peerAddrs)) results) (n, w.2) with
        | (Some (VoteStepDown t), (n, x)) => (stepDown t "" n, x)
        | (Some VoteBecomeLeader, w) => becomeLeader_round ctx snapFuel term w
        | (_, w) => w
        end
  end.

(** ** The loops of Start

    One turn of each, after its [select] fired on something else than the
    stop channel. *)
Definition electionLoop_turn (ctx : nat → bool) (snapFuel : nat)
    (results : list (step * option RequestVoteResponse)) (w : world) : world :=
  if electionTick w.1 then startElection_run ctx snapFuel results w else w.

Definition heartbeatLoop_turn (ctx : nat → bool) (snapFuel : nat) (w : world) : world :=
  if isLeader w.1 then (replicateAllOnce ctx snapFuel w).2 else w.

Definition applyLoop_turn (fuel : nat) (others : Node → Node) (w : world) : world :=
  ((applyReady fuel others w.1).2, w.2).

End methods.
