(* ===== verification/NodeStep.v ===== *)
(** * The steps of one node

    [nop] lists every critical section of the node with its arguments and
    [nrun] executes one: whatever the network delivers and however the
    goroutines of the node interleave, the node moves along [nrun]. *)

From S2P Require Import Prelude Types StateMachine StoreIntf RaftLog NodeState Node Replication.

Section nstep.
Context {SM St : Type} `{StateMachine SM} `{Store St} `{RandSource} `{MapCodec}.
#[local] Abbreviation Node := (Node SM St).
Implicit Types n : Node.

Inductive nop :=
  | DoTick (t : Z)
  | DoStop
  | DoAppendEntries (req : AppendEntriesRequest)
  | DoInstallRecv (req : InstallSnapshotRequest)
  | DoInstallFinal (req : InstallSnapshotRequest) (body : list Byte.byte)
  | DoPropose (ctx : option error) (command : Command)
  | DoProposeSelect (w : nat) (i : N) (ctx : option error)
  | DoApplyNext
  | DoApplyApply (e : LogEntry)
  | DoApplyFinish (e : LogEntry) (r : ApplyResult)
  | DoSnapshotSave (sn : Snapshot)
  | DoSnapshotFinish (sn : Snapshot)
  | DoAcquire (ctx : bool) (p : string)
  | DoRelease (p : string)
  | DoReplAll
  | DoReplPrepare (p : string)
  | DoReplSnapshot (p : string) (t i : N)
  | DoReplResponse (p : string) (req : AppendEntriesRequest) (resp : AppendEntriesResponse)
  | DoSendCheck (t : N) (resp : InstallSnapshotResponse)
  | DoStartElection
  | DoRequestVote (req : RequestVoteRequest)
  | DoBecomeLeader (t : N)
  | DoStepDown (t : N) (leader : string).

Definition nrun (op : nop) n : Node :=
  match op with
  | DoTick t => with_now t n
  | DoStop => Stop n
  | DoAppendEntries req => (HandleAppendEntries req n).2
  | DoInstallRecv req => (HandleInstallSnapshot_recv req n).2
  | DoInstallFinal req body => (HandleInstallSnapshot_final req body n).2
  | DoPropose ctx command => (Propose_start ctx command n).2
  | DoProposeSelect w i ctx => (Propose_select w i ctx n).2
  | DoApplyNext => (applyReady_next n).2
  | DoApplyApply e => (applyReady_apply e n).2
  | DoApplyFinish e r => (applyReady_finish e r n).2
  | DoSnapshotSave sn => (persistSnapshot_save sn n).2
  | DoSnapshotFinish sn => persistSnapshot_finish sn n
  | DoAcquire ctx p => (acquirePeerReplication_poll ctx p n).2
  | DoRelease p => finishPeerReplication p n
  | DoReplAll => (replicateAllOnce_begin n).2
  | DoReplPrepare p => (replicateToPeer_prepare p n).2
  | DoReplSnapshot p t i => replicateToPeer_snapshotDone p t i n
  | DoReplResponse p req resp => (replicateToPeer_response p req resp n).2
  | DoSendCheck t resp => (sendSnapshot_check t resp n).2
  | DoStartElection => (startElection n).2
  | DoRequestVote req => (HandleRequestVote req n).2
  | DoBecomeLeader t => (becomeLeader t n).2
  | DoStepDown t leader => stepDown t leader n
  end.

(** The sections of an election, which the cluster model schedules itself. *)
Definition is_election (op : nop) : bool :=
  match op with
  | DoStartElection | DoRequestVote _ | DoBecomeLeader _ | DoStepDown _ _ => true
  | _ => false
  end.

(** ** Votes

    A hard state is a term and the vote cast in it.  [hs_le] is how it may
    evolve: the term grows, or the term stays and a vote that was not cast
    yet is cast. *)
Definition hs_le (h h' : N * string) : Prop :=
  (h.1 < h'.1)%N ∨ (h.1 = h'.1 ∧ (h.2 = "" ∨ h.2 = h'.2)).

#[global] Instance hs_le_preorder : PreOrder hs_le.
Proof.
  split.
  - intros []. right. auto.
  - intros [t v] [t' v'] [t'' v'']. unfold hs_le; cbn.
    intros [?|[-> Hv]] [?|[-> Hv']]; [left; lia..|right].
    split; [done|]. destruct Hv as [->| ->]; auto.
Qed.

Definition mem_hs n : N * string := (n.(currentTerm), n.(votedFor)).
Definition disk_hs `{!HardStateLaws St} (s : St) : N * string :=
  ((durable_hs s).(CurrentTerm), (durable_hs s).(VotedFor)).

Context `{!HardStateLaws St}.

(** What every step does to the votes of a node: the vote in memory evolves
    along [hs_le]; the vote on disk is the old one or one that memory went
    through; and no step but [becomeLeader] makes a leader or lets a leader
    change its term. *)
Record vote_frame n n' : Prop := {
  vf_params : n'.(params) = n.(params);
  vf_mem : hs_le (mem_hs n) (mem_hs n');
  vf_disk : disk_hs n'.(store) = disk_hs n.(store) ∨ hs_le (mem_hs n) (disk_hs n'.(store));
  vf_leader : n'.(role) = Leader → n.(role) = Leader ∧ n'.(currentTerm) = n.(currentTerm) }.

#[global] Instance vote_frame_preorder : PreOrder vote_frame.
Proof.
  split.
  - intros n. split; auto; reflexivity.
  - intros n n' n'' [Hp Hm Hd Hl] [Hp' Hm' Hd' Hl']. split.
    + congruence.
    + by etrans.
    + destruct Hd' as [->|Hd']; [done|]. right. by etrans.
    + intros Hr. destruct (Hl' Hr) as [Hr' Ht']. destruct (Hl Hr') as [? ?]. split; congruence.
Qed.

(** A step that writes neither the hard state nor the role. *)
Lemma vote_frame_quiet n n' :
  n'.(params) = n.(params) → mem_hs n' = mem_hs n → n'.(role) = n.(role) →
  disk_hs n'.(store) = disk_hs n.(store) → vote_frame n n'.
Proof.
  intros Hp Hm Hr Hd. split; [done|by rewrite Hm|by left|].
  rewrite Hr. unfold mem_hs in Hm. by simplify_eq.
Qed.

(** A step that drops the leader role and writes no hard state. *)
Lemma vote_frame_demote n n' :
  n'.(params) = n.(params) → mem_hs n' = mem_hs n → n'.(role) ≠ Leader →
  disk_hs n'.(store) = disk_hs n.(store) → vote_frame n n'.
Proof. intros Hp Hm Hr Hd. split; [done|by rewrite Hm|by left|done]. Qed.

Lemma vf_save commit n :
  vote_frame n (saveHardStateLocked commit n).2 ∧
  (saveHardStateLocked commit n).2.(role) = n.(role) ∧
  mem_hs (saveHardStateLocked commit n).2 = mem_hs n ∧
  ((saveHardStateLocked commit n).1 = None →
     disk_hs (saveHardStateLocked commit n).2.(store) = mem_hs n).
Proof.
  unfold saveHardStateLocked.
  set (hs := mkHardState _ _ _).
  pose proof (SaveHardState_cases hs n.(store)) as Hcases.
  destruct (SaveHardState hs (store n)) as [[e|] st] eqn:E; cbn in *; split_and!; try done.
  - split; cbn; auto. { reflexivity. }
    unfold disk_hs. destruct Hcases as [->| ->]; [by left|right; reflexivity].
  - split; cbn; auto. { reflexivity. }
    unfold disk_hs. destruct Hcases as [->| ->]; [by left|right; reflexivity].
  - intros _. apply SaveHardState_ok in E. unfold disk_hs. by rewrite E.
Qed.

Lemma vf_failStorage e n : vote_frame n (failStorageLocked e n).
Proof. by apply vote_frame_demote. Qed.

Lemma vf_persist n n' e :
  persistHardStateLocked n = (e, n') →
  vote_frame n n' ∧ n'.(role) = n.(role) ∧ mem_hs n' = mem_hs n ∧
  (e = None → disk_hs n'.(store) = mem_hs n).
Proof. intros E. pose proof (vf_save n.(commitIndex) n) as Hs. unfold persistHardStateLocked in E.
  by rewrite E in Hs. Qed.

(** A failed save leaves the old hard state or the one it tried to write. *)
Lemma persist_disk n n' e :
  persistHardStateLocked n = (e, n') →
  disk_hs n'.(store) = disk_hs n.(store) ∨ disk_hs n'.(store) = mem_hs n.
Proof.
  unfold persistHardStateLocked, saveHardStateLocked. set (hs := mkHardState _ _ _).
  pose proof (SaveHardState_cases hs n.(store)) as Hcases.
  destruct (SaveHardState hs (store n)) as [[]]; intros; simplify_eq/=; unfold disk_hs;
    (destruct Hcases as [->| ->]; [by left|by right]).
Qed.

Lemma vf_becomeFollower term leader b n e n' :
  becomeFollowerWithTimerLocked term leader b n = (e, n') →
  vote_frame n n' ∧ n'.(role) = Follower ∧
  n'.(currentTerm) = N.max term n.(currentTerm) ∧
  (n.(currentTerm) < term → n'.(votedFor) = "")%N ∧
  ((term ≤ n.(currentTerm))%N → n'.(votedFor) = n.(votedFor)).
Proof.
  unfold becomeFollowerWithTimerLocked. intros E.
  set (n1 := if decide (currentTerm n < term)%N then _ else n) in E.
  set (n2 := if b then _ else _) in E.
  assert (vote_frame n n2 ∧ n2.(role) = Follower ∧ n2.(currentTerm) = N.max term n.(currentTerm) ∧
    (n.(currentTerm) < term → n2.(votedFor) = "")%N ∧
    ((term ≤ n.(currentTerm))%N → n2.(votedFor) = n.(votedFor))) as (Hf & Hr & Ht & Hv & Hv').
  { subst n2 n1. destruct b, (decide (currentTerm n < term)%N); cbn; split_and!; try lia; try done;
      split; cbn; auto; try done; unfold hs_le, mem_hs; cbn; auto; left; lia. }
  destruct (persistHardStateLocked n2) as [e2 n3] eqn:Ep.
  apply vf_persist in Ep as (Hf3 & Hr3 & Hm3 & _).
  unfold mem_hs in Hm3. inversion Hm3 as [[Hm3t Hm3v]].
  destruct e2 as [e2|]; simplify_eq.
  - cbn. rewrite Hm3t, Hm3v. split_and!; [|done..]. etrans; [exact Hf|]. etrans; [exact Hf3|].
    apply vf_failStorage.
  - destruct (decide (role n = Leader)); cbn; rewrite Hr3, Hm3t, Hm3v; (split_and!; [|done..]).
    + etrans; [exact Hf|]. etrans; [exact Hf3|]. by apply vote_frame_quiet.
    + by etrans.
Qed.

Lemma vf_stepDown term leader n : vote_frame n (stepDown term leader n).
Proof.
  unfold stepDown, becomeFollowerLocked.
  destruct (becomeFollowerWithTimerLocked _ _ _ _) eqn:E. by apply vf_becomeFollower in E as [? _].
Qed.

Lemma vf_advanceCommit n :
  vote_frame n (advanceCommitLocked n) ∧ mem_hs (advanceCommitLocked n) = mem_hs n.
Proof.
  unfold advanceCommitLocked. destruct (advanceLoop _ _ _) as [i|]; [|by split].
  destruct (persistHardStateLocked _) as [e n1] eqn:E.
  apply vf_persist in E as (Hf & Hr & Hm & _).
  assert (vote_frame n n1) as Hf1 by (etrans; [|exact Hf]; by apply vote_frame_quiet).
  destruct e as [e|]; (split; [|exact Hm]).
  - etrans; [exact Hf1|]. by apply vote_frame_demote.
  - etrans; [exact Hf1|]. by apply vote_frame_quiet.
Qed.

End nstep.

(** Close a [vote_frame] goal whose two nodes differ in fields the frame
    does not look at. *)
Ltac vf_quiet :=
  apply vote_frame_quiet; [done|done|done|];
  unfold disk_hs; cbn; autorewrite with len; reflexivity.
