(* ===== verification/VoteFrame.v ===== *)
(** * Every step of a node respects its votes

    [vote_frame] for each critical section, ending with the three sections
    an election consists of. *)

From S2P Require Import Prelude Types StateMachine StoreIntf RaftLog NodeState Node Replication NodeStep.

Section frames.
Context {SM St : Type} `{StateMachine SM} `{Store St} `{RandSource} `{MapCodec} `{!HardStateLaws St}.
#[local] Abbreviation Node := (Node SM St).
Implicit Types n : Node.

(** A conditional step down, as the RPC handlers perform it. *)
Lemma vf_follow (P : Prop) `{Decision P} term leader n e n' :
  (if decide P then becomeFollowerLocked term leader n else (None, n)) = (e, n') →
  vote_frame n n'.
Proof.
  case_decide; intros E.
  - by apply vf_becomeFollower in E as [? _].
  - by simplify_eq.
Qed.

Lemma vf_aeCommit req i n : vote_frame n (aeCommit req i n).2.
Proof.
  unfold aeCommit. case_decide; [|done].
  destruct (persistHardStateLocked _) as [e n1] eqn:E. apply vf_persist in E as (Hf & _).
  assert (vote_frame n n1) as Hf1 by (etrans; [|exact Hf]; vf_quiet).
  destruct e; (etrans; [exact Hf1|]; vf_quiet).
Qed.

Lemma vf_aeMerge req n : vote_frame n (aeMerge req n).2.
Proof.
  unfold aeMerge. destruct (mergeEntries _ _ _ _ _) as [m log']. case_decide; [vf_quiet|].
  destruct (changed m); [|by etrans; [|apply vf_aeCommit]; vf_quiet].
  set (r := if replaced m then _ else _).
  assert (durable_hs r.2 = durable_hs n.(store)) as Hd.
  { subst r. destruct (replaced m); cbn; by autorewrite with len. }
  destruct r as [[e|] st]; cbn in Hd.
  - apply vote_frame_demote; try done. unfold disk_hs; cbn. by rewrite Hd.
  - etrans; [|apply vf_aeCommit]. apply vote_frame_quiet; try done.
    unfold disk_hs; cbn. by rewrite Hd.
Qed.

Lemma vf_HandleAppendEntries req n : vote_frame n (HandleAppendEntries req n).2.
Proof.
  unfold HandleAppendEntries. do 3 (case_decide; [done|]).
  destruct (if decide (_ ∨ _) then _ else _) as [e n1] eqn:E. apply vf_follow in E.
  destruct e as [e|]; [by etrans; [exact E|]|]. etrans; [exact E|].
  set (n2 := resetElectionLocked _). assert (vote_frame n1 n2) by vf_quiet.
  etrans; [done|]. case_decide; [done|]. case_decide; [done|]. apply vf_aeMerge.
Qed.

Lemma vf_isGuards req n : vote_frame n (isGuards req n).2.
Proof.
  unfold isGuards. do 3 (case_decide; [done|]).
  destruct (if decide (_ ∨ _) then _ else _) as [e n1] eqn:E. apply vf_follow in E.
  etrans; [exact E|]. destruct e as [e|]; [vf_quiet|]. case_decide; vf_quiet.
Qed.

Lemma vf_isChunk req p n : vote_frame n (isChunk req p n).2.
Proof. unfold isChunk. case_decide; [done|]. destruct (is_Done req); vf_quiet. Qed.

Lemma vf_install_recv req n : vote_frame n (HandleInstallSnapshot_recv req n).2.
Proof.
  unfold HandleInstallSnapshot_recv. pose proof (vf_isGuards req n) as Hg.
  destruct (isGuards req n) as [[r|[]] n1]; [done|]. etrans; [exact Hg|].
  destruct (pendingSnapshot n1); repeat case_decide; try done; try apply vf_isChunk;
    (etrans; [|apply vf_isChunk]); vf_quiet.
Qed.

Lemma vf_isInstall req data sz n : vote_frame n (isInstall req data sz n).2.
Proof.
  unfold isInstall.
  match goal with |- context [SaveSnapshot ?sn ?st] =>
    pose proof (SaveSnapshot_hs sn st) as Hd1; destruct (SaveSnapshot sn st) as [[e|] st1] end; cbn in Hd1.
  { apply vote_frame_demote; try done. unfold disk_hs; cbn. by rewrite Hd1. }
  match goal with |- context [ReplaceEntries ?es ?st] =>
    pose proof (ReplaceEntries_hs es st) as Hd2; destruct (ReplaceEntries es st) as [[e|] st2] end; cbn in Hd2.
  { apply vote_frame_demote; try done. unfold disk_hs; cbn. by rewrite Hd2, Hd1. }
  match goal with |- context [saveHardStateLocked ?c ?m] =>
    pose proof (vf_save c m) as (Hf & _); destruct (saveHardStateLocked c m) as [[e|] n3] end; cbn in Hf.
  all: assert (vote_frame n n3) as Hf3
    by (etrans; [|exact Hf]; apply vote_frame_quiet; try done; unfold disk_hs; cbn; by rewrite Hd2, Hd1).
  - etrans; [exact Hf3|]. by apply vote_frame_demote.
  - etrans; [exact Hf3|]. cbn. case_decide; vf_quiet.
Qed.

Lemma vf_install_final req body n : vote_frame n (HandleInstallSnapshot_final req body n).2.
Proof.
  unfold HandleInstallSnapshot_final. destruct (match body with [] => _ | _ => _ end); [|vf_quiet].
  pose proof (vf_isGuards req n) as Hg.
  destruct (isGuards req n) as [[r|[]] n1]; (etrans; [exact Hg|]); [vf_quiet|]. cbn.
  destruct (pendingSnapshot n1); [|done]. case_decide; [|done]. apply vf_isInstall.
Qed.

(** One entry appended to the WAL and to the log of a leader. *)
Lemma vf_append_store es n n' :
  n'.(params) = n.(params) → mem_hs n' = mem_hs n → n'.(role) = n.(role) →
  n'.(store) = (AppendEntries es n.(store)).2 → vote_frame n n'.
Proof.
  intros Hp Hm Hr Hs. apply vote_frame_quiet; try done. unfold disk_hs. by rewrite Hs, AppendEntries_hs.
Qed.

Lemma vf_proposeAppend c n : vote_frame n (proposeAppend c n).2.
Proof.
  unfold proposeAppend. destruct (stopped n); [done|]. destruct (storageFatal n); [done|].
  case_decide; [done|].
  match goal with |- context [AppendEntries ?es ?st] =>
    destruct (AppendEntries es st) as [[e|] st1] eqn:E end.
  - etrans; [|apply vf_failStorage]. eapply vf_append_store; try done. by rewrite E.
  - etrans; [|apply vf_advanceCommit]. eapply vf_append_store; try done. by rewrite E.
Qed.

Lemma vf_removeWaiter i w n : vote_frame n (removeWaiter i w n).
Proof. unfold removeWaiter. case_decide; vf_quiet. Qed.

Lemma vf_nrun op n : is_election op = false → vote_frame n (nrun op n).
Proof.
  destruct op; intros Hop; try discriminate Hop; cbn [nrun].
  - vf_quiet.
  - unfold Stop. destruct (stopped n); [done|vf_quiet].
  - apply vf_HandleAppendEntries.
  - apply vf_install_recv.
  - apply vf_install_final.
  - unfold Propose_start. destruct ctx; [done|]. pose proof (vf_proposeAppend command n) as Hp.
    destruct (proposeAppend command n) as [[?|?] n1]; [|done]. etrans; [exact Hp|vf_quiet].
  - unfold Propose_select.
    assert (∀ c, vote_frame n (match ctx with None => n | Some _ => removeWaiter i w n end : Node) ∧
      vote_frame n (with_chans c (match ctx with None => n | Some _ => removeWaiter i w n end))) as Hr.
    { intros c. destruct ctx; [|split; [done|vf_quiet]].
      split; [apply vf_removeWaiter|]. etrans; [apply vf_removeWaiter|vf_quiet]. }
    destruct (chans n !! w) as [[[|o rest] [] m]|]; try exact (proj1 (Hr ∅)); try apply Hr;
      destruct ctx; try done; apply vf_removeWaiter.
  - unfold applyReady_next. repeat case_decide; try done; [vf_quiet|]. by destruct (entryAtLocked _ _).
  - unfold applyReady_apply. destruct (Apply _ _). vf_quiet.
  - unfold applyReady_finish. case_decide; [done|vf_quiet].
  - unfold persistSnapshot_save. pose proof (SaveSnapshot_hs sn n.(store)) as Hd.
    destruct (SaveSnapshot _ _) as [[e|] st]; apply vote_frame_quiet; try done;
      unfold disk_hs; cbn in *; by rewrite Hd.
  - unfold persistSnapshot_finish. case_decide; [done|].
    match goal with |- context [ReplaceEntries ?es ?st] =>
      pose proof (ReplaceEntries_hs es st) as Hd; destruct (ReplaceEntries es st) as [[e|] st1] end;
      apply vote_frame_quiet; try done; unfold disk_hs; cbn in *; by rewrite Hd.
  - unfold acquirePeerReplication_poll. destruct ctx; [done|]. case_decide; [done|].
    destruct (map_bool _ _); [done|vf_quiet].
  - vf_quiet.
  - unfold replicateAllOnce_begin. destruct (stopped n); [done|]. case_decide; [done|vf_quiet].
  - unfold replicateToPeer_prepare. case_decide; [done|].
    destruct (decide (map_N _ _ = 0%N)); case_decide; try destruct (termAtLocked _ _); vf_quiet.
  - unfold replicateToPeer_snapshotDone. case_decide; [vf_quiet|done].
  - unfold replicateToPeer_response. case_decide; [apply vf_stepDown|]. case_decide; [done|].
    destruct (aer_Success resp).
    + etrans; [|apply vf_advanceCommit]. vf_quiet.
    + case_decide; [vf_quiet|done].
  - unfold sendSnapshot_check. case_decide; [apply vf_stepDown|]. by case_decide.
Qed.

(** ** The sections of an election *)

(** A vote that is granted is durable, and it is the first of its term or
    repeats the one already cast. *)
Lemma vote_granted req n resp n' :
  HandleRequestVote req n = (resp, n') →
  vote_frame n n' ∧
  (resp.(rvr_VoteGranted) = true →
     mem_hs n' = (req.(rv_Term), req.(rv_CandidateID)) ∧
     disk_hs n'.(store) = (req.(rv_Term), req.(rv_CandidateID)) ∧
     ((n.(currentTerm) < req.(rv_Term))%N ∨
      n.(currentTerm) = req.(rv_Term) ∧ (n.(votedFor) = "" ∨ n.(votedFor) = req.(rv_CandidateID)))).
Proof.
  unfold HandleRequestVote. case_decide; [by intros; simplify_eq; split|].
  case_decide; [by intros; simplify_eq; split|]. case_decide as Hlow; [by intros; simplify_eq; split|].
  destruct (if decide _ then _ else _) as [e1 n1] eqn:E1.
  assert (vote_frame n n1 ∧ n1.(currentTerm) = rv_Term req ∧
    ((n.(currentTerm) < rv_Term req)%N ∨ n.(currentTerm) = rv_Term req ∧ n1.(votedFor) = n.(votedFor)))
    as (Hf1 & Ht1 & Hv1).
  { case_decide.
    - apply vf_becomeFollower in E1 as (? & _ & ? & _). split_and!; [done|lia|by left].
    - simplify_eq. split_and!; [done|lia|]. right. split; [lia|done]. }
  clear E1. destruct e1 as [e1|]; [by intros; simplify_eq; split|].
  case_decide as Hcan; [|by intros; simplify_eq; split].
  destruct (persistHardStateLocked _) as [e2 n2] eqn:E2.
  apply vf_persist in E2 as (Hf2 & Hr2 & Hm2 & Hd2).
  set (nv := with_votedFor _ n1) in *. intros E.
  assert (vote_frame n nv) as Hfv.
  { etrans; [exact Hf1|]. subst nv. split; cbn; auto.
    unfold hs_le, mem_hs; cbn. right. split; [done|]. tauto. }
  unfold mem_hs in Hm2. inversion Hm2 as [[Hm2t Hm2v]]. subst nv. cbn in *.
  destruct e2 as [e2|]; simplify_eq.
  - split; [|done]. etrans; [exact Hf1|]. destruct Hf2 as [Hp2 _ Hdisk2 _]. cbn in *.
    split; cbn.
    + done.
    + unfold mem_hs; cbn. rewrite Hm2t. reflexivity.
    + destruct Hdisk2 as [->|Hd]; [by left|]. right. etrans; [|exact Hd].
      unfold hs_le, mem_hs; cbn. right. split; [done|]. tauto.
    + intros Hr. split; [congruence|done].
  - split; [etrans; [exact Hfv|]; etrans; [exact Hf2|vf_quiet]|]. intros _.
    unfold mem_hs; cbn. rewrite Hm2t, Hm2v, Ht1. split_and!; [done| |].
    + rewrite Hd2 by done. unfold mem_hs; cbn. by rewrite Ht1.
    + destruct Hv1 as [?|[? Hv1]]; [by left|]. right. rewrite <- Hv1. split; [done|]. tauto.
Qed.

Lemma vote_startElection n r n' :
  (n.(currentTerm) < two64 - 1)%N →
  startElection n = (r, n') →
  match r with
  | None => vote_frame n n'
  | Some (term, req) =>
      term = (n.(currentTerm) + 1)%N ∧ rv_Term req = term ∧ rv_CandidateID req = n.(params).(id) ∧
      n'.(params) = n.(params) ∧ n'.(role) = Candidate ∧
      mem_hs n' = (term, n.(params).(id)) ∧ disk_hs n'.(store) = (term, n.(params).(id))
  end.
Proof.
  intros Hmax. unfold startElection. case_decide as Hg; [by intros; simplify_eq|].
  destruct (persistHardStateLocked _) as [e n1] eqn:E.
  apply vf_persist in E as (Hf & Hr & Hm & Hd). unfold mem_hs in Hm. cbn in Hm, Hr.
  inversion Hm as [[Hmt Hmv]]. destruct Hf as [Hp _ Hdisk _]. cbn in Hp, Hdisk.
  usimp. destruct e as [e|]; intros; simplify_eq; cbn.
  - split; cbn; [done|reflexivity| |tauto].
    destruct Hdisk as [->|Hdisk]; [by left|]. right. etrans; [|exact Hdisk].
    left. cbn. usimp. lia.
  - rewrite Hp. split_and!; try done.
    + by usimp.
    + unfold mem_hs. rewrite Hmt. by usimp.
    + rewrite Hd by done. unfold mem_hs; cbn. by rewrite Hmv.
Qed.

Lemma vote_becomeLeader term n b n' :
  becomeLeader term n = (b, n') →
  n'.(params) = n.(params) ∧ mem_hs n' = mem_hs n ∧
  (disk_hs n'.(store) = disk_hs n.(store) ∨ hs_le (mem_hs n) (disk_hs n'.(store))) ∧
  (n'.(role) = Leader → n.(role) = Leader ∨ n'.(currentTerm) = term).
Proof.
  unfold becomeLeader. case_decide as Hg; [by intros; simplify_eq; auto|].
  match goal with |- context [AppendEntries ?es ?st] =>
    pose proof (AppendEntries_hs es st) as Hd; destruct (AppendEntries es st) as [[e|] st1] end;
    cbn in Hd; intros E; simplify_eq.
  - split_and!; try done. left. unfold disk_hs; cbn. by rewrite Hd.
  - match goal with |- context [advanceCommitLocked ?m] =>
      pose proof (vf_advanceCommit m) as [[Hp _ Hdisk _] Hm]; set (m1 := m) in * end.
    assert (mem_hs m1 = mem_hs n) as Hm1 by done.
    assert (disk_hs (store m1) = disk_hs (store n)) as Hd1 by (unfold disk_hs; cbn; by rewrite Hd).
    rewrite Hm, Hm1, Hp. rewrite Hm1, Hd1 in Hdisk. split_and!; try done.
    intros _. right. unfold mem_hs in Hm, Hm1. injection Hm as Hmt _. rewrite Hmt.
    cbn. destruct (decide (currentTerm n = term)); tauto.
Qed.

End frames.
