(* ===== verification/Wal.v ===== *)
(** * The file-backed store

    [internal/storage/wal.go].  A store is three files of one directory;
    every operation is a sequence of system calls, each of which may fail.
    The files are read and written through a small error monad over the
    file system; temporary files are never read, so only the renames that
    install them are visible. *)

From S2P Require Import Prelude Types GoStrings StoreIntf RaftLog.

Abbreviation bytes := (list Byte.byte).

#[global] Instance byte_eq_dec : EqDecision Byte.byte := Byte.byte_eq_dec.

(** ** Encodings

    [hash/crc32] (IEEE polynomial), bit by bit. *)
Definition crc32_bit (c : N) : N :=
  if N.testbit c 0 then N.lxor (N.shiftr c 1) 3988292384 else N.shiftr c 1.

Definition crc32_byte (c : N) (b : Byte.byte) : N :=
  Nat.iter 8 crc32_bit (N.lxor c (Byte.to_N b)).

Definition crc32 (data : bytes) : N :=
  N.lxor (foldl crc32_byte 4294967295%N data) 4294967295.

Record walLine := mkWalLine {
  wl_Type : string;
  wl_LastIncludedIndex : N;
  wl_LastIncludedTerm : N;
  wl_Index : N;
  wl_Term : N;
  wl_Command : Command;
  wl_CRC : option N }.

(** [encoding/json] on the three records the store writes.  A string of the
    model stands for the Go string with these characters as its runes, so
    every string is valid UTF-8 and survives the encoding. *)
Class StoreJson := {
  marshalLine : walLine → bytes;
  unmarshalLine : bytes → option walLine;
  marshalHardState : HardState → bytes;
  unmarshalHardState : bytes → option HardState;
  marshalSnapshot : Snapshot → bytes;
  unmarshalSnapshot : bytes → option Snapshot }.

(** The bytes of white space; a line of the WAL has none at its ends, and
    no line feed: an encoded record is one brace-delimited object. *)
Definition is_space (b : Byte.byte) : bool :=
  match b with Byte.x09 | Byte.x0a | Byte.x0b | Byte.x0c | Byte.x0d | Byte.x20 => true | _ => false end.

Class StoreJsonLaws `{StoreJson} := {
  unmarshal_line : ∀ l, unmarshalLine (marshalLine l) = Some l;
  line_delimited : ∀ l, ∃ b mid b', marshalLine l = b :: mid ++ [b'] ∧ is_space b = false ∧ is_space b' = false;
  line_no_newline : ∀ l, Byte.x0a ∉ marshalLine l;
  unmarshal_empty : unmarshalLine [] = None;
  unmarshal_hs : ∀ hs, unmarshalHardState (marshalHardState hs) = Some hs;
  unmarshal_snapshot : ∀ sn, unmarshalSnapshot (marshalSnapshot sn) = Some sn }.

(** ** Files *)

(** What the next system call does: succeed, fail without effect, fail as
    unsupported ([EINVAL], [ENOTSUP]), or, for a write, fail after [k] bytes. *)
Inductive fault := NoFault | Fail | FailUnsupported | FailAfter (k : nat).

Record FileStore := mkFileStore {
  f_hardState : option bytes;
  f_wal : option bytes;
  f_snapshot : option bytes;
  f_faults : list fault }.

Definition with_wal (v : option bytes) (s : FileStore) : FileStore :=
  mkFileStore s.(f_hardState) v s.(f_snapshot) s.(f_faults).
Definition with_faults (v : list fault) (s : FileStore) : FileStore :=
  mkFileStore s.(f_hardState) s.(f_wal) s.(f_snapshot) v.

(** The error monad over the file system. *)
Definition M (A : Type) : Type := FileStore → (A + error) * FileStore.

#[global] Instance M_ret : MRet M := λ A a s, (inl a, s).
#[global] Instance M_bind : MBind M := λ A B f m s,
  match m s with
  | (inl a, s) => f a s
  | (inr e, s) => (inr e, s)
  end.

Definition throw {A} (e : error) : M A := λ s, (inr e, s).

(** [fmt.Errorf("msg: %w", err)] around the error of a computation. *)
Definition wrapping {A} (msg : string) (m : M A) : M A := λ s,
  match m s with
  | (inl a, s) => (inl a, s)
  | (inr e, s) => (inr (WrapError msg e), s)
  end.

(** A system call that only succeeds or fails. *)
Definition syscall : M unit := λ s,
  match s.(f_faults) with
  | [] | NoFault :: _ => (inl tt, with_faults (tail s.(f_faults)) s)
  | _ => (inr (ErrText "input/output error"), with_faults (tail s.(f_faults)) s)
  end.

(** The three files. *)
Inductive path := PHardState | PWal | PSnapshot.

Definition content (p : path) (s : FileStore) : option bytes :=
  match p with PHardState => s.(f_hardState) | PWal => s.(f_wal) | PSnapshot => s.(f_snapshot) end.

Definition set_content (p : path) (v : option bytes) (s : FileStore) : FileStore :=
  match p with
  | PHardState => mkFileStore v s.(f_wal) s.(f_snapshot) s.(f_faults)
  | PWal => mkFileStore s.(f_hardState) v s.(f_snapshot) s.(f_faults)
  | PSnapshot => mkFileStore s.(f_hardState) s.(f_wal) v s.(f_faults)
  end.

Definition get_content (p : path) : M (option bytes) := λ s, (inl (content p s), s).
Definition put_content (p : path) (v : option bytes) : M unit := λ s, (inl tt, set_content p v s).

(** [os.ReadFile]: [None] is [os.ErrNotExist]. *)
Definition readFile (p : path) : M (option bytes) := syscall ≫= λ _, get_content p.

(** [file.Write] on the WAL opened for appending: a failed write may have
    written a part of the data. *)
Definition appendBytes (data : bytes) : M unit := λ s,
  let put k s := with_wal (Some (default [] s.(f_wal) ++ take k data)) s in
  match s.(f_faults) with
  | [] | NoFault :: _ => (inl tt, put (length data) (with_faults (tail s.(f_faults)) s))
  | (Fail | FailUnsupported) :: fs => (inr (ErrText "input/output error"), with_faults fs s)
  | FailAfter k :: fs => (inr (ErrText "input/output error"), put k (with_faults fs s))
  end.

(** [os.Rename(tmp, path)] with the content of the temporary file. *)
Definition rename (data : bytes) (p : path) : M unit :=
  syscall ≫= λ _, put_content p (Some data).

(** [file.Sync()] and [file.Close()]. *)
Definition syncClose : M unit := syscall ≫= λ _, syscall.

(** [syncDir]: open, sync, close; a sync that the file system does not
    support counts as done. *)
Definition syncTolerant : M unit := λ s,
  match s.(f_faults) with
  | FailUnsupported :: fs => (inl tt, with_faults fs s)
  | _ => syncClose s
  end.

Definition syncDir : M unit := syscall ≫= λ _, syncTolerant.

(** [Open]: make the directory; the three paths are those of [path]. *)
Definition Open (s : FileStore) : (FileStore + error) * FileStore :=
  match syscall s with
  | (inl _, s) => (inl s, s)
  | (inr e, s) => (inr e, s)
  end.

Section store.
Context `{StoreJson}.

(** ** Lines of the WAL *)

Definition walBaseRecordType : string := "base".

Definition walChecksum (line : walLine) : N :=
  crc32 (marshalLine (mkWalLine line.(wl_Type) line.(wl_LastIncludedIndex)
    line.(wl_LastIncludedTerm) line.(wl_Index) line.(wl_Term) line.(wl_Command) None)).

(** [encodeWALLine]: the bytes [enc.Encode] writes, line feed included. *)
Definition encodeWALLine (line : walLine) : bytes :=
  marshalLine (mkWalLine line.(wl_Type) line.(wl_LastIncludedIndex)
    line.(wl_LastIncludedTerm) line.(wl_Index) line.(wl_Term) line.(wl_Command)
    (Some (walChecksum line))) ++ [Byte.x0a].

Definition encodeWALBase (baseIndex baseTerm : N) : bytes :=
  encodeWALLine (mkWalLine walBaseRecordType baseIndex baseTerm 0 0 zeroCommand None).

Definition encodeWALEntry (entry : LogEntry) : bytes :=
  encodeWALLine (mkWalLine "" 0 0 entry.(Index) entry.(Term) entry.(EntryCommand) None).

(** A decoded line: [inl] is a base record. *)
Definition decodeWALLine (line : bytes) : (N * N + LogEntry) + error :=
  match unmarshalLine line with
  | None => inr (ErrText "invalid JSON")
  | Some raw =>
      if match raw.(wl_CRC) with Some sum => bool_decide (walChecksum raw ≠ sum) | None => false end then
        inr (ErrText "checksum mismatch")
      else if decide (raw.(wl_Type) = walBaseRecordType) then
        inl (inl (raw.(wl_LastIncludedIndex), raw.(wl_LastIncludedTerm)))
      else if decide (raw.(wl_Type) = "") then
        inl (inr (mkLogEntry raw.(wl_Index) raw.(wl_Term) raw.(wl_Command)))
      else inr (ErrText ("unknown WAL record type " +:+ quoted raw.(wl_Type)))
  end.

(** ** Reading the WAL *)

Record walData := mkWalData {
  hasBase : bool;
  baseIndex : N;
  baseTerm : N;
  wal_entries : list LogEntry }.

Definition emptyWal : walData := mkWalData false 0 0 [].

(** The complete lines of the file, without their line feeds, and the bytes
    after the last line feed. *)
Fixpoint splitLines (data : bytes) : list bytes * bytes :=
  match data with
  | [] => ([], [])
  | b :: data =>
      let '(ls, tl) := splitLines data in
      if decide (b = Byte.x0a) then ([] :: ls, tl)
      else match ls with
           | [] => ([], b :: tl)
           | l :: ls => ((b :: l) :: ls, tl)
           end
  end.

Fixpoint trimLeft (line : bytes) : bytes :=
  match line with
  | b :: rest => if is_space b then trimLeft rest else line
  | [] => []
  end.

(** [bytes.TrimSpace], for ASCII white space. *)
Definition trimSpace (line : bytes) : bytes := reverse (trimLeft (reverse (trimLeft line))).

(** One turn of the loop of [readWAL] on the complete line at [offset]. *)
Definition readLine (offset : nat) (wal : walData) (line : bytes) : walData + error :=
  let line := trimSpace line in
  let at_ := "decode WAL entry at byte offset " +:+ pretty (N.of_nat offset) in
  if decide (line = []) then inl wal
  else match decodeWALLine line with
  | inr e => inr (WrapError at_ e)
  | inl (inl (bi, bt)) =>
      if decide (wal.(hasBase) = true ∨ 0 < length wal.(wal_entries)) then
        inr (ErrText (at_ +:+ ": base record must be first"))
      else inl (mkWalData true bi bt wal.(wal_entries))
  | inl (inr entry) =>
      if decide (entry.(Index) = 0%N) then inr (ErrText (at_ +:+ ": zero log index"))
      else if decide (wal.(hasBase) = true ∧ (entry.(Index) ≤ wal.(baseIndex))%N) then
        inr (ErrText (at_ +:+ ": log index " +:+ pretty entry.(Index) +:+ " is not after base index " +:+
                      pretty wal.(baseIndex)))
      else if decide (wal.(wal_entries) = [] ∧ wal.(hasBase) = true ∧ entry.(Index) ≠ wal.(baseIndex) +u 1) then
        inr (ErrText (at_ +:+ ": non-contiguous first log index " +:+ pretty entry.(Index) +:+ " after base " +:+
                      pretty wal.(baseIndex)))
      else match last wal.(wal_entries) with
      | Some prev =>
          if decide (entry.(Index) ≠ prev.(Index) +u 1) then
            inr (ErrText (at_ +:+ ": non-contiguous log index " +:+ pretty entry.(Index) +:+ " after " +:+
                          pretty prev.(Index)))
          else inl (mkWalData wal.(hasBase) wal.(baseIndex) wal.(baseTerm) (wal.(wal_entries) ++ [entry]))
      | None => inl (mkWalData wal.(hasBase) wal.(baseIndex) wal.(baseTerm) (wal.(wal_entries) ++ [entry]))
      end
  end.

Fixpoint readLines (offset : nat) (wal : walData) (lines : list bytes) : walData + error :=
  match lines with
  | [] => inl wal
  | line :: lines =>
      match readLine offset wal line with
      | inl wal => readLines (offset + length line + 1) wal lines
      | inr e => inr e
      end
  end.

(** [truncateFile]: open, truncate, sync, close, sync the directory. *)
Definition truncateFile (size : nat) : M unit :=
  syscall ≫= λ _, syscall ≫= λ _,
  get_content PWal ≫= λ data, put_content PWal (take size <$> data) ≫= λ _,
  syncClose ≫= λ _, syncDir.

(** The loop reads every complete line before it meets the partial one. *)
Definition readWAL : M walData :=
  readFile PWal ≫= λ data,
  match data with
  | None => mret emptyWal
  | Some data =>
      let '(lines, tl) := splitLines data in
      match readLines 0 emptyWal lines with
      | inr e => throw e
      | inl wal =>
          if decide (tl = []) then mret wal
          else wrapping "truncate partial WAL tail" (truncateFile (length data - length tl)) ≫= λ _, mret wal
      end
  end.

(** ** Writing *)

(** [writeWALAtomic]: open, one write per line, sync, close, rename, sync
    the directory. *)
Fixpoint tmpWrites (lines : list bytes) : M unit :=
  match lines with
  | [] => mret tt
  | _ :: lines => syscall ≫= λ _, tmpWrites lines
  end.

Definition writeWALAtomic (bi bt : N) (entries : list LogEntry) : M unit :=
  let lines := encodeWALBase bi bt :: (encodeWALEntry <$> entries) in
  syscall ≫= λ _, tmpWrites lines ≫= λ _, syncClose ≫= λ _,
  rename (concat lines) PWal ≫= λ _, syncDir.

(** [writeJSONAtomic]: open, write, sync, close, rename, sync the directory. *)
Definition writeJSONAtomic (p : path) (data : bytes) : M unit :=
  syscall ≫= λ _, syscall ≫= λ _, syncClose ≫= λ _, rename data p ≫= λ _, syncDir.

(** [readJSONFile]: [inl None] when the file does not exist. *)
Definition readJSONFile {A} (unmarshal : bytes → option A) (p : path) : M (option A) :=
  readFile p ≫= λ data,
  match data with
  | None => mret None
  | Some data => match unmarshal data with
                 | Some a => mret (Some a)
                 | None => throw (ErrText "invalid JSON")
                 end
  end.

Definition snapshotBaseLocked : M (N * N) :=
  readJSONFile unmarshalSnapshot PSnapshot ≫= λ snap,
  mret match snap with
       | None => (0, 0)%N
       | Some snap => (snap.(LastIncludedIndex), snap.(LastIncludedTerm))
       end.

(** ** Reconciling the WAL with the snapshot *)

Definition entriesAfter (entries : list LogEntry) (index : N) : list LogEntry * bool :=
  let out := filter (λ e, index < e.(Index))%N entries in
  (out, bool_decide (length out ≠ length entries)).

Fixpoint hasSnapshotBoundaryEntry (entries : list LogEntry) (snap : Snapshot) : bool :=
  match entries with
  | [] => bool_decide (snap.(LastIncludedIndex) = 0%N ∧ snap.(LastIncludedTerm) = 0%N)
  | entry :: entries =>
      if decide (entry.(Index) = snap.(LastIncludedIndex))
      then bool_decide (entry.(Term) = snap.(LastIncludedTerm))
      else hasSnapshotBoundaryEntry entries snap
  end.

Definition reconcileWALWithSnapshot (wal : walData) (snap : Snapshot) : list LogEntry * bool :=
  if decide (wal.(hasBase) = true ∧ wal.(baseIndex) = snap.(LastIncludedIndex) ∧
             wal.(baseTerm) = snap.(LastIncludedTerm)) then
    entriesAfter wal.(wal_entries) snap.(LastIncludedIndex)
  else if hasSnapshotBoundaryEntry wal.(wal_entries) snap then
    ((entriesAfter wal.(wal_entries) snap.(LastIncludedIndex)).1, true)
  else if decide (wal.(wal_entries) = [] ∧ wal.(hasBase) = false) then ([], false)
  else ([], true).

(** ** The operations of the store *)

Definition wal_Load : M (HardState * list LogEntry * Snapshot) :=
  readJSONFile unmarshalHardState PHardState ≫= λ hs,
  readJSONFile unmarshalSnapshot PSnapshot ≫= λ snap,
  let hs := default zeroHardState hs in
  let snap := default zeroSnapshot snap in
  readWAL ≫= λ wal,
  if decide (0 < snap.(LastIncludedIndex))%N then
    let '(entries, rewrite) := reconcileWALWithSnapshot wal snap in
    if (rewrite : bool) then
      writeWALAtomic snap.(LastIncludedIndex) snap.(LastIncludedTerm) entries ≫= λ _,
      mret (hs, entries, snap)
    else mret (hs, entries, snap)
  else if decide (wal.(hasBase) = true ∧ (0 < wal.(baseIndex))%N) then
    throw (ErrText ("WAL is based at snapshot index " +:+ pretty wal.(baseIndex) +:+ " but snapshot is missing"))
  else mret (hs, wal.(wal_entries), snap).

Definition wal_SaveHardState (hs : HardState) : M unit := writeJSONAtomic PHardState (marshalHardState hs).

Definition wal_SaveSnapshot (snap : Snapshot) : M unit := writeJSONAtomic PSnapshot (marshalSnapshot snap).

Fixpoint appendLines (lines : list bytes) : M unit :=
  match lines with
  | [] => mret tt
  | line :: lines => appendBytes line ≫= λ _, appendLines lines
  end.

Definition wal_AppendEntries (entries : list LogEntry) : M unit :=
  match entries with
  | [] => mret tt
  | _ =>
      syscall ≫= λ _, get_content PWal ≫= λ data,
      let created := match data with None => true | Some d => bool_decide (d = []) end in
      (if (created : bool) then snapshotBaseLocked else mret (0, 0)%N) ≫= λ '(bi, bt),
      syscall ≫= λ _, put_content PWal (Some (default [] data)) ≫= λ _,
      appendLines ((if created then [encodeWALBase bi bt] else []) ++ (encodeWALEntry <$> entries)) ≫= λ _,
      syncClose ≫= λ _, if (created : bool) then syncDir else mret tt
  end.

Definition wal_ReplaceEntries (entries : list LogEntry) : M unit :=
  snapshotBaseLocked ≫= λ '(bi, bt), writeWALAtomic bi bt entries.

(** The store as an instance of the interface of the raft package. *)
Definition err_of (r : (unit + error) * FileStore) : option error * FileStore :=
  match r with
  | (inl _, s) => (None, s)
  | (inr e, s) => (Some e, s)
  end.

#[global] Instance FileStore_store : Store FileStore := {|
  Load := wal_Load;
  SaveHardState hs s := err_of (wal_SaveHardState hs s);
  StoreIntf.AppendEntries es s := err_of (wal_AppendEntries es s);
  ReplaceEntries es s := err_of (wal_ReplaceEntries es s);
  SaveSnapshot sn s := err_of (wal_SaveSnapshot sn s)
|}.

End store.
