(* ===== verification/Json.v ===== *)
(** * The JSON the program writes and reads

    [encoding/json] on the records of the module.  The fragment modelled has
    objects, arrays, strings, natural numbers, booleans and null, as these
    records use; a document outside the fragment is refused.  A string of the model
    stands for the Go string whose runes are its characters, so its bytes are
    UTF-8.  Decoding a struct takes fields by their exact names, the last of
    several fields with one name wins, unknown fields are skipped and null
    leaves a field alone; a number is not checked against the range of its
    field. *)

From stdpp Require Import sorting.
From Stdlib Require Import Decimal DecimalN.
From S2P Require Import Prelude Types Node Wal.

Inductive json :=
  | JNull
  | JBool (b : bool)
  | JNum (n : N)
  | JStr (s : string)
  | JArr (items : list json)
  | JObj (fields : list (string * json)).

(** ** Printing *)

(** The escapes of [encoding/json]: quote, backslash, control characters and
    the HTML characters; other characters as UTF-8. *)
Definition hexDigit (n : N) : Byte.byte :=
  default Byte.x30 (Byte.of_N (if decide (n < 10)%N then 48 + n else 87 + n)%N).

Definition byteOf (n : N) : Byte.byte := default Byte.x00 (Byte.of_N n).

Definition printChar (a : Ascii.ascii) : bytes :=
  let c := Ascii.N_of_ascii a in
  if decide (c = 34)%N then [Byte.x5c; Byte.x22]
  else if decide (c = 92)%N then [Byte.x5c; Byte.x5c]
  else if decide (c = 8)%N then [Byte.x5c; Byte.x62]
  else if decide (c = 9)%N then [Byte.x5c; Byte.x74]
  else if decide (c = 10)%N then [Byte.x5c; Byte.x6e]
  else if decide (c = 12)%N then [Byte.x5c; Byte.x66]
  else if decide (c = 13)%N then [Byte.x5c; Byte.x72]
  else if decide (c < 32 ∨ c = 60 ∨ c = 62 ∨ c = 38)%N then
    [Byte.x5c; Byte.x75; Byte.x30; Byte.x30; hexDigit (c / 16); hexDigit (c mod 16)]
  else if decide (c < 128)%N then [byteOf c]
  else [byteOf (192 + c / 64); byteOf (128 + c mod 64)].

Fixpoint printChars (s : string) : bytes :=
  match s with
  | EmptyString => []
  | String a s => printChar a ++ printChars s
  end.

Definition printString (s : string) : bytes := Byte.x22 :: printChars s ++ [Byte.x22].

Fixpoint printDigits (d : Decimal.uint) : bytes :=
  match d with
  | Nil => []
  | D0 d => Byte.x30 :: printDigits d | D1 d => Byte.x31 :: printDigits d
  | D2 d => Byte.x32 :: printDigits d | D3 d => Byte.x33 :: printDigits d
  | D4 d => Byte.x34 :: printDigits d | D5 d => Byte.x35 :: printDigits d
  | D6 d => Byte.x36 :: printDigits d | D7 d => Byte.x37 :: printDigits d
  | D8 d => Byte.x38 :: printDigits d | D9 d => Byte.x39 :: printDigits d
  end.

Fixpoint print (v : json) : bytes :=
  match v with
  | JNull => [Byte.x6e; Byte.x75; Byte.x6c; Byte.x6c]
  | JBool true => [Byte.x74; Byte.x72; Byte.x75; Byte.x65]
  | JBool false => [Byte.x66; Byte.x61; Byte.x6c; Byte.x73; Byte.x65]
  | JNum n => printDigits (N.to_uint n)
  | JStr s => printString s
  | JArr items =>
      Byte.x5b ::
      (fix elements (items : list json) : bytes :=
         match items with
         | [] => [Byte.x5d]
         | [v] => print v ++ [Byte.x5d]
         | v :: items => print v ++ Byte.x2c :: elements items
         end) items
  | JObj fields =>
      Byte.x7b ::
      (fix members (fields : list (string * json)) : bytes :=
         match fields with
         | [] => [Byte.x7d]
         | [(k, v)] => printString k ++ Byte.x3a :: print v ++ [Byte.x7d]
         | (k, v) :: fields => printString k ++ Byte.x3a :: print v ++ Byte.x2c :: members fields
         end) fields
  end.

(** ** Parsing *)

Definition isWs (b : Byte.byte) : bool :=
  match b with Byte.x20 | Byte.x09 | Byte.x0a | Byte.x0d => true | _ => false end.

Fixpoint skipWs (l : bytes) : bytes :=
  match l with
  | b :: rest => if isWs b then skipWs rest else l
  | [] => []
  end.

Definition hexValue (b : Byte.byte) : option N :=
  let n := Byte.to_N b in
  if decide (48 ≤ n ≤ 57)%N then Some (n - 48)%N
  else if decide (97 ≤ n ≤ 102)%N then Some (n - 87)%N
  else if decide (65 ≤ n ≤ 70)%N then Some (n - 55)%N
  else None.

Definition consChar (c : N) (r : option (string * bytes)) : option (string * bytes) :=
  '(s, rest) ← r; Some (String (Ascii.ascii_of_N c) s, rest).

(** The characters of a string after the opening quote. *)
Fixpoint parseChars (l : bytes) : option (string * bytes) :=
  match l with
  | [] => None
  | Byte.x22 :: rest => Some (EmptyString, rest)
  | Byte.x5c :: rest =>
      match rest with
      | Byte.x22 :: rest => consChar 34 (parseChars rest)
      | Byte.x5c :: rest => consChar 92 (parseChars rest)
      | Byte.x2f :: rest => consChar 47 (parseChars rest)
      | Byte.x62 :: rest => consChar 8 (parseChars rest)
      | Byte.x66 :: rest => consChar 12 (parseChars rest)
      | Byte.x6e :: rest => consChar 10 (parseChars rest)
      | Byte.x72 :: rest => consChar 13 (parseChars rest)
      | Byte.x74 :: rest => consChar 9 (parseChars rest)
      | Byte.x75 :: Byte.x30 :: Byte.x30 :: h1 :: h2 :: rest =>
          match hexValue h1, hexValue h2 with
          | Some a, Some b => consChar (16 * a + b) (parseChars rest)
          | _, _ => None
          end
      | _ => None
      end
  | b :: rest =>
      let n := Byte.to_N b in
      if decide (n < 32)%N then None
      else if decide (n < 128)%N then consChar n (parseChars rest)
      else if decide (n = 194 ∨ n = 195)%N then
        match rest with
        | b2 :: rest =>
            let m := Byte.to_N b2 in
            if decide (128 ≤ m < 192)%N then consChar (64 * (n - 192) + (m - 128)) (parseChars rest)
            else None
        | [] => None
        end
      else None
  end.

Fixpoint parseDigits (l : bytes) : Decimal.uint * bytes :=
  match l with
  | Byte.x30 :: l => let '(d, r) := parseDigits l in (D0 d, r)
  | Byte.x31 :: l => let '(d, r) := parseDigits l in (D1 d, r)
  | Byte.x32 :: l => let '(d, r) := parseDigits l in (D2 d, r)
  | Byte.x33 :: l => let '(d, r) := parseDigits l in (D3 d, r)
  | Byte.x34 :: l => let '(d, r) := parseDigits l in (D4 d, r)
  | Byte.x35 :: l => let '(d, r) := parseDigits l in (D5 d, r)
  | Byte.x36 :: l => let '(d, r) := parseDigits l in (D6 d, r)
  | Byte.x37 :: l => let '(d, r) := parseDigits l in (D7 d, r)
  | Byte.x38 :: l => let '(d, r) := parseDigits l in (D8 d, r)
  | Byte.x39 :: l => let '(d, r) := parseDigits l in (D9 d, r)
  | _ => (Nil, l)
  end.

#[global] Instance uint_eq_dec : EqDecision Decimal.uint.
Proof. solve_decision. Defined.

(** A number without a sign, leading zeros, fraction or exponent. *)
Definition parseNum (l : bytes) : option (json * bytes) :=
  let '(d, rest) := parseDigits l in
  if decide (d ≠ Nil ∧ unorm d = d) then Some (JNum (N.of_uint d), rest) else None.

Fixpoint parseValue (fuel : nat) (l : bytes) : option (json * bytes) :=
  match fuel with
  | O => None
  | S fuel =>
      match skipWs l with
      | Byte.x6e :: Byte.x75 :: Byte.x6c :: Byte.x6c :: rest => Some (JNull, rest)
      | Byte.x74 :: Byte.x72 :: Byte.x75 :: Byte.x65 :: rest => Some (JBool true, rest)
      | Byte.x66 :: Byte.x61 :: Byte.x6c :: Byte.x73 :: Byte.x65 :: rest => Some (JBool false, rest)
      | Byte.x22 :: rest => '(s, rest) ← parseChars rest; Some (JStr s, rest)
      | Byte.x7b :: rest =>
          match skipWs rest with
          | Byte.x7d :: rest => Some (JObj [], rest)
          | rest => '(fields, rest) ← parseMembers fuel rest; Some (JObj fields, rest)
          end
      | Byte.x5b :: rest =>
          match skipWs rest with
          | Byte.x5d :: rest => Some (JArr [], rest)
          | rest => '(items, rest) ← parseElements fuel rest; Some (JArr items, rest)
          end
      | l => parseNum l
      end
  end
with parseElements (fuel : nat) (l : bytes) : option (list json * bytes) :=
  match fuel with
  | O => None
  | S fuel =>
      '(v, rest) ← parseValue fuel l;
      match skipWs rest with
      | Byte.x5d :: rest => Some ([v], rest)
      | Byte.x2c :: rest => '(items, rest) ← parseElements fuel rest; Some (v :: items, rest)
      | _ => None
      end
  end
with parseMembers (fuel : nat) (l : bytes) : option (list (string * json) * bytes) :=
  match fuel with
  | O => None
  | S fuel =>
      match skipWs l with
      | Byte.x22 :: rest =>
          '(k, rest) ← parseChars rest;
          match skipWs rest with
          | Byte.x3a :: rest =>
              '(v, rest) ← parseValue fuel rest;
              match skipWs rest with
              | Byte.x7d :: rest => Some ([(k, v)], rest)
              | Byte.x2c :: rest => '(fields, rest) ← parseMembers fuel rest; Some ((k, v) :: fields, rest)
              | _ => None
              end
          | _ => None
          end
      | _ => None
      end
  end.

(** [json.Unmarshal] reads one value and nothing else; a document nests and
    repeats less often than it has bytes. *)
Definition parse (l : bytes) : option json :=
  '(v, rest) ← parseValue (length l) l;
  match skipWs rest with [] => Some v | _ => None end.

(** ** Records

    Decoding folds over the fields of an object. *)
Definition decodeFields {A} (step : string → json → A → option A) (fields : list (string * json)) (a : A)
    : option A :=
  foldl (λ acc kv, acc ≫= step kv.1 kv.2) (Some a) fields.

Definition setStr (v : json) (cur : string) : option string :=
  match v with JStr s => Some s | JNull => Some cur | _ => None end.
Definition setNum (v : json) (cur : N) : option N :=
  match v with JNum n => Some n | JNull => Some cur | _ => None end.

(** [omitempty] *)
Definition optStr (k s : string) : list (string * json) := if decide (s = "") then [] else [(k, JStr s)].
Definition optNum (k : string) (n : N) : list (string * json) := if decide (n = 0%N) then [] else [(k, JNum n)].

Definition commandFields (c : Command) : list (string * json) :=
  ("op", JStr c.(Op)) :: ("key", JStr c.(Key)) :: optStr "value" c.(Value) ++ optStr "expected" c.(Expected).

Definition commandStep (k : string) (v : json) (c : Command) : option Command :=
  if decide (k = "op") then s ← setStr v c.(Op); Some (mkCommand s c.(Key) c.(Value) c.(Expected))
  else if decide (k = "key") then s ← setStr v c.(Key); Some (mkCommand c.(Op) s c.(Value) c.(Expected))
  else if decide (k = "value") then s ← setStr v c.(Value); Some (mkCommand c.(Op) c.(Key) s c.(Expected))
  else if decide (k = "expected") then s ← setStr v c.(Expected); Some (mkCommand c.(Op) c.(Key) c.(Value) s)
  else Some c.

Definition zeroLine : walLine := mkWalLine "" 0 0 0 0 zeroCommand None.

Definition lineFields (l : walLine) : list (string * json) :=
  optStr "type" l.(wl_Type) ++ optNum "last_included_index" l.(wl_LastIncludedIndex) ++
  optNum "last_included_term" l.(wl_LastIncludedTerm) ++ optNum "index" l.(wl_Index) ++
  optNum "term" l.(wl_Term) ++ [("command", JObj (commandFields l.(wl_Command)))] ++
  match l.(wl_CRC) with Some crc => [("crc", JNum crc)] | None => [] end.

Definition lineStep (k : string) (v : json) (l : walLine) : option walLine :=
  let '(mkWalLine ty li lt i t c crc) := l in
  if decide (k = "type") then s ← setStr v ty; Some (mkWalLine s li lt i t c crc)
  else if decide (k = "last_included_index") then n ← setNum v li; Some (mkWalLine ty n lt i t c crc)
  else if decide (k = "last_included_term") then n ← setNum v lt; Some (mkWalLine ty li n i t c crc)
  else if decide (k = "index") then n ← setNum v i; Some (mkWalLine ty li lt n t c crc)
  else if decide (k = "term") then n ← setNum v t; Some (mkWalLine ty li lt i n c crc)
  else if decide (k = "command") then
    match v with
    | JNull => Some l
    | JObj fields => c ← decodeFields commandStep fields c; Some (mkWalLine ty li lt i t c crc)
    | _ => None
    end
  else if decide (k = "crc") then
    match v with
    | JNull => Some (mkWalLine ty li lt i t c None)
    | JNum n => Some (mkWalLine ty li lt i t c (Some n))
    | _ => None
    end
  else Some l.

Definition hsFields (hs : HardState) : list (string * json) :=
  ("current_term", JNum hs.(CurrentTerm)) :: optStr "voted_for" hs.(VotedFor) ++
  [("commit_index", JNum hs.(CommitIndex))].

Definition hsStep (k : string) (v : json) (hs : HardState) : option HardState :=
  if decide (k = "current_term") then n ← setNum v hs.(CurrentTerm); Some (mkHardState n hs.(VotedFor) hs.(CommitIndex))
  else if decide (k = "voted_for") then s ← setStr v hs.(VotedFor); Some (mkHardState hs.(CurrentTerm) s hs.(CommitIndex))
  else if decide (k = "commit_index") then n ← setNum v hs.(CommitIndex); Some (mkHardState hs.(CurrentTerm) hs.(VotedFor) n)
  else Some hs.

(** Maps: [encoding/json] sorts the keys. *)
Definition keyLe (p q : string * string) : Prop := String.leb p.1 q.1 = true.
#[global] Instance keyLe_dec p q : Decision (keyLe p q).
Proof. unfold keyLe. apply _. Defined.

Definition mapJson (m : option (gmap string string)) : json :=
  match m with
  | None => JNull
  | Some m => JObj ((λ kv, (kv.1, JStr kv.2)) <$> merge_sort keyLe (map_to_list m))
  end.

Definition mapStep (k : string) (v : json) (m : gmap string string) : option (gmap string string) :=
  s ← setStr v ""; Some (<[k := s]> m).

Definition decodeMap (v : json) (cur : option (gmap string string)) : option (option (gmap string string)) :=
  match v with
  | JNull => Some None
  | JObj fields => m ← decodeFields mapStep fields (default ∅ cur); Some (Some m)
  | _ => None
  end.

Definition snapFields (sn : Snapshot) : list (string * json) :=
  [("last_included_index", JNum sn.(LastIncludedIndex)); ("last_included_term", JNum sn.(LastIncludedTerm));
   ("data", mapJson sn.(Data))].

Definition snapStep (k : string) (v : json) (sn : Snapshot) : option Snapshot :=
  if decide (k = "last_included_index") then
    n ← setNum v sn.(LastIncludedIndex); Some (mkSnapshot n sn.(LastIncludedTerm) sn.(Data))
  else if decide (k = "last_included_term") then
    n ← setNum v sn.(LastIncludedTerm); Some (mkSnapshot sn.(LastIncludedIndex) n sn.(Data))
  else if decide (k = "data") then
    d ← decodeMap v sn.(Data); Some (mkSnapshot sn.(LastIncludedIndex) sn.(LastIncludedTerm) d)
  else Some sn.

(** ** Byte slices

    A [[]byte] is written as a string in standard base64 with padding.  The
    line breaks that the decoder of [encoding/base64] skips are refused. *)
Definition b64Char (n : N) : Ascii.ascii :=
  Ascii.ascii_of_N
    (if decide (n < 26)%N then 65 + n else if decide (n < 52)%N then 71 + n
     else if decide (n < 62)%N then n - 4 else if decide (n = 62)%N then 43 else 47)%N.

Definition b64Val (a : Ascii.ascii) : option N :=
  let c := Ascii.N_of_ascii a in
  if decide (65 ≤ c ≤ 90)%N then Some (c - 65)%N
  else if decide (97 ≤ c ≤ 122)%N then Some (c - 71)%N
  else if decide (48 ≤ c ≤ 57)%N then Some (c + 4)%N
  else if decide (c = 43)%N then Some 62%N
  else if decide (c = 47)%N then Some 63%N
  else None.

Definition b64Pad : Ascii.ascii := Ascii.ascii_of_N 61.

Fixpoint b64Encode (data : bytes) : string :=
  match data with
  | [] => ""
  | [x] =>
      let a := Byte.to_N x in
      String (b64Char (a / 4)) (String (b64Char (a mod 4 * 16)) (String b64Pad (String b64Pad "")))
  | [x; y] =>
      let a := Byte.to_N x in let b := Byte.to_N y in
      String (b64Char (a / 4)) (String (b64Char (a mod 4 * 16 + b / 16))
        (String (b64Char (b mod 16 * 4)) (String b64Pad "")))
  | x :: y :: z :: data =>
      let a := Byte.to_N x in let b := Byte.to_N y in let c := Byte.to_N z in
      String (b64Char (a / 4)) (String (b64Char (a mod 4 * 16 + b / 16))
        (String (b64Char (b mod 16 * 4 + c / 64)) (String (b64Char (c mod 64)) (b64Encode data))))
  end%N.

Fixpoint b64Decode (s : string) : option bytes :=
  match s with
  | EmptyString => Some []
  | String c1 (String c2 (String c3 (String c4 rest))) =>
      p ← b64Val c1; q ← b64Val c2;
      let x := byteOf (p * 4 + q / 16) in
      if decide (c4 = b64Pad) then
        match rest with
        | EmptyString =>
            if decide (c3 = b64Pad) then Some [x]
            else u ← b64Val c3; Some [x; byteOf (q mod 16 * 16 + u / 4)]
        | _ => None
        end
      else
        u ← b64Val c3; v ← b64Val c4; data ← b64Decode rest;
        Some (x :: byteOf (q mod 16 * 16 + u / 4) :: byteOf (u mod 4 * 64 + v) :: data)
  | _ => None
  end%N.

Definition setBytes (v : json) (cur : bytes) : option bytes :=
  match v with JStr s => b64Decode s | JNull => Some [] | _ => None end.

(** [json.Unmarshal] into a struct with the zero value [z]. *)
Definition unmarshalStruct {A} (step : string → json → A → option A) (z : A) (data : bytes) : option A :=
  match parse data with
  | Some (JObj fields) => decodeFields step fields z
  | Some JNull => Some z
  | _ => None
  end.

#[global] Instance storeJson : StoreJson := {|
  marshalLine l := print (JObj (lineFields l));
  unmarshalLine := unmarshalStruct lineStep zeroLine;
  marshalHardState hs := print (JObj (hsFields hs));
  unmarshalHardState := unmarshalStruct hsStep zeroHardState;
  marshalSnapshot sn := print (JObj (snapFields sn));
  unmarshalSnapshot := unmarshalStruct snapStep zeroSnapshot |}.

#[global] Instance mapCodec : MapCodec := {|
  marshalMap m := print (mapJson m);
  unmarshalMap data := v ← parse data; decodeMap v None |}.
