(* ===== verification/JsonProofs.v ===== *)
(** * JSON round trips

    What the program writes it reads back: the printer and the parser of
    [Json.v] are inverse on the fragment, and so are the encoders and
    decoders of the records.  The laws that the store and the snapshot
    transfer rely on hold of them. *)

From stdpp Require Import sorting.
From Stdlib Require Import Decimal DecimalN.
From S2P Require Import Prelude Types Node Wal Json.

(** ** Values *)

Fixpoint printMembers (fields : list (string * json)) : bytes :=
  match fields with
  | [] => [Byte.x7d]
  | [(k, v)] => printString k ++ Byte.x3a :: print v ++ [Byte.x7d]
  | (k, v) :: fields => printString k ++ Byte.x3a :: print v ++ Byte.x2c :: printMembers fields
  end.

Lemma print_obj fields : print (JObj fields) = Byte.x7b :: printMembers fields.
Proof. reflexivity. Qed.

Lemma printMembers_more k v kv fields :
  printMembers ((k, v) :: kv :: fields) =
    printString k ++ Byte.x3a :: print v ++ Byte.x2c :: printMembers (kv :: fields).
Proof. reflexivity. Qed.

Fixpoint printElements (items : list json) : bytes :=
  match items with
  | [] => [Byte.x5d]
  | [v] => print v ++ [Byte.x5d]
  | v :: items => print v ++ Byte.x2c :: printElements items
  end.

Lemma print_arr items : print (JArr items) = Byte.x5b :: printElements items.
Proof. reflexivity. Qed.

Lemma printElements_more v v' items :
  printElements (v :: v' :: items) = print v ++ Byte.x2c :: printElements (v' :: items).
Proof. reflexivity. Qed.

Lemma json_rect_fields (P : json → Prop) :
  P JNull → (∀ b, P (JBool b)) → (∀ n, P (JNum n)) → (∀ s, P (JStr s)) →
  (∀ items, Forall P items → P (JArr items)) →
  (∀ fields, Forall (λ kv, P kv.2) fields → P (JObj fields)) → ∀ v, P v.
Proof.
  intros H0 H1 H2 H3 H4 H5. fix IH 1. intros [|b|n|s|items|fields]; [done|done|done|done| |].
  - apply H4. induction items as [|v items IHi]; constructor; [apply IH|done].
  - apply H5. induction fields as [|[k v] fields IHf]; constructor; [apply IH|done].
Qed.

(** Fuel that is enough for a value and for its elements or members. *)
Fixpoint jsize (v : json) : nat :=
  match v with
  | JArr items => S (foldr (λ v n, S (jsize v + n)) 0 items)
  | JObj fields => S (foldr (λ kv n, S (jsize kv.2 + n)) 0 fields)
  | _ => 1
  end.
Definition msize (fields : list (string * json)) : nat := foldr (λ kv n, S (jsize kv.2 + n)) 0 fields.

Definition esize (items : list json) : nat := foldr (λ v n, S (jsize v + n)) 0 items.

(** ** Characters *)

Lemma parseChars_char a rest : parseChars (printChar a ++ rest) = consChar (Ascii.N_of_ascii a) (parseChars rest).
Proof. destruct a as [[] [] [] [] [] [] [] []]; reflexivity. Qed.

Lemma parseChars_string s rest : parseChars (printChars s ++ Byte.x22 :: rest) = Some (s, rest).
Proof.
  induction s as [|a s IH]; [done|]. cbn [printChars]. rewrite <- app_assoc, parseChars_char, IH. cbn.
  by rewrite Ascii.ascii_N_embedding.
Qed.

Lemma printChar_no_newline a : Byte.x0a ∉ printChar a.
Proof.
  destruct a as [[] [] [] [] [] [] [] []];
    (apply (bool_decide_eq_true_1 (Byte.x0a ∉ printChar _)); vm_compute; reflexivity).
Qed.

Lemma printChars_no_newline s : Byte.x0a ∉ printChars s.
Proof.
  induction s as [|a s IH]; cbn; [apply not_elem_of_nil|]. rewrite elem_of_app.
  intros [?|?]; [by eapply printChar_no_newline|done].
Qed.

(** ** Numbers *)

Lemma parseDigits_print d b rest :
  match b with
  | Byte.x30 | Byte.x31 | Byte.x32 | Byte.x33 | Byte.x34 | Byte.x35 | Byte.x36 | Byte.x37 | Byte.x38 | Byte.x39 => False
  | _ => True
  end → parseDigits (printDigits d ++ b :: rest) = (d, b :: rest).
Proof.
  intros Hb. induction d; cbn; try by rewrite IHd. by destruct b.
Qed.

Lemma to_uint_norm n : unorm (N.to_uint n) = N.to_uint n.
Proof. by rewrite <- Unsigned.to_of, Unsigned.of_to. Qed.

Lemma to_uint_nonnil n : N.to_uint n ≠ Nil.
Proof.
  intros Hn. pose proof (to_uint_norm n) as Hu. rewrite Hn in Hu. discriminate Hu.
Qed.


Definition not_digit (b : Byte.byte) : Prop :=
  match b with
  | Byte.x30 | Byte.x31 | Byte.x32 | Byte.x33 | Byte.x34 | Byte.x35 | Byte.x36 | Byte.x37 | Byte.x38 | Byte.x39 => False
  | _ => True
  end.

(** What may follow a value: nothing that would prolong a number. *)
Definition ends (rest : bytes) : Prop := match rest with [] => True | b :: _ => not_digit b end.

Lemma parseDigits_ends d rest : ends rest → parseDigits (printDigits d ++ rest) = (d, rest).
Proof.
  destruct rest as [|b rest]; intros He; [|by apply parseDigits_print].
  rewrite app_nil_r. induction d; cbn; by rewrite ?IHd.
Qed.

(** A number starts with a digit. *)
Lemma printDigits_head d : d ≠ Nil → ∃ b l, printDigits d = b :: l ∧ ¬ not_digit b ∧ isWs b = false.
Proof. intros Hd. destruct d; [done|..]; cbn; eexists _, _; split_and!; try done; cbn; tauto. Qed.

(** The first byte of a value is not white space. *)
Lemma print_head v : ∃ b l, print v = b :: l ∧ isWs b = false.
Proof.
  destruct v as [|[]|n|s|items|fields]; cbn; try by eexists _, _.
  destruct (printDigits_head (N.to_uint n) (to_uint_nonnil n)) as (b & l & -> & _ & ?). eauto.
Qed.

Lemma skipWs_print v rest : skipWs (print v ++ rest) = print v ++ rest.
Proof. destruct (print_head v) as (b & l & -> & Hb). cbn. by rewrite Hb. Qed.

Lemma skipWs_string k rest : skipWs (printString k ++ rest) = printString k ++ rest.
Proof. done. Qed.

Lemma printString_app k rest : printString k ++ rest = Byte.x22 :: printChars k ++ Byte.x22 :: rest.
Proof. unfold printString. cbn. by rewrite <- app_assoc. Qed.

Lemma parseNum_print n rest : ends rest → parseNum (printDigits (N.to_uint n) ++ rest) = Some (JNum n, rest).
Proof.
  intros He. unfold parseNum. rewrite parseDigits_ends by done.
  rewrite decide_True by (split; [apply to_uint_nonnil|apply to_uint_norm]). by rewrite Unsigned.of_to.
Qed.

(** A digit opens no other kind of value. *)
Lemma parseValue_digit fuel b l : ¬ not_digit b → parseValue (S fuel) (b :: l) = parseNum (b :: l).
Proof. intros Hb. by destruct b; cbn in Hb; try (exfalso; tauto). Qed.

(** ** Values *)

Definition parses (v : json) : Prop :=
  ∀ fuel rest, jsize v ≤ fuel → ends rest → parseValue fuel (print v ++ rest) = Some (v, rest).

Lemma parseMembers_print fields : Forall (λ kv, parses kv.2) fields → fields ≠ [] →
  ∀ fuel rest, msize fields ≤ fuel → parseMembers fuel (printMembers fields ++ rest) = Some (fields, rest).
Proof.
  induction 1 as [|[k v] fields Hv Hf IH]; intros Hne fuel rest Hfuel; [done|].
  cbn [msize foldr snd] in Hfuel. fold (msize fields) in Hfuel. destruct fuel as [|fuel]; [lia|].
  cbn [snd] in Hv. destruct fields as [|kv' fields].
  - cbn [printMembers]. rewrite <- !app_assoc. cbn [parseMembers]. rewrite skipWs_string, printString_app.
    rewrite parseChars_string. cbn [mbind option_bind skipWs isWs app].
    rewrite <- app_assoc, Hv by (done || lia). done.
  - rewrite printMembers_more, <- app_assoc. cbn [parseMembers]. rewrite skipWs_string, printString_app.
    rewrite parseChars_string. cbn [mbind option_bind skipWs isWs app].
    rewrite <- app_assoc, Hv by (done || lia). cbn [mbind option_bind skipWs isWs app].
    rewrite IH by (done || lia). done.
Qed.

Lemma parseElements_print items : Forall parses items → items ≠ [] →
  ∀ fuel rest, esize items ≤ fuel → parseElements fuel (printElements items ++ rest) = Some (items, rest).
Proof.
  induction 1 as [|v items Hv Hf IH]; intros Hne fuel rest Hfuel; [done|].
  cbn [esize foldr] in Hfuel. fold (esize items) in Hfuel. destruct fuel as [|fuel]; [lia|].
  destruct items as [|v' items].
  - cbn [printElements]. rewrite <- app_assoc. cbn [parseElements]. rewrite Hv by (done || lia). done.
  - rewrite printElements_more, <- app_assoc. cbn [parseElements]. rewrite Hv by (done || lia).
    cbn [mbind option_bind skipWs isWs app]. rewrite IH by (done || lia). done.
Qed.

(** The opening bracket of an array is not followed by the closing one. *)
Lemma printElements_head v items : ∃ b l, printElements (v :: items) = b :: l ∧ isWs b = false ∧ b ≠ Byte.x5d.
Proof.
  destruct (print_head v) as (b & l & Hp & Hb).
  exists b. assert (∃ l', printElements (v :: items) = b :: l') as [l' Hl'].
  { destruct items; cbn [printElements]; rewrite Hp; by eexists. }
  exists l'. split_and!; [done|done|]. intros ->. destruct v as [|[]|n|s|its|fields]; try discriminate Hp.
  destruct (printDigits_head (N.to_uint n) (to_uint_nonnil n)) as (b & l2 & Hd & Hn & _).
  cbn in Hp. rewrite Hd in Hp. injection Hp as -> ->. by apply Hn.
Qed.

Lemma parses_all v : parses v.
Proof.
  induction v as [|b|n|s|items IH|fields IH] using json_rect_fields; intros fuel rest Hfuel He;
    (destruct fuel as [|fuel]; [cbn in Hfuel; lia|]).
  - done.
  - by destruct b.
  - cbn [print]. rewrite <- (parseNum_print n rest He).
    destruct (printDigits_head (N.to_uint n) (to_uint_nonnil n)) as (b & l & -> & Hd & _). by apply parseValue_digit.
  - cbn [print parseValue]. rewrite skipWs_string, printString_app, parseChars_string. done.
  - rewrite print_arr. cbn [app parseValue skipWs isWs]. destruct items as [|v items]; [done|].
    destruct (printElements_head v items) as (b & l & Hl & Hws & Hb).
    pose proof (parseElements_print (v :: items) IH ltac:(done) fuel rest) as Hm.
    rewrite Hl in *. cbn [app skipWs] in *. rewrite Hws.
    transitivity ('(items, rest) ← parseElements fuel (b :: l ++ rest); Some (JArr items, rest)); [by destruct b|].
    rewrite Hm; [done|]. cbn in Hfuel. unfold esize. cbn. lia.
  - rewrite print_obj. cbn [app parseValue skipWs isWs]. destruct fields as [|kv fields]; [done|].
    assert (∃ l, printMembers (kv :: fields) = Byte.x22 :: l) as [l Hl].
    { destruct kv as [k v], fields; cbn; by eexists. }
    pose proof (parseMembers_print (kv :: fields) IH ltac:(done) fuel rest) as Hm.
    rewrite Hl in *. cbn [app skipWs isWs] in *. rewrite Hm; [done|]. cbn in Hfuel. unfold msize. cbn. lia.
Qed.

(** The text of a value is long enough for its own fuel. *)
Lemma jsize_print v : jsize v ≤ length (print v).
Proof.
  induction v as [|b|n|s|items IH|fields IH] using json_rect_fields; [cbn; lia|destruct b; cbn; lia| |cbn; lia| |].
  - destruct (printDigits_head (N.to_uint n) (to_uint_nonnil n)) as (b & l & Hp & _). cbn. rewrite Hp. cbn. lia.
  - rewrite print_arr. cbn [jsize length]. fold (esize items). apply le_n_S.
    induction IH as [|v items Hv _ IHf]; [cbn; lia|]. cbn [esize foldr] in *. fold (esize items) in *.
    destruct items as [|v' items].
    + cbn [printElements esize foldr]. rewrite length_app. cbn [length]. lia.
    + rewrite printElements_more, length_app. cbn [length]. lia.
  - rewrite print_obj. cbn [jsize length]. fold (msize fields). apply le_n_S.
    induction IH as [|[k v] fields Hv _ IHf]; [cbn; lia|]. cbn [msize foldr snd] in *. fold (msize fields) in *.
    destruct fields as [|kv fields].
    + cbn [printMembers msize foldr]. rewrite length_app. cbn [length]. rewrite length_app. lia.
    + rewrite printMembers_more, length_app. cbn [length]. rewrite length_app. cbn [length]. lia.
Qed.

Lemma parse_print v : parse (print v) = Some v.
Proof.
  unfold parse. rewrite <- (app_nil_r (print v)) at 2. rewrite parses_all; [done|apply jsize_print|done].
Qed.

(** ** Records *)

Lemma decodeFields_app {A} (step : string → json → A → option A) l1 l2 a b :
  decodeFields step l1 a = Some b → decodeFields step (l1 ++ l2) a = decodeFields step l2 b.
Proof. unfold decodeFields. rewrite foldl_app. by intros ->. Qed.

Lemma command_roundtrip c : decodeFields commandStep (commandFields c) zeroCommand = Some c.
Proof.
  destruct c as [op key val ex]. unfold commandFields, optStr. cbn [Op Key Value Expected].
  destruct (decide (val = "")) as [->|], (decide (ex = "")) as [->|]; reflexivity.
Qed.

Lemma line_roundtrip l : decodeFields lineStep (lineFields l) zeroLine = Some l.
Proof.
  destruct l as [ty li lt i t c crc]. unfold lineFields. cbn [wl_Type wl_LastIncludedIndex wl_LastIncludedTerm wl_Index wl_Term wl_Command wl_CRC].
  erewrite (decodeFields_app _ (optStr "type" ty) _ _ (mkWalLine ty 0 0 0 0 zeroCommand None))
    by (unfold optStr; case_decide; by subst).
  erewrite (decodeFields_app _ (optNum "last_included_index" li) _ _ (mkWalLine ty li 0 0 0 zeroCommand None))
    by (unfold optNum; case_decide; by subst).
  erewrite (decodeFields_app _ (optNum "last_included_term" lt) _ _ (mkWalLine ty li lt 0 0 zeroCommand None))
    by (unfold optNum; case_decide; by subst).
  erewrite (decodeFields_app _ (optNum "index" i) _ _ (mkWalLine ty li lt i 0 zeroCommand None))
    by (unfold optNum; case_decide; by subst).
  erewrite (decodeFields_app _ (optNum "term" t) _ _ (mkWalLine ty li lt i t zeroCommand None))
    by (unfold optNum; case_decide; by subst).
  erewrite (decodeFields_app _ [("command", _)] _ _ (mkWalLine ty li lt i t c None)).
  - by destruct crc.
  - unfold decodeFields. cbn [foldl fst snd mbind option_bind]. unfold lineStep.
    do 5 (rewrite decide_False by done). rewrite decide_True by done. by rewrite command_roundtrip.
Qed.

Lemma hs_roundtrip hs : decodeFields hsStep (hsFields hs) zeroHardState = Some hs.
Proof.
  destruct hs as [t v c]. unfold hsFields, optStr. cbn [CurrentTerm VotedFor CommitIndex].
  by destruct (decide (v = "")) as [->|].
Qed.

Lemma decodeMap_list l (m : gmap string string) :
  decodeFields mapStep ((λ kv, (kv.1, JStr kv.2)) <$> l) m = Some (foldl (λ (m : gmap string string) kv, <[kv.1 := kv.2]> m) m l).
Proof. revert m. induction l as [|[k v] l IH]; intros m; [done|]. cbn. apply IH. Qed.

Lemma foldl_insert_list (l : list (string * string)) : ∀ m : gmap string string,
  NoDup l.*1 → foldl (λ (m : gmap string string) kv, <[kv.1 := kv.2]> m) m l = list_to_map l ∪ m.
Proof.
  induction l as [|[k v] l IH]; intros m Hnd; cbn; [by rewrite map_empty_union|].
  apply NoDup_cons in Hnd as [Hk Hnd]. rewrite IH by done.
  rewrite <- insert_union_r; [|by apply not_elem_of_list_to_map].
  by rewrite insert_union_l.
Qed.

Lemma map_roundtrip m : decodeMap (mapJson m) None = Some m.
Proof.
  destruct m as [m|]; [|done]. cbn [mapJson decodeMap]. rewrite decodeMap_list. cbn [default from_option mbind option_bind].
  do 2 f_equal. pose proof (merge_sort_Permutation keyLe (map_to_list m)) as Hp.
  rewrite foldl_insert_list.
  - rewrite map_union_empty. rewrite <- (list_to_map_to_list m) at 2. apply list_to_map_proper; [|done].
    rewrite Hp. apply NoDup_fst_map_to_list.
  - rewrite Hp. apply NoDup_fst_map_to_list.
Qed.

Lemma decodeFields_cons {A} (step : string → json → A → option A) k v l a b :
  step k v a = Some b → decodeFields step ((k, v) :: l) a = decodeFields step l b.
Proof. unfold decodeFields. cbn. by intros ->. Qed.

Lemma snap_roundtrip sn : decodeFields snapStep (snapFields sn) zeroSnapshot = Some sn.
Proof.
  destruct sn as [i t d]. unfold snapFields. cbn [LastIncludedIndex LastIncludedTerm Data].
  rewrite (decodeFields_cons _ _ _ _ _ (mkSnapshot i 0 None)) by done.
  rewrite (decodeFields_cons _ _ _ _ _ (mkSnapshot i t None)) by done.
  rewrite (decodeFields_cons _ _ _ _ _ (mkSnapshot i t d)); [done|]. unfold snapStep.
  do 2 (rewrite decide_False by done). rewrite decide_True by done. cbn [Data]. by rewrite map_roundtrip.
Qed.

Lemma unmarshal_struct {A} (step : string → json → A → option A) z fields a :
  decodeFields step fields z = Some a → unmarshalStruct step z (print (JObj fields)) = Some a.
Proof. intros Hd. unfold unmarshalStruct. by rewrite parse_print. Qed.

(** ** Base64 *)

Lemma b64_val_char n : (n < 64)%N → b64Val (b64Char n) = Some n.
Proof.
  intros Hn. rewrite <- (N2Nat.id n). assert (N.to_nat n ∈ seq 0 64) as Hin by (apply elem_of_seq; lia).
  revert Hin. generalize (N.to_nat n). apply Forall_forall. repeat constructor.
Qed.

Lemma b64_char_pad n : (n < 64)%N → b64Char n ≠ b64Pad.
Proof.
  intros Hn He. pose proof (b64_val_char n Hn) as Hv. rewrite He in Hv. discriminate Hv.
Qed.

Lemma byteOf_to_N b n : n = Byte.to_N b → byteOf n = b.
Proof. intros ->. unfold byteOf. by rewrite Byte.of_to_N. Qed.

Lemma byte_bound b : (Byte.to_N b < 256)%N.
Proof. pose proof (Byte.to_N_bounded b). lia. Qed.

(** Arithmetic with division by constants; sextets in range. *)
#[local] Ltac nsolve := zify; Z.to_euclidean_division_equations; lia.
#[local] Ltac b64 :=
  rewrite ?b64_val_char by (nsolve); cbn [mbind option_bind];
  rewrite ?(decide_False (P := b64Char _ = b64Pad)) by (apply b64_char_pad; nsolve);
  rewrite ?(decide_True (P := b64Pad = b64Pad)) by done.

Lemma b64_roundtrip data : b64Decode (b64Encode data) = Some data.
Proof.
  induction data as [data IH] using (induction_ltof1 _ length). unfold ltof in IH.
  destruct data as [|x [|y [|z data]]]; [done|..]; cbn [b64Encode b64Decode].
  - pose proof (byte_bound x). b64. repeat f_equal. apply byteOf_to_N. nsolve.
  - pose proof (byte_bound x). pose proof (byte_bound y). b64.
    repeat f_equal; apply byteOf_to_N; nsolve.
  - pose proof (byte_bound x). pose proof (byte_bound y). pose proof (byte_bound z). b64.
    rewrite IH by (cbn; lia). cbn [mbind option_bind].
    repeat f_equal; apply byteOf_to_N; nsolve.
Qed.

(** ** No line feeds, and braces at the ends *)

Lemma printDigits_no_newline d : Byte.x0a ∉ printDigits d.
Proof. induction d; cbn; rewrite ?elem_of_cons, ?elem_of_nil; [tauto|..]; by intros [?|?]. Qed.

Lemma print_no_newline v : Byte.x0a ∉ print v.
Proof.
  assert (∀ k, Byte.x0a ∉ printString k) as Hs.
  { intros k. unfold printString. rewrite elem_of_cons, elem_of_app, list_elem_of_singleton.
    intros [?|[?|?]]; [done| |done]. by eapply printChars_no_newline. }
  induction v as [|b|n|s|items IH|fields IH] using json_rect_fields.
  - apply (bool_decide_eq_true_1 (Byte.x0a ∉ print JNull)). reflexivity.
  - apply (bool_decide_eq_true_1 (Byte.x0a ∉ print (JBool b))). by destruct b.
  - apply printDigits_no_newline.
  - apply Hs.
  - rewrite print_arr, elem_of_cons. intros [?|Hin]; [done|]. revert Hin.
    induction IH as [|v items Hv _ IHf]; [cbn; by rewrite list_elem_of_singleton|]. destruct items as [|v' items].
    + cbn [printElements]. rewrite elem_of_app, list_elem_of_singleton. by intros [?|?].
    + rewrite printElements_more, elem_of_app, elem_of_cons. intros [?|[?|?]]; [done|done|by apply IHf].
  - rewrite print_obj, elem_of_cons. intros [?|Hin]; [done|]. revert Hin.
    induction IH as [|[k v] fields Hv _ IHf]; [cbn; by rewrite list_elem_of_singleton|]. cbn [snd] in Hv.
    destruct fields as [|kv fields].
    + cbn [printMembers]. rewrite elem_of_app, elem_of_cons, elem_of_app, list_elem_of_singleton.
      intros [?|[?|[?|?]]]; [by eapply Hs|done|done|done].
    + rewrite printMembers_more, elem_of_app, elem_of_cons, elem_of_app, elem_of_cons.
      intros [?|[?|[?|[?|?]]]]; [by eapply Hs|done|done|done|by apply IHf].
Qed.

Lemma printMembers_last fields : ∃ l, printMembers fields = l ++ [Byte.x7d].
Proof.
  induction fields as [|[k v] fields [l IH]]; [by exists []|]. destruct fields as [|kv fields].
  - exists (printString k ++ Byte.x3a :: print v). cbn [printMembers]. rewrite <- app_assoc. reflexivity.
  - exists (printString k ++ Byte.x3a :: print v ++ Byte.x2c :: l). rewrite printMembers_more, IH.
    rewrite <- app_assoc, <- app_comm_cons, <- app_assoc, <- app_comm_cons. reflexivity.
Qed.

#[global, program] Instance storeJsonLaws : StoreJsonLaws.
Next Obligation. intros l. apply unmarshal_struct, line_roundtrip. Qed.
Next Obligation.
  intros l. destruct (printMembers_last (lineFields l)) as [mid Hm].
  exists Byte.x7b, mid, Byte.x7d. split_and!; [|done|done]. change (marshalLine l) with (Byte.x7b :: printMembers (lineFields l)).
  by rewrite Hm.
Qed.
Next Obligation. intros l. apply print_no_newline. Qed.
Next Obligation. done. Qed.
Next Obligation. intros hs. apply unmarshal_struct, hs_roundtrip. Qed.
Next Obligation. intros sn. apply unmarshal_struct, snap_roundtrip. Qed.

#[global, program] Instance mapCodecLaws : MapCodecLaws.
Next Obligation. intros d. unfold unmarshalMap, marshalMap, mapCodec. rewrite parse_print. apply map_roundtrip. Qed.
Next Obligation.
  intros d Hn. destruct (print_head (mapJson d)) as (b & l & Hp & _). unfold marshalMap, mapCodec in Hn. congruence.
Qed.
