(* ===== verification/WalProofs.v ===== *)
(** * The file-backed store keeps what it reports saved

    [Wal.v] against the laws of the store interface: atomic replacement of
    the hard state under any failure, a log that grows by what is appended,
    recovery from a torn append, and recovery from a crash between the
    snapshot file and the rewriting of the WAL. *)

From S2P Require Import Prelude Types StoreIntf RaftLog Wal Json JsonProofs.

(** ** The monad *)

Section monad.
Implicit Types s : FileStore.

Lemma bind_inl {A B} (m : M A) (f : A → M B) s b s' :
  (m ≫= f) s = (inl b, s') ↔ ∃ a s1, m s = (inl a, s1) ∧ f a s1 = (inl b, s').
Proof.
  unfold mbind, M_bind. destruct (m s) as [[a|e] s1]; split.
  - eauto.
  - intros (? & ? & [= <- <-] & ?). done.
  - done.
  - by intros (? & ? & ? & _).
Qed.

(** [keeps p m]: running [m] leaves file [p] alone, whatever fails. *)
Definition keeps {A} (p : path) (m : M A) : Prop := ∀ s, content p (m s).2 = content p s.

Lemma keeps_bind {A B} p (m : M A) (f : A → M B) : keeps p m → (∀ a, keeps p (f a)) → keeps p (m ≫= f).
Proof.
  intros Hm Hf s. unfold mbind, M_bind. specialize (Hm s). destruct (m s) as [[a|e] s1]; cbn in *; [|done].
  by rewrite Hf.
Qed.
Lemma keeps_ret {A} p (a : A) : keeps p (mret a).
Proof. by intros s. Qed.
Lemma keeps_throw {A} p e : keeps p (throw (A:=A) e).
Proof. by intros s. Qed.
Lemma content_faults p fs s : content p (with_faults fs s) = content p s.
Proof. by destruct p. Qed.
Lemma keeps_syscall p : keeps p syscall.
Proof. intros s. unfold syscall. destruct (f_faults s) as [|[]]; apply content_faults. Qed.
Lemma keeps_syncDir p : keeps p syncDir.
Proof.
  apply keeps_bind; [apply keeps_syscall|]. intros _ s. unfold syncTolerant. destruct (f_faults s) as [|[] fs];
    try apply (keeps_bind p syscall (λ _, syscall) (keeps_syscall p) (λ _, keeps_syscall p)). apply content_faults.
Qed.
Lemma keeps_wrapping {A} p msg (m : M A) : keeps p m → keeps p (wrapping msg m).
Proof. intros Hm s. unfold wrapping. specialize (Hm s). by destruct (m s) as [[]]. Qed.
Lemma keeps_get p q : keeps p (get_content q).
Proof. by intros s. Qed.
Lemma keeps_put p q v : p ≠ q → keeps p (put_content q v).
Proof. intros Hne s. by destruct p, q. Qed.
Lemma keeps_append p data : p ≠ PWal → keeps p (appendBytes data).
Proof. intros Hne s. unfold appendBytes. by destruct p, (f_faults s) as [|[]]. Qed.

Lemma syscall_ok s s' u : syscall s = (inl u, s') → s' = with_faults (tail s.(f_faults)) s.
Proof. unfold syscall. destruct (f_faults s) as [|[]]; by intros [= _ <-]. Qed.

(** Without faults a system call changes nothing. *)
Lemma syscall_calm s : s.(f_faults) = [] → syscall s = (inl tt, s).
Proof. intros Hf. unfold syscall. rewrite Hf. destruct s; cbn in *. by subst. Qed.

End monad.

#[export] Hint Resolve keeps_ret keeps_throw keeps_syscall keeps_syncDir keeps_wrapping keeps_get keeps_put keeps_append : raft.

Ltac keeps_tac :=
  repeat first [progress auto with raft | apply keeps_bind; [|intros ?]].

Section proofs.
Context `{StoreJson}.
Implicit Types s : FileStore.

Lemma keeps_writeJSON p q data : p ≠ q → keeps p (writeJSONAtomic q data).
Proof. intros. unfold writeJSONAtomic, syncClose, rename. keeps_tac. Qed.

Lemma keeps_readJSON {A} p q (um : bytes → option A) : keeps p (readJSONFile um q).
Proof.
  unfold readJSONFile, readFile. keeps_tac. destruct a as [d|]; [|auto with raft]. destruct (um d); auto with raft.
Qed.

Lemma keeps_base p : keeps p snapshotBaseLocked.
Proof. unfold snapshotBaseLocked. apply keeps_bind; [apply keeps_readJSON|]. auto with raft. Qed.

Lemma keeps_tmpWrites p lines : keeps p (tmpWrites lines).
Proof. induction lines; cbn; keeps_tac. Qed.

Lemma keeps_writeWAL p bi bt es : p ≠ PWal → keeps p (writeWALAtomic bi bt es).
Proof.
  intros. unfold writeWALAtomic, syncClose. unfold rename. keeps_tac. apply keeps_tmpWrites.
Qed.

Lemma keeps_appendLines p lines : p ≠ PWal → keeps p (appendLines lines).
Proof. intros. induction lines; cbn; keeps_tac. Qed.

Lemma keeps_AppendEntries p es : p ≠ PWal → keeps p (wal_AppendEntries es).
Proof.
  intros. unfold wal_AppendEntries, syncClose. destruct es; [auto with raft|].
  do 2 (apply keeps_bind; [auto with raft|intros]). apply keeps_bind; [|intros [bi bt]].
  - destruct (match a0 with None => _ | _ => _ end); [apply keeps_base|auto with raft].
  - keeps_tac; [by apply keeps_appendLines|]. destruct (match a0 with None => _ | _ => _ end); auto with raft.
Qed.

Lemma keeps_ReplaceEntries p es : p ≠ PWal → keeps p (wal_ReplaceEntries es).
Proof. intros. unfold wal_ReplaceEntries. apply keeps_bind; [apply keeps_base|]. intros [bi bt]. by apply keeps_writeWAL. Qed.

Lemma keeps_readWAL p : p ≠ PWal → keeps p readWAL.
Proof.
  intros. unfold readWAL, readFile, truncateFile, syncClose. keeps_tac.
  destruct a as [data|]; [|auto with raft]. destruct (splitLines data) as [ls tl].
  destruct (readLines _ _ _); [|auto with raft]. case_decide; [auto with raft|].
  apply keeps_bind; [apply keeps_wrapping|auto with raft]. keeps_tac.
Qed.

Lemma keeps_Load p : p ≠ PWal → keeps p wal_Load.
Proof.
  intros. unfold wal_Load. do 2 (apply keeps_bind; [apply keeps_readJSON|intros]).
  apply keeps_bind; [by apply keeps_readWAL|intros wal]. case_decide.
  - destruct (reconcileWALWithSnapshot _ _) as [es []]; [|auto with raft].
    apply keeps_bind; [by apply keeps_writeWAL|auto with raft].
  - case_decide; auto with raft.
Qed.

Lemma err_of_state r : (err_of r).2 = r.2.
Proof. by destruct r as [[]]. Qed.

(** ** Atomic replacement *)

(** [sets p data m]: [m] installs [data] as file [p] at one point; when it
    fails before that point the file is the old one. *)
Definition sets {A} (p : path) (data : bytes) (m : M A) : Prop := ∀ s,
  match m s with
  | (inl _, s') => content p s' = Some data
  | (inr _, s') => content p s' = content p s ∨ content p s' = Some data
  end.

Lemma sets_before {A B} p data (m : M A) (f : A → M B) :
  keeps p m → (∀ a, sets p data (f a)) → sets p data (m ≫= f).
Proof.
  intros Hm Hf s. unfold mbind, M_bind. specialize (Hm s). destruct (m s) as [[a|e] s1]; cbn in *; [|by left].
  specialize (Hf a s1). destruct (f a s1) as [[b|e] s2]; [done|]. by rewrite Hm in Hf.
Qed.

Lemma sets_after {A B} p data (m : M A) (f : A → M B) :
  sets p data m → (∀ a, keeps p (f a)) → sets p data (m ≫= f).
Proof.
  intros Hm Hf s. unfold mbind, M_bind. specialize (Hm s). destruct (m s) as [[a|e] s1]; [|done].
  specialize (Hf a s1). destruct (f a s1) as [[b|e] s2]; cbn in *; [congruence|right; congruence].
Qed.

Lemma sets_rename p data : sets p data (rename data p).
Proof. unfold rename. apply sets_before; [auto with raft|]. intros _ s. by destruct p. Qed.

Lemma sets_writeJSON p data : sets p data (writeJSONAtomic p data).
Proof.
  unfold writeJSONAtomic, syncClose. do 3 (apply sets_before; [keeps_tac|intros _]).
  apply sets_after; [apply sets_rename|auto with raft].
Qed.

Lemma sets_writeWAL bi bt es :
  sets PWal (concat (encodeWALBase bi bt :: (encodeWALEntry <$> es))) (writeWALAtomic bi bt es).
Proof.
  unfold writeWALAtomic, syncClose. apply sets_before; [keeps_tac|intros _].
  apply sets_before; [apply keeps_tmpWrites|intros _]. apply sets_before; [keeps_tac|intros _].
  apply sets_after; [apply sets_rename|auto with raft].
Qed.

(** ** The hard state *)

Definition file_hs s : HardState :=
  match s.(f_hardState) with
  | None => zeroHardState
  | Some data => default zeroHardState (unmarshalHardState data)
  end.

Lemma file_hs_keeps {A} (m : M A) s : keeps PHardState m → file_hs (m s).2 = file_hs s.
Proof. intros Hk. specialize (Hk s). cbn in Hk. unfold file_hs. by rewrite Hk. Qed.

Context `{!StoreJsonLaws}.

Lemma SaveHardState_file hs s :
  match err_of (wal_SaveHardState hs s) with
  | (None, s') => file_hs s' = hs
  | (Some _, s') => file_hs s' = file_hs s ∨ file_hs s' = hs
  end.
Proof.
  pose proof (sets_writeJSON PHardState (marshalHardState hs) s) as Hs. unfold wal_SaveHardState.
  destruct (writeJSONAtomic _ _ _) as [[u|e] s']; cbn in *; unfold file_hs.
  - by rewrite Hs, unmarshal_hs.
  - destruct Hs as [-> | ->]; [by left|right]. by rewrite unmarshal_hs.
Qed.

Lemma Load_file_hs s s' hs es sn : wal_Load s = (inl (hs, es, sn), s') → hs = file_hs s.
Proof.
  unfold wal_Load. intros (hs0 & s1 & Hhs & Hrest)%bind_inl.
  assert (default zeroHardState hs0 = file_hs s) as Hd.
  { unfold readJSONFile, readFile in Hhs. apply bind_inl in Hhs as (data & s2 & Hr & Hd).
    apply bind_inl in Hr as (u & s3 & Hsys%syscall_ok & [= <- <-]). subst s3. unfold file_hs.
    cbn in Hd. destruct (f_hardState s) as [d|]; [|by injection Hd as <- _].
    destruct (unmarshalHardState d); [by injection Hd as <- _|discriminate Hd]. }
  rewrite <- Hd. apply bind_inl in Hrest as (sn0 & s2 & _ & Hrest).
  apply bind_inl in Hrest as (wal & s3 & _ & Hrest). revert Hrest. case_decide.
  - destruct (reconcileWALWithSnapshot _ _) as [es0 []].
    + intros (u & s4 & _ & [= <- _ _ _])%bind_inl. done.
    + by intros [= <- _ _ _].
  - case_decide; by intros [= <- _ _ _].
Qed.

#[global, program] Instance FileStore_hs : HardStateLaws FileStore := {| durable_hs := file_hs |}.
Next Obligation. intros hs s s' Hs. cbn in Hs. pose proof (SaveHardState_file hs s) as Hf. by rewrite Hs in Hf. Qed.
Next Obligation. intros hs s s' e Hs. cbn in Hs. pose proof (SaveHardState_file hs s) as Hf. by rewrite Hs in Hf. Qed.
Next Obligation. intros es s. cbn. rewrite err_of_state. by apply file_hs_keeps, keeps_AppendEntries. Qed.
Next Obligation. intros es s. cbn. rewrite err_of_state. by apply file_hs_keeps, keeps_ReplaceEntries. Qed.
Next Obligation. intros sn s. cbn. rewrite err_of_state. by apply file_hs_keeps, keeps_writeJSON. Qed.
Next Obligation. intros s. cbn. by apply file_hs_keeps, keeps_Load. Qed.
Next Obligation. intros s s' hs es sn Hl. by eapply Load_file_hs. Qed.

(** ** Lines *)

Lemma splitLines_line line rest :
  Byte.x0a ∉ line → splitLines (line ++ Byte.x0a :: rest) = (line :: (splitLines rest).1, (splitLines rest).2).
Proof.
  induction line as [|b line IH]; intros Hb; cbn.
  - by destruct (splitLines rest).
  - apply not_elem_of_cons in Hb as [Hb Hl]. rewrite IH by done. by rewrite decide_False by congruence.
Qed.

Lemma splitLines_partial tl : Byte.x0a ∉ tl → splitLines tl = ([], tl).
Proof.
  induction tl as [|b tl IH]; intros Hb; cbn; [done|].
  apply not_elem_of_cons in Hb as [Hb Hl]. rewrite IH by done. by rewrite decide_False by congruence.
Qed.

Lemma splitLines_concat lines tl :
  Forall (λ l, Byte.x0a ∉ l) lines → Byte.x0a ∉ tl →
  splitLines (concat ((λ l, l ++ [Byte.x0a]) <$> lines) ++ tl) = (lines, tl).
Proof.
  intros Hl Ht. induction Hl as [|l lines Hl Hls IH]; cbn; [by apply splitLines_partial|].
  rewrite <- !app_assoc. cbn. rewrite splitLines_line by done. by rewrite IH.
Qed.

Lemma trimSpace_line l : trimSpace (marshalLine l) = marshalLine l ∧ marshalLine l ≠ [].
Proof.
  destruct (line_delimited l) as (b & mid & b' & -> & Hb & Hb'). split; [|done].
  unfold trimSpace. cbn [trimLeft]. rewrite Hb. change (b :: mid ++ [b']) with ([b] ++ mid ++ [b']).
  rewrite !reverse_app, !reverse_singleton. cbn [app trimLeft]. rewrite Hb'.
  by rewrite reverse_cons, reverse_app, reverse_involutive, reverse_singleton, <- app_assoc.
Qed.

(** The payload of an encoded record, without the line feed. *)
Definition lineOf (line : walLine) : bytes :=
  marshalLine (mkWalLine line.(wl_Type) line.(wl_LastIncludedIndex) line.(wl_LastIncludedTerm)
    line.(wl_Index) line.(wl_Term) line.(wl_Command) (Some (walChecksum line))).
Definition baseLine (bi bt : N) : bytes := lineOf (mkWalLine walBaseRecordType bi bt 0 0 zeroCommand None).
Definition entryLine (e : LogEntry) : bytes := lineOf (mkWalLine "" 0 0 e.(Index) e.(Term) e.(EntryCommand) None).

Lemma decode_base bi bt : decodeWALLine (baseLine bi bt) = inl (inl (bi, bt)).
Proof.
  unfold decodeWALLine, baseLine, lineOf. rewrite unmarshal_line. cbn [wl_CRC].
  rewrite bool_decide_false by (intros Hn; by apply Hn). done.
Qed.

Lemma decode_entry e : decodeWALLine (entryLine e) = inl (inr e).
Proof.
  unfold decodeWALLine, entryLine, lineOf. rewrite unmarshal_line. cbn [wl_CRC].
  rewrite bool_decide_false by (intros Hn; by apply Hn). by destruct e.
Qed.

Lemma lineOf_trim l : trimSpace (lineOf l) = lineOf l ∧ lineOf l ≠ [] ∧ Byte.x0a ∉ lineOf l.
Proof. split_and!; [apply trimSpace_line..|apply line_no_newline]. Qed.

(** The lines of a WAL with base [(bi, bt)] and entries [es]. *)
Definition walLines (bi bt : N) (es : list LogEntry) : list bytes := baseLine bi bt :: (entryLine <$> es).
Definition walBytes (bi bt : N) (es : list LogEntry) : bytes := concat ((λ l, l ++ [Byte.x0a]) <$> walLines bi bt es).

Lemma walBytes_encode bi bt es : concat (encodeWALBase bi bt :: (encodeWALEntry <$> es)) = walBytes bi bt es.
Proof. unfold walBytes, walLines. cbn. by rewrite <- list_fmap_compose. Qed.

Lemma walBytes_app bi bt es es' : walBytes bi bt (es ++ es') = walBytes bi bt es ++ concat (encodeWALEntry <$> es').
Proof.
  unfold walBytes, walLines. cbn. rewrite fmap_app, fmap_app, concat_app, <- !app_assoc.
  by rewrite <- (list_fmap_compose entryLine _ es').
Qed.

Lemma lines_no_newline bi bt es : Forall (λ l, Byte.x0a ∉ l) (walLines bi bt es).
Proof.
  constructor; [apply lineOf_trim|]. apply Forall_fmap, Forall_true. intros e. apply lineOf_trim.
Qed.

Lemma splitLines_wal bi bt es tl : Byte.x0a ∉ tl → splitLines (walBytes bi bt es ++ tl) = (walLines bi bt es, tl).
Proof. intros. apply splitLines_concat; [apply lines_no_newline|done]. Qed.

Lemma walBytes_nonempty bi bt es : walBytes bi bt es ≠ [].
Proof. unfold walBytes, walLines. cbn. by destruct (baseLine bi bt). Qed.

(** ** Reading what was written *)

Lemma readLine_entry off w e :
  w.(hasBase) = true → contiguous (w.(baseIndex) + 1) (w.(wal_entries) ++ [e]) →
  (w.(baseIndex) + len w.(wal_entries) + 1 < two64)%N →
  readLine off w (entryLine e) = inl (mkWalData true w.(baseIndex) w.(baseTerm) (w.(wal_entries) ++ [e])).
Proof.
  intros Hb Hc Hr. unfold readLine. destruct (lineOf_trim (mkWalLine "" 0 0 e.(Index) e.(Term) e.(EntryCommand) None)) as (Ht & Hne & _).
  fold (entryLine e) in Ht, Hne. rewrite Ht, decide_False by done. rewrite decode_entry.
  apply contiguous_app in Hc as [Hc He]. apply contiguous_cons in He as [He _].
  rewrite decide_False by lia. rewrite decide_False by lia.
  rewrite decide_False; [|intros (Hnil & _ & Hne'); apply Hne'; rewrite He, Hnil, len_nil; usimp; lia].
  rewrite Hb. destruct (last (wal_entries w)) as [prev|] eqn:El; [|done].
  rewrite decide_False; [done|]. intros Hn. apply Hn. rewrite He.
  rewrite last_lookup in El. rewrite (Hc _ _ El). apply lookup_lt_Some in El. unfold len in *. usimp. lia.
Qed.

Lemma readLines_entries es : ∀ off w,
  w.(hasBase) = true → contiguous (w.(baseIndex) + 1) (w.(wal_entries) ++ es) →
  (w.(baseIndex) + len w.(wal_entries) + len es < two64)%N →
  readLines off w (entryLine <$> es) = inl (mkWalData true w.(baseIndex) w.(baseTerm) (w.(wal_entries) ++ es)).
Proof.
  induction es as [|e es IH]; intros off w Hb Hc Hr.
  - cbn. rewrite app_nil_r. destruct w; cbn in *. by subst.
  - cbn [fmap list_fmap readLines]. unfold len in *. cbn in Hr.
    replace (wal_entries w ++ e :: es) with ((wal_entries w ++ [e]) ++ es) in * by (by rewrite <- app_assoc).
    rewrite (readLine_entry off w e Hb); [|by apply contiguous_app in Hc as [? _]|unfold len; lia].
    rewrite IH; cbn; [done|done|done|]. unfold len. rewrite length_app. cbn. lia.
Qed.

Lemma readLines_wal bi bt es :
  contiguous (bi + 1) es → (bi + len es < two64)%N →
  readLines 0 emptyWal (walLines bi bt es) = inl (mkWalData true bi bt es).
Proof.
  intros Hc Hr. unfold walLines. cbn [readLines]. unfold readLine at 1.
  destruct (lineOf_trim (mkWalLine walBaseRecordType bi bt 0 0 zeroCommand None)) as (Ht & Hne & _).
  fold (baseLine bi bt) in Ht, Hne. rewrite Ht, decide_False by done. rewrite decode_base.
  rewrite decide_False by (cbn; intros [?|?]; [done|lia]).
  rewrite readLines_entries; [done|done|done|]. cbn. unfold len in *. cbn. lia.
Qed.

(** ** The log on disk *)

Definition lineEntry (line : bytes) : option LogEntry :=
  match decodeWALLine (trimSpace line) with inl (inr e) => Some e | _ => None end.

(** The entries of the complete lines. *)
Definition file_log s : list LogEntry :=
  match s.(f_wal) with
  | None => []
  | Some data => omap lineEntry (splitLines data).1
  end.

(** The WAL does not exist, is empty, or is a base line followed by entry
    lines: no append was interrupted. *)
Definition wal_intact s : Prop :=
  match s.(f_wal) with
  | None => True
  | Some data => data = [] ∨ ∃ bi bt es, data = walBytes bi bt es
  end.

Lemma omap_entries (es : list LogEntry) : omap lineEntry (entryLine <$> es) = es.
Proof.
  induction es as [|e es IH]; cbn; [done|]. unfold lineEntry at 1.
  destruct (lineOf_trim (mkWalLine "" 0 0 e.(Index) e.(Term) e.(EntryCommand) None)) as (Ht & _).
  fold (entryLine e) in Ht. rewrite Ht, decode_entry. by f_equal.
Qed.

Lemma file_log_wal s bi bt es : s.(f_wal) = Some (walBytes bi bt es) → file_log s = es.
Proof.
  intros Hw. unfold file_log. rewrite Hw, <- (app_nil_r (walBytes _ _ _)), splitLines_wal by (by apply not_elem_of_nil).
  unfold walLines. cbn [fst omap list_omap]. unfold lineEntry at 1.
  destruct (lineOf_trim (mkWalLine walBaseRecordType bi bt 0 0 zeroCommand None)) as (Ht & _).
  fold (baseLine bi bt) in Ht. rewrite Ht, decode_base. apply omap_entries.
Qed.

Lemma appendLines_ok lines : ∀ s d u s',
  s.(f_wal) = Some d → appendLines lines s = (inl u, s') → s'.(f_wal) = Some (d ++ concat lines).
Proof.
  induction lines as [|l lines IH]; intros s d u s' Hd; cbn [appendLines concat].
  - intros [= _ <-]. by rewrite app_nil_r.
  - intros (v & s1 & Ha & Hr)%bind_inl. rewrite app_assoc. eapply IH; [|exact Hr].
    unfold appendBytes in Ha. destruct (f_faults s) as [|[]]; simplify_eq/=; by rewrite Hd, firstn_all.
Qed.

(** What a successful append has done to the file. *)
Lemma wal_AppendEntries_ok es s u s' :
  wal_AppendEntries es s = (inl u, s') → es ≠ [] →
  (default [] s.(f_wal) = [] ∧ ∃ bi bt, s'.(f_wal) = Some (walBytes bi bt es)) ∨
  (∃ d, s.(f_wal) = Some d ∧ d ≠ [] ∧ s'.(f_wal) = Some (d ++ concat (encodeWALEntry <$> es))).
Proof.
  intros He Hne. unfold wal_AppendEntries in He.
  replace (match es with [] => _ | _ => _ end) with
    (syscall ≫= λ _, get_content PWal ≫= λ data,
      let created := match data with None => true | Some d => bool_decide (d = []) end in
      (if (created : bool) then snapshotBaseLocked else mret (0, 0)%N) ≫= λ '(bi, bt),
      syscall ≫= λ _, put_content PWal (Some (default [] data)) ≫= λ _,
      appendLines ((if created then [encodeWALBase bi bt] else []) ++ (encodeWALEntry <$> es)) ≫= λ _,
      syncClose ≫= λ _, if (created : bool) then syncDir else mret tt) in He by (by destruct es).
  apply bind_inl in He as (? & s1 & ->%syscall_ok & He).
  apply bind_inl in He as (data & s2 & [= <- <-] & He). cbv zeta in He. cbn [content f_wal with_faults] in He.
  set (created := match f_wal s with None => true | Some d => bool_decide (d = []) end) in He.
  apply bind_inl in He as ([bi bt] & s3 & _ & He).
  apply bind_inl in He as (? & s4 & ->%syscall_ok & He).
  apply bind_inl in He as (? & s5 & [= _ <-] & He).
  apply bind_inl in He as (? & s6 & Happ & He).
  eapply appendLines_ok in Happ; [|reflexivity].
  assert (s'.(f_wal) = s6.(f_wal)) as Hs'.
  { assert (keeps PWal (syncClose ≫= λ _, if created then syncDir else mret tt)) as Hk.
    { unfold syncClose. keeps_tac. destruct created; auto with raft. }
    specialize (Hk s6). by rewrite He in Hk. }
  rewrite Hs', Happ. destruct (f_wal s) as [d|] eqn:Ed; cbn in created; subst created.
  - case_bool_decide as Hd; [left|right].
    + subst d. split; [done|]. exists bi, bt. by rewrite <- walBytes_encode.
    + exists d. done.
  - left. split; [done|]. exists bi, bt. by rewrite <- walBytes_encode.
Qed.

Lemma append_log es s u s' :
  wal_intact s → wal_AppendEntries es s = (inl u, s') → wal_intact s' ∧ file_log s' = file_log s ++ es.
Proof.
  intros Hi He. destruct (decide (es = [])) as [->|Hne].
  { cbn in He. injection He as _ <-. by rewrite app_nil_r. }
  apply wal_AppendEntries_ok in He as [[Hd (bi & bt & Hw)]|(d & Hd & Hdn & Hw)]; [| |done].
  - split; [unfold wal_intact; rewrite Hw; right; eauto|]. rewrite (file_log_wal _ _ _ _ Hw).
    unfold file_log. by destruct (f_wal s) as [d|]; [cbn in Hd; subst d|].
  - unfold wal_intact in Hi. rewrite Hd in Hi. destruct Hi as [?|(bi & bt & es0 & ->)]; [done|].
    rewrite <- walBytes_app in Hw. split; [unfold wal_intact; rewrite Hw; right; eauto|].
    by rewrite (file_log_wal _ _ _ _ Hw), (file_log_wal _ _ _ _ Hd).
Qed.

Lemma replace_log es s u s' :
  wal_ReplaceEntries es s = (inl u, s') → wal_intact s' ∧ file_log s' = es ∧
  ∃ bi bt, s'.(f_wal) = Some (walBytes bi bt es).
Proof.
  unfold wal_ReplaceEntries. intros ([bi bt] & s1 & _ & Hw)%bind_inl.
  pose proof (sets_writeWAL bi bt es s1) as Hs. rewrite Hw, walBytes_encode in Hs. cbn [content] in Hs.
  split_and!; [unfold wal_intact; rewrite Hs; right; eauto|by eapply file_log_wal|eauto].
Qed.

Lemma file_log_keeps {A} (m : M A) s : keeps PWal m →
  (wal_intact s → wal_intact (m s).2) ∧ file_log (m s).2 = file_log s.
Proof. intros Hk. specialize (Hk s). cbn in Hk. unfold file_log, wal_intact. by rewrite Hk. Qed.

#[global, program] Instance FileStore_log : LogLaws FileStore :=
  {| log_inv := wal_intact; durable_log := file_log |}.
Next Obligation.
  intros es s s' Hi He. cbn in He. destruct (wal_AppendEntries es s) as [[u|e] s1] eqn:E; simplify_eq/=.
  by eapply append_log.
Qed.
Next Obligation.
  intros es s s' Hi He. cbn in He. destruct (wal_ReplaceEntries es s) as [[u|e] s1] eqn:E; simplify_eq/=.
  by destruct (replace_log _ _ _ _ E) as (? & ? & _).
Qed.
Next Obligation.
  intros hs s Hi. cbn. rewrite err_of_state.
  destruct (file_log_keeps (wal_SaveHardState hs) s) as [? ?]; [by apply keeps_writeJSON|]. auto.
Qed.

(** ** Loading, when no system call fails *)

Lemma bind_ok {A B} (m : M A) (f : A → M B) s a s1 : m s = (inl a, s1) → (m ≫= f) s = f a s1.
Proof. unfold mbind, M_bind. by intros ->. Qed.

Lemma readFile_calm p s : s.(f_faults) = [] → readFile p s = (inl (content p s), s).
Proof. intros Hf. unfold readFile. by rewrite (bind_ok _ _ _ _ _ (syscall_calm s Hf)). Qed.

Lemma readJSON_calm {A} (um : bytes → option A) p s (a : option A) :
  s.(f_faults) = [] → match content p s with None => a = None | Some d => um d = a ∧ a ≠ None end →
  readJSONFile um p s = (inl a, s).
Proof.
  intros Hf Ha. unfold readJSONFile. rewrite (bind_ok _ _ _ _ _ (readFile_calm p s Hf)).
  destruct (content p s) as [d|]; [|by subst a]. destruct Ha as [-> Ha]. by destruct a.
Qed.

Lemma syncClose_calm s : s.(f_faults) = [] → syncClose s = (inl tt, s).
Proof. intros Hf. unfold syncClose. by rewrite (bind_ok _ _ _ _ _ (syscall_calm s Hf)), syscall_calm. Qed.

Lemma syncDir_calm s : s.(f_faults) = [] → syncDir s = (inl tt, s).
Proof.
  intros Hf. unfold syncDir. rewrite (bind_ok _ _ _ _ _ (syscall_calm s Hf)). unfold syncTolerant. rewrite Hf.
  by apply syncClose_calm.
Qed.

Lemma wrapping_ok {A} msg (m : M A) s a s1 : m s = (inl a, s1) → wrapping msg m s = (inl a, s1).
Proof. unfold wrapping. by intros ->. Qed.

Lemma tmpWrites_calm lines s : s.(f_faults) = [] → tmpWrites lines s = (inl tt, s).
Proof.
  intros Hf. induction lines as [|l lines IH]; [done|]. cbn [tmpWrites].
  by rewrite (bind_ok _ _ _ _ _ (syscall_calm s Hf)).
Qed.

Lemma writeWAL_calm bi bt es s : s.(f_faults) = [] →
  writeWALAtomic bi bt es s = (inl tt, with_wal (Some (walBytes bi bt es)) s).
Proof.
  intros Hf. unfold writeWALAtomic. rewrite (bind_ok _ _ _ _ _ (syscall_calm s Hf)).
  rewrite (bind_ok _ _ _ _ _ (tmpWrites_calm _ s Hf)), (bind_ok _ _ _ _ _ (syncClose_calm s Hf)).
  unfold rename. rewrite walBytes_encode.
  assert ((syscall ≫= λ _, put_content PWal (Some (walBytes bi bt es))) s =
          (inl tt, with_wal (Some (walBytes bi bt es)) s)) as Hr
    by (by rewrite (bind_ok _ _ _ _ _ (syscall_calm s Hf))).
  rewrite (bind_ok _ _ _ _ _ Hr). by apply syncDir_calm.
Qed.

Lemma truncate_calm s d size : s.(f_faults) = [] → s.(f_wal) = Some d →
  truncateFile size s = (inl tt, with_wal (Some (take size d)) s).
Proof.
  intros Hf Hd. unfold truncateFile. do 2 rewrite (bind_ok _ _ _ _ _ (syscall_calm s Hf)).
  unfold get_content, put_content. cbn [mbind M_bind content]. unfold mbind, M_bind. rewrite Hd. cbn [fmap option_fmap option_map].
  change (set_content PWal (Some (take size d)) s) with (with_wal (Some (take size d)) s).
  rewrite syncClose_calm by done. by apply syncDir_calm.
Qed.

(** The files besides the WAL, and no fault to come. *)
Record stored s (hs : HardState) (sn : Snapshot) : Prop := {
  sd_calm : s.(f_faults) = [];
  sd_hs : match s.(f_hardState) with None => hs = zeroHardState | Some d => d = marshalHardState hs end;
  sd_snap : match s.(f_snapshot) with None => sn = zeroSnapshot | Some d => d = marshalSnapshot sn end }.

(** [readWAL] on an intact WAL followed by a torn line. *)
Lemma readWAL_calm s bi bt es tl :
  s.(f_faults) = [] → s.(f_wal) = Some (walBytes bi bt es ++ tl) → Byte.x0a ∉ tl →
  contiguous (bi + 1) es → (bi + len es < two64)%N →
  readWAL s = (inl (mkWalData true bi bt es), with_wal (Some (walBytes bi bt es)) s).
Proof.
  intros Hf Hw Htl Hc Hr. unfold readWAL. rewrite (bind_ok _ _ _ _ _ (readFile_calm PWal s Hf)).
  cbn [content]. rewrite Hw, splitLines_wal by done. rewrite readLines_wal by done. case_decide as Hd.
  - subst tl. rewrite app_nil_r in Hw. unfold mret, M_ret, with_wal. rewrite <- Hw. by destruct s.
  - rewrite (bind_ok _ _ _ _ _ (wrapping_ok _ _ _ _ _ (truncate_calm s _ _ Hf Hw))). unfold mret, M_ret.
    rewrite length_app. replace (length (walBytes bi bt es) + length tl - length tl) with (length (walBytes bi bt es)) by lia.
    by rewrite take_app_length.
Qed.

Lemma entriesAfter_all es (bi : N) : contiguous (bi + 1) es → entriesAfter es bi = (es, false).
Proof.
  intros Hc. unfold entriesAfter.
  rewrite filter_all; [by rewrite bool_decide_false by (intros Hn; by apply Hn)|].
  apply Forall_lookup. intros i e He. rewrite (Hc _ _ He). lia.
Qed.

(** Whatever the WAL turns out to hold, the other files give the rest. *)
Lemma Load_stored s hs sn wal s1 :
  stored s hs sn → readWAL s = (inl wal, s1) → s1.(f_faults) = [] →
  wal_Load s =
    if decide (0 < sn.(LastIncludedIndex))%N then
      let '(entries, rewrite) := reconcileWALWithSnapshot wal sn in
      (inl (hs, entries, sn),
       if (rewrite : bool)
       then with_wal (Some (walBytes sn.(LastIncludedIndex) sn.(LastIncludedTerm) entries)) s1 else s1)
    else if decide (wal.(hasBase) = true ∧ (0 < wal.(baseIndex))%N) then
      (inr (ErrText ("WAL is based at snapshot index " +:+ pretty wal.(baseIndex) +:+ " but snapshot is missing")), s1)
    else (inl (hs, wal.(wal_entries), sn), s1).
Proof.
  intros [Hf Hh Hs] Hr Hf1. unfold wal_Load.
  assert (∃ hs0, readJSONFile unmarshalHardState PHardState s = (inl hs0, s) ∧ default zeroHardState hs0 = hs) as (hs0 & E0 & <-).
  { destruct (f_hardState s) as [d|] eqn:E; [exists (Some hs)|exists None];
      (split; [apply readJSON_calm; [done|cbn; by rewrite E]|by subst]) ||
      (split; [apply readJSON_calm; [done|cbn; rewrite E; subst d; by rewrite unmarshal_hs]|done]). }
  rewrite (bind_ok _ _ _ _ _ E0).
  assert (∃ sn0, readJSONFile unmarshalSnapshot PSnapshot s = (inl sn0, s) ∧ default zeroSnapshot sn0 = sn) as (sn0 & E1 & <-).
  { destruct (f_snapshot s) as [d|] eqn:E; [exists (Some sn)|exists None];
      (split; [apply readJSON_calm; [done|cbn; by rewrite E]|by subst]) ||
      (split; [apply readJSON_calm; [done|cbn; rewrite E; subst d; by rewrite unmarshal_snapshot]|done]). }
  rewrite (bind_ok _ _ _ _ _ E1). cbv zeta. rewrite (bind_ok _ _ _ _ _ Hr).
  set (sn := default zeroSnapshot sn0). case_decide; [|by case_decide].
  destruct (reconcileWALWithSnapshot wal sn) as [entries []]; [|done].
  by rewrite (bind_ok _ _ _ _ _ (writeWAL_calm _ _ entries s1 Hf1)).
Qed.

Lemma with_wal_faults v s : (with_wal v s).(f_faults) = s.(f_faults).
Proof. done. Qed.

(** An intact WAL on top of its own snapshot, possibly followed by a torn
    line. *)
Lemma Load_intact s hs sn bt es tl :
  stored s hs sn → wf_log sn es → (bt = sn.(LastIncludedTerm) ∨ sn.(LastIncludedIndex) = 0%N) →
  s.(f_wal) = Some (walBytes sn.(LastIncludedIndex) bt es ++ tl) → Byte.x0a ∉ tl →
  wal_Load s = (inl (hs, es, sn), with_wal (Some (walBytes sn.(LastIncludedIndex) bt es)) s).
Proof.
  intros Hst [Hc Hr] Hbt Hw Htl. pose proof (sd_calm _ _ _ Hst) as Hf.
  erewrite Load_stored; [|exact Hst|by eapply readWAL_calm|done]. case_decide as Hd.
  - unfold reconcileWALWithSnapshot. cbn [hasBase baseIndex baseTerm wal_entries].
    rewrite decide_True by (split_and!; [done|done|destruct Hbt; [done|lia]]). by rewrite entriesAfter_all.
  - cbn [hasBase baseIndex wal_entries]. rewrite decide_False by lia. done.
Qed.

(** *** Torn appends *)

(** The first [k] bytes of encoded entries are the complete lines of some
    of them and the beginning of the next. *)
Lemma torn_split new : ∀ k,
  ∃ j tl, take k (concat (encodeWALEntry <$> new)) = concat (encodeWALEntry <$> take j new) ++ tl ∧
    Byte.x0a ∉ tl ∧ ∀ i, i ≤ length new → length (concat (encodeWALEntry <$> take i new)) ≤ k → i ≤ j.
Proof.
  induction new as [|e new IH]; intros k.
  - exists 0, []. split_and!; [by destruct k|by apply not_elem_of_nil|cbn; lia].
  - cbn [fmap list_fmap concat]. destruct (decide (k < length (encodeWALEntry e))) as [Hlt|Hge].
    + exists 0, (take k (encodeWALEntry e)). split_and!.
      * rewrite take_app_le by lia. done.
      * change (encodeWALEntry e) with (entryLine e ++ [Byte.x0a]) in *. rewrite length_app in Hlt. cbn in Hlt.
        rewrite take_app_le by lia. intros Hin.
        destruct (lineOf_trim (mkWalLine "" 0 0 e.(Index) e.(Term) e.(EntryCommand) None)) as (_ & _ & Hnl).
        apply Hnl. rewrite <- (take_drop k). apply elem_of_app. by left.
      * intros [|i] Hi Hk; [lia|]. cbn [take fmap list_fmap concat] in Hk. rewrite length_app in Hk. lia.
    + destruct (IH (k - length (encodeWALEntry e))) as (j & tl & Ht & Hnl & Hmax).
      exists (S j), tl. split_and!; [|done|].
      * rewrite take_app_ge by lia. rewrite Ht. cbn [take fmap list_fmap concat]. by rewrite app_assoc.
      * intros [|i] Hi Hk; [lia|]. cbn [take fmap list_fmap concat length] in Hi, Hk. rewrite length_app in Hk.
        specialize (Hmax i ltac:(lia) ltac:(lia)). lia.
Qed.

Lemma take_length_mono {A B} (f : A → list B) (l : list A) i j :
  i ≤ j → length (concat (f <$> take i l)) ≤ length (concat (f <$> take j l)).
Proof.
  revert i j. induction l as [|x l IH]; intros [|i] [|j] Hij; cbn; try lia.
  rewrite !length_app. specialize (IH i j). lia.
Qed.

(** The [j] of [torn_split] counts the complete lines: no more, no fewer. *)
Lemma torn_exact new k : ∃ j tl, j ≤ length new ∧
  take k (concat (encodeWALEntry <$> new)) = concat (encodeWALEntry <$> take j new) ++ tl ∧ Byte.x0a ∉ tl ∧
  ∀ i, i ≤ length new → length (concat (encodeWALEntry <$> take i new)) ≤ k ↔ i ≤ j.
Proof.
  destruct (torn_split new k) as (j0 & tl & Ht & Hnl & Hmax). exists (j0 `min` length new), tl.
  assert (take (j0 `min` length new) new = take j0 new) as Hj.
  { destruct (decide (j0 ≤ length new)); [by rewrite Nat.min_l|]. rewrite Nat.min_r by lia. by rewrite !take_ge by lia. }
  rewrite Hj. split_and!; [lia|done|done|]. intros i Hi. split; [intros Hk; specialize (Hmax i Hi Hk); lia|].
  intros Hij. apply (Nat.le_trans _ (length (concat (encodeWALEntry <$> take j0 new)))); [apply take_length_mono; lia|].
  apply (f_equal length) in Ht. rewrite length_take, length_app in Ht. lia.
Qed.

(** *** A snapshot that is not the base of the WAL *)

Lemma boundary_entry es (bi : N) sn e :
  contiguous (bi + 1) es → (bi < sn.(LastIncludedIndex))%N →
  es !! N.to_nat (sn.(LastIncludedIndex) - bi - 1) = Some e → e.(Term) = sn.(LastIncludedTerm) →
  hasSnapshotBoundaryEntry es sn = true.
Proof.
  revert bi. induction es as [|x es IH]; intros bi Hc Hlt Hl Ht; [done|].
  apply contiguous_cons in Hc as [Hx Hc]. cbn [hasSnapshotBoundaryEntry]. case_decide as Hi.
  - replace (N.to_nat _) with 0 in Hl by lia. injection Hl as ->. by apply bool_decide_true.
  - apply (IH (bi + 1)%N); [done|lia| |done].
    replace (N.to_nat (LastIncludedIndex sn - bi - 1)) with (S (N.to_nat (LastIncludedIndex sn - (bi + 1) - 1))) in Hl by lia.
    done.
Qed.

(** The boundary entry exists only at the snapshot's own position. *)
Lemma no_boundary es (bi : N) sn :
  contiguous (bi + 1) es → (0 < sn.(LastIncludedIndex))%N →
  (∀ e, (bi < sn.(LastIncludedIndex))%N → es !! N.to_nat (sn.(LastIncludedIndex) - bi - 1) = Some e →
        e.(Term) ≠ sn.(LastIncludedTerm)) →
  hasSnapshotBoundaryEntry es sn = false.
Proof.
  revert bi. induction es as [|x es IH]; intros bi Hc Hp Hn; [apply bool_decide_false; lia|].
  apply contiguous_cons in Hc as [Hx Hc]. cbn [hasSnapshotBoundaryEntry]. case_decide as Hi.
  - apply bool_decide_false. apply (Hn x); [lia|]. by replace (N.to_nat _) with 0 by lia.
  - apply (IH (bi + 1)%N); [done|done|]. intros e Hlt He. apply (Hn e); [lia|].
    by replace (N.to_nat (LastIncludedIndex sn - bi - 1)) with (S (N.to_nat (LastIncludedIndex sn - (bi + 1) - 1))) by lia.
Qed.

(** What [Load] makes of a WAL whose base is not the stored snapshot: the
    entries above the snapshot when the WAL has the snapshot's last entry,
    nothing otherwise.  The WAL is rewritten to match. *)
Lemma Load_rebased s hs sn bi bt es :
  stored s hs sn → contiguous (bi + 1) es → (bi + len es < two64)%N →
  s.(f_wal) = Some (walBytes bi bt es) → (0 < sn.(LastIncludedIndex))%N → bi ≠ sn.(LastIncludedIndex) →
  let kept := if hasSnapshotBoundaryEntry es sn then entriesAbove es sn.(LastIncludedIndex) else [] in
  wal_Load s = (inl (hs, kept, sn),
                with_wal (Some (walBytes sn.(LastIncludedIndex) sn.(LastIncludedTerm) kept)) s).
Proof.
  intros Hst Hc Hr Hw Hp Hne kept. pose proof (sd_calm _ _ _ Hst) as Hf.
  assert (readWAL s = (inl (mkWalData true bi bt es), s)) as Hread.
  { rewrite (readWAL_calm s bi bt es [] Hf); [|by rewrite app_nil_r|by apply not_elem_of_nil|done|done].
    unfold with_wal. rewrite <- Hw. by destruct s. }
  rewrite (Load_stored _ _ _ _ _ Hst Hread Hf), decide_True by done.
  unfold reconcileWALWithSnapshot, kept. cbn [hasBase baseIndex baseTerm wal_entries].
  rewrite decide_False by (by intros (_ & ? & _)). destruct (hasSnapshotBoundaryEntry es sn); [done|].
  by rewrite decide_False by (by intros [_ ?]).
Qed.

Lemma readLines_bad_first bi bt e es :
  (0 < e.(Index) ≤ bi)%N → ∃ err, readLines 0 emptyWal (walLines bi bt (e :: es)) = inr err.
Proof.
  intros He. unfold walLines. cbn [fmap list_fmap readLines]. unfold readLine at 1.
  destruct (lineOf_trim (mkWalLine walBaseRecordType bi bt 0 0 zeroCommand None)) as (Ht & Hne & _).
  fold (baseLine bi bt) in Ht, Hne. rewrite Ht, decide_False by done. rewrite decode_base.
  rewrite decide_False by (cbn; intros [?|?]; [done|lia]).
  unfold readLine at 1.
  destruct (lineOf_trim (mkWalLine "" 0 0 e.(Index) e.(Term) e.(EntryCommand) None)) as (Ht' & Hne' & _).
  fold (entryLine e) in Ht', Hne'. rewrite Ht', decide_False by done. rewrite decode_entry.
  rewrite decide_False by lia. rewrite decide_True by (cbn; split; [done|lia]). by eexists.
Qed.

(** *** WALs that are refused *)

Lemma readLines_error before line after : ∀ off w,
  (∀ off w, ∃ err, readLine off w line = inr err) → ∃ e, readLines off w (before ++ line :: after) = inr e.
Proof.
  induction before as [|l before IH]; intros off w Hl; cbn [app readLines].
  - destruct (Hl off w) as [err ->]. eauto.
  - destruct (readLine off w l); [by apply IH|eauto].
Qed.

Lemma readLine_corrupt off w line raw sum :
  unmarshalLine (trimSpace line) = Some raw → raw.(wl_CRC) = Some sum → sum ≠ walChecksum raw →
  ∃ at_, readLine off w line = inr (WrapError at_ (ErrText "checksum mismatch")).
Proof.
  intros Hu Hc Hs. unfold readLine. rewrite decide_False.
  - unfold decodeWALLine. rewrite Hu, Hc. rewrite bool_decide_true by congruence. eauto.
  - intros Hn. rewrite Hn, unmarshal_empty in Hu. done.
Qed.

Lemma splitLines_app before data :
  Forall (λ l, Byte.x0a ∉ l) before →
  splitLines (concat ((λ l, l ++ [Byte.x0a]) <$> before) ++ data) =
    (before ++ (splitLines data).1, (splitLines data).2).
Proof.
  intros Hl. induction Hl as [|l before Hl Hls IH]; cbn; [by destruct (splitLines data)|].
  rewrite <- !app_assoc. cbn. rewrite splitLines_line by done. by rewrite IH.
Qed.

(** A WAL whose lines are refused makes [Load] fail, whatever else happens. *)
Lemma Load_refuses s data e :
  s.(f_wal) = Some data → readLines 0 emptyWal (splitLines data).1 = inr e → ∃ err, (wal_Load s).1 = inr err.
Proof.
  intros Hw He. destruct (wal_Load s) as [[r|err] s'] eqn:E; [exfalso|by exists err].
  unfold wal_Load in E. apply bind_inl in E as (hs & s1 & E1 & E). apply bind_inl in E as (sn & s2 & E2 & E).
  apply bind_inl in E as (wal & s3 & E3 & _).
  assert (s2.(f_wal) = Some data) as Hw2.
  { pose proof (keeps_readJSON PWal PHardState unmarshalHardState s) as K1. rewrite E1 in K1.
    pose proof (keeps_readJSON PWal PSnapshot unmarshalSnapshot s1) as K2. rewrite E2 in K2. cbn in *. congruence. }
  unfold readWAL, readFile in E3. apply bind_inl in E3 as (d & s4 & E4 & E3).
  apply bind_inl in E4 as (u & s5 & ->%syscall_ok & [= <- <-]).
  cbn [content f_wal with_faults] in E3. rewrite Hw2 in E3.
  destruct (splitLines data) as [ls tl]. cbn in He. rewrite He in E3. discriminate E3.
Qed.

Lemma snapshotBase_value s bi bt s' sn :
  s.(f_snapshot) = Some (marshalSnapshot sn) → snapshotBaseLocked s = (inl (bi, bt), s') →
  bi = sn.(LastIncludedIndex) ∧ bt = sn.(LastIncludedTerm).
Proof.
  intros Hs. unfold snapshotBaseLocked, readJSONFile, readFile.
  intros (o & s1 & E & E')%bind_inl. apply bind_inl in E as (d & s2 & E2 & E).
  apply bind_inl in E2 as (u & s3 & ->%syscall_ok & [= <- <-]). cbn [content f_snapshot with_faults] in E.
  rewrite Hs, unmarshal_snapshot in E. injection E as <- <-. injection E' as <- <- _. done.
Qed.

End proofs.

(** ** Properties *)

Section properties.
Context `{StoreJson} `{!StoreJsonLaws}.
Implicit Types s : FileStore.

(** C19. Crash recovery of the WAL.  If the machine stops while entries are
    being appended, whatever number of the appended bytes reached the file,
    the next [Load] returns the log as it was followed by exactly those new
    entries whose lines are complete, newline included (the [j] first ones,
    where [i] lines are among the written bytes if and only if [i <= j]),
    cuts the torn line off, and loading again gives the same. *)
Theorem torn_append_recovers s hs sn es new k :
  stored s hs sn → wf_log sn (es ++ new) →
  s.(f_wal) = Some (walBytes sn.(LastIncludedIndex) sn.(LastIncludedTerm) es ++
                    take k (concat (encodeWALEntry <$> new))) →
  ∃ j s', wal_Load s = (inl (hs, es ++ take j new, sn), s') ∧
    wal_Load s' = (inl (hs, es ++ take j new, sn), s') ∧
    wal_intact s' ∧ file_log s' = es ++ take j new ∧
    j ≤ length new ∧
    (∀ i, i ≤ length new → length (concat (encodeWALEntry <$> take i new)) ≤ k ↔ i ≤ j).
Proof.
  intros Hst Hwf Hw. destruct (torn_exact new k) as (j & tl & Hj & Ht & Htl & Hmax).
  rewrite Ht, app_assoc, <- walBytes_app in Hw.
  assert (wf_log sn (es ++ take j new)) as Hwf'.
  { destruct Hwf as [Hc Hr]. rewrite <- (take_drop j new), app_assoc in Hc, Hr. apply contiguous_app in Hc as [? _].
    split; [done|]. rewrite len_app in Hr. lia. }
  set (s' := with_wal (Some (walBytes sn.(LastIncludedIndex) sn.(LastIncludedTerm) (es ++ take j new))) s).
  exists j, s'. split_and!; [| | | |done|done].
  - by eapply Load_intact; [|done|left| |].
  - assert (stored s' hs sn) as Hst' by (destruct Hst; by split).
    rewrite (Load_intact s' hs sn sn.(LastIncludedTerm) (es ++ take j new) []); [done|done|done|by left| |by apply not_elem_of_nil].
    by rewrite app_nil_r.
  - right. eauto.
  - by eapply file_log_wal.
Qed.

(** C20. A crash in the middle of compaction or of an installation.  When the
    new snapshot file is in place and the WAL still starts at an older base,
    [Load] keeps the entries above the snapshot if the WAL holds the entry at
    the snapshot's index with the snapshot's term, and otherwise (that entry
    is missing or of another term, so that what follows it cannot be trusted)
    keeps none; it rewrites the WAL to match, and loading again gives the
    same. *)
Theorem interrupted_compaction_recovers s hs sn bi bt es :
  stored s hs sn → contiguous (bi + 1) es → (bi + len es < two64)%N →
  s.(f_wal) = Some (walBytes bi bt es) → (bi < sn.(LastIncludedIndex) < two64)%N →
  let boundary := es !! N.to_nat (sn.(LastIncludedIndex) - bi - 1) in
  ∃ kept s', wal_Load s = (inl (hs, kept, sn), s') ∧ wal_Load s' = (inl (hs, kept, sn), s') ∧
    wal_intact s' ∧ file_log s' = kept ∧
    (Term <$> boundary = Some sn.(LastIncludedTerm) → kept = entriesAbove es sn.(LastIncludedIndex)) ∧
    (Term <$> boundary ≠ Some sn.(LastIncludedTerm) → kept = []).
Proof.
  intros Hst Hc Hr Hw Hlt boundary.
  set (kept := if hasSnapshotBoundaryEntry es sn then entriesAbove es sn.(LastIncludedIndex) else []).
  set (s' := with_wal (Some (walBytes sn.(LastIncludedIndex) sn.(LastIncludedTerm) kept)) s). exists kept, s'.
  assert (stored s' hs sn) as Hst' by (destruct Hst; by split).
  assert (Term <$> boundary = Some sn.(LastIncludedTerm) → kept = entriesAbove es sn.(LastIncludedIndex)) as Hyes.
  { intros (e & He & Ht)%fmap_Some. unfold kept. by rewrite (boundary_entry es bi sn e) by (lia || done). }
  assert (Term <$> boundary ≠ Some sn.(LastIncludedTerm) → kept = []) as Hno.
  { intros Hn. unfold kept. rewrite (no_boundary es bi sn); [done|done|lia|]. intros e _ He Ht. apply Hn.
    unfold boundary. by rewrite He, <- Ht. }
  assert (wf_log sn kept) as Hwf'.
  { destruct (decide (Term <$> boundary = Some sn.(LastIncludedTerm))) as [Hb|Hb].
    - rewrite (Hyes Hb). apply (wf_log_compact (mkSnapshot bi bt None)); [by split|].
      apply fmap_Some in Hb as (e & He & _). rewrite (lastIndex_wf (mkSnapshot bi bt None) es ltac:(by split)).
      apply lookup_lt_Some in He. cbn. unfold len. lia.
    - rewrite (Hno Hb). split; [apply contiguous_nil|unfold len; cbn [length]; lia]. }
  split_and!; [| | | |done|done].
  - apply (Load_rebased s hs sn bi bt es); (done || lia).
  - rewrite (Load_intact s' hs sn sn.(LastIncludedTerm) kept []); [done|done|done|by left| |by apply not_elem_of_nil].
    by rewrite app_nil_r.
  - right. eauto.
  - by eapply file_log_wal.
Qed.

(** C27. A corrupted record is never accepted.  A WAL with a complete line
    whose checksum does not match its contents makes [Load] fail, whatever
    precedes and follows the line. *)
Theorem corrupt_line_rejected s before line after raw sum :
  unmarshalLine (trimSpace line) = Some raw → raw.(wl_CRC) = Some sum → sum ≠ walChecksum raw →
  Byte.x0a ∉ line → Forall (λ l, Byte.x0a ∉ l) before →
  s.(f_wal) = Some (concat ((λ l, l ++ [Byte.x0a]) <$> before) ++ line ++ Byte.x0a :: after) →
  ∃ e, (wal_Load s).1 = inr e.
Proof.
  intros Hu Hc Hs Hnl Hb Hw.
  destruct (readLines_error before line (splitLines after).1 0 emptyWal) as [e He].
  { intros off w. destruct (readLine_corrupt off w line raw sum Hu Hc Hs) as [at_ ?]. eauto. }
  eapply Load_refuses; [exact Hw|]. rewrite splitLines_app by done. cbn [fst].
  by rewrite splitLines_line.
Qed.

(** C28. A store that cannot be loaded.  When a snapshot file is saved and the
    WAL is then rewritten with entries the snapshot already covers (what
    [HandleAppendEntries] does on a conflict while [persistSnapshot] is
    between its two writes), the WAL starts with an entry at or below its
    base and every later [Load] fails: after a crash at that point the node
    does not start again. *)
Theorem compaction_window_breaks_load s sn e es s1 s2 :
  wal_SaveSnapshot sn s = (inl tt, s1) → wal_ReplaceEntries (e :: es) s1 = (inl tt, s2) →
  (0 < e.(Index) ≤ sn.(LastIncludedIndex))%N →
  ∃ err, (wal_Load s2).1 = inr err.
Proof.
  intros Hs Hr He. pose proof (sets_writeJSON PSnapshot (marshalSnapshot sn) s) as Hsn.
  unfold wal_SaveSnapshot in Hs. rewrite Hs in Hsn. cbn [content] in Hsn.
  unfold wal_ReplaceEntries in Hr. apply bind_inl in Hr as ([bi bt] & s3 & Hb & Hw).
  destruct (snapshotBase_value _ _ _ _ _ Hsn Hb) as [-> ->].
  pose proof (sets_writeWAL sn.(LastIncludedIndex) sn.(LastIncludedTerm) (e :: es) s3) as Hset.
  rewrite Hw, walBytes_encode in Hset. cbn [content] in Hset.
  destruct (readLines_bad_first sn.(LastIncludedIndex) sn.(LastIncludedTerm) e es He) as [err Herr].
  eapply Load_refuses; [exact Hset|].
  rewrite <- (app_nil_r (walBytes _ _ _)), splitLines_wal by (by apply not_elem_of_nil). exact Herr.
Qed.

End properties.

(** ** Witnesses

    The theorems at concrete files, with the codec of [Json.v]. *)

Lemma wf_log_two (bi : N) (e1 e2 : LogEntry) sn :
  sn.(LastIncludedIndex) = bi → e1.(Index) = (bi + 1)%N → e2.(Index) = (bi + 2)%N → (bi + 2 < two64)%N →
  wf_log sn [e1; e2].
Proof.
  intros <- H1 H2 Hr. split; [|done]. repeat (apply contiguous_cons; split; [lia|]). apply contiguous_nil.
Qed.

(** The second of two appended lines is torn in the middle. *)
Definition tornFile : FileStore :=
  mkFileStore (Some (marshalHardState (mkHardState 2 "n1" 1)))
    (Some (walBytes 0 0 [] ++ take 150 (concat (encodeWALEntry <$> [ent 1 1; ent 2 2])))) None [].

Lemma torn_append_recovers_witness :
  ∃ s', wal_Load tornFile = (inl (mkHardState 2 "n1" 1, [ent 1 1], zeroSnapshot), s').
Proof.
  destruct (torn_append_recovers tornFile (mkHardState 2 "n1" 1) zeroSnapshot [] [ent 1 1; ent 2 2] 150)
    as (j & s' & Hl & _ & _ & Hlog & _).
  - split; reflexivity.
  - apply (wf_log_two 0); reflexivity.
  - reflexivity.
  - exists s'. rewrite Hl. assert ((wal_Load tornFile).1 = inl (mkHardState 2 "n1" 1, [ent 1 1], zeroSnapshot)) as Hv
      by (vm_compute; reflexivity).
    rewrite Hl in Hv. cbn [fst] in Hv. injection Hv as Hv. by rewrite Hv.
Defined.

(** The snapshot up to index 1 is in place; the WAL still starts at 0. *)
Definition halfCompacted (snapTerm : N) : FileStore :=
  mkFileStore (Some (marshalHardState (mkHardState 1 "" 1))) (Some (walBytes 0 0 [ent 1 1; ent 2 1]))
    (Some (marshalSnapshot (mkSnapshot 1 snapTerm (Some ∅)))) [].

(** With the term of the entry the suffix is kept, with another one it is
    dropped. *)
Lemma interrupted_compaction_recovers_witness :
  (∃ s', wal_Load (halfCompacted 1) = (inl (mkHardState 1 "" 1, [ent 2 1], mkSnapshot 1 1 (Some ∅)), s') ∧
    file_log s' = [ent 2 1]) ∧
  (∃ s', wal_Load (halfCompacted 2) = (inl (mkHardState 1 "" 1, [], mkSnapshot 1 2 (Some ∅)), s') ∧ file_log s' = []).
Proof.
  assert (contiguous (0 + 1) [ent 1 1; ent 2 1]) as Hc
    by (repeat (apply contiguous_cons; split; [reflexivity|]); apply contiguous_nil).
  split.
  - destruct (interrupted_compaction_recovers (halfCompacted 1) (mkHardState 1 "" 1) (mkSnapshot 1 1 (Some ∅))
      0 0 [ent 1 1; ent 2 1]) as (kept & s' & Hl & _ & _ & Hlog & Hyes & _);
      [split; reflexivity|exact Hc|reflexivity|reflexivity|split; reflexivity|].
    exists s'. rewrite (Hyes eq_refl) in Hl, Hlog. by split.
  - destruct (interrupted_compaction_recovers (halfCompacted 2) (mkHardState 1 "" 1) (mkSnapshot 1 2 (Some ∅))
      0 0 [ent 1 1; ent 2 1]) as (kept & s' & Hl & _ & _ & Hlog & _ & Hno);
      [split; reflexivity|exact Hc|reflexivity|reflexivity|split; reflexivity|].
    exists s'. rewrite (Hno ltac:(discriminate)) in Hl, Hlog. by split.
Defined.

(** A stored term changed from 1 to 2 under the checksum of the old line. *)
Definition flipped : walLine :=
  mkWalLine "" 0 0 1 2 zeroCommand (Some (walChecksum (mkWalLine "" 0 0 1 1 zeroCommand None))).

Lemma corrupt_line_rejected_witness :
  ∃ e, (wal_Load (mkFileStore None (Some (encodeWALBase 0 0 ++ marshalLine flipped ++ Byte.x0a :: encodeWALEntry (ent 2 2)))
                   None [])).1 = inr e.
Proof.
  apply (corrupt_line_rejected _ [baseLine 0 0] (marshalLine flipped) (encodeWALEntry (ent 2 2)) flipped
    (walChecksum (mkWalLine "" 0 0 1 1 zeroCommand None))).
  - vm_compute. reflexivity.
  - reflexivity.
  - vm_compute. discriminate.
  - apply line_no_newline.
  - apply Forall_singleton. apply line_no_newline.
  - vm_compute. reflexivity.
Defined.

Definition emptyFiles : FileStore := mkFileStore None None None [].

Lemma compaction_window_breaks_load_witness :
  let sn := mkSnapshot 2 1 (Some ∅) in
  let s1 := (wal_SaveSnapshot sn emptyFiles).2 in
  let s2 := (wal_ReplaceEntries [ent 1 1; ent 2 1; ent 3 2] s1).2 in
  ∃ err, (wal_Load s2).1 = inr err.
Proof.
  intros sn s1 s2. apply (compaction_window_breaks_load emptyFiles sn (ent 1 1) [ent 2 1; ent 3 2] s1 s2).
  - vm_compute. reflexivity.
  - vm_compute. reflexivity.
  - split; [reflexivity|discriminate].
Defined.

(** The check value of the IEEE polynomial: the nine digits. *)
Example crc32_check :
  crc32 [Byte.x31; Byte.x32; Byte.x33; Byte.x34; Byte.x35; Byte.x36; Byte.x37; Byte.x38; Byte.x39] = 3421780262%N.
Proof. vm_compute. reflexivity. Qed.
