(* ===== verification/DiskWal.v ===== *)
(** * The file-backed store satisfies the laws of [Disk.v]

    Whatever system call fails, the three files of [Wal.v] are in one of
    the states the laws allow. *)

From S2P Require Import Prelude Types StoreIntf RaftLog Wal Json JsonProofs WalProofs Disk.

Section diskwal.
Context `{StoreJson} `{!StoreJsonLaws}.
Implicit Types s : FileStore.

(** ** What the files hold *)

Definition file_snap s : option Snapshot :=
  match s.(f_snapshot) with None => Some zeroSnapshot | Some d => unmarshalSnapshot d end.

Definition parseWal (d : option bytes) : option walData :=
  match d with
  | None => Some emptyWal
  | Some d => match readLines 0 emptyWal (splitLines d).1 with inl w => Some w | inr _ => None end
  end.

Definition loaded (sn : Snapshot) (w : walData) : option (Snapshot * list LogEntry) :=
  if decide (0 < sn.(LastIncludedIndex))%N then Some (sn, (reconcileWALWithSnapshot w sn).1)
  else if decide (w.(hasBase) = true ∧ (0 < w.(baseIndex))%N) then None
  else Some (sn, w.(wal_entries)).

Definition file_disk s : option (Snapshot * list LogEntry) :=
  sn ← file_snap s; w ← parseWal s.(f_wal); loaded sn w.

Definition file_disk_snap s : Snapshot := default zeroSnapshot (file_snap s).

(** The WAL: nothing, or a base line and entries; then a torn line. *)
Definition walShape (o : option (N * N * list LogEntry)) (tl : bytes) (d : option bytes) : Prop :=
  (Byte.x0a ∉ tl) ∧
  match o with
  | None => (d = None ∧ tl = []) ∨ d = Some tl
  | Some (bi, bt, es) => d = Some (walBytes bi bt es ++ tl) ∧ (bi < two64)%N ∧ Forall (λ e, e.(Index) < two64)%N es
  end.

Definition file_sound s : Prop :=
  ∃ sn o tl, file_snap s = Some sn ∧ walShape o tl s.(f_wal) ∧ (sn.(LastIncludedIndex) < two64)%N ∧
    match o with Some (bi, _, _) => (0 < bi → 0 < sn.(LastIncludedIndex))%N | None => True end.

(** The WAL follows the snapshot. *)
Definition hooked (sn : Snapshot) (w : walData) : Prop :=
  sn.(LastIncludedIndex) = 0%N ∨
  (w.(hasBase) = true ∧ w.(baseIndex) = sn.(LastIncludedIndex) ∧ w.(baseTerm) = sn.(LastIncludedTerm)) ∨
  hasSnapshotBoundaryEntry w.(wal_entries) sn = true ∨
  (w.(wal_entries) = [] ∧ w.(hasBase) = false).

Definition file_appendable s : Prop :=
  (∃ o, walShape o [] s.(f_wal)) ∧
  ∀ sn w, file_snap s = Some sn → parseWal s.(f_wal) = Some w → hooked sn w.

(** ** Reading *)

Lemma readLine_off off off' w line w' : readLine off w line = inl w' → readLine off' w line = inl w'.
Proof.
  unfold readLine. case_decide; [done|]. destruct (decodeWALLine _) as [[[bi bt]|e]|]; [case_decide; done| |done].
  do 3 (case_decide; [done|]). destruct (last _); [|done]. by case_decide.
Qed.

(** Only contiguous entries are accepted. *)
Lemma readLines_entries_inv es : ∀ off w w',
  w.(hasBase) = true → contiguous (w.(baseIndex) + 1) w.(wal_entries) →
  (w.(baseIndex) < two64)%N → Forall (λ e, e.(Index) < two64)%N w.(wal_entries) → Forall (λ e, e.(Index) < two64)%N es →
  readLines off w (entryLine <$> es) = inl w' → contiguous (w.(baseIndex) + 1) (w.(wal_entries) ++ es).
Proof.
  induction es as [|e es IH]; intros off w w' Hb Hc Hbi Hw Hes Hr; [by rewrite app_nil_r|].
  apply Forall_cons in Hes as [He Hes]. cbn [fmap list_fmap readLines] in Hr.
  destruct (readLine off w (entryLine e)) as [w1|] eqn:E; [|done].
  unfold readLine in E. destruct (lineOf_trim (mkWalLine "" 0 0 e.(Index) e.(Term) e.(EntryCommand) None)) as (Ht & Hne & _).
  fold (entryLine e) in Ht, Hne. rewrite Ht, decide_False in E by done. rewrite decode_entry in E.
  destruct (decide (Index e = 0%N)) as [|Hz]; [done|]. case_decide as Hlow; [done|]. case_decide as Hfirst; [done|].
  assert (contiguous (w.(baseIndex) + 1) (w.(wal_entries) ++ [e]) ∧
    w1 = mkWalData true w.(baseIndex) w.(baseTerm) (w.(wal_entries) ++ [e])) as [Hc1 ->].
  { destruct (last (wal_entries w)) as [prev|] eqn:El.
    - case_decide as Hn; [done|]. injection E as <-. rewrite Hb. split; [|done]. apply contiguous_app. split; [done|].
      apply contiguous_cons. split; [|apply contiguous_nil]. pose proof (contiguous_last _ _ _ Hc El) as [Hp Hl].
      rewrite last_lookup in El. pose proof (Forall_lookup_1 _ _ _ _ Hw El) as Hpr. cbn in Hpr.
      assert (Index e = Index prev +u 1) as Hi by (destruct (decide (Index e = Index prev +u 1)); tauto).
      destruct (decide (Index prev = two64 - 1)%N) as [Hmax|].
      + exfalso. apply Hz. rewrite Hi, Hmax. vm_compute. reflexivity.
      + rewrite Hi. usimp. lia.
    - injection E as <-. rewrite Hb. split; [|done]. apply last_None in El. rewrite El. cbn. apply contiguous_cons.
      split; [|apply contiguous_nil].
      assert (Index e = baseIndex w +u 1) as Hi by (destruct (decide (Index e = baseIndex w +u 1)); tauto).
      destruct (decide (baseIndex w = two64 - 1)%N) as [Hmax|].
      + exfalso. apply Hz. rewrite Hi, Hmax. vm_compute. reflexivity.
      + rewrite Hi. usimp. lia. }
  replace (wal_entries w ++ e :: es) with ((wal_entries w ++ [e]) ++ es) by (by rewrite <- app_assoc).
  eapply IH in Hr; cbn in *; [exact Hr|done|done|done| |done]. apply Forall_app. by split; [|constructor].
Qed.

Lemma contiguous_bound (bi : N) es :
  contiguous (bi + 1) es → (bi < two64)%N → Forall (λ e, e.(Index) < two64)%N es → (bi + len es < two64)%N.
Proof.
  intros Hc Hbi Hes. destruct (last es) as [x|] eqn:El.
  - pose proof (contiguous_last _ _ _ Hc El). rewrite last_lookup in El.
    pose proof (Forall_lookup_1 _ _ _ _ Hes El) as Hx. cbn in Hx. lia.
  - apply last_None in El as ->. rewrite len_nil. lia.
Qed.

Lemma parse_wal bi bt es tl : Byte.x0a ∉ tl → (bi < two64)%N → Forall (λ e, e.(Index) < two64)%N es →
  (contiguous (bi + 1) es ∧ parseWal (Some (walBytes bi bt es ++ tl)) = Some (mkWalData true bi bt es)) ∨
  (¬ contiguous (bi + 1) es ∧ parseWal (Some (walBytes bi bt es ++ tl)) = None).
Proof.
  intros Htl Hbi Hes. unfold parseWal. rewrite splitLines_wal by done. cbn [fst].
  destruct (readLines 0 emptyWal (walLines bi bt es)) as [w|e] eqn:E.
  - left. assert (contiguous (bi + 1) es) as Hc.
    { unfold walLines in E. cbn [readLines] in E. unfold readLine at 1 in E.
      destruct (lineOf_trim (mkWalLine walBaseRecordType bi bt 0 0 zeroCommand None)) as (Ht & Hne & _).
      fold (baseLine bi bt) in Ht, Hne. rewrite Ht, decide_False in E by done. rewrite decode_base in E.
      rewrite decide_False in E by (cbn; intros [?|?]; [done|lia]).
      eapply readLines_entries_inv in E; cbn in *; [exact E|done..]. }
    split; [done|]. rewrite readLines_wal in E; [by injection E as <-|done|].
    by apply contiguous_bound.
  - right. split; [|done]. intros Hc. rewrite readLines_wal in E; [done|done|].
    by apply contiguous_bound.
Qed.

Lemma parse_torn tl : Byte.x0a ∉ tl → parseWal (Some tl) = Some emptyWal.
Proof. intros. unfold parseWal. by rewrite splitLines_partial. Qed.

(** ** Loading *)

Lemma readFile_cases p s : ∀ q, content q (readFile p s).2 = content q s.
Proof. intros q. unfold readFile. assert (keeps q (syscall ≫= λ _, get_content p)) as Hk by keeps_tac. apply Hk. Qed.

Lemma readFile_value p s d s' : readFile p s = (inl d, s') → d = content p s.
Proof. unfold readFile. intros (u & s1 & ->%syscall_ok & [= <- _])%bind_inl. by destruct p. Qed.

Lemma readJSON_value {A} (um : bytes → option A) p s o s' : readJSONFile um p s = (inl o, s') →
  match content p s with None => o = None | Some d => um d = o ∧ is_Some o end.
Proof.
  unfold readJSONFile. intros (d & s1 & ->%readFile_value & Hd)%bind_inl.
  destruct (content p s) as [d|]; [|by injection Hd as <- _].
  destruct (um d) as [a|]; [|discriminate Hd]. injection Hd as <- _. split; [done|by eexists].
Qed.

Lemma truncate_cases size s :
  match truncateFile size s with
  | (inl _, s') => s'.(f_wal) = take size <$> s.(f_wal)
  | (inr _, s') => s'.(f_wal) = s.(f_wal) ∨ s'.(f_wal) = take size <$> s.(f_wal)
  end.
Proof.
  unfold truncateFile. unfold mbind at 1, M_bind at 1. pose proof (keeps_syscall PWal s) as K1.
  destruct (syscall s) as [[u1|e1] s1]; cbn in K1; [|by left].
  unfold mbind at 1, M_bind at 1. pose proof (keeps_syscall PWal s1) as K2.
  destruct (syscall s1) as [[u2|e2] s2]; cbn in K2; [|left; congruence].
  unfold mbind at 1, M_bind at 1, get_content. unfold mbind at 1, M_bind at 1, put_content. cbn [content].
  set (s3 := set_content PWal _ s2). assert (s3.(f_wal) = take size <$> s.(f_wal)) as K3 by (cbn; congruence).
  assert (keeps PWal (syncClose ≫= λ _, syncDir)) as K4 by (unfold syncClose; keeps_tac).
  specialize (K4 s3). destruct ((syncClose ≫= λ _, syncDir) s3) as [[u4|e4] s4]; cbn in K4; [|right]; congruence.
Qed.

Lemma readWAL_cases s o tl : walShape o tl s.(f_wal) →
  match readWAL s with
  | (inl w, s') => parseWal s.(f_wal) = Some w ∧ walShape o [] s'.(f_wal)
  | (inr _, s') => s'.(f_wal) = s.(f_wal) ∨ walShape o [] s'.(f_wal)
  end.
Proof.
  intros [Htl Hsh]. unfold readWAL. unfold mbind at 1, M_bind at 1.
  destruct (readFile PWal s) as [[d|e] s1] eqn:E1; pose proof (readFile_cases PWal s PWal) as K1; rewrite E1 in K1; cbn in K1; [|by left].
  apply readFile_value in E1. cbn in E1. subst d.
  destruct (f_wal s) as [d|] eqn:Ed.
  2: { split; [done|]. rewrite K1. destruct o as [[[bi bt] es]|]; [by destruct Hsh|]. split; [apply not_elem_of_nil|]. by left. }
  assert (walShape o [] (Some (take (length d - length (splitLines d).2) d))) as Hcut.
  { split; [apply not_elem_of_nil|]. destruct o as [[[bi bt] es]|].
    - destruct Hsh as [[= ->] ?]. rewrite splitLines_wal by done. cbn [snd]. split; [|done]. f_equal.
      rewrite app_nil_r, length_app, Nat.add_sub. by rewrite take_app_length.
    - destruct Hsh as [[? _]|[= ->]]; [done|]. right. rewrite splitLines_partial by done. cbn [snd]. by rewrite Nat.sub_diag. }
  unfold parseWal. destruct (splitLines d) as [ls tl'] eqn:Esp. cbn [fst snd] in *.
  destruct (readLines 0 emptyWal ls) as [w|e]; [|left; cbn; congruence].
  case_decide as Ht.
  - subst tl'. split; [done|]. cbn. rewrite K1. cbn in Hcut. by rewrite Nat.sub_0_r, firstn_all in Hcut.
  - unfold mbind, M_bind. unfold wrapping. pose proof (truncate_cases (length d - length tl') s1) as Hc. rewrite K1 in Hc. cbn in Hc.
    destruct (truncateFile _ s1) as [[u|e] s2]; cbn.
    + split; [done|]. by rewrite Hc.
    + destruct Hc as [->| ->]; [left; congruence|by right].
Qed.

Lemma shape_written bi bt es : (bi < two64)%N → Forall (λ e, e.(Index) < two64)%N es →
  walShape (Some (bi, bt, es)) [] (Some (walBytes bi bt es)).
Proof. intros. split; [apply not_elem_of_nil|]. by rewrite app_nil_r. Qed.

Lemma parse_shape o tl tl' d d' : walShape o tl d → walShape o tl' d' → parseWal d = parseWal d'.
Proof.
  intros [Ht Hs] [Ht' Hs']. destruct o as [[[bi bt] es]|].
  - destruct Hs as (-> & Hb & He), Hs' as (-> & _ & _). unfold parseWal. by rewrite !splitLines_wal.
  - destruct Hs as [[-> _]| ->], Hs' as [[-> _]| ->]; by rewrite ?parse_torn.
Qed.

(** What a well-shaped WAL parses to. *)
Lemma shape_parse o tl d w : walShape o tl d → parseWal d = Some w →
  (o = None ∧ w = emptyWal) ∨
  ∃ bi bt es, o = Some (bi, bt, es) ∧ w = mkWalData true bi bt es ∧ contiguous (bi + 1) es ∧ (bi + len es < two64)%N.
Proof.
  intros [Ht Hs] Hp. destruct o as [[[bi bt] es]|].
  - destruct Hs as (-> & Hb & He). right. exists bi, bt, es.
    destruct (parse_wal bi bt es tl Ht Hb He) as [[Hc E]|[_ E]]; rewrite E in Hp; [|done]. injection Hp as <-.
    split_and!; [done..|by apply contiguous_bound].
  - left. split; [done|]. destruct Hs as [[-> _]| ->]; [by injection Hp as <-|]. rewrite parse_torn in Hp by done. by injection Hp as <-.
Qed.

Lemma boundary_inv es (bi : N) sn : contiguous (bi + 1) es → (0 < sn.(LastIncludedIndex))%N →
  hasSnapshotBoundaryEntry es sn = true →
  (bi < sn.(LastIncludedIndex))%N ∧ ∃ e, es !! N.to_nat (sn.(LastIncludedIndex) - bi - 1) = Some e ∧ e.(Term) = sn.(LastIncludedTerm).
Proof.
  revert bi. induction es as [|x es IH]; intros bi Hc Hpos; cbn.
  - intros Hb%bool_decide_eq_true. lia.
  - apply contiguous_cons in Hc as [Hx Hc]. case_decide as Hi.
    + intros Hb%bool_decide_eq_true. split; [lia|]. exists x. by replace (N.to_nat _) with 0 by lia.
    + intros Hb. destruct (IH (bi + 1)%N Hc Hpos Hb) as (Hlt & e & He & Ht). split; [lia|]. exists e. split; [|done].
      by replace (N.to_nat (LastIncludedIndex sn - bi - 1)) with (S (N.to_nat (LastIncludedIndex sn - (bi + 1) - 1))) by lia.
Qed.

Lemma entriesAfter_above es i : (entriesAfter es i).1 = entriesAbove es i.
Proof. done. Qed.

Lemma above_bounded es i : Forall (λ e, e.(Index) < two64)%N es → Forall (λ e, e.(Index) < two64)%N (entriesAbove es i).
Proof. rewrite !Forall_forall. intros He e [_ ?]%list_elem_of_filter. by apply He. Qed.

Lemma reconcile_wf o tl d w sn : walShape o tl d → parseWal d = Some w → (0 < sn.(LastIncludedIndex) < two64)%N →
  let es' := (reconcileWALWithSnapshot w sn).1 in
  contiguous (sn.(LastIncludedIndex) + 1) es' ∧ Forall (λ e, e.(Index) < two64)%N es' ∧
  ((reconcileWALWithSnapshot w sn).2 = false → w.(wal_entries) = es' ∧ hooked sn w).
Proof.
  intros Hs Hp Hsn. destruct (shape_parse _ _ _ _ Hs Hp) as [[-> ->]|(bi & bt & es & -> & -> & Hc & Hr)].
  { unfold reconcileWALWithSnapshot. cbn. rewrite decide_False by (by intros [? _]). rewrite bool_decide_false by lia.
    rewrite decide_True by done. split_and!; [apply contiguous_nil|constructor|]. intros _. split; [done|]. by right; right; right. }
  destruct Hs as (_ & _ & _ & He). unfold reconcileWALWithSnapshot; cbn.
  case_decide as Hb.
  { destruct Hb as (_ & -> & ->). rewrite entriesAfter_all by done. split_and!; [done|done|]. intros _. split; [done|]. by right; left. }
  destruct (hasSnapshotBoundaryEntry es sn) eqn:Hbd; cbn.
  { destruct (boundary_inv es bi sn Hc ltac:(lia) Hbd) as (Hlt & e & Hl & _). split_and!; [|by apply above_bounded|done].
    assert (wf_log (mkSnapshot bi bt None) es) as Hwf by by split.
    apply (wf_log_compact (mkSnapshot bi bt None) es sn Hwf). rewrite (lastIndex_wf _ _ Hwf). cbn. apply lookup_lt_Some in Hl. unfold len. lia. }
  rewrite decide_False by (by intros [_ ?]). cbn. split_and!; [apply contiguous_nil|constructor|done].
Qed.

Lemma loaded_rewritten sn es : (0 < sn.(LastIncludedIndex))%N → contiguous (sn.(LastIncludedIndex) + 1) es →
  loaded sn (mkWalData true sn.(LastIncludedIndex) sn.(LastIncludedTerm) es) = Some (sn, es).
Proof.
  intros Hpos Hc. unfold loaded. rewrite decide_True by done. unfold reconcileWALWithSnapshot. cbn.
  rewrite decide_True by done. by rewrite entriesAfter_all.
Qed.

(** Whatever happens during [Load], the files hold the same afterwards; the
    torn line may be gone and the WAL may be rewritten to follow the
    snapshot. *)
Lemma Load_cases s sn o tl : file_snap s = Some sn → walShape o tl s.(f_wal) → (sn.(LastIncludedIndex) < two64)%N →
  let '(r, s') := wal_Load s in
  s'.(f_snapshot) = s.(f_snapshot) ∧
  (s'.(f_wal) = s.(f_wal) ∨ walShape o [] s'.(f_wal) ∨
   (∃ w, parseWal s.(f_wal) = Some w ∧ (0 < sn.(LastIncludedIndex))%N ∧
     s'.(f_wal) = Some (walBytes sn.(LastIncludedIndex) sn.(LastIncludedTerm) (reconcileWALWithSnapshot w sn).1))) ∧
  match r with
  | inl (_, es, sn') =>
      ∃ w, sn' = sn ∧ parseWal s.(f_wal) = Some w ∧ loaded sn w = Some (sn, es) ∧
        ((walShape o [] s'.(f_wal) ∧ ((reconcileWALWithSnapshot w sn).2 = false ∨ sn.(LastIncludedIndex) = 0%N)) ∨
         (0 < sn.(LastIncludedIndex))%N ∧ s'.(f_wal) = Some (walBytes sn.(LastIncludedIndex) sn.(LastIncludedTerm) es))
  | inr _ => True
  end.
Proof.
  intros Hsn Hsh Hmax. pose proof (keeps_Load PSnapshot ltac:(done) s) as Hks. destruct (wal_Load s) as [r s'] eqn:E. cbn in Hks.
  split; [done|]. clear Hks. unfold wal_Load in E. unfold mbind at 1, M_bind at 1 in E.
  pose proof (keeps_readJSON PWal PHardState unmarshalHardState s) as K1. pose proof (keeps_readJSON PSnapshot PHardState unmarshalHardState s) as K1'.
  destruct (readJSONFile unmarshalHardState PHardState s) as [[hs|e1] s1]; cbn in K1, K1'; [|injection E as <- <-; by split; [left|]].
  unfold mbind at 1, M_bind at 1 in E. pose proof (keeps_readJSON PWal PSnapshot unmarshalSnapshot s1) as K2.
  destruct (readJSONFile unmarshalSnapshot PSnapshot s1) as [[osn|e2] s2] eqn:E2; cbn in K2; [|injection E as <- <-; split; [left; congruence|done]].
  apply readJSON_value in E2. cbn in E2. rewrite K1' in E2.
  assert (default zeroSnapshot osn = sn) as Hdef.
  { unfold file_snap in Hsn. destruct (f_snapshot s); [destruct E2 as [<- _]; by rewrite Hsn|by simplify_eq/=]. }
  cbv zeta in E. rewrite Hdef in E. unfold mbind at 1, M_bind at 1 in E.
  assert (walShape o tl (f_wal s2)) as Hsh2 by (by rewrite K2, K1).
  pose proof (readWAL_cases s2 o tl Hsh2) as K3. rewrite K2, K1 in K3.
  destruct (readWAL s2) as [[w|e3] s3]; [|injection E as <- <-; split; [destruct K3; auto|done]].
  destruct K3 as [Hp Hsh3]. revert E. case_decide as Hpos.
  - destruct (reconcileWALWithSnapshot w sn) as [es rw] eqn:Er.
    assert (loaded sn w = Some (sn, es)) as Hl by (unfold loaded; rewrite decide_True by done; by rewrite Er).
    destruct rw.
    + unfold mbind, M_bind. pose proof (sets_writeWAL sn.(LastIncludedIndex) sn.(LastIncludedTerm) es s3) as Hset.
      rewrite walBytes_encode in Hset. destruct (writeWALAtomic _ _ es s3) as [[u|e4] s4]; intros [= <- <-]; cbn in Hset.
      * split; [right; right; exists w; by rewrite Er|]. exists w. split_and!; [done..|]. by right.
      * split; [|done]. destruct Hset as [->|Hset]; [auto|]. right; right. exists w. by rewrite Er.
    + intros [= <- <-]. split; [auto|]. exists w. split_and!; [done..|]. left. split; [done|]. left. by rewrite Er.
  - case_decide as Hb; intros [= <- <-]; (split; [auto|]); [done|]. exists w. split_and!; [done|done| |].
    + unfold loaded. by rewrite decide_False, decide_False.
    + left. split; [done|]. right. lia.
Qed.

Lemma file_sound_disk s : file_sound s → ∃ sn o tl, file_snap s = Some sn ∧ file_disk_snap s = sn ∧ walShape o tl s.(f_wal) ∧
  (sn.(LastIncludedIndex) < two64)%N ∧ match o with Some (bi, _, _) => (0 < bi → 0 < sn.(LastIncludedIndex))%N | None => True end ∧
  file_disk s = parseWal s.(f_wal) ≫= loaded sn.
Proof.
  intros (sn & o & tl & Hsn & Hsh & Hm & Ho). exists sn, o, tl. unfold file_disk_snap, file_disk. rewrite Hsn. done.
Qed.

(** The snapshot alone decides whether a parsed WAL is loaded. *)
Lemma sound_loaded sn o tl d w : walShape o tl d → parseWal d = Some w →
  match o with Some (bi, _, _) => (0 < bi → 0 < sn.(LastIncludedIndex))%N | None => True end →
  loaded sn w = Some (sn, if decide (0 < sn.(LastIncludedIndex))%N then (reconcileWALWithSnapshot w sn).1 else w.(wal_entries)).
Proof.
  intros Hs Hp Ho. unfold loaded. case_decide as Hpos; [done|]. rewrite decide_False; [done|].
  destruct (shape_parse _ _ _ _ Hs Hp) as [[-> ->]|(bi & bt & es & -> & -> & _)]; cbn; [by intros [? _]|]. intros [_ ?]. by apply Hpos, Ho.
Qed.

(** ** Appending *)

Lemma appendLines_cases lines : ∀ s d, s.(f_wal) = Some d →
  let '(r, s') := appendLines lines s in
  ∃ k, s'.(f_wal) = Some (d ++ take k (concat lines)) ∧ (∀ u, r = inl u → length (concat lines) ≤ k).
Proof.
  induction lines as [|l lines IH]; intros s d Hd; cbn [appendLines concat].
  - exists 0. by rewrite app_nil_r.
  - unfold mbind, M_bind. destruct (appendBytes l s) as [[u|e] s1] eqn:E.
    + assert (s1.(f_wal) = Some (d ++ l)) as Hd1.
      { unfold appendBytes in E. destruct (f_faults s) as [|[]]; simplify_eq/=; by rewrite Hd, firstn_all. }
      specialize (IH s1 _ Hd1). destruct (appendLines lines s1) as [r s'].
      destruct IH as (k & Hk & Hr). exists (length l + k). rewrite Hk, <- app_assoc, length_app. split.
      * by rewrite take_app_add.
      * intros v Hv. specialize (Hr v Hv). lia.
    + assert (∃ k, k ≤ length l ∧ s1.(f_wal) = Some (d ++ take k l)) as (k & Hk & Hw).
      { unfold appendBytes in E. destruct (f_faults s) as [|[| | |k] fs]; simplify_eq/=.
        - exists 0. rewrite app_nil_r. split; [lia|done].
        - exists 0. rewrite app_nil_r. split; [lia|done].
        - exists (k `min` length l). rewrite Hd. split; [lia|]. cbn. do 2 f_equal.
          destruct (decide (k ≤ length l)); [by rewrite Nat.min_l by lia|]. by rewrite Nat.min_r, !take_ge by lia. }
      exists k. split; [by rewrite take_app_le|done].
Qed.

Lemma base_value s sn bi bt s' : file_snap s = Some sn → snapshotBaseLocked s = (inl (bi, bt), s') →
  bi = sn.(LastIncludedIndex) ∧ bt = sn.(LastIncludedTerm).
Proof.
  intros Hsn (osn & s6 & Ej%readJSON_value & Ev)%bind_inl. cbn in Ej. unfold file_snap in Hsn. injection Ev as Ev _.
  destruct (f_snapshot s); [destruct Ej as [Ej _]; rewrite Hsn in Ej; by simplify_eq/=|by simplify_eq/=].
Qed.

Lemma append_cases es s sn o : es ≠ [] → file_snap s = Some sn → walShape o [] s.(f_wal) →
  let '(r, s') := wal_AppendEntries es s in
  s'.(f_snapshot) = s.(f_snapshot) ∧
  ((s'.(f_wal) = s.(f_wal) ∧ ∃ e, r = inr e) ∨
   match o with
   | Some (bi, bt, E) => ∃ k, s'.(f_wal) = Some (walBytes bi bt E ++ take k (concat (encodeWALEntry <$> es))) ∧
       (∀ u, r = inl u → length (concat (encodeWALEntry <$> es)) ≤ k)
   | None => ∃ k, s'.(f_wal) = Some (take k (walBytes sn.(LastIncludedIndex) sn.(LastIncludedTerm) es)) ∧
       (∀ u, r = inl u → length (walBytes sn.(LastIncludedIndex) sn.(LastIncludedTerm) es) ≤ k)
   end).
Proof.
  intros Hne Hsn Hsh. pose proof (keeps_AppendEntries PSnapshot es ltac:(done) s) as Hks.
  destruct (wal_AppendEntries es s) as [r s'] eqn:E. cbn in Hks. split; [done|]. clear Hks.
  unfold wal_AppendEntries in E. destruct es as [|e0 es0]; [done|]. set (es := e0 :: es0) in *.
  unfold mbind at 1, M_bind at 1 in E. pose proof (keeps_syscall PWal s) as K1. pose proof (keeps_syscall PSnapshot s) as K1'.
  destruct (syscall s) as [[u1|e1] s1]; cbn in K1, K1'; [|injection E as <- <-; left; eauto].
  unfold mbind at 1, M_bind at 1, get_content in E. cbn [content] in E. cbv zeta in E. rewrite K1 in E.
  set (created := match f_wal s with None => true | Some d => bool_decide (d = []) end) in E.
  assert (created = match o with None => true | Some _ => false end) as Hcr.
  { subst created. destruct Hsh as [_ Hsh]. destruct o as [[[bi bt] E0]|].
    - destruct Hsh as [-> _]. rewrite app_nil_r. apply bool_decide_false, walBytes_nonempty.
    - destruct Hsh as [[-> _]| ->]; [done|]. by apply bool_decide_true. }
  clearbody created. unfold mbind at 1, M_bind at 1 in E.
  destruct ((if created then snapshotBaseLocked else mret (0, 0)%N) s1) as [[[bi0 bt0]|e2] s2] eqn:Eb.
  2: { injection E as <- <-. left. split; [|eauto]. assert (keeps PWal (if created then snapshotBaseLocked else mret (0, 0)%N)) as K2
         by (destruct created; [apply keeps_base|auto with raft]). specialize (K2 s1). rewrite Eb in K2. cbn in K2. congruence. }
  assert (s2.(f_wal) = s.(f_wal)) as K2.
  { assert (keeps PWal (if created then snapshotBaseLocked else mret (0, 0)%N)) as K2
      by (destruct created; [apply keeps_base|auto with raft]). specialize (K2 s1). rewrite Eb in K2. cbn in K2. congruence. }
  unfold mbind at 1, M_bind at 1 in E. pose proof (keeps_syscall PWal s2) as K3.
  destruct (syscall s2) as [[u3|e3] s3]; cbn in K3; [|injection E as <- <-; left; split; [congruence|eauto]].
  unfold mbind at 1, M_bind at 1, put_content in E. set (s4 := set_content _ _ _) in E.
  unfold mbind at 1, M_bind at 1 in E.
  set (lines := (if created then [encodeWALBase bi0 bt0] else []) ++ (encodeWALEntry <$> es)) in E.
  pose proof (appendLines_cases lines s4 (default [] (f_wal s)) eq_refl) as K5.
  destruct (appendLines lines s4) as [r5 s5]. destruct K5 as (k & Hk & Hall).
  assert (s'.(f_wal) = s5.(f_wal) ∧ (∀ u, r = inl u → ∃ v, r5 = inl v)) as [Hs' Hr].
  { destruct r5 as [u5|e5]; [|injection E as <- <-; by split]. split; [|eauto].
    assert (keeps PWal (syncClose ≫= λ _, if created then syncDir else mret tt)) as K6
      by (unfold syncClose; keeps_tac; destruct created; auto with raft).
    specialize (K6 s5). by rewrite E in K6. }
  right. destruct o as [[[bi bt] E0]|].
  - subst created lines. cbn [app] in *. destruct Hsh as (_ & Hd & _). rewrite app_nil_r in Hd. exists k.
    rewrite Hs', Hk, Hd. split; [done|]. intros u Hu. destruct (Hr u Hu) as [v Hv]. by apply (Hall v).
  - subst created. assert (bi0 = sn.(LastIncludedIndex) ∧ bt0 = sn.(LastIncludedTerm)) as [-> ->].
    { eapply base_value; [|exact Eb]. unfold file_snap. by rewrite K1'. }
    assert (concat lines = walBytes sn.(LastIncludedIndex) sn.(LastIncludedTerm) es) as Hl by (subst lines; apply walBytes_encode).
    rewrite Hl in *. assert (default [] (f_wal s) = []) as Hd by (destruct Hsh as [_ [[-> _]| ->]]; done).
    exists k. rewrite Hs', Hk, Hd. split; [done|]. intros u Hu. destruct (Hr u Hu) as [v Hv]. by apply (Hall v).
Qed.

(** The bytes of an interrupted append, as a WAL. *)
Lemma torn_shape bi bt E es k : (bi < two64)%N → Forall (λ e, e.(Index) < two64)%N E → Forall (λ e, e.(Index) < two64)%N es →
  ∃ j tl, walShape (Some (bi, bt, E ++ take j es)) tl (Some (walBytes bi bt E ++ take k (concat (encodeWALEntry <$> es)))) ∧
    (length (concat (encodeWALEntry <$> es)) ≤ k → length es ≤ j ∧ tl = []).
Proof.
  intros Hb HE Hes. destruct (decide (length (concat (encodeWALEntry <$> es)) ≤ k)) as [Hall|Hpart].
  - exists (length es), []. rewrite firstn_all, (take_ge (concat _)), <- walBytes_app by done. split; [|by split].
    apply shape_written; [done|by apply Forall_app].
  - destruct (torn_split es k) as (j & tl & Ht & Htl & _). exists j, tl. rewrite Ht, app_assoc, <- walBytes_app.
    split; [|lia]. split; [done|]. split_and!; [done|done|]. apply Forall_app. split; [done|]. by apply Forall_take.
Qed.

Lemma torn_created bi bt es k : (bi < two64)%N → Forall (λ e, e.(Index) < two64)%N es →
  ∃ o tl, walShape o tl (Some (take k (walBytes bi bt es))) ∧
    (o = None ∨ ∃ j, o = Some (bi, bt, take j es) ∧ (length (walBytes bi bt es) ≤ k → length es ≤ j)) ∧
    (length (walBytes bi bt es) ≤ k → o ≠ None ∧ tl = []).
Proof.
  intros Hb Hes.
  assert (walBytes bi bt es = walBytes bi bt [] ++ concat (encodeWALEntry <$> es)) as Hsplit by (by rewrite <- walBytes_app).
  assert (walBytes bi bt [] = baseLine bi bt ++ [Byte.x0a]) as Hbase.
  { unfold walBytes, walLines. cbn. by rewrite app_nil_r. }
  rewrite Hsplit. set (B := walBytes bi bt []) in *. set (C := concat (encodeWALEntry <$> es)).
  destruct (decide (k < length B)) as [Hlt|Hge].
  - exists None, (take k B). rewrite take_app_le by lia. split_and!; [split; [|by right]|by left|rewrite length_app; lia].
    rewrite Hbase in *. rewrite length_app in Hlt. cbn in Hlt. rewrite take_app_le by lia.
    destruct (lineOf_trim (mkWalLine walBaseRecordType bi bt 0 0 zeroCommand None)) as (_ & _ & Hnl).
    intros Hin. apply Hnl. fold (baseLine bi bt). rewrite <- (take_drop k (baseLine bi bt)). apply elem_of_app. by left.
  - destruct (torn_shape bi bt [] es (k - length B) Hb ltac:(done) Hes) as (j & tl & Hsh & Hall).
    exists (Some (bi, bt, take j es)), tl. rewrite take_app_ge by lia. split_and!; [done| |].
    + right. exists j. split; [done|]. rewrite length_app. subst C. intros. apply Hall. lia.
    + rewrite length_app. subst C. intros. split; [done|]. apply Hall. lia.
Qed.

Lemma boundary_app E es sn : (0 < sn.(LastIncludedIndex))%N → hasSnapshotBoundaryEntry E sn = true →
  hasSnapshotBoundaryEntry (E ++ es) sn = true.
Proof.
  intros Hpos. induction E as [|x E IH]; cbn; [intros Hb%bool_decide_eq_true; lia|]. by case_decide.
Qed.

(** Entries after the snapshot stay when they follow a WAL that follows it. *)
Lemma loaded_app sn bi bt E es : contiguous (bi + 1) (E ++ es) → hooked sn (mkWalData true bi bt E) →
  (0 < bi → 0 < sn.(LastIncludedIndex))%N → Forall (λ e, sn.(LastIncludedIndex) < e.(Index))%N es →
  loaded sn (mkWalData true bi bt (E ++ es)) = disk_append es (loaded sn (mkWalData true bi bt E)) ∧
  hooked sn (mkWalData true bi bt (E ++ es)).
Proof.
  intros Hc Hh Hpos Hes. unfold loaded. cbn. case_decide as Hp.
  - unfold hooked in *. cbn in *. unfold reconcileWALWithSnapshot. cbn.
    assert (filter (λ e, LastIncludedIndex sn < Index e)%N (E ++ es) = filter (λ e, LastIncludedIndex sn < Index e)%N E ++ es) as Hf.
    { rewrite filter_app. f_equal. by apply filter_all. }
    destruct Hh as [Hh|[Hh|[Hh|[_ Hh]]]]; [lia| | |done].
    + rewrite !decide_True by done. unfold entriesAfter. rewrite Hf. cbn. split; [done|]. by right; left.
    + rewrite (boundary_app _ _ _ Hp Hh), Hh. split; [|by right; right; left].
      destruct (decide (true = true ∧ _)); cbn; by rewrite Hf.
  - do 2 rewrite decide_False by (intros [_ ?]; by apply Hp, Hpos). split; [done|]. left. lia.
Qed.

(** An empty WAL, and one that an append created for the snapshot. *)
Lemma loaded_empty sn s : walShape None [] s.(f_wal) → loaded sn emptyWal = Some (sn, []).
Proof.
  intros Hsh. rewrite (sound_loaded sn None [] (f_wal s)) by (done || by destruct Hsh as [_ [[-> _]| ->]]; [done|apply parse_torn, not_elem_of_nil]).
  unfold reconcileWALWithSnapshot. cbn. case_decide; [|done]. rewrite decide_False by (by intros [? _]). rewrite bool_decide_false by lia. by rewrite decide_True.
Qed.

Lemma loaded_created sn l : Forall (λ e, sn.(LastIncludedIndex) < e.(Index))%N l → contiguous (sn.(LastIncludedIndex) + 1) l →
  let w := mkWalData true sn.(LastIncludedIndex) sn.(LastIncludedTerm) l in loaded sn w = Some (sn, l) ∧ hooked sn w.
Proof.
  intros Hab Hc. split; [|by right; left]. unfold loaded. cbn. case_decide as Hp.
  - unfold reconcileWALWithSnapshot. cbn. rewrite decide_True by done. by rewrite entriesAfter_all.
  - rewrite decide_False by (intros [_ ?]; done). done.
Qed.

Lemma append_disk es s sn o : es ≠ [] → file_snap s = Some sn → (sn.(LastIncludedIndex) < two64)%N →
  match o with Some (bi, _, _) => (0 < bi → 0 < sn.(LastIncludedIndex))%N | None => True end →
  walShape o [] s.(f_wal) → (∀ w, parseWal s.(f_wal) = Some w → hooked sn w) →
  Forall (λ e, sn.(LastIncludedIndex) < e.(Index) < two64)%N es →
  let '(r, s') := wal_AppendEntries es s in
  file_snap s' = Some sn ∧ file_sound s' ∧ (∀ u, r = inl u → file_appendable s') ∧
  (file_disk s' = None ∨ ∃ k, file_disk s' = disk_append (take k es) (file_disk s) ∧ (∀ u, r = inl u → length es ≤ k)).
Proof.
  intros Hne Hsn Hmax Hpos Hsh Hhook Hes. pose proof (append_cases es s sn o Hne Hsn Hsh) as Hcases.
  destruct (wal_AppendEntries es s) as [r s']. destruct Hcases as [Hks Hcases].
  assert (file_snap s' = Some sn) as Hsn' by (unfold file_snap; by rewrite Hks).
  split; [done|]. unfold file_sound, file_appendable, file_disk. rewrite Hsn', Hsn. cbn [mbind option_bind].
  assert (Forall (λ e, e.(Index) < two64)%N es) as Hes' by (eapply Forall_impl; [exact Hes|]; cbn; lia).
  assert (∀ j, Forall (λ e, sn.(LastIncludedIndex) < e.(Index))%N (take j es)) as Hab.
  { intros j. apply Forall_take. eapply Forall_impl; [exact Hes|]. cbn. lia. }
  destruct Hcases as [[Hw [e ->]]|Hcases].
  { rewrite Hw. split_and!; [|done|]; [by exists sn, o, []|]. right. exists 0. rewrite take_0. split; [|done].
    destruct (parseWal (f_wal s) ≫= loaded sn) as [[sn0 l]|]; [|done]. cbn. by rewrite app_nil_r. }
  destruct o as [[[bi bt] E]|].
  - destruct Hcases as (k & Hw & Hr). pose proof Hsh as (_ & Hd & Hb & HE). rewrite app_nil_r in Hd.
    destruct (torn_shape bi bt E es k Hb HE Hes') as (j & tl & Hsh' & Hall). rewrite <- Hw in Hsh'.
    split_and!.
    + exists sn, (Some (bi, bt, E ++ take j es)), tl. split_and!; [done|exact Hsh'|done|done].
    + intros u Hu. destruct (Hall (Hr u Hu)) as [Hj ->]. split; [by eexists|]. intros sn0 w [= <-] Hp.
      destruct (shape_parse _ _ _ _ Hsh' Hp) as [[? _]|(bi' & bt' & es' & [= <- <- <-] & -> & Hc & _)]; [done|].
      apply loaded_app; [done| |done|apply Hab]. apply Hhook. apply contiguous_app in Hc as [Hc _].
      destruct (parse_wal bi bt E [] ltac:(apply not_elem_of_nil) Hb HE) as [[_ Hp']|[? _]]; [|done]. by rewrite app_nil_r, <- Hd in Hp'.
    + destruct (parseWal (f_wal s')) as [w|] eqn:Hp; [|by left]. cbn. right. exists j.
      destruct (shape_parse _ _ _ _ Hsh' Hp) as [[? _]|(bi' & bt' & es' & [= <- <- <-] & -> & Hc & _)]; [done|].
      assert (parseWal (f_wal s) = Some (mkWalData true bi bt E)) as Hp'.
      { pose proof Hc as Hc'. apply contiguous_app in Hc' as [Hc' _].
        destruct (parse_wal bi bt E [] ltac:(apply not_elem_of_nil) Hb HE) as [[_ Hp']|[? _]]; [|done]. by rewrite app_nil_r, <- Hd in Hp'. }
      split; [|intros u Hu; by apply Hall, (Hr u)]. rewrite Hp'. cbn [option_bind].
      apply loaded_app; [done|by apply Hhook|done|apply Hab].
  - destruct Hcases as (k & Hw & Hr). assert (parseWal (f_wal s) = Some emptyWal) as Hp0.
    { destruct Hsh as [_ [[-> _]| ->]]; [done|by apply parse_torn, not_elem_of_nil]. }
    pose proof (loaded_empty sn s Hsh) as Hl0. rewrite Hp0. cbn [mbind option_bind]. rewrite Hl0.
    destruct (torn_created sn.(LastIncludedIndex) sn.(LastIncludedTerm) es k Hmax Hes') as (o & tl & Hsh' & Ho & Hall). rewrite <- Hw in Hsh'.
    split_and!.
    + exists sn, o, tl. split_and!; [done|done|done|]. destruct Ho as [->|(j & -> & _)]; done.
    + intros u Hu. destruct (Hall (Hr u Hu)) as [Hn ->]. split; [by eexists|]. intros sn0 w [= <-] Hp.
      destruct (shape_parse _ _ _ _ Hsh' Hp) as [[-> _]|(bi' & bt' & es' & -> & -> & Hc & _)]; [done|].
      destruct Ho as [?|(j & [= -> -> ->] & _)]; [done|]. by apply loaded_created.
    + destruct (parseWal (f_wal s')) as [w|] eqn:Hp; [|by left]. cbn. right.
      destruct (shape_parse _ _ _ _ Hsh' Hp) as [[-> ->]|(bi' & bt' & es' & -> & -> & Hc & _)].
      * exists 0. rewrite Hl0. split; [done|]. intros u Hu. by destruct (Hall (Hr u Hu)).
      * destruct Ho as [?|(j & [= -> -> ->] & Hj)]; [done|]. exists j. split; [by apply loaded_created|]. intros u Hu. by apply Hj, (Hr u).
Qed.

(** ** Replacing the log *)

(** A WAL that was written on top of the snapshot. *)
Lemma written_disk s sn es : file_snap s = Some sn → (sn.(LastIncludedIndex) < two64)%N →
  Forall (λ e, e.(Index) < two64)%N es → s.(f_wal) = Some (walBytes sn.(LastIncludedIndex) sn.(LastIncludedTerm) es) →
  file_sound s ∧ file_appendable s ∧
  (file_disk s = None ∨ (file_disk s = Some (sn, es) ∧ contiguous (sn.(LastIncludedIndex) + 1) es)).
Proof.
  intros Hsn Hmax Hes Hw. pose proof (shape_written sn.(LastIncludedIndex) sn.(LastIncludedTerm) es Hmax Hes) as Hsh. rewrite <- Hw in Hsh.
  unfold file_sound, file_appendable, file_disk. rewrite Hsn. cbn [mbind option_bind].
  assert (∀ w, parseWal s.(f_wal) = Some w → w = mkWalData true sn.(LastIncludedIndex) sn.(LastIncludedTerm) es ∧ contiguous (sn.(LastIncludedIndex) + 1) es) as Hw'.
  { intros w Hp. destruct (shape_parse _ _ _ _ Hsh Hp) as [[? _]|(bi & bt & es' & [= <- <- <-] & -> & Hc & _)]; done. }
  split_and!.
  - exists sn, (Some (sn.(LastIncludedIndex), sn.(LastIncludedTerm), es)), []. split_and!; [done|exact Hsh|done|done].
  - eexists. exact Hsh.
  - intros sn0 w [= <-] Hp. destruct (Hw' w Hp) as [-> _]. by right; left.
  - destruct (parseWal (f_wal s)) as [w|] eqn:Hp; [right|by left]. destruct (Hw' w eq_refl) as [-> Hc]. split; [|done]. cbn.
    unfold loaded. cbn. case_decide as Hpos.
    + unfold reconcileWALWithSnapshot. cbn. rewrite decide_True by done. by rewrite entriesAfter_all.
    + rewrite decide_False by (by intros [_ ?]). done.
Qed.

Lemma replace_cases es s sn : file_snap s = Some sn →
  let '(r, s') := wal_ReplaceEntries es s in
  s'.(f_snapshot) = s.(f_snapshot) ∧
  ((s'.(f_wal) = s.(f_wal) ∧ ∃ e, r = inr e) ∨
   s'.(f_wal) = Some (walBytes sn.(LastIncludedIndex) sn.(LastIncludedTerm) es)).
Proof.
  intros Hsn. pose proof (keeps_ReplaceEntries PSnapshot es ltac:(done) s) as Hks.
  destruct (wal_ReplaceEntries es s) as [r s'] eqn:E. cbn in Hks. split; [done|].
  unfold wal_ReplaceEntries in E. unfold mbind, M_bind in E. pose proof (keeps_base PWal s) as K1.
  destruct (snapshotBaseLocked s) as [[[bi bt]|e] s1] eqn:Eb; cbn in K1; [|injection E as <- <-; left; eauto].
  assert (bi = sn.(LastIncludedIndex) ∧ bt = sn.(LastIncludedTerm)) as [-> ->] by (by eapply base_value).
  pose proof (sets_writeWAL sn.(LastIncludedIndex) sn.(LastIncludedTerm) es s1) as Hset. rewrite walBytes_encode in Hset.
  rewrite E in Hset. destruct r as [u|e]; cbn in Hset; [by right|]. destruct Hset as [->|?]; [left|by right]. split; [done|eauto].
Qed.

(** ** A new snapshot *)

Lemma entryAt_elem sn l e : wf_log sn l → e ∈ l → entryAt sn l e.(Index) = Some e.
Proof.
  intros Hwf [i Hi]%list_elem_of_lookup. pose proof (wf_contiguous _ _ Hwf _ _ Hi) as He. pose proof (wf_range _ _ Hwf) as Hr.
  pose proof (lookup_lt_Some _ _ _ Hi) as Hlt. unfold len in Hr.
  rewrite (entryAt_wf _ _ Hwf) by lia. rewrite He. replace (N.to_nat _) with i by lia. done.
Qed.

Lemma entryAt_In sn l i e : entryAt sn l i = Some e → e ∈ l.
Proof. unfold entryAt. intros. repeat case_match; simplify_eq. by eapply list_elem_of_lookup_2. Qed.

Lemma above_above l (i j : N) : (i ≤ j)%N → entriesAbove (entriesAbove l i) j = entriesAbove l j.
Proof. intros Hle. unfold entriesAbove. rewrite list_filter_filter. apply list_filter_iff. intros e. lia. Qed.

Lemma boundary_pos es sn sn' : sn.(LastIncludedIndex) = sn'.(LastIncludedIndex) →
  sn'.(LastIncludedTerm) = sn.(LastIncludedTerm) → hasSnapshotBoundaryEntry es sn = hasSnapshotBoundaryEntry es sn'.
Proof. intros Hi Ht. induction es as [|x es IH]; cbn; rewrite Hi, <- Ht; [done|]. by rewrite IH. Qed.

Section newsnap.
Context (sn0 sn : Snapshot) (bi bt : N) (E : list LogEntry).
Context (Hc : contiguous (bi + 1) E) (Hr : (bi + len E < two64)%N) (Hsn0 : (0 < bi → 0 < sn0.(LastIncludedIndex))%N).
Context (Hsn : (0 < sn.(LastIncludedIndex) < two64)%N).
#[local] Abbreviation w := (mkWalData true bi bt E).
#[local] Abbreviation l := (if decide (0 < sn0.(LastIncludedIndex))%N then (reconcileWALWithSnapshot w sn0).1 else E).

Lemma log_above e : e ∈ l → e ∈ E ∧ (0 < sn0.(LastIncludedIndex) → l = entriesAbove E sn0.(LastIncludedIndex))%N.
Proof.
  case_decide as Hp; [|done]. unfold reconcileWALWithSnapshot. cbn. repeat case_match; cbn; try (by intros ?%not_elem_of_nil);
    intros He; (split; [by apply list_elem_of_filter in He as [_ ?]|done]).
Qed.

(** An entry of the WAL at the index of the new snapshot. *)
Lemma reconcile_boundary e : e ∈ E → e.(Index) = sn.(LastIncludedIndex) → e.(Term) = sn.(LastIncludedTerm) →
  (reconcileWALWithSnapshot w sn).1 = entriesAbove E sn.(LastIncludedIndex) ∧ hooked sn w.
Proof.
  intros [i Hi]%list_elem_of_lookup He Ht. pose proof (Hc _ _ Hi) as Hidx.
  assert (hasSnapshotBoundaryEntry E sn = true) as Hb.
  { apply (boundary_entry E bi sn e); [done|lia| |done]. by replace (N.to_nat _) with i by lia. }
  split; [|by right; right; left]. unfold reconcileWALWithSnapshot. cbn. rewrite decide_False by lia. by rewrite Hb.
Qed.

Lemma newsnap_same : termAt sn0 l sn.(LastIncludedIndex) = Some sn.(LastIncludedTerm) →
  (sn0.(LastIncludedIndex) ≤ sn.(LastIncludedIndex))%N →
  (reconcileWALWithSnapshot w sn).1 = entriesAbove l sn.(LastIncludedIndex) ∧ (hooked sn0 w → hooked sn w).
Proof.
  intros Ht Hle. unfold termAt in Ht. rewrite decide_False in Ht by lia. case_decide as Heq.
  - injection Ht as Ht. assert (reconcileWALWithSnapshot w sn = reconcileWALWithSnapshot w sn0) as Hrec.
    { unfold reconcileWALWithSnapshot. by rewrite (boundary_pos _ sn sn0), Heq, <- Ht. }
    rewrite decide_True by lia. rewrite Hrec. split.
    + symmetry. apply filter_all. apply Forall_forall. intros e. unfold reconcileWALWithSnapshot. cbn. rewrite Heq.
      repeat case_match; cbn; try (by intros ?%not_elem_of_nil); intros Hin; by apply list_elem_of_filter in Hin as [? _].
    + unfold hooked. cbn. intros [?|[?|[Hb|?]]]; [lia| | |by right; right; right].
      * right; left. by rewrite Heq, <- Ht.
      * right; right; left. by rewrite <- Hb; apply boundary_pos.
  - destruct (entryAt sn0 l sn.(LastIncludedIndex)) as [e|] eqn:He; [|done]. injection Ht as Ht.
    pose proof (entryAt_Index _ _ _ _ He) as Hi. pose proof (entryAt_In _ _ _ _ He) as Hin.
    destruct (log_above e Hin) as [HinE Hl]. destruct (reconcile_boundary e HinE Hi Ht) as [-> Hh]. split; [|done].
    destruct (decide (0 < LastIncludedIndex sn0)%N); [|done]. rewrite Hl by done. by rewrite above_above.
Qed.

Lemma newsnap_disk :
  (termAt sn0 l sn.(LastIncludedIndex) = Some sn.(LastIncludedTerm) ∧ (sn0.(LastIncludedIndex) ≤ sn.(LastIncludedIndex))%N) ∨
  (hooked sn0 w ∧ (sn0.(LastIncludedIndex) < sn.(LastIncludedIndex))%N) →
  (reconcileWALWithSnapshot w sn).1 = logAfterSnapshot sn0 l sn.
Proof.
  intros Hcond. unfold logAfterSnapshot.
  destruct (decide (termAt sn0 l sn.(LastIncludedIndex) ≠ Some sn.(LastIncludedTerm))) as [Ht|Ht].
  - destruct Hcond as [[Hyes _]|[Hh Hlt]]; [by destruct (Ht Hyes)|].
    assert (bi < sn.(LastIncludedIndex))%N as Hbi.
    { destruct Hh as [Hh|[Hh|[Hh|Hh]]]; cbn in *; [lia|lia| |by destruct Hh].
      destruct (decide (0 < LastIncludedIndex sn0)%N) as [Hp|]; [|lia]. destruct (boundary_inv E bi sn0 Hc Hp Hh). lia. }
    unfold reconcileWALWithSnapshot. cbn. rewrite decide_False by lia.
    destruct (hasSnapshotBoundaryEntry E sn) eqn:Hb; [exfalso|by rewrite decide_False by (by intros [_ ?])].
    destruct (boundary_inv E bi sn Hc ltac:(lia) Hb) as (_ & e & Hl & Hterm).
    assert (e.(Index) = sn.(LastIncludedIndex)) as Hi by (rewrite (Hc _ _ Hl); lia).
    assert (e ∈ l ∧ wf_log sn0 l) as [Hin Hwf].
    { assert (e ∈ E) as HinE by (by eapply list_elem_of_lookup_2).
      case_decide as Hp.
      - assert (l = entriesAbove E sn0.(LastIncludedIndex)) as Hl'.
        { rewrite decide_True by done. destruct Hh as [Hh|[Hh|[Hh|Hh]]]; cbn in *; [lia| | |by destruct Hh].
          - unfold reconcileWALWithSnapshot. cbn. by rewrite decide_True.
          - unfold reconcileWALWithSnapshot. cbn. case_decide; [done|]. by rewrite Hh. }
        rewrite decide_True in Hl' by done. rewrite Hl'. split; [apply list_elem_of_filter; split; [lia|done]|].
        assert (wf_log (mkSnapshot bi bt None) E) as HwE by by split.
        apply (wf_log_compact (mkSnapshot bi bt None)); [done|]. rewrite (lastIndex_wf _ _ HwE). cbn. apply lookup_lt_Some in Hl.
        destruct Hh as [Hh|[Hh|[Hh|Hh]]]; cbn in *; [lia| | |by destruct Hh].
        + unfold len. lia.
        + destruct (boundary_inv E bi sn0 Hc Hp Hh) as [? _]. unfold len. lia.
      - split; [done|]. split; [|lia]. replace (LastIncludedIndex sn0) with bi by lia. done. }
    apply Ht. rewrite <- Hi, <- Hterm. rewrite termAt_entry by lia. by rewrite (entryAt_elem _ _ _ Hwf Hin).
  - assert (termAt sn0 l sn.(LastIncludedIndex) = Some sn.(LastIncludedTerm)) as Ht'
      by (destruct (decide (termAt sn0 l sn.(LastIncludedIndex) = Some sn.(LastIncludedTerm))); tauto).
    apply newsnap_same; [done|]. destruct Hcond as [[_ ?]|[_ ?]]; lia.
Qed.

End newsnap.

(** ** The laws *)

Lemma file_disk_snap_eq s sn l : file_disk s = Some (sn, l) → sn = file_disk_snap s.
Proof.
  unfold file_disk, file_disk_snap. destruct (file_snap s) as [sn0|]; [|done]. cbn.
  destruct (parseWal _) as [w|]; [|done]. cbn. unfold loaded. repeat case_decide; by intros [= <- _].
Qed.

Lemma file_kept s s' : s'.(f_snapshot) = s.(f_snapshot) → s'.(f_wal) = s.(f_wal) →
  file_disk s' = file_disk s ∧ file_disk_snap s' = file_disk_snap s ∧ (file_sound s → file_sound s') ∧
  (file_appendable s → file_appendable s').
Proof. intros H1 H2. unfold file_disk, file_disk_snap, file_sound, file_appendable, file_snap. by rewrite H1, H2. Qed.

(** The WAL after [Load], when it is not the old one. *)
Lemma load_wal s s' sn o tl :
  file_snap s = Some sn → (sn.(LastIncludedIndex) < two64)%N → walShape o tl s.(f_wal) →
  match o with Some (bi, _, _) => (0 < bi → 0 < sn.(LastIncludedIndex))%N | None => True end →
  s'.(f_snapshot) = s.(f_snapshot) →
  s'.(f_wal) = s.(f_wal) ∨ walShape o [] s'.(f_wal) ∨
   (∃ w, parseWal s.(f_wal) = Some w ∧ (0 < sn.(LastIncludedIndex))%N ∧
     s'.(f_wal) = Some (walBytes sn.(LastIncludedIndex) sn.(LastIncludedTerm) (reconcileWALWithSnapshot w sn).1)) →
  file_disk s' = file_disk s ∧ file_disk_snap s' = file_disk_snap s ∧ file_sound s'.
Proof.
  intros Hsn Hmax Hsh Ho Hks Hw. assert (file_snap s' = Some sn) as Hsn' by (unfold file_snap in *; by rewrite Hks).
  split; [|split; [unfold file_disk_snap; by rewrite Hsn', Hsn|]].
  - unfold file_disk. rewrite Hsn', Hsn. cbn. destruct Hw as [->|[Hsh'|(w & Hp & Hpos & Hw)]]; [done| |].
    + by rewrite (parse_shape _ _ _ _ _ Hsh' Hsh).
    + destruct (reconcile_wf _ _ _ _ sn Hsh Hp ltac:(lia)) as (Hc & Hb & _). rewrite Hp, Hw. cbn [mbind option_bind].
      destruct (parse_wal sn.(LastIncludedIndex) sn.(LastIncludedTerm) (reconcileWALWithSnapshot w sn).1 []
        ltac:(apply not_elem_of_nil) Hmax Hb) as [[_ Hp']|[? _]]; [|done].
      rewrite app_nil_r in Hp'. rewrite Hp'. cbn [mbind option_bind]. rewrite loaded_rewritten by done.
      unfold loaded. by rewrite decide_True.
  - destruct Hw as [Hw|[Hsh'|(w & Hp & Hpos & Hw)]].
    + exists sn, o, tl. by rewrite Hw.
    + by exists sn, o, [].
    + destruct (reconcile_wf _ _ _ _ sn Hsh Hp ltac:(lia)) as (_ & Hb & _). by apply (written_disk s' sn _ Hsn' Hmax Hb).
Qed.

Lemma load_law s s' hs es sn : wal_Load s = (inl (hs, es, sn), s') → file_sound s →
  file_disk s = Some (sn, es) ∧ file_disk s' = Some (sn, es) ∧ file_sound s' ∧ file_appendable s'.
Proof.
  intros El (sn0 & o & tl & Hsn & Hsh & Hmax & Ho). pose proof (Load_cases s sn0 o tl Hsn Hsh Hmax) as Hc. rewrite El in Hc.
  destruct Hc as (Hks & Hw & w & -> & Hp & Hl & Hw').
  destruct (load_wal s s' sn0 o tl Hsn Hmax Hsh Ho Hks Hw) as (Hd & _ & Hs').
  assert (file_disk s = Some (sn0, es)) as Hds by (unfold file_disk; rewrite Hsn; cbn; rewrite Hp; done).
  rewrite Hd. split_and!; [done..|]. assert (file_snap s' = Some sn0) as Hsn' by (unfold file_snap in *; by rewrite Hks).
  destruct Hw' as [[Hsh' Hrw]|[Hpos Hw']].
  - split; [by exists o|]. intros sn w' Hsn2 Hp'. rewrite Hsn' in Hsn2. injection Hsn2 as <-.
    rewrite (parse_shape _ _ _ _ _ Hsh' Hsh), Hp in Hp'. injection Hp' as <-.
    destruct (decide (0 < LastIncludedIndex sn0)%N) as [Hpos|]; [|left; lia].
    destruct Hrw as [Hrw|?]; [|left; lia]. by apply (reconcile_wf _ _ _ _ sn0 Hsh Hp ltac:(lia)).
  - assert (es = (reconcileWALWithSnapshot w sn0).1) as -> by (unfold loaded in Hl; rewrite decide_True in Hl by done; by injection Hl).
    destruct (reconcile_wf _ _ _ _ sn0 Hsh Hp ltac:(lia)) as (_ & Hb & _). by apply (written_disk s' sn0 _ Hsn' Hmax Hb).
Qed.

Lemma load_err_law s s' e : wal_Load s = (inr e, s') → file_sound s →
  file_disk s' = file_disk s ∧ file_disk_snap s' = file_disk_snap s ∧ file_sound s'.
Proof.
  intros El (sn0 & o & tl & Hsn & Hsh & Hmax & Ho). pose proof (Load_cases s sn0 o tl Hsn Hsh Hmax) as Hc. rewrite El in Hc.
  destruct Hc as (Hks & Hw & _). by apply (load_wal s s' sn0 o tl).
Qed.

Lemma err_of_cases r s' (x : (unit + error) * FileStore) : err_of x = (r, s') → x.2 = s' ∧ (r = None ↔ ∃ u, x.1 = inl u).
Proof. destruct x as [[u|e] s]; cbn; intros [= <- <-]; (split; [done|]); split; intros; try done; naive_solver. Qed.

Lemma append_law es s r s' : err_of (wal_AppendEntries es s) = (r, s') → file_sound s → file_appendable s → es ≠ [] →
  Forall (λ e, (file_disk_snap s).(LastIncludedIndex) < e.(Index) < two64)%N es →
  file_disk_snap s' = file_disk_snap s ∧ file_sound s' ∧ (r = None → file_appendable s') ∧
  (file_disk s' = None ∨ ∃ k, file_disk s' = disk_append (take k es) (file_disk s) ∧ (r = None → length es ≤ k)).
Proof.
  intros [<- Hr]%err_of_cases (sn & o0 & tl0 & Hsn & Hsh0 & Hmax & Ho0) [[o Hsh] Hhook] Hne Hes.
  unfold file_disk_snap in *. rewrite Hsn in *. cbn in Hes.
  assert (match o with Some (bi, _, _) => (0 < bi → 0 < sn.(LastIncludedIndex))%N | None => True end) as Ho.
  { destruct o as [[[bi bt] E]|]; [|done]. destruct o0 as [[[bi0 bt0] E0]|].
    - destruct Hsh as (_ & Hd & _), Hsh0 as (Ht0 & Hd0 & _). rewrite Hd in Hd0. injection Hd0 as Hd0.
      assert (splitLines (walBytes bi bt E ++ []) = splitLines (walBytes bi0 bt0 E0 ++ tl0)) as Hsp by (by rewrite Hd0).
      rewrite !splitLines_wal in Hsp by (done || apply not_elem_of_nil). unfold walLines in Hsp. injection Hsp as Hb _.
      assert (decodeWALLine (baseLine bi bt) = decodeWALLine (baseLine bi0 bt0)) as Hdec by (by rewrite Hb).
      rewrite !decode_base in Hdec. injection Hdec as -> ->. done.
    - destruct Hsh as (_ & Hd & _), Hsh0 as (Ht0 & [[Hd0 _]|Hd0]); rewrite Hd in Hd0; [done|]. injection Hd0 as Hd0.
      exfalso. assert (splitLines (walBytes bi bt E ++ []) = splitLines tl0) as Hsp by (by rewrite Hd0).
      rewrite splitLines_wal, splitLines_partial in Hsp by (done || apply not_elem_of_nil). done. }
  pose proof (append_disk es s sn o Hne Hsn Hmax Ho Hsh ltac:(eauto) Hes) as Ha.
  destruct (wal_AppendEntries es s) as [x s']; cbn in *. destruct Ha as (Hsn' & Hs' & Hap & Hd). rewrite Hsn'.
  split_and!; [done|done| |].
  - intros Hn. apply Hr in Hn as [u Hu]. by apply (Hap u).
  - destruct Hd as [?|(k & ? & Hk)]; [by left|right]. exists k. split; [done|]. intros Hn. apply Hr in Hn as [u Hu]. by apply (Hk u).
Qed.

Lemma replace_law es s r s' : err_of (wal_ReplaceEntries es s) = (r, s') → file_sound s → Forall (λ e, e.(Index) < two64)%N es →
  file_disk_snap s' = file_disk_snap s ∧ file_sound s' ∧
  ((r ≠ None ∧ file_disk s' = file_disk s ∧ (file_appendable s → file_appendable s')) ∨
   (file_appendable s' ∧
    (file_disk s' = None ∨
     (file_disk s' = Some (file_disk_snap s, es) ∧ contiguous ((file_disk_snap s).(LastIncludedIndex) + 1) es)))).
Proof.
  intros [<- Hr]%err_of_cases Hs Hes. destruct (file_sound_disk s Hs) as (sn & o & tl & Hsn & Hds & Hsh & Hmax & Ho & _).
  pose proof (replace_cases es s sn Hsn) as Hc. destruct (wal_ReplaceEntries es s) as [x s']; cbn [fst snd] in *.
  destruct Hc as [Hks [[Hw [e ->]]|Hw]].
  - destruct (file_kept s s' Hks Hw) as (? & ? & ? & ?). split_and!; [done|auto|]. left. split_and!; [|done|done].
    intros Hn. apply Hr in Hn as [u Hu]. done.
  - assert (file_snap s' = Some sn) as Hsn' by (unfold file_snap in *; by rewrite Hks).
    destruct (written_disk s' sn es Hsn' Hmax Hes Hw) as (? & ? & ?). rewrite Hds.
    split_and!; [unfold file_disk_snap; by rewrite Hsn'|done|]. by right.
Qed.

Lemma snapshot_law sn s r s' : err_of (wal_SaveSnapshot sn s) = (r, s') → file_sound s → (0 < sn.(LastIncludedIndex) < two64)%N →
  file_sound s' ∧
  ((r ≠ None ∧ file_disk_snap s' = file_disk_snap s ∧ file_disk s' = file_disk s ∧ (file_appendable s → file_appendable s')) ∨
   (file_disk_snap s' = sn ∧
    ((file_disk s = None ∧ file_disk s' = None ∧ (file_appendable s → file_appendable s')) ∨
     ∃ l, file_disk s = Some (file_disk_snap s, l) ∧
       ((termAt (file_disk_snap s) l sn.(LastIncludedIndex) = Some sn.(LastIncludedTerm) ∧
         (file_disk_snap s).(LastIncludedIndex) ≤ sn.(LastIncludedIndex))%N ∨
        (file_appendable s ∧ (file_disk_snap s).(LastIncludedIndex) < sn.(LastIncludedIndex))%N →
        file_disk s' = Some (sn, logAfterSnapshot (file_disk_snap s) l sn) ∧
        (file_appendable s → termAt (file_disk_snap s) l sn.(LastIncludedIndex) = Some sn.(LastIncludedTerm) → file_appendable s'))))).
Proof.
  intros [<- Hr]%err_of_cases Hs Hpos. destruct (file_sound_disk s Hs) as (sn0 & o & tl & Hsn & Hds & Hsh & Hmax & Ho & Hd).
  pose proof (sets_writeJSON PSnapshot (marshalSnapshot sn) s) as Hset.
  pose proof (keeps_writeJSON PWal PSnapshot (marshalSnapshot sn) ltac:(done) s) as Hkw. unfold wal_SaveSnapshot in *.
  destruct (writeJSONAtomic PSnapshot (marshalSnapshot sn) s) as [x s']; cbn [fst snd content] in *.
  assert ((s'.(f_snapshot) = s.(f_snapshot) ∧ ∃ e, x = inr e) ∨ s'.(f_snapshot) = Some (marshalSnapshot sn)) as [[Hks [e ->]]|Hks].
  { destruct x as [u|e]; [by right|]. destruct Hset; [left; eauto|by right]. }
  { destruct (file_kept s s' Hks Hkw) as (? & ? & ? & ?). split; [auto|]. left. split_and!; [|done..]. intros Hn. apply Hr in Hn as [u Hu]. done. }
  assert (file_snap s' = Some sn) as Hsn' by (unfold file_snap; by rewrite Hks, unmarshal_snapshot).
  split; [exists sn, o, tl; rewrite Hkw; split_and!; [done|done|lia|]; destruct o as [[[]]|]; [intros; lia|done]|].
  right. split; [unfold file_disk_snap; by rewrite Hsn'|]. rewrite Hds, Hd.
  assert (file_disk s' = parseWal (f_wal s) ≫= loaded sn) as Hd' by (unfold file_disk; by rewrite Hsn', Hkw).
  rewrite Hd'. destruct (parseWal (f_wal s)) as [w|] eqn:Hp; cbn [mbind option_bind].
  2: { left. split_and!; [done|done|]. intros [Hsh0 _]. split; rewrite Hkw; [done|]. by rewrite Hp. }
  right. rewrite (sound_loaded sn0 o tl _ w Hsh Hp Ho). eexists. split; [done|]. unfold loaded. rewrite (decide_True (P := (0 < sn.(LastIncludedIndex))%N)) by lia.
  assert (file_appendable s → hooked sn0 w) as Hhook by (intros [_ Hh]; by apply Hh).
  assert ((∃ o0, walShape o0 [] (f_wal s)) → hooked sn w → file_appendable s') as Hap.
  { intros Hsh0 Hh. split; rewrite Hkw; [done|]. intros sn1 w1. rewrite Hsn', Hp. by intros [= <-] [= <-]. }
  destruct (shape_parse _ _ _ _ Hsh Hp) as [[-> ->]|(bi & bt & E & -> & -> & Hc & Hrg)].
  - intros _. assert (∀ sn, (0 < sn.(LastIncludedIndex))%N → (reconcileWALWithSnapshot emptyWal sn).1 = []) as Hrec.
    { intros sn1 Hp1. unfold reconcileWALWithSnapshot. cbn. rewrite decide_False by (by intros [? _]). rewrite bool_decide_false by lia. by rewrite decide_True. }
    rewrite (Hrec sn) by lia. split.
    + unfold logAfterSnapshot. destruct (decide (0 < LastIncludedIndex sn0)%N); rewrite ?Hrec by done; by case_decide.
    + intros [Hsh0 _] _. apply Hap; [done|]. by right; right; right.
  - cbn [wal_entries]. intros Hcond. split.
    + do 2 f_equal. apply newsnap_disk; [done..|]. destruct Hcond as [?|[Ha ?]]; [by left|right; auto].
    + intros Ha Ht. apply Hap; [apply Ha|].
      assert (sn0.(LastIncludedIndex) ≤ sn.(LastIncludedIndex))%N as Hle by (destruct Hcond as [[_ ?]|[_ ?]]; lia).
      destruct (newsnap_same sn0 sn bi bt E) as [_ Hh]; [done..|]. by apply Hh, Hhook.
Qed.

#[global, program] Instance FileStore_disk : DiskLaws FileStore :=
  {| disk := file_disk; disk_snap := file_disk_snap; sound := file_sound; appendable := file_appendable |}.
Next Obligation. exact file_disk_snap_eq. Qed.
Next Obligation. intros s s' hs es sn Hl. by apply (load_law s s' hs). Qed.
Next Obligation. intros s s' e Hl. by apply (load_err_law s s' e). Qed.
Next Obligation.
  intros hs s. cbn. rewrite err_of_state. apply file_kept; [apply (keeps_writeJSON PSnapshot PHardState)|apply (keeps_writeJSON PWal PHardState)]; done.
Qed.
Next Obligation. intros es s r s' He. by apply append_law. Qed.
Next Obligation. intros es s r s' He. by apply replace_law. Qed.
Next Obligation. intros sn s r s' He. by apply snapshot_law. Qed.

End diskwal.
