(* ===== verification/TestEnv.v ===== *)
(** * A concrete environment

    Instances with which the model runs: a random source, the in-memory
    store, the key-value machine and the JSON codec of [Json.v].  They show
    that the interfaces' laws can hold together and let the witnesses of the
    theorems compute. *)

From S2P Require Import Prelude Types StateMachine StoreIntf RaftLog NodeState Node.
From S2P Require Export Json JsonProofs.
Import KV Mem.

(** The source that always draws the smallest delay. *)
#[global, program] Instance zeroRand : RandSource := {| Int63n _ _ := 0%Z |}.
Next Obligation. intros; cbn; lia. Qed.

(** A three-node configuration. *)
Definition peers3 : gmap string string :=
  {[ "n1" := "h1:1"; "n2" := "h2:1"; "n3" := "h3:1" ]}.

Definition cfg3 (i : string) : Config :=
  mkConfig i (map_str peers3 i) (Some peers3) None 300 600 75 5000 64 4.

Definition newKVNode (i : string) (st : MemStore) : Node KVStateMachine MemStore + error * MemStore :=
  NewNode (cfg3 i) st NewKVStateMachine 0 0.

(** A cluster of one node, which is its own majority; it compacts its log
    as soon as it holds more than two entries. *)
Definition cfg1 : Config :=
  mkConfig "n1" "h1:1" (Some {[ "n1" := "h1:1" ]}) None 300 600 75 5000 2 4.

Definition newKVNode1 (st : MemStore) : Node KVStateMachine MemStore + error * MemStore :=
  NewNode cfg1 st NewKVStateMachine 0 0.
