(* ===== verification/Cluster.v ===== *)
(** * The cluster and election safety

    A cluster of nodes with their stores, the RequestVote traffic between
    them, crashes and restarts.  Every step is a critical section of some
    node (or a crash); calls of [startElection] are followed through their
    vote collection, and all other activity of a node, driven by arbitrary
    AppendEntries and InstallSnapshot traffic, is an [nrun] step.

    Election safety: a term never has two leaders, over the whole history
    of the cluster, with store failures and crashes anywhere. *)

From S2P Require Import Prelude Types StateMachine StoreIntf RaftLog NodeState Node Replication NodeStep VoteFrame TestEnv.

Section cluster.
Context {SM St : Type} `{StateMachine SM} `{Store St} `{RandSource} `{MapCodec} `{!HardStateLaws St}.
#[local] Abbreviation Node := (Node SM St).

(** The members and the configuration each of them is started with. *)
Context (members : gset string) (cfg : string → Config).

Definition config_ok : Prop := ∀ i, i ∈ members →
  i ≠ "" ∧ cfg_ID (cfg i) = i ∧ ∃ m, cfg_Peers (cfg i) = Some m ∧ dom m = members.

(** A member is running, or it is down and only its store remains. *)
Inductive slot := Up (n : Node) | Down (st : St).

(** A call of [startElection] in progress: the term it runs for, the votes
    counted and the peers whose result has not been received. *)
Record election := mkElection {
  el_term : N;
  el_votes : nat;
  el_waiting : gset string }.

(** Requests and responses stay in the network once sent, so that delivery
    in any order, late, repeated or never is covered.  [cl_started] and
    [cl_elected] record, for the statement only, the candidacies that became
    durable and the nodes that became leader. *)
Record cluster := mkCluster {
  cl_slots : gmap string slot;
  cl_elec : gmap string election;
  cl_vreq : list (string * string * RequestVoteRequest);
  cl_vresp : list (string * string * RequestVoteRequest * RequestVoteResponse);
  cl_started : list (string * N);
  cl_elected : list (N * string) }.

Definition set_slot (i : string) (s : slot) (c : cluster) : cluster :=
  mkCluster (<[i := s]> c.(cl_slots)) c.(cl_elec) c.(cl_vreq) c.(cl_vresp)
            c.(cl_started) c.(cl_elected).

Definition set_node (i : string) (n : Node) (c : cluster) : cluster := set_slot i (Up n) c.

Definition set_elec (i : string) (e : option election) (c : cluster) : cluster :=
  mkCluster c.(cl_slots)
            match e with Some e => <[i := e]> c.(cl_elec) | None => delete i c.(cl_elec) end
            c.(cl_vreq) c.(cl_vresp) c.(cl_started) c.(cl_elected).

(** Run [becomeLeader] at [i], which ends its [startElection] call. *)
Definition lead (i : string) (term : N) (n : Node) (c : cluster) : cluster :=
  let n' := (becomeLeader term n).2 in
  let c := set_elec i None (set_node i n' c) in
  mkCluster c.(cl_slots) c.(cl_elec) c.(cl_vreq) c.(cl_vresp) c.(cl_started)
    (if decide (n'.(role) = Leader ∧ n.(role) ≠ Leader)
     then (n'.(currentTerm), i) :: c.(cl_elected) else c.(cl_elected)).

(** The durable start of an election. *)
Definition announce (i : string) (term : N) (req : RequestVoteRequest) (n : Node) (c : cluster) : cluster :=
  mkCluster (<[i := Up n]> c.(cl_slots))
    (<[i := mkElection term 1 (dom n.(params).(peerAddrs))]> c.(cl_elec))
    (((λ p, (i, p, req)) <$> elements (dom n.(params).(peerAddrs))) ++ c.(cl_vreq))
    c.(cl_vresp) ((i, term) :: c.(cl_started)) c.(cl_elected).

Inductive cstep : cluster → cluster → Prop :=
  | cs_crash c i n :
      c.(cl_slots) !! i = Some (Up n) →
      cstep c (set_elec i None (set_slot i (Down n.(store)) c))
  | cs_restart c i st s rng0 now0 n :
      c.(cl_slots) !! i = Some (Down st) → NewNode (cfg i) st s rng0 now0 = inl n →
      cstep c (set_node i n c)
  | cs_restart_failed c i st s rng0 now0 e st' :
      c.(cl_slots) !! i = Some (Down st) → NewNode (SM := SM) (cfg i) st s rng0 now0 = inr (e, st') →
      cstep c (set_slot i (Down st') c)
  | cs_node c i n op :
      c.(cl_slots) !! i = Some (Up n) → is_election op = false → cstep c (set_node i (nrun op n) c)
  | cs_election c i n term req n' :
      c.(cl_slots) !! i = Some (Up n) → c.(cl_elec) !! i = None →
      (n.(currentTerm) < two64 - 1)%N →
      startElection n = (Some (term, req), n') → cstep c (announce i term req n' c)
  | cs_election_refused c i n n' :
      c.(cl_slots) !! i = Some (Up n) → c.(cl_elec) !! i = None →
      (n.(currentTerm) < two64 - 1)%N →
      startElection n = (None, n') → cstep c (set_node i n' c)
  | cs_vote c cand j req n resp n' :
      (cand, j, req) ∈ c.(cl_vreq) → c.(cl_slots) !! j = Some (Up n) →
      HandleRequestVote req n = (resp, n') →
      cstep c (let c := set_node j n' c in
        mkCluster c.(cl_slots) c.(cl_elec) c.(cl_vreq) ((cand, j, req, resp) :: c.(cl_vresp))
          c.(cl_started) c.(cl_elected))
  | cs_single c i n e :
      c.(cl_slots) !! i = Some (Up n) → c.(cl_elec) !! i = Some e → quorum n = 1 →
      cstep c (lead i e.(el_term) n c)
  | cs_result c i n e p req resp :
      c.(cl_slots) !! i = Some (Up n) → c.(cl_elec) !! i = Some e → p ∈ e.(el_waiting) →
      (i, p, req, resp) ∈ c.(cl_vresp) → rv_Term req = e.(el_term) →
      cstep c
        match collectVote n e.(el_term) e.(el_votes) (Some resp) with
        | VoteContinue v => set_elec i (Some (mkElection e.(el_term) v (e.(el_waiting) ∖ {[p]}))) c
        | VoteStepDown t => set_elec i None (set_node i (stepDown t "" n) c)
        | VoteBecomeLeader => lead i e.(el_term) n c
        end
  | cs_result_error c i e p :
      c.(cl_elec) !! i = Some e → p ∈ e.(el_waiting) →
      cstep c (set_elec i (Some (mkElection e.(el_term) e.(el_votes) (e.(el_waiting) ∖ {[p]}))) c)
  | cs_election_end c i :
      cstep c (set_elec i None c).

(** Initially every member is down, with any store. *)
Definition initial (c : cluster) : Prop :=
  dom c.(cl_slots) = members ∧ (∀ i s, c.(cl_slots) !! i = Some s → ∃ st, s = Down st) ∧
  c.(cl_elec) = ∅ ∧ c.(cl_vreq) = [] ∧ c.(cl_vresp) = [] ∧ c.(cl_started) = [] ∧ c.(cl_elected) = [].

Definition reachable (c : cluster) : Prop := ∃ c0, initial c0 ∧ rtc cstep c0 c.

(** ** The invariant *)

(** [j] gave its vote of term [t] to [cand]: to itself when it became a
    candidate, or in a granting response. *)
Definition voted (c : cluster) (j cand : string) (t : N) : Prop :=
  (j = cand ∧ (j, t) ∈ c.(cl_started)) ∨
  ∃ req resp, (cand, j, req, resp) ∈ c.(cl_vresp) ∧ rvr_VoteGranted resp = true ∧ rv_Term req = t.

(** A hard state that cannot contradict the vote of [t] for [cand]. *)
Definition keeps (h : N * string) (cand : string) (t : N) : Prop :=
  (t < h.1)%N ∨ (h.1 = t ∧ h.2 = cand).

Lemma keeps_le h h' cand t : cand ≠ "" → keeps h cand t → hs_le h h' → keeps h' cand t.
Proof. unfold keeps, hs_le. destruct h, h'; cbn. intros ? [?|[-> ->]] [?|[? [?|?]]]; subst;
  solve [left; lia | right; auto | done]. Qed.

Definition slot_keeps (s : slot) (cand : string) (t : N) : Prop :=
  match s with
  | Up n => keeps (mem_hs n) cand t ∧ keeps (disk_hs n.(store)) cand t
  | Down st => keeps (disk_hs st) cand t
  end.

Lemma slot_keeps_frame n n' cand t :
  cand ≠ "" → vote_frame n n' → slot_keeps (Up n) cand t → slot_keeps (Up n') cand t.
Proof.
  intros Hc [_ Hm Hd _] [Km Kd]. split; [by apply (keeps_le (mem_hs n))|].
  destruct Hd as [->|Hd]; [done|by apply (keeps_le (mem_hs n))].
Qed.

Definition majority : nat := size members / 2 + 1.
#[local] Arguments majority : simpl never.

Definition node_ok (i : string) (n : Node) : Prop :=
  n.(params).(id) = i ∧ dom n.(params).(peerAddrs) = members ∖ {[i]}.

Record inv (c : cluster) : Prop := {
  inv_dom : dom c.(cl_slots) = members;
  inv_node : ∀ i n, c.(cl_slots) !! i = Some (Up n) → node_ok i n;
  inv_vreq : ∀ cand p req, (cand, p, req) ∈ c.(cl_vreq) →
    rv_CandidateID req = cand ∧ cand ∈ members ∧ p ∈ members;
  inv_vresp : ∀ cand p req resp, (cand, p, req, resp) ∈ c.(cl_vresp) →
    cand ∈ members ∧ p ∈ members;
  inv_started : ∀ i t, (i, t) ∈ c.(cl_started) → i ∈ members;
  inv_keeps : ∀ j cand t s, voted c j cand t → c.(cl_slots) !! j = Some s → slot_keeps s cand t;
  inv_unique : ∀ j cand cand' t, voted c j cand t → voted c j cand' t → cand = cand';
  inv_elec : ∀ i e, c.(cl_elec) !! i = Some e →
    i ∈ members ∧ (i, e.(el_term)) ∈ c.(cl_started) ∧
    (i ∉ e.(el_waiting)) ∧
    ∃ V : gset string, size V + 1 = e.(el_votes) ∧ (V ## e.(el_waiting)) ∧ (i ∉ V) ∧
      (∀ p, p ∈ V → p ∈ members ∧ voted c p i e.(el_term));
  inv_elected : ∀ t i, (t, i) ∈ c.(cl_elected) →
    ∃ Q : gset string, Q ⊆ members ∧ majority ≤ size Q ∧ ∀ j, j ∈ Q → voted c j i t;
  inv_leader : ∀ i n, c.(cl_slots) !! i = Some (Up n) → n.(role) = Leader →
    (n.(currentTerm), i) ∈ c.(cl_elected) }.

Lemma voted_member c j cand t : inv c → voted c j cand t → cand ∈ members ∧ j ∈ members.
Proof.
  intros Hi [[-> Hs]|(req & resp & Hr & _)].
  - pose proof (inv_started _ Hi _ _ Hs). done.
  - by apply (inv_vresp _ Hi) in Hr.
Qed.

Lemma quorum_majority i n : i ∈ members → node_ok i n → quorum n = majority.
Proof.
  intros Hi [_ Hd]. unfold quorum, majority. rewrite <- size_dom, Hd.
  rewrite size_difference by (by apply singleton_subseteq_l). rewrite size_singleton.
  assert (size members ≠ 0) by (apply size_non_empty_iff; intros He; by apply He in Hi).
  f_equal. f_equal. lia.
Qed.

(** Two majorities of the members share one. *)
Lemma majorities_meet (Q Q' : gset string) :
  Q ⊆ members → Q' ⊆ members → majority ≤ size Q → majority ≤ size Q' → ∃ j, j ∈ Q ∧ j ∈ Q'.
Proof.
  intros HQ HQ' Hs Hs'. destruct (decide (Q ∩ Q' = ∅)) as [He|Hne].
  - assert (size (Q ∪ Q') ≤ size members) as Hle by (apply subseteq_size; set_solver).
    rewrite size_union in Hle by set_solver.
    unfold majority in *. pose proof (Nat.div_mod_eq (size members) 2).
    pose proof (Nat.mod_upper_bound (size members) 2). lia.
  - apply set_choose_L in Hne as [j Hj]. exists j. set_solver.
Qed.

Lemma majority_unique c t i i' Q Q' :
  inv c → Q ⊆ members → Q' ⊆ members → majority ≤ size Q → majority ≤ size Q' →
  (∀ j, j ∈ Q → voted c j i t) → (∀ j, j ∈ Q' → voted c j i' t) → i = i'.
Proof.
  intros Hi HQ HQ' Hs Hs' Hv Hv'. destruct (majorities_meet Q Q') as (j & Hj & Hj'); [done..|].
  eapply (inv_unique _ Hi); eauto.
Qed.

(** ** Preservation *)

Lemma inv_set_slot c i s' :
  inv c → i ∈ members →
  (∀ cand t, voted c i cand t → slot_keeps s' cand t) →
  match s' with
  | Up n => node_ok i n ∧ (n.(role) = Leader → (n.(currentTerm), i) ∈ c.(cl_elected))
  | Down _ => True
  end →
  inv (set_slot i s' c).
Proof.
  intros [] Hi Hk Hs. split; try done; cbn.
  - rewrite dom_insert_L. set_solver.
  - intros j n [[<- ->]|[? ?]]%lookup_insert_Some; [apply Hs|auto].
  - intros j cand t s Hv [[<- <-]|[? ?]]%lookup_insert_Some; [by apply Hk|eauto].
  - intros j n [[<- ->]|[? ?]]%lookup_insert_Some; [apply Hs|eauto].
Qed.

Lemma slot_member c i s : inv c → c.(cl_slots) !! i = Some s → i ∈ members.
Proof. intros Hi Hs. rewrite <- (inv_dom _ Hi). by apply elem_of_dom_2 in Hs. Qed.

Context (Hcfg : config_ok).

Lemma member_ne i : i ∈ members → i ≠ "".
Proof. intros Hi. by destruct (Hcfg i Hi). Qed.

Lemma inv_set_node c i n n' :
  inv c → c.(cl_slots) !! i = Some (Up n) → vote_frame n n' → inv (set_node i n' c).
Proof.
  intros Hi Hs Hf. pose proof (slot_member _ _ _ Hi Hs) as Hm. apply inv_set_slot; [done..| |].
  - intros cand t Hv. apply (slot_keeps_frame n); [|done|by eapply inv_keeps].
    apply member_ne. by destruct (voted_member _ _ _ _ Hi Hv).
  - destruct (inv_node _ Hi _ _ Hs) as [Hid Hdom]. destruct Hf as [Hp _ _ Hl].
    split; [unfold node_ok; by rewrite Hp|]. intros Hr. destruct (Hl Hr) as [Hr' ->].
    by eapply inv_leader.
Qed.

Lemma inv_elec_none c i : inv c → inv (set_elec i None c).
Proof. intros []. split; try done; cbn. intros j e [_ ?]%lookup_delete_Some. auto. Qed.

(** A result that does not add a vote. *)
Lemma inv_elec_drop c i e p :
  inv c → c.(cl_elec) !! i = Some e →
  inv (set_elec i (Some (mkElection e.(el_term) e.(el_votes) (e.(el_waiting) ∖ {[p]}))) c).
Proof.
  intros [] He. split; try done; cbn.
  intros j e' [[<- <-]|[? ?]]%lookup_insert_Some; [|by auto]. cbn.
  destruct (inv_elec0 _ _ He) as (? & ? & ? & V & ? & ? & ? & ?).
  split_and!; [done..|set_solver|]. exists V. split_and!; [done|set_solver|done..].
Qed.

(** A granted vote is counted. *)
Lemma inv_elec_count c i e p :
  inv c → c.(cl_elec) !! i = Some e → p ∈ e.(el_waiting) → p ∈ members →
  voted c p i e.(el_term) →
  inv (set_elec i (Some (mkElection e.(el_term) (S e.(el_votes)) (e.(el_waiting) ∖ {[p]}))) c).
Proof.
  intros [] He Hp Hm Hv. split; try done; cbn.
  intros j e' [[<- <-]|[? ?]]%lookup_insert_Some; [|by auto]. cbn.
  destruct (inv_elec0 _ _ He) as (? & ? & ? & V & HV & ? & ? & Hvs).
  split_and!; [done..|set_solver|]. exists ({[p]} ∪ V).
  split_and!; [|set_solver|set_solver|].
  - rewrite size_union, size_singleton by set_solver. lia.
  - intros q [->%elem_of_singleton|Hq]%elem_of_union; auto.
Qed.

(** A majority of votes makes a leader. *)
Lemma inv_lead c i n e (Q : gset string) :
  inv c → c.(cl_slots) !! i = Some (Up n) → c.(cl_elec) !! i = Some e →
  Q ⊆ members → majority ≤ size Q → (∀ j, j ∈ Q → voted c j i e.(el_term)) →
  inv (lead i e.(el_term) n c).
Proof.
  intros Hi Hs He HQ Hsz Hv. unfold lead. destruct (becomeLeader (el_term e) n) as [b n'] eqn:Eb. cbn [snd].
  apply vote_becomeLeader in Eb as (Hp & Hm & Hd & Hl).
  pose proof (slot_member _ _ _ Hi Hs) as Hmem.
  set (els := if decide _ then _ else _).
  assert (∀ x, x ∈ c.(cl_elected) → x ∈ els) as Hsub by (subst els; case_decide; set_solver).
  assert (∀ t j, (t, j) ∈ els → (t, j) ∈ c.(cl_elected) ∨ (t = el_term e ∧ j = i)) as Hels.
  { subst els. cbn. case_decide as Hd'; [|by auto]. intros t j [Heq|Hin]%elem_of_cons; [|by auto].
    right. simplify_eq. destruct Hd' as [Hr Hnr]. destruct (Hl Hr); [done|auto]. }
  pose proof Hi as []. split; try done; cbn.
  - rewrite dom_insert_L. set_solver.
  - intros j m [[<- [= ->]]|[? ?]]%lookup_insert_Some; [|by auto].
    unfold node_ok. rewrite Hp. by apply inv_node0.
  - intros j cand t s Hvo [[<- <-]|[? ?]]%lookup_insert_Some; [|by eauto].
    pose proof (inv_keeps0 _ _ _ _ Hvo Hs) as [Km Kd].
    assert (cand ≠ "") by (apply member_ne; by destruct (voted_member _ _ _ _ Hi Hvo)).
    split; [by rewrite Hm|]. destruct Hd as [->|Hd]; [done|by apply (keeps_le (mem_hs n))].
  - intros j e' [_ ?]%lookup_delete_Some. auto.
  - intros t j Hin. destruct (Hels _ _ Hin) as [Hold|[-> ->]]; [exact (inv_elected0 _ _ Hold)|]. by exists Q.
  - intros j m [[<- [= ->]]|[? ?]]%lookup_insert_Some Hr; [|by eauto].
    destruct (decide (role n = Leader)) as [Hrn|Hrn].
    + unfold mem_hs in Hm. injection Hm as -> _. apply Hsub. by apply inv_leader0.
    + subst els. rewrite decide_True by done. left.
Qed.

(** Adding votes: the parts of the invariant that only grow with them. *)
Lemma inv_more_votes c c' j n n' cand0 t0 :
  inv c → c.(cl_slots) !! j = Some (Up n) →
  (∀ k cand t, voted c k cand t → voted c' k cand t) →
  (∀ k cand t, voted c' k cand t → voted c k cand t ∨ (k = j ∧ cand = cand0 ∧ t = t0)) →
  slot_keeps (Up n') cand0 t0 →
  (∀ cand, keeps (mem_hs n) cand t0 → cand ≠ "" → cand = cand0) →
  (∀ cand t, cand ≠ "" → slot_keeps (Up n) cand t → slot_keeps (Up n') cand t) →
  (∀ k cand t s, voted c' k cand t → <[j := Up n']> c.(cl_slots) !! k = Some s → slot_keeps s cand t) ∧
  (∀ k cand cand' t, voted c' k cand t → voted c' k cand' t → cand = cand').
Proof.
  intros Hi Hs Hmono Hnew Hk0 Hu Hframe.
  assert (∀ cand, voted c j cand t0 → cand = cand0) as Hj.
  { intros cand Hv. apply Hu; [by apply (inv_keeps _ Hi _ _ _ _ Hv Hs)|].
    apply member_ne. by destruct (voted_member _ _ _ _ Hi Hv). }
  split.
  - intros k cand t s Hv [[<- <-]|[? ?]]%lookup_insert_Some;
      destruct (Hnew _ _ _ Hv) as [Hold|(? & ? & ?)]; subst; try done.
    + apply Hframe; [|by apply (inv_keeps _ Hi _ _ _ _ Hold)].
      apply member_ne. by destruct (voted_member _ _ _ _ Hi Hold).
    + by apply (inv_keeps _ Hi _ _ _ _ Hold).
  - intros k cand cand' t Hv Hv'.
    destruct (Hnew _ _ _ Hv) as [Ho|(? & ? & ?)], (Hnew _ _ _ Hv') as [Ho'|(? & ? & ?)];
      subst; try done.
    + by apply (inv_unique _ Hi k _ _ t).
    + by apply Hj.
    + symmetry. by apply Hj.
Qed.

Lemma inv_vote c cand j req n resp n' :
  inv c → (cand, j, req) ∈ c.(cl_vreq) → c.(cl_slots) !! j = Some (Up n) →
  HandleRequestVote req n = (resp, n') →
  inv (mkCluster (<[j := Up n']> c.(cl_slots)) c.(cl_elec) c.(cl_vreq)
         ((cand, j, req, resp) :: c.(cl_vresp)) c.(cl_started) c.(cl_elected)).
Proof.
  intros Hi Hreq Hs Hh. set (c' := mkCluster _ _ _ _ _ _).
  destruct (inv_vreq _ Hi _ _ _ Hreq) as (Hcand & Hcm & Hjm).
  apply vote_granted in Hh as [Hf Hg].
  pose proof (inv_set_node _ _ _ _ Hi Hs Hf) as Hi1.
  assert (∀ k x t, voted c k x t → voted c' k x t) as Hmono.
  { intros k x t [?|(r & rs & ? & ?)]; [by left|right]. exists r, rs. split; [by right|done]. }
  assert ((∀ k x t s, voted c' k x t → <[j := Up n']> c.(cl_slots) !! k = Some s → slot_keeps s x t) ∧
    (∀ k x x' t, voted c' k x t → voted c' k x' t → x = x')) as [Hk Hu].
  { destruct (rvr_VoteGranted resp) eqn:Eg.
    - destruct (Hg eq_refl) as (Hm & Hd & Hfirst). rewrite Hcand in *.
      apply (inv_more_votes c c' j n n' cand (rv_Term req)); try done.
      + intros k x t [?|(r & rs & [?|?]%elem_of_cons & Hgr & <-)]; [by left; left| |];
          [simplify_eq; by right|left; right; by exists r, rs].
      + split; [rewrite Hm|rewrite Hd]; by right.
      + unfold keeps, mem_hs; cbn. intros x [?|[? <-]] Hx; [lia|].
        destruct Hfirst as [?|[_ [?|?]]]; [lia|done|done].
      + intros x t Hx. by apply slot_keeps_frame.
    - assert (∀ k x t, voted c' k x t → voted c k x t) as Hsame.
      { intros k x t [?|(r & rs & [?|?]%elem_of_cons & Hgr & <-)]; [by left| |];
          [simplify_eq; congruence|right; by exists r, rs]. }
      split.
      + intros k x t s Hv. exact (inv_keeps _ Hi1 _ _ _ _ (Hsame _ _ _ Hv)).
      + intros k x x' t Hv Hv'. exact (inv_unique _ Hi _ _ _ _ (Hsame _ _ _ Hv) (Hsame _ _ _ Hv')). }
  pose proof Hi1 as []. split; try done; cbn.
  - intros x p r rs [?|?]%elem_of_cons; [by simplify_eq|eauto].
  - intros i e He. destruct (inv_elec0 i e He) as (? & ? & ? & V & ? & ? & ? & HV).
    split_and!; [done..|]. exists V. split_and!; [done..|].
    intros p Hp. destruct (HV p Hp) as [? Hvp]. split; [done|]. apply Hmono. exact Hvp.
  - intros t i Hin. destruct (inv_elected0 t i Hin) as (Q & ? & ? & HQ). exists Q.
    split_and!; [done..|]. intros k Hk'. apply Hmono. exact (HQ k Hk').
Qed.

Lemma inv_announce c i n term req n' :
  inv c → c.(cl_slots) !! i = Some (Up n) → c.(cl_elec) !! i = None →
  (n.(currentTerm) < two64 - 1)%N → startElection n = (Some (term, req), n') →
  inv (announce i term req n' c).
Proof.
  intros Hi Hs He Hmax Hst. apply vote_startElection in Hst as (Ht & Hrt & Hrc & Hp & Hr & Hm & Hd); [|done].
  set (c' := announce i term req n' c).
  destruct (inv_node _ Hi _ _ Hs) as [Hid Hdom]. rewrite Hid in *.
  pose proof (slot_member _ _ _ Hi Hs) as Hmem.
  assert (∀ k x t, voted c k x t → voted c' k x t) as Hmono.
  { intros k x t [[-> ?]|?]; [left; split; [done|by right]|by right]. }
  destruct (inv_more_votes c c' i n n' i term) as [Hk Hu]; try done.
  { intros k x t [[-> [?|?]%elem_of_cons]|?]; [simplify_eq; by right|left; by left|left; by right]. }
  { split; [rewrite Hm|rewrite Hd]; by right. }
  { unfold keeps, mem_hs; cbn. intros x [?|[? _]]; lia. }
  { intros x t Hx [Km Kd]. split; [rewrite Hm|rewrite Hd].
    all: left; cbn; destruct Km as [Km|[Km _]]; cbn in Km; lia. }
  pose proof Hi as []. split; try done; cbn.
  - rewrite dom_insert_L. set_solver.
  - intros j m [[<- [= ->]]|[? ?]]%lookup_insert_Some; [|by auto]. unfold node_ok. by rewrite Hp.
  - intros x p r [Hin|?]%elem_of_app; [|by eauto]. apply list_elem_of_fmap in Hin as (q & ? & Hq).
    simplify_eq. split_and!; [done..|]. rewrite elem_of_elements, Hp, Hdom in Hq. set_solver.
  - intros j t [?|?]%elem_of_cons; [by simplify_eq|eauto].
  - intros j e [[<- <-]|[? Hj]]%lookup_insert_Some; cbn.
    + rewrite Hp, Hdom. split_and!; [done|by left|set_solver|]. exists ∅.
      split_and!; [by rewrite size_empty|set_solver..].
    + destruct (inv_elec0 j e Hj) as (? & ? & ? & V & ? & ? & ? & HV).
      split_and!; [done|by right|done|]. exists V. split_and!; [done..|].
      intros p Hpv. destruct (HV p Hpv) as [? Hvp]. split; [done|]. apply Hmono. exact Hvp.
  - intros t j Hin. destruct (inv_elected0 t j Hin) as (Q & ? & ? & HQ). exists Q.
    split_and!; [done..|]. intros k Hk'. apply Hmono. exact (HQ k Hk').
  - intros j m [[<- [= ->]]|[? ?]]%lookup_insert_Some Hl; [congruence|eauto].
Qed.

(** ** Restarts *)

Lemma NewNode_hs i st s rng0 now0 :
  i ∈ members →
  match NewNode (cfg i) st s rng0 now0 with
  | inl n => node_ok i n ∧ n.(role) = Follower ∧ mem_hs n = disk_hs st ∧ disk_hs n.(store) = disk_hs st
  | inr (_, st') => disk_hs st' = disk_hs st
  end.
Proof.
  intros Hi. destruct (Hcfg i Hi) as (Hne & Hid & m & Hpe & Hdm).
  unfold NewNode. case_decide; [done|]. destruct (validateConfig _); [done|].
  pose proof (Load_hs_frame st) as Hfr. pose proof (Load_hs st) as Hl.
  destruct (Load st) as [[[[hs es] sn]|e] st'] eqn:El; cbn in Hfr.
  2: by unfold disk_hs; rewrite Hfr.
  specialize (Hl _ _ _ _ eq_refl). subst hs.
  destruct (replayLoop _ _ _ _) as [ap s'].
  set (n0 := resetElectionLocked _).
  assert (node_ok i n0 ∧ n0.(role) = Follower ∧ mem_hs n0 = disk_hs st ∧ disk_hs n0.(store) = disk_hs st)
    as (Hok & Hr & Hm & Hd).
  { split_and!; try done.
    - split; [done|]. cbn. rewrite Hpe, Hid. cbn. apply set_eq. intros k.
      rewrite elem_of_dom, elem_of_difference, elem_of_singleton, <- Hdm, elem_of_dom.
      unfold is_Some. setoid_rewrite map_lookup_filter_Some. naive_solver.
    - cbn. unfold disk_hs. by rewrite Hfr. }
  case_decide; [|done]. destruct (persistHardStateLocked n0) as [e n1] eqn:E.
  pose proof (persist_disk _ _ _ E) as Hdisk.
  apply vf_persist in E as ([Hp _ _ _] & Hr1 & Hm1 & Hd1).
  destruct e as [e|].
  - destruct Hdisk; congruence.
  - split_and!; [unfold node_ok; by rewrite Hp|congruence|congruence|].
    rewrite Hd1 by done. congruence.
Qed.

Lemma inv_initial c : initial c → inv c.
Proof.
  intros (Hd & Hdown & He & Hq & Hr & Hs & Hl). split.
  - done.
  - intros i n Hi. by destruct (Hdown _ _ Hi).
  - rewrite Hq. by intros ? ? ? ?%not_elem_of_nil.
  - rewrite Hr. by intros ? ? ? ? ?%not_elem_of_nil.
  - rewrite Hs. by intros ? ? ?%not_elem_of_nil.
  - intros j cand t s [[_ Hv]|(? & ? & Hv & _)]; rewrite ?Hs, ?Hr in Hv; by apply not_elem_of_nil in Hv.
  - intros j cand cand' t [[_ Hv]|(? & ? & Hv & _)]; rewrite ?Hs, ?Hr in Hv; by apply not_elem_of_nil in Hv.
  - rewrite He. intros i e. by rewrite lookup_empty.
  - rewrite Hl. by intros ? ? ?%not_elem_of_nil.
  - intros i n Hi. by destruct (Hdown _ _ Hi).
Qed.

(** The votes counted by a call of [startElection], with the candidate's own. *)
Lemma votes_cover c i e :
  inv c → c.(cl_elec) !! i = Some e →
  ∃ Q : gset string, Q ⊆ members ∧ size Q = e.(el_votes) ∧ (Q ## e.(el_waiting)) ∧
    ∀ j, j ∈ Q → voted c j i e.(el_term).
Proof.
  intros Hi He. destruct (inv_elec _ Hi _ _ He) as (Hm & Hst & Hiw & V & Hsz & Hdisj & Hni & HV).
  exists ({[i]} ∪ V). split_and!.
  - intros j [->%elem_of_singleton|Hj]%elem_of_union; [done|]. by apply HV.
  - rewrite size_union, size_singleton by set_solver. lia.
  - set_solver.
  - intros j [->%elem_of_singleton|Hj]%elem_of_union; [by left|]. by apply HV.
Qed.

Lemma inv_cstep c c' : inv c → cstep c c' → inv c'.
Proof.
  intros Hi Hst. destruct Hst as
    [c i n Hs|c i st s rng0 now0 n Hs Hn|c i st s rng0 now0 e st' Hs Hn|c i n op Hs Hn
    |c i n term req n' Hs He Hmax Hel|c i n n' Hs He Hmax Hel|c cand j req n resp n' Hreq Hs Hv
    |c i n e Hs He Hq|c i n e p req resp Hs He Hp Hr Ht|c i e p He Hp|c i].
  - apply inv_elec_none, inv_set_slot; [done|by eapply slot_member| |done].
    intros cand t Hv. by apply (inv_keeps _ Hi _ _ _ _ Hv Hs).
  - pose proof (slot_member _ _ _ Hi Hs) as Hm.
    pose proof (NewNode_hs i st s rng0 now0 Hm) as Hnew. rewrite Hn in Hnew.
    destruct Hnew as (Hok & Hr & Hmem & Hd). apply inv_set_slot; [done..| |].
    + intros cand t Hv. pose proof (inv_keeps _ Hi _ _ _ _ Hv Hs) as Hk. cbn in *.
      by rewrite Hmem, Hd.
    + split; [done|]. rewrite Hr. done.
  - pose proof (slot_member _ _ _ Hi Hs) as Hm.
    pose proof (NewNode_hs i st s rng0 now0 Hm) as Hnew. rewrite Hn in Hnew.
    apply inv_set_slot; [done..| |done]. intros cand t Hv.
    pose proof (inv_keeps _ Hi _ _ _ _ Hv Hs) as Hk. cbn in *. by rewrite Hnew.
  - eapply inv_set_node; [done..|by apply vf_nrun].
  - by eapply inv_announce.
  - eapply inv_set_node; [done..|]. by apply vote_startElection in Hel.
  - by apply (inv_vote c cand j req n resp n').
  - destruct (votes_cover _ _ _ Hi He) as (Q & HQ & Hsz & _ & Hvs).
    apply (inv_lead _ _ _ _ Q); try done.
    rewrite <- (quorum_majority i n), Hq; [|by eapply slot_member|by eapply inv_node].
    destruct (inv_elec _ Hi _ _ He) as (_ & _ & _ & V & HV & _). lia.
  - pose proof (slot_member _ _ _ Hi Hs) as Hm. unfold collectVote.
    destruct (inv_vresp _ Hi _ _ _ _ Hr) as [_ Hpm].
    case_decide.
    + apply inv_elec_none. eapply inv_set_node; [done..|apply vf_stepDown].
    + destruct (rvr_VoteGranted resp) eqn:Hg; [|by apply inv_elec_drop].
      assert (voted c p i (el_term e)) as Hvp by (right; exists req, resp; done).
      case_decide as Hq; [|by apply inv_elec_count].
      destruct (votes_cover _ _ _ Hi He) as (Q & HQ & Hsz & Hdisj & Hvs).
      apply (inv_lead _ _ _ _ ({[p]} ∪ Q)); try done.
      * set_solver.
      * rewrite size_union, size_singleton by set_solver.
        rewrite <- (quorum_majority i n); [lia|done|by eapply inv_node].
      * intros j [->%elem_of_singleton|?]%elem_of_union; auto.
  - by apply inv_elec_drop.
  - by apply inv_elec_none.
Qed.

Lemma inv_reachable c : reachable c → inv c.
Proof.
  intros (c0 & Hc0 & Hsteps). apply inv_initial in Hc0. revert Hc0.
  induction Hsteps as [c|c c1 c2 Hst _ IH]; intros Hi; [done|]. apply IH. by eapply inv_cstep.
Qed.

(** ** Running a schedule

    [perform] executes one scheduling decision, [run] a list of them; what
    they compute are steps of the cluster. *)
Inductive action :=
  | ACrash (i : string)
  | ARestart (i : string) (s : SM) (rng0 : nat) (now0 : Z)
  | AElect (i : string)
  | AVote (k : nat)
  | ASingle (i : string)
  | AResult (k : nat).

Definition up_at (c : cluster) (i : string) : option Node :=
  match c.(cl_slots) !! i with Some (Up n) => Some n | _ => None end.

Definition perform (a : action) (c : cluster) : option cluster :=
  match a with
  | ACrash i =>
      n ← up_at c i; Some (set_elec i None (set_slot i (Down n.(store)) c))
  | ARestart i s rng0 now0 =>
      match c.(cl_slots) !! i with
      | Some (Down st) =>
          match NewNode (cfg i) st s rng0 now0 with
          | inl n => Some (set_node i n c)
          | inr (_, st') => Some (set_slot i (Down st') c)
          end
      | _ => None
      end
  | AElect i =>
      n ← up_at c i;
      if decide (c.(cl_elec) !! i = None) then
        if decide (n.(currentTerm) < two64 - 1)%N then
          match startElection n with
          | (Some (term, req), n') => Some (announce i term req n' c)
          | (None, n') => Some (set_node i n' c)
          end
        else None
      else None
  | AVote k =>
      '(cand, j, req) ← c.(cl_vreq) !! k;
      n ← up_at c j;
      let '(resp, n') := HandleRequestVote req n in
      let c := set_node j n' c in
      Some (mkCluster c.(cl_slots) c.(cl_elec) c.(cl_vreq) ((cand, j, req, resp) :: c.(cl_vresp))
              c.(cl_started) c.(cl_elected))
  | ASingle i =>
      n ← up_at c i; e ← c.(cl_elec) !! i;
      if decide (quorum n = 1) then Some (lead i e.(el_term) n c) else None
  | AResult k =>
      '(i, p, req, resp) ← c.(cl_vresp) !! k;
      n ← up_at c i; e ← c.(cl_elec) !! i;
      if decide (p ∈ e.(el_waiting) ∧ rv_Term req = e.(el_term)) then
        Some match collectVote n e.(el_term) e.(el_votes) (Some resp) with
        | VoteContinue v => set_elec i (Some (mkElection e.(el_term) v (e.(el_waiting) ∖ {[p]}))) c
        | VoteStepDown t => set_elec i None (set_node i (stepDown t "" n) c)
        | VoteBecomeLeader => lead i e.(el_term) n c
        end
      else None
  end.

Fixpoint run (acts : list action) (c : cluster) : option cluster :=
  match acts with
  | [] => Some c
  | a :: acts => c' ← perform a c; run acts c'
  end.

Lemma up_at_Some c i n : up_at c i = Some n → c.(cl_slots) !! i = Some (Up n).
Proof. unfold up_at. intros. by repeat case_match; simplify_eq. Qed.

Lemma perform_step a c c' : perform a c = Some c' → cstep c c'.
Proof.
  destruct a; cbn; intros Hp.
  - apply bind_Some in Hp as (n & Hn%up_at_Some & [= <-]). by apply cs_crash.
  - destruct (cl_slots c !! i) as [[|st]|] eqn:Hs; [done| |done].
    destruct (NewNode _ _ _ _ _) as [n|[e st']] eqn:Hn; simplify_eq.
    + by eapply cs_restart.
    + by eapply cs_restart_failed.
  - apply bind_Some in Hp as (n & Hn%up_at_Some & Hp). do 2 (case_decide; [|done]).
    destruct (startElection n) as [[[t req]|] n'] eqn:E; simplify_eq.
    + by eapply cs_election.
    + by eapply cs_election_refused.
  - apply bind_Some in Hp as ([[cand j] req] & Hk & Hp).
    apply bind_Some in Hp as (n & Hn%up_at_Some & Hp).
    destruct (HandleRequestVote req n) as [resp n'] eqn:E. simplify_eq.
    eapply (cs_vote c cand j req n); [|done..]. by eapply list_elem_of_lookup_2.
  - apply bind_Some in Hp as (n & Hn%up_at_Some & Hp). apply bind_Some in Hp as (e & He & Hp).
    case_decide; simplify_eq. by apply cs_single.
  - apply bind_Some in Hp as ([[[i p] req] resp] & Hk & Hp).
    apply bind_Some in Hp as (n & Hn%up_at_Some & Hp). apply bind_Some in Hp as (e & He & Hp).
    case_decide as Hd; simplify_eq. destruct Hd.
    eapply (cs_result c i n e p req resp); try done. by eapply list_elem_of_lookup_2.
Qed.

Lemma run_steps acts c c' : run acts c = Some c' → rtc cstep c c'.
Proof.
  revert c. induction acts as [|a acts IH]; cbn; intros c Hr; [by simplify_eq|].
  apply bind_Some in Hr as (c1 & Ha & Hr). eapply rtc_l; [by eapply perform_step|auto].
Qed.

End cluster.

(** ** Properties *)

(** C1. Election safety.  In every reachable cluster, whatever messages are
    lost, delayed or repeated, however many nodes crash and restart and
    whichever store operations fail: no term has had two different leaders
    in the whole history, and every node that currently acts as leader of a
    term is the one elected in it.  Terms are assumed not to reach the
    largest [uint64] (the guard of the election steps). *)
Theorem election_safety {SM St : Type} `{StateMachine SM} `{Store St} `{RandSource} `{MapCodec}
    `{!HardStateLaws St} (members : gset string) (cfg : string → Config)
    (c : @cluster SM St) :
  config_ok members cfg → reachable members cfg c →
  (∀ t i j, (t, i) ∈ c.(cl_elected) → (t, j) ∈ c.(cl_elected) → i = j) ∧
  (∀ i j n m, c.(cl_slots) !! i = Some (Up n) → c.(cl_slots) !! j = Some (Up m) →
     n.(role) = Leader → m.(role) = Leader → n.(currentTerm) = m.(currentTerm) → i = j).
Proof.
  intros Hcfg Hc. apply (inv_reachable _ _ Hcfg) in Hc as Hi.
  assert (∀ t i j, (t, i) ∈ c.(cl_elected) → (t, j) ∈ c.(cl_elected) → i = j) as Hh.
  { intros t i j Ht Ht'. destruct (inv_elected _ _ Hi _ _ Ht) as (Q & ? & ? & ?).
    destruct (inv_elected _ _ Hi _ _ Ht') as (Q' & ? & ? & ?).
    by eapply (majority_unique members cfg) with (Q := Q) (Q' := Q'). }
  split; [done|]. intros i j n m Hn Hm Hrn Hrm Ht. apply (Hh n.(currentTerm)).
  - by eapply inv_leader.
  - rewrite Ht. by eapply inv_leader.
Qed.

(** *** A run of three nodes

    All three start, ["n1"] stands for election, ["n2"] grants its vote,
    ["n1"] leads term 1; ["n3"]'s late vote changes nothing. *)
Definition cluster3 : @cluster KV.KVStateMachine Mem.MemStore :=
  mkCluster ((λ _, Down (Mem.empty [])) <$> peers3) ∅ [] [] [] [].

Definition schedule3 : list (@action KV.KVStateMachine) :=
  [ARestart "n1" KV.NewKVStateMachine 0 0; ARestart "n2" KV.NewKVStateMachine 0 0;
   ARestart "n3" KV.NewKVStateMachine 0 0; AElect "n1"; AVote 0; AResult 0; AVote 1].

Lemma config_ok_cfg3 : config_ok (dom peers3) cfg3.
Proof.
  intros i Hi. split_and!; [|done|by exists peers3].
  intros ->. vm_compute in Hi. discriminate Hi.
Qed.

Lemma initial_cluster3 : initial (dom peers3) cluster3.
Proof.
  split; [vm_compute; reflexivity|]. split; [|done].
  unfold cluster3. cbn [cl_slots]. intros i s Hs. rewrite lookup_fmap in Hs. destruct (peers3 !! i); simplify_eq/=. eauto.
Qed.

Lemma election_safety_witness :
  ∃ c, run cfg3 schedule3 cluster3 = Some c ∧ c.(cl_elected) = [(1%N, "n1")] ∧
    ∀ j, (1%N, j) ∈ c.(cl_elected) → "n1" = j.
Proof.
  assert (cl_elected <$> run cfg3 schedule3 cluster3 = Some [(1%N, "n1")]) as He by (vm_compute; reflexivity).
  destruct (run cfg3 schedule3 cluster3) as [c|] eqn:Hr; [|discriminate He].
  injection He as He. exists c. split; [reflexivity|]. split; [exact He|].
  intros j Hj. apply (election_safety (dom peers3) cfg3 c config_ok_cfg3) with (t := 1%N).
  - exists cluster3. split; [apply initial_cluster3|]. exact (run_steps _ _ _ _ Hr).
  - rewrite He. left.
  - exact Hj.
Defined.
