(* ===== verification/NodeInv.v ===== *)
(** * The log of a node stays well formed

    [node_wf]: the log is contiguous on top of the snapshot, and snapshot,
    applied, commit and last index are ordered.  [evolves] is how a step
    that is not part of applying or installing may change this state:
    nothing at or below the commit index changes. *)

From S2P Require Import Prelude Types StateMachine StoreIntf RaftLog NodeState Node Replication NodeStep.

Section inv.
Context {SM St : Type} `{StateMachine SM} `{Store St} `{RandSource} `{MapCodec}.
#[local] Abbreviation Node := (Node SM St).
Implicit Types n : Node.

Record node_wf n : Prop := {
  nw_log : wf_log n.(snapshot) n.(log);
  nw_max : (lastIndexLocked n < two64 - 1)%N;
  nw_snap : (n.(snapshot).(LastIncludedIndex) ≤ n.(lastApplied))%N;
  nw_applied : (n.(lastApplied) ≤ n.(commitIndex))%N;
  nw_commit : (n.(commitIndex) ≤ lastIndexLocked n)%N }.

(** What the environment must respect: entries of a request lie after
    [PrevLogIndex], and no index reaches the largest [uint64]. *)
Definition op_ok (op : nop) n : Prop :=
  match op with
  | DoAppendEntries req =>
      (req.(ae_PrevLogIndex) < two64)%N ∧
      Forall (λ e, req.(ae_PrevLogIndex) < e.(Index) < two64 - 1)%N req.(ae_Entries)
  | DoInstallFinal req _ => (req.(is_LastIncludedIndex) < two64 - 1)%N
  | DoPropose _ _ | DoBecomeLeader _ => (lastIndexLocked n < two64 - 2)%N
  | _ => True
  end.

Record evolves n n' : Prop := {
  ev_snapshot : n'.(snapshot) = n.(snapshot);
  ev_applied : n'.(lastApplied) = n.(lastApplied);
  ev_sm : n'.(sm) = n.(sm);
  ev_commit : (n.(commitIndex) ≤ n'.(commitIndex))%N;
  ev_wf : node_wf n';
  ev_entries : ∀ index, (index ≤ n.(commitIndex))%N → entryAtLocked n' index = entryAtLocked n index }.

(** The fields the invariant looks at. *)
Definition core n := (n.(snapshot), n.(log), n.(commitIndex), n.(lastApplied), n.(sm)).

Lemma core_fields n n' : core n' = core n →
  n'.(snapshot) = n.(snapshot) ∧ n'.(log) = n.(log) ∧ n'.(commitIndex) = n.(commitIndex) ∧
  n'.(lastApplied) = n.(lastApplied) ∧ n'.(sm) = n.(sm).
Proof. unfold core. intros. by simplify_eq. Qed.

Lemma evolves_core n n' : node_wf n → core n' = core n → evolves n n'.
Proof.
  intros Hwf (Hs & Hl & Hc & Ha & Hsm)%core_fields. split; try done.
  - by rewrite Hc.
  - destruct Hwf. split; unfold lastIndexLocked in *; by rewrite ?Hs, ?Hl, ?Hc, ?Ha.
  - intros i _. unfold entryAtLocked. by rewrite Hs, Hl.
Qed.

Lemma evolves_trans n1 n2 n3 : evolves n1 n2 → evolves n2 n3 → evolves n1 n3.
Proof.
  intros [] []. split; try congruence; try done; [lia|].
  intros i Hi. rewrite ev_entries1 by lia. auto.
Qed.

Lemma core_save commit n e n' : saveHardStateLocked commit n = (e, n') → core n' = core n.
Proof. unfold saveHardStateLocked. destruct (SaveHardState _ _) as [[]]; intros; by simplify_eq. Qed.

Lemma core_persist n e n' : persistHardStateLocked n = (e, n') → core n' = core n.
Proof. apply core_save. Qed.

Lemma core_failStorage e n : core (failStorageLocked e n) = core n.
Proof. done. Qed.

Lemma core_becomeFollower term leader b n e n' :
  becomeFollowerWithTimerLocked term leader b n = (e, n') → core n' = core n.
Proof.
  unfold becomeFollowerWithTimerLocked. set (n2 := if b then _ else _).
  assert (core n2 = core n) as Hc by (subst n2; destruct b, (decide (currentTerm n < term)%N); done).
  destruct (persistHardStateLocked n2) as [e2 n3] eqn:E. apply core_persist in E.
  destruct e2; intros [= <- <-]; [by rewrite core_failStorage, E|].
  destruct (decide (role n = Leader)); by rewrite <- Hc, <- E.
Qed.

Lemma core_stepDown term leader n : core (stepDown term leader n) = core n.
Proof.
  unfold stepDown, becomeFollowerLocked. destruct (becomeFollowerWithTimerLocked _ _ _ _) eqn:E.
  by apply core_becomeFollower in E.
Qed.

Lemma core_follow (P : Prop) `{Decision P} term leader n e n' :
  (if decide P then becomeFollowerLocked term leader n else (None, n)) = (e, n') → core n' = core n.
Proof. case_decide; intros E; [by apply core_becomeFollower in E|by simplify_eq]. Qed.

Lemma core_isGuards req n : core (isGuards req n).2 = core n.
Proof.
  unfold isGuards. do 3 (case_decide; [done|]).
  destruct (if decide (_ ∨ _) then _ else _) as [e n1] eqn:E. apply core_follow in E.
  destruct e as [e|]; [exact E|]. case_decide; exact E.
Qed.

(** Raising the commit index to an index of the log, when it is persisted. *)
Lemma evolves_commit n c :
  node_wf n → (n.(commitIndex) ≤ c ≤ lastIndexLocked n)%N → evolves n (with_commitIndex c n).
Proof.
  intros [] Hc. split; try done; cbn; [lia|].
  split; unfold lastIndexLocked in *; cbn; try done; lia.
Qed.

Lemma advanceLoop_spec fuel n : ∀ index i,
  (index < two64)%N → advanceLoop fuel index n = Some i →
  (n.(commitIndex) < i ≤ index)%N ∧ termAtLocked n i = Some n.(currentTerm) ∧
  quorum n ≤ 1 + length (filter (λ p, i ≤ map_N n.(matchIndex) p)%N (map_to_list n.(params).(peerAddrs)).*1).
Proof.
  induction fuel as [|fuel IH]; intros index i Hi Hl; cbn in Hl; [done|].
  case_decide as Hc; [|done]. usimp. case_decide as Ht.
  - apply IH in Hl as (? & ? & ?); [|lia]. split_and!; [lia..|done|done].
  - case_decide as Hq; [|apply IH in Hl as (? & ? & ?); [split_and!; [lia..|done|done]|lia]].
    simplify_eq. split_and!; [done|lia| |done].
    destruct (decide (termAtLocked n i = Some (currentTerm n))); tauto.
Qed.

Lemma evolves_advanceCommit n : node_wf n → evolves n (advanceCommitLocked n).
Proof.
  intros Hwf. unfold advanceCommitLocked.
  destruct (advanceLoop _ _ _) as [i|] eqn:El; [|by apply evolves_core].
  apply advanceLoop_spec in El as (Hi & _ & _); [|pose proof (nw_max _ Hwf); lia].
  destruct (persistHardStateLocked _) as [[e|] n1] eqn:E; apply core_persist in E.
  - apply evolves_core; [done|]. rewrite core_failStorage.
    apply core_fields in E as (? & ? & ? & ? & ?). unfold core; cbn in *. congruence.
  - eapply evolves_trans; [apply (evolves_commit n i); [done|lia]|].
    apply evolves_core; [|done]. apply evolves_commit; [done|lia].
Qed.

(** Appending entries at the end of the log. *)
Lemma evolves_append n es n' :
  node_wf n → contiguous (lastIndexLocked n + 1) es → (lastIndexLocked n + len es < two64 - 1)%N →
  core n' = (n.(snapshot), n.(log) ++ es, n.(commitIndex), n.(lastApplied), n.(sm)) →
  evolves n n'.
Proof.
  intros Hwf Hc Hr He. unfold core in He. injection He as Hs Hl Hci Ha Hsm. destruct Hwf.
  assert (wf_log n'.(snapshot) n'.(log)) as Hwf'.
  { unfold lastIndexLocked in *. rewrite Hs, Hl. apply wf_log_app; [done|done|lia]. }
  assert (lastIndexLocked n' = lastIndexLocked n + len es)%N as Hlast.
  { unfold lastIndexLocked in *. rewrite (lastIndex_wf _ _ Hwf'), (lastIndex_wf _ _ nw_log0), Hs, Hl, len_app. lia. }
  split; try done.
  - lia.
  - split; rewrite ?Hlast, ?Hs, ?Ha, ?Hci; [by rewrite <- Hs|lia|done|done|lia].
  - intros i Hi. unfold entryAtLocked. rewrite Hs in *. unfold lastIndexLocked in *.
    apply (entryAt_prefix _ _ _ (length (log n))); [done..| | |lia].
    + rewrite Hl, take_app_le, take_ge by lia. done.
    + rewrite (lastIndex_wf _ _ nw_log0) in *. unfold len in *. lia.
Qed.

Lemma evolves_aeCommit req lastNew n :
  node_wf n → (lastNew ≤ lastIndexLocked n)%N → evolves n (aeCommit req lastNew n).2.
Proof.
  intros Hwf Hl. unfold aeCommit. case_decide as Hc; [|by apply evolves_core].
  destruct (persistHardStateLocked _) as [[e|] n1] eqn:E; apply core_persist in E.
  - apply evolves_core; [done|].
    apply core_fields in E as (? & ? & ? & ? & ?). unfold core; cbn in *. congruence.
  - eapply evolves_trans; [apply (evolves_commit n (N.min (ae_LeaderCommit req) lastNew)); [done|lia]|].
    apply evolves_core; [|done]. apply evolves_commit; [done|lia].
Qed.

(** A log merged into a well-formed node. *)
Lemma evolves_merge n req m log' n' :
  node_wf n → op_ok (DoAppendEntries req) n →
  (n.(snapshot).(LastIncludedIndex) ≤ req.(ae_PrevLogIndex))%N →
  termAtLocked n req.(ae_PrevLogIndex) = Some req.(ae_PrevLogTerm) →
  mergeEntries n.(snapshot) n.(commitIndex) n.(log) req.(ae_PrevLogIndex) req.(ae_Entries) = (m, log') →
  core n' = (n.(snapshot), log', n.(commitIndex), n.(lastApplied), n.(sm)) →
  evolves n n' ∧ merge_ok n.(snapshot) n.(commitIndex) req.(ae_PrevLogIndex) n.(log) req.(ae_Entries) m log'.
Proof.
  intros [] [Hpl Hes] Hlo Ht Hm Hcore.
  assert (req.(ae_PrevLogIndex) ≤ lastIndexLocked n)%N as Hpi by (by eapply termAt_range).
  assert (above n.(snapshot) req.(ae_Entries)) as Hab by (eapply Forall_impl; [exact Hes|]; cbn; lia).
  pose proof (mergeEntries_ok _ _ nw_log0 n.(commitIndex) req.(ae_PrevLogIndex) req.(ae_Entries)
    ltac:(unfold lastIndexLocked in *; lia) nw_max0 Hab) as Hok.
  rewrite Hm in Hok. cbv iota beta in Hok. split; [|done].
  unfold core in Hcore. injection Hcore as Hs Hl Hci Ha Hsm. destruct Hok.
  assert (n.(commitIndex) ≤ lastIndexLocked n')%N as Hcl.
  { unfold lastIndexLocked in *. rewrite Hs, Hl, (lastIndex_wf _ _ mo_wf).
    destruct (decide (n.(commitIndex) ≤ n.(snapshot).(LastIncludedIndex))%N) as [|Hgt]; [lia|].
    rewrite <- (lastIndex_wf _ _ mo_wf).
    assert (is_Some (entryAt n.(snapshot) log' n.(commitIndex))) as Hsome.
    { rewrite mo_commit by lia. apply entryAt_is_Some; [done|lia|lia]. }
    apply entryAt_is_Some in Hsome; [lia|done|lia]. }
  split; try done; [lia| |].
  - split; unfold lastIndexLocked in *; rewrite ?Hs, ?Hl, ?Ha, ?Hci in *; done.
  - intros i Hi. unfold entryAtLocked. rewrite Hs, Hl. apply mo_commit; [done|].
    unfold lastIndexLocked in *. lia.
Qed.

Lemma evolves_aeMerge req n :
  node_wf n → op_ok (DoAppendEntries req) n →
  (n.(snapshot).(LastIncludedIndex) ≤ req.(ae_PrevLogIndex))%N →
  termAtLocked n req.(ae_PrevLogIndex) = Some req.(ae_PrevLogTerm) →
  evolves n (aeMerge req n).2.
Proof.
  intros Hwf Hok Hlo Ht. unfold aeMerge.
  destruct (mergeEntries _ _ _ _ _) as [m log'] eqn:Em.
  destruct (evolves_merge n req m log' (with_log log' n) Hwf Hok Hlo Ht Em eq_refl) as [Hev Hmo].
  case_decide as Hci; [eapply evolves_trans; [exact Hev|by apply evolves_core; [apply Hev|]]|].
  assert (conflictIndex m = 0%N) as Hz by lia. destruct (mo_terms _ _ _ _ _ _ _ Hmo Hz) as (_ & Hln & _).
  destruct (changed m).
  - set (r := if replaced m then _ else _). destruct r as [[e|] st].
    + by apply evolves_core.
    + destruct (evolves_merge n req m log' (with_store st (with_log log' n)) Hwf Hok Hlo Ht Em eq_refl) as [Hev' _].
      eapply evolves_trans; [exact Hev'|]. apply evolves_aeCommit; [apply Hev'|exact Hln].
  - eapply evolves_trans; [exact Hev|]. apply evolves_aeCommit; [apply Hev|exact Hln].
Qed.

Lemma evolves_HandleAppendEntries req n :
  node_wf n → op_ok (DoAppendEntries req) n → evolves n (HandleAppendEntries req n).2.
Proof.
  intros Hwf Hok. unfold HandleAppendEntries. do 3 (case_decide; [by apply evolves_core|]).
  destruct (if decide (_ ∨ _) then _ else _) as [e n1] eqn:E. apply core_follow in E.
  destruct e as [e|]; [by apply evolves_core|].
  set (n2 := resetElectionLocked _). assert (evolves n n2) as Hev by (apply evolves_core; done).
  do 2 (case_decide; [exact Hev|]). eapply evolves_trans; [exact Hev|].
  apply evolves_aeMerge; [apply Hev|done|lia|].
  destruct (decide (termAtLocked n2 (ae_PrevLogIndex req) = Some (ae_PrevLogTerm req))); tauto.
Qed.

(** One entry of the current term at the next index. *)
Lemma contiguous_next n t c :
  (lastIndexLocked n < two64 - 1)%N →
  contiguous (lastIndexLocked n + 1) [mkLogEntry (lastIndexLocked n +u 1) t c].
Proof. intros. apply contiguous_cons. split; [cbn; usimp; lia|apply contiguous_nil]. Qed.

Lemma evolves_proposeAppend c n :
  node_wf n → (lastIndexLocked n < two64 - 2)%N → evolves n (proposeAppend c n).2.
Proof.
  intros Hwf Hr. unfold proposeAppend. destruct (stopped n); [by apply evolves_core|].
  destruct (storageFatal n); [by apply evolves_core|]. case_decide; [by apply evolves_core|].
  destruct (AppendEntries _ _) as [[e|] st]; [by apply evolves_core|].
  match goal with |- evolves n (_, advanceCommitLocked ?m).2 => assert (evolves n m) as Hev end.
  { eapply (evolves_append n [_]); [done|apply contiguous_next; lia|unfold len; cbn; lia|reflexivity]. }
  eapply evolves_trans; [exact Hev|]. apply evolves_advanceCommit, Hev.
Qed.

Lemma evolves_becomeLeader t n :
  node_wf n → (lastIndexLocked n < two64 - 2)%N → evolves n (becomeLeader t n).2.
Proof.
  intros Hwf Hr. unfold becomeLeader. case_decide; [by apply evolves_core|].
  destruct (AppendEntries _ _) as [[e|] st]; [by apply evolves_core|].
  match goal with |- evolves n (_, advanceCommitLocked ?m).2 => assert (evolves n m) as Hev end.
  { eapply (evolves_append n [_]); [done|apply contiguous_next; lia|unfold len; cbn; lia|reflexivity]. }
  eapply evolves_trans; [exact Hev|]. apply evolves_advanceCommit, Hev.
Qed.

Lemma core_startElection n : core (startElection n).2 = core n.
Proof.
  unfold startElection. case_decide; [done|].
  destruct (persistHardStateLocked _) as [e n1] eqn:E. apply core_persist in E.
  destruct e; [|exact E]. apply core_fields in E as (? & ? & ? & ? & ?). unfold core; cbn in *. congruence.
Qed.

Lemma core_HandleRequestVote req n : core (HandleRequestVote req n).2 = core n.
Proof.
  unfold HandleRequestVote. do 3 (case_decide; [done|]).
  destruct (if decide _ then _ else _) as [e n1] eqn:E.
  assert (core n1 = core n) as Hc.
  { revert E. case_decide; intros E; [by apply core_becomeFollower in E|by injection E as _ <-]. }
  clear E. destruct e; [done|]. case_decide; [|done].
  destruct (persistHardStateLocked _) as [e2 n2] eqn:E2. apply core_persist in E2.
  destruct e2; cbn.
  - rewrite <- Hc. apply core_fields in E2 as (? & ? & ? & ? & ?). unfold core; cbn in *. congruence.
  - rewrite <- Hc. exact E2.
Qed.

Lemma core_isChunk req p n : core (isChunk req p n).2 = core n.
Proof. unfold isChunk. case_decide; [done|]. by destruct (is_Done req). Qed.

Lemma core_install_recv req n : core (HandleInstallSnapshot_recv req n).2 = core n.
Proof.
  unfold HandleInstallSnapshot_recv. pose proof (core_isGuards req n) as Hg.
  destruct (isGuards req n) as [[r|[]] n1]; cbn in Hg; [done|]. rewrite <- Hg.
  destruct (pendingSnapshot n1); repeat case_decide; try done; by rewrite core_isChunk.
Qed.

(** The steps that take no part in applying entries or installing snapshots. *)
Definition is_quiet (op : nop) : bool :=
  match op with
  | DoApplyApply _ | DoApplyFinish _ _ | DoSnapshotFinish _ | DoInstallFinal _ _ => false
  | _ => true
  end.

Lemma removeWaiter_core i w n : core (removeWaiter i w n) = core n.
Proof. unfold removeWaiter. by case_decide. Qed.

Lemma applyReady_next_wf n :
  node_wf n →
  (applyReady_next n).2 = n ∧ (applyReady_next n).1 ≠ ApplyAgain ∧
  (∀ e, (applyReady_next n).1 = ApplyEntry e →
     entryAtLocked n (n.(lastApplied) + 1) = Some e ∧ e.(Index) = (n.(lastApplied) + 1)%N ∧
     (n.(lastApplied) + 1 ≤ n.(commitIndex))%N).
Proof.
  intros []. unfold applyReady_next. case_decide; [done|]. usimp. rewrite decide_False by lia.
  destruct (entryAtLocked n _) as [e|] eqn:E; [|done]. split_and!; [done..|].
  intros e' [= <-]. split_and!; [done| |lia]. by eapply entryAt_Index.
Qed.

Lemma evolves_quiet op n :
  is_quiet op = true → node_wf n → op_ok op n → evolves n (nrun op n).
Proof.
  intros Hq Hwf Hok. destruct op; try discriminate Hq; cbn [nrun op_ok] in *;
    try by apply evolves_core.
  - unfold Stop. destruct (stopped n); by apply evolves_core.
  - by apply evolves_HandleAppendEntries.
  - apply evolves_core; [done|apply core_install_recv].
  - unfold Propose_start. destruct ctx; [by apply evolves_core|].
    pose proof (evolves_proposeAppend command n Hwf Hok) as Hev.
    destruct (proposeAppend command n) as [[?|?] n1]; [|done].
    eapply evolves_trans; [exact Hev|]. apply evolves_core; [apply Hev|done].
  - apply evolves_core; [done|]. unfold Propose_select.
    destruct (chans n !! w) as [[[|o rest] [] m]|]; destruct ctx; try done; cbn;
      try apply removeWaiter_core; exact (removeWaiter_core i w n).
  - destruct (applyReady_next_wf n Hwf) as [-> _]. by apply evolves_core.
  - apply evolves_core; [done|]. unfold persistSnapshot_save. by destruct (SaveSnapshot _ _) as [[]].
  - apply evolves_core; [done|]. unfold acquirePeerReplication_poll. destruct ctx; [done|].
    case_decide; [done|]. by destruct (map_bool _ _).
  - apply evolves_core; [done|]. unfold replicateAllOnce_begin. destruct (stopped n); [done|]. by case_decide.
  - apply evolves_core; [done|]. unfold replicateToPeer_prepare. case_decide; [done|].
    destruct (decide (map_N _ _ = 0%N)); case_decide; try done; by destruct (termAtLocked _ _).
  - apply evolves_core; [done|]. unfold replicateToPeer_snapshotDone. by case_decide.
  - unfold replicateToPeer_response.
    case_decide; [apply evolves_core; [done|apply core_stepDown]|]. case_decide; [by apply evolves_core|].
    destruct (aer_Success resp); [|by case_decide; apply evolves_core].
    match goal with |- evolves n (_, advanceCommitLocked ?m).2 => assert (evolves n m) as Hev end.
    { by apply evolves_core. }
    eapply evolves_trans; [exact Hev|]. apply evolves_advanceCommit, Hev.
  - apply evolves_core; [done|]. unfold sendSnapshot_check.
    case_decide; [apply core_stepDown|]. by case_decide.
  - apply evolves_core; [done|apply core_startElection].
  - apply evolves_core; [done|apply core_HandleRequestVote].
  - by apply evolves_becomeLeader.
  - apply evolves_core; [done|apply core_stepDown].
Qed.

End inv.
