(* ===== verification/ApplySys.v ===== *)
(** * Applying committed entries exactly once, in order

    The apply goroutine of a node ([applyReady] and [persistSnapshot])
    interleaved with everything else the node does.  The state of the
    goroutine is its program point between critical sections; the locks
    [applyMu] and [snapshotPersistMu] decide at which points a snapshot may
    be installed.  The invariant: the state machine is always the snapshot
    with the log replayed up to [lastApplied]. *)

From S2P Require Import Prelude Types StateMachine StoreIntf RaftLog NodeState Node Replication NodeStep NodeInv TestEnv.

Section sys.
Context {SM St : Type} `{StateMachine SM} `{Store St} `{RandSource} `{MapCodec}.
#[local] Abbreviation Node := (Node SM St).
Implicit Types n : Node.

(** ** The system *)

(** Where the apply goroutine is: outside a turn; holding an entry it is
    about to apply ([applyMu] held); with the entry applied but not recorded
    ([applyMu] held); with a snapshot to persist (no lock); having passed
    the first test of [persistSnapshot]; having saved the snapshot file
    (both with [snapshotPersistMu] held). *)
Inductive apply_pc :=
  | AIdle
  | AGot (e : LogEntry)
  | AApplied (e : LogEntry) (r : ApplyResult)
  | ASnap (sn : Snapshot)
  | AChecked (sn : Snapshot)
  | ASaved (sn : Snapshot).

(** [HandleInstallSnapshot] needs [snapshotPersistMu] and [applyMu]. *)
Definition install_allowed (pc : apply_pc) : bool :=
  match pc with AIdle | ASnap _ => true | _ => false end.

(** The steps of the other goroutines, snapshot installation aside. *)
Definition is_background (op : nop) : bool :=
  match op with DoApplyNext | DoSnapshotSave _ => false | _ => is_quiet op end.

Inductive sstep : Node * apply_pc → Node * apply_pc → Prop :=
  | ss_background n pc op :
      is_background op = true → op_ok op n → sstep (n, pc) (nrun op n, pc)
  | ss_install n pc req body :
      install_allowed pc = true → op_ok (DoInstallFinal req body) n →
      sstep (n, pc) (nrun (DoInstallFinal req body) n, pc)
  | ss_next n :
      sstep (n, AIdle)
        ((applyReady_next n).2,
         match (applyReady_next n).1 with ApplyEntry e => AGot e | _ => AIdle end)
  | ss_apply n e :
      sstep (n, AGot e) ((applyReady_apply e n).2, AApplied e (applyReady_apply e n).1)
  | ss_finish n e r :
      sstep (n, AApplied e r)
        ((applyReady_finish e r n).2,
         match (applyReady_finish e r n).1 with Some (Some sn) => ASnap sn | _ => AIdle end)
  | ss_check n sn :
      sstep (n, ASnap sn) (n, if decide (persistSnapshot_stale sn n) then AIdle else AChecked sn)
  | ss_save n sn :
      sstep (n, AChecked sn)
        ((persistSnapshot_save sn n).2,
         if (persistSnapshot_save sn n).1 then ASaved sn else AIdle)
  | ss_compact n sn :
      sstep (n, ASaved sn) (persistSnapshot_finish sn n, AIdle).

(** ** Replay *)

(** The snapshot's data with the entries up to index [a] applied to it. *)
Definition replayed n (a : N) : SM :=
  apply_all (EntryCommand <$> take (N.to_nat (a - n.(snapshot).(LastIncludedIndex))) n.(log))
            (Restore n.(snapshot).(Data) n.(sm)).

Definition sys_inv (s : Node * apply_pc) : Prop :=
  let '(n, pc) := s in
  node_wf n ∧
  match pc with
  | AIdle => n.(sm) = replayed n n.(lastApplied)
  | AGot e =>
      n.(sm) = replayed n n.(lastApplied) ∧
      entryAtLocked n (n.(lastApplied) + 1) = Some e ∧ (n.(lastApplied) + 1 ≤ n.(commitIndex))%N
  | AApplied e r =>
      n.(sm) = (Apply e.(EntryCommand) (replayed n n.(lastApplied))).2 ∧
      r = (Apply e.(EntryCommand) (replayed n n.(lastApplied))).1 ∧
      entryAtLocked n (n.(lastApplied) + 1) = Some e ∧ (n.(lastApplied) + 1 ≤ n.(commitIndex))%N
  | ASnap sn =>
      n.(sm) = replayed n n.(lastApplied) ∧
      ((sn.(LastIncludedIndex) ≤ n.(snapshot).(LastIncludedIndex))%N ∨
       sn.(LastIncludedIndex) = n.(lastApplied) ∧ sn.(Data) = Some (Snapshot_ n.(sm)))
  | AChecked sn | ASaved sn =>
      n.(sm) = replayed n n.(lastApplied) ∧
      sn.(LastIncludedIndex) = n.(lastApplied) ∧ sn.(Data) = Some (Snapshot_ n.(sm))
  end.

Context `{!StateMachineLaws SM}.

Lemma entries_take snap log log' (c : N) :
  wf_log snap log → wf_log snap log' → (c < two64)%N →
  (∀ i, (i ≤ c)%N → entryAt snap log' i = entryAt snap log i) →
  take (N.to_nat (c - snap.(LastIncludedIndex))) log' = take (N.to_nat (c - snap.(LastIncludedIndex))) log.
Proof.
  intros Hwf Hwf' Hc He. apply list_eq. intros i.
  destruct (decide (i < N.to_nat (c - LastIncludedIndex snap))) as [Hi|Hi].
  - rewrite !lookup_take_lt by done.
    specialize (He (LastIncludedIndex snap + 1 + N.of_nat i)%N ltac:(lia)).
    rewrite !entryAt_wf in He by (done || lia).
    by replace (N.to_nat _) with i in He by lia.
  - rewrite !lookup_take_ge by lia. done.
Qed.

Lemma replayed_evolves n n' a :
  node_wf n → evolves n n' → (a ≤ n.(commitIndex))%N → replayed n' a = replayed n a.
Proof.
  intros Hwf [] Ha. destruct Hwf, ev_wf as [Hwf' _ _ _ _]. unfold replayed. rewrite ev_snapshot, ev_sm in *.
  do 2 f_equal. unfold entryAtLocked in ev_entries. rewrite ev_snapshot in ev_entries.
  apply entries_take; [done..|lia|]. intros i Hi. apply ev_entries. lia.
Qed.

Lemma sys_inv_evolves n n' pc : sys_inv (n, pc) → evolves n n' → sys_inv (n', pc).
Proof.
  intros [Hwf Hpc] Hev. pose proof (replayed_evolves n n' n.(lastApplied) Hwf Hev (nw_applied _ Hwf)) as Hr.
  pose proof Hev as [Hsn Ha Hsm Hc Hwf' Hen]. split; [done|].
  destruct pc; rewrite Ha, Hsm, Hr, ?Hsn; try done.
  - destruct Hpc as (? & ? & ?). split_and!; [done| |lia]. by rewrite Hen by lia.
  - destruct Hpc as (? & ? & ? & ?). split_and!; [done|done| |lia]. by rewrite Hen by lia.
Qed.

(** One more entry replayed. *)
Lemma replayed_next n e :
  node_wf n → entryAtLocked n (n.(lastApplied) + 1) = Some e → (n.(lastApplied) + 1 ≤ n.(commitIndex))%N →
  replayed n (n.(lastApplied) + 1) = (Apply e.(EntryCommand) (replayed n n.(lastApplied))).2.
Proof.
  intros [] He Hc. unfold replayed. rewrite <- apply_all_snoc. f_equal.
  unfold entryAtLocked in He. rewrite entryAt_wf in He by (done || lia).
  replace (N.to_nat (lastApplied n + 1 - LastIncludedIndex (snapshot n)))
    with (S (N.to_nat (lastApplied n - LastIncludedIndex (snapshot n)))) by lia.
  replace (N.to_nat (lastApplied n + 1 - LastIncludedIndex (snapshot n) - 1))
    with (N.to_nat (lastApplied n - LastIncludedIndex (snapshot n))) in He by lia.
  rewrite (take_S_r _ _ _ He), fmap_app. done.
Qed.

(** The second critical section of a turn: with the entry still in place it
    records the entry; the guard does not fail. *)
Lemma finish_records n e r :
  node_wf n → entryAtLocked n (n.(lastApplied) + 1) = Some e → (n.(lastApplied) + 1 ≤ n.(commitIndex))%N →
  let n' := (applyReady_finish e r n).2 in
  (applyReady_finish e r n).1 ≠ None ∧
  core n' = (n.(snapshot), n.(log), n.(commitIndex), e.(Index), n.(sm)) ∧
  e.(Index) = (n.(lastApplied) + 1)%N ∧
  (∀ sn, (applyReady_finish e r n).1 = Some (Some sn) →
     sn.(LastIncludedIndex) = e.(Index) ∧ sn.(Data) = Some (Snapshot_ n.(sm))).
Proof.
  intros [] He Hc. assert (e.(Index) = lastApplied n + 1)%N as Hi by (by eapply entryAt_Index).
  unfold applyReady_finish. rewrite Hi. usimp. rewrite He.
  rewrite decide_False. 2: { cbn. intros [?|[?|[?|?]]]; [done|lia|done|done]. }
  split_and!; [done|cbn; unfold core; cbn; by rewrite ?Hi|done|].
  intros sn [= Hs]. revert Hs. case_decide; [|done]. unfold snapshotAtLocked. cbn.
  destruct (termAtLocked _ _); [|done]. by intros [= <-].
Qed.

Lemma node_wf_core n n' : node_wf n → core n' = core n → node_wf n'.
Proof. intros Hwf Hc. by apply (ev_wf _ _ (evolves_core _ _ Hwf Hc)). Qed.

(** Recording an applied entry keeps the order of the indices. *)
Lemma node_wf_applied n n' a s :
  node_wf n → (n.(lastApplied) ≤ a ≤ n.(commitIndex))%N →
  core n' = (n.(snapshot), n.(log), n.(commitIndex), a, s) → node_wf n'.
Proof.
  intros [] Ha Hc. unfold core in Hc. injection Hc as Hs Hl Hci Hla _.
  split; unfold lastIndexLocked in *; rewrite ?Hs, ?Hl, ?Hci, ?Hla; try done; lia.
Qed.

(** Compaction keeps the end of the log. *)
Lemma compact_last n sn :
  node_wf n → ¬ persistSnapshot_stale sn n →
  wf_log sn (entriesAbove n.(log) sn.(LastIncludedIndex)) ∧
  lastIndex sn (entriesAbove n.(log) sn.(LastIncludedIndex)) = lastIndexLocked n.
Proof.
  intros Hwf Hst. unfold persistSnapshot_stale in Hst. pose proof Hwf as []. unfold lastIndexLocked in *.
  assert (wf_log sn (entriesAbove n.(log) sn.(LastIncludedIndex))) as Hwf' by (apply (wf_log_compact n.(snapshot)); [done|lia]).
  split; [done|]. rewrite (lastIndex_wf _ _ Hwf'), (lastIndex_wf _ _ nw_log), (entriesAbove_wf _ _ nw_log) by lia.
  rewrite (lastIndex_wf _ _ nw_log) in nw_commit. unfold len in *. rewrite length_drop. lia.
Qed.

(** Compaction: the replayed machine is the snapshot itself. *)
Lemma compact_inv n sn :
  node_wf n → n.(sm) = replayed n n.(lastApplied) →
  sn.(LastIncludedIndex) = n.(lastApplied) → sn.(Data) = Some (Snapshot_ n.(sm)) →
  sys_inv (persistSnapshot_finish sn n, AIdle).
Proof.
  intros Hwf Hsm Hi Hd. unfold persistSnapshot_finish. case_decide as Hst; [done|].
  destruct (ReplaceEntries _ _) as [[e|] st].
  { apply (sys_inv_evolves n); [done|]. by apply evolves_core. }
  destruct (compact_last n sn Hwf Hst) as [Hwf' Hlast]. unfold persistSnapshot_stale in Hst. pose proof Hwf as []. unfold lastIndexLocked in *.
  split.
  - split; unfold lastIndexLocked; cbn; rewrite ?Hlast; try done; lia.
  - unfold replayed; cbn. rewrite Hi, N.sub_diag, take_0, Hd. cbn. by rewrite Restore_Snapshot.
Qed.

(** Installing a snapshot replaces everything at once. *)
Record installed n n' : Prop := {
  ins_wf : node_wf n';
  ins_above : (n.(commitIndex) < n'.(snapshot).(LastIncludedIndex))%N;
  ins_commit : n'.(commitIndex) = n'.(snapshot).(LastIncludedIndex);
  ins_applied : n'.(lastApplied) = n'.(snapshot).(LastIncludedIndex);
  ins_sm : n'.(sm) = Restore n'.(snapshot).(Data) n.(sm);
  ins_role : n'.(role) = Follower }.

Lemma role_save commit n e n' : saveHardStateLocked commit n = (e, n') → n'.(role) = n.(role).
Proof. unfold saveHardStateLocked. destruct (SaveHardState _ _) as [[]]; intros; by simplify_eq. Qed.

Lemma role_becomeFollower term leader b n n' :
  becomeFollowerWithTimerLocked term leader b n = (None, n') → n'.(role) = Follower.
Proof.
  unfold becomeFollowerWithTimerLocked. set (n2 := if b then _ else _).
  assert (n2.(role) = Follower) as Hr by (by subst n2; destruct b).
  unfold persistHardStateLocked. destruct (saveHardStateLocked _ n2) as [e2 n3] eqn:E. apply role_save in E.
  destruct e2; [done|]. intros [= <-]. case_decide; cbn; congruence.
Qed.

Lemma isInstall_cases req data sz n :
  node_wf n → (req.(is_LastIncludedIndex) < two64 - 1)%N → (n.(commitIndex) < req.(is_LastIncludedIndex))%N →
  n.(role) = Follower →
  core (isInstall req data sz n).2 = core n ∨ installed n (isInstall req data sz n).2.
Proof.
  intros Hwf Hmax Hgt Hrole. unfold isInstall.
  destruct (SaveSnapshot _ _) as [[e|] st1]; [by left|].
  destruct (ReplaceEntries _ _) as [[e|] st2]; [by left|].
  destruct (saveHardStateLocked _ _) as [[e|] n1] eqn:E; pose proof (role_save _ _ _ _ E) as Hrole1;
    apply core_save in E.
  { left. by transitivity (core n1). }
  right. apply core_fields in E as (Hs & Hl & Hc & Ha & Hsm). cbn in *.
  set (newSnap := mkSnapshot _ _ _). pose proof Hwf as [].
  rewrite (decide_True (P:=commitIndex n < _)%N), (decide_True (P:=lastApplied n1 < _)%N) by lia.
  assert (wf_log newSnap (logAfterSnapshotLocked n newSnap)) as Hwf'.
  { apply wf_logAfterSnapshot; [done|cbn; lia|cbn; lia]. }
  split; cbn; try done; [|by rewrite Hsm|congruence].
  split; unfold lastIndexLocked in *; cbn; try done.
  - rewrite (lastIndex_wf _ _ Hwf'). unfold logAfterSnapshotLocked, logAfterSnapshot. case_decide as Ht.
    + rewrite len_nil. cbn. lia.
    + rewrite (entriesAbove_wf _ _ nw_log) by (cbn; lia).
      assert (is_LastIncludedIndex req ≤ lastIndex n.(snapshot) n.(log))%N as Hle.
      { apply (termAt_range _ _ _ newSnap.(LastIncludedTerm)); [done|lia|lia|].
        destruct (decide (termAt n.(snapshot) n.(log) newSnap.(LastIncludedIndex) = Some newSnap.(LastIncludedTerm))); tauto. }
      rewrite (lastIndex_wf _ _ nw_log) in *. unfold len in *. rewrite length_drop. cbn. lia.
  - rewrite (lastIndex_wf _ _ Hwf'). cbn. lia.
Qed.

Lemma isGuards_pass req n u n1 :
  isGuards req n = (inr u, n1) → (n1.(commitIndex) < req.(is_LastIncludedIndex))%N ∧ n1.(role) = Follower.
Proof.
  unfold isGuards. do 3 (case_decide; [done|]).
  destruct (if decide (_ ∨ _) then _ else _) as [[e|] n2] eqn:E; [done|].
  assert (n2.(role) = Follower) as Hr.
  { revert E. case_decide as Hd; [by intros ?%role_becomeFollower|]. intros [= <-].
    destruct (role n); [done|exfalso; apply Hd; by right..]. }
  clear E. case_decide as Hc; [done|]. intros [= <- <-]. cbn in *. split; [lia|done].
Qed.

Lemma install_cases req body n :
  node_wf n → op_ok (DoInstallFinal req body) n →
  core (nrun (DoInstallFinal req body) n) = core n ∨ installed n (nrun (DoInstallFinal req body) n).
Proof.
  intros Hwf Hok. cbn [nrun op_ok] in *. unfold HandleInstallSnapshot_final.
  destruct (match body with [] => _ | _ => _ end); [|by left].
  pose proof (core_isGuards req n) as Hg.
  destruct (isGuards req n) as [[r|[]] n1] eqn:Eg; cbn in Hg; [by left|].
  assert (evolves n n1) as Hev by (by apply evolves_core).
  destruct (pendingSnapshot n1); [|by left]. case_decide; [|by left].
  destruct (isGuards_pass _ _ _ _ Eg) as [Hgt Hrole].
  destruct (isInstall_cases req o (len body) n1 (ev_wf _ _ Hev) Hok Hgt Hrole) as [?|[]].
  - left. by transitivity (core n1).
  - right. apply core_fields in Hg as (_ & _ & Hc & _ & Hs). split; try done; [by rewrite <- Hc|by rewrite <- Hs].
Qed.

Lemma sys_inv_installed n n' pc :
  install_allowed pc = true → sys_inv (n, pc) → installed n n' → sys_inv (n', pc).
Proof.
  intros Hpc [Hwf Hi] [Hwf' Hab Hc Ha Hsm]. split; [done|].
  assert (n'.(sm) = replayed n' n'.(lastApplied)) as Hr.
  { unfold replayed. rewrite Ha, N.sub_diag, take_0. cbn. rewrite Hsm. apply Restore_indep. }
  destruct pc; try done. split; [done|]. left. destruct Hi as [_ Hsn], Hwf as [_ _ ? ? _].
  destruct Hsn as [?|[? _]]; lia.
Qed.

Lemma sys_inv_step s s' : sys_inv s → sstep s s' → sys_inv s'.
Proof.
  intros Hi Hst. destruct Hst as [n pc op Hb Hok|n pc req body Hpc Hok|n|n e|n e r|n sn|n sn|n sn].
  - apply (sys_inv_evolves n); [done|]. destruct Hi as [Hwf _]. apply evolves_quiet; [by destruct op|done..].
  - destruct (install_cases req body n) as [Hev|Hin]; [apply Hi|done| |].
    + eapply sys_inv_evolves; [done|]. by apply evolves_core; [apply Hi|].
    + by eapply sys_inv_installed.
  - destruct Hi as [Hwf Hsm]. destruct (applyReady_next_wf n Hwf) as (-> & _ & He).
    destruct (applyReady_next n).1; [done..|]. split; [done|]. by destruct (He _ eq_refl) as (? & ? & ?).
  - destruct Hi as (Hwf & Hsm & He & Hc). unfold applyReady_apply.
    destruct (Apply _ _) as [r s] eqn:Ea. cbn. 
    split; [apply (node_wf_applied n _ n.(lastApplied) s); [done|lia|done]|].
    assert (replayed (with_sm s n) n.(lastApplied) = replayed n n.(lastApplied)) as Hr.
    { unfold replayed; cbn. f_equal. apply Restore_indep. }
    rewrite Hr, <- Hsm, Ea. done.
  - destruct Hi as (Hwf & Hsm & Hres & He & Hc).
    destruct (finish_records n e r Hwf He Hc) as (_ & Hcore & Hidx & Hsn).
    set (n' := (applyReady_finish e r n).2) in *.
    assert (node_wf n') as Hwf' by (eapply node_wf_applied; [done| |done]; lia).
    unfold core in Hcore. injection Hcore as Hs Hl Hci Hla Hsm'.
    assert (n'.(sm) = replayed n' n'.(lastApplied)) as Hr'.
    { rewrite Hla, Hidx. unfold replayed. rewrite Hs, Hl, Hsm'. fold (replayed n (n.(lastApplied) + 1)).
      by rewrite (replayed_next n e). }
    destruct (applyReady_finish e r n).1 as [[sn|]|]; [|done..]. split; [done|].
    destruct (Hsn sn eq_refl) as [? ?]. split; [done|]. right. split; congruence.
  - destruct Hi as (Hwf & Hsm & Hsn). case_decide as Hst; [done|]. split_and!; [done|done|..];
      (destruct Hsn as [?|[? ?]]; [exfalso; apply Hst; by left|done]).
  - destruct Hi as (Hwf & Hsm & Hsn). apply (sys_inv_evolves n).
    + split; [done|]. by destruct (persistSnapshot_save sn n).1.
    + apply evolves_core; [done|]. unfold persistSnapshot_save. by destruct (SaveSnapshot _ _) as [[]].
  - destruct Hi as (Hwf & Hsm & Hd & Hdata). by apply compact_inv.
Qed.

Lemma sys_inv_steps s s' : sys_inv s → rtc sstep s s' → sys_inv s'.
Proof. intros Hi Hs. induction Hs; [done|]. eauto using sys_inv_step. Qed.

(** ** Starting a node *)

Lemma replayLoop_spec commit : ∀ entries applied s,
  contiguous (applied + 1) entries →
  replayLoop commit applied s entries =
    ((if decide (commit ≤ applied)%N then applied else N.min commit (applied + len entries))%N,
     apply_all (EntryCommand <$> take (N.to_nat (commit - applied)) entries) s).
Proof.
  induction entries as [|e es IH]; intros applied s Hc; cbn [replayLoop].
  { rewrite take_nil, len_nil. cbn. f_equal. case_decide; lia. }
  apply contiguous_cons in Hc as [He Hc]. rewrite He. case_decide as Hlt.
  - replace (N.to_nat (commit - applied)) with 0 by lia. rewrite decide_True by lia. done.
  - rewrite IH by done. rewrite (decide_False (P:=(commit ≤ applied)%N)) by lia.
    replace (N.to_nat (commit - applied)) with (S (N.to_nat (commit - (applied + 1)))) by lia.
    f_equal. unfold len; cbn. case_decide; lia.
Qed.

(** A store whose content is a well-formed log on top of its snapshot, and a
    state machine that [Restore] of no snapshot leaves alone. *)
Record clean_start (st : St) (s : SM) : Prop := {
  cs_log : ∀ hs entries snap st', Load st = (inl (hs, entries, snap), st') →
    wf_log snap entries ∧ (lastIndex snap entries < two64 - 1)%N;
  cs_fresh : Restore None s = s }.

Lemma NewNode_inv cfg st s rng0 now0 n :
  clean_start st s → NewNode cfg st s rng0 now0 = inl n → sys_inv (n, AIdle).
Proof.
  intros [Hload Hs] Hn. unfold NewNode in Hn. case_decide; [done|].
  destruct (validateConfig _); [done|]. destruct (Load st) as [[[[hs entries] snap]|] st'] eqn:El; [|done].
  destruct (Hload _ _ _ _ eq_refl) as [Hwf Hmax]. pose proof (lastIndex_wf _ _ Hwf) as Hlast.
  set (c := if decide (_ < _)%N then _ else _) in Hn.
  set (s0 := match Data snap with Some _ => _ | None => s end) in Hn.
  assert (LastIncludedIndex snap ≤ c ≤ lastIndex snap entries)%N as Hc by (subst c; repeat case_decide; lia).
  rewrite replayLoop_spec in Hn by apply Hwf.
  set (a := if decide (c ≤ _)%N then _ else _) in Hn.
  assert (a = c) as Ha by (clear Hn; clearbody c; subst a; case_decide; lia).
  rewrite Ha in Hn. clear a Ha.
  set (n0 := resetElectionLocked _) in Hn.
  assert (sys_inv (n0, AIdle)) as Hinv.
  { split; [split; unfold lastIndexLocked; cbn; try done; lia|].
    unfold replayed; cbn. f_equal. subst s0. destruct (Data snap) eqn:Ed; [apply Restore_indep|].
    by rewrite <- Hs at 1; apply Restore_indep. }
  revert Hn. case_decide; [|by intros [= <-]].
  destruct (persistHardStateLocked n0) as [[e|] n1] eqn:Ep; [done|]. intros [= <-].
  apply core_persist in Ep. apply (sys_inv_evolves n0); [done|]. by apply evolves_core; [apply Hinv|].
Qed.

(** The states a node goes through from its start on. *)
Definition sys_reachable (x : Node * apply_pc) : Prop :=
  ∃ cfg st s rng0 now0 n0,
    clean_start st s ∧ NewNode cfg st s rng0 now0 = inl n0 ∧ rtc sstep (n0, AIdle) x.

Lemma sys_reachable_inv x : sys_reachable x → sys_inv x.
Proof.
  intros (cfg & st & s & rng0 & now0 & n0 & Hcs & Hn & Hs).
  eapply sys_inv_steps; [|done]. by eapply NewNode_inv.
Qed.

(** ** What only grows *)

Record grows n n' : Prop := {
  gr_snapshot : (n.(snapshot).(LastIncludedIndex) ≤ n'.(snapshot).(LastIncludedIndex))%N;
  gr_applied : (n.(lastApplied) ≤ n'.(lastApplied))%N;
  gr_commit : (n.(commitIndex) ≤ n'.(commitIndex))%N;
  gr_entries : ∀ index, (n'.(snapshot).(LastIncludedIndex) < index ≤ n.(commitIndex))%N →
    entryAtLocked n' index = entryAtLocked n index }.

Lemma grows_refl n : grows n n.
Proof. by split. Qed.

Lemma grows_trans n1 n2 n3 : grows n1 n2 → grows n2 n3 → grows n1 n3.
Proof.
  intros [] []. split; [lia..|]. intros i Hi. rewrite gr_entries1 by lia. apply gr_entries0. lia.
Qed.

Lemma evolves_grows n n' : evolves n n' → grows n n'.
Proof. intros []. split; rewrite ?ev_snapshot, ?ev_applied; [done..|]. intros. apply ev_entries. lia. Qed.

Lemma core_grows n n' : node_wf n → core n' = core n → grows n n'.
Proof. intros. by apply evolves_grows, evolves_core. Qed.

Lemma installed_grows n n' : node_wf n → installed n n' → grows n n'.
Proof. intros [] []. split; rewrite ?ins_commit, ?ins_applied; try lia. Qed.

Lemma compact_grows n sn : node_wf n → grows n (persistSnapshot_finish sn n).
Proof.
  intros Hwf. unfold persistSnapshot_finish. case_decide as Hst; [apply grows_refl|].
  destruct (ReplaceEntries _ _) as [[e|] st]; [by apply core_grows|].
  unfold persistSnapshot_stale in Hst. pose proof Hwf as []. unfold lastIndexLocked in *.
  split; cbn; [lia|done..|]. intros i Hi. unfold entryAtLocked; cbn.
  apply (entryAt_compact n.(snapshot)); [done|lia|lia].
Qed.

Lemma grows_step s s' : sys_inv s → sstep s s' → grows s.1 s'.1.
Proof.
  intros Hi Hst. destruct Hst as [n pc op Hb Hok|n pc req body Hpc Hok|n|n e|n e r|n sn|n sn|n sn];
    destruct Hi as [Hwf Hi]; cbn [fst].
  - apply evolves_grows, evolves_quiet; [by destruct op|done..].
  - destruct (install_cases req body n Hwf Hok); [by apply core_grows|by apply installed_grows].
  - destruct (applyReady_next_wf n Hwf) as (-> & _ & _). apply grows_refl.
  - unfold applyReady_apply. destruct (Apply _ _). cbn. by split.
  - destruct Hi as (_ & _ & He & Hc). destruct (finish_records n e r Hwf He Hc) as (_ & Hcore & Hidx & _).
    unfold core in Hcore. injection Hcore as Hs Hl Hci Hla _.
    split; rewrite ?Hs, ?Hci, ?Hla; [done|lia|done|]. intros i _. unfold entryAtLocked. by rewrite Hs, Hl.
  - apply grows_refl.
  - apply core_grows; [done|]. unfold persistSnapshot_save. by destruct (SaveSnapshot _ _) as [[]].
  - by apply compact_grows.
Qed.

Lemma grows_steps s s' : sys_inv s → rtc sstep s s' → grows s.1 s'.1.
Proof.
  intros Hi Hs. induction Hs as [|s1 s2 s3 H12 _ IH]; [apply grows_refl|].
  eapply grows_trans; [by apply grows_step|]. apply IH. by eapply sys_inv_step.
Qed.

(** ** The loop run to its end *)

(** Steps of the other goroutines, snapshot installation aside. *)
Definition background : Node → Node → Prop :=
  rtc (λ m m', ∃ op, is_background op = true ∧ op_ok op m ∧ m' = nrun op m).

Lemma background_evolves n n' : background n n' → node_wf n → evolves n n'.
Proof.
  induction 1 as [n|n m n' (op & Hb & Hok & ->) _ IH]; intros Hwf; [by apply evolves_core|].
  assert (evolves n (nrun op n)) as Hev by (apply evolves_quiet; [by destruct op|done..]).
  eapply evolves_trans; [exact Hev|]. apply IH, Hev.
Qed.

Lemma compact_frame sn n :
  (persistSnapshot_finish sn n).(lastApplied) = n.(lastApplied) ∧
  (persistSnapshot_finish sn n).(commitIndex) = n.(commitIndex) ∧ (persistSnapshot_finish sn n).(sm) = n.(sm).
Proof. unfold persistSnapshot_finish. case_decide; [done|]. by destruct (ReplaceEntries _ _) as [[]]. Qed.

Lemma applyReady_next_some n :
  node_wf n → (n.(lastApplied) < n.(commitIndex))%N → ∃ e, (applyReady_next n).1 = ApplyEntry e.
Proof.
  intros [] Hlt. unfold applyReady_next, lastIndexLocked in *. rewrite decide_False by lia.
  usimp. rewrite decide_False by lia.
  assert (is_Some (entryAtLocked n (n.(lastApplied) + 1))) as [e ->]; [|by exists e].
  apply entryAt_is_Some; [done|lia|lia].
Qed.

(** The loop with [others] running wherever it releases the lock; they
    commit nothing above [c]. *)
Section others.
Context (others : Node → Node) (c : N).
Hypothesis others_background : ∀ m, node_wf m → background m (others m).
Hypothesis others_commit : ∀ m, node_wf m → (m.(commitIndex) ≤ c → (others m).(commitIndex) ≤ c)%N.

Lemma others_evolves n : node_wf n → evolves n (others n).
Proof. intros Hwf. apply background_evolves; auto. Qed.

(** Steps that apply nothing. *)
Record idles n n' : Prop := {
  id_inv : sys_inv (n', AIdle);
  id_grows : grows n n';
  id_applied : n'.(lastApplied) = n.(lastApplied);
  id_sm : n'.(sm) = n.(sm);
  id_commit : (n'.(commitIndex) ≤ c)%N }.

Lemma idles_others n : sys_inv (n, AIdle) → (n.(commitIndex) ≤ c)%N → idles n (others n).
Proof.
  intros Hi Hc. pose proof (others_evolves n (proj1 Hi)) as Hev. split; [by eapply sys_inv_evolves|by apply evolves_grows| | |].
  - apply Hev.
  - apply Hev.
  - apply others_commit; [apply Hi|done].
Qed.

Lemma persist_idles sn n :
  sys_inv (n, ASnap sn) → (n.(commitIndex) ≤ c)%N → idles n (persistSnapshot others sn n).
Proof.
  intros Hi Hc. unfold persistSnapshot. pose proof (sys_inv_step _ _ Hi (ss_check n sn)) as Hi1.
  case_decide as Hst; [split; [done|apply grows_refl|done..]|].
  pose proof (others_evolves n (proj1 Hi)) as Hev. pose proof (others_commit n (proj1 Hi) Hc) as Hc1.
  set (n1 := others n) in *. pose proof (sys_inv_evolves _ _ _ Hi1 Hev) as Hi2.
  pose proof (sys_inv_step _ _ Hi2 (ss_save n1 sn)) as Hi3. pose proof (grows_step _ _ Hi2 (ss_save n1 sn)) as Hg3.
  assert (core (persistSnapshot_save sn n1).2 = core n1) as Hco.
  { unfold persistSnapshot_save. by destruct (SaveSnapshot _ _) as [[]]. }
  pose proof (evolves_grows _ _ Hev) as Hg. pose proof Hev as [_ Ha1 Hsm1 _ _ _].
  destruct (persistSnapshot_save sn n1) as [[] n2]; cbn [fst snd] in *;
    apply core_fields in Hco as (_ & _ & Hci & Ha & Hsm).
  2: { split; [done|by eapply grows_trans|congruence..|lia]. }
  pose proof (others_evolves n2 (proj1 Hi3)) as Hev3. pose proof (others_commit n2 (proj1 Hi3) ltac:(lia)) as Hc3.
  pose proof (sys_inv_evolves _ _ _ Hi3 Hev3) as Hi4.
  pose proof (sys_inv_step _ _ Hi4 (ss_compact (others n2) sn)) as Hi5.
  pose proof (grows_step _ _ Hi4 (ss_compact (others n2) sn)) as Hg5. cbn [fst] in Hg5.
  destruct (compact_frame sn (others n2)) as (Ha5 & Hc5 & Hsm5). pose proof Hev3 as [_ Ha3 Hsm3 _ _ _].
  split; [done| |congruence..|lia].
  eapply grows_trans; [exact Hg|]. eapply grows_trans; [exact Hg3|]. eapply grows_trans; [by apply evolves_grows|done].
Qed.

(** A turn with something to apply applies exactly the next entry. *)
Lemma turn_progress n :
  sys_inv (n, AIdle) → (n.(commitIndex) ≤ c)%N → (n.(lastApplied) < n.(commitIndex))%N →
  ∃ e n', applyReady_turn others n = (true, n') ∧ sys_inv (n', AIdle) ∧ grows n n' ∧ (n'.(commitIndex) ≤ c)%N ∧
    n'.(lastApplied) = (n.(lastApplied) + 1)%N ∧ n'.(sm) = (Apply e.(EntryCommand) n.(sm)).2 ∧
    entryAtLocked n (n.(lastApplied) + 1) = Some e.
Proof.
  intros Hi Hc Hlt. pose proof Hi as [Hwf _]. unfold applyReady_turn.
  pose proof (sys_inv_step _ _ Hi (ss_next n)) as Hi1.
  destruct (applyReady_next_wf n Hwf) as (Hn & Hnext & Hget).
  destruct (applyReady_next_some n Hwf Hlt) as [e He].
  destruct (Hget e He) as (Hat & Hidx & Hle). destruct (applyReady_next n) as [a n0]; cbn [fst snd] in *; subst a n0.
  pose proof (others_evolves n Hwf) as Hev1. pose proof (others_commit n Hwf Hc) as Hc1. set (n1 := others n) in *.
  pose proof (sys_inv_evolves n n1 (AGot e) Hi1 Hev1) as Hi1'. pose proof (sys_inv_step _ _ Hi1' (ss_apply n1 e)) as Hi2.
  pose proof (grows_step _ _ Hi1' (ss_apply n1 e)) as Hg2.
  assert ((applyReady_apply e n1).2 = with_sm (Apply e.(EntryCommand) n1.(sm)).2 n1) as Hn2.
  { unfold applyReady_apply. by destruct (Apply _ _). }
  destruct (applyReady_apply e n1) as [r n2]; cbn [fst snd] in *.
  pose proof (others_evolves n2 (proj1 Hi2)) as Hev3.
  assert (n2.(commitIndex) ≤ c)%N as Hc2 by (by rewrite Hn2).
  pose proof (others_commit n2 (proj1 Hi2) Hc2) as Hc3. set (n3 := others n2) in *.
  pose proof (sys_inv_evolves _ _ _ Hi2 Hev3) as Hi3. pose proof (sys_inv_step _ _ Hi3 (ss_finish n3 e r)) as Hi4.
  pose proof (grows_step _ _ Hi3 (ss_finish n3 e r)) as Hg4. destruct Hi3 as (Hwf3 & _ & _ & Hat3 & Hle3).
  destruct (finish_records n3 e r Hwf3 Hat3 Hle3) as (Hsome & Hcore & Hidx3 & _).
  destruct (applyReady_finish e r n3) as [o n4]; cbn [fst snd] in *.
  unfold core in Hcore. injection Hcore as _ _ Hci Ha Hsm.
  assert (grows n n4) as Hg.
  { eapply grows_trans; [apply evolves_grows, Hev1|]. eapply grows_trans; [exact Hg2|].
    eapply grows_trans; [apply evolves_grows, Hev3|done]. }
  pose proof Hev1 as [_ Ha1 Hsm1 _ _ _]. pose proof Hev3 as [_ Ha3 Hsm3 _ _ _].
  assert (n4.(lastApplied) = n.(lastApplied) + 1)%N as Ha4.
  { rewrite Ha, Hidx3, Ha3, Hn2. cbn. by rewrite Ha1. }
  assert (n4.(sm) = (Apply e.(EntryCommand) n.(sm)).2) as Hsm4.
  { rewrite Hsm, Hsm3, Hn2. cbn. by rewrite Hsm1. }
  exists e. destruct o as [[sn|]|]; [| |done].
  - destruct (persist_idles sn n4 Hi4 ltac:(lia)) as [? ? Ha5 Hsm5 ?]. eexists.
    split_and!; [done|done|by eapply grows_trans|done|congruence|congruence|done].
  - exists n4. split_and!; try done. lia.
Qed.

Lemma applyReady_runs fuel : ∀ n,
  sys_inv (n, AIdle) → (n.(commitIndex) ≤ c)%N → (c - n.(lastApplied) < N.of_nat fuel)%N →
  ∃ n' es, applyReady fuel others n = (true, n') ∧ sys_inv (n', AIdle) ∧ grows n n' ∧
    n'.(lastApplied) = n'.(commitIndex) ∧ (n'.(commitIndex) ≤ c)%N ∧
    n'.(sm) = apply_all (EntryCommand <$> es) n.(sm) ∧ len es = (n'.(lastApplied) - n.(lastApplied))%N ∧
    ∀ j, (n.(lastApplied) < j ≤ n'.(lastApplied))%N →
      ((j ≤ n.(commitIndex))%N → es !! N.to_nat (j - n.(lastApplied) - 1) = entryAtLocked n j) ∧
      ((n'.(snapshot).(LastIncludedIndex) < j)%N → es !! N.to_nat (j - n.(lastApplied) - 1) = entryAtLocked n' j).
Proof.
  induction fuel as [|fuel IH]; intros n Hi Hc Hf; [lia|]. pose proof (nw_applied _ (proj1 Hi)) as Hle. cbn [applyReady].
  destruct (decide (n.(lastApplied) = n.(commitIndex))) as [Ha|Hne].
  { assert (applyReady_turn others n = (false, n)) as ->.
    { unfold applyReady_turn, applyReady_next. by rewrite decide_True by lia. }
    exists n, []. split_and!; [done|done|apply grows_refl|done|done|done|unfold len; cbn; lia|]. intros j Hj. lia. }
  destruct (turn_progress n Hi Hc ltac:(lia)) as (e & n1 & -> & Hi1 & Hg1 & Hc1 & Ha1 & Hsm1 & He).
  destruct (idles_others n1 Hi1 Hc1) as [Hi2 Hg2 Ha2 Hsm2 Hc2].
  destruct (IH (others n1) Hi2 Hc2 ltac:(lia)) as (n' & es & -> & Hi' & Hg' & Hla & Hc' & Hsm' & Hlen & Hes).
  assert (grows n (others n1)) as Hg12 by (by eapply grows_trans).
  pose proof (gr_applied _ _ Hg') as Hmono. pose proof (nw_snap _ (proj1 Hi2)) as Hsnap.
  exists n', (e :: es). split_and!; [done|done|by eapply grows_trans|done|done| |unfold len in *; cbn; lia|].
  - rewrite Hsm', Hsm2, Hsm1. done.
  - intros j Hj. destruct (decide (j = n.(lastApplied) + 1)%N) as [->|Hj1].
    { replace (N.to_nat _) with 0 by lia. cbn [lookup list_lookup]. split; intros Hj'; [done|].
      rewrite (gr_entries _ _ (grows_trans _ _ _ Hg12 Hg')) by lia. done. }
    replace (N.to_nat (j - lastApplied n - 1)) with (S (N.to_nat (j - lastApplied (others n1) - 1))) by lia.
    cbn [lookup list_lookup]. destruct (Hes j ltac:(lia)) as [Hlo Hhi]. split; [|done]. intros Hj'.
    rewrite <- (gr_entries _ _ Hg12) by lia. apply Hlo. pose proof (gr_commit _ _ Hg12). lia.
Qed.

End others.

(** ** Executable schedules *)

#[global] Instance op_ok_dec op n : Decision (op_ok op n).
Proof. destruct op; cbn; apply _. Defined.

(** What runs next: a critical section of another goroutine, a snapshot
    installation, or the apply goroutine. *)
Inductive sact :=
  | SBackground (op : nop)
  | SInstall (req : InstallSnapshotRequest) (body : list Byte.byte)
  | SApply.

Definition sperform (a : sact) (x : Node * apply_pc) : option (Node * apply_pc) :=
  let '(n, pc) := x in
  match a with
  | SBackground op =>
      if decide (is_background op = true ∧ op_ok op n) then Some (nrun op n, pc) else None
  | SInstall req body =>
      if decide (install_allowed pc = true ∧ op_ok (DoInstallFinal req body) n)
      then Some (nrun (DoInstallFinal req body) n, pc) else None
  | SApply =>
      Some match pc with
      | AIdle => ((applyReady_next n).2,
                  match (applyReady_next n).1 with ApplyEntry e => AGot e | _ => AIdle end)
      | AGot e => ((applyReady_apply e n).2, AApplied e (applyReady_apply e n).1)
      | AApplied e r => ((applyReady_finish e r n).2,
                         match (applyReady_finish e r n).1 with Some (Some sn) => ASnap sn | _ => AIdle end)
      | ASnap sn => (n, if decide (persistSnapshot_stale sn n) then AIdle else AChecked sn)
      | AChecked sn => ((persistSnapshot_save sn n).2, if (persistSnapshot_save sn n).1 then ASaved sn else AIdle)
      | ASaved sn => (persistSnapshot_finish sn n, AIdle)
      end
  end.

Lemma sperform_step a x y : sperform a x = Some y → sstep x y.
Proof.
  destruct x as [n pc], a as [op|req body|]; cbn [sperform]; intros Hp.
  - case_decide as Hd; [|done]. destruct Hd. injection Hp as <-. by apply ss_background.
  - case_decide as Hd; [|done]. destruct Hd. injection Hp as <-. by apply ss_install.
  - injection Hp as <-. destruct pc; constructor.
Qed.

Fixpoint srun (acts : list sact) (x : Node * apply_pc) : option (Node * apply_pc) :=
  match acts with
  | [] => Some x
  | a :: acts => y ← sperform a x; srun acts y
  end.

Lemma srun_steps acts x y : srun acts x = Some y → rtc sstep x y.
Proof.
  revert x. induction acts as [|a acts IH]; cbn; intros x Hr; [by simplify_eq|].
  apply bind_Some in Hr as (z & Ha & Hr). eapply rtc_l; [by eapply sperform_step|auto].
Qed.

(** Whether the apply goroutine has applied an entry it has not recorded. *)
Definition mid_apply (pc : apply_pc) : bool :=
  match pc with AApplied _ _ => true | _ => false end.

End sys.

(** ** Properties *)

Section properties.
Context {SM St : Type} `{StateMachine SM} `{Store St} `{RandSource} `{MapCodec} `{!StateMachineLaws SM}.
Implicit Types n : Node SM St.

(** C8. State machine safety on one node.  However the apply goroutine, the
    RPC handlers, elections, replication and snapshot installation
    interleave and whichever store writes fail, the state machine is always
    the snapshot with exactly the log entries up to [lastApplied] applied to
    it, once each and in order (one more while an entry is between its two
    critical sections); the result a waiter gets is the result of its entry
    at that point; and the re-check after [Apply] never discards an applied
    entry. *)
Theorem state_machine_is_replay n pc :
  sys_reachable (n, pc) →
  node_wf n ∧
  (mid_apply pc = false → n.(sm) = replayed n n.(lastApplied)) ∧
  (∀ e r, pc = AApplied e r →
     e.(Index) = (n.(lastApplied) + 1)%N ∧
     (r, n.(sm)) = Apply e.(EntryCommand) (replayed n n.(lastApplied)) ∧
     (applyReady_finish e r n).1 ≠ None).
Proof.
  intros [Hwf Hi]%sys_reachable_inv. split_and!; [done| |].
  - destruct pc; try done; intros _; by destruct Hi.
  - intros e r ->. destruct Hi as (Hsm & Hr & He & Hc).
    destruct (finish_records n e r Hwf He Hc) as (? & _ & ? & _). split_and!; [done| |done].
    rewrite Hsm, Hr. by destruct (Apply _ _).
Qed.

(** C9. Nothing committed is lost or rewritten while a process runs.  Along
    every run of one node from its start on (no restart in between) the
    snapshot index, [lastApplied] and [commitIndex] never decrease, and an
    entry at or below the commit index stays the same entry until a
    snapshot covers it. *)
Theorem committed_entries_stable n pc n' pc' :
  sys_reachable (n, pc) → rtc sstep (n, pc) (n', pc') →
  (n.(snapshot).(LastIncludedIndex) ≤ n'.(snapshot).(LastIncludedIndex))%N ∧
  (n.(lastApplied) ≤ n'.(lastApplied))%N ∧ (n.(commitIndex) ≤ n'.(commitIndex))%N ∧
  ∀ index, (n'.(snapshot).(LastIncludedIndex) < index ≤ n.(commitIndex))%N →
    is_Some (entryAtLocked n index) ∧ entryAtLocked n' index = entryAtLocked n index.
Proof.
  intros Hr%sys_reachable_inv Hs. destruct (grows_steps _ _ Hr Hs) as [Hsn ? ? Hen]; cbn [fst] in *.
  split_and!; [done..|]. intros i Hi. split; [|by apply Hen].
  destruct Hr as [[] _]. unfold lastIndexLocked in *. apply entryAt_is_Some; [done|lia|lia].
Qed.

(** C24. [applyReady] terminates and catches up, whatever the other goroutines
    (handlers, elections, proposals, replication; a snapshot installation
    excluded) do wherever the loop releases the lock, as long as they commit
    nothing above [c]: with one turn more than there are entries up to [c],
    the loop returns with [lastApplied] at the commit index it then finds,
    having applied to the state machine one command per index in between,
    in order: the entries that were committed at the start and those that
    were committed meanwhile. *)
Theorem applyReady_catches_up n c fuel others :
  sys_reachable (n, AIdle) → (∀ m, node_wf m → background m (others m)) →
  (∀ m, node_wf m → (m.(commitIndex) ≤ c → (others m).(commitIndex) ≤ c)%N) →
  (n.(commitIndex) ≤ c)%N → (c - n.(lastApplied) < N.of_nat fuel)%N →
  ∃ n' es, applyReady fuel others n = (true, n') ∧
    n'.(lastApplied) = n'.(commitIndex) ∧ (n.(commitIndex) ≤ n'.(commitIndex) ≤ c)%N ∧
    n'.(sm) = apply_all (EntryCommand <$> es) n.(sm) ∧ len es = (n'.(lastApplied) - n.(lastApplied))%N ∧
    ∀ j, (n.(lastApplied) < j ≤ n'.(lastApplied))%N →
      ((j ≤ n.(commitIndex))%N → es !! N.to_nat (j - n.(lastApplied) - 1) = entryAtLocked n j) ∧
      ((n'.(snapshot).(LastIncludedIndex) < j)%N → es !! N.to_nat (j - n.(lastApplied) - 1) = entryAtLocked n' j).
Proof.
  intros Hr%sys_reachable_inv Hb Hoc Hc Hf.
  destruct (applyReady_runs others c Hb Hoc fuel n Hr Hc Hf) as (n' & es & Ha & _ & Hg & Hla & Hc' & Hsm & Hlen & Hes).
  exists n', es. split_and!; try done. apply Hg.
Qed.

End properties.

(** *** A run of one node

    The node elects itself, proposes two writes and applies the entries up
    to the point where it compacts its log. *)
Definition put (k v : string) : Command := mkCommand OpPut k v "".

Definition noop : Command := mkCommand OpNoop "" "" "".

Definition run1 : list sact :=
  [SBackground DoStartElection; SBackground (DoBecomeLeader 1);
   SBackground (DoPropose None (put "x" "1")); SBackground (DoPropose None (put "y" "2"));
   SApply; SApply; SApply; SApply; SApply; SApply].

Definition node1 : Node KV.KVStateMachine Mem.MemStore + error * Mem.MemStore := newKVNode1 (Mem.empty []).

Lemma clean_empty fs : clean_start (Mem.empty fs) KV.NewKVStateMachine.
Proof.
  split; [|done]. cbn. intros ? ? ? ? [= <- <- <- <-]. split; [|done].
  split; [apply contiguous_nil|done].
Qed.

(** The state after a schedule from the start of the node. *)
Definition after (acts : list sact) : option (Node KV.KVStateMachine Mem.MemStore * apply_pc) :=
  match node1 with inl n => srun acts (n, AIdle) | inr _ => None end.

Lemma after_reachable acts x : after acts = Some x → sys_reachable x.
Proof.
  unfold after. destruct node1 as [n|] eqn:En; [|done]. intros Hr.
  exists cfg1, (Mem.empty []), KV.NewKVStateMachine, 0, 0%Z, n.
  split_and!; [apply clean_empty|exact En|by eapply srun_steps].
Qed.

Lemma state_machine_is_replay_witness :
  ∃ n e r, after (run1 ++ [SApply; SApply]) = Some (n, AApplied e r) ∧
    e.(EntryCommand) = put "x" "1" ∧ n.(snapshot).(LastIncludedIndex) = 1%N ∧
    e.(Index) = (n.(lastApplied) + 1)%N ∧ (applyReady_finish e r n).1 ≠ None.
Proof.
  assert (match after (run1 ++ [SApply; SApply]) with
          | Some (n, AApplied e _) => (e.(EntryCommand), n.(snapshot).(LastIncludedIndex))
          | _ => (noop, 0%N) end = (put "x" "1", 1%N)) as Hv by (vm_compute; reflexivity).
  destruct (after (run1 ++ [SApply; SApply])) as [[n [|e|e r|sn|sn|sn]]|] eqn:E; try discriminate Hv.
  injection Hv as Hc Hs. exists n, e, r.
  destruct (state_machine_is_replay n (AApplied e r) (after_reachable _ _ E)) as (_ & _ & Hf).
  destruct (Hf e r eq_refl) as (? & _ & ?). auto 10.
Defined.

Lemma committed_entries_stable_witness :
  ∃ n pc n' pc', after (take 6 run1) = Some (n, pc) ∧ srun (drop 6 run1) (n, pc) = Some (n', pc') ∧
    n.(commitIndex) = 3%N ∧ n'.(snapshot).(LastIncludedIndex) = 1%N ∧
    entryAtLocked n' 2 = entryAtLocked n 2.
Proof.
  assert (match after (take 6 run1) with
          | Some x => match srun (drop 6 run1) x with
                      | Some y => (x.1.(commitIndex), y.1.(snapshot).(LastIncludedIndex))
                      | None => (0%N, 0%N) end
          | None => (0%N, 0%N) end = (3%N, 1%N)) as Hv by (vm_compute; reflexivity).
  destruct (after (take 6 run1)) as [[n pc]|] eqn:E; [|discriminate Hv].
  destruct (srun (drop 6 run1) (n, pc)) as [[n' pc']|] eqn:E'; [|discriminate Hv].
  injection Hv as Hc Hs. cbn in Hc, Hs. exists n, pc, n', pc'.
  destruct (committed_entries_stable n pc n' pc' (after_reachable _ _ E) (srun_steps _ _ _ E'))
    as (_ & _ & _ & Hen). split_and!; [done..|]. apply Hen. lia.
Defined.

(** While the loop runs, a client proposes writes until five entries are
    committed. *)
Definition proposing (m : Node KV.KVStateMachine Mem.MemStore) : Node KV.KVStateMachine Mem.MemStore :=
  let m' := nrun (DoPropose None (put "z" "3")) m in
  if decide (op_ok (DoPropose None (put "z" "3")) m ∧ (m'.(commitIndex) ≤ 5)%N) then m' else m.

Lemma applyReady_catches_up_witness :
  ∃ n n', after (take 4 run1) = Some (n, AIdle) ∧ n.(commitIndex) = 3%N ∧
    applyReady 6 proposing n = (true, n') ∧ n'.(lastApplied) = 5%N ∧ KV.kv_Get "z" n'.(sm) = ("3", true).
Proof.
  assert (match after (take 4 run1) with
          | Some (n, AIdle) => (n.(commitIndex), n.(lastApplied), (applyReady 6 proposing n).2.(lastApplied),
                                KV.kv_Get "z" (applyReady 6 proposing n).2.(sm))
          | _ => (0%N, 0%N, 0%N, ("", false)) end = (3%N, 0%N, 5%N, ("3", true))) as Hv by (vm_compute; reflexivity).
  destruct (after (take 4 run1)) as [[n [|e|e r|sn|sn|sn]]|] eqn:E; try discriminate Hv.
  apply pair_equal_spec in Hv as [[[Hc Ha]%pair_equal_spec Hl]%pair_equal_spec Hz].
  destruct (applyReady_catches_up n 5 6 proposing (after_reachable _ _ E)) as (n' & es & Hr & _).
  - intros m Hwf. unfold proposing. cbv zeta. case_decide as Hd; [|reflexivity].
    apply rtc_once. exists (DoPropose None (put "z" "3")). destruct Hd. by split_and!.
  - intros m _ Hm. unfold proposing. cbv zeta. case_decide as Hd; [by destruct Hd|done].
  - lia.
  - lia.
  - rewrite Hr in Hl, Hz. exists n, n'. auto.
Defined.
