(* ===== verification/Loops.v ===== *)
(** * The goroutines of a node

    [Start], [Stop] and the goroutines of [internal/raft/node.go]: the three
    loops, the replication goroutines of a round and those of a read
    barrier, each at a program point between two critical sections, in any
    interleaving with the handlers and the proposals.

    A context is the number of RPCs that still complete before it is done;
    with a context that is done an RPC returns an error.  A [select] takes
    any case that is ready: the ticker may fire although the stop channel is
    closed.  [Start] is called once, as in [cmd/server/main.go]. *)

From S2P Require Import Prelude Types StateMachine StoreIntf RaftLog NodeState Node Replication NodeStep NodeInv ApplySys.

(** ** Program points *)

(** The arguments of a call of [sendSnapshot], the data encoded. *)
Record sendArgs := mkSendArgs {
  sa_term : N;
  sa_index : N;
  sa_lastTerm : N;
  sa_body : list Byte.byte;
  sa_chunk : Z }.

(** A goroutine that replicates to one peer: polling for the slot; at the top
    of the loop of [replicateToPeer] with a number of attempts left; in
    [transport.AppendEntries]; at the top of the loop of [sendSnapshot]; in
    [transport.InstallSnapshot]; after a transfer; before
    [finishPeerReplication]. *)
Inductive replPc :=
  | PAcquire
  | PTop (attempts : nat)
  | PAppend (attempts : nat) (req : AppendEntriesRequest)
  | PSend (sd : sendArgs) (offset : N)
  | PChunk (sd : sendArgs) (offset : N)
  | PSnapDone (term snapIdx : N)
  | PFinish.

(** What an RPC brought; [NoRpc] for the steps that are not RPCs. *)
Inductive rpcResult :=
  | NoRpc
  | RpcError
  | RpcAppend (resp : AppendEntriesResponse)
  | RpcChunk (resp : InstallSnapshotResponse).

(** A round: its context and the goroutines that have not ended. *)
Record round := mkRound {
  ro_ctx : nat;
  ro_peers : gmap string replPc }.

(** [electionLoop]: before [Start]; at the [select]; about to call
    [startElection]; collecting votes, with the results not yet received;
    about to call [stepDown] or [becomeLeader]; about to begin the first round
    of heartbeats; in that round; returned. *)
Inductive electionPc :=
  | EOff
  | ESelect
  | EElect
  | EVotes (term : N) (votes waiting : nat)
  | EDown (term : N)
  | ELead (term : N)
  | EBegin
  | ERound (rd : round)
  | EExit.

(** [heartbeatLoop]: before [Start]; at the [select]; about to test
    [isLeader]; about to begin a round; in a round; returned. *)
Inductive heartbeatPc :=
  | HOff
  | HSelect
  | HCheck
  | HBegin
  | HRound (rd : round)
  | HExit.

(** [applyLoop]: before [Start]; at the [select]; in [applyReady]; returned. *)
Inductive applyLoopPc :=
  | LOff
  | LSelect
  | LReady (pc : apply_pc)
  | LExit.

(** [stopOnce], and where a call of [Stop] is: before [close(n.stopCh)]; at
    [n.loops.Wait()]; returned. *)
Inductive onceState := OnceFresh | OnceRunning (c : nat) | OnceDone.
Inductive stopPc := SClose | SWait | SReturned.

(** Which case of a [select] fires. *)
Inductive wake := OnStop | OnTick | OnToken.

Section loops.
Context {SM St : Type} `{StateMachine SM} `{Store St} `{RandSource} `{MapCodec}.
#[local] Abbreviation Node := (Node SM St).
Implicit Types n : Node.

(** ** One replication goroutine *)

(** A step of the goroutine for peer [p]: the next point, [None] when it
    ends, what is left of the context, and the node. *)
Definition repl_step (p : string) (r : rpcResult) (ctx : nat) (pc : replPc) n : option (option replPc * nat * Node) :=
  match pc, r with
  | PAcquire, NoRpc =>
      match acquirePeerReplication_poll (bool_decide (ctx = 0)) p n with
      | (Some true, n) => Some (Some (PTop maxReplicationAttempts), ctx, n)
      | (Some false, n) => Some (None, ctx, n)
      | (None, n) => Some (Some PAcquire, ctx, n)
      end
  | PTop attempts, NoRpc =>
      match attempts, ctx with
      | O, _ | _, O => Some (Some PFinish, ctx, n)
      | S attempts, S _ =>
          match replicateToPeer_prepare p n with
          | (ReplReturn _, n) => Some (Some PFinish, ctx, n)
          | (ReplRetry, n) => Some (Some (PTop attempts), ctx, n)
          | (ReplSnapshot term snapIdx snapTerm data chunk, n) =>
              let chunk := if decide (chunk ≤ 0)%Z then defaultSnapshotChunkBytes else chunk in
              Some (Some (PSend (mkSendArgs term snapIdx snapTerm (marshalMap data) chunk) 0), ctx, n)
          | (ReplAppend req, n) => Some (Some (PAppend attempts req), ctx, n)
          end
      end
  | PAppend _ _, RpcError => Some (Some PFinish, pred ctx, n)
  | PAppend attempts req, RpcAppend resp =>
      match ctx with
      | O => None
      | S ctx =>
          match replicateToPeer_response p req resp n with
          | (Some _, n) => Some (Some PFinish, ctx, n)
          | (None, n) => Some (Some (PTop attempts), ctx, n)
          end
      end
  | PSend sd offset, NoRpc => Some (Some (if decide (ctx = 0) then PFinish else PChunk sd offset), ctx, n)
  | PChunk _ _, RpcError => Some (Some PFinish, pred ctx, n)
  | PChunk sd offset, RpcChunk resp =>
      match ctx with
      | O => None
      | S ctx =>
          match sendSnapshot_check sd.(sa_term) resp n with
          | (false, n) => Some (Some PFinish, ctx, n)
          | (true, n) =>
              let total := len sd.(sa_body) in
              match sendSnapshot_next total offset (chunkEnd total offset sd.(sa_chunk)) resp with
              | SendReturn true => Some (Some (PSnapDone sd.(sa_term) sd.(sa_index)), ctx, n)
              | SendReturn false => Some (Some PFinish, ctx, n)
              | SendNext offset => Some (Some (PSend sd offset), ctx, n)
              end
          end
      end
  | PSnapDone term snapIdx, NoRpc => Some (Some PFinish, ctx, replicateToPeer_snapshotDone p term snapIdx n)
  | PFinish, NoRpc => Some (None, ctx, finishPeerReplication p n)
  | _, _ => None
  end.

(** A goroutine of the round moves. *)
Definition round_step (p : string) (r : rpcResult) (rd : round) n : option (round * Node) :=
  pc ← rd.(ro_peers) !! p;
  '(pc', ctx, n) ← repl_step p r rd.(ro_ctx) pc n;
  Some (mkRound ctx (partial_alter (λ _, pc') p rd.(ro_peers)), n).

(** The goroutines of [replicateAllOnce] for [peers]. *)
Definition newRound (ctx : nat) (pc : replPc) (peers : list string) : round :=
  mkRound ctx (list_to_map ((λ p, (p, pc)) <$> peers)).

(** ** The loops *)

(** What moves a loop: its [select]; its own next section, with the context
    of a round that it begins; a result of RequestVote; the context of the
    election being done; a goroutine of its round. *)
Inductive loopEvent :=
  | EvWake (w : wake)
  | EvRun (ctx : nat)
  | EvVote (result : option RequestVoteResponse)
  | EvCtxDone
  | EvRepl (p : string) (r : rpcResult).

Definition electionLoop_step (stopCh : bool) (ev : loopEvent) (pc : electionPc) n : option (electionPc * Node) :=
  match pc, ev with
  | ESelect, EvWake OnStop => if stopCh then Some (EExit, n) else None
  | ESelect, EvWake OnTick => Some (if electionTick n then EElect else ESelect, n)
  | EElect, EvRun _ =>
      match startElection n with
      | (None, n) => Some (ESelect, n)
      | (Some (term, _), n) =>
          Some (if decide (quorum n = 1) then ELead term else EVotes term 1 (size n.(params).(peerAddrs)), n)
      end
  | EVotes _ _ O, EvRun _ => Some (ESelect, n)
  | EVotes _ _ (S _), EvCtxDone => Some (ESelect, n)
  | EVotes term votes (S waiting), EvVote result =>
      Some (match collectVote n term votes result with
            | VoteContinue votes => EVotes term votes waiting
            | VoteStepDown t => EDown t
            | VoteBecomeLeader => ELead term
            end, n)
  | EDown term, EvRun _ => Some (ESelect, stepDown term "" n)
  | ELead term, EvRun _ =>
      if decide (n.(stopped) = true ∨ op_ok (DoBecomeLeader term) n) then
        match becomeLeader term n with
        | (true, n) => Some (EBegin, n)
        | (false, n) => Some (ESelect, n)
        end
      else None
  | EBegin, EvRun ctx =>
      match replicateAllOnce_begin n with
      | (inr _, n) => Some (ESelect, n)
      | (inl peers, n) => Some (ERound (newRound ctx (PTop maxReplicationAttempts) peers), n)
      end
  | ERound rd, EvRepl p r => '(rd, n) ← round_step p r rd n; Some (ERound rd, n)
  | ERound rd, EvRun _ => if decide (rd.(ro_peers) = ∅) then Some (ESelect, n) else None
  | _, _ => None
  end.

Definition heartbeatLoop_step (stopCh : bool) (ev : loopEvent) (pc : heartbeatPc) n : option (heartbeatPc * Node) :=
  match pc, ev with
  | HSelect, EvWake OnStop => if stopCh then Some (HExit, n) else None
  | HSelect, EvWake OnTick => Some (HCheck, n)
  | HSelect, EvWake OnToken => if n.(replicateCh) then Some (HCheck, with_replicateCh false n) else None
  | HCheck, EvRun _ => Some (if isLeader n then HBegin else HSelect, n)
  | HBegin, EvRun ctx =>
      match replicateAllOnce_begin n with
      | (inr _, n) => Some (HSelect, n)
      | (inl peers, n) => Some (HRound (newRound ctx (PTop maxReplicationAttempts) peers), n)
      end
  | HRound rd, EvRepl p r => '(rd, n) ← round_step p r rd n; Some (HRound rd, n)
  | HRound rd, EvRun _ => if decide (rd.(ro_peers) = ∅) then Some (HSelect, n) else None
  | _, _ => None
  end.

Definition applyLoop_step (stopCh : bool) (ev : loopEvent) (pc : applyLoopPc) n : option (applyLoopPc * Node) :=
  match pc, ev with
  | LSelect, EvWake OnStop => if stopCh then Some (LExit, n) else None
  | LSelect, EvWake OnTick => Some (LReady AIdle, n)
  | LSelect, EvWake OnToken => if n.(applyCh) then Some (LReady AIdle, with_applyCh false n) else None
  | LReady AIdle, EvRun _ =>
      match applyReady_next n with
      | (ApplyDone, n) => Some (LSelect, n)
      | (ApplyAgain, n) => Some (LReady AIdle, n)
      | (ApplyEntry e, n) => Some (LReady (AGot e), n)
      end
  | LReady (AGot e), EvRun _ =>
      let '(res, n) := applyReady_apply e n in Some (LReady (AApplied e res), n)
  | LReady (AApplied e res), EvRun _ =>
      match applyReady_finish e res n with
      | (None, n) => Some (LSelect, n)
      | (Some None, n) => Some (LReady AIdle, n)
      | (Some (Some sn), n) => Some (LReady (ASnap sn), n)
      end
  | LReady (ASnap sn), EvRun _ =>
      Some (LReady (if decide (persistSnapshot_stale sn n) then AIdle else AChecked sn), n)
  | LReady (AChecked sn), EvRun _ =>
      match persistSnapshot_save sn n with
      | (true, n) => Some (LReady (ASaved sn), n)
      | (false, n) => Some (LReady AIdle, n)
      end
  | LReady (ASaved sn), EvRun _ => Some (LReady AIdle, persistSnapshot_finish sn n)
  | _, _ => None
  end.

(** ** The process *)

Record proc := mkProc {
  pr_node : Node;
  pr_once : onceState;
  pr_stopCh : bool;
  pr_loops : nat;
  pr_election : electionPc;
  pr_heartbeat : heartbeatPc;
  pr_apply : applyLoopPc;
  pr_stops : gmap nat stopPc;
  pr_barriers : gmap nat round }.

Definition newProc n : proc := mkProc n OnceFresh false 0 EOff HOff LOff ∅ ∅.

Definition with_proc_node n (s : proc) : proc :=
  mkProc n s.(pr_once) s.(pr_stopCh) s.(pr_loops) s.(pr_election) s.(pr_heartbeat) s.(pr_apply) s.(pr_stops) s.(pr_barriers).

(** [Start]: [n.loops.Add(3)] and the three goroutines. *)
Definition Start (s : proc) : option proc :=
  match s.(pr_election) with
  | EOff =>
      Some (mkProc s.(pr_node) s.(pr_once) s.(pr_stopCh) (s.(pr_loops) + 3) ESelect HSelect LSelect s.(pr_stops) s.(pr_barriers))
  | _ => None
  end.

(** [Stop] up to the end of the locked part; a call that finds [stopOnce]
    done goes on to wait. *)
Definition Stop_begin (c : nat) (s : proc) : option proc :=
  if decide (s.(pr_stops) !! c = None) then
    match s.(pr_once) with
    | OnceFresh =>
        Some (mkProc (Stop s.(pr_node)) (OnceRunning c) s.(pr_stopCh) s.(pr_loops) s.(pr_election) s.(pr_heartbeat) s.(pr_apply)
                (<[c := SClose]> s.(pr_stops)) s.(pr_barriers))
    | OnceRunning _ => None
    | OnceDone =>
        Some (mkProc s.(pr_node) OnceDone s.(pr_stopCh) s.(pr_loops) s.(pr_election) s.(pr_heartbeat) s.(pr_apply)
                (<[c := SWait]> s.(pr_stops)) s.(pr_barriers))
    end
  else None.

(** [close(n.stopCh)], the end of [stopOnce.Do]. *)
Definition Stop_close (c : nat) (s : proc) : option proc :=
  match s.(pr_stops) !! c with
  | Some SClose =>
      Some (mkProc s.(pr_node) OnceDone true s.(pr_loops) s.(pr_election) s.(pr_heartbeat) s.(pr_apply)
              (<[c := SWait]> s.(pr_stops)) s.(pr_barriers))
  | _ => None
  end.

(** [n.loops.Wait()] *)
Definition Stop_return (c : nat) (s : proc) : option proc :=
  match s.(pr_stops) !! c with
  | Some SWait =>
      if decide (s.(pr_loops) = 0) then
        Some (mkProc s.(pr_node) s.(pr_once) s.(pr_stopCh) s.(pr_loops) s.(pr_election) s.(pr_heartbeat) s.(pr_apply)
                (<[c := SReturned]> s.(pr_stops)) s.(pr_barriers))
      else None
  | _ => None
  end.

(** Handlers, proposals and the clock. *)
Definition is_other (op : nop) : bool :=
  match op with
  | DoTick _ | DoAppendEntries _ | DoInstallRecv _ | DoInstallFinal _ _ | DoPropose _ _ | DoProposeSelect _ _ _ | DoRequestVote _ => true
  | _ => false
  end.

Definition proc_pc (s : proc) : apply_pc := match s.(pr_apply) with LReady pc => pc | _ => AIdle end.

(** [applyMu] and [snapshotPersistMu] are free for [op]. *)
Definition other_allowed (op : nop) (s : proc) : bool :=
  match op with DoInstallFinal _ _ => install_allowed (proc_pc s) | _ => true end.

#[global] Instance op_ok_dec op n : Decision (op_ok op n).
Proof. destruct op; unfold op_ok; apply _. Defined.

(** A read barrier: [ensureQuorum] starts a goroutine per peer. *)
Definition barrier_start (b ctx : nat) (s : proc) : option proc :=
  if decide (s.(pr_barriers) !! b = None) then
    match ensureQuorum_begin s.(pr_node) with
    | inl _ =>
        let rd := newRound ctx PAcquire (map_to_list s.(pr_node).(params).(peerAddrs)).*1 in
        Some (mkProc s.(pr_node) s.(pr_once) s.(pr_stopCh) s.(pr_loops) s.(pr_election) s.(pr_heartbeat) s.(pr_apply) s.(pr_stops)
                (<[b := rd]> s.(pr_barriers)))
    | inr _ => None
    end
  else None.

Definition barrier_step (b : nat) (p : string) (r : rpcResult) (s : proc) : option proc :=
  rd ← s.(pr_barriers) !! b;
  '(rd, n) ← round_step p r rd s.(pr_node);
  Some (mkProc n s.(pr_once) s.(pr_stopCh) s.(pr_loops) s.(pr_election) s.(pr_heartbeat) s.(pr_apply) s.(pr_stops)
          (<[b := rd]> s.(pr_barriers))).

(** A loop that returns runs its deferred [n.loops.Done()]. *)
Definition election_move (ev : loopEvent) (s : proc) : option proc :=
  '(pc, n) ← electionLoop_step s.(pr_stopCh) ev s.(pr_election) s.(pr_node);
  let loops := match pc with EExit => s.(pr_loops) - 1 | _ => s.(pr_loops) end in
  Some (mkProc n s.(pr_once) s.(pr_stopCh) loops pc s.(pr_heartbeat) s.(pr_apply) s.(pr_stops) s.(pr_barriers)).

Definition heartbeat_move (ev : loopEvent) (s : proc) : option proc :=
  '(pc, n) ← heartbeatLoop_step s.(pr_stopCh) ev s.(pr_heartbeat) s.(pr_node);
  let loops := match pc with HExit => s.(pr_loops) - 1 | _ => s.(pr_loops) end in
  Some (mkProc n s.(pr_once) s.(pr_stopCh) loops s.(pr_election) pc s.(pr_apply) s.(pr_stops) s.(pr_barriers)).

Definition apply_move (ev : loopEvent) (s : proc) : option proc :=
  '(pc, n) ← applyLoop_step s.(pr_stopCh) ev s.(pr_apply) s.(pr_node);
  let loops := match pc with LExit => s.(pr_loops) - 1 | _ => s.(pr_loops) end in
  Some (mkProc n s.(pr_once) s.(pr_stopCh) loops s.(pr_election) s.(pr_heartbeat) pc s.(pr_stops) s.(pr_barriers)).

Inductive paction :=
  | PStart
  | PStop (c : nat)
  | PStopClose (c : nat)
  | PStopReturn (c : nat)
  | POther (op : nop)
  | PBarrier (b ctx : nat)
  | PBarrierRun (b : nat) (p : string) (r : rpcResult)
  | PElection (ev : loopEvent)
  | PHeartbeat (ev : loopEvent)
  | PApply (ev : loopEvent).

Definition pperform (a : paction) (s : proc) : option proc :=
  match a with
  | PStart => Start s
  | PStop c => Stop_begin c s
  | PStopClose c => Stop_close c s
  | PStopReturn c => Stop_return c s
  | POther op =>
      if decide (is_other op = true ∧ other_allowed op s = true ∧ op_ok op s.(pr_node))
      then Some (with_proc_node (nrun op s.(pr_node)) s) else None
  | PBarrier b ctx => barrier_start b ctx s
  | PBarrierRun b p r => barrier_step b p r s
  | PElection ev => election_move ev s
  | PHeartbeat ev => heartbeat_move ev s
  | PApply ev => apply_move ev s
  end.

Fixpoint prun (acts : list paction) (s : proc) : option proc :=
  match acts with
  | [] => Some s
  | a :: acts => s' ← pperform a s; prun acts s'
  end.

(** A process from its start on. *)
Definition proc_reachable (s : proc) : Prop :=
  ∃ cfg st m rng0 now0 n acts,
    clean_start st m ∧ NewNode cfg st m rng0 now0 = inl n ∧ prun acts (newProc n) = Some s.

End loops.
