(* ===== verification/LoopProofs.v ===== *)
(** * Stopping a node

    What a stopped node still does, and that [Stop] returns: after the stop
    channel is closed the loops have a bounded amount of work left, whatever
    the handlers, the network and the store do meanwhile. *)

From S2P Require Import Prelude Types StateMachine StoreIntf RaftLog NodeState Node Replication NodeStep NodeInv ApplySys Loops TestEnv.

Section proofs.
Context {SM St : Type} `{StateMachine SM} `{Store St} `{RandSource} `{MapCodec} `{!StateMachineLaws SM}.
#[local] Abbreviation Node := (Node SM St).
#[local] Abbreviation proc := (@proc SM St).
Implicit Types (n : Node) (s : proc).

(** ** A stopped node stands still *)

(** Everything but the vote, the commit index, the channels and the store. *)
Definition rest n := (n.(snapshot), n.(log), n.(lastApplied), n.(sm), n.(stopped)).

Lemma rest_save commit n e n' : saveHardStateLocked commit n = (e, n') → rest n' = rest n.
Proof. unfold saveHardStateLocked. destruct (SaveHardState _ _) as [[]]; intros; by simplify_eq. Qed.

Lemma rest_becomeFollower term leader b n : rest (becomeFollowerWithTimerLocked term leader b n).2 = rest n.
Proof.
  unfold becomeFollowerWithTimerLocked, persistHardStateLocked. set (n2 := if b then _ else _).
  assert (rest n2 = rest n) as Hr by (by subst n2; destruct b; case_decide).
  destruct (saveHardStateLocked _ n2) as [[e|] n3] eqn:E; apply rest_save in E; rewrite Hr in E; [exact E|]. by case_decide.
Qed.

Lemma rest_advanceCommit n : rest (advanceCommitLocked n) = rest n.
Proof.
  unfold advanceCommitLocked, persistHardStateLocked. destruct (advanceLoop _ _ _); [|done].
  destruct (saveHardStateLocked _ _) as [[e|] n1] eqn:E; apply rest_save in E; exact E.
Qed.

(** The sections that write the store of a stopped node, those of the apply
    loop aside. *)
Definition writes_stopped (op : nop) : bool :=
  match op with DoReplResponse _ _ _ | DoSendCheck _ _ | DoStepDown _ _ => true | _ => false end.

Lemma stopped_recv req n : n.(stopped) = true → (HandleInstallSnapshot_recv req n).2 = n.
Proof.
  intros Hs. unfold HandleInstallSnapshot_recv, isGuards. rewrite decide_True by (by left). done.
Qed.

Lemma stopped_final req body n : n.(stopped) = true → (HandleInstallSnapshot_final req body n).2 = with_pendingSnapshot None n.
Proof.
  intros Hs. unfold HandleInstallSnapshot_final, isGuards. rewrite decide_True by (by left).
  by destruct (match body with [] => _ | _ => _ end).
Qed.

Lemma stopped_op op n : n.(stopped) = true → is_background op = true →
  rest (nrun op n) = rest n ∧ (writes_stopped op = false → (nrun op n).(store) = n.(store)).
Proof.
  intros Hs Hb. assert (disabled n) as Hd by (by left).
  destruct op; try discriminate Hb; cbn [nrun writes_stopped]; try (by split).
  - unfold Stop. by rewrite Hs.
  - unfold HandleAppendEntries. by rewrite decide_True.
  - by rewrite stopped_recv.
  - unfold Propose_start, proposeAppend. rewrite Hs. by destruct ctx.
  - unfold Propose_select, removeWaiter. destruct (chans n !! w) as [[[|o l] [] m]|]; destruct ctx; cbn; try done; by case_decide.
  - unfold acquirePeerReplication_poll. destruct ctx; [done|]. by rewrite decide_True by (by left).
  - unfold replicateAllOnce_begin. by rewrite Hs.
  - unfold replicateToPeer_prepare. by rewrite decide_True by (by left).
  - unfold replicateToPeer_snapshotDone. by case_decide.
  - split; [|done]. unfold replicateToPeer_response. case_decide; [apply rest_becomeFollower|]. case_decide; [done|].
    destruct (aer_Success resp); [cbn [snd]; by rewrite rest_advanceCommit|by case_decide].
  - split; [|done]. unfold sendSnapshot_check. case_decide; [apply rest_becomeFollower|by case_decide].
  - unfold startElection. by rewrite decide_True by (by left).
  - unfold HandleRequestVote. by rewrite decide_True.
  - unfold becomeLeader. by rewrite decide_True by (by left).
  - split; [|done]. unfold stepDown. apply rest_becomeFollower.
Qed.

(** ** The sections of the goroutines *)

(** What a goroutine other than the apply loop does in one step: a section,
    or taking a token from a channel. *)
Inductive nmove (w : bool) n : Node → Prop :=
  | nm_refl : nmove w n n
  | nm_token b : nmove w n (with_replicateCh b n)
  | nm_op op : is_background op = true → op_ok op n → (w = false → writes_stopped op = false) → nmove w n (nrun op n).

Lemma nmove_inv w n n' pc : sys_inv (n, pc) → nmove w n n' → sys_inv (n', pc).
Proof.
  intros Hi [|b|op Hb Hok _]; [done| |].
  - apply (sys_inv_evolves n); [done|]. apply evolves_core; [apply Hi|done].
  - eapply sys_inv_step; [done|]. by constructor.
Qed.

Lemma nmove_rest w n n' : n.(stopped) = true → nmove w n n' → rest n' = rest n ∧ (w = false → n'.(store) = n.(store)).
Proof.
  intros Hs [|b|op Hb Hok Hw]; [done|done|]. destruct (stopped_op op n Hs Hb) as [Hr Hst]. split; [done|]. by intros ?%Hw%Hst.
Qed.

Definition is_reply (r : rpcResult) : bool := match r with RpcAppend _ | RpcChunk _ => true | _ => false end.

Lemma repl_step_move p r ctx pc n pc' ctx' n' : repl_step p r ctx pc n = Some (pc', ctx', n') → nmove (is_reply r) n n'.
Proof.
  destruct pc as [|a|a req|sd o|sd o|t i|], r as [| |resp|resp]; cbn [repl_step is_reply]; try done.
  - pose proof (nm_op false n (DoAcquire (bool_decide (ctx = 0)) p) eq_refl I (λ _, eq_refl)) as Hm. cbn [nrun] in Hm.
    destruct (acquirePeerReplication_poll _ p n) as [[[]|] n1]; intros; by simplify_eq.
  - pose proof (nm_op false n (DoReplPrepare p) eq_refl I (λ _, eq_refl)) as Hm. cbn [nrun] in Hm.
    destruct a, ctx; try (intros; simplify_eq; constructor).
    destruct (replicateToPeer_prepare p n) as [[] n1]; intros; by simplify_eq.
  - intros; simplify_eq; constructor.
  - pose proof (nm_op true n (DoReplResponse p req resp) eq_refl I) as Hm. cbn [nrun] in Hm.
    destruct ctx; [done|]. destruct (replicateToPeer_response p req resp n) as [[] n1]; intros; simplify_eq; by apply Hm.
  - intros; simplify_eq; constructor.
  - intros; simplify_eq; constructor.
  - pose proof (nm_op true n (DoSendCheck sd.(sa_term) resp) eq_refl I) as Hm. cbn [nrun] in Hm.
    destruct ctx; [done|]. destruct (sendSnapshot_check _ resp n) as [[] n1]; [|intros; simplify_eq; by apply Hm].
    destruct (sendSnapshot_next _ _ _ _) as [[]|]; intros; simplify_eq; by apply Hm.
  - intros; simplify_eq. by apply (nm_op false n (DoReplSnapshot p t i)).
  - intros; simplify_eq. by apply (nm_op false n (DoRelease p)).
Qed.

Lemma round_step_move p r rd n rd' n' : round_step p r rd n = Some (rd', n') → nmove (is_reply r) n n'.
Proof.
  unfold round_step. intros (pc & _ & ([[pc' ctx] n1] & E & [= <- <-])%bind_Some)%bind_Some. by eapply repl_step_move.
Qed.

Lemma nmove_any w n n' : nmove w n n' → nmove true n n'.
Proof. destruct 1; by constructor. Qed.

Lemma begin_move n : nmove false n (replicateAllOnce_begin n).2.
Proof. by apply (nm_op false n DoReplAll). Qed.

Lemma election_step_move stopCh ev pc n pc' n' : electionLoop_step stopCh ev pc n = Some (pc', n') → nmove true n n'.
Proof.
  destruct pc as [| | |t v [|k]|t|t| |rd|], ev as [[]|ctx|res| |p r]; cbn [electionLoop_step]; try done; try (intros; simplify_eq; by constructor).
  - destruct stopCh; intros; simplify_eq. constructor.
  - pose proof (nm_op true n DoStartElection eq_refl I) as Hm. cbn [nrun] in Hm.
    destruct (startElection n) as [[[]|] n1]; intros; simplify_eq; by apply Hm.
  - intros; simplify_eq. by apply (nm_op true n (DoStepDown t "")).
  - case_decide as Hd; [|done]. unfold becomeLeader at 1. case_decide as Hc; [intros; simplify_eq; constructor|].
    destruct Hd as [Hd|Hd]; [destruct Hc; by left|]. pose proof (nm_op true n (DoBecomeLeader t) eq_refl Hd) as Hm. cbn [nrun] in Hm.
    destruct (becomeLeader t n) as [[] n1] eqn:E; unfold becomeLeader in E; rewrite decide_False in E by done; rewrite E;
      intros; simplify_eq; by apply Hm.
  - pose proof (nmove_any _ _ _ (begin_move n)) as Hm. destruct (replicateAllOnce_begin n) as [[] n1]; intros; by simplify_eq.
  - case_decide; intros; simplify_eq. constructor.
  - intros ([rd1 n1] & E & [= <- <-])%bind_Some. eapply nmove_any. by eapply round_step_move.
Qed.

Lemma heartbeat_step_move stopCh ev pc n pc' n' : heartbeatLoop_step stopCh ev pc n = Some (pc', n') → nmove true n n'.
Proof.
  destruct pc as [| | | |rd|], ev as [[]|ctx|res| |p r]; cbn [heartbeatLoop_step]; try done; try (intros; simplify_eq; by constructor).
  - destruct stopCh; intros; simplify_eq. constructor.
  - destruct (replicateCh n); intros; simplify_eq. constructor.
  - pose proof (nmove_any _ _ _ (begin_move n)) as Hm. destruct (replicateAllOnce_begin n) as [[] n1]; intros; by simplify_eq.
  - case_decide; intros; simplify_eq. constructor.
  - intros ([rd1 n1] & E & [= <- <-])%bind_Some. eapply nmove_any. by eapply round_step_move.
Qed.

(** ** The apply loop *)

Definition loop_pc (pc : applyLoopPc) : apply_pc := match pc with LReady pc => pc | _ => AIdle end.

Lemma apply_step_inv stopCh ev pc n pc' n' : sys_inv (n, loop_pc pc) → applyLoop_step stopCh ev pc n = Some (pc', n') → sys_inv (n', loop_pc pc').
Proof.
  intros Hi. destruct pc as [| |[|e|e res|sn|sn|sn]|], ev as [[]|ctx|res'| |p r]; cbn [applyLoop_step]; try done.
  - destruct stopCh; intros; by simplify_eq.
  - intros; by simplify_eq.
  - destruct (applyCh n); intros; simplify_eq. apply (sys_inv_evolves n); [done|]. apply evolves_core; [apply Hi|done].
  - pose proof (sys_inv_step _ _ Hi (ss_next n)) as Hs. destruct (applyReady_next n) as [[] n1]; intros; by simplify_eq.
  - pose proof (sys_inv_step _ _ Hi (ss_apply n e)) as Hs. destruct (applyReady_apply e n) as [res n1]; intros; by simplify_eq.
  - pose proof (sys_inv_step _ _ Hi (ss_finish n e res)) as Hs. destruct (applyReady_finish e res n) as [[[]|] n1]; intros; by simplify_eq.
  - intros; simplify_eq. exact (sys_inv_step _ _ Hi (ss_check n' sn)).
  - pose proof (sys_inv_step _ _ Hi (ss_save n sn)) as Hs. destruct (persistSnapshot_save sn n) as [[] n1]; intros; by simplify_eq.
  - intros; simplify_eq. exact (sys_inv_step _ _ Hi (ss_compact n sn)).
Qed.

Lemma apply_step_stopped stopCh ev pc n pc' n' : applyLoop_step stopCh ev pc n = Some (pc', n') → n'.(stopped) = n.(stopped).
Proof.
  destruct pc as [| |[|e|e res|sn|sn|sn]|], ev as [[]|ctx|res'| |p r]; cbn [applyLoop_step]; try done; try (intros; by simplify_eq).
  - destruct stopCh; intros; by simplify_eq.
  - destruct (applyCh n); intros; by simplify_eq.
  - unfold applyReady_next. case_decide; [intros; by simplify_eq|]. case_decide; [intros; by simplify_eq|].
    destruct (entryAtLocked n _); intros; by simplify_eq.
  - unfold applyReady_apply. destruct (Apply _ _); intros; by simplify_eq.
  - unfold applyReady_finish. case_decide; [intros; by simplify_eq|]. destruct (if decide _ then _ else _); intros; by simplify_eq.
  - unfold persistSnapshot_save. destruct (SaveSnapshot _ _) as [[] st]; intros; by simplify_eq.
  - unfold persistSnapshot_finish. case_decide; [intros; by simplify_eq|]. destruct (ReplaceEntries _ _) as [[] st]; intros; by simplify_eq.
Qed.

(** ** Work *)

(** The steps that a goroutine of a round, a round and the loops can still
    take, when the loops do not turn again; every RPC uses up some of the
    context. *)
Definition repl_work (pc : replPc) : nat :=
  match pc with
  | PAcquire => 0
  | PTop attempts => 2 * attempts + 2
  | PAppend attempts _ => 2 * attempts + 3
  | PSend _ _ => 3
  | PChunk _ _ | PSnapDone _ _ => 2
  | PFinish => 1
  end.

Definition peers_work (m : gmap string replPc) : nat := map_fold (λ _ pc k, repl_work pc + k) 0 m.

Definition round_work (rd : round) : nat := 1 + 2 * rd.(ro_ctx) + peers_work rd.(ro_peers).

Definition election_work (pc : electionPc) : nat :=
  match pc with
  | EOff | EExit => 0
  | ESelect => 1
  | EElect | EDown _ | EBegin => 2
  | ELead _ => 3
  | EVotes _ _ k => 3 + k
  | ERound rd => 1 + round_work rd
  end.

Definition heartbeat_work (pc : heartbeatPc) : nat :=
  match pc with
  | HOff | HExit => 0
  | HSelect => 1
  | HCheck => 3
  | HBegin => 2
  | HRound rd => 1 + round_work rd
  end.

(** Each entry that is not applied yet may be committed, applied and
    followed by a snapshot. *)
Definition unapplied n : nat := N.to_nat (lastIndexLocked n - n.(lastApplied)).

Definition apply_work (pc : applyLoopPc) n : nat :=
  match pc with
  | LOff | LExit => 0
  | LSelect => 1
  | LReady pc =>
      7 * unapplied n +
      match pc with AIdle => 2 | AGot _ => 1 | AApplied _ _ => 0 | ASnap _ => 5 | AChecked _ => 4 | ASaved _ => 3 end
  end.

Definition work s : nat := election_work s.(pr_election) + heartbeat_work s.(pr_heartbeat) + apply_work s.(pr_apply) s.(pr_node).

Lemma peers_work_alter (m : gmap string replPc) p pc o : m !! p = Some pc →
  peers_work (partial_alter (λ _, o) p m) + repl_work pc = peers_work m + from_option repl_work 0 o.
Proof.
  intros Hp. unfold peers_work.
  assert (∀ x, map_fold (λ _ pc k, repl_work pc + k) 0 (<[p:=x]> (delete p m)) = repl_work x + map_fold (λ _ pc k, repl_work pc + k) 0 (delete p m)) as Hins.
  { intros x. apply (map_fold_insert_L (λ _ pc k, repl_work pc + k)); [intros; lia|apply lookup_delete_eq]. }
  rewrite <- (insert_delete_id m p pc Hp) at 2. rewrite Hins. destruct o as [x|]; cbn.
  - change (partial_alter (λ _, Some x) p m) with (<[p:=x]> m). rewrite <- insert_delete_eq, Hins. lia.
  - change (partial_alter (λ _, None) p m) with (delete p m). lia.
Qed.

(** The goroutines of the loops do not poll for their slots. *)
Definition unpolled (rd : round) : Prop := ∀ p, rd.(ro_peers) !! p ≠ Some PAcquire.

Lemma repl_step_work p r ctx pc n pc' ctx' n' : pc ≠ PAcquire → repl_step p r ctx pc n = Some (pc', ctx', n') →
  2 * ctx' + from_option repl_work 0 pc' < 2 * ctx + repl_work pc ∧ pc' ≠ Some PAcquire.
Proof.
  intros Hpc. destruct pc as [|a|a req|sd o|sd o|t i|], r as [| |resp|resp]; cbn [repl_step]; try done.
  - destruct a, ctx; try (intros; simplify_eq/=; split; [lia|done]).
    destruct (replicateToPeer_prepare p n) as [[] n1]; intros; simplify_eq/=; (split; [lia|done]).
  - intros; simplify_eq/=; split; [lia|done].
  - destruct ctx; [done|]. destruct (replicateToPeer_response p req resp n) as [[] n1]; intros; simplify_eq/=; (split; [lia|done]).
  - case_decide; intros; simplify_eq/=; (split; [lia|done]).
  - intros; simplify_eq/=; split; [lia|done].
  - destruct ctx; [done|]. destruct (sendSnapshot_check _ resp n) as [[] n1]; [|intros; simplify_eq/=; split; [lia|done]].
    destruct (sendSnapshot_next _ _ _ _) as [[]|]; intros; simplify_eq/=; (split; [lia|done]).
  - intros; simplify_eq/=; split; [lia|done].
  - intros; simplify_eq/=; split; [lia|done].
Qed.

Lemma round_step_work p r rd n rd' n' : unpolled rd → round_step p r rd n = Some (rd', n') → round_work rd' < round_work rd ∧ unpolled rd'.
Proof.
  intros Hu. unfold round_step. intros (pc & Hp & ([[pc' ctx] n1] & E & [= <- <-])%bind_Some)%bind_Some.
  apply repl_step_work in E as [Hw Hne]; [|intros ->; by apply (Hu p)]. unfold round_work; cbn [ro_ctx ro_peers].
  pose proof (peers_work_alter rd.(ro_peers) p pc pc' Hp). split; [lia|]. intros p'. cbn. destruct (decide (p' = p)) as [->|Hd].
  - by rewrite lookup_partial_alter_eq.
  - rewrite lookup_partial_alter_ne by done. apply Hu.
Qed.

Lemma unpolled_new ctx k peers : unpolled (newRound ctx (PTop k) peers).
Proof.
  intros p Hp. cbn in Hp. apply elem_of_list_to_map_2, list_elem_of_fmap in Hp as (? & ? & _). by simplify_eq.
Qed.

(** Taking another turn. *)
Definition is_turn (ev : loopEvent) : bool := match ev with EvWake OnTick | EvWake OnToken => true | _ => false end.

Definition election_unpolled (pc : electionPc) : Prop := match pc with ERound rd => unpolled rd | _ => True end.
Definition heartbeat_unpolled (pc : heartbeatPc) : Prop := match pc with HRound rd => unpolled rd | _ => True end.

Lemma election_step_unpolled stopCh ev pc n pc' n' : election_unpolled pc → electionLoop_step stopCh ev pc n = Some (pc', n') → election_unpolled pc'.
Proof.
  intros Hu. destruct pc as [| | |t v [|k]|t|t| |rd|], ev as [[]|ctx|res| |p r]; cbn [electionLoop_step]; try done; try (intros; by simplify_eq).
  - destruct stopCh; intros; by simplify_eq.
  - intros; simplify_eq. by destruct (electionTick n').
  - destruct (startElection n) as [[[]|] n1]; intros; simplify_eq; [by case_decide|done].
  - intros; simplify_eq. by destruct (collectVote _ _ _ _).
  - case_decide; [|done]. destruct (becomeLeader t n) as [[] n1]; intros; by simplify_eq.
  - destruct (replicateAllOnce_begin n) as [[] n1]; intros; simplify_eq; [apply unpolled_new|done].
  - case_decide; intros; by simplify_eq.
  - intros ([rd1 n1] & E & [= <- <-])%bind_Some. by apply round_step_work in E as [_ ?].
Qed.

Lemma heartbeat_step_unpolled stopCh ev pc n pc' n' : heartbeat_unpolled pc → heartbeatLoop_step stopCh ev pc n = Some (pc', n') → heartbeat_unpolled pc'.
Proof.
  intros Hu. destruct pc as [| | | |rd|], ev as [[]|ctx|res| |p r]; cbn [heartbeatLoop_step]; try done; try (intros; by simplify_eq).
  - destruct stopCh; intros; by simplify_eq.
  - destruct (replicateCh n); intros; by simplify_eq.
  - intros; simplify_eq. by destruct (isLeader n').
  - destruct (replicateAllOnce_begin n) as [[] n1]; intros; simplify_eq; [apply unpolled_new|done].
  - case_decide; intros; by simplify_eq.
  - intros ([rd1 n1] & E & [= <- <-])%bind_Some. by apply round_step_work in E as [_ ?].
Qed.

Lemma election_step_work stopCh ev pc n pc' n' : n.(stopped) = true → election_unpolled pc → is_turn ev = false →
  electionLoop_step stopCh ev pc n = Some (pc', n') → election_work pc' < election_work pc.
Proof.
  intros Hs Hu Ht. destruct pc as [| | |t v [|k]|t|t| |rd|], ev as [[]|ctx|res| |p r]; cbn [electionLoop_step]; try done; try (intros; simplify_eq/=; lia).
  - destruct stopCh; intros; simplify_eq/=; lia.
  - unfold startElection. rewrite decide_True by (by left). intros; simplify_eq/=; lia.
  - intros; simplify_eq. destruct (collectVote _ _ _ _); cbn; lia.
  - rewrite decide_True by (by left). unfold becomeLeader. rewrite decide_True by (by left). intros; simplify_eq/=; lia.
  - unfold replicateAllOnce_begin. rewrite Hs. intros; simplify_eq/=; lia.
  - case_decide; intros; simplify_eq/=; unfold round_work; lia.
  - intros ([rd1 n1] & E & [= <- <-])%bind_Some. apply round_step_work in E as [? _]; [cbn [election_work]; lia|done].
Qed.

Lemma heartbeat_step_work stopCh ev pc n pc' n' : n.(stopped) = true → heartbeat_unpolled pc → is_turn ev = false →
  heartbeatLoop_step stopCh ev pc n = Some (pc', n') → heartbeat_work pc' < heartbeat_work pc.
Proof.
  intros Hs Hu Ht. destruct pc as [| | | |rd|], ev as [[]|ctx|res| |p r]; cbn [heartbeatLoop_step]; try done; try (intros; simplify_eq/=; lia).
  - destruct stopCh; intros; simplify_eq/=; lia.
  - intros; simplify_eq. destruct (isLeader n'); cbn; lia.
  - unfold replicateAllOnce_begin. rewrite Hs. intros; simplify_eq/=; lia.
  - case_decide; intros; simplify_eq/=; unfold round_work; lia.
  - intros ([rd1 n1] & E & [= <- <-])%bind_Some. apply round_step_work in E as [? _]; [cbn [heartbeat_work]; lia|done].
Qed.

Lemma unapplied_rest n n' : rest n' = rest n → unapplied n' = unapplied n.
Proof. unfold rest, unapplied, lastIndexLocked. intros [= Hs Hl Ha _ _]. by rewrite Hs, Hl, Ha. Qed.

Lemma compact_unapplied sn n : node_wf n → unapplied (persistSnapshot_finish sn n) = unapplied n.
Proof.
  intros Hwf. unfold persistSnapshot_finish. case_decide as Hst; [done|]. destruct (ReplaceEntries _ _) as [[e|] st]; [done|].
  unfold unapplied. f_equal. f_equal. apply (compact_last n sn Hwf Hst).
Qed.

Lemma apply_step_work stopCh ev pc n pc' n' : sys_inv (n, loop_pc pc) → is_turn ev = false →
  applyLoop_step stopCh ev pc n = Some (pc', n') → apply_work pc' n' < apply_work pc n.
Proof.
  intros Hi Ht. destruct pc as [| |[|e|e res|sn|sn|sn]|], ev as [[]|ctx|res'| |p r]; cbn [applyLoop_step]; try done; pose proof Hi as [Hwf Hpc]; cbn in Hpc.
  - destruct stopCh; intros; simplify_eq/=; lia.
  - destruct (applyReady_next_wf n Hwf) as (Hn & Ha & _). destruct (applyReady_next n) as [[] n1]; cbn in *; intros; simplify_eq/=; lia.
  - unfold applyReady_apply. destruct (Apply _ _). intros; simplify_eq/=. unfold unapplied, lastIndexLocked. cbn. lia.
  - destruct Hpc as (_ & _ & He & Hc). destruct (finish_records n e res Hwf He Hc) as (Hn & Hcore & Hidx & _). destruct Hwf.
    destruct (applyReady_finish e res n) as [[o|] n1]; [|done]. cbn in Hcore. unfold core in Hcore. injection Hcore as Hs Hl Hci Hla Hsm.
    assert (S (unapplied n1) = unapplied n) as Hu by (unfold unapplied, lastIndexLocked in *; rewrite Hs, Hl, Hla, Hidx; lia).
    destruct o; intros; simplify_eq/=; lia.
  - case_decide; intros; simplify_eq/=; unfold round_work; lia.
  - unfold persistSnapshot_save. destruct (SaveSnapshot _ _) as [[] st]; intros; simplify_eq/=; unfold unapplied, lastIndexLocked; cbn; lia.
  - intros; simplify_eq/=. rewrite compact_unapplied by done. lia.
Qed.

(** ** The invariant of the process *)

Definition election_alive (pc : electionPc) : nat := match pc with EOff | EExit => 0 | _ => 1 end.
Definition heartbeat_alive (pc : heartbeatPc) : nat := match pc with HOff | HExit => 0 | _ => 1 end.
Definition apply_alive (pc : applyLoopPc) : nat := match pc with LOff | LExit => 0 | _ => 1 end.

Record pinv s : Prop := {
  pi_sys : sys_inv (s.(pr_node), proc_pc s);
  pi_loops : s.(pr_loops) = election_alive s.(pr_election) + heartbeat_alive s.(pr_heartbeat) + apply_alive s.(pr_apply);
  pi_started : (s.(pr_election) = EOff ↔ s.(pr_apply) = LOff) ∧ (s.(pr_heartbeat) = HOff ↔ s.(pr_apply) = LOff);
  pi_election : election_unpolled s.(pr_election);
  pi_heartbeat : heartbeat_unpolled s.(pr_heartbeat);
  pi_once : s.(pr_once) ≠ OnceFresh → s.(pr_node).(stopped) = true;
  pi_closed : s.(pr_stopCh) = true ↔ s.(pr_once) = OnceDone;
  pi_wait : ∀ c, s.(pr_stops) !! c = Some SWait → s.(pr_stopCh) = true;
  pi_close : ∀ c, s.(pr_stops) !! c = Some SClose → s.(pr_once) = OnceRunning c }.

Lemma pinv_stopped s : pinv s → s.(pr_stopCh) = true → s.(pr_node).(stopped) = true.
Proof. intros Hi Hc. apply (pi_once _ Hi). by rewrite (proj1 (pi_closed _ Hi) Hc). Qed.

Lemma election_step_alive stopCh ev pc n pc' n' : electionLoop_step stopCh ev pc n = Some (pc', n') →
  election_alive pc = 1 ∧ pc ≠ EOff ∧ pc' ≠ EOff.
Proof.
  destruct pc as [| | |t v [|k]|t|t| |rd|], ev as [[]|ctx|res| |p r]; cbn [electionLoop_step]; try done; try (intros; by simplify_eq).
  - destruct stopCh; intros; by simplify_eq.
  - destruct (electionTick n); intros; by simplify_eq.
  - destruct (startElection n) as [[[]|] n1]; intros; simplify_eq; [by case_decide|done].
  - destruct (collectVote _ _ _ _); intros; by simplify_eq.
  - case_decide; [|done]. destruct (becomeLeader t n) as [[] n1]; intros; by simplify_eq.
  - destruct (replicateAllOnce_begin n) as [[] n1]; intros; by simplify_eq.
  - case_decide; intros; by simplify_eq.
  - by intros ([rd1 n1] & E & [= <- <-])%bind_Some.
Qed.

Lemma heartbeat_step_alive stopCh ev pc n pc' n' : heartbeatLoop_step stopCh ev pc n = Some (pc', n') →
  heartbeat_alive pc = 1 ∧ pc ≠ HOff ∧ pc' ≠ HOff.
Proof.
  destruct pc as [| | | |rd|], ev as [[]|ctx|res| |p r]; cbn [heartbeatLoop_step]; try done; try (intros; by simplify_eq).
  - destruct stopCh; intros; by simplify_eq.
  - destruct (replicateCh n); intros; by simplify_eq.
  - destruct (isLeader n); intros; by simplify_eq.
  - destruct (replicateAllOnce_begin n) as [[] n1]; intros; by simplify_eq.
  - case_decide; intros; by simplify_eq.
  - by intros ([rd1 n1] & E & [= <- <-])%bind_Some.
Qed.

Lemma apply_step_alive stopCh ev pc n pc' n' : applyLoop_step stopCh ev pc n = Some (pc', n') →
  apply_alive pc = 1 ∧ pc ≠ LOff ∧ pc' ≠ LOff.
Proof.
  destruct pc as [| |[|e|e res|sn|sn|sn]|], ev as [[]|ctx|res'| |p r]; cbn [applyLoop_step]; try done; try (intros; by simplify_eq).
  - destruct stopCh; intros; by simplify_eq.
  - destruct (applyCh n); intros; by simplify_eq.
  - destruct (applyReady_next n) as [[] n1]; intros; by simplify_eq.
  - destruct (applyReady_apply e n) as [res n1]; intros; by simplify_eq.
  - destruct (applyReady_finish e res n) as [[[]|] n1]; intros; by simplify_eq.
  - destruct (persistSnapshot_save sn n) as [[] n1]; intros; by simplify_eq.
Qed.

(** Another node, with the same stop flag. *)
Lemma nmove_stopped w n n' : nmove w n n' → n.(stopped) = true → n'.(stopped) = true.
Proof. intros Hm Hs. destruct (nmove_rest _ _ _ Hs Hm) as [Hr _]. unfold rest in Hr. injection Hr as _ _ _ _ Hr. congruence. Qed.

Lemma pinv_other op s : pinv s → is_other op = true → other_allowed op s = true → op_ok op s.(pr_node) →
  pinv (with_proc_node (nrun op s.(pr_node)) s).
Proof.
  intros [] Ho Ha Hok.
  assert (sys_inv (nrun op s.(pr_node), proc_pc s) ∧ (s.(pr_node).(stopped) = true → (nrun op s.(pr_node)).(stopped) = true)) as [Hs Hst].
  { assert (is_background op = true → sys_inv (nrun op s.(pr_node), proc_pc s) ∧ (s.(pr_node).(stopped) = true → (nrun op s.(pr_node)).(stopped) = true)) as Hb.
    { intros Hb. pose proof (nm_op true s.(pr_node) op Hb Hok ltac:(done)) as Hm. split; [by eapply nmove_inv|by eapply nmove_stopped]. }
    destruct op as [| | | |req body| | | | | | | | | | | | | | | | | |]; try discriminate Ho; try (by apply Hb). split.
    - eapply sys_inv_step; [exact pi_sys0|]. by apply ss_install.
    - intros Hs. cbn [nrun]. by rewrite stopped_final. }
  split; cbn; try done. intros Hf. by apply Hst, pi_once0.
Qed.

(** The sections of [Stop]. *)
Lemma pinv_stop a s s' : match a with PStop _ | PStopClose _ | PStopReturn _ => True | _ => False end →
  pinv s → pperform a s = Some s' → pinv s'.
Proof.
  intros Ha []. destruct a as [|c|c|c| | | | | |]; try done; cbn [pperform].
  - unfold Stop_begin. case_decide as Hn; [|done]. destruct (pr_once s) as [|c'|] eqn:Eo; [|done|]; intros [= <-].
    + split; cbn; try done.
      * exact (nmove_inv true _ _ _ pi_sys0 (nm_op true s.(pr_node) DoStop eq_refl I ltac:(done))).
      * intros _. unfold Stop. destruct (stopped (pr_node s)) eqn:E; [exact E|done].
      * split; [|done]. intros Hc. by apply pi_closed0 in Hc.
      * intros d [[_ ?]|[_ Hd]]%lookup_insert_Some; [done|by eapply pi_wait0].
      * intros d [[-> _]|[_ Hd]]%lookup_insert_Some; [done|]. by apply pi_close0 in Hd.
    + split; cbn; try done.
      * intros d [_|[_ Hd]]%lookup_insert_Some; [by apply pi_closed0|by eapply pi_wait0].
      * intros d [[_ ?]|[_ Hd]]%lookup_insert_Some; [done|]. by apply pi_close0 in Hd.
  - unfold Stop_close. destruct (pr_stops s !! c) as [[]|] eqn:Ec; try done. intros [= <-]. pose proof (pi_close0 _ Ec) as Ho. split; cbn; try done.
    + intros _. apply pi_once0. by rewrite Ho.
    + intros d [[_ ?]|[Hne Hd]]%lookup_insert_Some; [done|]. apply pi_close0 in Hd. congruence.
  - unfold Stop_return. destruct (pr_stops s !! c) as [[]|] eqn:Ec; try done. case_decide; [|done]. intros [= <-]. split; cbn; try done.
    + intros d [[_ ?]|[_ Hd]]%lookup_insert_Some; [done|by eapply pi_wait0].
    + intros d [[_ ?]|[_ Hd]]%lookup_insert_Some; [done|by apply pi_close0].
Qed.

Lemma pinv_step a s s' : pinv s → pperform a s = Some s' → pinv s'.
Proof.
  intros Hi. pose proof Hi as []. destruct a as [|c|c|c|op|b ctx|b p r|ev|ev|ev]; cbn [pperform].
  - unfold Start. destruct (pr_election s) eqn:Ee; [|done..]. destruct pi_started0 as [[Hea _] [_ Hha]]. specialize (Hea eq_refl). specialize (Hha Hea).
    intros [= <-]. rewrite Hea, Hha in pi_loops0. cbn in pi_loops0. unfold proc_pc in pi_sys0. rewrite Hea in pi_sys0.
    split; cbn; try done; lia.
  - by apply (pinv_stop (PStop c)).
  - by apply (pinv_stop (PStopClose c)).
  - by apply (pinv_stop (PStopReturn c)).
  - case_decide as Hd; [|done]. destruct Hd as (Ho & Ha & Hok). intros [= <-]. by apply pinv_other.
  - unfold barrier_start. case_decide; [|done]. destruct (ensureQuorum_begin _); [|done]. intros [= <-]. by split.
  - unfold barrier_step. intros (rd & _ & ([rd' n'] & E & [= <-])%bind_Some)%bind_Some. apply round_step_move in E. split; cbn; try done.
    + by eapply nmove_inv.
    + intros Hf. by eapply nmove_stopped, pi_once0.
  - unfold election_move. intros ([pc' n'] & E & [= <-])%bind_Some. destruct (election_step_alive _ _ _ _ _ _ E) as (Hal & Hne & Hne').
    pose proof (election_step_unpolled _ _ _ _ _ _ pi_election0 E). apply election_step_move in E. split; cbn; try done.
    + by eapply nmove_inv.
    + rewrite Hal in pi_loops0. destruct pc'; cbn; try done; lia.
    + destruct pi_started0 as [[? ?] ?]. split; [|done]. split; [done|]. intros Hl. by destruct Hne; auto.
    + intros Hf. by eapply nmove_stopped, pi_once0.
  - unfold heartbeat_move. intros ([pc' n'] & E & [= <-])%bind_Some. destruct (heartbeat_step_alive _ _ _ _ _ _ E) as (Hal & Hne & Hne').
    pose proof (heartbeat_step_unpolled _ _ _ _ _ _ pi_heartbeat0 E). apply heartbeat_step_move in E. split; cbn; try done.
    + by eapply nmove_inv.
    + rewrite Hal in pi_loops0. destruct pc'; cbn; try done; lia.
    + destruct pi_started0 as [? [? ?]]. split; [done|]. split; [done|]. intros Hl. by destruct Hne; auto.
    + intros Hf. by eapply nmove_stopped, pi_once0.
  - unfold apply_move. intros ([pc' n'] & E & [= <-])%bind_Some. destruct (apply_step_alive _ _ _ _ _ _ E) as (Hal & Hne & Hne').
    pose proof (apply_step_stopped _ _ _ _ _ _ E) as Hst. apply apply_step_inv in E; [|exact pi_sys0]. split; cbn; try done.
    + rewrite Hal in pi_loops0. destruct pc'; cbn; try done; lia.
    + destruct pi_started0 as [[? ?] [? ?]]. split; (split; [|done]); intros Hl; destruct Hne; auto.
    + intros Hf. rewrite Hst. by apply pi_once0.
Qed.

Lemma pinv_new n : sys_inv (n, AIdle) → pinv (newProc n).
Proof. intros Hi. by split. Qed.

Lemma prun_app (acts acts' : list paction) s : prun (acts ++ acts') s = prun acts s ≫= prun acts'.
Proof. revert s. induction acts as [|a acts IH]; intros s; [done|]. cbn. destruct (pperform a s); cbn; [apply IH|done]. Qed.

(** A property that every step keeps. *)
Lemma prun_inv (P : proc → Prop) (acts : list paction) s s' :
  (∀ a s1 s2, a ∈ acts → P s1 → pperform a s1 = Some s2 → P s2) → P s → prun acts s = Some s' → P s'.
Proof.
  revert s. induction acts as [|a acts IH]; intros s Hst Hs; cbn; [by intros [= <-]|].
  intros (s1 & Ha & Hr)%bind_Some. eapply IH; [|eapply Hst; [constructor|exact Hs|done]|done]. intros b s2 s3 Hb. apply Hst. by constructor.
Qed.

Lemma reachable_pinv s : proc_reachable s → pinv s.
Proof.
  intros (cfg & st & m & rng0 & now0 & n & acts & Hcs & Hn & Hr). eapply prun_inv; [|apply pinv_new; by eapply NewNode_inv|exact Hr].
  intros a s1 s2 _. apply pinv_step.
Qed.

(** ** Loops at work *)

Definition is_loop (a : paction) : bool := match a with PElection _ | PHeartbeat _ | PApply _ => true | _ => false end.
Definition turns (a : paction) : bool := match a with PElection ev | PHeartbeat ev | PApply ev => is_turn ev | _ => false end.

(** [Start] has been called. *)
Definition started s : Prop := s.(pr_apply) ≠ LOff.

Lemma apply_work_rest pc n n' : rest n' = rest n → apply_work pc n' = apply_work pc n.
Proof. intros Hr. destruct pc; cbn; try done. by rewrite (unapplied_rest n n' Hr). Qed.

Lemma other_rest op n : n.(stopped) = true → is_other op = true → rest (nrun op n) = rest n ∧ (nrun op n).(store) = n.(store).
Proof.
  intros Hs Ho. destruct (decide (is_background op = true)) as [Hb|Hb].
  - destruct (stopped_op op n Hs Hb) as [Hr Hst]. split; [done|]. apply Hst. by destruct op.
  - destruct op as [| | | |req body| | | | | | | | | | | | | | | | | |]; try discriminate Ho; try (by destruct Hb). cbn [nrun]. by rewrite stopped_final.
Qed.

Lemma work_step a s s' : pinv s → started s → s.(pr_stopCh) = true → turns a = false → pperform a s = Some s' →
  (if is_loop a then 1 else 0) + work s' ≤ work s ∧ started s' ∧ s'.(pr_stopCh) = true.
Proof.
  intros Hi Hst Hc Ht. pose proof (pinv_stopped _ Hi Hc) as Hs. pose proof Hi as [Hsys _ [Hel _] Hue Huh _ _ _ _]. unfold started, work in *.
  destruct a as [|c|c|c|op|b ctx|b p r|ev|ev|ev]; cbn [pperform is_loop turns] in *.
  - unfold Start. destruct (pr_election s); try done. destruct Hst. by apply Hel.
  - unfold Stop_begin. case_decide; [|done]. destruct (pr_once s); [|done|]; intros [= <-]; cbn; [|split; [lia|done]].
    unfold Stop. rewrite Hs. split; [lia|done].
  - unfold Stop_close. destruct (pr_stops s !! c) as [[]|]; try done. intros [= <-]. cbn. split; [lia|done].
  - unfold Stop_return. destruct (pr_stops s !! c) as [[]|]; try done. case_decide; [|done]. intros [= <-]. cbn. split; [lia|done].
  - case_decide as Hd; [|done]. intros [= <-]. cbn. rewrite (apply_work_rest _ s.(pr_node)); [split; [lia|done]|]. exact (proj1 (other_rest op _ Hs (proj1 Hd))).
  - unfold barrier_start. case_decide; [|done]. destruct (ensureQuorum_begin _); [|done]. intros [= <-]. cbn. split; [lia|done].
  - unfold barrier_step. intros (rd & _ & ([rd' n'] & E & [= <-])%bind_Some)%bind_Some. apply round_step_move in E. cbn.
    rewrite (apply_work_rest _ s.(pr_node)); [split; [lia|done]|]. by eapply nmove_rest.
  - unfold election_move. intros ([pc' n'] & E & [= <-])%bind_Some. pose proof (election_step_work _ _ _ _ _ _ Hs Hue Ht E).
    apply election_step_move in E. cbn [pr_election pr_heartbeat pr_apply pr_node pr_stopCh].
    rewrite (apply_work_rest _ s.(pr_node)); [split; [lia|done]|]. by eapply nmove_rest.
  - unfold heartbeat_move. intros ([pc' n'] & E & [= <-])%bind_Some. pose proof (heartbeat_step_work _ _ _ _ _ _ Hs Huh Ht E).
    apply heartbeat_step_move in E. cbn [pr_election pr_heartbeat pr_apply pr_node pr_stopCh].
    rewrite (apply_work_rest _ s.(pr_node)); [split; [lia|done]|]. by eapply nmove_rest.
  - unfold apply_move. intros ([pc' n'] & E & [= <-])%bind_Some. pose proof (apply_step_work _ _ _ _ _ _ Hsys Ht E).
    pose proof (apply_step_alive _ _ _ _ _ _ E) as (_ & _ & ?). cbn [pr_election pr_heartbeat pr_apply pr_node pr_stopCh]. split; [lia|done].
Qed.

Lemma work_run (acts : list paction) s s' : pinv s → started s → s.(pr_stopCh) = true → Forall (λ a, turns a = false) acts →
  prun acts s = Some s' → length (filter (λ a, is_loop a = true) acts) + work s' ≤ work s ∧ pinv s' ∧ s'.(pr_stopCh) = true.
Proof.
  revert s. induction acts as [|a acts IH]; intros s Hi Hst Hc Hf; cbn [prun]; [intros [= <-]; split; [cbn; lia|done]|].
  inversion Hf as [|? ? Ht Hf']; subst. intros (s1 & Ha & Hr)%bind_Some. destruct (work_step a s s1 Hi Hst Hc Ht Ha) as (Hw & Hst1 & Hc1).
  destruct (IH s1 (pinv_step _ _ _ Hi Ha) Hst1 Hc1 Hf' Hr) as (Hw' & Hi' & Hc'). split; [|done].
  destruct (is_loop a) eqn:El; [rewrite filter_cons_True by done|rewrite filter_cons_False by congruence]; cbn; lia.
Qed.

(** ** A loop can always move *)

Lemma repl_enabled p ctx pc n : ∃ r, is_reply r = false ∧ is_Some (repl_step p r ctx pc n).
Proof.
  destruct pc as [|a|a req|sd o|sd o|t i|]; [exists NoRpc|exists NoRpc|exists RpcError|exists NoRpc|exists RpcError|exists NoRpc|exists NoRpc];
    (split; [done|]); cbn [repl_step]; try by eexists.
  - destruct (acquirePeerReplication_poll _ p n) as [[[]|] ?]; by eexists.
  - destruct a, ctx; try by eexists. destruct (replicateToPeer_prepare p n) as [[] ?]; by eexists.
Qed.

Lemma round_enabled rd n : rd.(ro_peers) ≠ ∅ → ∃ p r, is_Some (round_step p r rd n).
Proof.
  intros (p & pc & Hp)%map_choose. destruct (repl_enabled p rd.(ro_ctx) pc n) as (r & _ & [[[pc' ctx'] n'] Hs]).
  exists p, r. unfold round_step. rewrite Hp. cbn. rewrite Hs. cbn. by eexists.
Qed.

Lemma election_enabled pc n : n.(stopped) = true → election_alive pc = 1 → ∃ ev, is_turn ev = false ∧ is_Some (electionLoop_step true ev pc n).
Proof.
  intros Hs Ha. destruct pc as [| | |t v [|k]|t|t| |rd|]; try discriminate Ha.
  - exists (EvWake OnStop). by split; [|eexists].
  - exists (EvRun 0). split; [done|]. cbn. destruct (startElection n) as [[[]|] ?]; by eexists.
  - exists (EvRun 0). by split; [|eexists].
  - exists EvCtxDone. by split; [|eexists].
  - exists (EvRun 0). by split; [|eexists].
  - exists (EvRun 0). split; [done|]. cbn [electionLoop_step]. rewrite decide_True by (by left). destruct (becomeLeader t n) as [[] ?]; by eexists.
  - exists (EvRun 0). split; [done|]. cbn. destruct (replicateAllOnce_begin n) as [[] ?]; by eexists.
  - destruct (decide (rd.(ro_peers) = ∅)) as [He|He].
    + exists (EvRun 0). split; [done|]. cbn. rewrite decide_True by done. by eexists.
    + destruct (round_enabled rd n He) as (p & r & [[rd' n'] Hr]). exists (EvRepl p r). split; [done|]. cbn. rewrite Hr. by eexists.
Qed.

Lemma heartbeat_enabled pc n : heartbeat_alive pc = 1 → ∃ ev, is_turn ev = false ∧ is_Some (heartbeatLoop_step true ev pc n).
Proof.
  intros Ha. destruct pc as [| | | |rd|]; try discriminate Ha.
  - exists (EvWake OnStop). by split; [|eexists].
  - exists (EvRun 0). by split; [|eexists].
  - exists (EvRun 0). split; [done|]. cbn. destruct (replicateAllOnce_begin n) as [[] ?]; by eexists.
  - destruct (decide (rd.(ro_peers) = ∅)) as [He|He].
    + exists (EvRun 0). split; [done|]. cbn. rewrite decide_True by done. by eexists.
    + destruct (round_enabled rd n He) as (p & r & [[rd' n'] Hr]). exists (EvRepl p r). split; [done|]. cbn. rewrite Hr. by eexists.
Qed.

Lemma apply_enabled pc n : apply_alive pc = 1 → ∃ ev, is_turn ev = false ∧ is_Some (applyLoop_step true ev pc n).
Proof.
  intros Ha. destruct pc as [| |pc|]; try discriminate Ha; [exists (EvWake OnStop); by split; [|eexists]|].
  exists (EvRun 0). split; [done|]. destruct pc as [|e|e res|sn|sn|sn]; cbn [applyLoop_step]; try by eexists.
  - destruct (applyReady_next n) as [[] ?]; by eexists.
  - destruct (applyReady_apply e n); by eexists.
  - destruct (applyReady_finish e res n) as [[[]|] ?]; by eexists.
  - destruct (persistSnapshot_save sn n) as [[] ?]; by eexists.
Qed.

Lemma loops_enabled s : pinv s → s.(pr_stopCh) = true → s.(pr_loops) ≠ 0 → ∃ a, is_loop a = true ∧ turns a = false ∧ is_Some (pperform a s).
Proof.
  intros Hi Hc Hl. pose proof (pinv_stopped _ Hi Hc) as Hs. rewrite (pi_loops _ Hi) in Hl.
  assert (election_alive s.(pr_election) = 1 ∨ heartbeat_alive s.(pr_heartbeat) = 1 ∨ apply_alive s.(pr_apply) = 1) as [Ha|[Ha|Ha]].
  { destruct (pr_election s), (pr_heartbeat s), (pr_apply s); cbn in *; tauto || lia. }
  - destruct (election_enabled _ _ Hs Ha) as (ev & Ht & [[pc' n'] He]). exists (PElection ev). split_and!; [done|done|].
    cbn. unfold election_move. rewrite Hc, He. by eexists.
  - destruct (heartbeat_enabled _ s.(pr_node) Ha) as (ev & Ht & [[pc' n'] He]). exists (PHeartbeat ev). split_and!; [done|done|].
    cbn. unfold heartbeat_move. rewrite Hc, He. by eexists.
  - destruct (apply_enabled _ s.(pr_node) Ha) as (ev & Ht & [[pc' n'] He]). exists (PApply ev). split_and!; [done|done|].
    cbn. unfold apply_move. rewrite Hc, He. by eexists.
Qed.

(** ** Properties *)

(** C22. [Stop] returns.  Once the stop channel of a running node is closed,
    the loops take at most [work] more steps unless a [select] prefers its
    ticker to the stop channel, whatever handlers, proposals, reads, RPCs and
    the store do in between; and while a call of [Stop] waits, the call can
    return or one of the loops can move, so that nothing blocks. *)
Theorem stop_returns s s' (acts : list paction) :
  proc_reachable s → started s → s.(pr_stopCh) = true →
  Forall (λ a, turns a = false) acts → prun acts s = Some s' →
  length (filter (λ a, is_loop a = true) acts) + work s' ≤ work s ∧
  ∀ c, s'.(pr_stops) !! c = Some SWait →
    is_Some (pperform (PStopReturn c) s') ∨
    ∃ a, is_loop a = true ∧ turns a = false ∧ is_Some (pperform a s').
Proof.
  intros Hr%reachable_pinv Hst Hc Hf Hrun. destruct (work_run acts s s' Hr Hst Hc Hf Hrun) as (Hw & Hi' & Hc'). split; [done|].
  intros c Hw'. destruct (decide (s'.(pr_loops) = 0)) as [Hz|Hz]; [left|right; by apply loops_enabled].
  cbn. unfold Stop_return. rewrite Hw', decide_True by done. by eexists.
Qed.

(** A reply that a goroutine of a read barrier handles. *)
Definition late_reply (a : paction) : bool := match a with PBarrierRun _ _ r => is_reply r | _ => false end.

Definition exited s : Prop :=
  s.(pr_election) = EExit ∧ s.(pr_heartbeat) = HExit ∧ s.(pr_apply) = LExit ∧ s.(pr_node).(stopped) = true.

Lemma exited_step a s s' : exited s → pperform a s = Some s' →
  exited s' ∧ rest s'.(pr_node) = rest s.(pr_node) ∧ (late_reply a = false → s'.(pr_node).(store) = s.(pr_node).(store)).
Proof.
  intros (He & Hh & Ha & Hs). unfold exited. destruct a as [|c|c|c|op|b ctx|b p r|ev|ev|ev]; cbn [pperform late_reply].
  - unfold Start. by rewrite He.
  - unfold Stop_begin. case_decide; [|done]. destruct (pr_once s); [|done|]; intros [= <-]; cbn; [|done]. unfold Stop. by rewrite Hs.
  - unfold Stop_close. destruct (pr_stops s !! c) as [[]|]; try done. by intros [= <-].
  - unfold Stop_return. destruct (pr_stops s !! c) as [[]|]; try done. case_decide; [|done]. by intros [= <-].
  - case_decide as Hd; [|done]. destruct Hd as (Ho & _). intros [= <-]. cbn. destruct (other_rest op _ Hs Ho) as [Hr Hst]. split_and!; try done.
    unfold rest in Hr. injection Hr as _ _ _ _ Hr. congruence.
  - unfold barrier_start. case_decide; [|done]. destruct (ensureQuorum_begin _); [|done]. by intros [= <-].
  - unfold barrier_step. intros (rd & _ & ([rd' n'] & E & [= <-])%bind_Some)%bind_Some. apply round_step_move in E. cbn.
    pose proof (nmove_stopped _ _ _ E Hs). destruct (nmove_rest _ _ _ Hs E) as [Hr Hst]. by split_and!.
  - unfold election_move. rewrite He. by destruct ev as [[]| | | |].
  - unfold heartbeat_move. rewrite Hh. by destruct ev as [[]| | | |].
  - unfold apply_move. rewrite Ha. by destruct ev as [[]| | | |].
Qed.

(** At the return of [Stop] the loops have returned. *)
Lemma returned_exited c s s1 : pinv s → started s → pperform (PStopReturn c) s = Some s1 → exited s1 ∧ s1.(pr_node) = s.(pr_node).
Proof.
  intros Hi Hst. cbn. unfold Stop_return. destruct (pr_stops s !! c) as [[]|] eqn:Ec; try done. case_decide as Hz; [|done].
  intros [= <-]. rewrite (pi_loops _ Hi) in Hz. pose proof (pinv_stopped _ Hi (pi_wait _ Hi _ Ec)) as Hs.
  destruct (pi_started _ Hi) as [[Hel _] [Hhl _]]. unfold started in Hst. unfold exited. cbn.
  destruct (pr_election s), (pr_heartbeat s), (pr_apply s); cbn in Hz; try lia; try done; by (destruct Hst; auto).
Qed.

(** C23. After [Stop] nothing runs.  When a call of [Stop] of a running node
    returns, the three loops have returned; from then on, whatever arrives,
    the log, the snapshot, the state machine and [lastApplied] stay as they
    are, and so does the data directory, unless a goroutine of a read barrier
    handles the reply of a peer. *)
Theorem stop_quiesces c s s1 s' (acts : list paction) :
  proc_reachable s → started s → pperform (PStopReturn c) s = Some s1 → prun acts s1 = Some s' →
  exited s' ∧ rest s'.(pr_node) = rest s.(pr_node) ∧
  (Forall (λ a, late_reply a = false) acts → s'.(pr_node).(store) = s.(pr_node).(store)).
Proof.
  intros Hi%reachable_pinv Hst Hret. destruct (returned_exited c s s1 Hi Hst Hret) as [Hex Hn].
  apply (prun_inv (λ x, exited x ∧ rest x.(pr_node) = rest s.(pr_node) ∧ (Forall (λ a, late_reply a = false) acts → x.(pr_node).(store) = s.(pr_node).(store)))); [|by rewrite Hn].
  intros a x x' Hin (Hx & Hr & Hsto) Ha. destruct (exited_step a x x' Hx Ha) as (Hx' & Hr' & Hst'). split_and!; [done|congruence|].
  intros Hf. rewrite Hst', Hsto; [done|done|]. rewrite Forall_forall in Hf. by apply Hf.
Qed.

End proofs.

(** ** A node that is stopped while a read is out *)

Import KV Mem.

Definition ae_ok (term : N) : AppendEntriesResponse := mkAppendEntriesResponse term true 0 0.

(** ["n1"] is elected in term 1 with the vote of ["n2"], completes its first
    round, and begins a read barrier that has sent its request to ["n2"]. *)
Definition leaderActs : list paction :=
  [PStart; POther (DoTick 1000); PElection (EvWake OnTick); PElection (EvRun 0);
   PElection (EvVote (Some (mkRequestVoteResponse 1 true))); PElection (EvRun 0); PElection (EvRun 5);
   PElection (EvRepl "n2" NoRpc); PElection (EvRepl "n3" NoRpc); PElection (EvRepl "n2" (RpcAppend (ae_ok 1)));
   PElection (EvRepl "n3" RpcError); PElection (EvRepl "n2" NoRpc); PElection (EvRepl "n3" NoRpc); PElection (EvRun 0);
   PBarrier 0 3; PBarrierRun 0 "n2" NoRpc; PBarrierRun 0 "n2" NoRpc].

(** [Stop] is called, and the loops end; the apply loop is in a turn, in
    which it applies the no-op. *)
Definition stopActs : list paction := [PApply (EvWake OnToken); PStop 7; PStopClose 7].
Definition exitActs : list paction :=
  [PElection (EvWake OnStop); PHeartbeat (EvWake OnStop); PApply (EvRun 0); PApply (EvRun 0); PApply (EvRun 0); PApply (EvRun 0);
   PApply (EvWake OnStop)].

Definition proc3 (acts : list paction) : option (@proc KVStateMachine MemStore) :=
  match newKVNode "n1" (Mem.empty []) with inl n => prun acts (newProc n) | inr _ => None end.

Lemma proc3_reachable acts s : proc3 acts = Some s → proc_reachable s.
Proof.
  unfold proc3. destruct (newKVNode "n1" (Mem.empty [])) as [n|] eqn:En; [|done]. intros Hr.
  exists (cfg3 "n1"), (Mem.empty []), NewKVStateMachine, 0, 0%Z, n, acts. split_and!; [apply clean_empty|exact En|exact Hr].
Qed.

(** A later state of the same run. *)
Lemma proc3_app acts acts' s s' : proc3 acts = Some s → proc3 (acts ++ acts') = Some s' → prun acts' s = Some s'.
Proof.
  unfold proc3. destruct (newKVNode _ _); [|done]. rewrite prun_app. by intros ->.
Qed.

Lemma proc3_snoc acts acts' s s' : proc3 acts = Some s → prun acts' s = Some s' → proc3 (acts ++ acts') = Some s'.
Proof. unfold proc3. destruct (newKVNode _ _); [|done]. rewrite prun_app. by intros ->. Qed.

(** The reply of ["n2"], which has seen term 5. *)
Definition term5 : rpcResult := RpcAppend (mkAppendEntriesResponse 5 false 0 0).

(** The state when [Stop] waits, when the loops have ended, when it has
    returned, and after the reply. *)
Lemma stopRun : ∃ s s1 s2 s3, proc3 (leaderActs ++ stopActs) = Some s ∧ prun exitActs s = Some s1 ∧
  pperform (PStopReturn 7) s1 = Some s2 ∧ pperform (PBarrierRun 0 "n2" term5) s2 = Some s3 ∧
  (s.(pr_stopCh), s.(pr_apply), work s, work s1, s1.(pr_stops) !! 7, s1.(pr_apply)) = (true, LReady AIdle, 11, 0, Some SWait, LExit) ∧
  (s2.(pr_node).(stopped), s2.(pr_stops) !! 7, m_hs s2.(pr_node).(store), m_hs s3.(pr_node).(store)) =
    (true, Some SReturned, mkHardState 1 "n1" 1, mkHardState 5 "" 1).
Proof.
  assert ((s ← proc3 (leaderActs ++ stopActs); s1 ← proc3 ((leaderActs ++ stopActs) ++ exitActs);
    s2 ← proc3 (((leaderActs ++ stopActs) ++ exitActs) ++ [PStopReturn 7]);
    s3 ← proc3 ((((leaderActs ++ stopActs) ++ exitActs) ++ [PStopReturn 7]) ++ [PBarrierRun 0 "n2" term5]);
    Some ((s.(pr_stopCh), s.(pr_apply), work s, work s1, s1.(pr_stops) !! 7, s1.(pr_apply)),
      (s2.(pr_node).(stopped), s2.(pr_stops) !! 7, m_hs s2.(pr_node).(store), m_hs s3.(pr_node).(store)))) =
    Some ((true, LReady AIdle, 11, 0, Some SWait, LExit), (true, Some SReturned, mkHardState 1 "n1" 1, mkHardState 5 "" 1))) as Hc by (vm_compute; reflexivity).
  destruct (proc3 (leaderActs ++ stopActs)) as [s|] eqn:E; [|done].
  destruct (proc3 ((leaderActs ++ stopActs) ++ exitActs)) as [s1|] eqn:E1; [|done].
  destruct (proc3 (((leaderActs ++ stopActs) ++ exitActs) ++ [PStopReturn 7])) as [s2|] eqn:E2; [|done].
  destruct (proc3 _) as [s3|] eqn:E3 in Hc; [|done]. cbn in Hc. injection Hc as Hc.
  pose proof (proc3_app _ _ _ _ E E1) as R1. pose proof (proc3_app _ _ _ _ E1 E2) as R2. pose proof (proc3_app _ _ _ _ E2 E3) as R3.
  apply bind_Some in R2 as (? & R2 & [= ->]). apply bind_Some in R3 as (? & R3 & [= ->]).
  exists s, s1, s2, s3. split_and!; [reflexivity|exact R1|exact R2|exact R3| |]; congruence.
Qed.

(** The comment at [n.loops.Wait()] says that after [Stop] the data directory
    can be torn down: here [Stop] has returned, and the goroutine of a read
    barrier writes the hard state. *)
Theorem reply_writes_after_stop : ∃ s s' : @proc KVStateMachine MemStore,
  proc_reachable s ∧ exited s ∧ s.(pr_stops) !! 7 = Some SReturned ∧ pperform (PBarrierRun 0 "n2" term5) s = Some s' ∧
  durable_hs s.(pr_node).(store) = mkHardState 1 "n1" 1 ∧ durable_hs s'.(pr_node).(store) = mkHardState 5 "" 1.
Proof.
  destruct stopRun as (s & s1 & s2 & s3 & E & R1 & R2 & R3 & V1 & V2). injection V1 as Vc Va _ _ Vs Vx. injection V2 as Vst Vr Vh Vh'.
  assert (proc_reachable s1) as Hr1 by (eapply proc3_reachable, proc3_snoc; [exact E|exact R1]).
  assert (proc_reachable s2) as Hr2.
  { apply (proc3_reachable (((leaderActs ++ stopActs) ++ exitActs) ++ [PStopReturn 7])).
    eapply proc3_snoc; [eapply proc3_snoc; [exact E|exact R1]|cbn [prun]; by rewrite R2]. }
  destruct (returned_exited 7 s1 s2 (reachable_pinv _ Hr1) ltac:(unfold started; by rewrite Vx) R2) as [He _].
  exists s2, s3. split_and!; [exact Hr2|exact He|exact Vr|exact R3|exact Vh|exact Vh'].
Qed.

Lemma stop_returns_witness : ∃ s s' : @proc KVStateMachine MemStore,
  proc_reachable s ∧ s.(pr_stopCh) = true ∧ work s = 11 ∧ prun exitActs s = Some s' ∧ 7 + work s' ≤ 11 ∧
  (is_Some (pperform (PStopReturn 7) s') ∨ ∃ a, is_loop a = true ∧ turns a = false ∧ is_Some (pperform a s')).
Proof.
  destruct stopRun as (s & s1 & s2 & s3 & E & R1 & R2 & R3 & V1 & V2). injection V1 as Vc Va Vw _ Vs Vx.
  pose proof (proc3_reachable _ _ E) as Hr.
  destruct (stop_returns s s1 exitActs Hr ltac:(unfold started; by rewrite Va) Vc ltac:(repeat constructor) R1) as [Hw He].
  exists s, s1. split_and!; [exact Hr|exact Vc|exact Vw|exact R1|rewrite Vw in Hw; exact Hw|exact (He 7 Vs)].
Defined.

Lemma stop_quiesces_witness : ∃ s s1 s' : @proc KVStateMachine MemStore,
  pperform (PStopReturn 7) s = Some s1 ∧ pperform (PBarrierRun 0 "n2" term5) s1 = Some s' ∧ exited s' ∧ rest s'.(pr_node) = rest s.(pr_node).
Proof.
  destruct stopRun as (s & s1 & s2 & s3 & E & R1 & R2 & R3 & V1 & V2). injection V1 as Vc Va Vw _ Vs Vx.
  assert (proc_reachable s1) as Hr1 by (eapply proc3_reachable, proc3_snoc; [exact E|exact R1]).
  destruct (stop_quiesces 7 s1 s2 s3 [PBarrierRun 0 "n2" term5] Hr1 ltac:(unfold started; by rewrite Vx) R2) as (He & Hre & _); [cbn [prun]; by rewrite R3|].
  exists s1, s2, s3. split_and!; [exact R2|exact R3|exact He|exact Hre].
Defined.
