(* ===== verification/Raft.v ===== *)
(** * The whole cluster

    [Cluster.v] follows the votes and lets every node do anything else at
    any time.  Here the rest of the traffic is followed too: AppendEntries
    and InstallSnapshot requests go where [replicateToPeer] and
    [sendSnapshot] send them and carry what these read from the leader's
    state, their responses come from the handlers, and the apply goroutine
    of every node is at one of its program points.  Messages stay in the
    network for ever, so that loss, delay, reordering and repetition are
    covered; a node crashes between two of its critical sections, and any
    write of its store may fail before, in the middle of or after its effect. *)

From S2P Require Import Prelude Types StateMachine StoreIntf RaftLog NodeState Node Replication NodeStep NodeInv VoteFrame Cluster ApplySys Disk.

Section raft.
Context {SM St : Type} `{StateMachine SM} `{Store St} `{RandSource} `{MapCodec}
  `{!HardStateLaws St} `{!DiskLaws St}.
#[local] Abbreviation Node := (Node SM St).
#[local] Abbreviation cluster := (@cluster SM St).
Context (cfg : string → Config) (s0 : SM).

(** A call of [sendSnapshot] in progress. *)
Record snapshotSend := mkSend {
  sd_from : string;
  sd_to : string;
  sd_term : N;
  sd_index : N;
  sd_lastTerm : N;
  sd_body : list Byte.byte;
  sd_chunk : Z }.

Record raft := mkRaft {
  r_cl : cluster;
  r_pc : gmap string apply_pc;
  r_ae : list (string * string * AppendEntriesRequest);
  r_aer : list (string * string * AppendEntriesRequest * AppendEntriesResponse);
  r_snap : list snapshotSend;
  r_is : list (string * string * InstallSnapshotRequest);
  r_isr : list (string * string * InstallSnapshotRequest * InstallSnapshotResponse);
  r_fin : list (string * string * InstallSnapshotRequest * list Byte.byte) }.

Definition with_cl (c : cluster) (r : raft) : raft :=
  mkRaft c r.(r_pc) r.(r_ae) r.(r_aer) r.(r_snap) r.(r_is) r.(r_isr) r.(r_fin).
Definition with_pc (m : gmap string apply_pc) (r : raft) : raft :=
  mkRaft r.(r_cl) m r.(r_ae) r.(r_aer) r.(r_snap) r.(r_is) r.(r_isr) r.(r_fin).
Definition put_node (i : string) (n : Node) (r : raft) : raft := with_cl (set_node i n r.(r_cl)) r.

(** More messages. *)
Definition add_ae m (r : raft) : raft :=
  mkRaft r.(r_cl) r.(r_pc) (m :: r.(r_ae)) r.(r_aer) r.(r_snap) r.(r_is) r.(r_isr) r.(r_fin).
Definition add_aer m (r : raft) : raft :=
  mkRaft r.(r_cl) r.(r_pc) r.(r_ae) (m :: r.(r_aer)) r.(r_snap) r.(r_is) r.(r_isr) r.(r_fin).
Definition add_snap m (r : raft) : raft :=
  mkRaft r.(r_cl) r.(r_pc) r.(r_ae) r.(r_aer) (m :: r.(r_snap)) r.(r_is) r.(r_isr) r.(r_fin).
Definition add_is m (r : raft) : raft :=
  mkRaft r.(r_cl) r.(r_pc) r.(r_ae) r.(r_aer) r.(r_snap) (m :: r.(r_is)) r.(r_isr) r.(r_fin).
Definition add_isr m (r : raft) : raft :=
  mkRaft r.(r_cl) r.(r_pc) r.(r_ae) r.(r_aer) r.(r_snap) r.(r_is) (m :: r.(r_isr)) r.(r_fin).
Definition add_fin m (r : raft) : raft :=
  mkRaft r.(r_cl) r.(r_pc) r.(r_ae) r.(r_aer) r.(r_snap) r.(r_is) r.(r_isr) (m :: r.(r_fin)).

Definition pc_of (r : raft) (i : string) : apply_pc := default AIdle (r.(r_pc) !! i).

(** The next step of the apply goroutine: the steps of [ApplySys.v] that are
    its own. *)
Definition apply_micro (n : Node) (pc : apply_pc) : Node * apply_pc :=
  match pc with
  | AIdle =>
      ((applyReady_next n).2, match (applyReady_next n).1 with ApplyEntry e => AGot e | _ => AIdle end)
  | AGot e => ((applyReady_apply e n).2, AApplied e (applyReady_apply e n).1)
  | AApplied e res =>
      ((applyReady_finish e res n).2,
       match (applyReady_finish e res n).1 with Some (Some sn) => ASnap sn | _ => AIdle end)
  | ASnap sn => (n, if decide (persistSnapshot_stale sn n) then AIdle else AChecked sn)
  | AChecked sn =>
      ((persistSnapshot_save sn n).2, if (persistSnapshot_save sn n).1 then ASaved sn else AIdle)
  | ASaved sn => (persistSnapshot_finish sn n, AIdle)
  end.

(** The snapshot file is not replaced by an older one.  The code does not
    check this: after a failed installation of a snapshot the file may be
    newer than the node's state, and the apply goroutine goes on. *)
Definition apply_guard (n : Node) (pc : apply_pc) : Prop :=
  match pc with
  | AChecked sn => ((disk_snap n.(store)).(LastIncludedIndex) ≤ sn.(LastIncludedIndex))%N
  | _ => True
  end.
#[global] Instance apply_guard_dec n pc : Decision (apply_guard n pc).
Proof. destruct pc; unfold apply_guard; apply _. Defined.

(** Critical sections that neither send nor receive anything. *)
Definition is_local (op : nop) : bool :=
  match op with
  | DoTick _ | DoStop | DoProposeSelect _ _ _ | DoAcquire _ _ | DoRelease _ | DoReplAll => true
  | _ => false
  end.

(** A scheduling decision.  Numbers select a message.  Indices are [uint64]:
    a proposal and the no-op of a leader need an index below the largest one,
    and what [nextIndex] holds is below 2^64. *)
Inductive raction :=
  | RCluster (a : @action SM)
  | RResultError (i p : string)
  | RElectionEnd (i : string)
  | RLocal (i : string) (op : nop)
  | RPropose (i : string) (ctx : option error) (command : Command)
  | RPrepare (i p : string)
  | RAppend (k : nat)
  | RAppendReply (k : nat)
  | RChunk (k : nat) (offset : N)
  | RInstall (k : nat)
  | RInstallFinal (k : nat)
  | RSendCheck (k : nat)
  | RSnapshotDone (k m : nat)
  | RApply (i : string).

(** A restarted process has a new state machine. *)
Definition machine_action (a : @action SM) : @action SM :=
  match a with ARestart i _ rng0 now0 => ARestart i s0 rng0 now0 | a => a end.

(** The node that becomes leader by [a] has an index left for the no-op. *)
Definition room (c : cluster) (i : string) : Prop :=
  match up_at c i with Some n => (lastIndexLocked n < two64 - 2)%N | None => True end.
#[global] Instance room_dec c i : Decision (room c i).
Proof. unfold room. destruct (up_at c i); apply _. Defined.

Definition action_room (a : @action SM) (c : cluster) : Prop :=
  match a with
  | ASingle i => room c i
  | AResult k => match c.(cl_vresp) !! k with Some (i, _, _, _) => room c i | None => True end
  | _ => True
  end.
#[global] Instance action_room_dec a c : Decision (action_room a c).
Proof. destruct a; unfold action_room; try apply _. destruct (cl_vresp c !! k) as [[[[]]]|]; apply _. Defined.

(** Crashed processes have no goroutines. *)
Definition after_action (a : @action SM) (r : raft) : raft :=
  match a with ACrash i => with_pc (delete i r.(r_pc)) r | _ => r end.

(** The chunk size [sendSnapshot] works with. *)
Definition effectiveChunk (chunk : Z) : Z := if decide (chunk ≤ 0)%Z then defaultSnapshotChunkBytes else chunk.

Definition rperform (a : raction) (r : raft) : option raft :=
  let c := r.(r_cl) in
  match a with
  | RCluster a =>
      if decide (action_room a c) then
        c' ← perform cfg (machine_action a) c; Some (after_action a (with_cl c' r))
      else None
  | RResultError i p =>
      e ← c.(cl_elec) !! i;
      if decide (p ∈ e.(el_waiting)) then
        Some (with_cl (set_elec i (Some (mkElection e.(el_term) e.(el_votes) (e.(el_waiting) ∖ {[p]}))) c) r)
      else None
  | RElectionEnd i => Some (with_cl (set_elec i None c) r)
  | RLocal i op =>
      n ← up_at c i; if is_local op then Some (put_node i (nrun op n) r) else None
  | RPropose i ctx command =>
      n ← up_at c i;
      if decide (lastIndexLocked n < two64 - 2)%N then Some (put_node i (Propose_start ctx command n).2 r) else None
  | RPrepare i p =>
      n ← up_at c i;
      if decide (p ∈ dom n.(params).(peerAddrs) ∧ map_N n.(nextIndex) p < two64)%N then
        let '(act, n') := replicateToPeer_prepare p n in
        Some match act with
             | ReplAppend req => add_ae (i, p, req) (put_node i n' r)
             | ReplSnapshot term snapIdx snapTerm data chunk =>
                 add_snap (mkSend i p term snapIdx snapTerm (marshalMap data) (effectiveChunk chunk)) (put_node i n' r)
             | _ => put_node i n' r
             end
      else None
  | RAppend k =>
      '(i, p, req) ← r.(r_ae) !! k;
      n ← up_at c p;
      let '(resp, n') := HandleAppendEntries req n in
      Some (add_aer (i, p, req, resp) (put_node p n' r))
  | RAppendReply k =>
      '(i, p, req, resp) ← r.(r_aer) !! k;
      n ← up_at c i;
      Some (put_node i (replicateToPeer_response p req resp n).2 r)
  | RChunk k offset =>
      sd ← r.(r_snap) !! k;
      Some (add_is (sd.(sd_from), sd.(sd_to),
        snapshotRequest sd.(sd_from) sd.(sd_term) sd.(sd_index) sd.(sd_lastTerm) sd.(sd_body) sd.(sd_chunk) offset) r)
  | RInstall k =>
      '(i, p, req) ← r.(r_is) !! k;
      n ← up_at c p;
      Some match HandleInstallSnapshot_recv req n with
           | (inl resp, n') => add_isr (i, p, req, resp) (put_node p n' r)
           | (inr body, n') => add_fin (i, p, req, body) (put_node p n' r)
           end
  | RInstallFinal k =>
      '(i, p, req, body) ← r.(r_fin) !! k;
      n ← up_at c p;
      if install_allowed (pc_of r p) then
        let '(resp, n') := HandleInstallSnapshot_final req body n in
        Some (add_isr (i, p, req, resp) (put_node p n' r))
      else None
  | RSendCheck k =>
      '(i, p, req, resp) ← r.(r_isr) !! k;
      n ← up_at c i;
      Some (put_node i (sendSnapshot_check req.(is_Term) resp n).2 r)
  | RSnapshotDone k m =>
      sd ← r.(r_snap) !! k;
      '(i, p, req, resp) ← r.(r_isr) !! m;
      n ← up_at c sd.(sd_from);
      let offset := req.(is_Offset) in
      if decide (i = sd.(sd_from) ∧ p = sd.(sd_to) ∧ req.(is_Term) = sd.(sd_term) ∧
                 req.(is_LastIncludedIndex) = sd.(sd_index) ∧ req.(is_LastIncludedTerm) = sd.(sd_lastTerm) ∧
                 req.(is_Done) = bool_decide (chunkEnd (len sd.(sd_body)) offset sd.(sd_chunk) = len sd.(sd_body))) then
        match sendSnapshot_next (len sd.(sd_body)) offset (chunkEnd (len sd.(sd_body)) offset sd.(sd_chunk)) resp with
        | SendReturn true => Some (put_node i (replicateToPeer_snapshotDone p sd.(sd_term) sd.(sd_index) n) r)
        | _ => None
        end
      else None
  | RApply i =>
      n ← up_at c i;
      let pc := pc_of r i in
      if decide (apply_guard n pc) then
        let '(n', pc') := apply_micro n pc in
        Some (with_pc (<[i := pc']> r.(r_pc)) (put_node i n' r))
      else None
  end.

Definition rstep (r r' : raft) : Prop := ∃ a, rperform a r = Some r'.

(** Initially every member is down, and its store is empty. *)
Definition rinitial (members : gset string) (r : raft) : Prop :=
  initial members r.(r_cl) ∧
  (∀ i st, r.(r_cl).(cl_slots) !! i = Some (Down st) →
     disk st = Some (zeroSnapshot, []) ∧ sound st ∧ durable_hs st = zeroHardState) ∧
  r.(r_pc) = ∅ ∧ r.(r_ae) = [] ∧ r.(r_aer) = [] ∧ r.(r_snap) = [] ∧ r.(r_is) = [] ∧ r.(r_isr) = [] ∧ r.(r_fin) = [].

Definition rreachable (members : gset string) (r : raft) : Prop := ∃ r0, rinitial members r0 ∧ rtc rstep r0 r.

(** Running a schedule. *)
Fixpoint rrun (acts : list raction) (r : raft) : option raft :=
  match acts with
  | [] => Some r
  | a :: acts => r' ← rperform a r; rrun acts r'
  end.

Lemma rrun_steps acts r r' : rrun acts r = Some r' → rtc rstep r r'.
Proof.
  revert r. induction acts as [|a acts IH]; cbn; intros r Hr; [by simplify_eq|].
  apply bind_Some in Hr as (r1 & Ha & Hr). eapply rtc_l; [by exists a|auto].
Qed.

(** ** The votes of the whole cluster are those of [Cluster.v] *)

Lemma put_node_cstep r i n op : up_at r.(r_cl) i = Some n → is_election op = false →
  rtc (cstep cfg) r.(r_cl) (put_node i (nrun op n) r).(r_cl).
Proof. intros Hn%up_at_Some Ho. apply rtc_once. by apply cs_node. Qed.

Lemma same_node_cstep r i n : up_at r.(r_cl) i = Some n → rtc (cstep cfg) r.(r_cl) (put_node i n r).(r_cl).
Proof.
  intros Hn. replace n with (nrun (DoTick n.(now)) n) at 1; [by apply put_node_cstep|]. by destruct n.
Qed.

Lemma rperform_cstep a r r' : rperform a r = Some r' → rtc (cstep cfg) r.(r_cl) r'.(r_cl).
Proof.
  destruct a as [a|i p|i|i op|i ctx command|i p|k|k|k offset|k|k|k|k m|i]; cbn; intros Hp.
  - case_decide; [|done]. apply bind_Some in Hp as (c' & Hc & [= <-]).
    assert (r_cl (after_action a (with_cl c' r)) = c') as -> by by destruct a.
    apply rtc_once. by eapply perform_step.
  - apply bind_Some in Hp as (e & He & Hp). case_decide; simplify_eq. apply rtc_once. by eapply cs_result_error.
  - simplify_eq. apply rtc_once. apply cs_election_end.
  - apply bind_Some in Hp as (n & Hn & Hp). destruct (is_local op) eqn:Hl; simplify_eq.
    apply put_node_cstep; [done|by destruct op].
  - apply bind_Some in Hp as (n & Hn & Hp). case_decide; simplify_eq. by apply (put_node_cstep r i n (DoPropose ctx command)).
  - apply bind_Some in Hp as (n & Hn & Hp). case_decide; [|done].
    pose proof (put_node_cstep r i n (DoReplPrepare p) Hn eq_refl) as Hs. cbn [nrun] in Hs.
    destruct (replicateToPeer_prepare p n) as [[] n']; by simplify_eq.
  - apply bind_Some in Hp as ([[i p] req] & Hk & Hp). apply bind_Some in Hp as (n & Hn & Hp).
    pose proof (put_node_cstep r p n (DoAppendEntries req) Hn eq_refl) as Hs. cbn [nrun] in Hs.
    destruct (HandleAppendEntries req n) as [resp n']; by simplify_eq.
  - apply bind_Some in Hp as ([[[i p] req] resp] & Hk & Hp). apply bind_Some in Hp as (n & Hn & [= <-]).
    by apply (put_node_cstep r i n (DoReplResponse p req resp)).
  - apply bind_Some in Hp as (sd & Hk & [= <-]). done.
  - apply bind_Some in Hp as ([[i p] req] & Hk & Hp). apply bind_Some in Hp as (n & Hn & Hp).
    pose proof (put_node_cstep r p n (DoInstallRecv req) Hn eq_refl) as Hs. cbn [nrun] in Hs.
    destruct (HandleInstallSnapshot_recv req n) as [[] n']; by simplify_eq.
  - apply bind_Some in Hp as ([[[i p] req] body] & Hk & Hp). apply bind_Some in Hp as (n & Hn & Hp).
    destruct (install_allowed _); [|done].
    pose proof (put_node_cstep r p n (DoInstallFinal req body) Hn eq_refl) as Hs. cbn [nrun] in Hs.
    destruct (HandleInstallSnapshot_final req body n) as [resp n']; by simplify_eq.
  - apply bind_Some in Hp as ([[[i p] req] resp] & Hk & Hp). apply bind_Some in Hp as (n & Hn & [= <-]).
    by apply (put_node_cstep r i n (DoSendCheck req.(is_Term) resp)).
  - apply bind_Some in Hp as (sd & Hk & Hp). apply bind_Some in Hp as ([[[i p] req] resp] & Hm & Hp).
    apply bind_Some in Hp as (n & Hn & Hp). case_decide as Hd; [|done]. destruct Hd as (-> & _).
    destruct (sendSnapshot_next _ _ _ _) as [[]|]; simplify_eq.
    by apply (put_node_cstep r _ n (DoReplSnapshot p sd.(sd_term) sd.(sd_index))).
  - apply bind_Some in Hp as (n & Hn & Hp). case_decide; [|done].
    destruct (apply_micro n (pc_of r i)) as [n' pc'] eqn:Ea. simplify_eq. cbn [r_cl with_pc].
    destruct (pc_of r i) as [|e|e res|sn|sn|sn]; cbn [apply_micro] in Ea; simplify_eq.
    + by apply (put_node_cstep r i n DoApplyNext).
    + by apply (put_node_cstep r i n (DoApplyApply e)).
    + by apply (put_node_cstep r i n (DoApplyFinish e res)).
    + by apply same_node_cstep.
    + by apply (put_node_cstep r i n (DoSnapshotSave sn)).
    + by apply (put_node_cstep r i n (DoSnapshotFinish sn)).
Qed.

Lemma rreachable_cluster members r : rreachable members r → reachable members cfg r.(r_cl).
Proof.
  intros (r0 & (Hi & _) & Hs). exists r0.(r_cl). split; [done|]. clear Hi.
  induction Hs as [|r r1 r2 [a Ha] _ IH]; [done|]. etrans; [by eapply rperform_cstep|done].
Qed.

End raft.
