(* ===== verification/RaftInv.v ===== *)
(** * The invariant of the cluster

    Every state of [Raft.v] has a history ([Consensus.v]) that explains it:
    [base] says where the log of a node, in memory and on disk, lies in the
    tree of positions; [role_ok] what a leader and a candidate know; the
    [..._ok] predicates of messages what a request or response vouches for.
    This file states them and shows that they are kept when the history
    grows and when a node saves its hard state or fails. *)

From S2P Require Import Prelude Types StateMachine StoreIntf RaftLog NodeState Node Replication NodeStep NodeInv VoteFrame Cluster ApplySys Disk Consensus LogTree Raft.

Section inv.
Context {SM St : Type} `{StateMachine SM} `{Store St} `{RandSource} `{MapCodec}
  `{!HardStateLaws St} `{!DiskLaws St}.
#[local] Abbreviation Node := (Node SM St).
Context (members : gset string) (s0 : SM).
Implicit Types (h : history) (n : Node) (i j p : string) (st : St) (T : gmap (N * N) (N * Command)).

#[local] Abbreviation committed_by := (committed_by members).
#[local] Abbreviation ginv := (ginv members).

(** ** Snapshots *)

(** The data of a snapshot is the state after the commands of its position. *)
Definition snap_ok T (sn : Snapshot) : Prop :=
  ∃ cs, trace T (snap_pos sn) cs ∧
    if decide (sn.(LastIncludedIndex) = 0%N) then sn.(Data) = None
    else sn.(Data) = Some (Snapshot_ (apply_all cs s0)).

Definition body_ok T (x : N * N) (body : list Byte.byte) : Prop :=
  ∃ cs, trace T x cs ∧ body = marshalMap (Some (Snapshot_ (apply_all cs s0))).

Lemma trace_valid T x cs : trace T x cs → valid T x.
Proof. destruct 1; [by left|right; by eexists]. Qed.

Lemma snap_ok_valid T sn : snap_ok T sn → valid T (snap_pos sn).
Proof. intros (cs & Ht & _). by eapply trace_valid. Qed.

Lemma snap_ok_grow T T' sn : T ⊆ T' → snap_ok T sn → snap_ok T' sn.
Proof. intros Hs (cs & Ht & Hd). exists cs. split; [by eapply trace_grow|done]. Qed.

Lemma body_ok_grow T T' x b : T ⊆ T' → body_ok T x b → body_ok T' x b.
Proof. intros Hs (cs & Ht & Hd). exists cs. split; [by eapply trace_grow|done]. Qed.

Lemma body_fun T x b b' : tree_ok T → body_ok T x b → body_ok T x b' → b = b'.
Proof. intros Hok (cs & Ht & ->) (cs' & Ht' & ->). by rewrite (trace_fun _ _ _ _ Hok Ht Ht'). Qed.

(** ** One node *)

Definition mtip n : N * N := tip n.(snapshot) n.(log).

Record mem_ok h i (vt : N) n : Prop := {
  m_chain : chained h.(h_tree) (snap_pos n.(snapshot)) n.(log);
  m_snap : snap_ok h.(h_tree) n.(snapshot);
  m_term : ((mtip n).2 ≤ vt)%N;
  m_keep : keep h i (mtip n) vt;
  m_com : ∃ cp, cp.1 = n.(commitIndex) ∧ on h.(h_tree) (mtip n) cp ∧ committed_by h vt cp }.

Record disk_ok h i (vt : N) st : Prop := {
  d_sound : sound st;
  d_term : (vt ≤ (durable_hs st).(CurrentTerm))%N;
  d_snap : snap_ok h.(h_tree) (disk_snap st);
  d_scom : committed_by h vt (snap_pos (disk_snap st));
  d_com : ∃ dc, dc.1 = (durable_hs st).(CommitIndex) ∧ committed_by h vt dc ∧
    ∀ sn l, disk st = Some (sn, l) → (dc.1 < sn.(LastIncludedIndex))%N ∨ on h.(h_tree) (tip sn l) dc;
  d_log : ∀ sn l, disk st = Some (sn, l) →
    chained h.(h_tree) (snap_pos sn) l ∧ ((tip sn l).2 ≤ vt)%N ∧ keep h i (tip sn l) vt }.

(** The disk has what is committed in memory and the memory what is
    committed on disk, unless a snapshot was only half installed. *)
Definition over h (vt : N) n : Prop :=
  (n.(commitIndex) < (disk_snap n.(store)).(LastIncludedIndex))%N ∨
  (∃ dc, dc.1 = (durable_hs n.(store)).(CommitIndex) ∧ on h.(h_tree) (mtip n) dc ∧ committed_by h vt dc) ∧
  (∀ sn l cp, disk n.(store) = Some (sn, l) → cp.1 = n.(commitIndex) → on h.(h_tree) (mtip n) cp →
     on h.(h_tree) (tip sn l) cp).

(** [vt] is the term that both logs are known for. *)
Record base0 h i (vt : N) n : Prop := {
  b_le : (vt ≤ n.(currentTerm))%N;
  b_mem : mem_ok h i vt n;
  b_disk : disk_ok h i vt n.(store);
  b_over : over h vt n }.

(** A node whose storage has not failed has the same log in memory and on
    disk. *)
Definition live (vt : N) n : Prop :=
  vt = n.(currentTerm) ∧ appendable n.(store) ∧
  (n.(snapshot).(LastIncludedIndex) ≤ (disk_snap n.(store)).(LastIncludedIndex) ≤ n.(lastApplied))%N ∧
  ∀ sn l, disk n.(store) = Some (sn, l) → tip sn l = mtip n.

Definition base h i (vt : N) n : Prop := base0 h i vt n ∧ (n.(storageFatal) = None → live vt n).

(** What a leader knows: it was elected from a position of its log, below
    its no-op; every position of its term is in its log; it acknowledged its
    log itself, and [matchIndex] is backed by acknowledgements; nothing of its
    term is committed beyond its commit index. *)
Record leads h i n : Prop := {
  l_elect : ∃ e, h.(h_elect) !! n.(currentTerm) = Some (i, e) ∧ on h.(h_tree) (mtip n) e ∧ (e.1 < n.(leaderNoopIndex))%N;
  l_tip : (mtip n).2 = n.(currentTerm);
  l_all : ∀ y, valid h.(h_tree) y → y.2 = n.(currentTerm) → on h.(h_tree) (mtip n) y;
  l_self : (i, n.(currentTerm), mtip n) ∈ h.(h_acks);
  l_match : ∀ p m, n.(matchIndex) !! p = Some m → (0 < m)%N →
    ∃ x, (p, n.(currentTerm), x) ∈ h.(h_acks) ∧ (m ≤ x.1)%N;
  l_commit : ∀ y, (n.(currentTerm), y) ∈ h.(h_commits) → (y.1 ≤ n.(commitIndex))%N }.

Abbreviation candidacies := (gmap (string * N) (N * N)).

Definition role_ok h (cs : candidacies) i n : Prop :=
  match n.(role) with
  | Follower => True
  | Candidate =>
      n.(storageFatal) = None ∧ cs !! (i, n.(currentTerm)) = Some (mtip n) ∧
      ∀ e, h.(h_elect) !! n.(currentTerm) ≠ Some (i, e)
  | Leader => n.(storageFatal) = None ∧ leads h i n
  end.

(** The part of a snapshot received so far. *)
Definition pend_ok T n : Prop :=
  ∀ pr, n.(pendingSnapshot) = Some pr →
    ∃ k body, body_ok T (pr.(sp_lastIncludedIndex), pr.(sp_lastIncludedTerm)) body ∧ pr.(sp_buffer) = take k body.

(** The snapshot the apply goroutine is about to save, or has saved. *)
Definition pc_ok h n (pc : @apply_pc) : Prop :=
  (∀ sn, (pc = ASnap sn ∨ pc = AChecked sn ∨ pc = ASaved sn) →
     snap_ok h.(h_tree) sn ∧ (0 < sn.(LastIncludedIndex))%N ∧
     (sn.(LastIncludedIndex) ≤ n.(lastApplied))%N ∧ ∃ u, committed_by h u (snap_pos sn)) ∧
  (∀ sn, pc = ASaved sn → disk_snap n.(store) = sn).

Record up_ok h cs i n pc : Prop := {
  u_base : ∃ vt, base h i vt n;
  u_role : role_ok h cs i n;
  u_pend : pend_ok h.(h_tree) n;
  u_pc : pc_ok h n pc }.

(** ** Messages *)

Definition prev_pos (req : AppendEntriesRequest) : N * N := (req.(ae_PrevLogIndex), req.(ae_PrevLogTerm)).
Definition ae_end (req : AppendEntriesRequest) : N * N := end_pos (prev_pos req) req.(ae_Entries).

Record ae_ok h i (req : AppendEntriesRequest) : Prop := {
  ae_elect : ∃ e, h.(h_elect) !! req.(ae_Term) = Some (i, e);
  ae_from : req.(ae_LeaderID) = i;
  ae_prev : valid h.(h_tree) (prev_pos req);
  ae_chain : chained h.(h_tree) (prev_pos req) req.(ae_Entries);
  ae_led : led h req.(ae_Term) (ae_end req);
  ae_commit : ∃ cp, cp.1 = req.(ae_LeaderCommit) ∧ on h.(h_tree) (ae_end req) cp ∧ committed_by h req.(ae_Term) cp }.

Definition aer_ok h i p (req : AppendEntriesRequest) (resp : AppendEntriesResponse) : Prop :=
  ae_ok h i req ∧ (resp.(aer_Success) = true → (p, req.(ae_Term), ae_end req) ∈ h.(h_acks)).

Definition is_pos (req : InstallSnapshotRequest) : N * N := (req.(is_LastIncludedIndex), req.(is_LastIncludedTerm)).

(** What is known of the position a snapshot is sent for. *)
Definition sent_ok h i (t : N) (x : N * N) (body : list Byte.byte) : Prop :=
  (∃ e, h.(h_elect) !! t = Some (i, e)) ∧ committed_by h t x ∧ (0 < x.1)%N ∧ body_ok h.(h_tree) x body.

Definition send_ok h (sd : snapshotSend) : Prop :=
  sent_ok h sd.(sd_from) sd.(sd_term) (sd.(sd_index), sd.(sd_lastTerm)) sd.(sd_body).

Definition is_ok h i (req : InstallSnapshotRequest) : Prop :=
  req.(is_LeaderID) = i ∧
  ∃ body end_, sent_ok h i req.(is_Term) (is_pos req) body ∧
    req.(is_Data) = slice body req.(is_Offset) end_ ∧ (req.(is_Done) = true → end_ = len body).

Definition isr_ok h i p (req : InstallSnapshotRequest) (resp : InstallSnapshotResponse) : Prop :=
  is_ok h i req ∧
  (resp.(isr_Success) = true → req.(is_Done) = true → (p, req.(is_Term), is_pos req) ∈ h.(h_acks)).

Definition fin_ok h i (req : InstallSnapshotRequest) (body : list Byte.byte) : Prop :=
  is_ok h i req ∧ req.(is_Done) = true ∧ body_ok h.(h_tree) (is_pos req) body.

(** ** Growth of the history *)

(** Node [i] moves: nobody else acknowledges anything, and new positions and
    elections are its own. *)
Record hext i h h' : Prop := {
  x_ext : extends h h';
  x_inv : ginv h';
  x_bound : ∀ x, valid h'.(h_tree) x → (x.1 < two64 - 1)%N;
  x_other : ∀ j, j ≠ i → same_vouched h h' j;
  x_new : ∀ y, valid h'.(h_tree) y → valid h.(h_tree) y ∨ ∃ e, h'.(h_elect) !! y.2 = Some (i, e);
  x_elect : ∀ u l e, h'.(h_elect) !! u = Some (l, e) → h.(h_elect) !! u = Some (l, e) ∨ l = i;
  x_commit : ∀ t y, (t, y) ∈ h'.(h_commits) → (t, y) ∈ h.(h_commits) ∨ ∃ e, h'.(h_elect) !! t = Some (i, e) }.

Section grow.
Context h h' (Hx : extends h h').
Let Hsub : h.(h_tree) ⊆ h'.(h_tree) := ex_tree _ _ Hx.

Lemma mem_ok_grow i vt n : same_vouched h h' i → mem_ok h i vt n → mem_ok h' i vt n.
Proof.
  intros Hs [Hc Hn Ht Hk (cp & ? & ? & ?)]. split; [by eapply chained_grow|by eapply snap_ok_grow|done|by eapply ex_keep|].
  exists cp. split_and!; [done|by eapply ex_on|by eapply ex_committed].
Qed.

Lemma disk_ok_grow i vt st : same_vouched h h' i → disk_ok h i vt st → disk_ok h' i vt st.
Proof.
  intros Hs [Hso Ht Hn Hc (dc & Hdc & Hcom & Hon) Hl]. split; [done|done|by eapply snap_ok_grow|by eapply ex_committed| |].
  - exists dc. split_and!; [done|by eapply ex_committed|]. intros sn l Hd. destruct (Hon sn l Hd); [by left|right; by eapply ex_on].
  - intros sn l Hd. destruct (Hl sn l Hd) as (Hch & Htm & Hk). split_and!; [by eapply chained_grow|done|by eapply ex_keep].
Qed.

Lemma over_grow i vt n : mem_ok h i vt n → over h vt n → over h' vt n.
Proof.
  intros [Hch Hsn _ _ _] [?|[(dc & ? & ? & ?) Hd]]; [by left|right]. split.
  - exists dc. split_and!; [done|by eapply ex_on|by eapply ex_committed].
  - intros sn l cp Hs Hcp Hon. eapply ex_on; [done|]. eapply Hd; [done|done|]. eapply ex_on_inv; [done| |done].
    unfold mtip. rewrite tip_end. apply chained_valid; [by eapply snap_ok_valid|done].
Qed.

Lemma base_grow i vt n : same_vouched h h' i → base h i vt n → base h' i vt n.
Proof.
  intros Hs [[Hle Hm Hd Ho] Hli]. split; [|done]. split; [done|by apply mem_ok_grow|by apply disk_ok_grow|by eapply over_grow].
Qed.

Lemma pend_ok_grow n : pend_ok h.(h_tree) n → pend_ok h'.(h_tree) n.
Proof. intros Hp pr Hpr. destruct (Hp pr Hpr) as (k & b & ? & ?). exists k, b. split; [by eapply body_ok_grow|done]. Qed.

Lemma pc_ok_grow n pc : pc_ok h n pc → pc_ok h' n pc.
Proof.
  intros [Hp Hs]. split; [|done]. intros sn Hpc. destruct (Hp sn Hpc) as (? & ? & ? & u & ?). split_and!; [by eapply snap_ok_grow|done|done|].
  exists u. by eapply ex_committed.
Qed.

Lemma ae_ok_grow i req : ae_ok h i req → ae_ok h' i req.
Proof.
  intros [(e & He) Hf Hp Hc Hl (cp & ? & ? & ?)]. split; [exists e; by eapply ex_elected|done|by eapply ex_valid|by eapply chained_grow|by eapply ex_led|].
  exists cp. split_and!; [done|by eapply ex_on|by eapply ex_committed].
Qed.

Lemma aer_ok_grow i p req resp : aer_ok h i p req resp → aer_ok h' i p req resp.
Proof. intros [Ha Hr]. split; [by apply ae_ok_grow|]. intros Hs. by apply (ex_acks _ _ Hx), Hr. Qed.

Lemma sent_ok_grow i t x b : sent_ok h i t x b → sent_ok h' i t x b.
Proof.
  intros ((e & He) & Hc & Hp & Hb). split_and!; [exists e; by eapply ex_elected|by eapply ex_committed|done|by eapply body_ok_grow].
Qed.

Lemma is_ok_grow i req : is_ok h i req → is_ok h' i req.
Proof. intros (Hi & b & e & Hs & Hd & Hn). split; [done|]. exists b, e. split_and!; [by apply sent_ok_grow|done|done]. Qed.

Lemma isr_ok_grow i p req resp : isr_ok h i p req resp → isr_ok h' i p req resp.
Proof. intros [Ha Hr]. split; [by apply is_ok_grow|]. intros Hs Hd. by apply (ex_acks _ _ Hx), Hr. Qed.

Lemma fin_ok_grow i req b : fin_ok h i req b → fin_ok h' i req b.
Proof. intros (Ha & Hd & Hb). split_and!; [by apply is_ok_grow|done|by eapply body_ok_grow]. Qed.

End grow.

(** Another node keeps its role. *)
Lemma role_ok_grow h h' cs cs' i j n : hext i h h' → j ≠ i → role_ok h cs j n →
  (∀ e, cs !! (j, n.(currentTerm)) = Some e → cs' !! (j, n.(currentTerm)) = Some e) → role_ok h' cs' j n.
Proof.
  intros Hx Hne Hr Hcs. pose proof (x_ext _ _ _ Hx) as He. unfold role_ok in *. destruct (role n); [done| |].
  - destruct Hr as (? & Hc & Hn). split_and!; [done|by apply Hcs|]. intros e Hel.
    destruct (x_elect _ _ _ Hx _ _ _ Hel) as [?|?]; [by eapply Hn|done].
  - destruct Hr as (? & [(e & Hel & Hon & Hnp) Ht Ha Hs Hm Hc]). split; [done|]. split.
    + exists e. split_and!; [by eapply ex_elected|by eapply ex_on|done].
    + done.
    + intros y Hy Hyt. destruct (x_new _ _ _ Hx y Hy) as [Hv|(e' & He')]; [eapply ex_on; [done|by apply Ha]|].
      exfalso. rewrite Hyt in He'. eapply ex_elected in Hel; [|done]. rewrite Hel in He'. by injection He' as ? _.
    + by apply (ex_acks _ _ He).
    + intros p m Hp Hpos. destruct (Hm p m Hp Hpos) as (x & ? & ?). exists x. split; [by apply (ex_acks _ _ He)|done].
    + intros y Hy. destruct (x_commit _ _ _ Hx _ y Hy) as [?|(e' & He')]; [by apply Hc|].
      exfalso. eapply ex_elected in Hel; [|done]. rewrite Hel in He'. by injection He' as ? _.
Qed.

Lemma up_ok_other h h' cs cs' i j n pc : hext i h h' → j ≠ i → up_ok h cs j n pc →
  (∀ e, cs !! (j, n.(currentTerm)) = Some e → cs' !! (j, n.(currentTerm)) = Some e) → up_ok h' cs' j n pc.
Proof.
  intros Hx Hne [(vt & Hb) Hr Hp Hpc] Hcs. pose proof (x_ext _ _ _ Hx) as He. pose proof (x_other _ _ _ Hx j Hne) as Hs. split.
  - exists vt. by eapply base_grow.
  - by eapply role_ok_grow.
  - by eapply pend_ok_grow.
  - by eapply pc_ok_grow.
Qed.

End inv.
