(* ===== verification/RaftNode.v ===== *)
(** * The invariant of one node, step by step

    What the building blocks of the critical sections do to the invariant of
    [RaftInv.v]: saving the hard state, failing, following a newer term,
    writing the log. *)

From S2P Require Import Prelude Types StateMachine StoreIntf RaftLog NodeState Node Replication NodeStep NodeInv VoteFrame Cluster ApplySys Disk Consensus LogTree Raft RaftInv.

Section node.
Context {SM St : Type} `{StateMachine SM} `{Store St} `{RandSource} `{MapCodec}
  `{!HardStateLaws St} `{!DiskLaws St} `{!StateMachineLaws SM}.
#[local] Abbreviation Node := (Node SM St).
Context (members : gset string) (s0 : SM).
Implicit Types (h : history) (n : Node) (i j p : string) (st : St) (T : gmap (N * N) (N * Command)).

#[local] Abbreviation committed_by := (committed_by members).
#[local] Abbreviation ginv := (ginv members).
#[local] Abbreviation snap_ok := (snap_ok s0).
#[local] Abbreviation mem_ok := (mem_ok members s0).
#[local] Abbreviation disk_ok := (disk_ok members s0).
#[local] Abbreviation base := (base members s0).
#[local] Abbreviation base0 := (base0 members s0).
#[local] Abbreviation over := (over members).
#[local] Abbreviation up_ok := (up_ok members s0).
#[local] Abbreviation pend_ok := (pend_ok s0).
#[local] Abbreviation pc_ok := (pc_ok members s0).
#[local] Abbreviation hext := (hext members).

(** ** Fields the invariant does not look at *)

Definition face n :=
  (n.(snapshot), n.(log), n.(commitIndex), n.(lastApplied), n.(currentTerm), n.(role), n.(matchIndex),
   n.(storageFatal), n.(store), n.(pendingSnapshot), n.(leaderNoopIndex)).

Lemma base0_face h i vt n n' :
  n'.(snapshot) = n.(snapshot) → n'.(log) = n.(log) → n'.(commitIndex) = n.(commitIndex) →
  (vt ≤ n'.(currentTerm))%N → n'.(store) = n.(store) → base0 h i vt n → base0 h i vt n'.
Proof.
  intros Hsn Hl Hc Ht Hst [Hle [] Hd Ho]. unfold over, mtip in *. split.
  - done.
  - split; unfold mtip; by rewrite ?Hsn, ?Hl, ?Hc.
  - by rewrite Hst.
  - unfold over, mtip. by rewrite Hst, Hc, Hsn, Hl.
Qed.

Lemma base_face h i vt n n' :
  n'.(snapshot) = n.(snapshot) → n'.(log) = n.(log) → n'.(commitIndex) = n.(commitIndex) →
  (n.(lastApplied) ≤ n'.(lastApplied))%N → n'.(currentTerm) = n.(currentTerm) → n'.(store) = n.(store) →
  (n'.(storageFatal) = None → n.(storageFatal) = None) → base h i vt n → base h i vt n'.
Proof.
  intros Hsn Hl Hc Ha Ht Hst Hf [Hb Hli]. split; [eapply base0_face; [..|exact Hb]; try done; rewrite Ht; apply Hb|].
  intros Hnf. destruct (Hli (Hf Hnf)) as (? & ? & ? & ?). unfold live, mtip in *. rewrite Ht, Hst, !Hsn, Hl.
  split_and!; [done|done|lia|lia|done].
Qed.

Lemma role_face h cs i n n' : mtip n' = mtip n → n'.(currentTerm) = n.(currentTerm) → n'.(role) = n.(role) →
  n'.(matchIndex) = n.(matchIndex) → n'.(storageFatal) = n.(storageFatal) → n'.(leaderNoopIndex) = n.(leaderNoopIndex) →
  (n.(commitIndex) ≤ n'.(commitIndex))%N → role_ok h cs i n → role_ok h cs i n'.
Proof.
  intros Htip Ht Hr Hm Hf Hnp Hc Hro. unfold role_ok in *. rewrite Hr, Hf, Ht, Htip.
  destruct (role n); [done|done|]. destruct Hro as [? [(e & ?) ? ? ? ? Hcm]]. split; [done|].
  split; rewrite ?Ht, ?Htip, ?Hm, ?Hnp; [by exists e|done..|]. intros y Hy. etrans; [by apply Hcm|done].
Qed.

Lemma up_ok_face h cs i n n' pc : face n' = face n → up_ok h cs i n pc → up_ok h cs i n' pc.
Proof.
  unfold face. intros [= Hsn Hl Hc Ha Ht Hr Hm Hf Hst Hp Hnp] [(vt & Hb) Hro Hpe Hpc]. split.
  - exists vt. eapply base_face; [done|done|done|by rewrite Ha|done|done|by rewrite Hf|done].
  - eapply role_face; [by unfold mtip; rewrite Hsn, Hl|done..|by rewrite Hc|done].
  - unfold pend_ok. by rewrite Hp.
  - unfold pc_ok in *. by rewrite Ha, Hst.
Qed.

(** ** Terms *)

Lemma mem_lift h i vt vt' n : mem_ok h i vt n → (vt ≤ vt')%N → mem_ok h i vt' n.
Proof.
  intros [Hc Hs Ht Hk (cp & ? & ? & ?)] Hle. split; [done|done|lia|by eapply keep_term|]. exists cp.
  split_and!; [done|done|by eapply committed_by_mono].
Qed.

Lemma disk_lift h i vt vt' st : disk_ok h i vt st → (vt ≤ vt')%N → (vt' ≤ (durable_hs st).(CurrentTerm))%N → disk_ok h i vt' st.
Proof.
  intros [Hso Ht Hs Hc (dc & ? & ? & ?) Hl] Hle Hle'. split; [done|lia|done|by eapply committed_by_mono| |].
  - exists dc. split_and!; [done|by eapply committed_by_mono|done].
  - intros sn l Hd. destruct (Hl sn l Hd) as (Hch & Htm & Hk). split_and!; [done|lia|by eapply keep_term].
Qed.

Lemma over_lift h vt vt' n : over h vt n → (vt ≤ vt')%N → over h vt' n.
Proof.
  intros [?|[(dc & ? & ? & ?) Hd]] Hle; [by left|right]. split; [|done]. exists dc. split_and!; [done|done|by eapply committed_by_mono].
Qed.

(** ** Saving the hard state *)

Section tree.
Context h (Hg : ginv h).
Let Hok : tree_ok h.(h_tree) := gi_tree _ _ Hg.

Lemma disk_valid i vt st sn l : disk_ok h i vt st → disk st = Some (sn, l) → valid h.(h_tree) (snap_pos sn) ∧ sn = disk_snap st.
Proof.
  intros Hd Hdk. pose proof (disk_snap_eq _ _ _ Hdk) as ->. split; [|done]. by eapply snap_ok_valid, Hd.
Qed.

Lemma mtip_valid i vt n : mem_ok h i vt n → valid h.(h_tree) (mtip n).
Proof. intros []. unfold mtip. rewrite tip_end. apply chained_valid; [by eapply snap_ok_valid|done]. Qed.

Lemma dtip_valid i vt st sn l : disk_ok h i vt st → disk st = Some (sn, l) → valid h.(h_tree) (tip sn l).
Proof.
  intros Hd Hs. destruct (disk_valid _ _ _ _ _ Hd Hs) as [Hv _]. destruct (d_log _ _ _ _ _ _ Hd _ _ Hs) as (Hc & _).
  rewrite tip_end. by apply chained_valid.
Qed.

(** A committed position at or below another one. *)
Lemma committed_at u u' x y w : on h.(h_tree) w y → committed_by h u y → committed_by h u' x → (x.1 ≤ y.1)%N →
  on h.(h_tree) w x ∧ committed_by h u x.
Proof.
  intros Hon Hy Hx Hle. assert (on h.(h_tree) y x) as Hyx by (by eapply committed_below).
  split; [by etrans|by eapply committed_on].
Qed.

Lemma committed_same u u' x y : committed_by h u x → committed_by h u' y → x.1 = y.1 → x = y.
Proof.
  intros Hx Hy He. assert (on h.(h_tree) x y) as Hon by (eapply committed_below; [done|exact Hx|exact Hy|lia]).
  apply (on_index _ Hok) in Hon as (_ & _ & Heq). symmetry. by apply Heq.
Qed.

(** A committed position at or below the commit index is in the log. *)
Lemma committed_in_log i vt n u x : mem_ok h i vt n → committed_by h u x → (x.1 ≤ n.(commitIndex))%N →
  on h.(h_tree) (mtip n) x ∧ committed_by h vt x.
Proof.
  intros [_ _ _ _ (cp & Hcp & Hon & Hcom)] Hx Hle. eapply committed_at; [done|done|done|lia].
Qed.

(** The commit index that is saved belongs to a committed position that the
    log on disk has as well. *)
Lemma disk_save i vt st hs cp :
  disk_ok h i vt st → (vt ≤ hs.(CurrentTerm))%N → cp.1 = hs.(CommitIndex) → committed_by h vt cp →
  (∀ sn l, disk st = Some (sn, l) → (cp.1 < sn.(LastIncludedIndex))%N ∨ on h.(h_tree) (tip sn l) cp) →
  disk_ok h i vt (SaveHardState hs st).2.
Proof.
  intros Hd Hvt Hcp Hcom Hov. destruct (SaveHardState_disk hs st) as (Hdk & Hds & Hso & _).
  pose proof (SaveHardState_cases hs st) as Hhs. set (st' := (SaveHardState hs st).2) in *.
  pose proof Hd as [Hsound Ht Hs Hc Hdc Hl]. split; [auto| |by rewrite Hds|by rewrite Hds| |by rewrite Hdk].
  - destruct Hhs as [->| ->]; [done|lia].
  - rewrite Hdk. destruct Hhs as [->| ->]; [done|]. by exists cp.
Qed.

(** What [saveHardStateLocked] leaves alone. *)
Record saved n n' : Prop := {
  sv_face : face n' = (n.(snapshot), n.(log), n.(commitIndex), n.(lastApplied), n.(currentTerm), n.(role), n.(matchIndex),
             n.(storageFatal), n'.(store), n.(pendingSnapshot), n.(leaderNoopIndex));
  sv_disk : disk n'.(store) = disk n.(store);
  sv_snap : disk_snap n'.(store) = disk_snap n.(store);
  sv_append : appendable n.(store) → appendable n'.(store) }.

Lemma save_saved commit n e n' : saveHardStateLocked commit n = (e, n') →
  saved n n' ∧ n'.(params) = n.(params) ∧ n'.(store) = (SaveHardState (mkHardState n.(currentTerm) n.(votedFor) commit) n.(store)).2 ∧
  (e = None → durable_hs n'.(store) = mkHardState n.(currentTerm) n.(votedFor) commit).
Proof.
  unfold saveHardStateLocked. set (hs := mkHardState _ _ _).
  destruct (SaveHardState_disk hs n.(store)) as (Hdk & Hds & _ & Hap).
  destruct (SaveHardState hs n.(store)) as [[err|] st'] eqn:E; intros [= <- <-]; cbn in *; (split_and!; [by split|done|done|]); [done|].
  intros _. by apply SaveHardState_ok in E.
Qed.

(** [saveHardStateLocked] with a committed position that is on disk. *)
Lemma base_save i vt n e n' c cp :
  base0 h i vt n → saveHardStateLocked c n = (e, n') → cp.1 = c → committed_by h vt cp →
  (∀ sn l, disk n.(store) = Some (sn, l) → (cp.1 < sn.(LastIncludedIndex))%N ∨ on h.(h_tree) (tip sn l) cp) →
  (n.(commitIndex) < (disk_snap n.(store)).(LastIncludedIndex))%N ∨ on h.(h_tree) (mtip n) cp →
  base0 h i vt n'.
Proof.
  intros [Hle [] Hd Ho] Hs Hcp Hcom Hov Hmem.
  destruct (save_saved _ _ _ _ Hs) as ([Hf Hdk Hds Hap] & _ & Hst & _).
  unfold face in Hf. injection Hf as Hsn Hl Hc Ha Ht Hr Hm Hfa Hp Hnp. split.
  - by rewrite Ht.
  - split; unfold mtip in *; rewrite ?Hsn, ?Hl, ?Hc; done.
  - rewrite Hst. by apply (disk_save i vt n.(store) _ cp).
  - unfold over, mtip in *. rewrite Hdk, Hds, Hc, Hsn, Hl. destruct Ho as [Hh|[Hdc Hdl]]; [by left|].
    destruct Hmem as [?|Hon]; [by left|right]. split; [|done]. rewrite Hst.
    destruct (SaveHardState_cases (mkHardState (currentTerm n) (votedFor n) c) (store n)) as [->| ->]; [done|]. by exists cp.
Qed.

(** With the node's own commit index. *)
Lemma base_persist i vt n e n' : base0 h i vt n → persistHardStateLocked n = (e, n') → base0 h i vt n'.
Proof.
  intros Hb Hs. destruct (m_com _ _ _ _ _ _ (b_mem _ _ _ _ _ _ Hb)) as (cp & Hcp & Hon & Hcom).
  eapply (base_save i vt n e n' _ cp); [done|exact Hs|done|done| |by right].
  intros sn l Hsl. rewrite Hcp. destruct (disk_valid _ _ _ _ _ (b_disk _ _ _ _ _ _ Hb) Hsl) as [_ ->].
  destruct (b_over _ _ _ _ _ _ Hb) as [?|[_ Hd]]; [by left|right]. by eapply Hd.
Qed.

Lemma base_lift i vt vt' n : base0 h i vt n → (vt ≤ vt')%N → (vt' ≤ n.(currentTerm))%N →
  (vt' ≤ (durable_hs n.(store)).(CurrentTerm))%N → base0 h i vt' n.
Proof. intros [Hle Hm Hd Ho] Hv1 Hv2 Hv3. split; [done|by eapply mem_lift|by eapply disk_lift|by eapply over_lift]. Qed.

End tree.

(** ** Writing the log *)

Section write.
Context h (Hg : ginv h) (Hmax : ∀ x, valid h.(h_tree) x → (x.1 < two64 - 1)%N).
Context i vt n (Hb : base h i vt n) (Hnf : n.(storageFatal) = None) (Hwf : node_wf n).
Let Hok : tree_ok h.(h_tree) := gi_tree _ _ Hg.

Lemma entries_bound x es e : valid h.(h_tree) x → chained h.(h_tree) x es → e ∈ es → (x.1 < e.(Index) < two64 - 1)%N.
Proof.
  intros Hx Hc [k Hk]%list_elem_of_lookup. pose proof (chained_contiguous _ _ _ Hc _ _ Hk) as Hi. split; [lia|].
  destruct (chained_entry _ _ _ _ _ Hc Hk) as (_ & q & Hq). apply (Hmax (entry_pos e)). right. by eexists.
Qed.

Lemma live_disk sn l : disk n.(store) = Some (sn, l) →
  tip sn l = mtip n ∧ chained h.(h_tree) (snap_pos sn) l ∧ sn = disk_snap n.(store).
Proof.
  intros Hd. destruct Hb as [Hb0 Hli]. destruct (Hli Hnf) as (_ & _ & _ & Ht).
  destruct (disk_valid _ _ _ _ _ _ (b_disk _ _ _ _ _ _ Hb0) Hd) as [_ ->].
  destruct (d_log _ _ _ _ _ _ (b_disk _ _ _ _ _ _ Hb0) _ _ Hd) as (Hch & _). split_and!; [by apply Ht|done|done].
Qed.

(** Both commit positions of a live node are in its log. *)
Lemma live_commits :
  (∃ cp, cp.1 = n.(commitIndex) ∧ on h.(h_tree) (mtip n) cp ∧ committed_by h vt cp) ∧
  (∃ dc, dc.1 = (durable_hs n.(store)).(CommitIndex) ∧ on h.(h_tree) (mtip n) dc ∧ committed_by h vt dc).
Proof.
  destruct Hb as [Hb0 Hli]. split; [apply Hb0|]. destruct (Hli Hnf) as (_ & _ & ? & _). destruct Hwf as [_ _ _ ? _].
  destruct (b_over _ _ _ _ _ _ Hb0) as [?|[? _]]; [lia|done].
Qed.

(** The snapshot on disk is in the log. *)
Lemma live_snap : on h.(h_tree) (mtip n) (snap_pos (disk_snap n.(store))).
Proof.
  destruct Hb as [Hb0 Hli]. destruct (Hli Hnf) as (_ & _ & ? & _). destruct Hwf as [_ _ _ ? _].
  eapply (committed_in_log h Hg i vt n); [apply Hb0|apply Hb0|cbn; lia].
Qed.

(** *** Replacing *)

(** The log moves to [w']: what was committed and acknowledged stays. *)
Definition moves (w' : N * N) : Prop :=
  keep h i w' vt ∧ ((w'.2 ≤ vt)%N ∧ ∀ x, committed_by h vt x → on h.(h_tree) (mtip n) x → on h.(h_tree) w' x).

Lemma replace_disk_ok l' r st' :
  ReplaceEntries l' n.(store) = (r, st') → chained h.(h_tree) (snap_pos n.(snapshot)) l' →
  let w' := tip n.(snapshot) l' in moves w' →
  disk_ok h i vt st' ∧ disk_snap st' = disk_snap n.(store) ∧ appendable st' ∧ durable_hs st' = durable_hs n.(store) ∧
  ∀ sn l, disk st' = Some (sn, l) → (r ≠ None ∧ tip sn l = mtip n) ∨ tip sn l = w'.
Proof.
  intros Hr Hc w' (Hkw & Hw2 & Hmv). destruct Hb as [Hb0 Hli]. destruct (Hli Hnf) as (Hvt & Happ & Hle & Ht).
  pose proof (b_disk _ _ _ _ _ _ Hb0) as Hd. pose proof (b_mem _ _ _ _ _ _ Hb0) as Hm.
  pose proof (ReplaceEntries_hs l' n.(store)) as Hhs. rewrite Hr in Hhs. cbn in Hhs.
  assert (valid h.(h_tree) (snap_pos n.(snapshot))) as Hvs by (eapply snap_ok_valid, Hm).
  destruct (ReplaceEntries_disk l' n.(store) r st' Hr (d_sound _ _ _ _ _ _ Hd)) as (Hds & Hso & Hcase).
  { apply Forall_forall. intros e He. destruct (entries_bound _ _ _ Hvs Hc He). lia. }
  assert (on h.(h_tree) w' (snap_pos (disk_snap n.(store)))) as Hon by (apply Hmv; [apply Hd|apply live_snap]).
  assert (on h.(h_tree) w' (snap_pos n.(snapshot))) as Hon' by (subst w'; rewrite tip_end; by apply chained_on).
  assert (contiguous ((disk_snap n.(store)).(LastIncludedIndex) + 1) l' → snap_pos (disk_snap n.(store)) = snap_pos n.(snapshot)) as Hpos.
  { intros Hcon. apply (on_same_index _ Hok w'); [done|done|]. cbn. destruct l' as [|e l'].
    - apply (on_index _ Hok) in Hon as (Hi & _). subst w'. cbn in *. unfold lastIndex in Hi. cbn in Hi. lia.
    - apply contiguous_cons in Hcon as [He _]. destruct Hc as [He' _]. cbn in He'. lia. }
  assert (∀ sn l, disk st' = Some (sn, l) →
    (r ≠ None ∧ disk n.(store) = Some (sn, l)) ∨ (l = l' ∧ snap_pos sn = snap_pos n.(snapshot))) as Hcases.
  { intros sn l Hs. destruct Hcase as [(? & Hsame & _)|[_ [?|[Hs' Hcon]]]]; [left; split; [done|congruence]|congruence|right].
    rewrite Hs in Hs'. injection Hs' as -> ->. split; [done|auto]. }
  assert (∀ sn l, disk st' = Some (sn, l) → (r ≠ None ∧ tip sn l = mtip n) ∨ tip sn l = w') as Htips.
  { intros sn l Hs. destruct (Hcases sn l Hs) as [[? Hs']|(-> & Hp)]; [left; split; [done|by apply Ht]|right].
    subst w'. by rewrite !tip_end, Hp. }
  split_and!; [|done| |done|done].
  - split; [done|rewrite Hhs; apply Hd|rewrite Hds; apply Hd|rewrite Hds; apply Hd| |].
    + destruct live_commits as [_ (dc & Hdc & Hdon & Hdcom)]. rewrite Hhs. exists dc. split_and!; [done|done|].
      intros sn l Hs. right. destruct (Htips sn l Hs) as [[_ ->]| ->]; [done|by apply Hmv].
    + intros sn l Hs. destruct (Hcases sn l Hs) as [[_ Hs']|(-> & Hp)]; [by apply (d_log _ _ _ _ _ _ Hd)|].
      assert (tip sn l' = w') as -> by (subst w'; by rewrite !tip_end, Hp). by rewrite Hp.
  - destruct Hcase as [(_ & _ & ?)|[? _]]; auto.
Qed.

(** The node after a failed replacement of its log. *)
Lemma replace_failed l' r st' :
  ReplaceEntries l' n.(store) = (r, st') → chained h.(h_tree) (snap_pos n.(snapshot)) l' → moves (tip n.(snapshot) l') →
  base0 h i vt (with_store st' n) ∧ disk_snap st' = disk_snap n.(store).
Proof.
  intros Hr Hc Hmv. destruct (replace_disk_ok l' r st' Hr Hc Hmv) as (Hd & Hds & _ & Hhs & Htip). split; [|done].
  destruct Hmv as (_ & _ & Hmv). destruct Hb as [[Hle [] _ _] _]. split; [done|by split|done|]. right. cbn. rewrite Hhs. split; [apply live_commits|].
  intros sn l cp Hs Hcp Hon. destruct (Htip sn l Hs) as [[_ ->]| ->]; [done|]. apply Hmv; [|done].
  destruct m_com as (cp' & Hcp' & Hon' & Hcom'). rewrite (on_same_index _ Hok (mtip n) cp cp'); [done|done|done|congruence].
Qed.

(** The node after it replaced its log. *)
Lemma replace_done l' st' n' :
  ReplaceEntries l' n.(store) = (None, st') → chained h.(h_tree) (snap_pos n.(snapshot)) l' → moves (tip n.(snapshot) l') →
  n'.(snapshot) = n.(snapshot) → n'.(log) = l' → n'.(commitIndex) = n.(commitIndex) →
  n'.(lastApplied) = n.(lastApplied) → n'.(currentTerm) = n.(currentTerm) → n'.(store) = st' →
  base h i vt n' ∧ disk_snap st' = disk_snap n.(store).
Proof.
  intros Hr Hc Hmv Hsn Hl Hci Hla Ht Hst. destruct (replace_disk_ok l' None st' Hr Hc Hmv) as (Hd & Hds & Hap & Hhs & Htip).
  split; [|done].
  destruct Hmv as (Hkw & Hw2 & Hmv). pose proof live_commits as [(cp & Hcp & Hon & Hcom) (dc & Hdc & Hdon & Hdcom)].
  destruct Hb as [[Hle [] _ _] Hli]. destruct (Hli Hnf) as (Hvt & _ & Hlea & _).
  assert (mtip n' = tip n.(snapshot) l') as Htn by (unfold mtip; by rewrite Hsn, Hl).
  assert (∀ sn l, disk st' = Some (sn, l) → tip sn l = mtip n') as Hdt.
  { intros sn l Hs. rewrite Htn. destruct (Htip sn l Hs) as [[? _]| ->]; done. }
  split; [split|].
  - by rewrite Ht.
  - split; rewrite ?Hsn, ?Hl, ?Htn; [done..|]. exists cp. rewrite Hci. split_and!; [done|by apply Hmv|done].
  - by rewrite Hst.
  - right. rewrite Hst, Hhs, Hci. split.
    + exists dc. rewrite Htn. split_and!; [done|by apply Hmv|done].
    + intros sn l cp' Hs _ Hon'. by rewrite (Hdt _ _ Hs).
  - intros _. unfold live. rewrite Ht, Hst, Hds, Hla, Hsn. split_and!; [done|done|lia|lia|done].
Qed.

(** *** Appending *)

Context es (Hes : chained h.(h_tree) (mtip n) es) (Hne : es ≠ []) (Hterm : ((end_pos (mtip n) es).2 ≤ vt)%N).

Lemma append_disk_ok r st' : AppendEntries es n.(store) = (r, st') →
  disk_ok h i vt st' ∧ disk_snap st' = disk_snap n.(store) ∧ (r = None → appendable st') ∧
  durable_hs st' = durable_hs n.(store) ∧
  ∀ sn l, disk st' = Some (sn, l) →
    on h.(h_tree) (tip sn l) (mtip n) ∧ (r = None → tip sn l = end_pos (mtip n) es).
Proof.
  intros Ha. destruct Hb as [Hb0 Hli]. destruct (Hli Hnf) as (Hvt & Happ & Hle & Ht).
  pose proof (b_disk _ _ _ _ _ _ Hb0) as Hd. pose proof (mtip_valid _ _ _ _ (b_mem _ _ _ _ _ _ Hb0)) as Hv.
  pose proof (AppendEntries_hs es n.(store)) as Hhs. rewrite Ha in Hhs. cbn in Hhs.
  destruct (AppendEntries_disk es n.(store) r st' Ha (d_sound _ _ _ _ _ _ Hd) Happ Hne) as (Hds & Hso & Hap & Hdisk).
  { apply Forall_forall. intros e He. destruct (entries_bound _ _ _ Hv Hes He) as [? ?]. cbn in *.
    destruct Hwf as [_ _ _ ? ?]. unfold lastIndexLocked in *. split; lia. }
  assert (∀ sn l, disk st' = Some (sn, l) → ∃ l0 k, disk n.(store) = Some (sn, l0) ∧ l = l0 ++ take k es ∧
    tip sn l = end_pos (mtip n) (take k es) ∧ (r = None → take k es = es)) as Hcases.
  { intros sn l Hs. destruct Hdisk as [?|(k & Hk & Hr)]; [congruence|]. rewrite Hs in Hk. unfold disk_append in Hk.
    destruct (disk n.(store)) as [[sn0 l0]|] eqn:Hs0; [|done]. injection Hk as -> ->. exists l0, k. split_and!; [done|done| |].
    - destruct (live_disk _ _ Hs0) as (Htip & _). by rewrite tip_end, end_pos_app, <- tip_end, Htip.
    - intros Hn. by rewrite take_ge by auto. }
  assert (∀ k, chained h.(h_tree) (mtip n) (take k es) ∧ on h.(h_tree) (end_pos (mtip n) (take k es)) (mtip n)) as Hpre.
  { intros k. destruct (chained_take _ _ _ k Hes) as [Hck _]. split; [done|]. by apply chained_on. }
  split_and!; [|done|done|done|].
  - pose proof Hd as [Hso0 Htd Hsn Hsc _ Hl0]. split; [done|by rewrite Hhs|by rewrite Hds|by rewrite Hds| |].
    + destruct live_commits as [_ (dc & Hdc & Hdon & Hdcom)]. rewrite Hhs. exists dc. split_and!; [done|done|].
      intros sn l Hs. right. destruct (Hcases _ _ Hs) as (l0 & k & _ & _ & -> & _). etrans; [apply Hpre|done].
    + intros sn l Hs. destruct (Hcases _ _ Hs) as (l0 & k & Hs0 & Hl & Htip & _). rewrite Htip.
      destruct (live_disk _ _ Hs0) as (Htip0 & Hch & _). split_and!.
      * rewrite Hl. apply chained_app. split; [done|]. rewrite <- tip_end, Htip0. apply Hpre.
      * assert (on h.(h_tree) (end_pos (mtip n) es) (end_pos (mtip n) (take k es))) as Hon by (by apply chained_take).
        apply (on_index _ Hok) in Hon as (_ & ? & _). lia.
      * eapply keep_extend; [apply Hb0|apply Hpre].
  - intros sn l Hs. destruct (Hcases _ _ Hs) as (l0 & k & _ & _ & -> & Hk). split; [apply Hpre|]. intros Hr. by rewrite Hk.
Qed.

(** The node after a failed append. *)
Lemma append_failed r st' : AppendEntries es n.(store) = (r, st') →
  base0 h i vt (with_store st' n) ∧ disk_snap st' = disk_snap n.(store).
Proof.
  intros Ha. destruct (append_disk_ok r st' Ha) as (Hd & Hds & _ & Hhs & Hl). split; [|done]. pose proof live_commits as [_ Hdc].
  destruct Hb as [[Hle [] _ _] _]. split; [done|by split|done|]. right. cbn. rewrite Hhs. split; [done|].
  intros sn l cp Hs _ Hon. etrans; [by apply Hl|done].
Qed.

(** The node after an append. *)
Lemma append_done st' n' : AppendEntries es n.(store) = (None, st') →
  n'.(snapshot) = n.(snapshot) → n'.(log) = n.(log) ++ es → n'.(commitIndex) = n.(commitIndex) →
  n'.(lastApplied) = n.(lastApplied) → n'.(currentTerm) = n.(currentTerm) → n'.(store) = st' →
  base h i vt n' ∧ mtip n' = end_pos (mtip n) es ∧ disk_snap st' = disk_snap n.(store).
Proof.
  intros Ha Hsn Hl Hc Hla Ht Hst. destruct (append_disk_ok None st' Ha) as (Hd & Hds & Hap & Hhs & Hdl).
  assert (mtip n' = end_pos (mtip n) es) as Htip by (unfold mtip; by rewrite Hsn, Hl, !tip_end, end_pos_app).
  split; [|done]. pose proof live_commits as [(cp & Hcp & Hon & Hcom) (dc & Hdc & Hdon & Hdcom)].
  destruct Hb as [[Hle [] _ _] Hli]. destruct (Hli Hnf) as (Hvt & _ & Hlea & _).
  assert (on h.(h_tree) (mtip n') (mtip n)) as Hext by (rewrite Htip; by apply chained_on).
  assert (∀ sn l, disk st' = Some (sn, l) → tip sn l = mtip n') as Hdt.
  { intros sn l Hs. destruct (Hdl sn l Hs) as [_ Hk]. by rewrite Hk, Htip. }
  split; [split|].
  - by rewrite Ht.
  - split; [rewrite Hsn, Hl; apply chained_app; split; [done|]; by rewrite <- tip_end|by rewrite Hsn|by rewrite Htip|by eapply keep_extend|].
    exists cp. rewrite Hc. split_and!; [done|by etrans|done].
  - by rewrite Hst.
  - right. rewrite Hst, Hhs. split; [exists dc; split_and!; [done|by etrans|done]|].
    intros sn l cp' Hs _ Hon'. by rewrite (Hdt _ _ Hs).
  - intros _. unfold live. rewrite Ht, Hst, Hds, Hla, Hsn. by split_and!; [|apply Hap|lia|lia|].
Qed.

End write.

(** ** A storage failure *)

Lemma up_ok_fail h cs i vt n pc err :
  base0 h i vt n → pend_ok h.(h_tree) n → pc_ok h n pc → up_ok h cs i (failStorageLocked err n) pc.
Proof.
  intros Hb Hp Hpc. split; [|done|done|done]. exists vt. split; [|done]. eapply base0_face; [..|exact Hb]; try done. apply Hb.
Qed.

(** ** A newer term *)

Lemma pc_ok_same h n n' pc : n'.(lastApplied) = n.(lastApplied) → disk_snap n'.(store) = disk_snap n.(store) →
  pc_ok h n pc → pc_ok h n' pc.
Proof. intros Ha Hs [Hp Hsv]. split; rewrite ?Ha, ?Hs; done. Qed.

Lemma pc_ok_saved h n n' pc : saved n n' → pc_ok h n pc → pc_ok h n' pc.
Proof.
  intros [Hf _ Hs _]. unfold face in Hf. injection Hf as Hsn Hl Hc Ha Ht Hr Hm Hfa Hpe Hnp. by apply pc_ok_same.
Qed.

Lemma up_ok_follow h cs i n pc term leader b e n' :
  ginv h → up_ok h cs i n pc → becomeFollowerWithTimerLocked term leader b n = (e, n') →
  up_ok h cs i n' pc ∧ core n' = core n ∧ n'.(params) = n.(params) ∧ n'.(role) = Follower ∧
  n'.(currentTerm) = N.max term n.(currentTerm) ∧
  (e = None → n'.(storageFatal) = n.(storageFatal)) ∧ n'.(pendingSnapshot) = n.(pendingSnapshot).
Proof.
  intros Hg [(vt & Hb & Hli) _ Hpe Hpc] Hf. unfold becomeFollowerWithTimerLocked in Hf.
  set (n1 := if decide (currentTerm n < term)%N then _ else n) in Hf. set (n2 := if b then _ else _) in Hf.
  assert (core n2 = core n ∧ n2.(params) = n.(params) ∧ n2.(role) = Follower ∧ n2.(currentTerm) = N.max term n.(currentTerm) ∧
    n2.(storageFatal) = n.(storageFatal) ∧ n2.(pendingSnapshot) = n.(pendingSnapshot) ∧ n2.(store) = n.(store))
    as (Hcore & Hpar & Hrole & Hterm & Hfat & Hpend & Hst).
  { subst n2 n1. destruct b, (decide (currentTerm n < term)%N); cbn; split_and!; try done; lia. }
  clearbody n2. clear n1. pose proof (core_fields _ _ Hcore) as (Hsn & Hl & Hc & Ha & Hsm).
  destruct (persistHardStateLocked n2) as [e2 n3] eqn:Ep.
  assert (base0 h i vt n2) as Hb2 by (eapply base0_face; [..|exact Hb]; try done; pose proof (b_le _ _ _ _ _ _ Hb); lia).
  pose proof (base_persist h i vt n2 e2 n3 Hb2 Ep) as Hb3.
  pose proof (save_saved _ _ _ _ Ep) as (Hsv & Hpar3 & _ & Hhs). pose proof Hsv as [Hface Hdk Hds Hap].
  unfold face in Hface. injection Hface as Hsn3 Hl3 Hc3 Ha3 Ht3 Hr3 Hm3 Hf3 Hp3 Hnp3.
  assert (core n3 = core n) as Hcore3.
  { rewrite <- Hcore. apply core_persist in Ep. exact Ep. }
  assert (pc_ok h n3 pc) as Hpc3.
  { apply (pc_ok_saved h n2); [done|]. destruct Hpc as [Hpa Hpb]. split; rewrite ?Ha, ?Hst; done. }
  assert (pend_ok h.(h_tree) n3) as Hpe3 by (unfold pend_ok; by rewrite Hp3, Hpend).
  destruct e2 as [e2|]; injection Hf as <- <-.
  { split_and!; [by eapply up_ok_fail|exact Hcore3|cbn; congruence|done|cbn; congruence|done|cbn; congruence]. }
  assert (up_ok h cs i n3 pc) as Hup.
  { split; [|unfold role_ok; by rewrite Hr3, Hrole|done|done].
    destruct (decide (n.(storageFatal) = None)) as [Hnf|Hnf].
    - destruct (Hli Hnf) as (Hvt & Happ & Hsnl & Htip). exists (N.max term n.(currentTerm)). split.
      + eapply (base_lift h); [exact Hb3|lia|rewrite Ht3; lia|]. rewrite Hhs by done. cbn. lia.
      + intros _. unfold live. rewrite Hds, Hdk, Hst, Ha3, Ha. unfold mtip. rewrite !Hsn3, Hl3, !Hsn, Hl.
        split_and!; [congruence|apply Hap; by rewrite Hst|lia|lia|done].
    - exists vt. split; [done|]. rewrite Hf3, Hfat. done. }
  case_decide as Hwas.
  - split_and!; [eapply up_ok_face; [|exact Hup]; done|exact Hcore3|cbn; congruence|cbn; congruence|cbn; congruence|cbn; congruence|cbn; congruence].
  - split_and!; [done|done|congruence|congruence|congruence|congruence|congruence].
Qed.

End node.
