(* ===== verification/RaftSteps.v ===== *)
(** * The handlers keep the invariant

    Each critical section of a node, run on a node that satisfies the
    invariant of [RaftInv.v] and on messages that do: the history grows by
    what the section adds to it, and the node, and what it sends, satisfy
    the invariant for the new history. *)

From S2P Require Import Prelude Types StateMachine StoreIntf RaftLog NodeState Node Replication NodeStep NodeInv VoteFrame Cluster ApplySys Disk Consensus LogTree Raft RaftInv RaftNode.

Section steps.
Context {SM St : Type} `{StateMachine SM} `{Store St} `{RandSource} `{MapCodec}
  `{!HardStateLaws St} `{!DiskLaws St} `{!StateMachineLaws SM} `{!MapCodecLaws}.
#[local] Abbreviation Node := (Node SM St).
Context (members : gset string) (s0 : SM).
Implicit Types (h : history) (n : Node) (i j p : string) (st : St) (T : gmap (N * N) (N * Command)).

#[local] Abbreviation committed_by := (committed_by members).
#[local] Abbreviation ginv := (ginv members).
#[local] Abbreviation snap_ok := (snap_ok s0).
#[local] Abbreviation mem_ok := (mem_ok members s0).
#[local] Abbreviation disk_ok := (disk_ok members s0).
#[local] Abbreviation base := (base members s0).
#[local] Abbreviation base0 := (base0 members s0).
#[local] Abbreviation up_ok := (up_ok members s0).
#[local] Abbreviation pend_ok := (pend_ok s0).
#[local] Abbreviation pc_ok := (pc_ok members s0).
#[local] Abbreviation hext := (hext members).
#[local] Abbreviation ae_ok := (ae_ok members).
#[local] Abbreviation aer_ok := (aer_ok members).

(** ** The history *)

(** A step that is not an election. *)
Record history_grows i h h' : Prop := {
  g_ext : hext i h h';
  g_elect : h'.(h_elect) = h.(h_elect);
  g_votes : h'.(h_votes) = h.(h_votes) }.

Section env.
Context h (Hg : ginv h) (Hmax : ∀ x, valid h.(h_tree) x → (x.1 < two64 - 1)%N).
Let Hok : tree_ok h.(h_tree) := gi_tree _ _ Hg.

Lemma hext_refl i : hext i h h.
Proof. split; [by eapply extends_refl|done|done|by intros j _ t x|by left|by left|by left]. Qed.

Lemma same_history i : history_grows i h h.
Proof. split; [apply hext_refl|done|done]. Qed.

Lemma ack_history i t x : led h t x → (∀ u c, (i, u, c) ∈ h.(h_votes) → (u ≤ t)%N) → history_grows i h (h_ack i t x h).
Proof.
  intros Hl Hv. destruct (ack_ok _ _ _ _ _ Hg Hl Hv) as [Hg' Hx]. split; [|done|done].
  split; [done|done|done| |by left|by left|by left]. intros j Hne t' y Hy. apply ack_vouched in Hy as [?|(-> & _)]; done.
Qed.

Lemma led_term t x : led h t x → (x.2 ≤ t)%N.
Proof.
  intros (Hv & l & e & He & [Hon| ->]); [|done]. destruct (gi_elect _ _ Hg _ _ _ He) as (_ & ? & _).
  apply (on_index _ Hok) in Hon as (_ & ? & _). lia.
Qed.

(** The log of a node that takes over what a leader sent keeps what was
    committed. *)
Lemma follow_moves i n vt y w' : mem_ok h i vt n → led h vt y → follows h (mtip n) y w' → moves members h i vt n w'.
Proof.
  intros [Hc Hs Ht Hk Hcom] Hy Hf. split; [by eapply follow_keep|]. split.
  - destruct Hf as [->|[-> _]]; [done|by apply led_term].
  - intros x Hx Hon. destruct Hf as [->|[-> Hf]]; [done|].
    assert (led h vt x) as Hlx by (eapply committed_by_led; [done|done|]; destruct Hy as (_ & l & e & ? & _); by eexists).
    destruct (led_linear _ _ Hg vt x y Hlx Hy) as [Hxy|?]; [|done].
    destruct Hf as [Hyw|Hno]; [by etrans|]. destruct Hno. by etrans.
Qed.

(** ** Acknowledging *)

Lemma base_ack i vt n x : base h i vt n → n.(storageFatal) = None → on h.(h_tree) (mtip n) x →
  extends h (h_ack i n.(currentTerm) x h) → base (h_ack i n.(currentTerm) x h) i vt n.
Proof.
  intros [[Hle [] [] Ho] Hli] Hnf Hon Hx. destruct (Hli Hnf) as (Hvt & Happ & Hsnl & Htip).
  split; [split|done]; [done| | |].
  - split; [done|done|done|apply ack_keep; [done|]; intros _; split; [done|lia]|]. destruct m_com as (cp & ? & ? & ?). exists cp. split_and!; [done|done|by eapply ex_committed].
  - split; [done|done|done|by eapply ex_committed| |].
    + destruct d_com as (dc & ? & ? & ?). exists dc. split_and!; [done|by eapply ex_committed|done].
    + intros sn l Hs. destruct (d_log sn l Hs) as (? & ? & Hk). split_and!; [done|done|]. apply ack_keep; [done|].
      intros _. rewrite (Htip sn l Hs). split; [done|lia].
  - destruct Ho as [?|[(dc & ? & ? & ?) ?]]; [by left|right]. split; [|done]. exists dc. split_and!; [done|done|by eapply ex_committed].
Qed.

Lemma up_ok_ack i cs n pc x : up_ok h cs i n pc → n.(storageFatal) = None → on h.(h_tree) (mtip n) x →
  led h n.(currentTerm) x → (∀ u c, (i, u, c) ∈ h.(h_votes) → (u ≤ n.(currentTerm))%N) →
  up_ok (h_ack i n.(currentTerm) x h) cs i n pc.
Proof.
  intros [(vt & Hb) Hr Hp Hpc] Hnf Hon Hl Hv. destruct (ack_ok _ _ _ _ _ Hg Hl Hv) as [_ Hx].
  split; [exists vt; by apply base_ack|unfold role_ok in *|done|by eapply pc_ok_grow].
  destruct (role n); [done|done|]. destruct Hr as [? [(e & ?) ? ? ? Hm ?]]. split; [done|]. split; [by exists e|done|done|by right| |done].
  intros q m Hq Hpos. destruct (Hm q m Hq Hpos) as (y & ? & ?). exists y. split; [by right|done].
Qed.

(** ** The commit index *)

Lemma base_persist_live i vt n e n' : base h i vt n → persistHardStateLocked n = (e, n') → base h i vt n'.
Proof.
  intros [Hb Hli] Hp. split; [by eapply base_persist|]. destruct (save_saved _ _ _ _ Hp) as ([Hf Hdk Hds Hap] & _).
  unfold face in Hf. injection Hf as Hsn Hl Hc Ha Ht Hr Hm Hfa Hpe Hnp. rewrite Hfa. intros Hnf.
  destruct (Hli Hnf) as (? & ? & ? & ?). unfold live, mtip. rewrite Ht, Hdk, Hds, !Hsn, Hl, Ha. split_and!; [done|auto|lia|lia|done].
Qed.

Lemma base_commit i vt n c cp : base h i vt n → n.(storageFatal) = None → node_wf n →
  cp.1 = c → on h.(h_tree) (mtip n) cp → committed_by h vt cp → base h i vt (with_commitIndex c n).
Proof.
  intros Hb Hnf Hwf Hcp Hon Hcom. pose proof (live_commits _ _ _ _ _ _ Hb Hnf Hwf) as [_ Hdc].
  destruct Hb as [[Hle [] Hd _] Hli]. destruct (Hli Hnf) as (Hvt & Happ & Hsnl & Htip). split; [split|exact Hli].
  - done.
  - split; [done..|]. by exists cp.
  - done.
  - right. split; [exact Hdc|]. intros sn l cp' Hs _ Hon'. cbn. by rewrite (Htip _ _ Hs).
Qed.

(** ** Accepting a leader *)

Lemma up_base i cs n pc : up_ok h cs i n pc → n.(storageFatal) = None → base h i n.(currentTerm) n.
Proof. intros [(vt & Hb & Hli) _ _ _] Hnf. destruct (Hli Hnf) as [<- _]. by split. Qed.

(** The test both RPC handlers make before they accept a request of a leader. *)
Lemma follow_ready i cs n pc term leader e n1 : up_ok h cs i n pc → n.(storageFatal) = None → (n.(currentTerm) ≤ term)%N →
  (if decide ((n.(currentTerm) < term)%N ∨ n.(role) ≠ Follower) then becomeFollowerLocked term leader n else (None, n)) = (e, n1) →
  up_ok h cs i n1 pc ∧ core n1 = core n ∧ n1.(params) = n.(params) ∧ n1.(role) = Follower ∧ n1.(currentTerm) = term ∧
  (e = None → n1.(storageFatal) = None) ∧ n1.(pendingSnapshot) = n.(pendingSnapshot).
Proof.
  intros Hu Hnf Hle. case_decide as Hd.
  - intros E. destruct (up_ok_follow members s0 h cs i n pc _ _ _ _ _ Hg Hu E) as (? & ? & ? & ? & ? & Hf & ?).
    split_and!; [done|done|done|done|lia|by intros ->%Hf|done].
  - intros [= <- <-]. split_and!; [done|done|done| |lia|done|done].
    destruct (role n) eqn:Er; [done|exfalso; apply Hd; by right..].
Qed.

(** A higher commit index is saved, or taken back when the save fails. *)
Lemma commit_save i cs n pc cp e n2 : base h i n.(currentTerm) n → pend_ok h.(h_tree) n → pc_ok h n pc → n.(storageFatal) = None →
  node_wf n → (n.(commitIndex) ≤ cp.1)%N →
  on h.(h_tree) (mtip n) cp → committed_by h n.(currentTerm) cp → persistHardStateLocked (with_commitIndex cp.1 n) = (e, n2) →
  (role_ok h cs i (with_commitIndex cp.1 n) → up_ok h cs i n2 pc) ∧
  (∀ n3, n3 = with_commitIndex n.(commitIndex) n2 → base h i n.(currentTerm) n3 ∧ pend_ok h.(h_tree) n3 ∧ pc_ok h n3 pc) ∧
  node_wf n2 ∧ saved (with_commitIndex cp.1 n) n2.
Proof.
  intros Hb Hpe Hpc Hnf Hwf Hle Hon Hcom Ep.
  pose proof (on_index _ Hok _ _ Hon) as (Hi & _). cbn in Hi.
  assert (base h i n.(currentTerm) (with_commitIndex cp.1 n)) as Hb1 by (by apply (base_commit i _ n cp.1 cp)).
  pose proof (base_persist_live _ _ _ _ _ Hb1 Ep) as Hb2.
  destruct (save_saved _ _ _ _ Ep) as (Hsv & _). pose proof Hsv as [Hf _ _ _].
  unfold face in Hf. cbn in Hf. injection Hf as Hsn Hl Hc Ha Ht Hro Hm Hfa Hp Hnp.
  assert (node_wf n2) as Hwf2.
  { eapply node_wf_core; [apply (evolves_commit n cp.1); [done|unfold lastIndexLocked; lia]|]. by apply core_persist in Ep. }
  assert (pc_ok h n2 pc) as Hpc2 by (apply (pc_ok_saved members s0 h (with_commitIndex cp.1 n)); [done|exact Hpc]).
  assert (pend_ok h.(h_tree) n2) as Hpe2 by (unfold pend_ok; by rewrite Hp).
  assert (mtip n2 = mtip n) as Hmt by (unfold mtip; by rewrite Hsn, Hl).
  split_and!; [|intros n3 ->; split_and!; [|done|done]|done|done].
  { intros Hr. split; [by eexists| |done|done]. eapply role_face; [..|exact Hr]; try done. cbn. by rewrite Hc. }
  destruct (m_com _ _ _ _ _ _ (b_mem _ _ _ _ _ _ (proj1 Hb))) as (cp0 & Hcp0 & Hon0 & Hcom0).
  apply (base_commit i _ n2 _ cp0); [done|congruence|done|done| |done]. unfold mtip. by rewrite Hsn, Hl.
Qed.

(** ** HandleAppendEntries *)

Section ae.
Context i j (cs : gmap (string * N) (N * N)) (pc : apply_pc) (req : AppendEntriesRequest) (Hreq : ae_ok h j req).

(** What a handler of an append request must achieve. *)
Definition ae_post (r : AppendEntriesResponse * Node) : Prop :=
  ∃ h', history_grows i h h' ∧ up_ok h' cs i r.2 pc ∧ aer_ok h' j i req r.1.

Lemma ae_post_false r : up_ok h cs i r.2 pc → r.1.(aer_Success) = false → ae_post r.
Proof. intros Hu Hs. exists h. split_and!; [apply same_history|done|]. split; [done|]. by rewrite Hs. Qed.

(** The node holds what the request sends, in the request's term. *)
Record ae_ready n : Prop := {
  ar_base : base h i n.(currentTerm) n;
  ar_live : n.(storageFatal) = None;
  ar_wf : node_wf n;
  ar_role : n.(role) = Follower;
  ar_term : n.(currentTerm) = req.(ae_Term);
  ar_pend : pend_ok h.(h_tree) n;
  ar_pc : pc_ok h n pc;
  ar_votes : ∀ u c, (i, u, c) ∈ h.(h_votes) → (u ≤ n.(currentTerm))%N }.

Lemma ready_up n : ae_ready n → up_ok h cs i n pc.
Proof. intros []. split; [by eexists|unfold role_ok; by rewrite ar_role0|done|done]. Qed.

Lemma ae_success n resp : ae_ready n → on h.(h_tree) (mtip n) (ae_end req) → ae_post (resp, n).
Proof.
  intros Hr Hon. pose proof Hr as []. destruct Hreq as [_ _ _ _ Hl _]. rewrite <- ar_term0 in Hl.
  exists (h_ack i n.(currentTerm) (ae_end req) h). split_and!; [by apply ack_history|apply up_ok_ack; [by apply ready_up|done..]|].
  assert (extends h (h_ack i (currentTerm n) (ae_end req) h)) as Hx by (by eapply ack_ok).
  split; [by eapply ae_ok_grow|]. intros _. rewrite ar_term0. by left.
Qed.

Lemma aeCommit_post n lastNew : ae_ready n → on h.(h_tree) (mtip n) (ae_end req) → lastNew = (ae_end req).1 → ae_post (aeCommit req lastNew n).
Proof.
  intros Hr Hon ->. pose proof Hr as []. destruct Hreq as [_ _ _ _ Hl (cp & Hcp & Hcon & Hcom)].
  unfold aeCommit. case_decide as Hlt; [|by apply ae_success].
  pose proof (on_index _ Hok _ _ Hcon) as (Hi & _). pose proof (on_index _ Hok _ _ Hon) as (Hi2 & _). cbn in Hi2.
  rewrite N.min_l in * by lia. rewrite <- Hcp in *. rewrite <- ar_term0 in *.
  destruct (persistHardStateLocked (with_commitIndex cp.1 n)) as [e n2] eqn:Ep.
  destruct (commit_save i cs n pc cp e n2) as (Hu2 & Hback & Hwf2 & [Hf _ _ _]); try done; [lia|by etrans|].
  assert (up_ok h cs i n2 pc) as Hu2' by (apply Hu2; unfold role_ok; cbn; by rewrite ar_role0).
  unfold face in Hf. cbn in Hf. injection Hf as Hsn Hlg Hc Ha Ht Hro Hm Hfa Hpe Hnp.
  destruct e as [e|].
  { destruct (Hback _ eq_refl) as (? & ? & ?). apply ae_post_false; [|done]. split; [by eexists| |done|done].
    unfold role_ok. cbn. by rewrite Hro, ar_role0. }
  assert (up_ok h cs i (notifyApplyLocked n2) pc) as Hu3 by (by eapply up_ok_face; [|exact Hu2']).
  apply ae_success; [|unfold mtip; cbn; by rewrite Hsn, Hlg].
  split; [eapply up_base; [exact Hu3|cbn; congruence]|cbn; congruence| |cbn; congruence|cbn; congruence|apply Hu3|apply Hu3|].
  - eapply node_wf_core; [exact Hwf2|done].
  - cbn. by rewrite Ht.
Qed.

Lemma ae_op_ok n : op_ok (DoAppendEntries req) n.
Proof.
  destruct Hreq as [_ _ Hpv Hpch _ _]. split; [pose proof (Hmax _ Hpv); cbn in *; lia|]. apply Forall_forall. intros e He.
  by apply (entries_bound h Hmax (prev_pos req) req.(ae_Entries) e).
Qed.

(** The node after it wrote the merged log. *)
Lemma ready_wrote n n' : ae_ready n → base h i n.(currentTerm) n' → disk_snap n'.(store) = disk_snap n.(store) → node_wf n' →
  n'.(lastApplied) = n.(lastApplied) → n'.(currentTerm) = n.(currentTerm) → n'.(role) = n.(role) →
  n'.(storageFatal) = n.(storageFatal) → n'.(pendingSnapshot) = n.(pendingSnapshot) → ae_ready n'.
Proof.
  intros [] Hb Hds Hwf Ha Ht Hro Hf Hp. split; rewrite ?Ht, ?Hro, ?Hf; try done; [|by eapply pc_ok_same].
  unfold pend_ok. by rewrite Hp.
Qed.

Lemma aeMerge_post n : ae_ready n → (n.(snapshot).(LastIncludedIndex) ≤ req.(ae_PrevLogIndex))%N →
  termAtLocked n req.(ae_PrevLogIndex) = Some req.(ae_PrevLogTerm) → ae_post (aeMerge req n).
Proof.
  intros Hr Hlo Ht. pose proof Hr as []. pose proof Hreq as [_ _ Hpv Hpch Hl _]. rewrite <- ar_term0 in Hl.
  pose proof (b_mem _ _ _ _ _ _ (proj1 ar_base0)) as Hm. pose proof Hm as [Hch Hsn Hmt Hk _].
  pose proof (nw_max _ ar_wf0) as Hmx. pose proof (snap_ok_valid _ _ _ Hsn) as Hsv.
  assert (on h.(h_tree) (mtip n) (prev_pos req)) as Hprev by (by eapply termAt_on).
  pose proof (ae_op_ok n) as Hop.
  unfold aeMerge. destruct (mergeEntries _ _ _ _ _) as [m log'] eqn:Em.
  assert (∀ n', core n' = (n.(snapshot), log', n.(commitIndex), n.(lastApplied), n.(sm)) → evolves n n' ∧
    merge_ok n.(snapshot) n.(commitIndex) req.(ae_PrevLogIndex) n.(log) req.(ae_Entries) m log') as Hev
    by (intros n' Hcore; by eapply evolves_merge).
  destruct (Hev (with_log log' n) eq_refl) as [_ Hmo].
  case_decide as Hcf.
  { destruct (mo_conflict _ _ _ _ _ _ _ Hmo Hcf) as [-> _]. apply ae_post_false; [|done].
    eapply up_ok_face; [|by apply ready_up]. done. }
  assert (conflictIndex m = 0%N) as Hz by lia. destruct (mo_terms _ _ _ _ _ _ _ Hmo Hz) as (Hln & _ & _).
  assert (above n.(snapshot) req.(ae_Entries)) as Hab by (eapply Forall_impl; [apply Hop|]; cbn; lia).
  destruct (merge_chained h.(h_tree) Hok n.(snapshot) n.(log) Hch ltac:(unfold lastIndexLocked in *; lia)
    n.(commitIndex) _ _ _ Hprev Hlo Hpch Hmx Hab m log' Em Hz) as (Hch' & Hon' & Htip).
  fold (ae_end req) in Hon', Htip. fold (mtip n) in Htip.
  assert (m.(lastNewIndex) = (ae_end req).1) as Hlast by (rewrite Hln; unfold ae_end; by rewrite (chained_index _ _ _ Hpch)).
  assert (moves members h i n.(currentTerm) n (tip n.(snapshot) log')) as Hmv by (eapply follow_moves; [exact Hm|exact Hl|exact Htip]).
  assert (∀ st n', base h i n.(currentTerm) n' → disk_snap st = disk_snap n.(store) → n' = with_store st (with_log log' n) →
    ae_post (aeCommit req m.(lastNewIndex) n')) as Hgo.
  { intros st n' Hb' Hds ->. apply aeCommit_post; [|done|done]. eapply ready_wrote; try done. by apply Hev. }
  destruct (changed m) eqn:Ec.
  - destruct (replaced m) eqn:Erp.
    + destruct (ReplaceEntries _ _) as [[err|] st] eqn:Er; cbn in Er.
      * edestruct (replace_failed members s0 h Hg Hmax i _ n ar_base0 ar_live0 ar_wf0) as [Hb' Hds]; [done..|].
        apply ae_post_false; [|done]. eapply up_ok_fail; [eapply base0_face; [..|exact Hb']; try done; apply Hb'|done|by apply (pc_ok_same members s0 h n)].
      * edestruct (replace_done members s0 h Hg Hmax i _ n ar_base0 ar_live0 ar_wf0 log' st (with_store st (with_log log' n))) as [Hb' Hds]; [done..|].
        by eapply Hgo.
    + destruct (mo_appended _ _ _ _ _ _ _ Hmo Ec Erp) as [-> Hne].
      apply chained_app in Hch' as [_ Hca]. rewrite <- tip_end in Hca. fold (mtip n) in Hca.
      assert (((end_pos (mtip n) (appended m)).2 ≤ n.(currentTerm))%N) as Hte.
      { destruct Hmv as (_ & Hte & _). by rewrite tip_end, end_pos_app, <- tip_end in Hte. }
      destruct (AppendEntries _ _) as [[err|] st] eqn:Er; cbn in Er.
      * edestruct (append_failed members s0 h Hg Hmax i _ n ar_base0 ar_live0 ar_wf0) as [Hb' Hds]; [done..|].
        apply ae_post_false; [|done]. eapply up_ok_fail; [eapply base0_face; [..|exact Hb']; try done; apply Hb'|done|by apply (pc_ok_same members s0 h n)].
      * edestruct (append_done members s0 h Hg Hmax i _ n ar_base0 ar_live0 ar_wf0 _ Hca Hne Hte st (with_store st (with_log (n.(log) ++ appended m) n))) as (Hb' & _ & Hds); [done..|].
        by eapply Hgo.
  - rewrite (mo_unchanged _ _ _ _ _ _ _ Hmo Ec) in *. apply (Hgo n.(store)); [|done|by destruct n].
    eapply base_face; [..|exact ar_base0]; done.
Qed.

Lemma HandleAppendEntries_post n : up_ok h cs i n pc → node_wf n → (∀ u c, (i, u, c) ∈ h.(h_votes) → (u ≤ n.(currentTerm))%N) →
  ae_post (HandleAppendEntries req n).
Proof.
  intros Hu Hwf Hv. unfold HandleAppendEntries. case_decide as Hdis; [by apply ae_post_false|].
  case_decide; [by apply ae_post_false|]. case_decide as Hlow; [by apply ae_post_false|].
  assert (n.(storageFatal) = None) as Hnf by (destruct (storageFatal n) eqn:E; [destruct Hdis; by right; rewrite E|done]).
  destruct (if decide (_ ∨ _) then _ else _) as [e n1] eqn:E.
  destruct (follow_ready i cs n pc req.(ae_Term) req.(ae_LeaderID) _ _ Hu Hnf ltac:(lia) E) as (Hu1 & Hcore & Hpar & Hrole & Hterm & Hfat & Hpend).
  destruct e as [e|]; [by apply ae_post_false|]. specialize (Hfat eq_refl).
  set (n2 := resetElectionLocked _).
  assert (up_ok h cs i n2 pc) as Hu2 by (by eapply up_ok_face; [|exact Hu1]).
  assert (ae_ready n2) as Hr.
  { pose proof Hu2 as [_ _ Hpe Hpc]. split; [by eapply up_base|done|by eapply node_wf_core|done|done|done|done|].
    change (currentTerm n2) with (currentTerm n1). intros u c Huc. specialize (Hv u c Huc). lia. }
  clear E. case_decide as Hlo; [apply ae_post_false; [exact Hu2|done]|]. case_decide as Ht; [apply ae_post_false; [exact Hu2|done]|].
  apply aeMerge_post; [done|lia|]. destruct (decide (termAtLocked n2 (ae_PrevLogIndex req) = Some (ae_PrevLogTerm req))); tauto.
Qed.

End ae.

End env.

End steps.
