(* ===== verification/RaftElect.v ===== *)
(** * Elections keep the invariant

    The critical sections of an election, on a node that satisfies the
    invariant of [RaftInv.v]: standing for election and granting a vote add a
    vote to the history, becoming leader adds the election, the no-op entry and
    the leader's own acknowledgement. *)

From S2P Require Import Prelude Types StateMachine StoreIntf RaftLog NodeState Node Replication NodeStep NodeInv VoteFrame Cluster ApplySys Disk Consensus LogTree Raft RaftInv RaftNode RaftSteps.

Section elect.
Context {SM St : Type} `{StateMachine SM} `{Store St} `{RandSource} `{MapCodec}
  `{!HardStateLaws St} `{!DiskLaws St} `{!StateMachineLaws SM} `{!MapCodecLaws}.
#[local] Abbreviation Node := (Node SM St).
Context (members : gset string) (s0 : SM).
Implicit Types (h : history) (n : Node) (i j p : string) (st : St) (T : gmap (N * N) (N * Command)).

#[local] Abbreviation committed_by := (committed_by members).
#[local] Abbreviation ginv := (ginv members).
#[local] Abbreviation base := (base members s0).
#[local] Abbreviation base0 := (base0 members s0).
#[local] Abbreviation up_ok := (up_ok members s0).
#[local] Abbreviation hext := (hext members).

(** ** The history *)

Lemma hext_trans i h h1 h2 : hext i h h1 → hext i h1 h2 → hext i h h2.
Proof.
  intros [Hx1 Hi1 Hb1 Ho1 Hn1 He1 Hc1] [Hx2 Hi2 Hb2 Ho2 Hn2 He2 Hc2]. split; [|done|done| | | |].
  - by eapply extends_trans.
  - intros j Hj t x Hx. by apply Ho1, Ho2.
  - intros y Hy. destruct (Hn2 y Hy) as [Hy1|?]; [|by right]. destruct (Hn1 y Hy1) as [?|(e & He)]; [by left|right].
    exists e. by eapply ex_elected.
  - intros u l e Hu. destruct (He2 u l e Hu) as [Hu1|?]; [|by right]. by apply He1.
  - intros t y Hy. destruct (Hc2 t y Hy) as [Hy1|?]; [|by right]. destruct (Hc1 t y Hy1) as [?|(e & He)]; [by left|right].
    exists e. by eapply ex_elected.
Qed.

(** Only votes and acknowledgements are added. *)
Lemma role_ok_same h h' cs cs' i n : h'.(h_tree) = h.(h_tree) → h'.(h_elect) = h.(h_elect) → h'.(h_commits) = h.(h_commits) →
  (∀ a, a ∈ h.(h_acks) → a ∈ h'.(h_acks)) →
  (n.(role) = Candidate → cs' !! (i, n.(currentTerm)) = cs !! (i, n.(currentTerm))) → role_ok h cs i n → role_ok h' cs' i n.
Proof.
  intros Ht He Hcm Ha Hc Hr. unfold role_ok in *. rewrite He. destruct (role n); [done|by rewrite Hc|].
  destruct Hr as [? [? ? ? ? Hm ?]]. split; [done|]. split; rewrite ?Ht, ?He, ?Hcm; [done..|by apply Ha| |done].
  intros p m Hp Hpos. destruct (Hm p m Hp Hpos) as (x & ? & ?). exists x. split; [by apply Ha|done].
Qed.

Section env.
Context h (Hg : ginv h) (Hmax : ∀ x, valid h.(h_tree) x → (x.1 < two64 - 1)%N).
Let Hok : tree_ok h.(h_tree) := gi_tree _ _ Hg.

Lemma vote_history i u c : valid h.(h_tree) c → (h.(h_elect) !! u = None → promise h i u c) → hext i h (h_vote i u c h).
Proof.
  intros Hv Hp. destruct (vote_ok _ _ _ _ _ Hg Hv Hp) as [Hg' Hx]. split; [done|done|done| |by left|by left|by left].
  intros j _. by apply ex_same_acks.
Qed.

Lemma up_ok_vote i u c cs cs' n pc : hext i h (h_vote i u c h) → up_ok h cs i n pc →
  (n.(role) = Candidate → cs' !! (i, n.(currentTerm)) = cs !! (i, n.(currentTerm))) → up_ok (h_vote i u c h) cs' i n pc.
Proof.
  intros [Hx _ _ _ _ _ _] [(vt & Hb) Hr Hp Hpc] Hcs. split; [|by apply (role_ok_same h _ cs)|done|by eapply pc_ok_grow].
  exists vt. eapply base_grow; [done| |done]. by apply ex_same_acks.
Qed.

(** ** startElection *)

Section start.
Context i (cs : gmap (string * N) (N * N)) n (pc : apply_pc).
Context (Hu : up_ok h cs i n pc) (Hroom : (n.(currentTerm) < two64 - 1)%N).

(** The state [startElection] saves, and how the save ends. *)
Lemma candidacy_saved m e n' : n.(storageFatal) = None → core m = core n → m.(store) = n.(store) → m.(storageFatal) = None →
  (n.(currentTerm) ≤ m.(currentTerm))%N →
  persistHardStateLocked m = (e, n') → base0 h i n.(currentTerm) n' ∧ saved m n' ∧ pc_ok members s0 h n' pc ∧
  live n.(currentTerm) n ∧ n'.(params) = m.(params) ∧ (e = None → durable_hs n'.(store) = mkHardState m.(currentTerm) m.(votedFor) m.(commitIndex)).
Proof.
  intros Hnf Hcore Hst Hmf Hle Ep. pose proof (up_base _ _ _ _ _ _ _ Hu Hnf) as [Hb Hli].
  destruct (core_fields _ _ Hcore) as (Hsn & Hl & Hc & Ha & _).
  assert (base0 h i n.(currentTerm) m) as Hbm by (by eapply base0_face; [..|exact Hb]).
  destruct (save_saved _ _ _ _ Ep) as (Hsv & Hpar & _ & Hhs).
  split_and!; [by eapply base_persist|done| |auto|done|done].
  eapply pc_ok_saved; [done|]. eapply pc_ok_same; [done|by rewrite Hst|apply Hu].
Qed.

Lemma startElection_refused n' : startElection n = (None, n') → up_ok h cs i n' pc.
Proof.
  unfold startElection. case_decide as Hgd; [by intros [= <-]|].
  assert (n.(storageFatal) = None) as Hnf by (destruct (storageFatal n) eqn:E; [destruct Hgd; by right; right|done]).
  match goal with |- context [persistHardStateLocked ?m] => set (n1 := m) end.
  destruct (persistHardStateLocked n1) as [[err|] n2] eqn:Ep; intros [= <-].
  destruct (candidacy_saved n1 _ n2 Hnf eq_refl eq_refl Hnf ltac:(cbn; usimp; lia) Ep) as (Hb & [Hf Hdk Hds Hap] & Hpc & (Hvt & Happ & Hsl & Htip) & Hpar & _).
  unfold face in Hf. cbn in Hf. injection Hf as Hsn Hl Hc Ha Ht Hr Hm Hfa Hp Hnp. change (store n1) with (store n) in *. split; [| | |done].
  - exists n.(currentTerm). split; [by eapply base0_face; [..|exact Hb]|]. intros _. unfold live, mtip. cbn.
    rewrite Hdk, Hds, Hsn, Hl, Ha. split_and!; [done|auto|lia|lia|done].
  - pose proof (u_role _ _ _ _ _ _ _ Hu) as Hro. unfold role_ok in *. cbn. rewrite Hfa. unfold mtip in *. cbn. rewrite Hsn, Hl.
    destruct (role n) eqn:Er; [done|done|]. exfalso. apply Hgd. by right; left.
  - pose proof (u_pend _ _ _ _ _ _ _ Hu) as Hpe. unfold pend_ok in *. cbn. by rewrite Hp.
Qed.

(** The node's vote for itself. *)
Lemma startElection_accepted term req n' : startElection n = (Some (term, req), n') →
  (∀ e, h.(h_elect) !! (n.(currentTerm) + 1)%N ≠ Some (i, e)) →
  hext i h (h_vote i term (mtip n) h) ∧ up_ok (h_vote i term (mtip n) h) (<[(i, term) := mtip n]> cs) i n' pc ∧ valid h.(h_tree) (mtip n) ∧ ((mtip n).2 < term)%N ∧
  (req.(rv_LastLogIndex), req.(rv_LastLogTerm)) = mtip n ∧ req.(rv_Term) = term.
Proof.
  unfold startElection. case_decide as Hgd; [done|]. 
  assert (n.(storageFatal) = None) as Hnf by (destruct (storageFatal n) eqn:E; [destruct Hgd; by right; right|done]).
  match goal with |- context [persistHardStateLocked ?m] => set (n1 := m) end.
  destruct (persistHardStateLocked n1) as [[err|] n2] eqn:Ep; [done|]. intros Heq Hne.
  assert (term = n1.(currentTerm) ∧ n' = n2 ∧
    req = mkRequestVoteRequest n1.(currentTerm) n2.(params).(id) (lastIndexLocked n1) (lastTermLocked n1)) as (-> & -> & ->)
    by (by injection Heq as <- <- <-).
  clear Heq. set (h' := h_vote _ _ _ h). set (cs' := <[_ := _]> cs).
  assert (n1.(currentTerm) = n.(currentTerm) + 1)%N as Ht1 by (cbn; usimp; lia).
  destruct (candidacy_saved n1 _ n2 Hnf eq_refl eq_refl Hnf ltac:(lia) Ep) as (Hb & [Hf Hdk Hds Hap] & Hpc & (Hvt & Happ & Hsl & Htip) & Hpar & Hhs).
  specialize (Hhs eq_refl). unfold face in Hf. injection Hf as Hsn Hl Hc Ha Ht Hr Hm Hfa Hp Hnp.
  assert (n2.(currentTerm) = n1.(currentTerm)) as Ht2 by exact Ht. clear Ht. rename Ht2 into Ht.
  change (store n1) with (store n) in *.
  pose proof (b_mem _ _ _ _ _ _ Hb) as Hmem. pose proof Hmem as [_ _ Hmt Hk _].
  assert (mtip n2 = mtip n) as Hmtip by (unfold mtip; by rewrite Hsn, Hl). rewrite Hmtip in *.
  assert (valid h.(h_tree) (mtip n)) as Hv by (rewrite <- Hmtip; by eapply mtip_valid).
  assert (hext i h h') as Hx.
  { apply vote_history; [done|]. intros Hn. eapply keep_promise; [done|exact Hk| |lia|done]. right. split; [done|lia]. }
  assert (up_ok h cs' i n2 pc) as Hup.
  { split; [| | |done].
    - exists n1.(currentTerm). split.
      + eapply base_lift; [exact Hb|lia|by rewrite Ht|]. rewrite Hhs. done.
      + intros _. unfold live. rewrite Hmtip, Hdk, Hds, Hsn, Ha, Ht. split_and!; [done|auto|cbn; lia|cbn; lia|done].
    - unfold role_ok. rewrite Hr, Hfa, Hmtip, Ht. cbn [role n1 with_role]. split_and!; [done| |by rewrite Ht1].
      subst cs'. by rewrite lookup_insert_eq.
    - pose proof (u_pend _ _ _ _ _ _ _ Hu) as Hpe. unfold pend_ok in *. by rewrite Hp. }
  split_and!; [done| |done| |done|done].
  - eapply up_ok_vote; [done|exact Hup|done].
  - lia.
Qed.

End start.

(** ** HandleRequestVote *)

Lemma up_ok_persist i cs n pc e n' : up_ok h cs i n pc → persistHardStateLocked n = (e, n') → up_ok h cs i n' pc.
Proof.
  intros [(vt & Hb) Hr Hp Hpc] E. destruct (save_saved _ _ _ _ E) as (Hsv & _). pose proof Hsv as [Hf _ _ _].
  unfold face in Hf. injection Hf as Hsn Hl Hc Ha Ht Hro Hm Hfa Hpe Hnp. split.
  - exists vt. by eapply base_persist_live.
  - eapply role_face; [by unfold mtip; rewrite Hsn, Hl|done..|by rewrite Hc|done].
  - unfold pend_ok. by rewrite Hpe.
  - by eapply pc_ok_saved.
Qed.

(** The position a vote is asked for. *)
Definition cand_pos (req : RequestVoteRequest) : N * N := (req.(rv_LastLogIndex), req.(rv_LastLogTerm)).

Lemma HandleRequestVote_post i cs n pc req resp n' : up_ok h cs i n pc → valid h.(h_tree) (cand_pos req) →
  HandleRequestVote req n = (resp, n') →
  let h' := if resp.(rvr_VoteGranted) then h_vote i req.(rv_Term) (cand_pos req) h else h in
  hext i h h' ∧ up_ok h' cs i n' pc.
Proof.
  intros Hu Hv. unfold HandleRequestVote. pose proof (hext_refl _ _ Hg Hmax i) as Hrefl.
  case_decide as Hdis; [by intros [= <- <-]|]. case_decide; [by intros [= <- <-]|].
  case_decide as Hlow; [by intros [= <- <-]|].
  assert (n.(storageFatal) = None) as Hnf by (destruct (storageFatal n) eqn:E; [destruct Hdis; by right; rewrite E|done]).
  destruct (if decide _ then _ else _) as [e1 n1] eqn:E1.
  assert (up_ok h cs i n1 pc ∧ n1.(currentTerm) = req.(rv_Term) ∧ (e1 = None → n1.(storageFatal) = None)) as (Hu1 & Ht1 & Hf1).
  { revert E1. case_decide.
    - intros E1. destruct (up_ok_follow members s0 h cs i n pc _ _ _ _ _ Hg Hu E1) as (? & _ & _ & _ & ? & Hf & _).
      split_and!; [done|lia|by intros ->%Hf].
    - intros [= <- <-]. split_and!; [done|lia|done]. }
  clear E1. destruct e1 as [e1|]; [by intros [= <- <-]|]. specialize (Hf1 eq_refl).
  case_decide as Hcan; [|by intros [= <- <-]]. destruct Hcan as [_ Hup].
  destruct (persistHardStateLocked _) as [e2 n2] eqn:E2.
  assert (up_ok h cs i n2 pc) as Hu2 by (eapply up_ok_persist; [|exact E2]; by eapply up_ok_face; [|exact Hu1]).
  destruct e2 as [e2|]; intros [= <- <-]; cbn [rvr_VoteGranted].
  { split; [done|]. by eapply up_ok_face; [|exact Hu2]. }
  assert (hext i h (h_vote i req.(rv_Term) (cand_pos req) h)) as Hx.
  { destruct (up_base _ _ _ _ _ _ _ Hu1 Hf1) as [[_ Hm _ _] _].
    apply vote_history; [done|]. intros Hn. eapply keep_promise; [|apply Hm| |by rewrite Ht1|done].
    - by eapply mtip_valid.
    - destruct Hup as [?|[? ?]]; [by left|right]. cbn. done. }
  split; [done|]. eapply up_ok_vote; [done|by eapply up_ok_face; [|exact Hu2]|done].
Qed.

End env.
End elect.
