(* ===== verification/RaftLead.v ===== *)
(** * The leader keeps the invariant

    Advancing the commit index, appending a proposal, becoming leader,
    preparing requests and handling their responses. *)

From S2P Require Import Prelude Types StateMachine StoreIntf RaftLog NodeState Node Replication NodeStep NodeInv VoteFrame Cluster ApplySys Disk Consensus LogTree Raft RaftInv RaftNode RaftSteps RaftElect.

Section lead.
Context {SM St : Type} `{StateMachine SM} `{Store St} `{RandSource} `{MapCodec}
  `{!HardStateLaws St} `{!DiskLaws St} `{!StateMachineLaws SM} `{!MapCodecLaws}.
#[local] Abbreviation Node := (Node SM St).
Context (members : gset string) (s0 : SM).
Implicit Types (h : history) (n : Node) (i j p : string) (st : St) (T : gmap (N * N) (N * Command)).

#[local] Abbreviation committed_by := (committed_by members).
#[local] Abbreviation ginv := (ginv members).
#[local] Abbreviation base := (base members s0).
#[local] Abbreviation base0 := (base0 members s0).
#[local] Abbreviation up_ok := (up_ok members s0).
#[local] Abbreviation pc_ok := (pc_ok members s0).
#[local] Abbreviation hext := (hext members).
#[local] Abbreviation history_grows := (RaftSteps.history_grows members).

Section env.
Context h (Hg : ginv h) (Hmax : ∀ x, valid h.(h_tree) x → (x.1 < two64 - 1)%N).
Let Hok : tree_ok h.(h_tree) := gi_tree _ _ Hg.
Context i (Hi : i ∈ members).
Context (cs : gmap (string * N) (N * N)) (pc : apply_pc).

(** ** advanceCommitLocked *)

(** The peers that count for an index, with the leader, are a majority of
    the members that acknowledged it. *)
Lemma quorum_acks n k : node_ok members i n → leads h i n → (0 < k ≤ lastIndexLocked n)%N →
  quorum n ≤ 1 + length (filter (λ p, k ≤ map_N n.(matchIndex) p)%N (map_to_list n.(params).(peerAddrs)).*1) →
  ∃ Q, majority_of members Q ∧ ∀ p, p ∈ Q → ∃ x, (p, n.(currentTerm), x) ∈ h.(h_acks) ∧ (k ≤ x.1)%N.
Proof.
  intros Hno [_ _ _ Hself Hm _] Hk Hq. pose proof (quorum_majority members i n Hi Hno) as Hmaj. destruct Hno as [_ Hdom].
  set (ps := filter _ _) in Hq.
  assert (∀ p, p ∈ ps → (k ≤ map_N n.(matchIndex) p)%N ∧ p ∈ members ∧ p ≠ i) as Hps.
  { intros p [Hp Hin]%list_elem_of_filter. split; [done|]. apply list_elem_of_fmap in Hin as ([p' a] & -> & Hin).
    apply elem_of_map_to_list in Hin. apply elem_of_dom_2 in Hin. rewrite Hdom in Hin. cbn. set_solver. }
  assert (NoDup ps) as Hnd by (apply NoDup_filter, NoDup_fst_map_to_list).
  exists ({[i]} ∪ list_to_set ps). split; [split|].
  - intros p [->%elem_of_singleton|Hp%elem_of_list_to_set]%elem_of_union; [done|]. by apply Hps.
  - rewrite size_union, size_singleton, size_list_to_set by (done || (intros p; rewrite elem_of_singleton, elem_of_list_to_set; intros -> ?%Hps; tauto)).
    unfold majority in Hmaj. lia.
  - intros p [->%elem_of_singleton|Hp%elem_of_list_to_set]%elem_of_union; [exists (mtip n); split; [done|apply Hk]|].
    destruct (Hps p Hp) as [Hpk _]. unfold map_N in Hpk. destruct (n.(matchIndex) !! p) as [m|] eqn:Em; cbn in Hpk; [|lia].
    destruct (Hm p m Em ltac:(lia)) as (x & ? & ?). exists x. split; [done|lia].
Qed.

(** The commit enters the history. *)
Lemma commit_history t y e : h.(h_elect) !! t = Some (i, e) → history_grows i h (h_commit t y h).
Proof.
  intros He. destruct (commit_ok members h t y Hg ltac:(by eexists)) as [Hg' Hx]. split; [|done|done].
  split; [done|done|done| |by left|by left|].
  - intros j _. by apply ex_same_acks.
  - intros t' y' [Heq|?]%elem_of_cons; [|by left]. injection Heq as -> ->. right. by exists e.
Qed.

(** The role of the leader that has just raised its commit index. *)
Lemma role_commit n k : role_ok h cs i n → n.(role) = Leader → (n.(commitIndex) ≤ k)%N →
  role_ok (h_commit n.(currentTerm) (k, n.(currentTerm)) h) cs i (with_commitIndex k n).
Proof.
  unfold role_ok. cbn. intros Hro Er Hk. rewrite Er in *. destruct Hro as [Hnf [(e & ?) ? ? ? ? Hc]]. split; [done|].
  split; try done; [by exists e|]. cbn. intros y [Heq|Hy]%elem_of_cons; [injection Heq as ->; cbn; lia|]. etrans; [by apply Hc|done].
Qed.

Lemma advanceCommit_post n : up_ok h cs i n pc → node_wf n → node_ok members i n → n.(role) = Leader →
  ∃ h', history_grows i h h' ∧ up_ok h' cs i (advanceCommitLocked n) pc.
Proof.
  intros Hu Hwf Hno Hrole. unfold advanceCommitLocked.
  destruct (advanceLoop _ _ _) as [k|] eqn:El; [|exists h; split; [by apply same_history|done]].
  pose proof (nw_max _ Hwf). apply advanceLoop_spec in El as (Hk & Ht & Hq); [|lia].
  pose proof (u_role _ _ _ _ _ _ _ Hu) as Hro. pose proof Hro as Hro'. unfold role_ok in Hro'. rewrite Hrole in Hro'. destruct Hro' as [Hnf Hl].
  pose proof (up_base _ _ _ _ _ _ _ Hu Hnf) as Hb. pose proof (b_mem _ _ _ _ _ _ (proj1 Hb)) as Hmem.
  assert (on h.(h_tree) (mtip n) (k, n.(currentTerm))) as Hon by (eapply termAt_on; [done|by eapply snap_ok_valid, Hmem|apply Hmem|done]).
  destruct (l_elect _ _ _ Hl) as (e & He & _). destruct (gi_elect _ _ Hg _ _ _ He) as (_ & Het & _).
  pose proof (commit_history n.(currentTerm) (k, n.(currentTerm)) e He) as Hgr.
  pose proof (role_commit n k Hro Hrole ltac:(lia)) as Hro1. set (h' := h_commit _ _ h) in *. exists h'. split; [done|].
  pose proof (g_ext _ _ _ _ Hgr) as Hext. pose proof (x_ext _ _ _ _ Hext) as Hx. pose proof (x_inv _ _ _ _ Hext) as Hg'.
  assert (committed_by h' n.(currentTerm) (k, n.(currentTerm))) as Hcom.
  { right. exists n.(currentTerm), (k, n.(currentTerm)). split_and!; [lia| |done]. split; [by left|].
    destruct (quorum_acks n k Hno Hl ltac:(lia) Hq) as (Q & HQ & Hacks).
    eapply majority_commits; [done| |done|lia|done|exact Hacks]. change (h_tree h') with (h_tree h).
    eapply on_valid; [done|by eapply mtip_valid|done]. }
  destruct (persistHardStateLocked _) as [e' n2] eqn:Ep.
  destruct (commit_save members s0 h' Hg' i cs n pc (k, n.(currentTerm)) e' n2) as (Hu2 & Hback & _ & _); try done.
  - eapply base_grow; [done| |done]. by apply ex_same_acks.
  - apply Hu.
  - eapply pc_ok_grow; [done|apply Hu].
  - cbn. lia.
  - destruct e' as [e'|]; [|by eapply up_ok_face; [|by apply Hu2]].
    destruct (Hback _ eq_refl) as ([Hb2 _] & Hp & Hpc). by eapply up_ok_fail.
Qed.

(** ** Appending an entry of the leader's own term *)

Lemma leader_append n e cmd r st :
  base h i n.(currentTerm) n → n.(storageFatal) = None → node_wf n → (lastIndexLocked n < two64 - 2)%N →
  h.(h_elect) !! n.(currentTerm) = Some (i, e) → on h.(h_tree) (mtip n) e → (mtip n = e ∨ (mtip n).2 = n.(currentTerm)) →
  (∀ y, valid h.(h_tree) y → y.2 = n.(currentTerm) → on h.(h_tree) (mtip n) y) →
  (∀ u c, (i, u, c) ∈ h.(h_votes) → (u ≤ n.(currentTerm))%N) →
  let t := n.(currentTerm) in let entry := mkLogEntry (lastIndexLocked n +u 1) t cmd in
  let x := (((mtip n).1 + 1)%N, t) in let h1 := h_append x (mtip n).2 cmd h in let h2 := h_ack i t x h1 in
  AppendEntries [entry] n.(store) = (r, st) →
  disk_snap st = disk_snap n.(store) ∧ hext i h h1 ∧ hext i h h2 ∧ base0 h1 i t (with_store st n) ∧
  (r = None → ∀ n', n'.(snapshot) = n.(snapshot) → n'.(log) = n.(log) ++ [entry] → n'.(commitIndex) = n.(commitIndex) →
     n'.(lastApplied) = n.(lastApplied) → n'.(currentTerm) = n.(currentTerm) → n'.(store) = st → n'.(storageFatal) = None →
     base h2 i t n' ∧ mtip n' = x ∧
     ((∀ p m, n'.(matchIndex) !! p = Some m → (0 < m)%N → ∃ y, (p, t, y) ∈ h2.(h_acks) ∧ (m ≤ y.1)%N) →
      (e.1 < n'.(leaderNoopIndex))%N → (∀ y, (t, y) ∈ h.(h_commits) → (y.1 ≤ n.(commitIndex))%N) → leads h2 i n')).
Proof.
  intros Hb Hnf Hwf Hroom He Hone Hor Hall Hv t entry x h1 h2 Ha.
  pose proof (mtip_valid _ _ _ _ _ _ (b_mem _ _ _ _ _ _ (proj1 Hb))) as Hmv.
  assert (led h t (mtip n)) as Hled.
  { split; [done|]. exists i, e. split; [done|]. destruct Hor as [->|?]; [by left|by right]. }
  destruct (append_ok members h i e (mtip n) cmd Hg t He Hled Hor Hall) as [Hg1 Hx1]. fold x h1 in Hg1, Hx1.
  assert (valid h1.(h_tree) x) as Hvx by (right; cbn; rewrite lookup_insert_eq; by eexists).
  assert (∀ y, valid h1.(h_tree) y → y = x ∨ valid h.(h_tree) y) as Hnew.
  { intros y [->|[z Hz]]; [by right; left|]. cbn in Hz. apply lookup_insert_Some in Hz as [[<- _]|[_ Hz]]; [by left|right; right; by eexists]. }
  assert (∀ y, valid h1.(h_tree) y → (y.1 < two64 - 1)%N) as Hmax1.
  { intros y [->|?]%Hnew; [|by apply Hmax]. unfold lastIndexLocked in Hroom. cbn. lia. }
  assert (hext i h h1) as Hext1.
  { split; [done|done|done| | |by left|by left].
    - intros j _. by apply ex_same_acks.
    - intros y [->|?]%Hnew; [right; by exists e|by left]. }
  assert (led h1 t x) as Hledx by (split; [done|]; exists i, e; split; [done|by right]).
  assert (hext i h1 h2) as Hext12 by (apply g_ext, ack_history; done).
  assert (base h1 i t n) as Hb1.
  { eapply base_grow; [done| |done]. by apply ex_same_acks. }
  assert (x = entry_pos entry) as Hxe by (unfold entry_pos, x, entry; cbn; f_equal; unfold lastIndexLocked in *; usimp; lia).
  assert (chained h1.(h_tree) (mtip n) [entry]) as Hch.
  { cbn [chained]. split_and!; [|rewrite <- Hxe; cbn; by rewrite lookup_insert_eq|done].
    cbn. unfold lastIndexLocked in *. usimp. lia. }
  assert (end_pos (mtip n) [entry] = x) as Hend by (by rewrite Hxe).
  destruct (append_failed members s0 h1 Hg1 Hmax1 i t n Hb1 Hnf Hwf [entry] Hch ltac:(done) ltac:(by rewrite Hend) r st Ha) as [Hb2 Hds].
  split_and!; [done|done|by eapply hext_trans|done|]. intros -> n' Hsn Hl Hc Hla Ht Hst Hnf'.
  destruct (append_done members s0 h1 Hg1 Hmax1 i t n Hb1 Hnf Hwf [entry] Hch ltac:(done) ltac:(by rewrite Hend) st n' Ha) as (Hb3 & Htip & _); [done..|].
  rewrite Hend in Htip.
  assert (base h2 i t n') as Hb4.
  { subst h2. unfold t. rewrite <- Ht. apply base_ack; [by rewrite Ht|done|by rewrite Htip|]. rewrite Ht. apply Hext12. }
  split_and!; [done|done|]. intros Hm Hnp Hcm. pose proof (x_ext _ _ _ _ Hext12) as Hx2. split; rewrite ?Ht, ?Htip; fold t.
  - exists e. split_and!; [done| |done]. eapply ex_on; [exact Hx2|]. rewrite <- Hend.
    etrans; [by apply chained_on|]. by eapply ex_on.
  - done.
  - intros y [->|Hy]%Hnew Hyt; [done|]. rewrite <- Hend. etrans; [by apply chained_on|]. eapply (ex_on h h1); [done|by apply Hall].
  - by left.
  - done.
  - rewrite Hc. exact Hcm.
Qed.

End env.

(** ** Propose *)

Section propose.
Context h (Hg : ginv h) (Hmax : ∀ x, valid h.(h_tree) x → (x.1 < two64 - 1)%N).
Context i (Hi : i ∈ members) (cs : gmap (string * N) (N * N)) (pc : apply_pc).

Lemma proposeAppend_post cmd n : up_ok h cs i n pc → node_wf n → node_ok members i n → (lastIndexLocked n < two64 - 2)%N →
  (∀ u c, (i, u, c) ∈ h.(h_votes) → (u ≤ n.(currentTerm))%N) →
  ∃ h', history_grows i h h' ∧ up_ok h' cs i (proposeAppend cmd n).2 pc.
Proof.
  intros Hu Hwf Hno Hroom Hv. pose proof (same_history members h Hg Hmax i) as Hsame.
  unfold proposeAppend. destruct (stopped n); [by exists h|]. destruct (storageFatal n) as [err|] eqn:Hnf; [by exists h|].
  case_decide as Hrole; [by exists h|].
  assert (n.(role) = Leader) as Er by (destruct (decide (n.(role) = Leader)); tauto). clear Hrole.
  pose proof Hu as [_ Hro Hpe Hpc]. unfold role_ok in Hro. rewrite Er in Hro. destruct Hro as [_ Hl].
  pose proof (up_base _ _ _ _ _ _ _ Hu Hnf) as Hb. pose proof Hl as [(e & He & Hone & Hnp) Htip Hall _ Hm Hcm].
  destruct (AppendEntries _ _) as [r st] eqn:Ea.
  destruct (leader_append h Hg Hmax i n e cmd r st Hb Hnf Hwf Hroom He Hone (or_intror Htip) Hall Hv Ea) as (Hds & Hx1 & Hx2 & Hb1 & Hok).
  set (x := (((mtip n).1 + 1)%N, n.(currentTerm))) in *. set (h1 := h_append x (mtip n).2 cmd h) in *. set (h2 := h_ack _ _ _ h1) in *.
  destruct r as [err|].
  - exists h1. split; [by split|]. eapply up_ok_fail; [done|eapply pend_ok_grow; [apply Hx1|done]|].
    apply (pc_ok_same members s0 h1 n); [done|done|]. eapply pc_ok_grow; [apply Hx1|done].
  - match goal with |- context [advanceCommitLocked ?m] => set (n3 := m) end.
    destruct (Hok eq_refl n3) as (Hb3 & Htip3 & Hlead); [done..|].
    assert (node_wf n3) as Hwf3.
    { eapply ev_wf, (evolves_append n [_]); [done|apply contiguous_next; lia|unfold len; cbn; lia|reflexivity]. }
    destruct (advanceCommit_post h2 (x_inv _ _ _ _ Hx2) (x_bound _ _ _ _ Hx2) i Hi cs pc n3) as (h3 & [Hx3 He3 Hv3] & Hu3); [|done|done|done|].
    2: { exists h3. split; [|done]. split; [by eapply hext_trans|by rewrite He3|by rewrite Hv3]. }
    split; [by eexists| |eapply pend_ok_grow; [apply Hx2|done]|].
    + unfold role_ok. change (role n3) with (role n). rewrite Er. split; [done|]. apply Hlead; [|done|done]. intros p m Hp Hpos.
      change (matchIndex n3) with (<[n.(params).(id) := (lastIndexLocked n +u 1)%N]> n.(matchIndex)) in Hp.
      apply lookup_insert_Some in Hp as [[<- <-]|[_ Hp]].
      * destruct Hno as [-> _]. exists x. split; [by left|]. unfold x. cbn. unfold lastIndexLocked in *. usimp. lia.
      * destruct (Hm p m Hp Hpos) as (y & ? & ?). exists y. split; [by right|done].
    + apply (pc_ok_same members s0 h2 n); [done|done|]. eapply pc_ok_grow; [apply Hx2|done].
Qed.

Lemma Propose_post ctx cmd n : up_ok h cs i n pc → node_wf n → node_ok members i n → (lastIndexLocked n < two64 - 2)%N →
  (∀ u c, (i, u, c) ∈ h.(h_votes) → (u ≤ n.(currentTerm))%N) →
  ∃ h', history_grows i h h' ∧ up_ok h' cs i (Propose_start ctx cmd n).2 pc.
Proof.
  intros Hu Hwf Hno Hroom Hv. unfold Propose_start. destruct ctx; [exists h; by split; [by apply same_history|]|].
  destruct (proposeAppend_post cmd n Hu Hwf Hno Hroom Hv) as (h' & Hgr & Hu').
  exists h'. split; [done|]. destruct (proposeAppend cmd n) as [[?|?] n1]; [|done]. by eapply up_ok_face; [|exact Hu'].
Qed.

(** ** becomeLeader *)

(** The election enters the history. *)
Lemma lead_history t e Q : valid h.(h_tree) e → h.(h_elect) !! t = None → (e.2 < t)%N →
  majority_of members Q → (∀ q, q ∈ Q → (q, t, e) ∈ h.(h_votes)) →
  hext i h (h_lead t i e h) ∧ ∀ y, valid h.(h_tree) y → y.2 ≠ t.
Proof.
  intros Hve Hn Hlt HQ Hvotes. destruct (lead_ok members h t i e Q) as [Hg0 Hx0]; try done.
  { intros q Hq. split; [by apply Hvotes|]. by apply (gi_vote _ _ Hg q t e (Hvotes q Hq)). }
  split.
  - split; [done|done|done| |by left| |by left].
    + intros j _. by apply ex_same_acks.
    + intros u l e' Hu. cbn in Hu. apply lookup_insert_Some in Hu as [[_ Hu]|[_ ?]]; [right; by injection Hu|by left].
  - intros y [->|[[p c] Hy]] Hyt; [cbn in Hyt; lia|]. destruct (gi_node _ _ Hg _ _ _ Hy) as (l & e' & Hel & _).
    rewrite Hyt in Hel. congruence.
Qed.

Lemma becomeLeader_post term n : up_ok h cs i n pc → node_wf n → node_ok members i n → (lastIndexLocked n < two64 - 2)%N →
  (∀ u c, (i, u, c) ∈ h.(h_votes) → (u ≤ n.(currentTerm))%N) →
  (n.(role) = Candidate → n.(currentTerm) = term → h.(h_elect) !! term = None ∧ ((mtip n).2 < term)%N ∧
     ∃ Q, majority_of members Q ∧ ∀ q, q ∈ Q → (q, term, mtip n) ∈ h.(h_votes)) →
  ∃ h', hext i h h' ∧ h'.(h_votes) = h.(h_votes) ∧ up_ok h' cs i (becomeLeader term n).2 pc ∧
    (h'.(h_elect) = h.(h_elect) ∨
     (n.(role) = Candidate ∧ n.(currentTerm) = term ∧ h'.(h_elect) = <[term := (i, mtip n)]> h.(h_elect))).
Proof.
  intros Hu Hwf Hno Hroom Hv Hel. unfold becomeLeader.
  case_decide as Hgd; [exists h; split_and!; [by apply hext_refl|done|done|by left]|].
  assert (n.(role) = Candidate ∧ n.(currentTerm) = term) as [Er <-] by (destruct (decide (n.(role) = Candidate)), (decide (n.(currentTerm) = term)); tauto).
  clear Hgd. destruct (Hel Er eq_refl) as (Hnone & Hlt & Q & HQ & Hvotes). clear Hel.
  pose proof Hu as [_ Hro Hpe Hpc]. unfold role_ok in Hro. rewrite Er in Hro. destruct Hro as (Hnf & _ & _).
  pose proof (up_base _ _ _ _ _ _ _ Hu Hnf) as Hb.
  assert (valid h.(h_tree) (mtip n)) as Hmv by (eapply mtip_valid; apply Hb).
  destruct (lead_history _ _ Q Hmv Hnone Hlt HQ Hvotes) as [Hx0 Hfresh].
  set (h0 := h_lead n.(currentTerm) i (mtip n) h) in *.
  assert (base h0 i n.(currentTerm) n) as Hb0 by (eapply base_grow; [apply Hx0| |done]; apply ex_same_acks; [apply Hx0|done]).
  match goal with |- context [AppendEntries _ (store ?m)] => set (nL := m) end.
  match goal with |- context [AppendEntries [?en] _] => set (noop := en) end.
  destruct (AppendEntries [noop] (store nL)) as [r st] eqn:Ea.
  assert (base h0 i nL.(currentTerm) nL) as HbL by (eapply base_face; [..|exact Hb0]; done).
  assert (node_wf nL) as HwfL by (by eapply node_wf_core).
  edestruct (leader_append h0 (x_inv _ _ _ _ Hx0) (x_bound _ _ _ _ Hx0) i nL (mtip n) (mkCommand OpNoop "" "" "") r st HbL)
    as (Hds & Hx1 & Hx2 & Hb1 & Hok); try done.
  { cbn. by rewrite lookup_insert_eq. }
  { by left. }
  { intros y Hy Hyt. by destruct (Hfresh y Hy). }
  set (x := (((mtip nL).1 + 1)%N, nL.(currentTerm))) in *. set (h1 := h_append x (mtip nL).2 _ h0) in *. set (h2 := h_ack _ _ _ h1) in *.
  pose proof (hext_trans _ _ _ _ _ Hx0 Hx1) as Hy1. pose proof (hext_trans _ _ _ _ _ Hx0 Hx2) as Hy2.
  destruct r as [err|].
  - exists h1. split_and!; [done|done| |by right]. cbv beta iota zeta. eapply up_ok_fail; [done|eapply pend_ok_grow; [apply Hy1|done]|].
    apply (pc_ok_same members s0 h1 n); [done|done|]. eapply pc_ok_grow; [apply Hy1|done].
  - match goal with |- context [advanceCommitLocked ?m] => set (n3 := m) end.
    destruct (Hok eq_refl n3) as (Hb3 & Htip3 & Hlead); [done..|].
    assert (node_wf n3) as Hwf3.
    { eapply ev_wf, (evolves_append n [_]); [done|apply contiguous_next; lia|unfold len; cbn; lia|reflexivity]. }
    destruct (advanceCommit_post h2 (x_inv _ _ _ _ Hx2) (x_bound _ _ _ _ Hx2) i Hi cs pc n3) as (h3 & [Hx3 He3 Hv3] & Hu3); [|done|done|done|].
    2: { exists h3. split_and!; [by eapply hext_trans|by rewrite Hv3|done|right; by rewrite He3]. }
    split; [by eexists| |eapply pend_ok_grow; [apply Hy2|done]|].
    + unfold role_ok. change (role n3) with Leader. split; [done|]. apply Hlead.
      2: { change (leaderNoopIndex n3) with (lastIndexLocked n +u 1). unfold mtip. cbn. unfold lastIndexLocked in *. usimp. lia. }
      2: { intros y Hy. apply (gi_commit _ _ Hg) in Hy as [? Hy]. cbn in Hy. congruence. }
      intros p m Hp Hpos.
      change (matchIndex n3) with (<[n.(params).(id) := noop.(Index)]> (<[n.(params).(id) := lastIndexLocked n]> ((λ _, 0%N) <$> n.(params).(peerAddrs)))) in Hp.
      destruct Hno as [Hid _]. rewrite Hid in Hp.
      apply lookup_insert_Some in Hp as [[<- <-]|[Hne Hp]].
      * exists x. split; [by left|]. unfold x, noop. cbn. unfold lastIndexLocked in *. cbn. usimp. lia.
      * rewrite lookup_insert_ne in Hp by done. rewrite lookup_fmap in Hp. destruct (peerAddrs _ !! p); by simplify_eq/=.
    + apply (pc_ok_same members s0 h2 n); [done|done|]. eapply pc_ok_grow; [apply Hy2|done].
Qed.

(** ** Requests *)

Lemma prepare_post p n act n' : up_ok h cs i n pc → node_wf n → node_ok members i n → (map_N n.(nextIndex) p < two64)%N →
  replicateToPeer_prepare p n = (act, n') →
  up_ok h cs i n' pc ∧
  match act with
  | ReplAppend req => ae_ok members h i req
  | ReplSnapshot term snapIdx snapTerm data _ => sent_ok members s0 h i term (snapIdx, snapTerm) (marshalMap data)
  | _ => True
  end.
Proof.
  intros Hu Hwf Hno Hnext. unfold replicateToPeer_prepare. case_decide as Hgd; [by intros [= <- <-]|].
  assert (n.(role) = Leader) as Er by (destruct (decide (n.(role) = Leader)); tauto). clear Hgd.
  pose proof Hu as [_ Hro _ _]. unfold role_ok in Hro. rewrite Er in Hro. destruct Hro as [Hnf Hl].
  pose proof (up_base _ _ _ _ _ _ _ Hu Hnf) as [[_ [Hch Hsn _ _ (cp & Hcp & Hon & Hcom)] _ _] _].
  pose proof (gi_tree _ _ Hg) as Hok. pose proof (nw_max _ Hwf) as Hmx. pose proof (snap_ok_valid _ _ _ Hsn) as Hsv.
  destruct (l_elect _ _ _ Hl) as (e & He & _).
  match goal with |- (let '(_, _) := ?x in _) = _ → _ => set (pr := x) end.
  assert (∃ next n1, pr = (next, n1) ∧ (0 < next < two64)%N ∧ face n1 = face n ∧ n1.(params) = n.(params)) as (next & n1 & -> & Hnx & Hface & Hpar).
  { subst pr. case_decide; do 2 eexists; (split_and!; [done|..]); try done; [usimp; lia..|lia]. }
  unfold face in Hface. injection Hface as Hs Hlg Hc Ha Ht Hr Hm Hf Hst Hp Hnp.
  assert (∀ n', face n' = face n1 → up_ok h cs i n' pc) as Hup.
  { intros n2 Hn2. eapply up_ok_face; [|exact Hu]. rewrite Hn2. unfold face. congruence. }
  case_decide as Hle; [intros [= <- <-]; split; [by apply Hup|]|].
  { rewrite Hs, Ht. pose proof (tip_on_snap _ _ _ Hch) as Hons. split_and!; [by exists e| |cbn; rewrite Hs in Hle; lia|].
    - eapply committed_at; [done|exact Hon|done| |].
      + eapply committed_on; [done|exact Hcom|]. eapply on_linear; [done|exact Hon|exact Hons|]. rewrite Hcp. cbn. destruct Hwf. lia.
      + rewrite Hcp. cbn. destruct Hwf. lia.
    - destruct Hsn as (tr & Htr & Hd). exists tr. split; [done|]. rewrite decide_False in Hd by (rewrite Hs in Hle; lia). by rewrite Hd. }
  destruct (termAtLocked n1 (next -u 1)) as [pt|] eqn:Etm; intros [= <- <-]; (split; [by apply Hup|]); [|done].
  assert (next -u 1 = next - 1)%N as Hprev by (usimp; lia). rewrite Hprev in *. unfold termAtLocked in Etm. rewrite Hs, Hlg in *.
  pose proof (termAt_on _ Hok _ _ Hsv Hch _ _ Etm) as Honp. fold (mtip n) in Honp.
  unfold entriesFromLocked. rewrite Hlg. replace next with (next - 1 + 1)%N at 2 by lia. rewrite from_above.
  destruct (above_chained _ Hok _ _ Hch ltac:(unfold lastIndexLocked in *; lia) (next - 1, pt)%N Honp ltac:(cbn; lia)) as [Hca Hend].
  cbn [fst] in Hca, Hend. fold (mtip n) in Hend.
  assert (valid h.(h_tree) (mtip n)) as Hmv by (by apply tip_valid).
  split; unfold ae_end, prev_pos; cbn; rewrite ?Ht, ?Hend; try done.
  - by exists e.
  - rewrite Hpar. apply Hno.
  - by eapply on_valid.
  - split; [done|]. exists i, e. split; [done|]. right. apply Hl.
  - exists cp. rewrite Hc. done.
Qed.

(** ** Responses *)

(** A match index that an acknowledgement backs. *)
Lemma up_ok_match n p m x : up_ok h cs i n pc → n.(role) = Leader → (p, n.(currentTerm), x) ∈ h.(h_acks) → (m ≤ x.1)%N →
  up_ok h cs i (with_matchIndex (raise n.(matchIndex) p m) n) pc.
Proof.
  intros [(vt & Hb) Hro Hpe Hpc] Er Hack Hle. split; [exists vt; by eapply base_face; [..|exact Hb]| |done|done].
  unfold role_ok in *. cbn. rewrite Er in *. destruct Hro as [Hnf [? ? ? ? Hm ?]]. split; [done|]. split; try done. cbn.
  intros q k Hq Hpos. revert Hq. unfold raise. case_decide; [|by intros Hq; apply (Hm q)].
  intros [[<- <-]|[_ Hq]]%lookup_insert_Some; [by exists x|by apply (Hm q)].
Qed.

Lemma up_ok_stepDown n term leader : up_ok h cs i n pc → up_ok h cs i (stepDown term leader n) pc.
Proof.
  intros Hu. unfold stepDown, becomeFollowerLocked. destruct (becomeFollowerWithTimerLocked _ _ _ _) eqn:E.
  by eapply up_ok_follow in E as (? & _).
Qed.

Lemma response_post p req resp n : up_ok h cs i n pc → node_wf n → node_ok members i n → aer_ok members h i p req resp →
  ∃ h', history_grows i h h' ∧ up_ok h' cs i (replicateToPeer_response p req resp n).2 pc.
Proof.
  intros Hu Hwf Hno [Hae Hack]. pose proof (same_history members h Hg Hmax i) as Hsame. unfold replicateToPeer_response.
  case_decide; [exists h; split; [done|by apply up_ok_stepDown]|]. case_decide as Hgd; [by exists h|].
  assert (n.(role) = Leader ∧ n.(currentTerm) = req.(ae_Term)) as [Er Ht] by (destruct (decide (n.(role) = Leader)), (decide (n.(currentTerm) = req.(ae_Term))); tauto).
  destruct (aer_Success resp) eqn:Es; [|exists h; split; [done|]; case_decide; [by eapply up_ok_face; [|exact Hu]|done]].
  assert (req.(ae_PrevLogIndex) +u len req.(ae_Entries) = (ae_end req).1)%N as Hend.
  { destruct Hae as [_ _ _ Hch [Hv _] _]. pose proof (Hmax _ Hv) as Hb. unfold ae_end in *. rewrite (chained_index _ _ _ Hch) in *.
    cbn in *. usimp. lia. }
  rewrite Hend. cbn [snd]. rewrite <- Ht in Hack.
  assert (up_ok h cs i (with_matchIndex (raise n.(matchIndex) p (ae_end req).1) n) pc) as Hu1 by (eapply up_ok_match; [done|done|by apply Hack|done]).
  apply (advanceCommit_post h Hg Hmax i Hi); [by eapply up_ok_face; [|exact Hu1]|by eapply node_wf_core|done|done].
Qed.

Lemma snapshotDone_post p t k n x : up_ok h cs i n pc → (p, t, x) ∈ h.(h_acks) → (k ≤ x.1)%N →
  up_ok h cs i (replicateToPeer_snapshotDone p t k n) pc.
Proof.
  intros Hu Hack Hle. unfold replicateToPeer_snapshotDone. case_decide as Hd; [|done]. destruct Hd as [Er <-].
  eapply up_ok_face; [|by apply (up_ok_match n p k x)]. done.
Qed.

Lemma sendCheck_post t resp n : up_ok h cs i n pc → up_ok h cs i (sendSnapshot_check t resp n).2 pc.
Proof. intros Hu. unfold sendSnapshot_check. case_decide; [by apply up_ok_stepDown|]. by case_decide. Qed.

(** Sections that leave the log, the term and the role alone. *)
Lemma local_post op n : is_local op = true → up_ok h cs i n pc → up_ok h cs i (nrun op n) pc.
Proof.
  intros Hl Hu. assert (face (nrun op n) = face n) as Hf; [|by eapply up_ok_face].
  destruct op; try discriminate Hl; cbn [nrun].
  - done.
  - unfold Stop. by destruct (stopped n).
  - unfold Propose_select, removeWaiter. destruct (chans n !! w) as [[[|o rest] [] m]|]; destruct ctx; repeat case_decide; done.
  - unfold acquirePeerReplication_poll. destruct ctx; [done|]. case_decide; [done|]. by destruct (map_bool _ _).
  - done.
  - unfold replicateAllOnce_begin. destruct (stopped n); [done|]. by case_decide.
Qed.

End propose.
End lead.
