(* ===== verification/RaftSnap.v ===== *)
(** * Snapshots keep the invariant

    Receiving a snapshot in chunks, installing it, and the snapshots the
    apply goroutine takes: what is on disk and in memory stays a path of the
    tree with everything that was committed or acknowledged on it, whichever
    write fails. *)

From S2P Require Import Prelude Types StateMachine StoreIntf RaftLog NodeState Node Replication NodeStep NodeInv VoteFrame Cluster ApplySys Disk Consensus LogTree Raft RaftInv RaftNode RaftSteps.

Section snap.
Context {SM St : Type} `{StateMachine SM} `{Store St} `{RandSource} `{MapCodec}
  `{!HardStateLaws St} `{!DiskLaws St} `{!StateMachineLaws SM} `{!MapCodecLaws}.
#[local] Abbreviation Node := (Node SM St).
Context (members : gset string) (s0 : SM).
Implicit Types (h : history) (n : Node) (i j p : string) (st : St) (T : gmap (N * N) (N * Command)).

#[local] Abbreviation committed_by := (committed_by members).
#[local] Abbreviation ginv := (ginv members).
#[local] Abbreviation snap_ok := (snap_ok s0).
#[local] Abbreviation mem_ok := (mem_ok members s0).
#[local] Abbreviation disk_ok := (disk_ok members s0).
#[local] Abbreviation base := (base members s0).
#[local] Abbreviation base0 := (base0 members s0).
#[local] Abbreviation up_ok := (up_ok members s0).
#[local] Abbreviation pend_ok := (pend_ok s0).
#[local] Abbreviation pc_ok := (pc_ok members s0).
#[local] Abbreviation is_ok := (is_ok members s0).
#[local] Abbreviation isr_ok := (isr_ok members s0).
#[local] Abbreviation fin_ok := (fin_ok members s0).
#[local] Abbreviation hext := (hext members).
#[local] Abbreviation history_grows := (RaftSteps.history_grows members).

Section env.
Context h (Hg : ginv h) (Hmax : ∀ x, valid h.(h_tree) x → (x.1 < two64 - 1)%N).
Let Hok : tree_ok h.(h_tree) := gi_tree _ _ Hg.
Context i j (cs : gmap (string * N) (N * N)) (pc : apply_pc) (req : InstallSnapshotRequest) (Hreq : is_ok h j req).

Lemma is_led : led h req.(is_Term) (is_pos req) ∧ committed_by h req.(is_Term) (is_pos req).
Proof.
  destruct Hreq as (_ & body & en & ((e & He) & Hc & _) & _). split; [|done]. eapply committed_by_led; [done|done|]. by eexists.
Qed.

(** ** The guards of both critical sections *)

Definition is_post (r : InstallSnapshotResponse) n : Prop :=
  ∃ h', history_grows i h h' ∧ up_ok h' cs i n pc ∧ isr_ok h' j i req r.

Lemma is_post_false r n : up_ok h cs i n pc → (r.(isr_Success) = true → req.(is_Done) = false) → is_post r n.
Proof.
  intros Hu Hs. exists h. split_and!; [by apply same_history|done|]. split; [done|]. intros Hr Hd. rewrite (Hs Hr) in Hd. done.
Qed.

(** The node has the position. *)
Lemma is_post_ack r n : up_ok h cs i n pc → n.(storageFatal) = None → n.(currentTerm) = req.(is_Term) →
  on h.(h_tree) (mtip n) (is_pos req) → (∀ u c, (i, u, c) ∈ h.(h_votes) → (u ≤ n.(currentTerm))%N) → is_post r n.
Proof.
  intros Hu Hnf Ht Hon Hv. destruct is_led as [Hl _]. rewrite <- Ht in Hl.
  pose proof (ack_history members h Hg Hmax i _ _ Hl Hv) as Hgr.
  exists (h_ack i n.(currentTerm) (is_pos req) h). split_and!; [done|by apply up_ok_ack|].
  split; [eapply is_ok_grow; [apply Hgr|done]|]. intros _ _. rewrite <- Ht. by left.
Qed.

Lemma up_ok_pend n pd : up_ok h cs i n pc → pend_ok h.(h_tree) (with_pendingSnapshot pd n) → up_ok h cs i (with_pendingSnapshot pd n) pc.
Proof.
  intros [(vt & Hb) Hr _ Hpc] Hp. split; [exists vt; by eapply base_face; [..|exact Hb]|eapply role_face; [..|exact Hr]; done|done|done].
Qed.

(** A node that goes on after the guards. *)
Record is_ready n : Prop := {
  sr_up : up_ok h cs i n pc;
  sr_live : n.(storageFatal) = None;
  sr_wf : node_wf n;
  sr_role : n.(role) = Follower;
  sr_term : n.(currentTerm) = req.(is_Term);
  sr_above : (n.(commitIndex) < req.(is_LastIncludedIndex))%N;
  sr_votes : ∀ u c, (i, u, c) ∈ h.(h_votes) → (u ≤ n.(currentTerm))%N }.

Lemma isGuards_post n r n' : up_ok h cs i n pc → node_wf n → (∀ u c, (i, u, c) ∈ h.(h_votes) → (u ≤ n.(currentTerm))%N) →
  isGuards req n = (r, n') →
  match r with inl resp => is_post resp n' ∧ is_post resp (with_pendingSnapshot None n') | inr _ => is_ready n' end.
Proof.
  intros Hu Hwf Hv. assert (∀ n r, up_ok h cs i n pc → r.(isr_Success) = false →
    is_post r n ∧ is_post r (with_pendingSnapshot None n)) as Hfalse.
  { intros n1 r1 Hu1 Hr1. split; apply is_post_false; try (by rewrite Hr1); [done|]. by apply up_ok_pend. }
  unfold isGuards. case_decide as Hdis; [by intros [= <- <-]; apply Hfalse|]. case_decide; [by intros [= <- <-]; apply Hfalse|].
  case_decide as Hlow; [by intros [= <- <-]; apply Hfalse|].
  assert (n.(storageFatal) = None) as Hnf by (destruct (storageFatal n) eqn:E; [destruct Hdis; by right; rewrite E|done]).
  destruct (if decide (_ ∨ _) then _ else _) as [e n1] eqn:E.
  destruct (follow_ready members s0 h Hg i cs n pc req.(is_Term) req.(is_LeaderID) _ _ Hu Hnf ltac:(lia) E) as (Hu1 & Hcore & Hpar & Hrole & Hterm & Hfat & Hpend).
  clear E. destruct e as [e|]; [intros [= <- <-]; apply Hfalse; [by apply up_ok_pend|done]|]. specialize (Hfat eq_refl).
  set (n2 := resetElectionLocked _).
  assert (up_ok h cs i n2 pc) as Hu2 by (by eapply up_ok_face; [|exact Hu1]).
  assert (∀ u c, (i, u, c) ∈ h.(h_votes) → (u ≤ n2.(currentTerm))%N) as Hv2.
  { change (currentTerm n2) with (currentTerm n1). intros u c Huc. specialize (Hv u c Huc). lia. }
  assert (node_wf n2) as Hwf2 by (by eapply node_wf_core).
  case_decide as Hc; intros [= <- <-]; [|split; try done; lia].
  assert (on h.(h_tree) (mtip n2) (is_pos req)) as Hon.
  { destruct (up_base _ _ _ _ _ _ _ Hu2 Hfat) as [[_ Hm _ _] _]. destruct is_led as [_ Hcom].
    by eapply committed_in_log in Hcom as [? _]. }
  split; (apply is_post_ack; [|done..]); repeat (apply up_ok_pend; [|done]); done.
Qed.

(** ** Chunks *)

Lemma chunk_prefix (body buf : list Byte.byte) k o en : buf = take k body → o = len buf → 
  buf ++ slice body o en = take (length buf + N.to_nat (en - o)) body ∧
  (en = len body → buf ++ slice body o en = body).
Proof.
  intros -> ->. unfold slice, len. rewrite Nat2N.id.
  assert (take k body = take (length (take k body)) body) as He by (rewrite length_take; destruct (Nat.min_spec k (length body)) as [[? ->]|[? ->]]; [done|]; by rewrite !take_ge by lia).
  assert (∀ m, take k body ++ take m (drop (length (take k body)) body) = take (length (take k body) + m) body) as Happ.
  { intros m. rewrite He at 1. by rewrite take_take_drop. }
  split; [by rewrite Happ|]. intros ->. rewrite Happ. apply take_ge. rewrite length_take. lia.
Qed.

Definition recv_post (r : InstallSnapshotResponse + list Byte.byte) n : Prop :=
  match r with inl resp => is_post resp n | inr body => up_ok h cs i n pc ∧ fin_ok h j req body end.

Lemma isChunk_post n pr k body : up_ok h cs i n pc → body_ok s0 h.(h_tree) (is_pos req) body → pr.(sp_buffer) = take k body →
  sameStream pr req → recv_post (isChunk req pr n).1 (isChunk req pr n).2.
Proof.
  intros Hu Hbody Hbuf (Hl & Hi & Ht). unfold isChunk. case_decide as Ho; [by apply is_post_false|].
  pose proof Hreq as (_ & body' & en & (_ & _ & _ & Hb') & Hdata & Hdone). rewrite <- (body_fun _ _ _ _ _ Hok Hbody Hb') in *.
  assert (is_Offset req = len (sp_buffer pr)) as Ho' by (destruct (decide (is_Offset req = len (sp_buffer pr))); tauto).
  destruct (chunk_prefix body pr.(sp_buffer) k req.(is_Offset) en Hbuf Ho') as [Hpre Hall]. rewrite <- Hdata in Hpre, Hall.
  match goal with |- context [with_pendingSnapshot (Some ?p) n] => set (pr' := p) end.
  assert (up_ok h cs i (with_pendingSnapshot (Some pr') n) pc) as Hu1.
  { apply up_ok_pend; [done|]. intros q [= <-]. exists (length pr.(sp_buffer) + N.to_nat (en - req.(is_Offset))), body.
    cbn. rewrite Hi, Ht. split; [done|exact Hpre]. }
  destruct (is_Done req) eqn:Ed; [|by apply is_post_false].
  cbn [recv_post fst snd]. split; [done|]. split_and!; [done|done|]. cbn. by rewrite (Hall (Hdone eq_refl)).
Qed.

Lemma install_recv_post n : up_ok h cs i n pc → node_wf n → (∀ u c, (i, u, c) ∈ h.(h_votes) → (u ≤ n.(currentTerm))%N) →
  recv_post (HandleInstallSnapshot_recv req n).1 (HandleInstallSnapshot_recv req n).2.
Proof.
  intros Hu Hwf Hv. unfold HandleInstallSnapshot_recv. destruct (isGuards req n) as [[r|[]] n1] eqn:Eg;
    apply isGuards_post in Eg; try done; [by destruct Eg|]. destruct Eg as [Hu1 _ _ _ _ _ _].
  pose proof Hreq as (_ & body & en & (_ & _ & _ & Hb) & _ & _).
  assert (∀ n2, up_ok h cs i n2 pc → recv_post
    (isChunk req (mkProgress req.(is_LeaderID) req.(is_LastIncludedIndex) req.(is_LastIncludedTerm) [])
      (with_pendingSnapshot (Some (mkProgress req.(is_LeaderID) req.(is_LastIncludedIndex) req.(is_LastIncludedTerm) [])) n2)).1
    (isChunk req (mkProgress req.(is_LeaderID) req.(is_LastIncludedIndex) req.(is_LastIncludedTerm) [])
      (with_pendingSnapshot (Some (mkProgress req.(is_LeaderID) req.(is_LastIncludedIndex) req.(is_LastIncludedTerm) [])) n2)).2) as Hfresh.
  { intros n2 Hu2. eapply (isChunk_post _ _ 0 body); [|done|done|done]. apply up_ok_pend; [done|].
    intros q [= <-]. by exists 0, body. }
  destruct (pendingSnapshot n1) as [pr|] eqn:Ep.
  - case_decide as Hst.
    + destruct (u_pend _ _ _ _ _ _ _ Hu1 pr Ep) as (k & b & Hbk & Hbuf). destruct Hst as (? & Hsi & Hst). rewrite Hsi, Hst in Hbk.
      eapply isChunk_post; [done|exact Hbk|done|done].
    + case_decide; [by apply is_post_false|]. by apply Hfresh.
  - case_decide; [by apply is_post_false|]. by apply Hfresh.
Qed.

(** ** Installing *)

(** While a snapshot is installed the apply goroutine has none on disk. *)
Lemma pc_ok_allowed n n' : install_allowed pc = true → (n.(lastApplied) ≤ n'.(lastApplied))%N → pc_ok h n pc → pc_ok h n' pc.
Proof.
  intros Ha Hle [Hp _]. split.
  - intros sn Hs. destruct (Hp sn Hs) as (? & ? & ? & ?). split_and!; [done|done|lia|done].
  - by intros sn ->.
Qed.

Section install.
Context n (Hr : is_ready n) (Hpc : install_allowed pc = true) (data : option (gmap string string)).
Let sn' : Snapshot := mkSnapshot req.(is_LastIncludedIndex) req.(is_LastIncludedTerm) data.
Let newLog : list LogEntry := logAfterSnapshotLocked n sn'.
Context (Hsn : snap_ok h.(h_tree) sn').
Let t : N := n.(currentTerm).
Let w' : N * N := tip sn' newLog.

Lemma install_base : base h i t n.
Proof. apply (up_base members s0 h i cs n pc); apply Hr. Qed.

(** The new log, in memory. *)
Lemma install_log : chained h.(h_tree) (snap_pos sn') newLog ∧ on h.(h_tree) w' (snap_pos sn') ∧ moves members h i t n w' ∧
  ((w' = snap_pos sn' ∧ ¬ on h.(h_tree) (mtip n) (snap_pos sn')) ∨ (w' = mtip n ∧ on h.(h_tree) (mtip n) (snap_pos sn'))).
Proof.
  destruct install_base as [[_ Hm _ _] _]. pose proof Hm as [Hch Hs _ _ _]. pose proof Hr as [_ _ Hwf _ Ht Hab _].
  pose proof Hwf as []. unfold lastIndexLocked in *. pose proof (snap_ok_valid _ _ _ Hsn) as Hv.
  destruct (after_chained h.(h_tree) Hok n.(snapshot) n.(log)) with (new := sn') as [Hc Hcase]; [by eapply snap_ok_valid|done|lia|done|cbn; lia|].
  fold (logAfterSnapshotLocked n sn') newLog w' (mtip n) in Hc, Hcase. split; [done|].
  assert (led h t (snap_pos sn')) as Hl by (unfold t; rewrite Ht; apply is_led).
  split_and!; [destruct Hcase as [[-> _]|[-> ?]]; done| |done].
  eapply follow_moves; [done|done|exact Hl|]. destruct Hcase as [[-> ?]|[-> _]]; [right; split; [done|by right]|by left].
Qed.

(** A store between the writes of an installation: the new snapshot, and a
    log that ends where the new log does. *)
Record installing st : Prop := {
  in_disk : disk_ok h i t st;
  in_snap : disk_snap st = sn';
  in_hs : durable_hs st = durable_hs n.(store);
  in_tip : ∀ sn l, disk st = Some (sn, l) → tip sn l = w' }.

Lemma installing_intro st : sound st → durable_hs st = durable_hs n.(store) → disk_snap st = sn' →
  (∀ sn l, disk st = Some (sn, l) → chained h.(h_tree) (snap_pos sn') l ∧ tip sn' l = w') → installing st.
Proof.
  intros Hso Hhs Hds Hl. destruct install_log as (_ & _ & (Hk & Hw2 & Hmv) & _). pose proof Hr as [_ Hnf Hwf _ Ht _ _].
  assert (∀ sn l, disk st = Some (sn, l) → chained h.(h_tree) (snap_pos sn) l ∧ tip sn l = w') as Hl'.
  { intros sn l Hd. pose proof (disk_snap_eq _ _ _ Hd) as ->. rewrite Hds. by apply (Hl (disk_snap st)). }
  split; [|done|done|by intros sn l [_ ?]%Hl'].
  split; [done|rewrite Hhs; apply install_base|by rewrite Hds| | |].
  - rewrite Hds. unfold t. rewrite Ht. apply is_led.
  - destruct (live_commits _ _ _ _ _ _ install_base Hnf Hwf) as [_ (dc & Hdc & Hon & Hcom)]. exists dc. rewrite Hhs.
    split_and!; [done|done|]. intros sn l Hd. right. destruct (Hl' sn l Hd) as [_ ->]. by apply Hmv.
  - intros sn l Hd. destruct (Hl' sn l Hd) as [Hc ->]. done.
Qed.

(** The memory of the node is still the old one. *)
Lemma installing_base st : installing st → base0 h i t (with_store st n).
Proof.
  intros [Hd Hs _ _]. destruct install_base as [[Hle [] _ _] _]. pose proof Hr as [_ _ _ _ _ Hab _].
  split; [done|by split|done|]. left. cbn. rewrite Hs. cbn. done.
Qed.

Lemma install_save r st1 : SaveSnapshot sn' n.(store) = (r, st1) →
  base0 h i t (with_store st1 n) ∧ (r = None → installing st1).
Proof.
  intros Hsv. pose proof Hr as [_ Hnf Hwf _ Ht Hab _]. pose proof install_base as [Hb0 Hli].
  destruct (Hli Hnf) as (_ & Happ & Hle & Htip). pose proof (b_disk _ _ _ _ _ _ Hb0) as Hd.
  pose proof (SaveSnapshot_hs sn' n.(store)) as Hhs. rewrite Hsv in Hhs. cbn in Hhs. destruct Hwf as [_ _ _ Hap _].
  assert (sn'.(LastIncludedIndex) = req.(is_LastIncludedIndex)) as Hidx by done.
  assert (0 < sn'.(LastIncludedIndex) < two64)%N as Hrange by (pose proof (Hmax _ (snap_ok_valid _ _ _ Hsn)) as Hm; cbn [fst snap_pos] in Hm; lia).
  destruct (SaveSnapshot_disk sn' n.(store) r st1 Hsv (d_sound _ _ _ _ _ _ Hd) Hrange) as (Hso & [(Hrn & Hds & Hdk & _)|(Hds & Hcase)]).
  - split; [|by intros ->]. destruct Hb0 as [Hle0 [] _ Ho]. split; [done|by split| |].
    + destruct Hd as [_ Hd2 Hd3 Hd4 Hd5 Hd6]. split; cbn; rewrite ?Hhs, ?Hds, ?Hdk; done.
    + unfold over in *. cbn. by rewrite Hds, Hdk, Hhs.
  - assert (installing st1) as Hin; [|split; [by apply installing_base|done]].
    apply installing_intro; [done|done|done|]. intros sn l Hl. destruct Hcase as [(_ & ? & _)|(l0 & Hl0 & Hdk)]; [congruence|].
    destruct Hdk as [Hdk' _]; [right; split; [done|lia]|]. rewrite Hl in Hdk'. injection Hdk' as -> ->.
    destruct (live_disk members s0 h i t n install_base Hnf _ _ Hl0) as (Htip0 & Hch0 & _).
    destruct (after_chained h.(h_tree) Hok (disk_snap n.(store)) l0) with (new := sn') as [Hc Hcs];
      [apply (snap_ok_valid s0), Hd|done| |by eapply snap_ok_valid|lia|].
    { assert (lastIndex (disk_snap n.(store)) l0 = (mtip n).1) as -> by (by rewrite <- Htip0).
      pose proof (Hmax _ (mtip_valid _ _ _ _ _ _ (b_mem _ _ _ _ _ _ Hb0))). lia. }
    split; [done|]. rewrite Htip0 in Hcs. destruct install_log as (_ & _ & _ & Hw).
    destruct Hcs as [[-> ?]|[-> ?]], Hw as [[-> ?]|[-> ?]]; done.
Qed.

Lemma install_replace st1 r st2 : installing st1 → ReplaceEntries newLog st1 = (r, st2) →
  installing st2 ∧ (r = None → appendable st2).
Proof.
  intros [Hd Hs Hh Htip] Hrp. destruct install_log as (Hc & _).
  pose proof (ReplaceEntries_hs newLog st1) as Hhs. rewrite Hrp in Hhs. cbn in Hhs.
  destruct (ReplaceEntries_disk newLog st1 r st2 Hrp (d_sound _ _ _ _ _ _ Hd)) as (Hds & Hso & Hcase).
  { apply Forall_forall. intros e He. destruct (entries_bound h Hmax _ _ _ (snap_ok_valid _ _ _ Hsn) Hc He). lia. }
  rewrite Hs in Hds. split; [|intros ->; by destruct Hcase as [[? _]|[? _]]].
  apply installing_intro; [done|congruence|done|]. intros sn l Hl. destruct Hcase as [(_ & Hdk & _)|(_ & [Hdk|[Hdk _]])].
  - rewrite Hdk in Hl. pose proof (disk_snap_eq _ _ _ Hl) as He. rewrite <- Hs, <- He.
    split; [by apply (d_log _ _ _ _ _ _ Hd)|by apply Htip].
  - congruence.
  - rewrite Hdk in Hl. injection Hl as <- <-. done.
Qed.

Lemma install_fail err n' : base0 h i t n' → (n.(lastApplied) ≤ n'.(lastApplied))%N → is_post (isStorageFail err n').1 (isStorageFail err n').2.
Proof.
  intros Hb Hla. apply is_post_false; [|done]. eapply up_ok_fail; [|done|].
  - eapply base0_face; [..|exact Hb]; try done. apply Hb.
  - apply (pc_ok_allowed n); [done|done|apply Hr].
Qed.

(** The hard state with the new commit index. *)
Lemma install_hard st e n3 : installing st → appendable st → saveHardStateLocked req.(is_LastIncludedIndex) (with_store st n) = (e, n3) →
  base0 h i t n3 ∧
  (e = None → ∀ n4, n4.(snapshot) = sn' → n4.(log) = newLog → n4.(commitIndex) = req.(is_LastIncludedIndex) →
     n4.(lastApplied) = req.(is_LastIncludedIndex) → n4.(currentTerm) = t → n4.(store) = n3.(store) →
     base h i t n4 ∧ mtip n4 = w').
Proof.
  intros Hin Happ Hsv. pose proof Hr as [_ Hnf Hwf _ Ht Hab _]. destruct install_log as (Hc & Hon & (Hk & Hw2 & Hmv) & _).
  pose proof (installing_base _ Hin) as Hb0. pose proof Hin as [_ Hds _ Htip].
  assert (committed_by h t (snap_pos sn')) as Hcom by (unfold t; rewrite Ht; apply is_led).
  assert (base0 h i t n3) as Hb3.
  { eapply (base_save members s0 h i t (with_store st n) e n3 _ (snap_pos sn')); [done|exact Hsv|done|done| |].
    - intros sn l Hl. right. by rewrite (Htip _ _ Hl).
    - left. cbn. by rewrite Hds. }
  split; [done|]. intros -> n4 Hsn4 Hl4 Hc4 Ha4 Ht4 Hst4.
  destruct (save_saved _ _ _ _ Hsv) as ([_ Hdk3 Hds3 Hap3] & _ & _ & Hhs). specialize (Hhs eq_refl). cbn in Hdk3, Hds3, Hap3, Hhs.
  assert (mtip n4 = w') as Hmt by (unfold mtip; by rewrite Hsn4, Hl4). split; [|done].
  assert (∀ sn l, disk n4.(store) = Some (sn, l) → tip sn l = mtip n4) as Htip4.
  { intros sn l Hl. rewrite Hst4, Hdk3 in Hl. by rewrite Hmt, (Htip _ _ Hl). }
  split; [split|].
  - by rewrite Ht4.
  - split; rewrite ?Hsn4, ?Hl4, ?Hmt; try done. exists (snap_pos sn'). rewrite Hc4. done.
  - rewrite Hst4. apply Hb3.
  - right. rewrite Hst4, Hhs, Hmt. cbn. split; [by exists (snap_pos sn')|].
    intros sn l cp Hl _ Hcp. rewrite <- Hst4 in Hl. by rewrite (Htip4 _ _ Hl), Hmt.
  - intros _. split_and!; [by rewrite Ht4|rewrite Hst4; auto| | |done].
    + by rewrite Hst4, Hds3, Hds, Hsn4.
    + rewrite Hst4, Hds3, Hds, Ha4. done.
Qed.

Lemma isInstall_post size : is_post (isInstall req data size n).1 (isInstall req data size n).2.
Proof.
  unfold isInstall. fold sn' newLog. pose proof Hr as [Hu Hnf Hwf Hrole Ht Hab Hv]. pose proof (nw_applied _ Hwf) as Hap.
  rewrite (decide_True (P:=commitIndex n < _)%N) by done.
  destruct (SaveSnapshot sn' n.(store)) as [r1 st1] eqn:E1. destruct (install_save _ _ E1) as [Hb1 Hin1].
  destruct r1 as [err|]; [by apply install_fail|]. specialize (Hin1 eq_refl). cbn [store with_store].
  destruct (ReplaceEntries newLog st1) as [r2 st2] eqn:E2. destruct (install_replace _ _ _ Hin1 E2) as [Hin2 Happ].
  change (with_store st2 (with_store st1 n)) with (with_store st2 n).
  destruct r2 as [err|]; [apply install_fail; [by apply installing_base|done]|]. specialize (Happ eq_refl).
  destruct (saveHardStateLocked _ _) as [e n3] eqn:E3. destruct (install_hard _ _ _ Hin2 Happ E3) as [Hb3 Hdone].
  destruct (save_saved _ _ _ _ E3) as ([Hf _ _ _] & _). unfold face in Hf. cbn in Hf.
  injection Hf as Hsn3 Hl3 Hc3 Ha3 Ht3 Hr3 Hm3 Hfa3 Hp3.
  destruct e as [err|]; [apply install_fail; [done|by rewrite Ha3]|].
  cbn [fst snd]. rewrite (decide_True (P:=lastApplied _ < _)%N) by (cbn; rewrite Ha3; lia).
  match goal with |- is_post _ ?m => set (n4 := m) end.
  destruct (Hdone eq_refl n4) as [Hb4 Htip4]; [done..| |done|]; [done|].
  destruct install_log as (_ & Hon & _).
  apply is_post_ack; [|by rewrite <- Hfa3 in Hnf| |by rewrite Htip4|].
  - split; [by eexists|unfold role_ok; change (role n4) with (role n3); by rewrite Hr3, Hrole|done|].
    apply (pc_ok_allowed n); [done| |apply Hu]. change (lastApplied n4) with (is_LastIncludedIndex req). lia.
  - change (currentTerm n4) with (currentTerm n3). congruence.
  - change (currentTerm n4) with (currentTerm n3). by rewrite Ht3.
Qed.

End install.

Lemma install_final_post n body : up_ok h cs i n pc → node_wf n → install_allowed pc = true →
  (∀ u c, (i, u, c) ∈ h.(h_votes) → (u ≤ n.(currentTerm))%N) → fin_ok h j req body →
  is_post (HandleInstallSnapshot_final req body n).1 (HandleInstallSnapshot_final req body n).2.
Proof.
  intros Hu Hwf Hpc Hv (_ & Hdone & (tr & Htr & Hbody)). unfold HandleInstallSnapshot_final.
  assert ((match body with [] => Some None | _ => unmarshalMap body end) = Some (Some (Snapshot_ (apply_all tr s0)))) as ->.
  { rewrite Hbody. pose proof (marshal_nonempty (Some (Snapshot_ (apply_all tr s0)))) as Hne.
    destruct (marshalMap _) eqn:Em; [done|]. by rewrite <- Em, unmarshal_marshal. }
  destruct (isGuards req n) as [[r|[]] n1] eqn:Eg; apply isGuards_post in Eg; try done; [by destruct Eg|].
  pose proof (sr_up _ Eg) as Hu1.
  destruct (pendingSnapshot n1) as [pr|]; [|by apply is_post_false]. case_decide; [|by apply is_post_false].
  apply isInstall_post; [done|done|]. exists tr. split; [done|]. destruct Eg. rewrite decide_False by (cbn; lia). done.
Qed.

End env.
End snap.
