(* ===== verification/RaftApply.v ===== *)
(** * Applying and restarting keep the invariant

    The steps of the apply goroutine, whose snapshots are the states after
    the commands of their position, and [NewNode], which rebuilds a node from
    what its store holds. *)

From S2P Require Import Prelude Types StateMachine StoreIntf RaftLog NodeState Node Replication NodeStep NodeInv VoteFrame Cluster ApplySys Disk Consensus LogTree Raft RaftInv RaftNode RaftSteps RaftSnap.

Section apply.
Context {SM St : Type} `{StateMachine SM} `{Store St} `{RandSource} `{MapCodec}
  `{!HardStateLaws St} `{!DiskLaws St} `{!StateMachineLaws SM} `{!MapCodecLaws}.
#[local] Abbreviation Node := (Node SM St).
Context (members : gset string) (s0 : SM).
Implicit Types (h : history) (n : Node) (i j p : string) (st : St) (T : gmap (N * N) (N * Command)).

#[local] Abbreviation committed_by := (committed_by members).
#[local] Abbreviation ginv := (ginv members).
#[local] Abbreviation snap_ok := (snap_ok s0).
#[local] Abbreviation mem_ok := (mem_ok members s0).
#[local] Abbreviation disk_ok := (disk_ok members s0).
#[local] Abbreviation base := (base members s0).
#[local] Abbreviation base0 := (base0 members s0).
#[local] Abbreviation up_ok := (up_ok members s0).
#[local] Abbreviation pend_ok := (pend_ok s0).
#[local] Abbreviation pc_ok := (pc_ok members s0).
#[local] Abbreviation is_ok := (is_ok members s0).
#[local] Abbreviation isr_ok := (isr_ok members s0).
#[local] Abbreviation fin_ok := (fin_ok members s0).
#[local] Abbreviation hext := (hext members).
#[local] Abbreviation history_grows := (RaftSteps.history_grows members).


Context (Hs0 : Restore None s0 = s0).

Section env.
Context h (Hg : ginv h) (Hmax : ∀ x, valid h.(h_tree) x → (x.1 < two64 - 1)%N).
Let Hok : tree_ok h.(h_tree) := gi_tree _ _ Hg.
Context i (cs : gmap (string * N) (N * N)).

(** ** The machine *)

(** The machine after the log up to [a] is the one after the commands of
    that position. *)
Lemma replayed_trace vt n a : mem_ok h i vt n → node_wf n → (n.(snapshot).(LastIncludedIndex) ≤ a ≤ lastIndexLocked n)%N →
  ∃ x tr, x.1 = a ∧ termAtLocked n a = Some x.2 ∧ on h.(h_tree) (mtip n) x ∧ trace h.(h_tree) x tr ∧ replayed n a = apply_all tr s0.
Proof.
  intros [Hch Hsn _ _ _] Hwf Ha. pose proof Hwf as []. pose proof (snap_ok_valid _ _ _ Hsn) as Hsv.
  set (k := N.to_nat (a - n.(snapshot).(LastIncludedIndex))).
  assert (k ≤ length n.(log)) as Hk by (unfold lastIndexLocked in Ha; rewrite (lastIndex_wf _ _ nw_log) in Ha; unfold len in Ha; lia).
  destruct (drop_chained h.(h_tree) n.(snapshot) n.(log) Hch k Hk) as (_ & _ & Hidx & Hon). fold (mtip n) in Hon.
  destruct (chained_take _ _ _ k Hch) as [Hck _]. destruct Hsn as (tr & Htr & Hd).
  set (x := end_pos (snap_pos n.(snapshot)) (take k n.(log))) in *.
  exists x, (tr ++ (EntryCommand <$> take k n.(log))). split_and!; [rewrite Hidx; lia| |done|by apply trace_chained|].
  - replace a with x.1 by (rewrite Hidx; lia). apply (on_termAt h.(h_tree) Hok); [done|done|unfold lastIndexLocked in *; lia|done|rewrite Hidx; lia].
  - unfold replayed. fold k. rewrite apply_all_app. f_equal. destruct (decide _) as [Hz|Hz] in Hd; rewrite Hd.
    + assert (snap_pos n.(snapshot) = root) as Hr by (apply (valid_root_index h.(h_tree)); done).
      rewrite Hr in Htr. rewrite (trace_fun _ _ _ _ Hok Htr (trace_root _)). cbn.
      transitivity (Restore None s0); [apply Restore_indep|done].
    + by rewrite Restore_Snapshot.
Qed.

(** A snapshot of the applied state. *)
Lemma snapshot_ok vt n sn : mem_ok h i vt n → node_wf n → n.(sm) = replayed n n.(lastApplied) →
  snapshotAtLocked n n.(lastApplied) = Some sn → (0 < n.(lastApplied))%N →
  snap_ok h.(h_tree) sn ∧ sn.(LastIncludedIndex) = n.(lastApplied) ∧ committed_by h vt (snap_pos sn).
Proof.
  intros Hm Hwf Hsm Hsnap Hpos. pose proof Hwf as [].
  destruct (replayed_trace vt n n.(lastApplied) Hm Hwf ltac:(lia)) as (x & tr & Hx & Ht & Hon & Htr & Hrep).
  unfold snapshotAtLocked in Hsnap. rewrite Ht in Hsnap. injection Hsnap as <-.
  assert ((n.(lastApplied), x.2) = x) as Hxp by (rewrite <- Hx; by destruct x).
  split_and!; [|done|].
  - exists tr. unfold snap_pos. cbn. rewrite Hxp. split; [done|]. rewrite decide_False by lia. by rewrite Hsm, Hrep.
  - unfold snap_pos. cbn. rewrite Hxp. destruct (m_com _ _ _ _ _ _ Hm) as (cp & Hcp & Hcon & Hcom).
    eapply committed_on; [done|exact Hcom|]. eapply on_linear; [done|exact Hcon|done|lia].
Qed.

(** ** Saving and compacting *)

Section persist.
Context n (Hwf : node_wf n) (sn : Snapshot) (vt : N) (Hb : base h i vt n).
Context (Hsn : snap_ok h.(h_tree) sn) (Hpos : (0 < sn.(LastIncludedIndex) ≤ n.(lastApplied))%N).
Context (u : N) (Hcom : committed_by h u (snap_pos sn)).

Lemma persist_on : on h.(h_tree) (mtip n) (snap_pos sn) ∧ committed_by h vt (snap_pos sn).
Proof. eapply committed_in_log; [done|apply Hb|done|]. destruct Hwf. cbn. lia. Qed.

(** The log on disk has the position, unless a newer snapshot was half installed. *)
Lemma persist_disk_on s l : ((disk_snap n.(store)).(LastIncludedIndex) ≤ sn.(LastIncludedIndex))%N →
  disk n.(store) = Some (s, l) → on h.(h_tree) (tip s l) (snap_pos sn).
Proof.
  intros Hle Hd. destruct (m_com _ _ _ _ _ _ (b_mem _ _ _ _ _ _ (proj1 Hb))) as (cp & Hcp & Hon & Hcp2). destruct Hwf.
  destruct (b_over _ _ _ _ _ _ (proj1 Hb)) as [?|[_ Ho]]; [lia|].
  eapply committed_at; [done|by eapply Ho|exact Hcp2|exact Hcom|]. rewrite Hcp. cbn. lia.
Qed.

(** What [SaveSnapshot] leaves on disk: nothing changed, or the new snapshot
    with the rest of the log, which ends where the old one did. *)
Lemma save_disk r st' : ((disk_snap n.(store)).(LastIncludedIndex) ≤ sn.(LastIncludedIndex))%N →
  SaveSnapshot sn n.(store) = (r, st') → sound st' ∧ (appendable n.(store) → appendable st') ∧
  ((r ≠ None ∧ disk_snap st' = disk_snap n.(store) ∧ disk st' = disk n.(store)) ∨
   (disk_snap st' = sn ∧ ∀ s l', disk st' = Some (s, l') → ∃ l, disk n.(store) = Some (disk_snap n.(store), l) ∧
      chained h.(h_tree) (snap_pos s) l' ∧ tip s l' = tip (disk_snap n.(store)) l)).
Proof.
  intros Hle Hsv. pose proof (b_disk _ _ _ _ _ _ (proj1 Hb)) as Hd.
  assert (0 < sn.(LastIncludedIndex) < two64)%N as Hrange by (pose proof (Hmax _ (snap_ok_valid _ _ _ Hsn)) as Hm; cbn in Hm; lia).
  destruct (SaveSnapshot_disk sn n.(store) r st' Hsv (d_sound _ _ _ _ _ _ Hd) Hrange) as (Hso & [(Hrn & Hds & Hdk & Hap)|(Hds & Hcase)]);
    [split_and!; [done|done|by left]|].
  destruct Hcase as [(_ & Hnone & Hap)|(l & Hl & Hdk)]; [split_and!; [done|done|right; split; [done|congruence]]|].
  pose proof (persist_disk_on _ _ Hle Hl) as Hdon. destruct (d_log _ _ _ _ _ _ Hd _ _ Hl) as (Hch & _).
  assert (valid h.(h_tree) (snap_pos (disk_snap n.(store)))) as Hdv by (eapply snap_ok_valid, Hd).
  assert (lastIndex (disk_snap n.(store)) l < two64)%N as Hlm.
  { pose proof (Hmax _ (dtip_valid _ _ _ _ _ _ _ _ Hd Hl)) as Hm. cbn in Hm. lia. }
  assert (termAt (disk_snap n.(store)) l sn.(LastIncludedIndex) = Some sn.(LastIncludedTerm)) as Htm
    by (apply (on_termAt h.(h_tree) Hok _ _ Hdv Hch Hlm (snap_pos sn)); [done|cbn; lia]).
  destruct Hdk as [Hdk Hap]; [by left|]. split_and!; [done|auto|]. right. split; [done|]. intros s l' Hl'. exists l. split; [done|].
  rewrite Hl' in Hdk. injection Hdk as -> ->.
  destruct (after_chained h.(h_tree) Hok _ l Hdv Hch Hlm sn (snap_ok_valid _ _ _ Hsn) ltac:(lia)) as [Hc [[_ ?]|[Ht _]]]; done.
Qed.

Lemma save_base r st' : ((disk_snap n.(store)).(LastIncludedIndex) ≤ sn.(LastIncludedIndex))%N →
  SaveSnapshot sn n.(store) = (r, st') → base h i vt (with_store st' n) ∧ (r = None → disk_snap st' = sn).
Proof.
  intros Hle Hsv. pose proof Hb as [Hb0 Hli]. pose proof persist_on as [Hon Hcv].
  pose proof (SaveSnapshot_hs sn n.(store)) as Hhs. rewrite Hsv in Hhs. cbn in Hhs.
  pose proof (b_disk _ _ _ _ _ _ Hb0) as [_ Hd2 Hd3 Hd4 (dc & Hdc & Hdcc & Hdcl) Hd6].
  destruct (save_disk r st' Hle Hsv) as (Hso & Hap & [(Hrn & Hds & Hdk)|(Hds & Hnew)]).
  - split; [|by intros ->]. split; [destruct Hb0 as [Hle0 [] _ Ho]; split; [done|by split| |]|].
    + split; cbn; rewrite ?Hhs, ?Hds, ?Hdk; try done. by exists dc.
    + unfold over in *. cbn. by rewrite Hds, Hdk, Hhs.
    + intros Hnf. destruct (Hli Hnf) as (? & ? & ? & ?). unfold live. cbn. rewrite Hds, Hdk. split_and!; [done|auto|lia|lia|done].
  - split; [|done]. split; [split; [apply Hb0|destruct Hb0 as [_ [] _ _]; by split| |]|].
    + split; cbn [store with_store]; rewrite ?Hhs, ?Hds; try done.
      * exists dc. split_and!; [done|done|]. intros s l' Hl'. destruct (Hnew _ _ Hl') as (l & Hl & _ & ->).
        rewrite (disk_snap_eq _ _ _ Hl'), Hds. destruct (Hdcl _ _ Hl); [left; lia|by right].
      * intros s l' Hl'. destruct (Hnew _ _ Hl') as (l & Hl & Hc & ->). split; [done|]. by apply (Hd6 _ _ Hl).
    + destruct (b_over _ _ _ _ _ _ Hb0) as [?|[Hdcm Ho]]; [destruct Hwf; lia|]. right. cbn [store with_store]. rewrite Hhs.
      split; [done|]. intros s l' cp Hl'. destruct (Hnew _ _ Hl') as (l & Hl & _ & ->). by apply Ho.
    + intros Hnf. destruct (Hli Hnf) as (? & Happ & Hsl & Htip). unfold live. cbn [store with_store]. rewrite Hds.
      split_and!; [done|auto|cbn; lia|cbn; lia|]. intros s l' Hl'. destruct (Hnew _ _ Hl') as (l & Hl & _ & ->). by apply Htip.
Qed.

(** The log after the snapshot replaces the one on disk. *)
Context (Hds : disk_snap n.(store) = sn) (Hle : (n.(snapshot).(LastIncludedIndex) ≤ sn.(LastIncludedIndex))%N).
Let newLog : list LogEntry := entriesAbove n.(log) sn.(LastIncludedIndex).

Lemma compact_log : chained h.(h_tree) (snap_pos sn) newLog ∧ tip sn newLog = mtip n.
Proof.
  pose proof persist_on as [Hon _]. destruct (b_mem _ _ _ _ _ _ (proj1 Hb)) as [Hch Hs _ _ _].
  rewrite (tip_end sn). apply (above_chained h.(h_tree) Hok n.(snapshot) n.(log) Hch); [|done|done].
  destruct Hwf as [_ ? _ _ _]. unfold lastIndexLocked in *. lia.
Qed.

Lemma compact_base r st' : ReplaceEntries newLog n.(store) = (r, st') →
  base h i vt (with_store st' n) ∧ disk_snap st' = sn.
Proof.
  intros Hrp. pose proof Hb as [Hb0 Hli]. pose proof (b_disk _ _ _ _ _ _ Hb0) as [Hso0 Hd2 Hd3 Hd4 (dc & Hdc & Hdcc & Hdcl) Hd6].
  destruct compact_log as [Hch Htip]. pose proof (b_mem _ _ _ _ _ _ Hb0) as [Hm1 Hm2 Hm3 Hm4 Hm5].
  pose proof (ReplaceEntries_hs newLog n.(store)) as Hhs. rewrite Hrp in Hhs. cbn in Hhs.
  destruct (ReplaceEntries_disk newLog n.(store) r st' Hrp Hso0) as (Hds' & Hso & Hcase).
  { apply Forall_forall. intros e He. destruct (entries_bound h Hmax _ _ _ (snap_ok_valid _ _ _ Hsn) Hch He). lia. }
  split; [|congruence].
  assert (∀ s l, disk st' = Some (s, l) → disk n.(store) = Some (s, l) ∨ (s = sn ∧ l = newLog)) as Hnew.
  { intros s l Hl. destruct Hcase as [(_ & Hdk & _)|(_ & [Hdk|[Hdk _]])]; [left; congruence|congruence|right].
    rewrite Hl, Hds in Hdk. by injection Hdk. }
  destruct (b_over _ _ _ _ _ _ Hb0) as [?|[Hdcm Ho]]; [destruct Hwf; rewrite Hds in *; lia|].
  destruct Hdcm as (dc' & Hdc' & Hdon & Hdcc'). rewrite (committed_same members h Hg vt vt dc' dc) in Hdon by (done || congruence).
  split; [split; [apply Hb0|by split| |]|].
  - split; cbn [store with_store]; rewrite ?Hhs, ?Hds'; try done.
    + exists dc. split_and!; [done|done|]. intros s l [Hl|[-> ->]]%Hnew; [by apply Hdcl|]. right. by rewrite Htip.
    + intros s l [Hl|[-> ->]]%Hnew; [by apply Hd6|]. by rewrite Htip.
  - right. cbn [store with_store]. rewrite Hhs. split; [by exists dc|]. intros s l cp [Hl|[-> ->]]%Hnew; [by apply Ho|]. by rewrite Htip.
  - intros Hnf. destruct (Hli Hnf) as (? & Happ & Hsl & Ht). unfold live. cbn [store with_store]. rewrite Hds'.
    split_and!; [done| |cbn; lia|cbn; lia|].
    + destruct Hcase as [(_ & _ & Hap)|[? _]]; auto.
    + intros s l [Hl|[-> ->]]%Hnew; [by apply Ht|done].
Qed.

Lemma compact_done st' n' : ReplaceEntries newLog n.(store) = (None, st') →
  n'.(snapshot) = sn → n'.(log) = newLog → n'.(commitIndex) = n.(commitIndex) → n'.(lastApplied) = n.(lastApplied) →
  n'.(currentTerm) = n.(currentTerm) → n'.(store) = st' → n'.(storageFatal) = n.(storageFatal) →
  base h i vt n' ∧ mtip n' = mtip n.
Proof.
  intros Hrp Hsn' Hl Hc Ha Ht Hst Hf. destruct (compact_base _ _ Hrp) as [[[Hb1 [Hm1 Hm2 Hm3 Hm4 Hm5] Hb3 Ho] Hli] Hds'].
  destruct compact_log as [Hch Htip].
  assert (mtip n' = mtip n) as Hmt by (unfold mtip at 1; by rewrite Hsn', Hl). split; [|done].
  change (mtip (with_store st' n)) with (mtip n) in *.
  split; [split|].
  - by rewrite Ht.
  - split; rewrite ?Hsn', ?Hl, ?Hmt, ?Hc; done.
  - by rewrite Hst.
  - unfold over in *. rewrite Hst, Hc, Hmt. exact Ho.
  - rewrite Hf. intros Hnf. destruct (Hli Hnf) as (H1' & H2' & H3' & H4'). unfold live. rewrite Ht, Hst, Hsn', Ha, Hmt, Hds'.
    split_and!; [done|done|lia|lia|done].
Qed.

End persist.

(** ** The apply goroutine *)

Lemma pc_ok_trivial n (pc : apply_pc) : match pc with AIdle | AGot _ | AApplied _ _ => True | _ => False end → pc_ok h n pc.
Proof. intros Hp. destruct pc; try done; (split; [intros sn [?|[?|?]]; done|done]). Qed.

(** The node as it was, at another point of the goroutine. *)
Lemma up_ok_pc n n' pc pc' : up_ok h cs i n pc → face n' = face n → pc_ok h n' pc' → up_ok h cs i n' pc'.
Proof. intros Hu Hf Hpc. destruct (up_ok_face members s0 h cs i n n' pc Hf Hu) as [? ? ? _]. by split. Qed.

(** What the second critical section of a turn touches. *)
Lemma finish_frame e r n : let n' := (applyReady_finish e r n).2 in
  n'.(snapshot) = n.(snapshot) ∧ n'.(log) = n.(log) ∧ n'.(commitIndex) = n.(commitIndex) ∧ n'.(currentTerm) = n.(currentTerm) ∧
  n'.(role) = n.(role) ∧ n'.(matchIndex) = n.(matchIndex) ∧ n'.(storageFatal) = n.(storageFatal) ∧ n'.(store) = n.(store) ∧
  n'.(pendingSnapshot) = n.(pendingSnapshot) ∧ n'.(leaderNoopIndex) = n.(leaderNoopIndex).
Proof. unfold applyReady_finish. by case_decide. Qed.

Lemma finish_snapshot e r n sn : (applyReady_finish e r n).1 = Some (Some sn) →
  snapshotAtLocked (applyReady_finish e r n).2 (applyReady_finish e r n).2.(lastApplied) = Some sn.
Proof. unfold applyReady_finish. case_decide; [done|]. intros [= Hs]. revert Hs. by case_decide. Qed.

Lemma finish_post n e r : up_ok h cs i n (AApplied e r) → sys_inv (n, AApplied e r) →
  up_ok h cs i (apply_micro n (AApplied e r)).1 (apply_micro n (AApplied e r)).2.
Proof.
  intros Hu Hinv. pose proof (sys_inv_step _ _ Hinv (ss_finish n e r)) as Hinv'. destruct Hinv as (Hwf & _ & _ & He & Hle).
  destruct (finish_records n e r Hwf He Hle) as (_ & Hcore & Hidx & _). cbn [apply_micro fst snd].
  pose proof (finish_frame e r n) as (Hs & Hl & Hc & Ht & Hr & Hm & Hf & Hst & Hp & Hnp). pose proof (finish_snapshot e r n) as Hsnap.
  destruct (applyReady_finish e r n) as [o n']. cbn [fst snd] in *. unfold core in Hcore. injection Hcore as _ _ _ Hla _.
  pose proof Hu as [(vt & Hb) Hro Hpe Hpc].
  assert (base h i vt n') as Hb' by (eapply base_face; [..|exact Hb]; try done; [lia|congruence]).
  split; [by eexists|eapply role_face; [..|exact Hro]; try done; [unfold mtip; congruence|by rewrite Hc]|unfold pend_ok; by rewrite Hp|].
  destruct o as [[sn|]|]; [|by apply pc_ok_trivial..]. specialize (Hsnap sn eq_refl). destruct Hinv' as (Hwf' & Hsm & _).
  destruct (snapshot_ok vt n' sn (b_mem _ _ _ _ _ _ (proj1 Hb')) Hwf' Hsm Hsnap ltac:(lia)) as (Hsn & Hi & Hcom).
  split; [|done]. intros sn0 [Heq|[Heq|Heq]]; try done. injection Heq as <-. split_and!; [done|lia|lia|by eexists].
Qed.

Lemma save_post n sn : up_ok h cs i n (AChecked sn) → node_wf n → apply_guard n (AChecked sn) →
  up_ok h cs i (apply_micro n (AChecked sn)).1 (apply_micro n (AChecked sn)).2.
Proof.
  intros [(vt & Hb) Hro Hpe Hpc] Hwf Hgd. destruct (proj1 Hpc sn ltac:(auto)) as (Hsn & Hpos & Hle & u & Hcom).
  cbn [apply_micro fst snd apply_guard] in *. unfold persistSnapshot_save.
  destruct (SaveSnapshot sn n.(store)) as [r st'] eqn:Es.
  destruct (save_base n Hwf sn vt Hb Hsn (conj Hpos Hle) u Hcom r st' Hgd Es) as [Hb' Hds].
  destruct r as [err|]; cbn [fst snd].
  - split; [exists vt; by eapply base_face; [..|exact Hb']|by eapply role_face; [..|exact Hro]|done|by apply pc_ok_trivial].
  - split; [by eexists|by eapply role_face; [..|exact Hro]|done|]. split.
    + intros sn0 [?|[?|Heq]]; try done. injection Heq as <-. split_and!; [done|done|done|by exists u].
    + intros sn0 [= <-]. by apply Hds.
Qed.

Lemma compact_post n sn : up_ok h cs i n (ASaved sn) → node_wf n → up_ok h cs i (persistSnapshot_finish sn n) AIdle.
Proof.
  intros Hu Hwf. pose proof Hu as [(vt & Hb) Hro Hpe Hpc]. destruct (proj1 Hpc sn ltac:(auto)) as (Hsn & Hpos & Hle & u & Hcom).
  pose proof (proj2 Hpc sn eq_refl) as Hds. unfold persistSnapshot_finish.
  case_decide as Hst; [by eapply up_ok_pc; [exact Hu|done|apply pc_ok_trivial]|].
  assert (n.(snapshot).(LastIncludedIndex) ≤ sn.(LastIncludedIndex))%N as Hlow by (unfold persistSnapshot_stale in Hst; lia).
  destruct (ReplaceEntries _ _) as [r st'] eqn:Er.
  destruct r as [err|].
  - destruct (compact_base n Hwf sn vt Hb Hsn (conj Hpos Hle) u Hcom Hds Hlow _ _ Er) as [Hb' _].
    split; [exists vt; by eapply base_face; [..|exact Hb']|by eapply role_face; [..|exact Hro]|done|by apply pc_ok_trivial].
  - match goal with |- RaftInv.up_ok _ _ _ _ _ ?m _ => set (n' := m) end.
    destruct (compact_done n Hwf sn vt Hb Hsn (conj Hpos Hle) u Hcom Hds Hlow st' n' Er) as [Hb' Htip]; [done..|].
    split; [by eexists|by eapply role_face; [..|exact Hro]|done|by apply pc_ok_trivial].
Qed.

Lemma apply_post n pc : up_ok h cs i n pc → sys_inv (n, pc) → apply_guard n pc →
  up_ok h cs i (apply_micro n pc).1 (apply_micro n pc).2.
Proof.
  intros Hu Hinv Hgd. pose proof (proj1 Hinv) as Hwf. destruct pc as [|e|e r|sn|sn|sn].
  - cbn [apply_micro fst snd]. destruct (applyReady_next_wf n Hwf) as (-> & _ & _).
    eapply up_ok_pc; [exact Hu|done|]. apply pc_ok_trivial. by destruct (applyReady_next n).1.
  - cbn [apply_micro fst snd]. unfold applyReady_apply. destruct (Apply _ _). eapply up_ok_pc; [exact Hu|done|by apply pc_ok_trivial].
  - by apply finish_post.
  - cbn [apply_micro fst snd]. eapply up_ok_pc; [exact Hu|done|]. case_decide; [by apply pc_ok_trivial|].
    destruct Hu as [_ _ _ [Hp _]]. split; [|done]. intros sn0 [?|[Heq|?]]; try done. injection Heq as <-. apply Hp. by left.
  - by apply save_post.
  - by apply compact_post.
Qed.

(** ** Restarting *)

(** The log of a store is well formed. *)
Lemma disk_clean vt st : disk_ok h i vt st → clean_start st s0.
Proof.
  intros Hd. split; [|done]. intros hs es sn st' El. destruct (Load_disk _ _ _ _ _ El (d_sound _ _ _ _ _ _ Hd)) as (Hdk & _).
  destruct (disk_valid members s0 h i vt st sn es Hd Hdk) as [Hv _]. destruct (d_log _ _ _ _ _ _ Hd _ _ Hdk) as (Hch & _).
  pose proof (Hmax _ (dtip_valid _ _ _ _ _ _ _ _ Hd Hdk)) as Hm. cbn in Hm.
  split; [|done]. apply (chained_wf h.(h_tree)); [done|lia].
Qed.

(** The committed positions a store knows of are in its log. *)
Lemma disk_commits vt st sn es : disk_ok h i vt st → disk st = Some (sn, es) →
  (∃ dc, dc.1 = (durable_hs st).(CommitIndex) ∧ on h.(h_tree) (tip sn es) dc ∧ committed_by h vt dc) ∧
  on h.(h_tree) (tip sn es) (snap_pos sn) ∧ committed_by h vt (snap_pos sn).
Proof.
  intros Hd Hdk. destruct (d_log _ _ _ _ _ _ Hd _ _ Hdk) as (Hch & _). pose proof (tip_on_snap _ _ _ Hch) as Hons.
  pose proof (d_scom _ _ _ _ _ _ Hd) as Hsc. rewrite <- (disk_snap_eq _ _ _ Hdk) in Hsc. split; [|done].
  destruct (d_com _ _ _ _ _ _ Hd) as (dc & Hdc & Hcom & Hor). exists dc. split_and!; [done| |done].
  destruct (Hor _ _ Hdk) as [Hlt|?]; [|done]. etrans; [exact Hons|]. eapply committed_below; [done|exact Hsc|exact Hcom|cbn; lia].
Qed.

(** The node [NewNode] builds from what it loaded. *)
Lemma loaded_base vt st hs es sn st' n : disk_ok h i vt st → Load st = (inl (hs, es, sn), st') → 
  n.(snapshot) = sn → n.(log) = es → n.(currentTerm) = hs.(CurrentTerm) → n.(store) = st' →
  (n.(commitIndex) = hs.(CommitIndex) ∨ n.(commitIndex) = sn.(LastIncludedIndex)) →
  (sn.(LastIncludedIndex) ≤ n.(lastApplied))%N → base h i hs.(CurrentTerm) n.
Proof.
  intros Hd El Hsn Hl Ht Hst Hc Ha. destruct (Load_disk _ _ _ _ _ El (d_sound _ _ _ _ _ _ Hd)) as (Hdk & Hdk' & Hso & Happ).
  pose proof (Load_hs_frame st) as Hhs. rewrite El in Hhs. cbn in Hhs. pose proof (Load_hs _ _ _ _ _ El) as ->.
  pose proof (disk_snap_eq _ _ _ Hdk) as Hds. pose proof (disk_snap_eq _ _ _ Hdk') as Hds'.
  pose proof (d_term _ _ _ _ _ _ Hd) as Hle. pose proof (disk_commits _ _ _ _ Hd Hdk) as [(dc & Hdc & Hdon & Hdcom) [Hson Hscom]].
  assert (disk_ok h i (durable_hs st).(CurrentTerm) st') as Hd'.
  { apply (disk_lift members s0 h i vt); [|done|by rewrite Hhs]. destruct Hd as [? ? ? ? ? ?].
    split; rewrite ?Hhs, ?Hdk', <- ?Hdk, <- ?Hds', ?Hds; done. }
  pose proof (d_log _ _ _ _ _ _ Hd' _ _ Hdk') as (Hch & Hterm & Hk).
  assert (mtip n = tip sn es) as Hmt by (unfold mtip; by rewrite Hsn, Hl).
  split; [split|].
  - by rewrite Ht.
  - split; rewrite ?Hsn, ?Hl, ?Hmt; try done; [rewrite Hds'; apply Hd'|].
    destruct Hc as [->| ->]; [exists dc|exists (snap_pos sn)]; (split_and!; [done|done|by eapply committed_by_mono]).
  - by rewrite Hst.
  - right. rewrite Hst, Hhs, Hmt. split; [exists dc; split_and!; [done|done|by eapply committed_by_mono]|].
    intros s l cp Hs. rewrite Hdk' in Hs. by injection Hs as <- <-.
  - intros _. unfold live. rewrite Hst, <- Hds', Ht, Hsn, Hmt. split_and!; [done|done|done|done|].
    intros s l Hs. rewrite Hdk' in Hs. by injection Hs as <- <-.
Qed.

Lemma NewNode_post vt cfg st rng0 now0 : disk_ok h i vt st →
  match NewNode cfg st s0 rng0 now0 with
  | inl n => up_ok h cs i n AIdle ∧ sys_inv (n, AIdle)
  | inr (_, st') => ∃ vt', disk_ok h i vt' st'
  end.
Proof.
  intros Hd. assert (∀ n, NewNode cfg st s0 rng0 now0 = inl n → sys_inv (n, AIdle)) as Hinv by (intros n; apply NewNode_inv; by eapply disk_clean).
  unfold NewNode in *. case_decide; [by exists vt|]. destruct (validateConfig _); [by exists vt|].
  pose proof (disk_clean _ _ Hd) as [Hclean _].
  destruct (Load st) as [[[[hs es] sn]|err] st'] eqn:El.
  2: { destruct (Load_disk_err _ _ _ El (d_sound _ _ _ _ _ _ Hd)) as (Hdk & Hds & Hso). exists vt.
    pose proof (Load_hs_frame st) as Hhs. rewrite El in Hhs. cbn in Hhs. destruct Hd as [? ? ? ? ? ?].
    split; rewrite ?Hhs, ?Hdk, ?Hds; done. }
  destruct (Hclean _ _ _ _ eq_refl) as [Hwf Hlast]. pose proof (lastIndex_wf _ _ Hwf) as Hli.
  set (c := if decide (_ < _)%N then _ else _) in *.
  assert ((c = hs.(CommitIndex) ∨ c = sn.(LastIncludedIndex)) ∧ sn.(LastIncludedIndex) ≤ c ≤ lastIndex sn es)%N as [Hc Hcr].
  { destruct (Load_disk _ _ _ _ _ El (d_sound _ _ _ _ _ _ Hd)) as (Hdk & _).
    destruct (disk_commits _ _ _ _ Hd Hdk) as [(dc & Hdc & Hdon & _) _]. rewrite <- (Load_hs _ _ _ _ _ El) in Hdc.
    apply (on_index _ Hok) in Hdon as (Hi & _). cbn in Hi. subst c. repeat case_decide; lia. }
  rewrite replayLoop_spec in * by apply Hwf. set (a := if decide (c ≤ _)%N then _ else _) in *.
  assert (a = c) as Ha by (clear Hinv; clearbody c; subst a; case_decide; lia). clearbody a. subst a.
  set (n0 := resetElectionLocked _) in *.
  assert (base h i hs.(CurrentTerm) n0) as Hb by (eapply loaded_base; [done|exact El|done..|cbn; lia]).
  assert (up_ok h cs i n0 AIdle) as Hu by (split; [by eexists|done|done|by apply pc_ok_trivial]).
  case_decide; [|split; [done|by apply Hinv]].
  destruct (persistHardStateLocked n0) as [[err|] n1] eqn:Ep.
  - eexists. apply (base_persist_live _ _ _ _ _ _ _ _ Hb Ep).
  - split; [|by apply Hinv]. pose proof (base_persist_live members s0 h i _ _ _ _ Hb Ep) as Hb1.
    destruct (save_saved _ _ _ _ Ep) as ([Hf _ _ _] & _). unfold face in Hf. cbn in Hf.
    injection Hf as Hsn1 Hl1 Hc1 Ha1 Ht1 Hr1 Hm1 Hfa1 Hp1.
    split; [by eexists|unfold role_ok; by rewrite Hr1|unfold pend_ok; by rewrite Hp1|by apply pc_ok_trivial].
Qed.

End env.
End apply.
