(* ===== verification/RaftProofs.v ===== *)
(** * Every step of the cluster keeps the invariant

    The global invariant: some history explains every node, every store and
    every message, and agrees with the votes of [Cluster.v].  Every step of
    [Raft.v] keeps it, for a history that extends the old one. *)

From S2P Require Import Prelude Types StateMachine StoreIntf RaftLog NodeState Node Replication NodeStep NodeInv VoteFrame Cluster ApplySys Disk Consensus LogTree Raft RaftInv RaftNode RaftSteps RaftElect RaftLead RaftSnap RaftApply.

Section proofs.
Context {SM St : Type} `{StateMachine SM} `{Store St} `{RandSource} `{MapCodec}
  `{!HardStateLaws St} `{!DiskLaws St} `{!StateMachineLaws SM} `{!MapCodecLaws}.
#[local] Abbreviation Node := (Node SM St).
#[local] Abbreviation cluster := (@cluster SM St).
#[local] Abbreviation raft := (@raft SM St).
Context (members : gset string) (cfg : string → Config) (s0 : SM) (Hcfg : config_ok members cfg).
Implicit Types (h : history) (n : Node) (i j p q l : string) (st : St) (r : raft) (c : cluster)
  (cs : gmap (string * N) (N * N)).

#[local] Abbreviation ginv := (ginv members).
#[local] Abbreviation disk_ok := (disk_ok members s0).
#[local] Abbreviation up_ok := (up_ok members s0).
#[local] Abbreviation hext := (hext members).
#[local] Abbreviation history_grows := (RaftSteps.history_grows members).

(** ** The invariant *)

Definition msgs_ok h r : Prop :=
  (∀ i p req, (i, p, req) ∈ r.(r_ae) → ae_ok members h i req) ∧
  (∀ i p req resp, (i, p, req, resp) ∈ r.(r_aer) → aer_ok members h i p req resp) ∧
  (∀ sd, sd ∈ r.(r_snap) → send_ok members s0 h sd) ∧
  (∀ i p req, (i, p, req) ∈ r.(r_is) → is_ok members s0 h i req) ∧
  (∀ i p req resp, (i, p, req, resp) ∈ r.(r_isr) → isr_ok members s0 h i p req resp) ∧
  (∀ i p req body, (i, p, req, body) ∈ r.(r_fin) → fin_ok members s0 h i req body).

(** The elections and votes of the history are those of the cluster. *)
Definition ghost_ok h cs c : Prop :=
  (∀ u l e, h.(h_elect) !! u = Some (l, e) → cs !! (l, u) = Some e ∧
     ∃ Q, majority_of members Q ∧ ∀ q, q ∈ Q → voted c q l u) ∧
  (∀ l u e, cs !! (l, u) = Some e → (l, u) ∈ c.(cl_started) ∧ valid h.(h_tree) e ∧ (e.2 < u)%N) ∧
  (∀ l p req, (l, p, req) ∈ c.(cl_vreq) → cs !! (l, req.(rv_Term)) = Some (cand_pos req)) ∧
  (∀ q l u, voted c q l u → ∃ e, cs !! (l, u) = Some e ∧ (q, u, e) ∈ h.(h_votes)) ∧
  (∀ q u e, (q, u, e) ∈ h.(h_votes) → ∃ l, voted c q l u).

Definition slot_ok h cs r i (s : slot) : Prop :=
  match s with
  | Up n => up_ok h cs i n (pc_of r i) ∧ sys_inv (n, pc_of r i)
  | Down st => (∃ vt, disk_ok h i vt st) ∧ r.(r_pc) !! i = None
  end.

Record rinv_at r h cs : Prop := {
  ri_ginv : ginv h;
  ri_max : ∀ x, valid h.(h_tree) x → (x.1 < two64 - 1)%N;
  ri_slot : ∀ i s, r.(r_cl).(cl_slots) !! i = Some s → slot_ok h cs r i s;
  ri_msgs : msgs_ok h r;
  ri_ghost : ghost_ok h cs r.(r_cl) }.

(** ** Growth *)

Lemma msgs_grow h h' r : extends h h' → msgs_ok h r → msgs_ok h' r.
Proof.
  intros Hx (G1 & G2 & G3 & G4 & G5 & G6).
  split_and!; intros *; [intros ?%G1|intros ?%G2|intros ?%G3|intros ?%G4|intros ?%G5|intros ?%G6].
  - by eapply ae_ok_grow.
  - by eapply aer_ok_grow.
  - by eapply sent_ok_grow.
  - by eapply is_ok_grow.
  - by eapply isr_ok_grow.
  - by eapply fin_ok_grow.
Qed.

(** The parts of the cluster the history answers for. *)
Definition votes_of c := (c.(cl_vreq), c.(cl_vresp), c.(cl_started)).

Lemma voted_same c c' q l u : votes_of c' = votes_of c → voted c q l u → voted c' q l u.
Proof. unfold votes_of, voted. intros [= _ -> ->]. done. Qed.

Lemma ghost_same i h h' cs c c' : history_grows i h h' → votes_of c' = votes_of c → ghost_ok h cs c → ghost_ok h' cs c'.
Proof.
  intros [Hx He Hv] Hc (G1 & G2 & G3 & G4 & G5). unfold ghost_ok. rewrite He, Hv.
  assert (∀ q l u, voted c q l u ↔ voted c' q l u) as Hvo by (intros q l u; split; apply voted_same; congruence).
  unfold votes_of in Hc. injection Hc as -> _ ->. split_and!.
  - intros u l e Hl. destruct (G1 u l e Hl) as (? & Q & ? & HQ). split; [done|]. exists Q. split; [done|].
    intros q Hq. by apply Hvo, HQ.
  - intros l u e Hl. destruct (G2 l u e Hl) as (? & ? & ?). split_and!; [done| |done]. eapply ex_valid; [apply Hx|done].
  - done.
  - intros q l u Hq. apply G4. by apply Hvo.
  - intros q u e Hq. destruct (G5 q u e Hq) as [l Hl]. exists l. by apply Hvo.
Qed.

(** One member moves, the history grows by what it did. *)
Lemma rinv_move r r' h h' cs cs' i s' :
  rinv_at r h cs → hext i h h' → (∀ k e, cs !! k = Some e → cs' !! k = Some e) →
  r'.(r_cl).(cl_slots) = <[i := s']> r.(r_cl).(cl_slots) → (∀ j, j ≠ i → r'.(r_pc) !! j = r.(r_pc) !! j) →
  slot_ok h' cs' r' i s' → msgs_ok h' r' → ghost_ok h' cs' r'.(r_cl) → rinv_at r' h' cs'.
Proof.
  intros [Hg Hmax Hsl Hm Hgh] Hx Hcs Hslots Hpc Hs' Hm' Hgh'. split; [apply Hx|apply Hx| |done|done].
  intros j s Hj. rewrite Hslots in Hj. apply lookup_insert_Some in Hj as [[<- <-]|[Hne Hj]]; [done|].
  specialize (Hsl j s Hj). unfold slot_ok, pc_of in *. rewrite Hpc by done. destruct s as [n|st].
  - destruct Hsl as [Hu Hsys]. split; [|done]. eapply up_ok_other; [done|done|done|]. intros e. apply Hcs.
  - destruct Hsl as [(vt & Hd) Hnone]. split; [|done]. exists vt. eapply disk_ok_grow; [apply Hx| |done]. by apply (x_other _ _ _ _ Hx).
Qed.

(** A step of a node that is not part of an election. *)
Lemma rinv_node r r' h h' cs i n' :
  rinv_at r h cs → history_grows i h h' → r'.(r_cl) = set_node i n' r.(r_cl) → (∀ j, j ≠ i → r'.(r_pc) !! j = r.(r_pc) !! j) →
  up_ok h' cs i n' (pc_of r' i) → sys_inv (n', pc_of r' i) → msgs_ok h' r' → rinv_at r' h' cs.
Proof.
  intros Hr Hgr Hcl Hpc Hu Hsys Hm. eapply (rinv_move r r' h h' cs cs i (Up n')); [done|apply Hgr|done|by rewrite Hcl|done|done|done|].
  eapply ghost_same; [done| |apply Hr]. by rewrite Hcl.
Qed.

(** Only the calls of [startElection] in progress change, or messages are added. *)
Lemma rinv_net r r' h cs : rinv_at r h cs → r'.(r_cl).(cl_slots) = r.(r_cl).(cl_slots) → votes_of r'.(r_cl) = votes_of r.(r_cl) →
  r'.(r_pc) = r.(r_pc) → msgs_ok h r' → rinv_at r' h cs.
Proof.
  intros [Hg Hmax Hsl _ Hgh] Hs Hv Hpc Hm. split; [done|done| |done|].
  - intros i s. rewrite Hs. intros Hi. specialize (Hsl i s Hi). unfold slot_ok, pc_of in *. by rewrite Hpc.
  - eapply (ghost_same ""); [by apply same_history|done|done].
Qed.

(** ** Elections *)

Section step.
Context r h cs (Hr : rinv_at r h cs) (Hinv : inv members r.(r_cl)).
Let Hg : ginv h := ri_ginv _ _ _ Hr.
Let Hmax : ∀ x, valid h.(h_tree) x → (x.1 < two64 - 1)%N := ri_max _ _ _ Hr.

Lemma up_slot i n : r.(r_cl).(cl_slots) !! i = Some (Up n) → up_ok h cs i n (pc_of r i) ∧ sys_inv (n, pc_of r i).
Proof. intros Hi. exact (ri_slot _ _ _ Hr _ _ Hi). Qed.

Lemma votes_bound i n : r.(r_cl).(cl_slots) !! i = Some (Up n) → ∀ u e, (i, u, e) ∈ h.(h_votes) → (u ≤ n.(currentTerm))%N.
Proof.
  intros Hi u e Hv. destruct (ri_ghost _ _ _ Hr) as (_ & _ & _ & _ & G5). destruct (G5 _ _ _ Hv) as [l Hl].
  destruct (inv_keeps _ _ Hinv _ _ _ _ Hl Hi) as [[Hk|[Hk _]] _]; cbn in Hk; lia.
Qed.

(** Steps of the other goroutines keep [sys_inv]. *)
Lemma sys_background i n op : r.(r_cl).(cl_slots) !! i = Some (Up n) → is_background op = true → op_ok op n →
  sys_inv (nrun op n, pc_of r i).
Proof. intros Hi Hb Hop. eapply sys_inv_step; [apply (up_slot i n Hi)|by constructor]. Qed.

(** No candidacy of a node is ahead of its term. *)
Lemma candidacy_fresh i n u : r.(r_cl).(cl_slots) !! i = Some (Up n) → (n.(currentTerm) < u)%N →
  cs !! (i, u) = None ∧ (∀ e, h.(h_elect) !! u ≠ Some (i, e)).
Proof.
  intros Hi Hlt. destruct (ri_ghost _ _ _ Hr) as (G1 & G2 & _).
  assert (cs !! (i, u) = None) as Hn.
  { destruct (cs !! (i, u)) as [e|] eqn:E; [|done]. destruct (G2 _ _ _ E) as (Hst & _).
    assert (voted r.(r_cl) i i u) as Hv by (by left).
    destruct (inv_keeps _ _ Hinv _ _ _ _ Hv Hi) as [[Hk|[Hk _]] _]; cbn in Hk; lia. }
  split; [done|]. intros e He. destruct (G1 _ _ _ He) as [? _]. congruence.
Qed.

Lemma elect_step i n term req n' : r.(r_cl).(cl_slots) !! i = Some (Up n) → (n.(currentTerm) < two64 - 1)%N →
  startElection n = (Some (term, req), n') →
  ∃ h' cs', rinv_at (with_cl (announce i term req n' r.(r_cl)) r) h' cs' ∧ extends h h'.
Proof.
  intros Hi Hroom Hst. destruct (up_slot i n Hi) as [Hu Hsys]. pose proof (sys_background i n DoStartElection Hi eq_refl I) as Hsys'.
  pose proof (vote_startElection n _ _ Hroom Hst) as (Hterm & _ & Hid & _). destruct (inv_node _ _ Hinv _ _ Hi) as [Hpid _].
  destruct (candidacy_fresh i n term Hi ltac:(lia)) as [Hfresh Hne]. cbn [nrun] in Hsys'. rewrite Hst in Hsys'. rewrite Hpid in Hid.
  destruct (startElection_accepted members s0 h Hg Hmax i cs n (pc_of r i) Hu Hroom term req n' Hst) as (Hx & Hu' & Hv & Hlt & Hpos & Hrt);
    [by rewrite <- Hterm|].
  exists (h_vote i term (mtip n) h), (<[(i, term) := mtip n]> cs). split; [|apply Hx].
  assert (∀ k e, cs !! k = Some e → <[(i, term) := mtip n]> cs !! k = Some e) as Hcs.
  { intros k e Hk. rewrite lookup_insert_ne; [done|]. intros <-. congruence. }
  eapply (rinv_move r _ h _ cs _ i (Up n')); [done|done|done|done|done|done|eapply msgs_grow; [apply Hx|apply Hr]|].
  destruct (ri_ghost _ _ _ Hr) as (G1 & G2 & G3 & G4 & G5).
  assert (∀ q l u, voted r.(r_cl) q l u → voted (announce i term req n' r.(r_cl)) q l u) as Hmono.
  { intros q l u [[-> ?]|?]; [left; split; [done|by right]|by right]. }
  split_and!.
  - intros u l e He. destruct (G1 u l e He) as (? & Q & ? & HQ). split; [by apply Hcs|]. exists Q. split; [done|].
    intros q Hq. by apply Hmono, HQ.
  - intros l u e [[[= <- <-] <-]|[_ He]]%lookup_insert_Some; [split_and!; [by left|done|done]|].
    destruct (G2 l u e He) as (? & ? & ?). split_and!; [by right|done|done].
  - intros l p rq [Hin|Hin]%elem_of_app.
    + apply list_elem_of_fmap in Hin as (p' & Heq & _). injection Heq as -> -> ->. rewrite Hrt, lookup_insert_eq. by f_equal.
    + by apply Hcs, (G3 l p).
  - intros q l u [[-> [Heq|Hin]%elem_of_cons]|Hin].
    + injection Heq as -> ->. exists (mtip n). rewrite lookup_insert_eq. split; [done|by left].
    + destruct (G4 l l u) as (e & He & ?); [by left|]. exists e. split; [by apply Hcs|by right].
    + destruct (G4 q l u) as (e & He & ?); [by right|]. exists e. split; [by apply Hcs|by right].
  - intros q u e [Heq|Hin]%elem_of_cons.
    + injection Heq as -> -> ->. exists i. left. split; [done|by left].
    + destruct (G5 q u e Hin) as [l Hl]. exists l. by apply Hmono.
Qed.

Lemma vote_step cand j req n resp n' : (cand, j, req) ∈ r.(r_cl).(cl_vreq) → r.(r_cl).(cl_slots) !! j = Some (Up n) →
  HandleRequestVote req n = (resp, n') →
  ∃ h', rinv_at (with_cl (mkCluster (<[j := Up n']> r.(r_cl).(cl_slots)) r.(r_cl).(cl_elec) r.(r_cl).(cl_vreq)
    ((cand, j, req, resp) :: r.(r_cl).(cl_vresp)) r.(r_cl).(cl_started) r.(r_cl).(cl_elected)) r) h' cs ∧ extends h h'.
Proof.
  intros Hin Hj Hh. destruct (up_slot j n Hj) as [Hu Hsys]. pose proof (sys_background j n (DoRequestVote req) Hj eq_refl I) as Hsys'.
  cbn [nrun] in Hsys'. rewrite Hh in Hsys'. destruct (ri_ghost _ _ _ Hr) as (G1 & G2 & G3 & G4 & G5).
  pose proof (G3 _ _ _ Hin) as Hcand. destruct (G2 _ _ _ Hcand) as (_ & Hv & _).
  destruct (HandleRequestVote_post members s0 h Hg Hmax j cs n (pc_of r j) req resp n' Hu Hv Hh) as [Hx Hu'].
  set (h' := if rvr_VoteGranted resp then _ else h) in *. exists h'. split; [|apply Hx].
  eapply (rinv_move r _ h h' cs cs j (Up n')); [done|done|done|done|done|done|eapply msgs_grow; [apply Hx|apply Hr]|].
  set (c' := mkCluster _ _ _ _ _ _).
  assert (∀ q l u, voted r.(r_cl) q l u → voted c' q l u) as Hmono.
  { intros q l u [?|(rq & rp & ? & ?)]; [by left|right; exists rq, rp; split; [by right|done]]. }
  assert (h'.(h_elect) = h.(h_elect) ∧ h'.(h_tree) = h.(h_tree)) as [He Ht] by (subst h'; by destruct (rvr_VoteGranted resp)).
  assert (∀ a, a ∈ h.(h_votes) → a ∈ h'.(h_votes)) as Hvm by apply (ex_votes _ _ (x_ext _ _ _ _ Hx)).
  unfold ghost_ok. rewrite He, Ht. split_and!; [|done|done| |].
  - intros u l e Hl. destruct (G1 u l e Hl) as (? & Q & ? & HQ). split; [done|]. exists Q. split; [done|].
    intros q Hq. by apply Hmono, HQ.
  - intros q l u [Hv'|(rq & rp & [Heq|Hold]%elem_of_cons & Hgr & Htm)].
    + destruct (G4 q l u) as (e & ? & ?); [by left|]. exists e. auto.
    + injection Heq as -> -> -> ->. exists (cand_pos req). subst u. split; [done|]. subst h'. rewrite Hgr. by left.
    + destruct (G4 q l u) as (e & ? & ?); [by right; exists rq, rp|]. exists e. auto.
  - intros q u e Hq. subst h'. destruct (rvr_VoteGranted resp) eqn:Hgr.
    + apply elem_of_cons in Hq as [Heq|Hq]; [|destruct (G5 q u e Hq) as [l Hl]; exists l; by apply Hmono].
      injection Heq as -> -> ->. exists cand. right. exists req, resp. split_and!; [by left|done|done].
    + destruct (G5 q u e Hq) as [l Hl]. exists l. by apply Hmono.
Qed.

Lemma lead_step i n term Q : r.(r_cl).(cl_slots) !! i = Some (Up n) → (lastIndexLocked n < two64 - 2)%N →
  majority_of members Q → (∀ q, q ∈ Q → voted r.(r_cl) q i term) →
  ∃ h', rinv_at (with_cl (lead i term n r.(r_cl)) r) h' cs ∧ extends h h'.
Proof.
  intros Hi Hroom HQ Hvoted. destruct (up_slot i n Hi) as [Hu Hsys]. pose proof (sys_background i n (DoBecomeLeader term) Hi eq_refl Hroom) as Hsys'.
  cbn [nrun] in Hsys'. destruct (ri_ghost _ _ _ Hr) as (G1 & G2 & G3 & G4 & G5).
  destruct (becomeLeader_post members s0 h Hg Hmax i (slot_member _ _ _ _ Hinv Hi) cs (pc_of r i) term n Hu (proj1 Hsys)
    (inv_node _ _ Hinv _ _ Hi) Hroom (votes_bound i n Hi)) as (h' & Hx & Hv & Hu' & Hel).
  { intros Er Ht. pose proof (u_role _ _ _ _ _ _ _ Hu) as Hro. unfold role_ok in Hro. rewrite Er, Ht in Hro. destruct Hro as (_ & Hc & Hne).
    split_and!; [|by apply (G2 _ _ _ Hc)|].
    - destruct (h.(h_elect) !! term) as [[l e]|] eqn:E; [|done]. exfalso. destruct (G1 _ _ _ E) as (_ & Q' & [HQ1 HQ2] & Hv').
      destruct HQ as [HQ HQs]. assert (i = l) as <-; [|by eapply Hne].
      by eapply (majority_unique members cfg _ term i l Q Q').
    - exists Q. split; [done|]. intros q Hq. destruct (G4 _ _ _ (Hvoted q Hq)) as (e & He & ?). congruence. }
  exists h'. split; [|apply Hx].
  eapply (rinv_move r _ h h' cs cs i (Up (becomeLeader term n).2)); [done|done|done|done|done|done|eapply msgs_grow; [apply Hx|apply Hr]|].
  pose proof (x_ext _ _ _ _ Hx) as Hext. unfold ghost_ok. rewrite Hv. split_and!; [|  |done|done|done].
  - intros u l e He. destruct Hel as [Hel|(Er & Ht & Hel)]; rewrite Hel in He; [by apply G1|].
    apply lookup_insert_Some in He as [[<- [= <- <-]]|[_ He]]; [|by apply G1].
    pose proof (u_role _ _ _ _ _ _ _ Hu) as Hro. unfold role_ok in Hro. rewrite Er, Ht in Hro. destruct Hro as (_ & Hc & _).
    split; [done|]. by exists Q.
  - intros l u e He. destruct (G2 l u e He) as (? & ? & ?). split_and!; [done|by eapply ex_valid|done].
Qed.

(** The votes a candidate counted are a majority. *)
Lemma votes_majority i n e (V : gset string) : r.(r_cl).(cl_slots) !! i = Some (Up n) → r.(r_cl).(cl_elec) !! i = Some e →
  V ⊆ e.(el_waiting) → (∀ p, p ∈ V → p ∈ members ∧ voted r.(r_cl) p i e.(el_term)) → quorum n ≤ size V + e.(el_votes) →
  ∃ Q, majority_of members Q ∧ ∀ q, q ∈ Q → voted r.(r_cl) q i e.(el_term).
Proof.
  intros Hi He HV Hvs Hq. destruct (votes_cover members cfg Hcfg r.(r_cl) i e Hinv He) as (Q & HQ & Hsz & Hdisj & Hvo).
  exists (V ∪ Q). split; [split|].
  - intros p [Hp|Hp]%elem_of_union; [by apply Hvs|by apply HQ].
  - rewrite size_union by set_solver. rewrite Hsz. change (size members / 2 + 1) with (majority members).
    by rewrite <- (quorum_majority members i n); [|by eapply slot_member|by eapply inv_node].
  - intros p [Hp|Hp]%elem_of_union; [by apply Hvs|by apply Hvo].
Qed.

(** ** Steps of one node *)

(** A step of a node that leaves the history alone. *)
Lemma quiet_op_step i n op : r.(r_cl).(cl_slots) !! i = Some (Up n) → is_background op = true → op_ok op n →
  up_ok h cs i (nrun op n) (pc_of r i) → rinv_at (put_node i (nrun op n) r) h cs.
Proof.
  intros Hi Hb Hop Hu. eapply (rinv_node r _ h h); [done|by apply same_history|done|done|done|by apply (sys_background i n)|apply Hr].
Qed.

Lemma add_msg (r1 r2 : raft) : rinv_at r1 h cs → r2.(r_cl) = r1.(r_cl) → r2.(r_pc) = r1.(r_pc) → msgs_ok h r2 → rinv_at r2 h cs.
Proof. intros Hr1 Hc Hp Hm. eapply rinv_net; [exact Hr1|by rewrite Hc|by rewrite Hc|done|done]. Qed.

End step.

Context (Hs0 : Restore None s0 = s0).

(** Messages, one more of each kind. *)
Section msgs.
Context h r (Hm : msgs_ok h r).

Lemma msgs_ae i p req : ae_ok members h i req → msgs_ok h (add_ae (i, p, req) r).
Proof. destruct Hm as (G1 & G2 & G3 & G4 & G5 & G6). intros Hok. split_and!; try done. intros i' p' req' [Heq|?]%elem_of_cons; [by simplify_eq|by eapply G1]. Qed.
Lemma msgs_aer i p req resp : aer_ok members h i p req resp → msgs_ok h (add_aer (i, p, req, resp) r).
Proof. destruct Hm as (G1 & G2 & G3 & G4 & G5 & G6). intros Hok. split_and!; try done. intros i' p' req' resp' [Heq|?]%elem_of_cons; [by simplify_eq|by eapply G2]. Qed.
Lemma msgs_snap sd : send_ok members s0 h sd → msgs_ok h (add_snap sd r).
Proof. destruct Hm as (G1 & G2 & G3 & G4 & G5 & G6). intros Hok. split_and!; try done. intros sd' [->|?]%elem_of_cons; [done|by eapply G3]. Qed.
Lemma msgs_is i p req : is_ok members s0 h i req → msgs_ok h (add_is (i, p, req) r).
Proof. destruct Hm as (G1 & G2 & G3 & G4 & G5 & G6). intros Hok. split_and!; try done. intros i' p' req' [Heq|?]%elem_of_cons; [by simplify_eq|by eapply G4]. Qed.
Lemma msgs_isr i p req resp : isr_ok members s0 h i p req resp → msgs_ok h (add_isr (i, p, req, resp) r).
Proof. destruct Hm as (G1 & G2 & G3 & G4 & G5 & G6). intros Hok. split_and!; try done. intros i' p' req' resp' [Heq|?]%elem_of_cons; [by simplify_eq|by eapply G5]. Qed.
Lemma msgs_fin i p req body : fin_ok members s0 h i req body → msgs_ok h (add_fin (i, p, req, body) r).
Proof. destruct Hm as (G1 & G2 & G3 & G4 & G5 & G6). intros Hok. split_and!; try done. intros i' p' req' body' [Heq|?]%elem_of_cons; [by simplify_eq|by eapply G6]. Qed.

End msgs.

(** ** All steps *)

Section all.
Context r h cs (Hr : rinv_at r h cs) (Hinv : inv members r.(r_cl)).
Let Hg : ginv h := ri_ginv _ _ _ Hr.
Let Hmax : ∀ x, valid h.(h_tree) x → (x.1 < two64 - 1)%N := ri_max _ _ _ Hr.

Definition rpost r' : Prop := ∃ h' cs', rinv_at r' h' cs' ∧ extends h h'.

Lemma rpost_same r' : rinv_at r' h cs → rpost r'.
Proof. intros Hr'. exists h, cs. split; [done|]. by eapply extends_refl. Qed.

Lemma crash_post i n : r.(r_cl).(cl_slots) !! i = Some (Up n) →
  rpost (with_pc (delete i r.(r_pc)) (with_cl (set_elec i None (set_slot i (Down n.(store)) r.(r_cl))) r)).
Proof.
  intros Hi. apply rpost_same. destruct (up_slot r h cs Hr i n Hi) as [[(vt & Hb & _) _ _ _] _].
  eapply (rinv_move r _ h h cs cs i (Down n.(store))); [done|by apply hext_refl|done|done| | |apply Hr|].
  - intros j Hne. cbn. by rewrite lookup_delete_ne.
  - split; [exists vt; apply Hb|]. cbn. by rewrite lookup_delete_eq.
  - eapply (ghost_same ""); [by apply same_history| |apply Hr]. done.
Qed.

Lemma restart_post i st rng0 now0 : r.(r_cl).(cl_slots) !! i = Some (Down st) →
  match NewNode (cfg i) st s0 rng0 now0 with
  | inl n => rpost (with_cl (set_node i n r.(r_cl)) r)
  | inr (_, st') => rpost (with_cl (set_slot i (Down st') r.(r_cl)) r)
  end.
Proof.
  intros Hi. destruct (ri_slot _ _ _ Hr _ _ Hi) as [(vt & Hd) Hpc].
  pose proof (NewNode_post members s0 Hs0 h Hg Hmax i cs vt (cfg i) st rng0 now0 Hd) as Hn.
  assert (pc_of r i = AIdle) as Hidle by (unfold pc_of; by rewrite Hpc).
  destruct (NewNode _ _ _ _ _) as [n|[e st']]; apply rpost_same.
  - eapply (rinv_move r _ h h cs cs i (Up n)); [done|by apply hext_refl|done|done|done| |apply Hr|].
    + change (slot_ok h cs r i (Up n)). unfold slot_ok. by rewrite Hidle.
    + eapply (ghost_same ""); [by apply same_history| |apply Hr]. done.
  - eapply (rinv_move r _ h h cs cs i (Down st')); [done|by apply hext_refl|done|done|done| |apply Hr|].
    + done.
    + eapply (ghost_same ""); [by apply same_history| |apply Hr]. done.
Qed.

Lemma result_post i n e p req resp : r.(r_cl).(cl_slots) !! i = Some (Up n) → r.(r_cl).(cl_elec) !! i = Some e →
  p ∈ e.(el_waiting) → (i, p, req, resp) ∈ r.(r_cl).(cl_vresp) → req.(rv_Term) = e.(el_term) → (lastIndexLocked n < two64 - 2)%N →
  rpost (with_cl match collectVote n e.(el_term) e.(el_votes) (Some resp) with
    | VoteContinue v => set_elec i (Some (mkElection e.(el_term) v (e.(el_waiting) ∖ {[p]}))) r.(r_cl)
    | VoteStepDown t => set_elec i None (set_node i (stepDown t "" n) r.(r_cl))
    | VoteBecomeLeader => lead i e.(el_term) n r.(r_cl)
    end r).
Proof.
  intros Hi He Hp Hresp Ht Hroom. unfold collectVote. destruct (inv_vresp _ _ Hinv _ _ _ _ Hresp) as [_ Hpm].
  assert (∀ v, rpost (with_cl (set_elec i (Some (mkElection e.(el_term) v (e.(el_waiting) ∖ {[p]}))) r.(r_cl)) r)) as Hcont.
  { intros v. apply rpost_same. eapply rinv_net; [exact Hr|done|done|done|apply Hr]. }
  case_decide.
  - apply rpost_same. destruct (up_slot r h cs Hr i n Hi) as [Hu _].
    eapply rinv_net; [eapply (quiet_op_step r h cs Hr i n (DoStepDown _ _)); [done|done|done|by apply up_ok_stepDown]|done|done|done|apply Hr].
  - destruct (rvr_VoteGranted resp) eqn:Hgr; [|apply Hcont]. case_decide as Hq; [|apply Hcont].
    destruct (votes_majority r h cs Hr Hinv i n e {[p]}) as (Q & HQ & Hvo); [done|done|set_solver| |by rewrite size_singleton|].
    { intros q ->%elem_of_singleton. split; [done|]. right. by exists req, resp. }
    destruct (lead_step r h cs Hr Hinv i n e.(el_term) Q Hi Hroom HQ Hvo) as (h' & ? & ?). by exists h', cs.
Qed.

Lemma cluster_post a r' : rperform cfg s0 (RCluster a) r = Some r' → rpost r'.
Proof.
  cbn [rperform]. case_decide as Hroom; [|done]. intros (c' & Hp & [= <-])%bind_Some.
  destruct a as [i|i s rng0 now0|i|k|i|k]; cbn [machine_action perform after_action] in *.
  - apply bind_Some in Hp as (n & Hn%up_at_Some & [= <-]). by apply crash_post.
  - destruct (r.(r_cl).(cl_slots) !! i) as [[|st]|] eqn:Hs; [done| |done].
    pose proof (restart_post i st rng0 now0 Hs) as Hpost.
    destruct (NewNode _ _ _ _ _) as [n|[e st']]; by simplify_eq.
  - apply bind_Some in Hp as (n & Hn%up_at_Some & Hp). do 2 (case_decide; [|done]).
    destruct (startElection n) as [[[t req]|] n'] eqn:Est; simplify_eq.
    + by apply (elect_step r h cs Hr Hinv i n).
    + apply rpost_same. replace n' with (nrun DoStartElection n) by (cbn; by rewrite Est).
      apply (quiet_op_step r h cs Hr i n); [done|done|done|]. cbn. rewrite Est.
      eapply startElection_refused; [|done|done]. by apply (up_slot r h cs Hr).
  - apply bind_Some in Hp as ([[cand j] req] & Hk%list_elem_of_lookup_2 & Hp). apply bind_Some in Hp as (n & Hn%up_at_Some & Hp).
    destruct (HandleRequestVote req n) as [resp n'] eqn:Eh. simplify_eq.
    destruct (vote_step r h cs Hr cand j req n resp n' Hk Hn Eh) as (h' & ? & ?). by exists h', cs.
  - apply bind_Some in Hp as (n & Hn & Hp). cbn [action_room] in Hroom. unfold room in Hroom. rewrite Hn in Hroom.
    apply up_at_Some in Hn. apply bind_Some in Hp as (e & He & Hp). case_decide as Hq; simplify_eq.
    destruct (votes_majority r h cs Hr Hinv i n e ∅) as (Q & HQ & Hvo); [done|done|set_solver|set_solver| |].
    { destruct (inv_elec _ _ Hinv _ _ He) as (_ & _ & _ & V & HV & _). lia. }
    destruct (lead_step r h cs Hr Hinv i n e.(el_term) Q Hn Hroom HQ Hvo) as (h' & ? & ?). by exists h', cs.
  - apply bind_Some in Hp as ([[[i p] req] resp] & Hk & Hp). cbn [action_room] in Hroom. rewrite Hk in Hroom.
    apply bind_Some in Hp as (n & Hn & Hp). unfold room in Hroom. rewrite Hn in Hroom. apply up_at_Some in Hn.
    apply bind_Some in Hp as (e & He & Hp). case_decide as Hd; simplify_eq. destruct Hd as [Hw Ht].
    apply list_elem_of_lookup_2 in Hk. by eapply result_post.
Qed.

(** A node moves and answers. *)
Lemma answer_post i n op h' r' : r.(r_cl).(cl_slots) !! i = Some (Up n) → is_background op = true → op_ok op n → history_grows i h h' →
  up_ok h' cs i (nrun op n) (pc_of r i) → r'.(r_cl) = set_node i (nrun op n) r.(r_cl) → r'.(r_pc) = r.(r_pc) → msgs_ok h' r' → rpost r'.
Proof.
  intros Hi Hb Hop Hgr Hu Hcl Hpc Hm. exists h', cs. split; [|apply Hgr].
  eapply (rinv_node r); [done|done|done|by rewrite Hpc| |unfold pc_of; rewrite Hpc; by apply (sys_background r h cs)|done].
  unfold pc_of. by rewrite Hpc.
Qed.

Lemma quiet_post i n op : r.(r_cl).(cl_slots) !! i = Some (Up n) → is_background op = true → op_ok op n →
  up_ok h cs i (nrun op n) (pc_of r i) → rpost (put_node i (nrun op n) r).
Proof. intros Hi Hb Hop Hu. apply rpost_same. by apply (quiet_op_step r h cs). Qed.

Lemma prepare_rpost i n p act n' : r.(r_cl).(cl_slots) !! i = Some (Up n) → (map_N n.(nextIndex) p < two64)%N →
  replicateToPeer_prepare p n = (act, n') →
  rpost match act with
        | ReplAppend req => add_ae (i, p, req) (put_node i n' r)
        | ReplSnapshot term snapIdx snapTerm data chunk =>
            add_snap (mkSend i p term snapIdx snapTerm (marshalMap data) (effectiveChunk chunk)) (put_node i n' r)
        | _ => put_node i n' r
        end.
Proof.
  intros Hi Hnext Hp. destruct (up_slot r h cs Hr i n Hi) as [Hu Hsys].
  destruct (prepare_post members s0 h Hg i cs (pc_of r i) p n act n' Hu (proj1 Hsys) (inv_node _ _ Hinv _ _ Hi) Hnext Hp) as [Hu' Hact].
  assert (nrun (DoReplPrepare p) n = n') as Hrun by (cbn; by rewrite Hp). pose proof (ri_msgs _ _ _ Hr) as Hm.
  apply rpost_same. assert (rinv_at (put_node i n' r) h cs) as Hr'.
  { rewrite <- Hrun in *. by apply (quiet_op_step r h cs Hr i n). }
  destruct act; try done; (eapply add_msg; [exact Hr'|done|done|]).
  - by apply msgs_snap.
  - by apply msgs_ae.
Qed.

Lemma append_rpost i p req n resp n' : (i, p, req) ∈ r.(r_ae) → r.(r_cl).(cl_slots) !! p = Some (Up n) →
  HandleAppendEntries req n = (resp, n') → rpost (add_aer (i, p, req, resp) (put_node p n' r)).
Proof.
  intros Hin Hp Hh. pose proof (proj1 (ri_msgs _ _ _ Hr) _ _ _ Hin) as Hreq. destruct (up_slot r h cs Hr p n Hp) as [Hu Hsys].
  destruct (HandleAppendEntries_post members s0 h Hg Hmax p i cs (pc_of r p) req Hreq n Hu (proj1 Hsys) (votes_bound r h cs Hr Hinv p n Hp)) as (h' & Hgr & Hu' & Hresp).
  rewrite Hh in Hu', Hresp. cbn [fst snd] in *.
  assert (nrun (DoAppendEntries req) n = n') as Hrun by (cbn; by rewrite Hh). rewrite <- Hrun in *.
  eapply (answer_post p n (DoAppendEntries req) h'); [done|done|by eapply ae_op_ok|done|done|done|done|].
  apply msgs_aer; [|done]. eapply msgs_grow; [apply Hgr|apply Hr].
Qed.

Lemma install_rpost i p req n : (i, p, req) ∈ r.(r_is) → r.(r_cl).(cl_slots) !! p = Some (Up n) →
  rpost match HandleInstallSnapshot_recv req n with
        | (inl resp, n') => add_isr (i, p, req, resp) (put_node p n' r)
        | (inr body, n') => add_fin (i, p, req, body) (put_node p n' r)
        end.
Proof.
  intros Hin Hp. destruct (ri_msgs _ _ _ Hr) as (_ & _ & _ & Hmis & _). pose proof (Hmis _ _ _ Hin) as Hreq.
  destruct (up_slot r h cs Hr p n Hp) as [Hu Hsys].
  pose proof (install_recv_post members s0 h Hg Hmax p i cs (pc_of r p) req Hreq n Hu (proj1 Hsys) (votes_bound r h cs Hr Hinv p n Hp)) as Hpost.
  assert (nrun (DoInstallRecv req) n = (HandleInstallSnapshot_recv req n).2) as Hrun by done.
  destruct (HandleInstallSnapshot_recv req n) as [[resp|body] n'] eqn:Eh; cbn [recv_post fst snd] in *.
  - destruct Hpost as (h' & Hgr & Hu' & Hresp). rewrite <- Hrun in *.
    eapply (answer_post p n (DoInstallRecv req) h'); [done|done|done|done|done|done|done|]. apply msgs_isr; [|done]. eapply msgs_grow; [apply Hgr|apply Hr].
  - destruct Hpost as [Hu' Hfin]. rewrite <- Hrun in *.
    eapply (answer_post p n (DoInstallRecv req) h); [done|done|done|by apply same_history|done|done|done|]. apply msgs_fin; [apply Hr|done].
Qed.

Lemma install_final_rpost i p req body n resp n' : (i, p, req, body) ∈ r.(r_fin) → r.(r_cl).(cl_slots) !! p = Some (Up n) →
  install_allowed (pc_of r p) = true → HandleInstallSnapshot_final req body n = (resp, n') →
  rpost (add_isr (i, p, req, resp) (put_node p n' r)).
Proof.
  intros Hin Hp Hpc Hh. destruct (ri_msgs _ _ _ Hr) as (_ & _ & _ & _ & _ & Hmf). pose proof (Hmf _ _ _ _ Hin) as Hfin.
  destruct (up_slot r h cs Hr p n Hp) as [Hu Hsys]. pose proof (proj1 Hfin) as Hreq.
  destruct (install_final_post members s0 h Hg Hmax p i cs (pc_of r p) req Hreq n body Hu (proj1 Hsys) Hpc (votes_bound r h cs Hr Hinv p n Hp) Hfin) as (h' & Hgr & Hu' & Hresp).
  rewrite Hh in Hu', Hresp. cbn [fst snd] in *. exists h', cs. split; [|apply Hgr].
  eapply (rinv_node r); [done|done|done|done|done| |apply msgs_isr; [eapply msgs_grow; [apply Hgr|apply Hr]|done]].
  replace n' with (nrun (DoInstallFinal req body) n) by (cbn; by rewrite Hh).
  eapply sys_inv_step; [exact Hsys|]. apply ss_install; [done|]. cbn.
  destruct Hreq as (_ & b & en & (_ & Hcom & _) & _). apply (Hmax (is_pos req)). by eapply committed_valid.
Qed.

Lemma done_rpost sd i p req resp n : sd ∈ r.(r_snap) → (i, p, req, resp) ∈ r.(r_isr) → r.(r_cl).(cl_slots) !! i = Some (Up n) →
  req.(is_Term) = sd.(sd_term) → req.(is_LastIncludedIndex) = sd.(sd_index) → req.(is_Done) = true → resp.(isr_Success) = true →
  rpost (put_node i (replicateToPeer_snapshotDone p sd.(sd_term) sd.(sd_index) n) r).
Proof.
  intros Hsd Hin Hi Ht Hidx Hd Hs. destruct (ri_msgs _ _ _ Hr) as (_ & _ & _ & _ & Hmr & _).
  destruct (Hmr _ _ _ _ Hin) as [_ Hack]. specialize (Hack Hs Hd). destruct (up_slot r h cs Hr i n Hi) as [Hu _].
  apply (quiet_post i n (DoReplSnapshot p sd.(sd_term) sd.(sd_index)) Hi eq_refl I). cbn [nrun].
  eapply snapshotDone_post; [done|rewrite <- Ht; exact Hack|]. cbn. by rewrite Hidx.
Qed.

Lemma apply_rpost i n : r.(r_cl).(cl_slots) !! i = Some (Up n) → apply_guard n (pc_of r i) →
  rpost (with_pc (<[i := (apply_micro n (pc_of r i)).2]> r.(r_pc)) (put_node i (apply_micro n (pc_of r i)).1 r)).
Proof.
  intros Hi Hgd. destruct (up_slot r h cs Hr i n Hi) as [Hu Hsys].
  pose proof (apply_post members s0 Hs0 h Hg Hmax i cs n (pc_of r i) Hu Hsys Hgd) as Hu'.
  assert (sys_inv (apply_micro n (pc_of r i))) as Hsys'.
  { eapply sys_inv_step; [exact Hsys|]. destruct (pc_of r i); constructor. }
  apply rpost_same. eapply (rinv_node r _ h h cs i (apply_micro n (pc_of r i)).1); [done|by apply same_history|done| | | |apply Hr].
  - intros j Hne. cbn. by rewrite lookup_insert_ne.
  - unfold pc_of at 2. cbn. by rewrite lookup_insert_eq.
  - unfold pc_of at 2. cbn. rewrite lookup_insert_eq. cbn. by destruct (apply_micro n (pc_of r i)).
Qed.

Lemma rperform_post a r' : rperform cfg s0 a r = Some r' → rpost r'.
Proof.
  destruct a as [a|i p|i|i op|i ctx command|i p|k|k|k offset|k|k|k|k m|i]; [by apply cluster_post|cbn [rperform]; intros Hp..].
  - apply bind_Some in Hp as (e & He & Hp). case_decide; simplify_eq. apply rpost_same.
    eapply rinv_net; [exact Hr|done|done|done|apply Hr].
  - simplify_eq. apply rpost_same. eapply rinv_net; [exact Hr|done|done|done|apply Hr].
  - apply bind_Some in Hp as (n & Hn%up_at_Some & Hp). destruct (is_local op) eqn:Hl; simplify_eq.
    apply (quiet_post i n op Hn); [by destruct op|by destruct op|]. apply local_post; [done|]. by apply (up_slot r h cs Hr).
  - apply bind_Some in Hp as (n & Hn%up_at_Some & Hp). case_decide as Hroom; simplify_eq.
    destruct (up_slot r h cs Hr i n Hn) as [Hu Hsys].
    destruct (Propose_post members s0 h Hg Hmax i (slot_member _ _ _ _ Hinv Hn) cs (pc_of r i) ctx command n Hu (proj1 Hsys)
      (inv_node _ _ Hinv _ _ Hn) Hroom (votes_bound r h cs Hr Hinv i n Hn)) as (h' & Hgr & Hu').
    eapply (answer_post i n (DoPropose ctx command) h'); [done|done|done|done|done|done|done|]. eapply msgs_grow; [apply Hgr|apply Hr].
  - apply bind_Some in Hp as (n & Hn%up_at_Some & Hp). case_decide as Hd; [|done]. destruct Hd as [_ Hnext].
    destruct (replicateToPeer_prepare p n) as [act n'] eqn:Ep. injection Hp as <-. by apply (prepare_rpost i n p).
  - apply bind_Some in Hp as ([[i p] req] & Hk%list_elem_of_lookup_2 & Hp). apply bind_Some in Hp as (n & Hn%up_at_Some & Hp).
    destruct (HandleAppendEntries req n) as [resp n'] eqn:Eh. simplify_eq. by eapply append_rpost.
  - apply bind_Some in Hp as ([[[i p] req] resp] & Hk%list_elem_of_lookup_2 & Hp). apply bind_Some in Hp as (n & Hn%up_at_Some & [= <-]).
    destruct (ri_msgs _ _ _ Hr) as (_ & Hm & _). destruct (up_slot r h cs Hr i n Hn) as [Hu Hsys].
    destruct (response_post members s0 h Hg Hmax i (slot_member _ _ _ _ Hinv Hn) cs (pc_of r i) p req resp n) as (h' & Hgr & Hu');
      [done|apply Hsys|by eapply inv_node|by apply Hm|].
    eapply (answer_post i n (DoReplResponse p req resp) h'); [done|done|done|done|done|done|done|]. eapply msgs_grow; [apply Hgr|apply Hr].
  - apply bind_Some in Hp as (sd & Hk%list_elem_of_lookup_2 & [= <-]). apply rpost_same.
    eapply add_msg; [exact Hr|done|done|]. apply msgs_is; [apply Hr|]. destruct (ri_msgs _ _ _ Hr) as (_ & _ & Hm & _).
    split; [done|]. exists sd.(sd_body), (chunkEnd (len sd.(sd_body)) offset sd.(sd_chunk)). split_and!; [by apply Hm|done|].
    cbn. by intros ?%bool_decide_eq_true.
  - apply bind_Some in Hp as ([[i p] req] & Hk%list_elem_of_lookup_2 & Hp). apply bind_Some in Hp as (n & Hn%up_at_Some & [= <-]).
    by apply install_rpost.
  - apply bind_Some in Hp as ([[[i p] req] body] & Hk%list_elem_of_lookup_2 & Hp). apply bind_Some in Hp as (n & Hn%up_at_Some & Hp).
    destruct (install_allowed _) eqn:Hpc; [|done]. destruct (HandleInstallSnapshot_final req body n) as [resp n'] eqn:Eh. simplify_eq.
    by eapply install_final_rpost.
  - apply bind_Some in Hp as ([[[i p] req] resp] & Hk & Hp). apply bind_Some in Hp as (n & Hn%up_at_Some & [= <-]).
    apply (quiet_post i n (DoSendCheck req.(is_Term) resp) Hn eq_refl I). cbn [nrun]. apply sendCheck_post; [done|]. by apply (up_slot r h cs Hr).
  - apply bind_Some in Hp as (sd & Hk%list_elem_of_lookup_2 & Hp). apply bind_Some in Hp as ([[[i p] req] resp] & Hm%list_elem_of_lookup_2 & Hp).
    apply bind_Some in Hp as (n & Hn%up_at_Some & Hp). case_decide as Hd; [|done]. destruct Hd as (-> & -> & Ht & Hidx & _ & Hdone).
    unfold sendSnapshot_next in Hp. case_decide as Hs; [by repeat case_decide|].
    destruct (bool_decide _) eqn:Eb in Hp; [|done]. injection Hp as <-. rewrite Eb in Hdone.
    eapply done_rpost; [done|exact Hm|done|done|done|done|]. by destruct (isr_Success resp).
  - apply bind_Some in Hp as (n & Hn%up_at_Some & Hp). case_decide as Hgd; [|done].
    pose proof (apply_rpost i n Hn Hgd) as Hpost. destruct (apply_micro n (pc_of r i)) as [n' pc']. by injection Hp as <-.
Qed.

End all.

(** ** Reachable states *)

Lemma rinv_initial r : rinitial members r → rinv_at r h_empty ∅.
Proof.
  intros ((Hdom & Hdown & He & Hq & Hvr & Hst & Hel) & Hdisk & Hpc & Hae & Haer & Hsn & His & Hisr & Hfin).
  assert (∀ x, valid ∅ x → x = root) as Hv by (intros x [->|[? Hx]]; [done|by rewrite lookup_empty in Hx]).
  split; [apply empty_ok| | | |].
  - intros x ->%Hv. done.
  - intros i s Hs. destruct (Hdown i s Hs) as [st ->]. destruct (Hdisk i st Hs) as (Hd & Hso & Hhs). split; [|by rewrite Hpc].
    pose proof (disk_snap_eq _ _ _ Hd) as Hds.
    exists 0%N. split; rewrite ?Hhs, <- ?Hds; [done|done| |by left| |].
    + exists []. split; [constructor|done].
    + exists root. split_and!; [done|by left|]. intros sn l Hsl. rewrite Hd in Hsl. injection Hsl as <- <-. right. done.
    + intros sn l Hsl. rewrite Hd in Hsl. injection Hsl as <- <-. split_and!; [done|done|].
      intros t x (z & Hz & _). by apply not_elem_of_nil in Hz.
  - unfold msgs_ok. rewrite Hae, Haer, Hsn, His, Hisr, Hfin. split_and!; by intros * ?%not_elem_of_nil.
  - unfold ghost_ok, voted. rewrite Hq, Hst, Hvr. split_and!; intros *.
    + by rewrite lookup_empty.
    + by rewrite lookup_empty.
    + by intros ?%not_elem_of_nil.
    + intros [[_ ?%not_elem_of_nil]|(? & ? & ?%not_elem_of_nil & _)]; done.
    + by intros ?%not_elem_of_nil.
Qed.

Lemma rperform_inv a r r' : rperform cfg s0 a r = Some r' → inv members r.(r_cl) → inv members r'.(r_cl).
Proof.
  intros Ha%rperform_cstep. induction Ha as [|c c1 c2 Hst _ IH]; [done|]. intros Hi. apply IH. by eapply inv_cstep.
Qed.

(** Along a run the history extends. *)
Lemma rinv_steps r r' h cs : rinv_at r h cs → inv members r.(r_cl) → rtc (rstep cfg s0) r r' →
  ∃ h' cs', rinv_at r' h' cs' ∧ extends h h'.
Proof.
  intros Hr Hi Hs. revert h cs Hr Hi. induction Hs as [r|r r1 r2 [a Ha] _ IH]; intros h cs Hr Hi.
  - exists h, cs. split; [done|]. eapply extends_refl, Hr.
  - destruct (rperform_post r h cs Hr Hi a r1 Ha) as (h1 & cs1 & Hr1 & Hx1).
    assert (inv members r1.(r_cl)) as Hi1 by (by eapply rperform_inv).
    destruct (IH h1 cs1 Hr1 Hi1) as (h2 & cs2 & Hr2 & Hx2). exists h2, cs2. split; [done|by eapply extends_trans].
Qed.

Lemma rinv_reachable r : rreachable cfg s0 members r → inv members r.(r_cl) ∧ ∃ h cs, rinv_at r h cs.
Proof.
  intros Hr. pose proof (inv_reachable members cfg Hcfg _ (rreachable_cluster cfg s0 members r Hr)) as Hi. split; [done|].
  destruct Hr as (r0 & H0' & Hs). pose proof (inv_initial members r0.(r_cl) (proj1 H0')) as Hi0.
  destruct (rinv_steps r0 r h_empty ∅ (rinv_initial r0 H0') Hi0 Hs) as (h & cs & Hh & _). by exists h, cs.
Qed.

End proofs.
