(* ===== verification/RaftSafety.v ===== *)
(** * The replicas agree

    What the invariant of [RaftProofs.v] says of the nodes of a reachable
    cluster: log matching, agreement on committed entries over the whole
    run, completeness of later leaders, durability of what was committed and
    equality of the state machines. *)

From S2P Require Import Prelude Types StateMachine StoreIntf RaftLog NodeState Node Replication NodeStep NodeInv VoteFrame Cluster ApplySys Disk Consensus LogTree Raft RaftInv RaftNode RaftSteps RaftElect RaftLead RaftSnap RaftApply RaftProofs Wal WalProofs DiskWal TestEnv.

Section safety.
Context {SM St : Type} `{StateMachine SM} `{Store St} `{RandSource} `{MapCodec}
  `{!HardStateLaws St} `{!DiskLaws St} `{!StateMachineLaws SM} `{!MapCodecLaws}.
#[local] Abbreviation Node := (Node SM St).
#[local] Abbreviation raft := (@raft SM St).
Context (members : gset string) (cfg : string → Config) (s0 : SM).
Implicit Types (h : history) (n m : Node) (i j q : string) (st : St) (r : raft) (cs : gmap (string * N) (N * N)).

#[local] Abbreviation ginv := (ginv members).
#[local] Abbreviation committed_by := (committed_by members).
#[local] Abbreviation rinv_at := (rinv_at members s0).

(** Entries at one position of the tree are equal. *)
Lemma entry_same (T : gmap (N * N) (N * Command)) a b p p' : entry_pos a = entry_pos b → T !! entry_pos a = Some (p, a.(EntryCommand)) →
  T !! entry_pos b = Some (p', b.(EntryCommand)) → a = b.
Proof. intros He Ha Hb. rewrite He, Hb in Ha. destruct a, b. unfold entry_pos in He. cbn in *. congruence. Qed.

(** ** What a node knows *)

Section node.
Context r h cs (Hr : rinv_at r h cs) i n (Hi : r.(r_cl).(cl_slots) !! i = Some (Up n)).

Lemma up_mem : node_wf n ∧ ∃ vt, (vt ≤ n.(currentTerm))%N ∧ mem_ok members s0 h i vt n.
Proof.
  destruct (up_slot _ _ _ _ _ Hr i n Hi) as [[(vt & [Hle Hm _ _] & _) _ _ _] Hsys]. split; [apply Hsys|]. by exists vt.
Qed.

Lemma node_entry k a : entryAtLocked n k = Some a →
  a.(Index) = k ∧ on h.(h_tree) (mtip n) (entry_pos a) ∧ ∃ p, h.(h_tree) !! entry_pos a = Some (p, a.(EntryCommand)).
Proof. destruct up_mem as (_ & vt & _ & [Hch _ _ _ _]). by apply entryAt_on. Qed.

(** An entry up to the commit index is committed. *)
Lemma node_committed k a : entryAtLocked n k = Some a → (k ≤ n.(commitIndex))%N → committed_by h n.(currentTerm) (entry_pos a).
Proof.
  intros Ha Hk. destruct (node_entry k a Ha) as (Hidx & Hon & _). destruct up_mem as (_ & vt & Hle & [_ _ _ _ (cp & Hcp & Hcon & Hcom)]).
  eapply committed_by_mono; [|exact Hle]. pose proof (ri_ginv _ _ _ _ _ Hr) as Hg. eapply committed_on; [done|exact Hcom|].
  eapply on_linear; [apply Hg|exact Hcon|done|]. cbn. lia.
Qed.

(** The log above the snapshot holds every position of its path. *)
Lemma node_position x : on h.(h_tree) (mtip n) x → (n.(snapshot).(LastIncludedIndex) < x.1)%N →
  ∃ a, entryAtLocked n x.1 = Some a ∧ entry_pos a = x.
Proof.
  intros Hon Hlt. destruct up_mem as ([_ Hmx _ _ _] & vt & _ & [Hch Hsn _ _ _]). unfold lastIndexLocked in Hmx.
  eapply on_entryAt; [apply (ri_ginv _ _ _ _ _ Hr)|by eapply snap_ok_valid|exact Hch|lia|done|done].
Qed.

End node.

(** Two nodes with the same position of the tree at [k]. *)
Lemma same_prefix r h cs i j n m x k a b : rinv_at r h cs → r.(r_cl).(cl_slots) !! i = Some (Up n) → r.(r_cl).(cl_slots) !! j = Some (Up m) →
  on h.(h_tree) (mtip n) x → on h.(h_tree) (mtip m) x → (k ≤ x.1)%N → entryAtLocked n k = Some a → entryAtLocked m k = Some b → a = b.
Proof.
  intros Hr Hi Hj Hn Hm Hk Ha Hb. pose proof (gi_tree _ _ (ri_ginv _ _ _ _ _ Hr)) as Hok.
  destruct (node_entry r h cs Hr i n Hi k a Ha) as (Hia & Hona & p & Hpa).
  destruct (node_entry r h cs Hr j m Hj k b Hb) as (Hib & Honb & p' & Hpb).
  apply (entry_same h.(h_tree) a b p p'); [|done|done]. apply (on_same_index _ Hok x); [..|cbn; congruence].
  - eapply on_linear; [done|exact Hn|done|cbn; lia].
  - eapply on_linear; [done|exact Hm|done|cbn; lia].
Qed.

Context (Hcfg : config_ok members cfg) (Hs0 : Restore None s0 = s0).

(** A state and a later one, with their histories. *)
Lemma rinv_pair r r' : rreachable cfg s0 members r → rtc (rstep cfg s0) r r' →
  ∃ h cs h' cs', rinv_at r h cs ∧ rinv_at r' h' cs' ∧ extends h h'.
Proof.
  intros Hr Hs. destruct (rinv_reachable members cfg s0 Hcfg Hs0 r Hr) as (Hi & h & cs & Hh).
  destruct (rinv_steps members cfg s0 Hcfg Hs0 r r' h cs Hh Hi Hs) as (h' & cs' & Hh' & Hx). by exists h, cs, h', cs'.
Qed.

(** Committed entries at one index are equal. *)
Lemma committed_entries r h cs r' h' cs' i j n m k a b : rinv_at r h cs → rinv_at r' h' cs' → extends h h' →
  r.(r_cl).(cl_slots) !! i = Some (Up n) → r'.(r_cl).(cl_slots) !! j = Some (Up m) →
  (k ≤ n.(commitIndex))%N → (k ≤ m.(commitIndex))%N → entryAtLocked n k = Some a → entryAtLocked m k = Some b → a = b.
Proof.
  intros Hr Hr' Hx Hi Hj Hkn Hkm Ha Hb. pose proof (ri_ginv _ _ _ _ _ Hr') as Hg'.
  destruct (node_entry r h cs Hr i n Hi k a Ha) as (Hia & _ & p & Hpa).
  destruct (node_entry r' h' cs' Hr' j m Hj k b Hb) as (Hib & _ & p' & Hpb).
  pose proof (ex_committed _ _ _ Hx _ _ (node_committed r h cs Hr i n Hi k a Ha Hkn)) as Hca.
  pose proof (node_committed r' h' cs' Hr' j m Hj k b Hb Hkm) as Hcb.
  apply (entry_same h'.(h_tree) a b p p'); [|by eapply lookup_weaken, ex_tree|done].
  eapply committed_same; [done|exact Hca|exact Hcb|cbn; congruence].
Qed.

(** A later leader has the position. *)
Lemma leader_has r h cs i n x : rinv_at r h cs → r.(r_cl).(cl_slots) !! i = Some (Up n) → n.(role) = Leader →
  committed_by h n.(currentTerm) x → on h.(h_tree) (mtip n) x.
Proof.
  intros Hr Hi Hrole Hc. destruct (up_slot _ _ _ _ _ Hr i n Hi) as [[_ Hro _ _] _]. unfold role_ok in Hro. rewrite Hrole in Hro.
  destruct Hro as [_ [(e & He & Hone & _) _ Hall _ _ _]]. pose proof (ri_ginv _ _ _ _ _ Hr) as Hg.
  destruct (committed_by_led _ _ Hg _ _ Hc ltac:(by eexists)) as (Hv & l & e' & He' & Hor). rewrite He in He'. injection He' as <- <-.
  destruct Hor as [Hon|Ht]; [by etrans|by apply Hall].
Qed.




(** Between two turns the machine is the replayed log. *)
Definition pc_settled (pc : apply_pc) : Prop := match pc with AApplied _ _ => False | _ => True end.

Lemma settled_machine r h cs i n : rinv_at r h cs → r.(r_cl).(cl_slots) !! i = Some (Up n) → pc_settled (pc_of r i) →
  ∃ x tr, x.1 = n.(lastApplied) ∧ committed_by h n.(currentTerm) x ∧ trace h.(h_tree) x tr ∧ n.(sm) = apply_all tr s0.
Proof.
  intros Hr Hi Hpc. destruct (up_slot _ _ _ _ _ Hr i n Hi) as [_ Hsys]. destruct (up_mem r h cs Hr i n Hi) as (Hwf & vt & Hle & Hm).
  pose proof Hwf as []. pose proof (ri_ginv _ _ _ _ _ Hr) as Hg.
  destruct (replayed_trace members s0 Hs0 h Hg i vt n n.(lastApplied) Hm Hwf ltac:(lia)) as (x & tr & Hx & _ & Hon & Htr & Hrep).
  exists x, tr. split_and!; [done| |done|].
  - eapply committed_by_mono; [|exact Hle]. destruct (m_com _ _ _ _ _ _ Hm) as (cp & Hcp & Hcon & Hcom).
    eapply committed_on; [done|exact Hcom|]. eapply on_linear; [apply Hg|exact Hcon|done|lia].
  - rewrite <- Hrep. destruct Hsys as [_ Hsys]. destruct (pc_of r i); [done| |done| | |]; by destruct Hsys.
Qed.

End safety.

(** ** Properties

    The runs are those of [Raft.v]: any schedule of the nodes and the
    network, any fault of a store, with two provisos.  Indices stay below
    2^64, and no snapshot is saved over a newer one ([apply_guard]);
    [StaleSnapshot.v] shows what the code does without the second. *)

(** C7. Log matching.  In every reachable state of [Raft.v], whatever was
    lost, reordered, repeated or crashed and whichever store operation
    failed: if the logs of two running nodes have entries of the same term at
    an index, they agree on every entry up to that index.  (No snapshot file
    is replaced by an older one, [apply_guard].) *)
Theorem log_matching {SM St : Type} `{StateMachine SM} `{Store St} `{RandSource} `{MapCodec}
    `{!HardStateLaws St} `{!DiskLaws St} `{!StateMachineLaws SM} `{!MapCodecLaws}
    (members : gset string) (cfg : string → Config) (s0 : SM) (r : @raft SM St) i j (n m : Node SM St) k a b :
  config_ok members cfg → Restore None s0 = s0 → rreachable cfg s0 members r →
  r.(r_cl).(cl_slots) !! i = Some (Up n) → r.(r_cl).(cl_slots) !! j = Some (Up m) →
  entryAtLocked n k = Some a → entryAtLocked m k = Some b → a.(Term) = b.(Term) →
  ∀ k' a' b', (k' ≤ k)%N → entryAtLocked n k' = Some a' → entryAtLocked m k' = Some b' → a' = b'.
Proof.
  intros Hcfg Hs0 Hr Hi Hj Ha Hb Ht k' a' b' Hk Ha' Hb'.
  destruct (rinv_reachable members cfg s0 Hcfg Hs0 r Hr) as (_ & h & cs & Hinv).
  destruct (node_entry _ _ _ _ _ Hinv i n Hi k a Ha) as (Hia & Hona & _).
  destruct (node_entry _ _ _ _ _ Hinv j m Hj k b Hb) as (Hib & Honb & _).
  assert (entry_pos b = entry_pos a) as Hpos by (unfold entry_pos; congruence). rewrite Hpos in Honb.
  eapply (same_prefix members s0 r h cs i j n m (entry_pos a) k'); [done..|cbn; lia|done|done].
Qed.

(** C2. State machine safety.  No two nodes ever disagree on a committed
    entry: when a node holds an entry at or below its commit index, and a
    node, the same or another, then or at any later time of the run, after
    any crashes, restarts, elections and storage failures, holds an entry at
    that index at or below its own commit index, the two entries are equal.
    (In runs of [Raft.v], where no snapshot file is replaced by an older
    one.) *)
Theorem state_machine_safety {SM St : Type} `{StateMachine SM} `{Store St} `{RandSource} `{MapCodec}
    `{!HardStateLaws St} `{!DiskLaws St} `{!StateMachineLaws SM} `{!MapCodecLaws}
    (members : gset string) (cfg : string → Config) (s0 : SM) (r r' : @raft SM St) i j (n m : Node SM St) k a b :
  config_ok members cfg → Restore None s0 = s0 → rreachable cfg s0 members r → rtc (rstep cfg s0) r r' →
  r.(r_cl).(cl_slots) !! i = Some (Up n) → r'.(r_cl).(cl_slots) !! j = Some (Up m) →
  (k ≤ n.(commitIndex))%N → (k ≤ m.(commitIndex))%N →
  entryAtLocked n k = Some a → entryAtLocked m k = Some b → a = b.
Proof.
  intros Hcfg Hs0 Hr Hs Hi Hj Hkn Hkm Ha Hb. destruct (rinv_pair members cfg s0 Hcfg Hs0 r r' Hr Hs) as (h & cs & h' & cs' & Hinv & Hinv' & Hx).
  by eapply (committed_entries members s0 r h cs r' h' cs' i j n m k a b).
Qed.

(** C3. Leader completeness.  An entry that some node has committed is in
    the log of every leader of the same or a later term from then on, unless
    that leader has already compacted it into its snapshot, in every run of
    [Raft.v], that is, as long as no snapshot file is replaced by an older
    one ([apply_guard], a test that the code does not make). *)
Theorem leader_completeness {SM St : Type} `{StateMachine SM} `{Store St} `{RandSource} `{MapCodec}
    `{!HardStateLaws St} `{!DiskLaws St} `{!StateMachineLaws SM} `{!MapCodecLaws}
    (members : gset string) (cfg : string → Config) (s0 : SM) (r r' : @raft SM St) i j (n m : Node SM St) k a :
  config_ok members cfg → Restore None s0 = s0 → rreachable cfg s0 members r → rtc (rstep cfg s0) r r' →
  r.(r_cl).(cl_slots) !! i = Some (Up n) → entryAtLocked n k = Some a → (k ≤ n.(commitIndex))%N →
  r'.(r_cl).(cl_slots) !! j = Some (Up m) → m.(role) = Leader → (n.(currentTerm) ≤ m.(currentTerm))%N →
  (m.(snapshot).(LastIncludedIndex) < k)%N → entryAtLocked m k = Some a.
Proof.
  intros Hcfg Hs0 Hr Hs Hi Ha Hk Hj Hrole Ht Hlt. destruct (rinv_pair members cfg s0 Hcfg Hs0 r r' Hr Hs) as (h & cs & h' & cs' & Hinv & Hinv' & Hx).
  destruct (node_entry _ _ _ _ _ Hinv i n Hi k a Ha) as (Hia & _ & p & Hpa).
  pose proof (ex_committed _ _ _ Hx _ _ (node_committed _ _ _ _ _ Hinv i n Hi k a Ha Hk)) as Hc.
  pose proof (leader_has members s0 r' h' cs' j m (entry_pos a) Hinv' Hj Hrole (committed_by_mono _ _ _ _ _ Hc Ht)) as Hon.
  destruct (node_position _ _ _ _ _ Hinv' j m Hj (entry_pos a) Hon) as (b & Hb & Hpos); [cbn; lia|]. cbn in Hb. rewrite Hia in Hb.
  destruct (node_entry _ _ _ _ _ Hinv' j m Hj k b Hb) as (_ & _ & p' & Hpb).
  rewrite Hb. f_equal. symmetry. apply (entry_same h'.(h_tree) a b p p'); [done|by eapply lookup_weaken, ex_tree|done].
Qed.


(** C5. Replicas agree.  Two nodes, at one time or at different times of a
    run, that have applied the same number of entries, and whose apply
    goroutine is not between applying an entry and recording it, have equal
    state machines, snapshots installed from other nodes included, in every
    run of [Raft.v] (where no snapshot file is replaced by an older one). *)
Theorem replicas_agree {SM St : Type} `{StateMachine SM} `{Store St} `{RandSource} `{MapCodec}
    `{!HardStateLaws St} `{!DiskLaws St} `{!StateMachineLaws SM} `{!MapCodecLaws}
    (members : gset string) (cfg : string → Config) (s0 : SM) (r r' : @raft SM St) i j (n m : Node SM St) :
  config_ok members cfg → Restore None s0 = s0 → rreachable cfg s0 members r → rtc (rstep cfg s0) r r' →
  r.(r_cl).(cl_slots) !! i = Some (Up n) → r'.(r_cl).(cl_slots) !! j = Some (Up m) →
  pc_settled (pc_of r i) → pc_settled (pc_of r' j) → n.(lastApplied) = m.(lastApplied) → n.(sm) = m.(sm).
Proof.
  intros Hcfg Hs0 Hr Hs Hi Hj Hpc Hpc' Ha. destruct (rinv_pair members cfg s0 Hcfg Hs0 r r' Hr Hs) as (h & cs & h' & cs' & Hinv & Hinv' & Hx).
  destruct (settled_machine members s0 Hs0 r h cs i n Hinv Hi Hpc) as (x & tr & Hxi & Hxc & Htr & ->).
  destruct (settled_machine members s0 Hs0 r' h' cs' j m Hinv' Hj Hpc') as (y & tr' & Hyi & Hyc & Htr' & ->).
  pose proof (ri_ginv _ _ _ _ _ Hinv') as Hg'.
  assert (x = y) as -> by (eapply committed_same; [done|by eapply ex_committed|exact Hyc|congruence]).
  f_equal. eapply trace_fun; [apply Hg'|eapply trace_grow; [apply Hx|done]|done].
Qed.

(** ** A run of three nodes on file-backed stores *)

Definition raft3 : @raft KV.KVStateMachine FileStore :=
  mkRaft (mkCluster ((λ _, Down emptyFiles) <$> peers3) ∅ [] [] [] []) ∅ [] [] [] [] [] [].

Definition putX : Command := mkCommand OpPut "x" "1" "".

(** ["n1"] leads term 1, commits its no-op and a put with ["n2"], and both
    apply them. *)
Definition firstTerm : list (@raction KV.KVStateMachine) :=
  [RCluster (ARestart "n1" KV.NewKVStateMachine 0 0); RCluster (ARestart "n2" KV.NewKVStateMachine 0 0);
   RCluster (ARestart "n3" KV.NewKVStateMachine 0 0); RCluster (AElect "n1"); RCluster (AVote 0); RCluster (AResult 0);
   RPropose "n1" None putX; RPrepare "n1" "n2"; RAppend 0; RAppendReply 0; RPrepare "n1" "n2"; RAppend 0] ++
  replicate 6 (RApply "n1") ++ replicate 6 (RApply "n2").

(** ["n1"] crashes, ["n2"] leads term 2 and brings ["n3"] up to date. *)
Definition secondTerm : list (@raction KV.KVStateMachine) :=
  [RCluster (ACrash "n1"); RCluster (AElect "n2"); RCluster (AVote 0); RCluster (AResult 0);
   RPrepare "n2" "n3"; RAppend 0; RAppendReply 0; RPrepare "n2" "n3"; RAppend 0; RAppendReply 0; RPrepare "n2" "n3"; RAppend 0] ++ replicate 6 (RApply "n3").

Lemma rinitial_raft3 : rinitial (dom peers3) raft3.
Proof.
  assert (∀ i s, cl_slots (r_cl raft3) !! i = Some s → s = Down emptyFiles) as Hs.
  { intros i s Hs. cbn [raft3 r_cl cl_slots] in Hs. rewrite lookup_fmap in Hs. destruct (peers3 !! i); by simplify_eq/=. }
  split; [|split; [|by split_and!]].
  - split; [vm_compute; reflexivity|]. split; [|done]. intros i s ->%Hs. by eexists.
  - intros i st Hi%Hs. injection Hi as ->. split_and!; [vm_compute; reflexivity| |vm_compute; reflexivity].
    exists zeroSnapshot, None, []. split_and!; [done|split; [by intros ?%not_elem_of_nil|by left]|done|done].
Qed.

Lemma restore_nil : Restore None KV.NewKVStateMachine = KV.NewKVStateMachine.
Proof. vm_compute. reflexivity. Qed.

(** What the theorems look at. *)
Definition view (r : @raft KV.KVStateMachine FileStore) (i : string) :=
  (λ n, (n.(role), n.(currentTerm), n.(commitIndex), n.(lastApplied), n.(snapshot).(LastIncludedIndex),
         entryAtLocked n 1, entryAtLocked n 2, pc_of r i, n.(sm))) <$> up_at r.(r_cl) i.

Definition noop1 : LogEntry := mkLogEntry 1 1 (mkCommand OpNoop "" "" "").
Definition put2 : LogEntry := mkLogEntry 2 1 putX.
Definition machine1 : KV.KVStateMachine := KV.mkKV {[ "x" := "1" ]}.

Lemma run3 : ∃ r r', rreachable cfg3 KV.NewKVStateMachine (dom peers3) r ∧ rtc (rstep cfg3 KV.NewKVStateMachine) r r' ∧
  view r "n1" = Some (Leader, 1, 2, 2, 0, Some noop1, Some put2, AIdle, machine1)%N ∧
  view r "n2" = Some (Follower, 1, 2, 2, 0, Some noop1, Some put2, AIdle, machine1)%N ∧
  view r' "n2" = Some (Leader, 2, 3, 2, 0, Some noop1, Some put2, AIdle, machine1)%N ∧
  view r' "n3" = Some (Follower, 2, 3, 2, 0, Some noop1, Some put2, AIdle, machine1)%N.
Proof.
  assert ((λ r, (view r "n1", view r "n2")) <$> rrun cfg3 KV.NewKVStateMachine firstTerm raft3 =
    Some (Some (Leader, 1, 2, 2, 0, Some noop1, Some put2, AIdle, machine1),
          Some (Follower, 1, 2, 2, 0, Some noop1, Some put2, AIdle, machine1))%N) as H1 by (vm_compute; reflexivity).
  assert ((λ r, (view r "n2", view r "n3")) <$> (rrun cfg3 KV.NewKVStateMachine firstTerm raft3 ≫= rrun cfg3 KV.NewKVStateMachine secondTerm) =
    Some (Some (Leader, 2, 3, 2, 0, Some noop1, Some put2, AIdle, machine1),
          Some (Follower, 2, 3, 2, 0, Some noop1, Some put2, AIdle, machine1))%N) as H2 by (vm_compute; reflexivity).
  apply fmap_Some in H1 as (r & Er & H1). apply fmap_Some in H2 as (r' & Hb & H2). apply bind_Some in Hb as (r2 & Er2 & Er').
  rewrite Er in Er2. injection Er2 as <-.
  pose proof (f_equal fst H1) as H1a. pose proof (f_equal snd H1) as H1b. pose proof (f_equal fst H2) as H2a. pose proof (f_equal snd H2) as H2b.
  cbn [fst snd] in H1a, H1b, H2a, H2b. exists r, r'.
  split; [|split; [by eapply rrun_steps|by split_and!; symmetry]].
  exists raft3. split; [apply rinitial_raft3|]. by eapply rrun_steps.
Qed.

(** A node behind a view. *)
Lemma view_node r i ro t c a s e1 e2 pc x : view r i = Some (ro, t, c, a, s, e1, e2, pc, x) →
  ∃ n, r.(r_cl).(cl_slots) !! i = Some (Up n) ∧ n.(role) = ro ∧ n.(currentTerm) = t ∧ n.(commitIndex) = c ∧ n.(lastApplied) = a ∧
    n.(snapshot).(LastIncludedIndex) = s ∧ entryAtLocked n 1 = e1 ∧ entryAtLocked n 2 = e2 ∧ pc_of r i = pc ∧ n.(sm) = x.
Proof.
  unfold view. intros (n & Hn%up_at_Some & Hv)%fmap_Some. injection Hv as -> -> -> -> -> -> -> -> ->. by exists n.
Qed.

Lemma log_matching_witness : ∃ (r : @raft KV.KVStateMachine FileStore) n m,
  r.(r_cl).(cl_slots) !! "n1" = Some (Up n) ∧ r.(r_cl).(cl_slots) !! "n2" = Some (Up m) ∧
  entryAtLocked n 2 = Some put2 ∧ entryAtLocked n 1 = Some noop1 ∧ ∀ b, entryAtLocked m 1 = Some b → noop1 = b.
Proof.
  destruct run3 as (r & r' & Hr & _ & H1 & H2 & _). apply view_node in H1 as (n & Hn & _ & _ & _ & _ & _ & Hn1 & Hn2 & _).
  apply view_node in H2 as (m & Hm & _ & _ & _ & _ & _ & Hm1 & Hm2 & _). exists r, n, m. split_and!; try done.
  intros b. eapply (log_matching (dom peers3) cfg3 KV.NewKVStateMachine r "n1" "n2" n m 2 put2 put2 config_ok_cfg3 restore_nil Hr Hn Hm Hn2 Hm2 eq_refl 1); done.
Defined.

Lemma state_machine_safety_witness : ∃ (r r' : @raft KV.KVStateMachine FileStore) n m,
  r.(r_cl).(cl_slots) !! "n1" = Some (Up n) ∧ r'.(r_cl).(cl_slots) !! "n3" = Some (Up m) ∧
  entryAtLocked n 2 = Some put2 ∧ ∀ b, entryAtLocked m 2 = Some b → put2 = b.
Proof.
  destruct run3 as (r & r' & Hr & Hs & H1 & _ & _ & H3). apply view_node in H1 as (n & Hn & _ & _ & Hnc & _ & _ & _ & Hn2 & _).
  apply view_node in H3 as (m & Hm & _ & _ & Hmc & _ & _ & _ & Hm2 & _). exists r, r', n, m. split_and!; try done.
  intros b. eapply (state_machine_safety (dom peers3) cfg3 KV.NewKVStateMachine r r' "n1" "n3" n m 2 put2 b config_ok_cfg3 restore_nil Hr Hs Hn Hm);
    [by rewrite Hnc|by rewrite Hmc|done].
Defined.

Lemma leader_completeness_witness : ∃ (r r' : @raft KV.KVStateMachine FileStore) n m,
  r.(r_cl).(cl_slots) !! "n1" = Some (Up n) ∧ r'.(r_cl).(cl_slots) !! "n2" = Some (Up m) ∧ m.(role) = Leader ∧
  m.(currentTerm) = 2%N ∧ entryAtLocked n 2 = Some put2 ∧ entryAtLocked m 2 = Some put2.
Proof.
  destruct run3 as (r & r' & Hr & Hs & H1 & _ & H2 & _). apply view_node in H1 as (n & Hn & _ & Hnt & Hnc & _ & _ & _ & Hn2 & _).
  apply view_node in H2 as (m & Hm & Hmr & Hmt & _ & _ & Hms & _). exists r, r', n, m. split_and!; try done.
  apply (leader_completeness (dom peers3) cfg3 KV.NewKVStateMachine r r' "n1" "n2" n m 2 put2 config_ok_cfg3 restore_nil Hr Hs Hn Hn2);
    [by rewrite Hnc|done|done|by rewrite Hnt, Hmt|by rewrite Hms].
Defined.


Lemma replicas_agree_witness : ∃ (r r' : @raft KV.KVStateMachine FileStore) n m,
  r.(r_cl).(cl_slots) !! "n1" = Some (Up n) ∧ r'.(r_cl).(cl_slots) !! "n3" = Some (Up m) ∧ n.(lastApplied) = 2%N ∧ n.(sm) = m.(sm).
Proof.
  destruct run3 as (r & r' & Hr & Hs & H1 & _ & _ & H3). apply view_node in H1 as (n & Hn & _ & _ & _ & Hna & _ & _ & _ & Hnp & _).
  apply view_node in H3 as (m & Hm & _ & _ & _ & Hma & _ & _ & _ & Hmp & _). exists r, r', n, m. split_and!; try done.
  apply (replicas_agree (dom peers3) cfg3 KV.NewKVStateMachine r r' "n1" "n3" n m config_ok_cfg3 restore_nil Hr Hs Hn Hm);
    [by rewrite Hnp|by rewrite Hmp|congruence].
Defined.
