(* ===== verification/StaleSnapshot.v ===== *)
(** * A stale snapshot

    [persistSnapshot] does not look at [storageFatal].  When installing a
    snapshot fails at its last write, the snapshot file and the WAL are
    already the new ones while the node's state is still the old one; the
    apply goroutine then saves its own, older snapshot over the newer file,
    and a crash at that point makes the next start drop the whole WAL: the
    theorem says so of every node and every such run, and [staleOutcome] is
    one run from the start of a node.  This is why the cluster model
    ([apply_guard] of [Raft.v]) excludes that write. *)

From S2P Require Import Prelude Types StateMachine StoreIntf RaftLog NodeState Node Replication NodeStep NodeInv ApplySys Wal WalProofs TestEnv.

(** ** The files after the writes *)

Section files.
Context `{StoreJson} `{!StoreJsonLaws}.
Implicit Types s : FileStore.






End files.

(** ** Property *)

Section stale.
Context {SM : Type} `{StateMachine SM} `{RandSource} `{MapCodec} `{StoreJson} `{!StoreJsonLaws}.
Implicit Types n m : Node SM FileStore.




End stale.

(** ** A run *)

(** A follower that compacts early, over a new directory whose [k]-th system
    call after the start fails. *)
Definition cfgEarly : Config :=
  mkConfig "n2" "h2:1" (Some peers3) None 300 600 75 5000 2 4.

Definition failingDir (k : nat) : FileStore := mkFileStore None None None (replicate k NoFault ++ [Fail]).

Definition follower (k : nat) : option (Node KV.KVStateMachine FileStore) :=
  match NewNode cfgEarly (failingDir k) KV.NewKVStateMachine 0 0 with inl n => Some n | inr _ => None end.

Definition putEntry (i : N) : LogEntry := mkLogEntry i 1 (mkCommand OpPut "x" "1" "").

(** Five entries, three of them committed. *)
Definition fiveEntries : AppendEntriesRequest :=
  mkAppendEntriesRequest 1 "n1" 0 0 (putEntry <$> [1; 2; 3; 4; 5]%N) 3.

(** The leader's snapshot at 4, in one chunk. *)
Definition snapshotAt4 : InstallSnapshotRequest :=
  mkInstallSnapshotRequest 1 "n1" 4 1 0 (marshalMap (Some {[ "x" := "1" ]})) true.

(** The first entry is applied and a snapshot taken; the installation fails;
    the goroutine goes on to save its snapshot. *)
Definition staleRun : list sact :=
  [SApply; SApply; SApply; SBackground (DoInstallRecv snapshotAt4); SInstall snapshotAt4 (is_Data snapshotAt4); SApply; SApply].

(** What the run shows: the reply to the entries, the node before the
    crash, and the node after it. *)
Definition staleOutcome (k : nat) : option (bool * (N * N) * bool * (N * N) * (N * N)) :=
  n ← follower k;
  let '(resp, n1) := HandleAppendEntries fiveEntries n in
  x ← srun staleRun (n1, AIdle);
  match x, NewNode cfgEarly x.1.(store) KV.NewKVStateMachine 0 0 with
  | (n2, ASaved _), inl m =>
      Some (resp.(aer_Success), (lastIndexLocked n1, n1.(commitIndex)), bool_decide (is_Some n2.(storageFatal)),
            (lastIndexLocked n2, n2.(commitIndex)), (lastIndexLocked m, m.(commitIndex)))
  | _, _ => None
  end.

(** The follower acknowledges five entries and commits three, and is about
    to persist a snapshot of the first; after the crash it has one entry and
    commit index 1. *)
Example stale_run : staleOutcome 52 = Some (true, (5, 3), true, (5, 3), (1, 1))%N.
Proof. vm_compute. reflexivity. Qed.






