(* ===== verification/RaftReads.v ===== *)
(** * Reads in the cluster

    The cluster of [Raft.v] together with calls of [LinearizableGet] in
    progress.  A call is at one of its points between two critical sections;
    its barrier round is answered by the replies that the followers make
    after the round began, in any order and mixed with all other traffic.

    Two numbers are recorded that the program does not have: [q_seen] is the
    greatest commit index that any node ever had, and [rd_floor] is its value
    when the call was made. *)

From S2P Require Import Prelude Types StateMachine StoreIntf RaftLog NodeState Node Replication NodeStep NodeInv VoteFrame Cluster ApplySys Disk Raft.

(** Where a call of [LinearizableGet] is: at the top of its loop; in
    [ensureQuorum], with the term to confirm, the number of replies in the
    network when the round began, the peers that answered and those whose
    answer was counted; with the term confirmed; waiting for an index; done
    waiting; returned, with the number of entries behind the value. *)
Inductive readPhase :=
  | RStart
  | RBarrier (term : N) (since : nat * nat) (replied acked : gset string)
  | RConfirmed (term : N)
  | RWaiting (term index : N)
  | RApplied (term : N)
  | RDone (value : string * bool) (count : N).

Record readCall := mkRead {
  rd_node : string;
  rd_key : string;
  rd_floor : N;
  rd_phase : readPhase }.

Definition with_phase (p : readPhase) (c : readCall) : readCall :=
  mkRead c.(rd_node) c.(rd_key) c.(rd_floor) p.

(** The number of entries the state machine of a node has applied. *)
Definition machineIndex {SM St} (n : Node SM St) (pc : apply_pc) : N :=
  match pc with AApplied _ _ => n.(lastApplied) + 1 | _ => n.(lastApplied) end%N.

Section reads.
Context {SM St : Type} `{StateMachine SM} `{Store St} `{RandSource} `{MapCodec}
  `{!HardStateLaws St} `{!DiskLaws St}.
#[local] Abbreviation Node := (Node SM St).
#[local] Abbreviation cluster := (@cluster SM St).
#[local] Abbreviation raft := (@raft SM St).
Context (cfg : string → Config) (s0 : SM).

Record reads := mkReads {
  q_raft : raft;
  q_seen : N;
  q_calls : gmap nat readCall }.

Definition commit_of (s : @slot SM St) : N := match s with Up n => n.(commitIndex) | Down _ => 0%N end.

Definition maxCommit (c : cluster) : N := map_fold (λ _ s m, N.max (commit_of s) m) 0%N c.(cl_slots).

Inductive qaction :=
  | QRaft (a : @raction SM)
  | QCall (c : nat) (i key : string)
  | QBarrier (c : nat)
  | QReply (c k : nat)
  | QSnapReply (c m : nat)
  | QCount (c : nat) (p : string)
  | QConfirm (c : nat)
  | QIndex (c : nat)
  | QWait (c : nat)
  | QRead (c : nat)
  | QEnd (c : nat).

(** A crash ends the calls on the node. *)
Definition survivors (a : @raction SM) (calls : gmap nat readCall) : gmap nat readCall :=
  match a with
  | RCluster (ACrash i) => filter (λ x, x.2.(rd_node) ≠ i) calls
  | _ => calls
  end.

(** A step of the cluster. *)
Definition cluster_step (a : @raction SM) (q : reads) : option reads :=
  r' ← rperform cfg s0 a q.(q_raft);
  Some (mkReads r' (N.max q.(q_seen) (maxCommit r'.(r_cl))) (survivors a q.(q_calls))).

Definition set_phase (c : nat) (p : readPhase) (q : reads) : reads :=
  mkReads q.(q_raft) q.(q_seen) (alter (with_phase p) c q.(q_calls)).

(** The call [c] and the node it runs on. *)
Definition caller (c : nat) (q : reads) : option (readCall * Node) :=
  call ← q.(q_calls) !! c;
  n ← up_at q.(q_raft).(r_cl) call.(rd_node);
  Some (call, n).

Definition qperform (a : qaction) (q : reads) : option reads :=
  let r := q.(q_raft) in
  match a with
  | QRaft a => cluster_step a q
  | QCall c i key =>
      n ← up_at r.(r_cl) i;
      if decide (q.(q_calls) !! c = None) then
        Some (mkReads r q.(q_seen) (<[c := mkRead i key q.(q_seen) RStart]> q.(q_calls)))
      else None
  | QBarrier c =>
      '(call, n) ← caller c q;
      match call.(rd_phase), ensureQuorum_begin n with
      | RStart, inl term =>
          Some (set_phase c (RBarrier term (length r.(r_aer), length r.(r_isr)) ∅ ∅) q)
      | _, _ => None
      end
  | QReply c k =>
      '(call, n) ← caller c q;
      '(i, p, req, resp) ← r.(r_aer) !! k;
      match call.(rd_phase), replicateToPeer_response p req resp n with
      | RBarrier term since replied acked, (Some true, _) =>
          if decide (i = call.(rd_node) ∧ k + since.1 < length r.(r_aer) ∧ p ∈ dom n.(params).(peerAddrs)) then
            q' ← cluster_step (RAppendReply k) q;
            Some (set_phase c (RBarrier term since ({[p]} ∪ replied) acked) q')
          else None
      | _, _ => None
      end
  | QSnapReply c m =>
      '(call, n) ← caller c q;
      '(i, p, req, resp) ← r.(r_isr) !! m;
      match call.(rd_phase), sendSnapshot_check req.(is_Term) resp n with
      | RBarrier term since replied acked, (true, _) =>
          if decide (i = call.(rd_node) ∧ m + since.2 < length r.(r_isr) ∧ p ∈ dom n.(params).(peerAddrs) ∧
                     req.(is_Done) = true ∧ resp.(isr_Success) = true) then
            q' ← cluster_step (RSendCheck m) q;
            Some (set_phase c (RBarrier term since ({[p]} ∪ replied) acked) q')
          else None
      | _, _ => None
      end
  | QCount c p =>
      '(call, n) ← caller c q;
      match call.(rd_phase) with
      | RBarrier term since replied acked =>
          if decide (p ∈ replied ∧ n.(role) = Leader ∧ n.(currentTerm) = term) then
            Some (set_phase c (RBarrier term since replied ({[p]} ∪ acked)) q)
          else None
      | _ => None
      end
  | QConfirm c =>
      '(call, n) ← caller c q;
      match call.(rd_phase) with
      | RBarrier term since replied acked =>
          if decide (tally_signal (quorum n) (size n.(params).(peerAddrs)) (mkTally (S (size acked)) 0) = Some true) then
            match ensureQuorum_end term true n with
            | inl term => Some (set_phase c (RConfirmed term) q)
            | inr _ => None
            end
          else None
      | _ => None
      end
  | QIndex c =>
      '(call, n) ← caller c q;
      match call.(rd_phase) with
      | RConfirmed term =>
          match LinearizableGet_index term n with
          | ReadOk index => Some (set_phase c (RWaiting term index) q)
          | ReadRetry => Some (set_phase c RStart q)
          | ReadError _ => None
          end
      | _ => None
      end
  | QWait c =>
      '(call, n) ← caller c q;
      match call.(rd_phase) with
      | RWaiting term index =>
          match waitUntilAppliedAsLeader_check None index term n with
          | Some None => Some (set_phase c (RApplied term) q)
          | _ => None
          end
      | _ => None
      end
  | QRead c =>
      '(call, n) ← caller c q;
      match call.(rd_phase) with
      | RApplied term =>
          match LinearizableGet_read term call.(rd_key) n with
          | ReadOk v => Some (set_phase c (RDone v (machineIndex n (pc_of r call.(rd_node)))) q)
          | ReadRetry => Some (set_phase c RStart q)
          | ReadError _ => None
          end
      | _ => None
      end
  | QEnd c => Some (mkReads r q.(q_seen) (delete c q.(q_calls)))
  end.

Definition qstep (q q' : reads) : Prop := ∃ a, qperform a q = Some q'.

(** Initially there are no calls. *)
Definition qinitial (members : gset string) (q : reads) : Prop :=
  rinitial members q.(q_raft) ∧ q.(q_seen) = 0%N ∧ q.(q_calls) = ∅.

Definition qreachable (members : gset string) (q : reads) : Prop := ∃ q0, qinitial members q0 ∧ rtc qstep q0 q.

Fixpoint qrun (acts : list qaction) (q : reads) : option reads :=
  match acts with
  | [] => Some q
  | a :: acts => q' ← qperform a q; qrun acts q'
  end.

Lemma qrun_steps acts q q' : qrun acts q = Some q' → rtc qstep q q'.
Proof.
  revert q. induction acts as [|a acts IH]; cbn; intros q Hq; [by simplify_eq|].
  apply bind_Some in Hq as (q1 & Ha & Hq). eapply rtc_l; [by exists a|auto].
Qed.

(** ** The cases of a step *)

Lemma caller_Some c q call n : caller c q = Some (call, n) →
  q.(q_calls) !! c = Some call ∧ q.(q_raft).(r_cl).(cl_slots) !! call.(rd_node) = Some (Up n).
Proof.
  unfold caller. intros (call' & Hc & (n' & Hn%up_at_Some & [= -> ->])%bind_Some)%bind_Some. done.
Qed.

(** The phase of [call], running on [n], becomes [p]. *)
Inductive advances (r : raft) (c : nat) (call : readCall) (n : Node) : readPhase → Prop :=
  | ad_barrier term : call.(rd_phase) = RStart → ensureQuorum_begin n = inl term →
      advances r c call n (RBarrier term (length r.(r_aer), length r.(r_isr)) ∅ ∅)
  | ad_count term since replied acked p : call.(rd_phase) = RBarrier term since replied acked →
      p ∈ replied → n.(role) = Leader → n.(currentTerm) = term →
      advances r c call n (RBarrier term since replied ({[p]} ∪ acked))
  | ad_confirm term since replied acked : call.(rd_phase) = RBarrier term since replied acked →
      quorum n ≤ S (size acked) → n.(role) = Leader → n.(currentTerm) = term → advances r c call n (RConfirmed term)
  | ad_index term index : call.(rd_phase) = RConfirmed term → n.(role) = Leader → n.(currentTerm) = term →
      (n.(commitIndex) ≤ index)%N → (n.(leaderNoopIndex) ≤ index)%N → advances r c call n (RWaiting term index)
  | ad_wait term index : call.(rd_phase) = RWaiting term index → (index ≤ n.(lastApplied))%N →
      advances r c call n (RApplied term)
  | ad_read term : call.(rd_phase) = RApplied term →
      advances r c call n (RDone (Get call.(rd_key) n.(sm)) (machineIndex n (pc_of r call.(rd_node))))
  | ad_retry : advances r c call n RStart.

(** The reply [c]'s round counts on: from peer [p] in term [term]. *)
Inductive answers (r : raft) (call : readCall) (n : Node) (since : nat * nat) (p : string) : @raction SM → Prop :=
  | an_append k req resp : r.(r_aer) !! k = Some (call.(rd_node), p, req, resp) → k + since.1 < length r.(r_aer) →
      resp.(aer_Success) = true → n.(currentTerm) = req.(ae_Term) → answers r call n since p (RAppendReply k)
  | an_snapshot m req resp : r.(r_isr) !! m = Some (call.(rd_node), p, req, resp) → m + since.2 < length r.(r_isr) →
      resp.(isr_Success) = true → n.(currentTerm) = req.(is_Term) → answers r call n since p (RSendCheck m).

Inductive qcase (q : reads) : reads → Prop :=
  | qc_raft a q' : cluster_step a q = Some q' → qcase q q'
  | qc_call c i key n : q.(q_calls) !! c = None → up_at q.(q_raft).(r_cl) i = Some n →
      qcase q (mkReads q.(q_raft) q.(q_seen) (<[c := mkRead i key q.(q_seen) RStart]> q.(q_calls)))
  | qc_phase c call n p : caller c q = Some (call, n) → advances q.(q_raft) c call n p → qcase q (set_phase c p q)
  | qc_answer c call n term since replied acked p a q' : caller c q = Some (call, n) →
      call.(rd_phase) = RBarrier term since replied acked → answers q.(q_raft) call n since p a →
      p ∈ dom n.(params).(peerAddrs) → cluster_step a q = Some q' →
      qcase q (set_phase c (RBarrier term since ({[p]} ∪ replied) acked) q')
  | qc_end c : qcase q (mkReads q.(q_raft) q.(q_seen) (delete c q.(q_calls))).

(** A reply that counts. *)
Lemma response_counts p req resp (n n' : Node) : replicateToPeer_response p req resp n = (Some true, n') →
  resp.(aer_Success) = true ∧ n.(currentTerm) = req.(ae_Term).
Proof.
  unfold replicateToPeer_response. case_decide; [done|]. case_decide as Hd; [done|].
  destruct (aer_Success resp); [|by case_decide]. intros _. split; [done|].
  destruct (decide (n.(currentTerm) = req.(ae_Term))); tauto.
Qed.

Lemma check_counts term resp (n n' : Node) : sendSnapshot_check term resp n = (true, n') → n.(currentTerm) = term.
Proof.
  unfold sendSnapshot_check. case_decide; [done|]. case_decide as Hd; [done|]. intros _.
  destruct (decide (n.(currentTerm) = term)); tauto.
Qed.

Lemma qperform_case a q q' : qperform a q = Some q' → qcase q q'.
Proof.
  destruct a as [a|c i key|c|c k|c m|c p|c|c|c|c|c]; cbn [qperform]; intros Hq.
  1: { by eapply qc_raft. }
  1: { apply bind_Some in Hq as (n & Hn & Hq). case_decide; simplify_eq. by eapply qc_call. }
  9: { simplify_eq. apply qc_end. }
  all: apply bind_Some in Hq as ([call n] & Hc & Hq).
  - destruct (rd_phase call) eqn:Ep; try done. destruct (ensureQuorum_begin n) eqn:Eb; simplify_eq.
    eapply qc_phase; [done|by constructor].
  - apply bind_Some in Hq as ([[[i p] req] resp] & Hk & Hq). destruct (rd_phase call) eqn:Ep; try done.
    destruct (replicateToPeer_response p req resp n) as [[[]|] n'] eqn:Er; try done. case_decide as Hd; [|done].
    destruct Hd as (-> & Hs & Hp). apply bind_Some in Hq as (q1 & Hq1 & [= <-]). apply response_counts in Er as [? ?].
    by eapply qc_answer; [done|done|by eapply an_append|done|].
  - apply bind_Some in Hq as ([[[i p] req] resp] & Hk & Hq). destruct (rd_phase call) eqn:Ep; try done.
    destruct (sendSnapshot_check _ resp n) as [[] n'] eqn:Er; try done. case_decide as Hd; [|done].
    destruct Hd as (-> & Hs & Hp & _ & ?). apply bind_Some in Hq as (q1 & Hq1 & [= <-]). apply check_counts in Er.
    by eapply qc_answer; [done|done|by eapply an_snapshot|done|].
  - destruct (rd_phase call) eqn:Ep; try done. case_decide as Hd; simplify_eq. destruct Hd as (? & ? & ?).
    eapply qc_phase; [done|by constructor].
  - destruct (rd_phase call) eqn:Ep; try done. case_decide as Hd; [|done]. unfold tally_signal in Hd. cbn in Hd.
    case_decide; [|by case_decide]. unfold ensureQuorum_end in Hq. destruct (stopped n); [done|]. case_decide as Hl; [done|]. simplify_eq.
    eapply qc_phase; [done|]. destruct (decide (n.(role) = Leader)), (decide (n.(currentTerm) = term)); [|tauto..]. by eapply ad_confirm.
  - destruct (rd_phase call) eqn:Ep; try done. unfold LinearizableGet_index in Hq. destruct (stopped n); [done|].
    case_decide as Hl; [done|]. case_decide as Ht; simplify_eq; (eapply qc_phase; [done|]); [apply ad_retry|].
    eapply ad_index; [done|done|done|case_decide; lia|case_decide; lia].
  - destruct (rd_phase call) eqn:Ep; try done. unfold waitUntilAppliedAsLeader_check in Hq. destruct (stopped n); [done|].
    destruct (storageFatal n); [done|]. case_decide; [done|]. case_decide; simplify_eq. eapply qc_phase; [done|]. eapply ad_wait; [done|lia].
  - destruct (rd_phase call) eqn:Ep; try done. unfold LinearizableGet_read in Hq. destruct (stopped n); [done|].
    case_decide as Hl; [done|]. case_decide as Ht; simplify_eq; (eapply qc_phase; [done|]); [apply ad_retry|by eapply ad_read].
Qed.

(** The cluster below moves by steps of its own. *)
Lemma cluster_step_rstep a q q' : cluster_step a q = Some q' → rperform cfg s0 a q.(q_raft) = Some q'.(q_raft).
Proof. unfold cluster_step. by intros (r' & Hr & [= <-])%bind_Some. Qed.

Lemma qstep_rsteps q q' : qstep q q' → rtc (rstep cfg s0) q.(q_raft) q'.(q_raft).
Proof.
  intros [a Ha]. apply qperform_case in Ha. destruct Ha as [a' q' Hs| | |c call n term since replied acked p a' q' _ _ _ _ Hs|].
  - apply cluster_step_rstep in Hs. apply rtc_once. by eexists.
  - done.
  - done.
  - apply cluster_step_rstep in Hs. apply rtc_once. by eexists.
  - done.
Qed.

Lemma qsteps_rsteps q q' : rtc qstep q q' → rtc (rstep cfg s0) q.(q_raft) q'.(q_raft).
Proof. induction 1 as [|q q1 q2 Hq _ IH]; [done|]. etrans; [by apply qstep_rsteps|done]. Qed.

Lemma qreachable_raft members q : qreachable members q → rreachable cfg s0 members q.(q_raft).
Proof. intros (q0 & (Hi & _) & Hs). exists q0.(q_raft). split; [done|]. by apply qsteps_rsteps. Qed.

End reads.
