(* ===== verification/Waiters.v ===== *)
(** * Proposals and their waiters

    A proposal registers a one-slot channel under the index of its entry;
    the node sends it exactly one outcome and closes it.  [winv] is the
    invariant of the [waiters] map and the channels: no send or close ever
    panics or blocks, and a waiter above the commit index exists only while
    the node leads. *)

From S2P Require Import Prelude Types StateMachine StoreIntf RaftLog NodeState Node Replication NodeStep NodeInv ApplySys TestEnv.

(** ** Delivering an outcome *)

Definition answered (o : applyOutcome) : chan := mkChan [o] true false.

Lemma deliver_new o : chan_close (chan_send o newChan) = answered o.
Proof. reflexivity. Qed.

Lemma deliver_all_cons o w ws chs : deliver_all o (w :: ws) chs = deliver_all o ws (deliver o w chs).
Proof. reflexivity. Qed.

Lemma deliver_all_other o w : ∀ ws chs, w ∉ ws → deliver_all o ws chs !! w = chs !! w.
Proof.
  induction ws as [|v ws IH]; intros chs Hw; [done|].
  apply not_elem_of_cons in Hw as [? ?]. rewrite deliver_all_cons, IH by done. unfold deliver. by rewrite lookup_alter_ne.
Qed.

Lemma deliver_all_in o w : ∀ ws chs,
  NoDup ws → (∀ v, v ∈ ws → chs !! v = Some newChan) → w ∈ ws → deliver_all o ws chs !! w = Some (answered o).
Proof.
  induction ws as [|v ws IH]; intros chs Hnd Hnew Hw; [by apply not_elem_of_nil in Hw|].
  apply NoDup_cons in Hnd as [Hv Hnd]. rewrite deliver_all_cons. destruct (decide (w = v)) as [->|Hne].
  - rewrite deliver_all_other by done. unfold deliver. rewrite lookup_alter_eq.
    by rewrite (Hnew v ltac:(left)).
  - apply elem_of_cons in Hw as [?|Hw]; [done|]. apply IH; [done| |done].
    intros u Hu. unfold deliver. rewrite lookup_alter_ne by set_solver. apply Hnew. by right.
Qed.

(** ** The loop over all waiters

    [failLoop] and [stopLoop] deliver one outcome to the waiters of the
    indices that [sel] selects. *)
Definition sweep (sel : N → bool) (o : applyOutcome) (ws : gmap N (list nat)) (chs : gmap nat chan)
    : gmap N (list nat) * gmap nat chan :=
  map_fold (λ index waiting acc,
      if sel index then (delete index acc.1, deliver_all o waiting acc.2) else acc) (ws, chs) ws.

Record registered (ws : gmap N (list nat)) (chs : gmap nat chan) : Prop := {
  reg_new : ∀ i l w, ws !! i = Some l → w ∈ l → chs !! w = Some newChan;
  reg_nodup : ∀ i l, ws !! i = Some l → NoDup l;
  reg_disjoint : ∀ i j l l' w, ws !! i = Some l → ws !! j = Some l' → w ∈ l → w ∈ l' → i = j }.

(** What the loop has done after the entries of [m]. *)
Definition swept (sel : N → bool) o (ws : gmap N (list nat)) (chs : gmap nat chan)
    (m : gmap N (list nat)) (acc : gmap N (list nat) * gmap nat chan) : Prop :=
  (∀ i, acc.1 !! i = if decide (sel i = true ∧ is_Some (m !! i)) then None else ws !! i) ∧
  (∀ i l w, m !! i = Some l → sel i = true → w ∈ l → acc.2 !! w = Some (answered o)) ∧
  (∀ w, (∀ i l, m !! i = Some l → sel i = true → w ∉ l) → acc.2 !! w = chs !! w).

Lemma sweep_swept sel o ws chs : registered ws chs → swept sel o ws chs ws (sweep sel o ws chs).
Proof.
  intros [Hnew Hnd Hdis]. unfold sweep.
  enough (∀ m, m ⊆ ws → swept sel o ws chs m
    (map_fold (λ index waiting acc,
      if sel index then (delete index acc.1, deliver_all o waiting acc.2) else acc) (ws, chs) m)) as Hm
    by (by apply Hm).
  apply (map_fold_weak_ind (λ acc m, m ⊆ ws → swept sel o ws chs m acc)).
  - intros _. split_and!; [|done|done]. intros i. rewrite decide_False; [done|]. by rewrite lookup_empty; intros [_ []].
  - intros i l m acc Hi IH Hsub.
    assert (ws !! i = Some l) as Hwi by (eapply lookup_weaken; [|done]; by rewrite lookup_insert_eq).
    assert (m ⊆ ws) as Hm by (etrans; [|exact Hsub]; by apply insert_subseteq).
    destruct (IH Hm) as (H1 & H2 & H3).
    assert (∀ j l' w, m !! j = Some l' → w ∈ l' → w ∉ l) as Hne.
    { intros j l' w Hj Hw Hw'. assert (i = j) as ->; [|by rewrite Hi in Hj].
      eapply Hdis; [exact Hwi|eapply lookup_weaken; [exact Hj|done]|done..]. }
    destruct (sel i) eqn:Es.
    + split_and!; cbn.
      * intros j. destruct (decide (i = j)) as [->|Hij].
        { by rewrite lookup_delete_eq, lookup_insert_eq, decide_True. }
        rewrite lookup_delete_ne, lookup_insert_ne by done. apply H1.
      * intros j l' w Hj Hs Hw. destruct (decide (i = j)) as [->|Hij].
        { rewrite lookup_insert_eq in Hj. simplify_eq. apply deliver_all_in; [by eapply Hnd| |done].
          intros v Hv. rewrite H3; [by eapply Hnew|]. intros k lk Hk _ Hvk. by eapply Hne. }
        rewrite lookup_insert_ne in Hj by done. rewrite deliver_all_other by (by eapply Hne). by eapply H2.
      * intros w Hw. rewrite deliver_all_other.
        { apply H3. intros j l' Hj. apply Hw. rewrite lookup_insert_ne; [done|]. intros ->. by rewrite Hi in Hj. }
        apply (Hw i l); [by rewrite lookup_insert_eq|done].
    + split_and!.
      * intros j. rewrite H1. destruct (decide (i = j)) as [->|Hij]; [|by rewrite lookup_insert_ne].
        rewrite !decide_False; [done|..]; rewrite Es; by intros [? _].
      * intros j l' w Hj Hs Hw. destruct (decide (i = j)) as [->|Hij]; [congruence|].
        rewrite lookup_insert_ne in Hj by done. by eapply H2.
      * intros w Hw. apply H3. intros j l' Hj. apply Hw. rewrite lookup_insert_ne; [done|]. intros ->. by rewrite Hi in Hj.
Qed.

(** What is left after the loop is registered, and every other channel is
    untouched or answered. *)
Lemma sweep_registered sel o ws chs :
  registered ws chs → registered (sweep sel o ws chs).1 (sweep sel o ws chs).2 ∧
  (∀ i l, (sweep sel o ws chs).1 !! i = Some l → ws !! i = Some l ∧ sel i = false) ∧
  (∀ w c, (sweep sel o ws chs).2 !! w = Some c →
     chs !! w = Some c ∨ (c = answered o ∧ ∃ i l, ws !! i = Some l ∧ w ∈ l)).
Proof.
  intros Hr. destruct (sweep_swept sel o ws chs Hr) as (H1 & H2 & H3).
  assert (∀ i l, (sweep sel o ws chs).1 !! i = Some l → ws !! i = Some l ∧ sel i = false) as Hk.
  { intros i l. rewrite H1. case_decide as Hd; [done|]. intros Hi. split; [done|].
    destruct (sel i); [|done]. exfalso. apply Hd. eauto. }
  destruct Hr as [Hnew Hnd Hdis]. split_and!; [|done|].
  - split.
    + intros i l w Hi Hw. apply Hk in Hi as [Hi Hs]. rewrite H3; [by eapply Hnew|].
      intros j l' Hj Hs' Hw'. assert (i = j) as -> by (by eapply Hdis). congruence.
    + intros i l Hi. apply Hk in Hi as [Hi _]. by eapply Hnd.
    + intros i j l l' w Hi%Hk Hj%Hk. destruct Hi, Hj. by eapply Hdis.
  - intros w c Hw.
    destruct (decide (w ∈ concat ((map_to_list (filter (λ kv, sel kv.1 = true) ws)).*2))) as [Hin|Hout].
    + apply list_elem_of_In, in_concat in Hin as (l & Hl & Hin).
      apply list_elem_of_In, list_elem_of_fmap in Hl as ([i l'] & -> & Hl).
      apply elem_of_map_to_list, map_lookup_filter_Some in Hl as [Hi Hs].
      apply list_elem_of_In in Hin. rewrite (H2 i l' w Hi Hs Hin) in Hw. right. split; [congruence|eauto].
    + left. rewrite <- Hw. symmetry. apply H3. intros i l Hi Hs Hl. apply Hout.
      apply list_elem_of_In, in_concat. exists l. split; apply list_elem_of_In; [|done].
      apply list_elem_of_fmap. exists (i, l). split; [done|].
      apply elem_of_map_to_list, map_lookup_filter_Some. done.
Qed.

Lemma registered_sub ws chs ws' :
  registered ws chs →
  (∀ i l, ws' !! i = Some l → ∃ l', ws !! i = Some l' ∧ sublist l l') → registered ws' chs.
Proof.
  intros [Hnew Hnd Hdis] Hsub. split.
  - intros i l w Hi Hw. apply Hsub in Hi as (l' & Hi & Hs). eapply Hnew; [done|]. by eapply elem_of_sublist.
  - intros i l Hi. apply Hsub in Hi as (l' & Hi & Hs). eapply sublist_NoDup; [by eapply Hnd|done].
  - intros i j l l' w Hi Hj Hw Hw'. apply Hsub in Hi as (? & Hi & Hs), Hj as (? & Hj & Hs').
    apply (Hdis i j _ _ w Hi Hj); [exact (elem_of_sublist _ _ _ Hw Hs)|exact (elem_of_sublist _ _ _ Hw' Hs')].
Qed.

Lemma remove_first_sublist w ws : sublist (remove_first w ws) ws.
Proof. induction ws as [|v ws IH]; cbn; [done|]. case_decide; [by apply sublist_cons|by apply sublist_skip]. Qed.

(** The errors a waiter may be told. *)
Inductive stop_error : error → Prop :=
  | se_stopped : stop_error ErrNodeStopped
  | se_not_leader l a : stop_error (NotLeaderError l a).

Section waiters.
Context {SM St : Type} `{StateMachine SM} `{Store St} `{RandSource} `{MapCodec}.
#[local] Abbreviation Node := (Node SM St).
Implicit Types n : Node.

(** [w] waits for the entry at index [i]. *)
Definition waits n (i : N) (w : nat) : Prop := ∃ l, n.(waiters) !! i = Some l ∧ w ∈ l.

(** [ok w o] says which outcomes may be sent to waiter [w]; the channels
    below [lo] exist. *)
Context (ok : nat → applyOutcome → Prop) (lo : nat).
Hypothesis ok_error : ∀ w err, stop_error err → ok w (mkOutcome zeroApplyResult (Some err)).

Record wbase n : Prop := {
  wb_reg : registered n.(waiters) n.(chans);
  wb_chan : ∀ w c, n.(chans) !! w = Some c →
    w < n.(nextChan) ∧ c.(misuse) = false ∧ ∀ o, o ∈ c.(buf) → ok w o;
  wb_lo : lo ≤ n.(nextChan) }.

(** A waiter above the commit index exists only on a leader. *)
Definition lead n : Prop := ∀ i w, waits n i w → (i ≤ n.(commitIndex))%N ∨ n.(role) = Leader.
Definition settled n : Prop := ∀ i w, waits n i w → (i ≤ n.(commitIndex))%N.

Definition wcore n := (n.(waiters), n.(chans), n.(nextChan)).

(** What a step that registers no waiter does. *)
Definition wsub n n' : Prop := wbase n → wbase n' ∧ ∀ i w, waits n' i w → waits n i w.
Definition wstep n n' : Prop :=
  wbase n → lead n → wbase n' ∧ lead n' ∧ ∀ i w, waits n' i w → waits n i w.

#[global] Instance wsub_preorder : PreOrder wsub.
Proof.
  split; [by intros n Hn|]. intros n1 n2 n3 H12 H23 Hn.
  destruct (H12 Hn) as [Hn2 Hs]. destruct (H23 Hn2) as [Hn3 Hs']. split; [done|]. auto.
Qed.

#[global] Instance wstep_preorder : PreOrder wstep.
Proof.
  split; [by intros n Hn|]. intros n1 n2 n3 H12 H23 Hn Hl.
  destruct (H12 Hn Hl) as (Hn2 & Hl2 & Hs). destruct (H23 Hn2 Hl2) as (Hn3 & Hl3 & Hs'). auto.
Qed.

Lemma wcore_sub n n' : wcore n' = wcore n → wsub n n'.
Proof.
  unfold wcore. intros [= Hw Hc Hn] [Hr Hch Hlo]. split; [split; rewrite ?Hw, ?Hc, ?Hn; done|].
  intros i w. unfold waits. by rewrite Hw.
Qed.

Lemma wcore_step n n' :
  wcore n' = wcore n → (n.(commitIndex) ≤ n'.(commitIndex))%N → (n.(role) = Leader → n'.(role) = Leader) →
  wstep n n'.
Proof.
  intros Hw Hc Hr Hn Hl. destruct (wcore_sub _ _ Hw Hn) as [Hn' Hs]. split_and!; [done| |done].
  intros i w Hi%Hs. destruct (Hl _ _ Hi); [left; lia|right; auto].
Qed.

Lemma settled_step n n' :
  wsub n n' → (wbase n → lead n → settled n') → wstep n n'.
Proof.
  intros Hs Hse Hn Hl. destruct (Hs Hn) as [Hn' Hw]. split_and!; [done| |done].
  intros i w Hi. left. by apply (Hse Hn Hl i w).
Qed.

(** *** The loops *)

Lemma failLoop_sweep n :
  failLoop n = sweep (λ i, negb (bool_decide (i ≤ n.(commitIndex))%N))
    (mkOutcome zeroApplyResult (Some (notLeaderLocked n))) n.(waiters) n.(chans).
Proof.
  unfold failLoop, sweep. rewrite !map_fold_foldr. apply foldr_ext; [|done..].
  intros [i l] acc. cbn. by case_decide; [rewrite bool_decide_true|rewrite bool_decide_false].
Qed.

Lemma stopLoop_sweep n :
  stopLoop n = sweep (λ _, true) (mkOutcome zeroApplyResult (Some ErrNodeStopped)) n.(waiters) n.(chans).
Proof. reflexivity. Qed.

(** A sweep with an error keeps the base invariant. *)
Lemma sweep_sub sel err n n' :
  stop_error err →
  (n'.(waiters), n'.(chans)) = sweep sel (mkOutcome zeroApplyResult (Some err)) n.(waiters) n.(chans) →
  n'.(nextChan) = n.(nextChan) →
  wsub n n' ∧ (wbase n → ∀ i w, waits n' i w → sel i = false).
Proof.
  intros Herr Hsw Hnext.
  assert (wbase n → wbase n' ∧ ∀ i w, waits n' i w → waits n i w ∧ sel i = false) as Hall.
  { intros [Hr Hch Hlo].
    destruct (sweep_registered sel (mkOutcome zeroApplyResult (Some err)) _ _ Hr) as (Hr' & Hk & Hc).
    rewrite <- Hsw in Hr', Hk, Hc. cbn in *. split.
    - split; [done| |lia]. intros w c Hw. rewrite Hnext.
      apply Hc in Hw as [Hw|(-> & i & l & Hi & Hl)]; [by apply Hch|].
      destruct (Hch w newChan) as [? _]; [by eapply reg_new|]. split_and!; [done..|].
      cbn. intros o [->|[]%elem_of_nil]%elem_of_cons. by apply ok_error.
    - intros i w (l & Hi & Hw). apply Hk in Hi as [Hi Hs]. split; [by exists l|done]. }
  split; [intros Hn; split; [by apply Hall|by intros; eapply Hall]|by intros; eapply Hall].
Qed.

Lemma fail_sub n : wsub n (failUncommittedWaitersLocked n) ∧ (wbase n → settled (failUncommittedWaitersLocked n)).
Proof.
  destruct (sweep_sub (λ i, negb (bool_decide (i ≤ n.(commitIndex))%N)) (notLeaderLocked n) n
              (failUncommittedWaitersLocked n)) as [Hs Hse].
  - constructor.
  - rewrite <- failLoop_sweep. cbn. by destruct (failLoop n).
  - done.
  - split; [done|]. intros Hn i w Hw. specialize (Hse Hn i w Hw). cbn in *.
    by apply negb_false_iff, bool_decide_eq_true in Hse.
Qed.

Lemma failStorage_sub e n : wsub n (failStorageLocked e n) ∧ (wbase n → settled (failStorageLocked e n)).
Proof.
  unfold failStorageLocked. cbv zeta.
  set (n1 := resetElectionLocked _). destruct (fail_sub n1) as [Hs Hse].
  assert (wsub n n1) as Hn1 by (by apply wcore_sub). split.
  - etrans; [exact Hn1|]. etrans; [exact Hs|]. by apply wcore_sub.
  - intros Hn i w Hw. apply (Hse (proj1 (Hn1 Hn)) i w Hw).
Qed.

Lemma save_wcore commit n e n' : saveHardStateLocked commit n = (e, n') →
  wcore n' = wcore n ∧ n'.(role) = n.(role) ∧ n'.(commitIndex) = n.(commitIndex).
Proof. unfold saveHardStateLocked. destruct (SaveHardState _ _) as [[]]; intros; by simplify_eq. Qed.

Lemma becomeFollower_sub term leader b n e n' :
  becomeFollowerWithTimerLocked term leader b n = (e, n') →
  wsub n n' ∧ (wbase n → lead n → settled n').
Proof.
  unfold becomeFollowerWithTimerLocked. set (n2 := if b then _ else _).
  assert (wcore n2 = wcore n ∧ n2.(commitIndex) = n.(commitIndex)) as [Hc Hci].
  { subst n2. destruct b, (decide (currentTerm n < term)%N); done. }
  unfold persistHardStateLocked. destruct (saveHardStateLocked _ n2) as [e2 n3] eqn:E.
  apply save_wcore in E as (Hc3 & _ & Hci3).
  assert (wsub n n3) as Hs3 by (apply wcore_sub; congruence).
  destruct e2 as [e2|]; intros [= <- <-].
  - destruct (failStorage_sub e2 n3) as [Hs Hse]. split; [by etrans|]. intros Hn _. by apply Hse, Hs3.
  - case_decide as Hr.
    + destruct (fail_sub n3) as [Hs Hse]. split.
      * etrans; [exact Hs3|]. etrans; [exact Hs|]. by apply wcore_sub.
      * intros Hn _. by apply Hse, Hs3.
    + split; [done|]. intros Hn Hl i w Hw. destruct (Hl i w) as [?|?]; [|rewrite Hci3, Hci; done|done].
      by apply Hs3.
Qed.

Lemma becomeFollower_step term leader b n e n' :
  becomeFollowerWithTimerLocked term leader b n = (e, n') → wstep n n'.
Proof. intros [Hs Hse]%becomeFollower_sub. by apply settled_step. Qed.

Lemma failStorage_step e n : wstep n (failStorageLocked e n).
Proof. apply settled_step; [apply failStorage_sub|]. intros Hn _. by apply failStorage_sub. Qed.

Lemma follow_step (P : Prop) `{Decision P} term leader n e n' :
  (if decide P then becomeFollowerLocked term leader n else (None, n)) = (e, n') → wstep n n'.
Proof. case_decide; intros E; [by eapply becomeFollower_step|by simplify_eq]. Qed.

Lemma advanceLoop_gt fuel n : ∀ index i, advanceLoop fuel index n = Some i → (n.(commitIndex) < i)%N.
Proof.
  induction fuel as [|fuel IH]; intros index i Hl; cbn in Hl; [done|].
  case_decide; [|done]. case_decide; [eauto|]. case_decide; [by simplify_eq|eauto].
Qed.

Lemma advance_step n : wstep n (advanceCommitLocked n).
Proof.
  unfold advanceCommitLocked. destruct (advanceLoop _ _ _) as [i|] eqn:El; [|done].
  apply advanceLoop_gt in El. unfold persistHardStateLocked.
  destruct (saveHardStateLocked _ _) as [[e|] n1] eqn:E; apply save_wcore in E as (Hw & Hr & Hc); cbn in *.
  - etrans; [|apply failStorage_step]. apply wcore_step; [done|done|cbn; congruence].
  - apply wcore_step; [done|cbn; lia|cbn; congruence].
Qed.

(** *** The handlers *)

(** A step that touches neither waiters, commit index nor role. *)
Lemma quiet_step n n' : wcore n' = wcore n → n'.(commitIndex) = n.(commitIndex) → n'.(role) = n.(role) → wstep n n'.
Proof. intros ? Hc Hr. apply wcore_step; [done|by rewrite Hc|by rewrite Hr]. Qed.

Lemma settled_wcore n n' : wcore n' = wcore n → (n.(commitIndex) ≤ n'.(commitIndex))%N → settled n → settled n'.
Proof.
  unfold wcore. intros [= Hw _ _] Hc Hs i w Hi. unfold waits in *. rewrite Hw in Hi.
  specialize (Hs i w Hi). lia.
Qed.

(** With the waiters settled, the role no longer matters. *)
Lemma settled_any n n' : wcore n' = wcore n → (n.(commitIndex) ≤ n'.(commitIndex))%N →
  wbase n → settled n → wbase n' ∧ settled n' ∧ ∀ i w, waits n' i w → waits n i w.
Proof.
  intros Hw Hc Hn Hs. destruct (wcore_sub _ _ Hw Hn). split_and!; [done|by eapply settled_wcore|done].
Qed.

Lemma aeCommit_step req lastNew n : wstep n (aeCommit req lastNew n).2.
Proof.
  unfold aeCommit. case_decide as Hc; [|done]. unfold persistHardStateLocked.
  destruct (saveHardStateLocked _ _) as [[e|] n1] eqn:E; apply save_wcore in E as (Hw & Hr & Hci); cbn in *.
  - apply quiet_step; [done|done|by cbn].
  - apply wcore_step; [done|cbn; lia|cbn; congruence].
Qed.

Lemma aeMerge_step req n : wstep n (aeMerge req n).2.
Proof.
  unfold aeMerge. destruct (mergeEntries _ _ _ _ _) as [m log'].
  case_decide; [by apply quiet_step|]. destruct (changed m).
  - set (r := if replaced m then _ else _). destruct r as [[e|] st].
    + etrans; [|apply failStorage_step]. by apply quiet_step.
    + etrans; [|apply aeCommit_step]. by apply quiet_step.
  - etrans; [|apply aeCommit_step]. by apply quiet_step.
Qed.

(** The waiters that survive an AppendEntries are at committed indices, or
    the request was turned away and the log is what it was. *)
Lemma HandleAppendEntries_step req n :
  wstep n (HandleAppendEntries req n).2 ∧
  (wbase n → lead n → ∀ i w, waits (HandleAppendEntries req n).2 i w →
     (i ≤ n.(commitIndex))%N ∨ core (HandleAppendEntries req n).2 = core n).
Proof.
  unfold HandleAppendEntries. do 3 (case_decide; [split; [done|intros; by right]|]).
  destruct (if decide (_ ∨ _) then _ else _) as [e n1] eqn:E.
  assert (wstep n n1) as Hst by (by eapply follow_step). pose proof (core_follow _ _ _ _ _ _ E) as Hcore.
  destruct e as [e|]; [split; [done|intros; by right]|].
  assert (wbase n → lead n → settled n1) as Hse.
  { revert E. case_decide as Hd; intros E; [by eapply becomeFollower_sub|]. injection E as <-.
    intros Hn Hl i w Hw. destruct (Hl i w Hw) as [?|Hr]; [done|]. exfalso. apply Hd. right. by rewrite Hr. }
  clear E.
  set (n2 := resetElectionLocked _).
  assert (wstep n n2) as Hst2 by (etrans; [exact Hst|by apply quiet_step]).
  assert (core n2 = core n) as Hcore2 by done.
  do 2 (case_decide; [split; [exact Hst2|intros; right; exact Hcore2]|]). pose proof (aeMerge_step req n2) as Hm.
  split; [by etrans|]. intros Hn Hl i w Hw. left.
  destruct (Hst Hn Hl) as (Hn1 & Hl1 & _). destruct (Hst2 Hn Hl) as (Hn2 & Hl2 & _).
  apply (Hm Hn2 Hl2) in Hw. apply core_fields in Hcore as (_ & _ & <- & _). by apply (Hse Hn Hl i w).
Qed.

Lemma isGuards_step req n : wstep n (isGuards req n).2.
Proof.
  unfold isGuards. do 3 (case_decide; [done|]).
  destruct (if decide (_ ∨ _) then _ else _) as [e n1] eqn:E. apply follow_step in E.
  destruct e as [e|]; [|case_decide]; (etrans; [exact E|by apply quiet_step]).
Qed.

Lemma isChunk_step req p n : wstep n (isChunk req p n).2.
Proof. unfold isChunk. case_decide; [done|]. destruct (is_Done req); by apply quiet_step. Qed.

Lemma install_recv_step req n : wstep n (HandleInstallSnapshot_recv req n).2.
Proof.
  unfold HandleInstallSnapshot_recv. pose proof (isGuards_step req n) as Hg.
  destruct (isGuards req n) as [[r|[]] n1]; cbn in Hg; [done|]. etrans; [exact Hg|].
  destruct (pendingSnapshot n1); repeat case_decide; try done; try apply isChunk_step;
    (etrans; [|apply isChunk_step]; by apply quiet_step).
Qed.

Lemma isInstall_step req data sz n : wstep n (isInstall req data sz n).2.
Proof.
  unfold isInstall. set (nc := if decide (commitIndex n < _)%N then _ else _).
  assert (n.(commitIndex) ≤ nc)%N as Hnc by (subst nc; case_decide; cbn in *; lia).
  destruct (SaveSnapshot _ _) as [[e|] st1]; [etrans; [|apply failStorage_step]; by apply quiet_step|].
  destruct (ReplaceEntries _ _) as [[e|] st2]; [etrans; [|apply failStorage_step]; by apply quiet_step|].
  destruct (saveHardStateLocked _ _) as [[e|] n1] eqn:E; apply save_wcore in E as (Hw & Hr & Hc); cbn in *.
  - etrans; [|apply failStorage_step]. by apply quiet_step.
  - destruct (decide (lastApplied n1 < is_LastIncludedIndex req)%N);
      (apply wcore_step; [done|cbn; lia|cbn; congruence]).
Qed.

Lemma install_final_step req body n : wstep n (HandleInstallSnapshot_final req body n).2.
Proof.
  unfold HandleInstallSnapshot_final. destruct (match body with [] => _ | _ => _ end); [|by apply quiet_step].
  pose proof (isGuards_step req n) as Hg. destruct (isGuards req n) as [[r|[]] n1]; cbn in Hg.
  { etrans; [exact Hg|by apply quiet_step]. }
  etrans; [exact Hg|]. destruct (pendingSnapshot n1); [|done]. case_decide; [apply isInstall_step|done].
Qed.

Lemma startElection_step n : wstep n (startElection n).2.
Proof.
  unfold startElection. case_decide as Hd; [done|]. unfold persistHardStateLocked.
  destruct (saveHardStateLocked _ _) as [[e|] n1] eqn:E; apply save_wcore in E as (Hw & Hr & Hc); cbn in *.
  - by apply quiet_step.
  - apply wcore_step; [done|by rewrite Hc|]. intros Hl. exfalso. apply Hd. auto.
Qed.

Lemma HandleRequestVote_step req n : wstep n (HandleRequestVote req n).2.
Proof.
  unfold HandleRequestVote. do 3 (case_decide; [done|]).
  destruct (if decide _ then _ else _) as [e n1] eqn:E.
  assert (wstep n n1) as Hs.
  { revert E. case_decide; intros E; [by eapply becomeFollower_step|by injection E as _ <-]. }
  clear E. destruct e; [done|]. case_decide; [|done]. etrans; [exact Hs|]. unfold persistHardStateLocked.
  destruct (saveHardStateLocked _ _) as [[e|] n2] eqn:E; apply save_wcore in E as (Hw & Hr & Hc); cbn in *;
    by apply quiet_step.
Qed.

Lemma becomeLeader_step t n : wstep n (becomeLeader t n).2.
Proof.
  unfold becomeLeader. case_decide; [done|].
  destruct (AppendEntries _ _) as [[e|] st]; (etrans; [|apply failStorage_step || apply advance_step]);
    (apply wcore_step; [done|done|done]).
Qed.

Lemma stepDown_step t leader n : wstep n (stepDown t leader n).
Proof. unfold stepDown, becomeFollowerLocked. destruct (becomeFollowerWithTimerLocked _ _ _ _) eqn:E. by eapply becomeFollower_step. Qed.

Lemma replicate_response_step p req resp n : wstep n (replicateToPeer_response p req resp n).2.
Proof.
  unfold replicateToPeer_response. case_decide; [apply stepDown_step|]. case_decide; [done|].
  destruct (aer_Success resp); [|case_decide; [by apply quiet_step|done]].
  etrans; [|apply advance_step]. by apply quiet_step.
Qed.

Lemma Stop_step n : wstep n (Stop n).
Proof.
  unfold Stop. destruct (stopped n); [done|]. set (n' := broadcast _).
  destruct (sweep_sub (λ _, true) ErrNodeStopped n n') as [Hs Hse]; [constructor| |done|].
  - rewrite <- stopLoop_sweep. cbn. by destruct (stopLoop _).
  - apply settled_step; [done|]. intros Hn _ i w Hw. by discriminate (Hse Hn i w Hw).
Qed.

Lemma wbase_sub n n' :
  wbase n → n'.(chans) = n.(chans) → n'.(nextChan) = n.(nextChan) →
  (∀ i l, n'.(waiters) !! i = Some l → ∃ l', n.(waiters) !! i = Some l' ∧ sublist l l') →
  wbase n' ∧ ∀ i w, waits n' i w → waits n i w.
Proof.
  intros [Hr Hch Hlo] Hc Hx Hsub. split.
  - split; rewrite ?Hc, ?Hx; [by eapply registered_sub|done|done].
  - intros i w (l & Hi & Hw). apply Hsub in Hi as (l' & Hi & Hs). exists l'. split; [done|by eapply elem_of_sublist].
Qed.

Lemma removeWaiter_step i w n : wstep n (removeWaiter i w n).
Proof.
  intros Hn Hl. unfold removeWaiter. set (ws := remove_first _ _).
  set (n' := if decide (ws = []) then _ else _).
  assert (wbase n' ∧ ∀ j v, waits n' j v → waits n j v) as [Hn' Hs].
  { apply wbase_sub; [done|by subst n'; case_decide..|]. intros j l. subst n'. case_decide as Hw; cbn.
    - rewrite lookup_delete_Some. intros [_ Hj]. by exists l.
    - rewrite lookup_insert_Some. intros [[-> <-]|[_ Hj]]; [|by exists l].
      destruct (waiters n !! j) as [l'|] eqn:E; [|done]. exists l'. split; [done|]. apply remove_first_sublist. }
  split_and!; [done| |done]. intros j v Hj%Hs. destruct (Hl j v Hj); subst n'; case_decide; auto.
Qed.

(** Receiving from a channel touches no registered one: those are empty. *)
Lemma receive_step w o rest c m n :
  n.(chans) !! w = Some (mkChan (o :: rest) c m) →
  wstep n (with_chans (<[w := mkChan rest c m]> n.(chans)) n).
Proof.
  intros Hw [[Hnew Hnd Hdis] Hch Hlo] Hl. split_and!; [|done|done]. split; [split; try done| |done]; cbn.
  - intros i l v Hi Hv. assert (v ≠ w) as Hne by (intros ->; rewrite (Hnew i l w Hi Hv) in Hw; done).
    rewrite lookup_insert_ne by done. by eapply Hnew.
  - intros v cv. rewrite lookup_insert_Some. intros [[<- <-]|[_ Hv]]; [|by apply Hch].
    destruct (Hch _ _ Hw) as (? & ? & Hok). cbn in *. split_and!; [done..|]. intros. apply Hok. by right.
Qed.

Lemma Propose_select_step w i ctx n : wstep n (Propose_select w i ctx n).2.
Proof.
  unfold Propose_select. destruct (chans n !! w) as [[[|o rest] [] m]|] eqn:E;
    destruct ctx; try done; cbn; try apply removeWaiter_step.
  - etrans; [apply (removeWaiter_step i w)|]. eapply receive_step. unfold removeWaiter. by case_decide.
  - by eapply receive_step.
  - etrans; [apply (removeWaiter_step i w)|]. eapply receive_step. unfold removeWaiter. by case_decide.
  - by eapply receive_step.
Qed.

(** A proposal registers one fresh waiter, at its own index. *)
Lemma register_base n n' i :
  wbase n → n'.(nextChan) = S n.(nextChan) → n'.(chans) = <[n.(nextChan) := newChan]> n.(chans) →
  n'.(waiters) = <[i := default [] (n.(waiters) !! i) ++ [n.(nextChan)]]> n.(waiters) →
  wbase n' ∧ ∀ j w, waits n' j w → waits n j w ∨ (j = i ∧ w = n.(nextChan)).
Proof.
  intros [[Hnew Hnd Hdis] Hch Hlo] Hx Hc Hw.
  assert (∀ j l, n.(waiters) !! j = Some l → n.(nextChan) ∉ l) as Hfresh.
  { intros j l Hj Hin. destruct (Hch _ _ (Hnew _ _ _ Hj Hin)). lia. }
  assert (∀ j l w, n'.(waiters) !! j = Some l → w ∈ l →
            waits n j w ∨ (j = i ∧ w = n.(nextChan))) as Hold.
  { intros j l w. rewrite Hw, lookup_insert_Some. intros [[<- <-]|[? Hj]] Hin; [|left; by exists l].
    apply elem_of_app in Hin as [Hin|Hin%list_elem_of_singleton]; [|by right]. left.
    destruct (waiters n !! i) as [l|] eqn:E; [by exists l|by apply not_elem_of_nil in Hin]. }
  split; [|intros j w (l & Hj & Hin); by eapply Hold]. split; [split| |lia].
  - intros j l w Hj Hin. rewrite Hc. destruct (Hold j l w Hj Hin) as [(l' & Hj' & Hin')|[_ ->]].
    + rewrite lookup_insert_ne; [by eapply Hnew|]. intros <-. by eapply Hfresh.
    + by rewrite lookup_insert_eq.
  - intros j l. rewrite Hw, lookup_insert_Some. intros [[<- <-]|[? Hj]]; [|by eapply Hnd].
    apply NoDup_app. split_and!.
    + destruct (waiters n !! i) as [l|] eqn:E; [by eapply Hnd|constructor].
    + intros w Hin ->%list_elem_of_singleton. destruct (waiters n !! i) as [l|] eqn:E.
      * by eapply Hfresh.
      * by apply not_elem_of_nil in Hin.
    + apply NoDup_singleton.
  - intros j k l l' w Hj Hk Hin Hin'.
    destruct (Hold j l w Hj Hin) as [(lj & Hj' & Hinj)|[Hji Hwj]],
      (Hold k l' w Hk Hin') as [(lk & Hk' & Hink)|[Hki Hwk]]; [by eapply Hdis|subst w..|congruence].
    + by destruct (Hfresh _ _ Hj' Hinj).
    + by destruct (Hfresh _ _ Hk' Hink).
  - intros w c. rewrite Hc, Hx, lookup_insert_Some. intros [[<- <-]|[? Hw']].
    + split_and!; [lia|done|]. cbn. intros o []%elem_of_nil.
    + destruct (Hch _ _ Hw') as (? & ? & ?). split_and!; [lia|done..].
Qed.

Lemma Propose_start_step ctx c n :
  wbase n → lead n →
  wbase (Propose_start ctx c n).2 ∧ lead (Propose_start ctx c n).2 ∧
  ∀ i w, waits (Propose_start ctx c n).2 i w → waits n i w ∨ (Propose_start ctx c n).1 = inl (w, i).
Proof.
  intros Hn Hl. unfold Propose_start. destruct ctx; [by auto|]. unfold proposeAppend.
  destruct (stopped n); [by auto|]. destruct (storageFatal n); [by auto|]. case_decide as Hr; [by auto|].
  destruct (AppendEntries _ _) as [[e|] st].
  { match goal with |- context [failStorageLocked e ?m] => assert (wstep n m) as Hm by (by apply quiet_step) end.
    destruct (transitivity Hm (failStorage_step e _) Hn Hl) as (? & ? & ?). auto. }
  match goal with |- context [advanceCommitLocked ?m] => set (n1 := m) end.
  set (i0 := Index _) in *.
  destruct (register_base n n1 i0 Hn) as [Hn1 Hw1]; [done..|].
  assert (lead n1) as Hl1 by (intros j w _; right; cbn; destruct (role n); naive_solver).
  destruct (advance_step n1 Hn1 Hl1) as (Hn2 & Hl2 & Hw2).
  destruct (wcore_sub (advanceCommitLocked n1) (kickReplication (advanceCommitLocked n1)) eq_refl Hn2) as [Hn3 Hw3].
  split_and!; [done|done|]. intros j w [?|[-> ->]]%Hw3%Hw2%Hw1; [by left|by right].
Qed.

(** The outcome of an applied entry goes to the waiters of its index. *)
Lemma finish_step e r n :
  (∀ w, waits n e.(Index) w → ok w (mkOutcome r None)) → wstep n (applyReady_finish e r n).2.
Proof.
  intros Hok. unfold applyReady_finish. case_decide; [done|]. cbn [snd].
  intros [[Hnew Hnd Hdis] Hch Hlo] Hl. set (n' := finishWaitersLocked _ _ _).
  set (ws := default [] (n.(waiters) !! e.(Index))).
  assert (∀ w, w ∈ ws → waits n e.(Index) w) as Hws.
  { intros w Hw. subst ws. destruct (waiters n !! Index e) as [l|] eqn:E; [by exists l|by apply not_elem_of_nil in Hw]. }
  assert (NoDup ws ∧ ∀ w, w ∈ ws → n.(chans) !! w = Some newChan) as [Hndw Hneww].
  { split; [subst ws; destruct (waiters n !! Index e) as [l|] eqn:E; [by eapply Hnd|constructor]|].
    intros w (l & Hi & Hin)%Hws. by eapply Hnew. }
  assert (∀ w, w ∈ ws → n'.(chans) !! w = Some (answered (mkOutcome r None))) as Hin by (intros; by apply deliver_all_in).
  assert (∀ w, w ∉ ws → n'.(chans) !! w = n.(chans) !! w) as Hout by (intros; by apply deliver_all_other).
  assert (∀ i l, n'.(waiters) !! i = Some l → i ≠ e.(Index) ∧ n.(waiters) !! i = Some l) as Hw.
  { intros i l. cbn. rewrite lookup_delete_Some. naive_solver. }
  assert (∀ i w, waits n' i w → waits n i w) as Hsub by (intros i w (l & [_ Hi]%Hw & ?); by exists l).
  split_and!; [|intros i w Hi%Hsub; by apply (Hl i w)|done]. split; [split| |done].
  - intros i l w [Hne Hi]%Hw Hwl. rewrite Hout; [by eapply Hnew|].
    intros (l' & Hi' & Hin')%Hws. apply Hne. by eapply Hdis.
  - intros i l [_ Hi]%Hw. by eapply Hnd.
  - intros i j l l' w [_ Hi]%Hw [_ Hj]%Hw. by apply Hdis.
  - intros w c Hc. destruct (decide (w ∈ ws)) as [Hwin|Hwout].
    + rewrite (Hin _ Hwin) in Hc. injection Hc as <-.
      split_and!; [by destruct (Hch _ _ (Hneww _ Hwin))|done|].
      cbn. intros o [->|[]%elem_of_nil]%elem_of_cons. by apply Hok, Hws.
    + rewrite (Hout _ Hwout) in Hc. by apply Hch.
Qed.

End waiters.
