(* ===== verification/Proposals.v ===== *)
(** * What a proposer is told

    The waiters of [Waiters.v] in the system of [ApplySys.v]: a proposal's
    channel receives at most one outcome; an outcome without error is the
    result of applying the proposed command itself, at the proposed index. *)

From S2P Require Import Prelude Types StateMachine StoreIntf RaftLog NodeState Node Replication NodeStep NodeInv ApplySys TestEnv Waiters.

Section proposals.
Context {SM St : Type} `{StateMachine SM} `{Store St} `{RandSource} `{MapCodec}.
#[local] Abbreviation Node := (Node SM St).
Implicit Types n : Node.

(** ** The log only grows, AppendEntries aside *)

Lemma core_prefix n n' : core n' = core n → n.(log) `prefix_of` n'.(log).
Proof. intros (_ & -> & _)%core_fields. done. Qed.

Lemma advance_log n : (advanceCommitLocked n).(log) = n.(log).
Proof.
  unfold advanceCommitLocked. destruct (advanceLoop _ _ _); [|done].
  destruct (persistHardStateLocked _) as [[e|] n1] eqn:E; apply core_persist in E;
    by apply core_fields in E as (_ & ? & _).
Qed.

Lemma proposeAppend_log c n : n.(log) `prefix_of` (proposeAppend c n).2.(log).
Proof.
  unfold proposeAppend. destruct (stopped n); [done|]. destruct (storageFatal n); [done|].
  case_decide; [done|]. destruct (AppendEntries _ _) as [[e|] st]; [done|]. cbn [snd].
  rewrite advance_log. by eexists.
Qed.

Lemma Propose_start_log ctx c n : n.(log) `prefix_of` (Propose_start ctx c n).2.(log).
Proof.
  unfold Propose_start. destruct ctx; [done|]. pose proof (proposeAppend_log c n) as Hp.
  by destruct (proposeAppend c n) as [[wi|err] n1].
Qed.

Lemma becomeLeader_log t n : n.(log) `prefix_of` (becomeLeader t n).2.(log).
Proof.
  unfold becomeLeader. case_decide; [done|]. destruct (AppendEntries _ _) as [[e|] st]; [done|].
  cbn [snd]. rewrite advance_log. by eexists.
Qed.

(** Leader append-only: no step but AppendEntries and the installation of a
    snapshot removes or changes an entry. *)
Lemma append_only op n :
  is_background op = true → (∀ req, op ≠ DoAppendEntries req) → n.(log) `prefix_of` (nrun op n).(log).
Proof.
  intros Hb Hop. destruct op; try discriminate Hb; cbn [nrun]; try done.
  - unfold Stop. by destruct (stopped n).
  - by destruct (Hop req).
  - apply core_prefix, core_install_recv.
  - apply Propose_start_log.
  - unfold Propose_select, removeWaiter. by destruct (chans n !! w) as [[[|] [] ]|], ctx; cbn; repeat case_decide.
  - unfold acquirePeerReplication_poll. destruct ctx; [done|]. case_decide; [done|]. by destruct (map_bool _ _).
  - unfold replicateAllOnce_begin. destruct (stopped n); [done|]. by case_decide.
  - unfold replicateToPeer_prepare. case_decide; [done|].
    destruct (decide (map_N _ _ = 0%N)); case_decide; try done; by destruct (termAtLocked _ _).
  - unfold replicateToPeer_snapshotDone. by case_decide.
  - unfold replicateToPeer_response. case_decide; [apply core_prefix, core_stepDown|]. case_decide; [done|].
    destruct (aer_Success resp); [cbn [snd]; by rewrite advance_log|by case_decide].
  - unfold sendSnapshot_check. case_decide; [apply core_prefix, core_stepDown|]. by case_decide.
  - apply core_prefix, core_startElection.
  - apply core_prefix, core_HandleRequestVote.
  - apply becomeLeader_log.
  - apply core_prefix, core_stepDown.
Qed.

Lemma entry_kept n n' i e :
  node_wf n → node_wf n' → n'.(snapshot) = n.(snapshot) → n.(log) `prefix_of` n'.(log) → (i < two64)%N →
  entryAtLocked n i = Some e → entryAtLocked n' i = Some e.
Proof.
  intros [Hwf _ _ _ _] [Hwf' _ _ _ _] Hs [es Hl] Hi He. unfold entryAtLocked in *. rewrite Hs in *. rewrite <- He.
  apply (entryAt_prefix _ _ _ (length n.(log))); [done|done| | |done].
  - by rewrite Hl, take_app_le, take_ge by lia.
  - assert (is_Some (entryAt n.(snapshot) n.(log) i)) as Hsome by (by exists e).
    apply entryAt_is_Some in Hsome; [|done..]. rewrite (lastIndex_wf _ _ Hwf) in Hsome. unfold len in Hsome. lia.
Qed.

Lemma advance_snapshot n : (advanceCommitLocked n).(snapshot) = n.(snapshot).
Proof.
  unfold advanceCommitLocked. destruct (advanceLoop _ _ _); [|done].
  destruct (persistHardStateLocked _) as [[e|] n1] eqn:E; apply core_persist in E;
    by apply core_fields in E as (? & _).
Qed.

Lemma advance_nextChan n : (advanceCommitLocked n).(nextChan) = n.(nextChan).
Proof.
  unfold advanceCommitLocked. destruct (advanceLoop _ _ _); [|done]. unfold persistHardStateLocked.
  destruct (saveHardStateLocked _ _) as [[e|] n1] eqn:E; apply save_wcore in E as ([= _ _ Hx] & _); done.
Qed.

(** The entry a successful proposal appends. *)
Lemma Propose_start_entry ctx c n w i n' : Propose_start ctx c n = (inl (w, i), n') →
  w = n.(nextChan) ∧ i = lastIndexLocked n +u 1 ∧
  n'.(log) = n.(log) ++ [mkLogEntry i n.(currentTerm) c] ∧ n'.(snapshot) = n.(snapshot) ∧
  n'.(nextChan) = S n.(nextChan).
Proof.
  unfold Propose_start. destruct ctx; [done|]. unfold proposeAppend.
  destruct (stopped n); [done|]. destruct (storageFatal n); [done|]. case_decide; [done|].
  destruct (AppendEntries _ _) as [[e|] st]; [done|].
  match goal with |- context [advanceCommitLocked ?m] => set (n1 := m) end.
  assert (n1.(log) = n.(log) ++ [mkLogEntry (lastIndexLocked n +u 1) n.(currentTerm) c] ∧
          n1.(snapshot) = n.(snapshot) ∧ n1.(nextChan) = S n.(nextChan)) as (Hl & Hs & Hx) by done.
  clearbody n1. rewrite <- (advance_log n1) in Hl. rewrite <- (advance_snapshot n1) in Hs.
  rewrite <- (advance_nextChan n1) in Hx.
  generalize dependent (advanceCommitLocked n1). intros n2 Hl Hs Hx [= Hw Hi <-]. subst. done.
Qed.

Section steps.
Context (ok : nat → applyOutcome → Prop) (lo : nat).
Hypothesis ok_error : ∀ w err, stop_error err → ok w (mkOutcome zeroApplyResult (Some err)).

Definition is_propose (op : nop) : bool := match op with DoPropose _ _ => true | _ => false end.

Lemma other_step op n :
  is_background op = true → is_propose op = false → wstep ok lo n (nrun op n).
Proof.
  intros Hb Hp. destruct op; try discriminate Hb; try discriminate Hp; cbn [nrun]; try by apply quiet_step.
  - by apply Stop_step.
  - by apply HandleAppendEntries_step.
  - by apply install_recv_step.
  - by apply Propose_select_step.
  - apply quiet_step; unfold acquirePeerReplication_poll; (destruct ctx; [done|]);
      (case_decide; [done|]); by destruct (map_bool _ _).
  - apply quiet_step; unfold replicateAllOnce_begin; (destruct (stopped n); [done|]); by case_decide.
  - apply quiet_step; unfold replicateToPeer_prepare; (case_decide; [done|]);
      destruct (decide (map_N _ _ = 0%N)); case_decide; try done; by destruct (termAtLocked _ _).
  - apply quiet_step; unfold replicateToPeer_snapshotDone; by case_decide.
  - by apply replicate_response_step.
  - unfold sendSnapshot_check. case_decide; [by apply stepDown_step|]. by case_decide.
  - by apply startElection_step.
  - by apply HandleRequestVote_step.
  - by apply becomeLeader_step.
  - by apply stepDown_step.
Qed.

Lemma background_waiters op n :
  is_background op = true → wbase ok lo n → lead n →
  wbase ok lo (nrun op n) ∧ lead (nrun op n) ∧
  ∀ i w, waits (nrun op n) i w → waits n i w ∨ w = n.(nextChan).
Proof.
  intros Hb Hn Hl.
  destruct (is_propose op) eqn:Hop.
  - destruct op as [| | | | |ctx c| | | | | | | | | | | | | | | | |]; try discriminate Hop. cbn [nrun].
    destruct (Propose_start_step ok lo ok_error ctx c n Hn Hl) as (? & ? & Hw). split_and!; [done..|].
    intros i w [?|Hr]%Hw; [by left|right]. destruct (Propose_start ctx c n) as [r n'] eqn:E.
    cbn in Hr. subst r. by apply Propose_start_entry in E as (? & _).
  - destruct (other_step op n Hb Hop Hn Hl) as (? & ? & ?). auto.
Qed.

(** *** One proposal followed along a run

    Waiter [w] waits at index [i] only, and there for entry [e], unless a
    snapshot has covered the index. *)
Definition tracks (w : nat) (i : N) (e : LogEntry) n : Prop :=
  (∀ j, waits n j w → j = i) ∧
  (waits n i w → entryAtLocked n i = Some e ∨ (i ≤ n.(snapshot).(LastIncludedIndex))%N).

Definition wsys (w : nat) (i : N) (e : LogEntry) n : Prop :=
  wbase ok lo n ∧ lead n ∧ (w < lo → tracks w i e n).

Lemma tracks_core w i e n n' :
  (∀ j, waits n' j w → waits n j w) → core n' = core n → tracks w i e n → tracks w i e n'.
Proof.
  intros Hs (Hsn & Hl & _)%core_fields [Hj He]. split; [auto|].
  intros Hw%Hs%He. unfold entryAtLocked in *. by rewrite Hsn, Hl.
Qed.

Lemma wsys_core w i e n n' : wstep ok lo n n' → core n' = core n → wsys w i e n → wsys w i e n'.
Proof.
  intros Hst Hc (Hn & Hl & Ht). destruct (Hst Hn Hl) as (? & ? & Hs).
  do 2 (split; [done|]). intros. apply (tracks_core w i e n n'); auto.
Qed.

Lemma wsys_background w i e op n :
  (i < two64)%N → is_background op = true → op_ok op n → node_wf n →
  wsys w i e n → wsys w i e (nrun op n).
Proof.
  intros Hi Hb Hok Hwf (Hn & Hl & Ht).
  destruct (background_waiters op n Hb Hn Hl) as (Hn' & Hl' & Hs).
  do 2 (split; [done|]). intros Hlo. destruct (Ht Hlo) as [Hj He].
  assert (∀ j, waits (nrun op n) j w → waits n j w) as Hsub.
  { intros j [?| ->]%Hs; [done|]. pose proof (wb_lo _ _ _ Hn). lia. }
  split; [auto|]. intros Hw.
  assert (evolves n (nrun op n)) as Hev by (apply evolves_quiet; [by destruct op|done..]).
  rewrite (ev_snapshot _ _ Hev). destruct (He (Hsub _ Hw)) as [Hen|?]; [left|by right].
  assert ((i ≤ n.(commitIndex))%N ∨ n.(log) `prefix_of` (nrun op n).(log)) as [Hle|Hpre].
  { assert ((∃ req, op = DoAppendEntries req) ∨ ∀ req, op ≠ DoAppendEntries req) as [[req ->]|Hne]
      by (destruct op; eauto).
    - destruct (HandleAppendEntries_step ok lo ok_error req n) as [_ Hc].
      destruct (Hc Hn Hl i w Hw) as [?|?%core_prefix]; auto.
    - right. by apply append_only. }
  - by rewrite (ev_entries _ _ Hev).
  - eapply entry_kept; [done|apply Hev|apply Hev|done..].
Qed.

Lemma wsys_install w i e req body n :
  op_ok (DoInstallFinal req body) n → node_wf n →
  wsys w i e n → wsys w i e (nrun (DoInstallFinal req body) n).
Proof.
  intros Hok Hwf Hs. pose proof (install_final_step ok lo ok_error req body n) as Hst.
  destruct (install_cases req body n Hwf Hok) as [Hc|Hin]; [by eapply wsys_core|].
  destruct Hs as (Hn & Hl & Ht). destruct (Hst Hn Hl) as (Hn' & Hl' & Hsub). destruct Hin.
  do 2 (split; [done|]). intros Hlo. destruct (Ht Hlo) as [Hj He]. split; [auto|]. intros Hw. right.
  destruct (Hl' i w Hw) as [?|?]; [by rewrite <- ins_commit|cbn [nrun] in *; congruence].
Qed.

Lemma wsys_compact w i e sn n :
  (i < two64)%N → node_wf n → wsys w i e n → wsys w i e (persistSnapshot_finish sn n).
Proof.
  intros Hi Hwf Hs. unfold persistSnapshot_finish. case_decide as Hst; [done|].
  destruct (ReplaceEntries _ _) as [[err|] st]; [apply (wsys_core w i e n); [by apply quiet_step|done|done]|].
  destruct Hs as (Hn & Hl & Ht). set (n' := with_log _ _).
  destruct (quiet_step ok lo n n' eq_refl eq_refl eq_refl Hn Hl) as (? & ? & Hsub).
  do 2 (split; [done|]). intros Hlo. destruct (Ht Hlo) as [Hj He]. split; [auto|]. intros Hw. destruct (He (Hsub _ _ Hw)) as [Hen|Hle].
  - destruct (decide (i ≤ sn.(LastIncludedIndex))%N); [by right|left]. rewrite <- Hen.
    unfold persistSnapshot_stale in Hst. pose proof Hwf as []. unfold lastIndexLocked, entryAtLocked in *.
    cbn. apply (entryAt_compact n.(snapshot)); [done|lia|lia].
  - right. cbn. unfold persistSnapshot_stale in Hst. lia.
Qed.

Lemma wsys_step w i e n pc n' pc' :
  (i < two64)%N → sys_inv (n, pc) → sstep (n, pc) (n', pc') →
  (∀ e' r v, pc = AApplied e' r → waits n e'.(Index) v → ok v (mkOutcome r None)) →
  wsys w i e n → wsys w i e n'.
Proof.
  intros Hi [Hwf Hinv] Hst Hok Hs.
  inversion Hst as [? ? op Hb Hop|? ? req body Hpc Hop| |? e'|? e' r|? sn|? sn|? sn]; subst.
  - by apply wsys_background.
  - by apply wsys_install.
  - by destruct (applyReady_next_wf n Hwf) as (-> & _ & _).
  - unfold applyReady_apply in *. destruct (Apply _ _) as [r s]. cbn in *. destruct Hs as (Hn & Hl & Ht).
    destruct (quiet_step ok lo n (with_sm s n) eq_refl eq_refl eq_refl Hn Hl) as (? & ? & ?). done.
  - destruct Hinv as (_ & _ & He' & Hc).
    destruct (finish_records n e' r Hwf He' Hc) as (_ & Hcore & _ & _).
    destruct Hs as (Hn & Hl & Ht).
    destruct (finish_step ok lo e' r n (λ v, Hok e' r v eq_refl) Hn Hl) as (? & ? & Hsub).
    unfold core in Hcore. injection Hcore as Hsn Hlog _ _ _. do 2 (split; [done|]). intros Hlo. destruct (Ht Hlo) as [Hj He]. split; [auto|].
    intros Hw. unfold entryAtLocked in *. rewrite Hsn, Hlog. auto.
  - done.
  - eapply wsys_core; [apply quiet_step| |done]; unfold persistSnapshot_save; by destruct (SaveSnapshot _ _) as [[]].
  - by apply wsys_compact.
Qed.

End steps.
(** ** From the start of the node *)

Lemma NewNode_waiters cfg st s rng0 now0 n :
  NewNode cfg st s rng0 now0 = inl n → n.(waiters) = ∅ ∧ n.(chans) = ∅.
Proof.
  unfold NewNode. case_decide; [done|]. destruct (validateConfig _); [done|].
  destruct (Load st) as [[[[hs entries] snap]|] st']; [|done]. destruct (replayLoop _ _ _ _) as [a s'].
  set (n0 := resetElectionLocked _). assert (n0.(waiters) = ∅ ∧ n0.(chans) = ∅) as [Hw Hc] by done.
  clearbody n0. case_decide; [|by intros [= <-]]. unfold persistHardStateLocked.
  destruct (saveHardStateLocked _ n0) as [[e|] n1] eqn:E; [done|]. intros [= <-].
  apply save_wcore in E as ([= -> -> _] & _ & _). done.
Qed.

Context `{!StateMachineLaws SM}.

Lemma wsys_steps (ok : nat → applyOutcome → Prop) lo w i e x y :
  (∀ v err, stop_error err → ok v (mkOutcome zeroApplyResult (Some err))) →
  (i < two64)%N → sys_inv x → rtc sstep x y →
  (∀ n e' r v, rtc sstep x (n, AApplied e' r) → wsys ok lo w i e n → waits n e'.(Index) v →
     ok v (mkOutcome r None)) →
  wsys ok lo w i e x.1 → wsys ok lo w i e y.1.
Proof.
  intros Herr Hi Hinv Hs Hok Hx. revert y Hs. apply (rtc_ind_r (λ y, wsys ok lo w i e y.1) x); [done|].
  intros [n pc] [n' pc'] Hxn Hst IH.
  eapply (wsys_step ok lo Herr w i e n pc n' pc'); [done| |done| |done].
  - by eapply sys_inv_steps.
  - intros e' r v -> Hv. by eapply Hok.
Qed.

Lemma reachable_waiters n pc : sys_reachable (n, pc) → wbase (λ _ _, True) 0 n ∧ lead n.
Proof.
  intros (cfg & st & s & rng0 & now0 & n0 & Hcs & Hn & Hs).
  assert (sys_inv (n0, AIdle)) as Hinv by (by eapply NewNode_inv).
  apply NewNode_waiters in Hn as [Hw Hc].
  destruct (wsys_steps (λ _ _, True) 0 0 0 zeroLogEntry _ _ (λ _ _ _, I) ltac:(done) Hinv Hs) as (? & ? & _); [done| |done].
  split_and!; [split|..]; cbn.
  - rewrite Hw, Hc. split; [by intros|done|done].
  - rewrite Hc. by intros.
  - lia.
  - intros i w (l & Hl & _). by rewrite Hw in Hl.
  - lia.
Qed.

(** What the channel of a proposal of command [c] at index [i] may carry: a
    stop error, or the result of applying [c] right after the entries below
    [i] in a run that starts in [s0]. *)
Inductive good_outcome (s0 : Node * apply_pc) (c : Command) (i : N) : applyOutcome → Prop :=
  | go_error err : stop_error err → good_outcome s0 c i (mkOutcome zeroApplyResult (Some err))
  | go_result n e r :
      rtc sstep s0 (n, AApplied e r) → e.(EntryCommand) = c → i = (n.(lastApplied) + 1)%N →
      entryAtLocked n i = Some e → (i ≤ n.(commitIndex))%N →
      r = (Apply c (replayed n n.(lastApplied))).1 → good_outcome s0 c i (mkOutcome r None).

(** The state right after a proposal is tracked. *)
Lemma propose_tracked s0 ctx c n pc w i n' :
  sys_reachable (n, pc) → op_ok (DoPropose ctx c) n → Propose_start ctx c n = (inl (w, i), n') →
  sstep (n, pc) (n', pc) ∧ (i < two64)%N ∧
  wsys (λ v o, v = w → good_outcome s0 c i o) (S w) w i (mkLogEntry i n.(currentTerm) c) n'.
Proof.
  intros Hr Hok Hp. destruct (reachable_waiters _ _ Hr) as [[Hreg Hch _] Hl].
  assert (n' = nrun (DoPropose ctx c) n) as Hn' by (cbn [nrun]; by rewrite Hp).
  assert (sstep (n, pc) (n', pc)) as Hst by (rewrite Hn'; by apply ss_background).
  apply sys_reachable_inv in Hr as [Hwf Hinv]. split; [done|].
  pose proof Hp as (Hw & Hi & Hlog & Hsn & Hx)%Propose_start_entry. rewrite uadd_small in Hi by (pose proof (nw_max _ Hwf); lia).
  split; [pose proof (nw_max _ Hwf); lia|].
  assert (wbase (λ v o, v = w → good_outcome s0 c i o) 0 n) as Hn.
  { split; [done| |lia]. intros v cv Hv. destruct (Hch _ _ Hv) as (? & ? & _). split_and!; [done..|]. intros; lia. }
  assert (∀ (v : nat) err, stop_error err → v = w → good_outcome s0 c i (mkOutcome zeroApplyResult (Some err))) as Herr.
  { intros. by constructor. }
  destruct (Propose_start_step _ 0 Herr ctx c n Hn Hl) as (Hb' & Hl' & Hw'). rewrite Hp in Hb', Hl', Hw'. cbn in Hb', Hl', Hw'.
  assert (∀ j, waits n j w → False) as Hfresh.
  { intros j (l & Hj & Hin). destruct (Hch w newChan) as [? _]; [by eapply reg_new|lia]. }
  assert (node_wf n') as Hwf'.
  { rewrite Hn'. apply (ev_wf n). by apply evolves_quiet. }
  split; [|split; [done|]].
  - destruct Hb' as [Hreg' Hch' _]. split; [done..|lia].
  - intros _. split.
    + intros j Hj. destruct (Hw' j w Hj) as [?|[= <-]]; [exfalso; eauto|done].
    + intros _. left. pose proof Hwf as []. unfold entryAtLocked, lastIndexLocked in *.
      rewrite (lastIndex_wf _ _ nw_log) in *. rewrite Hsn, Hlog.
      rewrite entryAt_wf; [|by rewrite <- Hsn, <- Hlog; apply Hwf'|unfold len in *; lia].
      unfold len in Hi. replace (N.to_nat _) with (length n.(log)) by lia. by rewrite list_lookup_middle.
Qed.

Lemma sys_reachable_steps x y : sys_reachable x → rtc sstep x y → sys_reachable y.
Proof.
  intros (cfg & st & s & rng0 & now0 & n0 & ? & ? & ?) Hs. exists cfg, st, s, rng0, now0, n0.
  split_and!; [done..|]. by etrans.
Qed.

Lemma proposal_steps ctx c n pc w i n1 n2 pc2 :
  sys_reachable (n, pc) → op_ok (DoPropose ctx c) n → Propose_start ctx c n = (inl (w, i), n1) →
  rtc sstep (n1, pc) (n2, pc2) → wbase (λ v o, v = w → good_outcome (n1, pc) c i o) (S w) n2.
Proof.
  intros Hr Hok Hp Hs. destruct (propose_tracked (n1, pc) _ _ _ _ _ _ _ Hr Hok Hp) as (Hst & Hi & Hw).
  assert (sys_reachable (n1, pc)) as Hr1 by (eapply sys_reachable_steps; [done|by apply rtc_once]).
  refine (proj1 (wsys_steps _ _ w i _ _ _ _ Hi (sys_reachable_inv _ Hr1) Hs _ Hw)).
  - intros. by constructor.
  - intros m e' r v Hm (_ & _ & Ht) Hv ->. destruct (Ht ltac:(lia)) as [Hj He].
    assert (sys_reachable (m, AApplied e' r)) as Hrm by (by eapply sys_reachable_steps).
    pose proof (sys_reachable_inv _ Hrm) as (Hwf & _ & Hres & Hat & Hc).
    assert (e'.(Index) = m.(lastApplied) + 1)%N as Hidx by (by eapply entryAt_Index).
    pose proof (Hj _ Hv) as Hji. rewrite Hji in Hv.
    destruct (He Hv) as [Hen|Hle]; [|pose proof (nw_snap _ Hwf); lia].
    rewrite <- Hidx, Hji, Hen in Hat. injection Hat as <-.
    apply (go_result (n1, pc) c i m (mkLogEntry i n.(currentTerm) c)); try done; lia.
Qed.

End proposals.

(** ** Properties *)

(** C12. What a proposer is told is true.  After [Propose] has appended a
    command at index [i], and whatever else the node does from then on, the
    proposal's channel only ever carries a not-leader or node-stopped error,
    or the result of the state machine on that very command, applied in this
    run at index [i], committed, right after the entries below it.  Nothing is ever sent
    on a closed or full channel, and no channel is closed twice, so no sender
    panics or blocks while it holds the lock. *)
Theorem proposal_outcome {SM St : Type} `{StateMachine SM} `{Store St} `{RandSource} `{MapCodec}
    `{!StateMachineLaws SM} ctx c (n : Node SM St) pc w i n1 n2 pc2 :
  sys_reachable (n, pc) → op_ok (DoPropose ctx c) n → Propose_start ctx c n = (inl (w, i), n1) →
  rtc sstep (n1, pc) (n2, pc2) →
  (∀ v ch, n2.(chans) !! v = Some ch → ch.(misuse) = false) ∧
  (∀ ch o, n2.(chans) !! w = Some ch → o ∈ ch.(buf) → good_outcome (n1, pc) c i o).
Proof.
  intros Hr Hok Hp Hs. destruct (proposal_steps _ _ _ _ _ _ _ _ _ Hr Hok Hp Hs) as [_ Hch _]. split.
  - intros v ch Hv. by apply (Hch v ch Hv).
  - intros ch o Hw Ho. by apply (Hch w ch Hw).
Qed.

(** The run of [ApplySys]: the write of ["x"] at index 2 gets its result. *)
Lemma proposal_outcome_witness :
  ∃ n n1 n2, after (take 2 run1) = Some (n, AIdle) ∧
    Propose_start None (put "x" "1") n = (inl (0, 2%N), n1) ∧
    srun (drop 3 run1 ++ [SApply; SApply; SApply]) (n1, AIdle) = Some (n2, AIdle) ∧
    n2.(chans) !! 0 = Some (answered (mkOutcome (mkApplyResult true true "1" false "") None)) ∧
    good_outcome (n1, AIdle) (put "x" "1") 2
      (mkOutcome (mkApplyResult true true "1" false "") None).
Proof.
  set (res := mkOutcome _ _).
  assert (match after (take 2 run1) with
    | Some (n, AIdle) =>
        match Propose_start None (put "x" "1") n with
        | (inl (0, 2%N), n1) =>
            match srun (drop 3 run1 ++ [SApply; SApply; SApply]) (n1, AIdle) with
            | Some (n2, AIdle) => (N.ltb (lastIndexLocked n) (two64 - 2), n2.(chans) !! 0)
            | _ => (false, None) end
        | _ => (false, None) end
    | _ => (false, None) end = (true, Some (answered res))) as Hv by (vm_compute; reflexivity).
  destruct (after (take 2 run1)) as [[n [|?|? ?|?|?|?]]|] eqn:E; try discriminate Hv.
  destruct (Propose_start None (put "x" "1") n) as [[[[|w] [|[p|[p|p|]|]]]|?] n1] eqn:Ep; try discriminate Hv.
  destruct (srun _ (n1, AIdle)) as [[n2 [|?|? ?|?|?|?]]|] eqn:Es; try discriminate Hv.
  injection Hv as Hok%N.ltb_lt Hc. exists n, n1, n2. split_and!; [reflexivity|exact Ep|exact Es|exact Hc|].
  apply (proposal_outcome None (put "x" "1") n AIdle 0 2%N n1 n2 AIdle
           (after_reachable _ _ E) Hok Ep (srun_steps _ _ _ Es)) with (ch := answered res); [exact Hc|left].
Defined.
