(* ===== verification/Transfer.v ===== *)
(** * Sending a snapshot to a follower

    [sendSnapshot] of the leader against [HandleInstallSnapshot] of the
    follower: over a network that answers every call, the chunks reassemble
    the body and the follower installs exactly the leader's snapshot,
    whatever part of the same transfer it had received before. *)

From S2P Require Import Prelude Types StateMachine StoreIntf RaftLog NodeState Node Replication NodeStep NodeInv ApplySys TestEnv.

(** The states of a store in which the writes a snapshot installation makes
    succeed. *)
Class ReliableStore (St : Type) `{Store St} := {
  reliable : St → Prop;
  reliable_hs : ∀ hs s, reliable s → ∃ s', SaveHardState hs s = (None, s') ∧ reliable s';
  reliable_log : ∀ es s, reliable s → ∃ s', ReplaceEntries es s = (None, s') ∧ reliable s';
  reliable_snap : ∀ sn s, reliable s → ∃ s', SaveSnapshot sn s = (None, s') ∧ reliable s' }.

#[global, program] Instance Mem_reliable : ReliableStore Mem.MemStore :=
  {| reliable s := s.(Mem.m_faults) = [] |}.
Solve All Obligations with
  (intros ? [] ?; cbn in *; subst; by eexists).

Section transfer.
Context {SM St : Type} `{StateMachine SM} `{Store St} `{RandSource} `{MapCodec}
  `{!MapCodecLaws} `{!ReliableStore St}.
#[local] Abbreviation Node := (Node SM St).
Implicit Types n f l : Node.

(** One transfer: who sends what. *)
Context (leader : string) (term lastIdx lastT : N) (body : list Byte.byte).

(** A follower that takes the chunks of the transfer. *)
Record receptive f : Prop := {
  rc_enabled : ¬ disabled f;
  rc_known : isKnownRemotePeerLocked f leader = true;
  rc_term : (f.(currentTerm) ≤ term)%N;
  rc_behind : (f.(commitIndex) < lastIdx)%N;
  rc_applied : (f.(lastApplied) ≤ f.(commitIndex))%N;
  rc_store : reliable f.(store) }.

Lemma save_reliable commit n : reliable n.(store) →
  ∃ st, saveHardStateLocked commit n = (None, with_store st n) ∧ reliable st.
Proof.
  intros Hr. unfold saveHardStateLocked.
  destruct (reliable_hs (mkHardState n.(currentTerm) n.(votedFor) commit) _ Hr) as (st & -> & ?). eauto.
Qed.

Definition of_transfer (req : InstallSnapshotRequest) : Prop :=
  req.(is_Term) = term ∧ req.(is_LeaderID) = leader ∧
  req.(is_LastIncludedIndex) = lastIdx ∧ req.(is_LastIncludedTerm) = lastT.

(** What the guards change in a receptive follower. *)
Record admitted f f' : Prop := {
  ad_receptive : receptive f';
  ad_term : f'.(currentTerm) = term;
  ad_pending : f'.(pendingSnapshot) = f.(pendingSnapshot);
  ad_core : core f' = core f }.

Lemma becomeFollower_reliable leader' b f :
  receptive f → (f.(currentTerm) < term)%N ∨ f.(currentTerm) = term →
  ∃ f', becomeFollowerWithTimerLocked term leader' b f = (None, f') ∧ admitted f f' ∧ f'.(role) = Follower.
Proof.
  intros [Hd Hk Ht Hb Ha Hs] Hterm. unfold becomeFollowerWithTimerLocked.
  set (f1 := if b then _ else _). unfold persistHardStateLocked.
  assert (f1.(store) = f.(store) ∧ f1.(currentTerm) = term ∧ f1.(role) = Follower ∧
          f1.(pendingSnapshot) = f.(pendingSnapshot) ∧ core f1 = core f ∧ f1.(params) = f.(params) ∧
          f1.(stopped) = f.(stopped) ∧ f1.(storageFatal) = f.(storageFatal)) as (Hst & Htm & Hr & Hp & Hc & Hpa & Hso & Hsf).
  { subst f1. destruct b, (decide (currentTerm f < term)%N); split_and!; try done; cbn; lia. }
  clearbody f1. destruct (save_reliable f1.(commitIndex) f1) as (st & -> & Hst'); [by rewrite Hst|].
  set (f2 := with_store st f1).
  assert (admitted f f2 ∧ f2.(role) = Follower) as [Had Hr2].
  { subst f2. pose proof (core_fields _ _ Hc) as (_ & _ & Hci & Hla & _). split; [|done].
    split; cbn; [|done..]. unfold disabled in Hd.
    split; unfold disabled, isKnownRemotePeerLocked in *; cbn; by rewrite ?Hpa, ?Hso, ?Hsf, ?Hci, ?Hla, ?Htm. }
  clearbody f2. exists (if decide (role f = Leader) then broadcast (failUncommittedWaitersLocked f2) else f2).
  split; [done|]. case_decide; [|done]. destruct Had as [[]]. split; [|done]. split; [split|..]; done.
Qed.

Lemma isGuards_admits req f :
  of_transfer req → receptive f → ∃ f', isGuards req f = (inr tt, f') ∧ admitted f f'.
Proof.
  intros (Ht & Hl & Hi & _) Hr. pose proof Hr as []. unfold isGuards. rewrite Ht, Hl, Hi.
  rewrite decide_False by done. rewrite decide_False by (by rewrite rc_known0). rewrite decide_False by lia.
  assert (∃ f1, (if decide ((f.(currentTerm) < term)%N ∨ f.(role) ≠ Follower)
                 then becomeFollowerLocked term leader f else (None, f)) = (None, f1) ∧ admitted f f1) as (f1 & -> & Ha).
  { case_decide as Hd.
    - destruct (becomeFollower_reliable leader true f Hr) as (f1 & ? & ? & _); [lia|eauto].
    - exists f. split; [done|]. split; [done| |done..]. lia. }
  destruct Ha as [[] Hterm Hpend Hcore]. cbn [commitIndex]. rewrite decide_False by (cbn; lia).
  eexists. split; [done|]. split; [split|..]; done.
Qed.

Lemma of_transfer_request chunk offset :
  of_transfer (snapshotRequest leader term lastIdx lastT body chunk offset).
Proof. done. Qed.

(** *** The buffer of the transfer *)

Definition progress (k : N) : snapshotProgress := mkProgress leader lastIdx lastT (take (N.to_nat k) body).

(** What the follower has of the transfer: nothing yet, or a prefix. *)
Definition holds_prefix f (k : N) : Prop := f.(pendingSnapshot) = Some (progress k).
Definition holds_nothing f : Prop :=
  match f.(pendingSnapshot) with
  | None => True
  | Some p => ¬ (p.(sp_leaderID) = leader ∧ p.(sp_lastIncludedIndex) = lastIdx ∧ p.(sp_lastIncludedTerm) = lastT)
  end.

Context (chunk : Z).
Hypothesis chunk_pos : (0 < chunk)%Z.
Hypothesis body_bound : (len body + Z.to_N chunk < two64)%N.

#[local] Abbreviation request k := (snapshotRequest leader term lastIdx lastT body chunk k).
#[local] Abbreviation next k := (chunkEnd (len body) k chunk).

Lemma len_progress k : (k ≤ len body)%N → len (sp_buffer (progress k)) = k.
Proof. intros. unfold len in *. cbn. rewrite length_take. lia. Qed.

Lemma chunkEnd_eq k : (k ≤ len body)%N → next k = N.min (len body) (k + Z.to_N chunk).
Proof. intros. unfold chunkEnd. usimp. case_decide; lia. Qed.

Lemma progress_next k : (k ≤ len body)%N →
  sp_buffer (progress k) ++ (request k).(is_Data) = sp_buffer (progress (next k)).
Proof.
  intros Hk. pose proof (chunkEnd_eq k Hk) as Hn. cbn. unfold slice.
  rewrite <- (take_drop (N.to_nat k) (take (N.to_nat (next k)) body)).
  rewrite take_take, Nat.min_l by lia. f_equal.
  replace (N.to_nat (next k)) with (N.to_nat k + N.to_nat (next k - k))%nat by lia.
  apply take_drop_commute.
Qed.

(** A chunk at the offset the follower expects. *)
Lemma isChunk_next k f :
  (k ≤ len body)%N → f.(currentTerm) = term →
  isChunk (request k) (progress k) f =
    (if decide (next k = len body) then inr (sp_buffer (progress (next k)))
     else inl (mkInstallSnapshotResponse term true (next k)),
     with_pendingSnapshot (Some (progress (next k))) f).
Proof.
  intros Hk Ht. unfold isChunk. rewrite len_progress by done. rewrite decide_False by (cbn; tauto).
  rewrite (progress_next k Hk).
  change (mkProgress (sp_leaderID (progress k)) (sp_lastIncludedIndex (progress k))
    (sp_lastIncludedTerm (progress k)) (sp_buffer (progress (next k)))) with (progress (next k)).
  unfold snapshotRequest at 1. cbn [is_Done]. case_bool_decide as He; [by rewrite decide_True|].
  rewrite decide_False by done. cbn [currentTerm with_pendingSnapshot]. rewrite Ht.
  rewrite len_progress; [done|]. rewrite chunkEnd_eq by done. lia.
Qed.

(** The first critical section of the handler on chunk [k]. *)
Lemma recv_next k f :
  (k ≤ len body)%N → receptive f → holds_prefix f k ∨ (k = 0%N ∧ holds_nothing f) →
  ∃ f1, admitted f f1 ∧
    HandleInstallSnapshot_recv (request k) f =
      (if decide (next k = len body) then inr (sp_buffer (progress (next k)))
       else inl (mkInstallSnapshotResponse term true (next k)),
       with_pendingSnapshot (Some (progress (next k))) f1).
Proof.
  intros Hk Hr Hh. destruct (isGuards_admits (request k) f (of_transfer_request chunk k) Hr) as (f1 & Hg & Ha).
  exists f1. split; [done|]. unfold HandleInstallSnapshot_recv. rewrite Hg. destruct Ha as [_ Ht Hp _]. rewrite Hp.
  assert (take (N.to_nat 0) body = []) as H0' by done.
  destruct Hh as [Hh|[-> Hh]].
  - rewrite Hh. rewrite decide_True by done. by apply isChunk_next.
  - unfold holds_nothing in Hh.
    assert (isChunk (request 0) (progress 0) (with_pendingSnapshot (Some (progress 0)) f1) =
      (if decide (next 0 = len body) then inr (sp_buffer (progress (next 0)))
       else inl (mkInstallSnapshotResponse term true (next 0)),
       with_pendingSnapshot (Some (progress (next 0))) f1)) as Hc by (by rewrite isChunk_next).
    destruct (pendingSnapshot f) as [p|]; [rewrite decide_False by done|];
      rewrite decide_False by (cbn; tauto); exact Hc.
Qed.

(** A first chunk sent to a follower that already has a prefix. *)
Lemma recv_resume j f :
  (0 < j ≤ len body)%N → receptive f → holds_prefix f j →
  ∃ f1, admitted f f1 ∧
    HandleInstallSnapshot_recv (request 0) f = (inl (mkInstallSnapshotResponse term false j), f1).
Proof.
  intros Hj Hr Hh. destruct (isGuards_admits (request 0) f (of_transfer_request chunk 0) Hr) as (f1 & Hg & Ha).
  exists f1. split; [done|]. unfold HandleInstallSnapshot_recv. rewrite Hg. destruct Ha as [_ Ht Hp _]. rewrite Hp, Hh.
  rewrite decide_True by done. unfold isChunk. rewrite len_progress by lia.
  rewrite decide_True by (cbn; lia). by rewrite Ht.
Qed.

(** *** Installing the whole body *)

Context (data : option (gmap string string)).
Hypothesis body_data : body = marshalMap data.

(** The follower after the transfer. *)
Record has_snapshot f f' : Prop := {
  hs_snapshot : f'.(snapshot) = mkSnapshot lastIdx lastT data;
  hs_sm : f'.(sm) = Restore data f.(sm);
  hs_applied : f'.(lastApplied) = lastIdx;
  hs_commit : f'.(commitIndex) = lastIdx;
  hs_log : f'.(log) = logAfterSnapshotLocked f (mkSnapshot lastIdx lastT data);
  hs_pending : f'.(pendingSnapshot) = None }.

Lemma isInstall_reliable req f :
  of_transfer req → receptive f → f.(currentTerm) = term →
  ∃ f', isInstall req data (len body) f = (mkInstallSnapshotResponse term true (len body), f') ∧ has_snapshot f f'.
Proof.
  intros (_ & _ & Hi & Ht) [] Hterm. unfold isInstall. rewrite Hi, Ht. cbn [LastIncludedIndex].
  rewrite decide_True by done.
  set (sn := mkSnapshot lastIdx lastT data).
  destruct (reliable_snap sn f.(store) rc_store0) as (st1 & -> & Hst1). cbn [store with_store].
  destruct (reliable_log (logAfterSnapshotLocked f sn) st1 Hst1) as (st2 & -> & Hst2).
  destruct (save_reliable lastIdx (with_store st2 (with_store st1 f)) Hst2) as (st3 & -> & Hst3).
  cbn [lastApplied with_commitIndex with_log with_snapshot with_store].
  rewrite (decide_True (P:=(lastApplied f < lastIdx)%N)) by lia.
  eexists. split; [by cbn; rewrite Hterm|]. by split.
Qed.

Lemma final_installs req f :
  of_transfer req → receptive f → holds_prefix f (len body) →
  ∃ f', HandleInstallSnapshot_final req (sp_buffer (progress (len body))) f =
          (mkInstallSnapshotResponse term true (len body), f') ∧ has_snapshot f f'.
Proof.
  intros Hq Hr Hh. unfold HandleInstallSnapshot_final.
  assert (sp_buffer (progress (len body)) = body) as Hb.
  { cbn. unfold len. by rewrite Nat2N.id, firstn_all. }
  rewrite Hb. replace (match body with [] => _ | _ => _ end) with (Some data).
  2: { rewrite body_data. pose proof (marshal_nonempty data). rewrite unmarshal_marshal. by destruct (marshalMap data). }
  destruct (isGuards_admits req f Hq Hr) as (f1 & -> & [Hr1 Ht Hp Hc]). rewrite Hp, Hh.
  rewrite decide_True; [|split; [|by rewrite Hb]].
  2: { destruct Hq as (_ & Hl & Hi & HT). split_and!; by cbn. }
  destruct (isInstall_reliable req f1 Hq Hr1 Ht) as (f' & -> & []). exists f'. split; [done|].
  apply core_fields in Hc as (Hs & Hlog & _ & _ & Hsm).
  split; try done; [by rewrite <- Hsm|]. unfold logAfterSnapshotLocked in *. by rewrite hs_log0, Hs, Hlog.
Qed.

(** *** The loop of the sender *)

(** The transport: the follower handles the request, nothing else runs. *)
Definition direct (req : InstallSnapshotRequest) (w : Node * Node) : option InstallSnapshotResponse * (Node * Node) :=
  let '(resp, f) := HandleInstallSnapshot Datatypes.id req w.2 in (Some resp, (w.1, f)).

Definition sending l : Prop := l.(role) = Leader ∧ l.(currentTerm) = term ∧ l.(params).(id) = leader.

Lemma check_passes resp l : sending l → resp.(isr_Term) = term → sendSnapshot_check term resp l = (true, l).
Proof.
  intros (Hr & Ht & _) Hresp. unfold sendSnapshot_check. rewrite Hresp, Ht, Hr.
  by rewrite decide_False, decide_False by (lia || naive_solver).
Qed.

Lemma has_snapshot_core f g f' : core g = core f → has_snapshot g f' → has_snapshot f f'.
Proof.
  intros (Hs & Hl & _ & _ & Hsm)%core_fields [].
  split; try done; [by rewrite <- Hsm|]. unfold logAfterSnapshotLocked in *. by rewrite hs_log0, Hs, Hl.
Qed.

Lemma receptive_pending p f : receptive f → receptive (with_pendingSnapshot p f).
Proof. intros []. by split. Qed.

(** One call of the handler with the chunk it expects. *)
Lemma handle_next k f :
  (k ≤ len body)%N → receptive f → holds_prefix f k ∨ (k = 0%N ∧ holds_nothing f) →
  ∃ f', HandleInstallSnapshot Datatypes.id (request k) f = (mkInstallSnapshotResponse term true (next k), f') ∧
    (next k = len body → has_snapshot f f') ∧
    (next k ≠ len body → receptive f' ∧ holds_prefix f' (next k) ∧ core f' = core f).
Proof.
  intros Hk Hr Hh. destruct (recv_next k f Hk Hr Hh) as (f1 & [Hr1 Ht Hp Hc] & He).
  unfold HandleInstallSnapshot. rewrite He. set (f2 := with_pendingSnapshot _ f1).
  assert (receptive f2 ∧ holds_prefix f2 (next k) ∧ core f2 = core f) as (Hr2 & Hh2 & Hc2).
  { split_and!; [by apply receptive_pending|done|done]. }
  clearbody f2. case_decide as Hd; [|by exists f2]. cbn [Datatypes.id]. rewrite Hd in *.
  destruct (final_installs (request k) f2 (of_transfer_request chunk k) Hr2 Hh2) as (f' & -> & Hf').
  exists f'. split_and!; [done| |done]. intros _. by eapply has_snapshot_core.
Qed.

Lemma loop_installs fuel : ∀ k l f,
  (k ≤ len body)%N → N.to_nat (len body - k) < fuel → sending l → receptive f →
  holds_prefix f k ∨ (k = 0%N ∧ holds_nothing f) →
  ∃ f', sendSnapshotLoop direct fuel (λ _, false) term lastIdx lastT body chunk k (l, f) = (Some true, (l, f')) ∧
    has_snapshot f f'.
Proof.
  induction fuel as [|fuel IH]; intros k l f Hk Hf Hl Hr Hh; [lia|]. cbn [sendSnapshotLoop fst].
  pose proof Hl as (_ & _ & ->). unfold direct at 1. cbn [fst snd].
  destruct (handle_next k f Hk Hr Hh) as (f' & -> & Hdone & Hmore).
  rewrite check_passes by done. unfold sendSnapshot_next. cbn [isr_Success]. rewrite decide_False by done.
  case_bool_decide as He; [exists f'; auto|]. destruct (Hmore He) as (Hr' & Hh' & Hc').
  pose proof (chunkEnd_eq k Hk) as Hn.
  destruct (IH (next k) l f') as (f2 & -> & Hf2); [lia|lia|done|done|by left|].
  exists f2. split; [done|]. by eapply has_snapshot_core.
Qed.

(** The whole loop, from whatever prefix the follower holds. *)
Lemma transfer_installs fuel l f j :
  (j ≤ len body)%N → S (length body) < fuel → sending l → receptive f →
  holds_prefix f j ∨ holds_nothing f →
  ∃ f', sendSnapshotLoop direct fuel (λ _, false) term lastIdx lastT body chunk 0 (l, f) = (Some true, (l, f')) ∧
    has_snapshot f f'.
Proof.
  intros Hj Hf Hl Hr Hh.
  destruct (decide (j = 0%N)) as [->|Hne].
  { apply loop_installs; [lia|unfold len; lia|done|done|]. destruct Hh; [by left|by right]. }
  destruct Hh as [Hh|Hh]; [|apply loop_installs; [lia|unfold len; lia|done|done|by right]].
  destruct fuel as [|fuel]; [lia|]. cbn [sendSnapshotLoop fst].
  pose proof Hl as (_ & _ & ->). unfold direct at 1. cbn [fst snd]. unfold HandleInstallSnapshot.
  destruct (recv_resume j f ltac:(lia) Hr Hh) as (f1 & [Hr1 Ht Hp Hc] & ->).
  rewrite check_passes by done. unfold sendSnapshot_next. cbn [isr_Success isr_BytesReceived].
  rewrite decide_True by done. rewrite decide_False by lia. rewrite decide_False by lia.
  destruct (loop_installs fuel j l f1) as (f2 & -> & Hf2); [done|unfold len; lia|done|done| |].
  { left. unfold holds_prefix in *. by rewrite Hp. }
  exists f2. split; [done|]. by eapply has_snapshot_core.
Qed.

End transfer.

(** ** Properties *)

(** C18. Snapshot transfer.  A leader that sends its snapshot in chunks to a
    follower which answers every call (and whose store accepts the writes)
    succeeds within one call per byte plus two, and the follower then has
    exactly that snapshot installed: same index, term and data, its state
    machine restored from the data, [commitIndex] and [lastApplied] at the
    snapshot, the part of its log that the snapshot does not cover kept when
    it agrees with it.  The follower may have kept any part of the same
    transfer from an earlier attempt, or of another transfer, before. *)
Theorem snapshot_transfer {SM St : Type} `{StateMachine SM} `{Store St} `{RandSource} `{MapCodec}
    `{!MapCodecLaws} `{!ReliableStore St} (l f : Node SM St) (lastIdx lastT j : N)
    (data : option (gmap string string)) (chunk : Z) (fuel : nat) :
  let body := marshalMap data in
  let leader := l.(params).(id) in
  l.(role) = Leader → receptive leader l.(currentTerm) lastIdx f →
  (j ≤ len body)%N → holds_prefix leader lastIdx lastT body f j ∨ holds_nothing leader lastIdx lastT f →
  (len body + Z.to_N (Z.max chunk defaultSnapshotChunkBytes) < two64)%N → S (length body) < fuel →
  ∃ f', sendSnapshot direct fuel (λ _, false) l.(currentTerm) lastIdx lastT data chunk (l, f) = (Some true, (l, f')) ∧
    has_snapshot lastIdx lastT data f f'.
Proof.
  intros body leader Hrole Hr Hj Hh Hb Hf. unfold sendSnapshot.
  set (ch := if decide _ then _ else chunk).
  assert (0 < ch ∧ ch ≤ Z.max chunk defaultSnapshotChunkBytes)%Z as [Hpos Hle].
  { subst ch. unfold defaultSnapshotChunkBytes. case_decide; lia. }
  apply (transfer_installs leader _ _ _ body ch Hpos ltac:(lia) data eq_refl) with (j := j); done.
Qed.


(** *** A transfer between two nodes

    ["n1"] leads term 1 and sends a map in chunks of four bytes; ["n2"] has
    only seen the election. *)
Definition data1 : option (gmap string string) := Some {[ "x" := "1" ]}.

Lemma snapshot_transfer_witness :
  ∃ l f f', newKVNode "n1" (Mem.empty []) = inl l ∧ newKVNode "n2" (Mem.empty []) = inl f ∧
    sendSnapshot direct (length (marshalMap data1) + 2) (λ _, false) 0 7 1 data1 4 (with_role Leader l, f) =
      (Some true, (with_role Leader l, f')) ∧
    has_snapshot 7 1 data1 f f'.
Proof.
  assert (match newKVNode "n1" (Mem.empty []) with
          | inl l => (l.(params).(id), l.(currentTerm)) | inr _ => ("", 1%N) end = ("n1", 0%N)) as Hl
    by (vm_compute; reflexivity).
  assert (match newKVNode "n2" (Mem.empty []) with
          | inl f => (f.(stopped), f.(storageFatal), isKnownRemotePeerLocked f "n1", f.(currentTerm),
                      f.(commitIndex), f.(lastApplied), f.(store).(Mem.m_faults), f.(pendingSnapshot))
          | inr _ => (true, None, false, 0%N, 0%N, 0%N, [], None) end =
          (false, None, true, 0%N, 0%N, 0%N, [], None)) as Hf by (vm_compute; reflexivity).
  destruct (newKVNode "n1" (Mem.empty [])) as [l|]; [|discriminate Hl].
  destruct (newKVNode "n2" (Mem.empty [])) as [f|]; [|discriminate Hf].
  injection Hl as Hid Ht. injection Hf as Hst Hsf Hk Hft Hc Ha Hm Hp.
  assert (receptive "n1" 0 7 f) as Hr.
  { split; rewrite ?Hk, ?Hft, ?Hc, ?Ha; [|done..|exact Hm]. unfold disabled. rewrite Hst, Hsf. by intros [?|?]. }
  destruct (snapshot_transfer (with_role Leader l) f 7 1 0 data1 4 (length (marshalMap data1) + 2)) as (f' & He & Hs).
  - reflexivity.
  - cbn [params currentTerm with_role]. by rewrite Hid, Ht.
  - lia.
  - right. unfold holds_nothing. by rewrite Hp.
  - vm_compute. reflexivity.
  - lia.
  - cbn [params currentTerm with_role] in He. rewrite Ht in He. exists l, f, f'. auto.
Defined.

