(* ===== verification/Handlers.v ===== *)
(** * What each handler promises

    The contracts of the RPC handlers and of the commit rule, each on every
    outcome of the store. *)

From S2P Require Import Prelude Types StateMachine StoreIntf RaftLog NodeState Node Replication NodeStep VoteFrame NodeInv ApplySys Waiters Transfer TestEnv.

Section handlers.
Context {SM St : Type} `{StateMachine SM} `{Store St} `{RandSource} `{MapCodec}.
#[local] Abbreviation Node := (Node SM St).
Implicit Types n : Node.

Lemma termAt_same snap log log' i :
  entryAt snap log' i = entryAt snap log i → termAt snap log' i = termAt snap log i.
Proof. unfold termAt. by intros ->. Qed.

(** ** Saving the hard state *)

(** [saveHardStateLocked] changes the store and the last error only. *)
Lemma save_fields commit n e n' : saveHardStateLocked commit n = (e, n') →
  ∃ st le, n' = with_lastErr le (with_store st n) ∧
    st = (SaveHardState (mkHardState n.(currentTerm) n.(votedFor) commit) n.(store)).2 ∧
    e = (SaveHardState (mkHardState n.(currentTerm) n.(votedFor) commit) n.(store)).1.
Proof.
  unfold saveHardStateLocked. destruct (SaveHardState _ _) as [[err|] st]; intros [= <- <-].
  - by exists st, (Some err).
  - by exists st, n.(lastErr).
Qed.

(** What [becomeFollowerWithTimerLocked] leaves on success. *)
Lemma becomeFollower_fields term leader b n n' :
  becomeFollowerWithTimerLocked term leader b n = (None, n') →
  n'.(role) = Follower ∧ n'.(currentTerm) = N.max n.(currentTerm) term ∧ n'.(params) = n.(params) ∧
  n'.(votedFor) = (if decide (n.(currentTerm) < term)%N then "" else n.(votedFor)).
Proof.
  unfold becomeFollowerWithTimerLocked. set (n2 := if b then _ else _).
  assert (n2.(role) = Follower ∧ n2.(currentTerm) = N.max n.(currentTerm) term ∧ n2.(params) = n.(params) ∧
          n2.(votedFor) = (if decide (n.(currentTerm) < term)%N then "" else n.(votedFor))) as Hn2.
  { subst n2. destruct b, (decide (currentTerm n < term)%N); split_and!; try done; cbn; lia. }
  clearbody n2. unfold persistHardStateLocked. destruct (saveHardStateLocked _ n2) as [e2 n3] eqn:E.
  apply save_fields in E as (st & le & -> & _ & _). destruct e2; [done|]. intros [= <-]. by destruct (decide (role n = Leader)).
Qed.

(** ** AppendEntries *)

(** The part after the consistency check. *)
Record ae_done (req : AppendEntriesRequest) n n' : Prop := {
  ad_prev : termAtLocked n' req.(ae_PrevLogIndex) = Some req.(ae_PrevLogTerm);
  ad_entries : ∀ i e, req.(ae_Entries) !! i = Some e →
    e.(Index) = (req.(ae_PrevLogIndex) + 1 + N.of_nat i)%N ∧ termAtLocked n' e.(Index) = Some e.(Term);
  ad_commit : n'.(commitIndex) = N.max n.(commitIndex)
    (N.min req.(ae_LeaderCommit) (req.(ae_PrevLogIndex) + len req.(ae_Entries)));
  ad_same : (n'.(role), n'.(currentTerm), n'.(leaderID)) = (n.(role), n.(currentTerm), n.(leaderID)) }.

Lemma aeCommit_success req lastNew n resp n' :
  aeCommit req lastNew n = (resp, n') → resp.(aer_Success) = true →
  n'.(commitIndex) = N.max n.(commitIndex) (N.min req.(ae_LeaderCommit) lastNew) ∧
  n'.(log) = n.(log) ∧ n'.(snapshot) = n.(snapshot) ∧
  (n'.(role), n'.(currentTerm), n'.(leaderID)) = (n.(role), n.(currentTerm), n.(leaderID)).
Proof.
  unfold aeCommit. case_decide as Hc; [|intros [= <- <-] _; split_and!; try done; lia].
  unfold persistHardStateLocked. destruct (saveHardStateLocked _ _) as [e n1] eqn:E.
  apply save_fields in E as (st & le & -> & _ & _).
  destruct e; [by intros [= <- <-]|]. intros [= <- <-] _. cbn in *. split_and!; try done. lia.
Qed.

Lemma aeMerge_success req n resp n' :
  node_wf n → op_ok (DoAppendEntries req) n →
  (n.(snapshot).(LastIncludedIndex) ≤ req.(ae_PrevLogIndex))%N →
  termAtLocked n req.(ae_PrevLogIndex) = Some req.(ae_PrevLogTerm) →
  aeMerge req n = (resp, n') → resp.(aer_Success) = true → ae_done req n n'.
Proof.
  intros Hwf Hok Hlo Ht. unfold aeMerge.
  destruct (mergeEntries _ _ _ _ _) as [m log'] eqn:Em.
  destruct (evolves_merge n req m log' (with_log log' n) Hwf Hok Hlo Ht Em eq_refl) as [Hev Hmo].
  case_decide as Hci; [by intros [= <- <-]|].
  assert (conflictIndex m = 0%N) as Hz by lia. destruct (mo_terms _ _ _ _ _ _ _ Hmo Hz) as (Hln & _ & Hes).
  assert (∀ nn, nn.(log) = log' → nn.(snapshot) = n.(snapshot) → nn.(commitIndex) = n.(commitIndex) →
    (nn.(role), nn.(currentTerm), nn.(leaderID)) = (n.(role), n.(currentTerm), n.(leaderID)) →
    aeCommit req m.(lastNewIndex) nn = (resp, n') → resp.(aer_Success) = true → ae_done req n n') as Hdone.
  { intros nn Hl Hs Hc Hsame He Hr. apply aeCommit_success in He as (Hc' & Hl' & Hs' & Hsame'); [|done].
    rewrite Hl in Hl'. rewrite Hs in Hs'. rewrite Hln, Hc in Hc'. split.
    - unfold termAtLocked in *. rewrite Hs', Hl', <- Ht. apply termAt_same. by apply (mo_prev _ _ _ _ _ _ _ Hmo).
    - intros i e Hi. unfold termAtLocked. rewrite Hs', Hl'. by apply Hes.
    - done.
    - congruence. }
  destruct (changed m).
  - set (r := if replaced m then _ else _). destruct r as [[e|] st].
    + unfold aeReject. by intros [= <- <-].
    + by apply Hdone.
  - by apply Hdone.
Qed.

Lemma follow_fields (P : Prop) `{Decision P} term leader n n' :
  (n.(currentTerm) ≤ term)%N → (¬ P → n.(currentTerm) = term ∧ n.(role) = Follower) →
  (if decide P then becomeFollowerLocked term leader n else (None, n)) = (None, n') →
  n'.(role) = Follower ∧ n'.(currentTerm) = term ∧ core n' = core n.
Proof.
  intros Ht HP. case_decide as Hd; intros E.
  - pose proof (core_becomeFollower _ _ _ _ _ _ E). apply becomeFollower_fields in E as (? & ? & _).
    split_and!; [done|lia|done].
  - injection E as <-. destruct (HP Hd). done.
Qed.

(** A request that passes the guards runs the merge on a follower of the
    request's term with the same log. *)
Lemma HandleAppendEntries_cases req n :
  (∃ n1 c, HandleAppendEntries req n = (mkAppendEntriesResponse n1.(currentTerm) false (lastIndexLocked n1) c, n1) ∧
     core n1 = core n) ∨
  (∃ n0 n1, (if decide ((n.(currentTerm) < req.(ae_Term))%N ∨ n.(role) ≠ Follower)
            then becomeFollowerLocked req.(ae_Term) req.(ae_LeaderID) n else (None, n)) = (None, n0) ∧
     n1 = resetElectionLocked (with_leaderID req.(ae_LeaderID) n0) ∧
     n1.(role) = Follower ∧ n1.(currentTerm) = req.(ae_Term) ∧ core n1 = core n ∧
     (n1.(snapshot).(LastIncludedIndex) ≤ req.(ae_PrevLogIndex))%N ∧
     termAtLocked n1 req.(ae_PrevLogIndex) = Some req.(ae_PrevLogTerm) ∧
     HandleAppendEntries req n = aeMerge req n1).
Proof.
  unfold HandleAppendEntries. case_decide; [left; by exists n, 0%N|]. case_decide; [left; by exists n, 0%N|].
  case_decide as Hlow; [left; by exists n, 0%N|].
  destruct (if decide (_ ∨ _) then _ else _) as [e n0] eqn:E. pose proof (core_follow _ _ _ _ _ _ E) as Hc.
  destruct e as [e|]; [left; by exists n0, 0%N|].
  apply follow_fields in E as Hf; [|lia|intros Hd; split; [lia|destruct (role n); naive_solver]].
  destruct Hf as (Hr & Ht & _). set (n1 := resetElectionLocked _).
  destruct (decide (ae_PrevLogIndex req < LastIncludedIndex (snapshot n1))%N) as [|Hlo]; [left; by exists n1; eexists|].
  destruct (decide (termAtLocked n1 (ae_PrevLogIndex req) ≠ Some (ae_PrevLogTerm req))) as [|Hterm];
    [left; by exists n1; eexists|].
  right. exists n0, n1. split_and!; try done; [lia|]. destruct (decide (termAtLocked n1 (ae_PrevLogIndex req) = Some (ae_PrevLogTerm req))); tauto.
Qed.

Lemma aeCommit_term req lastNew n : (aeCommit req lastNew n).1.(aer_Term) = (aeCommit req lastNew n).2.(currentTerm).
Proof. unfold aeCommit. case_decide; [|done]. by destruct (persistHardStateLocked _) as [[]]. Qed.

Lemma aeMerge_term req n : (aeMerge req n).1.(aer_Term) = (aeMerge req n).2.(currentTerm).
Proof.
  unfold aeMerge. destruct (mergeEntries _ _ _ _ _) as [m log']. case_decide; [done|].
  destruct (changed m); [|apply aeCommit_term].
  destruct (if replaced m then _ else _) as [[e|] st]; [done|apply aeCommit_term].
Qed.

Lemma HandleAppendEntries_term req n resp n' :
  HandleAppendEntries req n = (resp, n') → resp.(aer_Term) = n'.(currentTerm).
Proof.
  intros E. destruct (HandleAppendEntries_cases req n) as [(n1 & c & He & _)|(n0 & n1 & _ & _ & _ & _ & _ & _ & _ & He)];
    rewrite E in He; [by injection He as -> ->|]. pose proof (aeMerge_term req n1) as Ht. by rewrite <- He in Ht.
Qed.

(** ** Durability of the log *)

Context `{!LogLaws St}.

(** The log in memory is the log on disk. *)
Definition synced n : Prop := log_inv n.(store) ∧ durable_log n.(store) = n.(log).

Lemma synced_save commit n e n' : saveHardStateLocked commit n = (e, n') → synced n → synced n'.
Proof.
  intros (st & le & -> & -> & _)%save_fields [Hi Hs]. unfold synced in *. cbn.
  destruct (SaveHardState_log (mkHardState n.(currentTerm) n.(votedFor) commit) _ Hi) as [? ->]. done.
Qed.

Lemma synced_becomeFollower term leader b n e n' :
  becomeFollowerWithTimerLocked term leader b n = (e, n') → synced n → synced n'.
Proof.
  unfold becomeFollowerWithTimerLocked. set (n2 := if b then _ else _).
  assert (synced n → synced n2) as Hn2 by (by subst n2; destruct b, (decide (currentTerm n < term)%N)).
  clearbody n2. unfold persistHardStateLocked. destruct (saveHardStateLocked _ n2) as [e2 n3] eqn:E.
  pose proof (synced_save _ _ _ _ E) as Hs. destruct e2; intros [= <- <-] Hn; [apply Hs, Hn2, Hn|].
  destruct (decide (role n = Leader)); apply Hs, Hn2, Hn.
Qed.

Lemma synced_aeCommit req lastNew n : synced n → synced (aeCommit req lastNew n).2.
Proof.
  intros Hs. unfold aeCommit. case_decide; [|done]. unfold persistHardStateLocked.
  destruct (saveHardStateLocked _ _) as [e n1] eqn:E. apply synced_save in E; [|done]. by destruct e.
Qed.

Lemma synced_aeMerge req n :
  node_wf n → op_ok (DoAppendEntries req) n →
  (n.(snapshot).(LastIncludedIndex) ≤ req.(ae_PrevLogIndex))%N →
  termAtLocked n req.(ae_PrevLogIndex) = Some req.(ae_PrevLogTerm) →
  synced n → (aeMerge req n).1.(aer_Success) = true → synced (aeMerge req n).2.
Proof.
  intros Hwf Hok Hlo Ht Hs. unfold aeMerge. destruct (mergeEntries _ _ _ _ _) as [m log'] eqn:Em.
  destruct (evolves_merge n req m log' (with_log log' n) Hwf Hok Hlo Ht Em eq_refl) as [Hev Hmo].
  case_decide as Hci.
  { intros _. destruct (mo_conflict _ _ _ _ _ _ _ Hmo Hci) as [-> _]. done. }
  destruct (changed m) eqn:Ech.
  - destruct (replaced m) eqn:Er.
    + destruct (ReplaceEntries _ _) as [[e|] st] eqn:E; [done|]. intros _. apply synced_aeCommit.
      by apply (ReplaceEntries_ok _ _ _ (proj1 Hs)) in E.
    + destruct (AppendEntries _ _) as [[e|] st] eqn:E; [done|]. intros _. apply synced_aeCommit.
      destruct (mo_appended _ _ _ _ _ _ _ Hmo Ech Er) as [-> _].
      destruct (AppendEntries_ok _ _ _ (proj1 Hs) E) as [? Hd]. split; [done|]. cbn in *. by rewrite Hd, (proj2 Hs).
  - intros _. apply synced_aeCommit. rewrite (mo_unchanged _ _ _ _ _ _ _ Hmo Ech). done.
Qed.

(** ** RequestVote *)

Definition up_to_date (req : RequestVoteRequest) n : Prop :=
  (lastTermLocked n < req.(rv_LastLogTerm))%N ∨
  (req.(rv_LastLogTerm) = lastTermLocked n ∧ lastIndexLocked n ≤ req.(rv_LastLogIndex))%N.

Definition may_vote (req : RequestVoteRequest) n : Prop :=
  (n.(currentTerm) < req.(rv_Term))%N ∨
  (n.(currentTerm) = req.(rv_Term) ∧ (n.(votedFor) = "" ∨ n.(votedFor) = req.(rv_CandidateID))).

Lemma up_to_date_core req n n' : core n' = core n → up_to_date req n' ↔ up_to_date req n.
Proof.
  intros (Hs & Hl & _)%core_fields. unfold up_to_date, lastTermLocked, lastIndexLocked. by rewrite Hs, Hl.
Qed.

Lemma vote_guards req n resp n' :
  HandleRequestVote req n = (resp, n') → resp.(rvr_VoteGranted) = true →
  ¬ disabled n ∧ isKnownRemotePeerLocked n req.(rv_CandidateID) = true ∧ up_to_date req n.
Proof.
  unfold HandleRequestVote. case_decide as Hd; [by intros [= <- <-]|].
  case_decide as Hk; [by intros [= <- <-]|]. case_decide; [by intros [= <- <-]|].
  destruct (if decide _ then _ else _) as [e1 n1] eqn:E1.
  assert (core n1 = core n) as Hc.
  { revert E1. case_decide; intros E; [by apply core_becomeFollower in E|by injection E as _ <-]. }
  clear E1. destruct e1; [by intros [= <- <-]|]. case_decide as Hv; [|by intros [= <- <-]].
  intros _ _. split_and!; [done|by destruct (isKnownRemotePeerLocked _ _)|].
  apply (up_to_date_core req n n1 Hc). apply Hv.
Qed.

Lemma becomeFollower_ok `{!ReliableStore St} term leader b n : reliable n.(store) →
  ∃ n1, becomeFollowerWithTimerLocked term leader b n = (None, n1) ∧ reliable n1.(store).
Proof.
  intros Hr. unfold becomeFollowerWithTimerLocked. set (n2 := if b then _ else _).
  assert (n2.(store) = n.(store)) as Hs by (by subst n2; destruct b, (decide (currentTerm n < term)%N)).
  clearbody n2. unfold persistHardStateLocked.
  destruct (save_reliable n2.(commitIndex) n2) as (st & -> & Hst); [by rewrite Hs|].
  eexists. split; [done|]. by destruct (decide (role n = Leader)).
Qed.

Lemma vote_reliable `{!ReliableStore St} req n :
  ¬ disabled n → isKnownRemotePeerLocked n req.(rv_CandidateID) = true → reliable n.(store) →
  may_vote req n → up_to_date req n → (HandleRequestVote req n).1.(rvr_VoteGranted) = true.
Proof.
  intros Hd Hk Hr Hm Hu. unfold HandleRequestVote. rewrite decide_False by done.
  rewrite decide_False by congruence. rewrite decide_False by (destruct Hm; lia).
  assert (∃ n1, (if decide (n.(currentTerm) < req.(rv_Term))%N then becomeFollowerForVoteLocked req.(rv_Term) n
                 else (None, n)) = (None, n1) ∧ core n1 = core n ∧ reliable n1.(store) ∧
                 (n1.(votedFor) = "" ∨ n1.(votedFor) = req.(rv_CandidateID))) as (n1 & -> & Hc & Hr1 & Hv).
  { case_decide as Hlt.
    - unfold becomeFollowerForVoteLocked.
      destruct (becomeFollower_ok (rv_Term req) "" false n Hr) as (n1 & E & Hr1).
      exists n1. split; [done|]. pose proof (core_becomeFollower _ _ _ _ _ _ E).
      apply becomeFollower_fields in E as (_ & _ & _ & Hv). rewrite decide_True in Hv by done. auto.
    - exists n. split_and!; [done..|]. destruct Hm as [?|[_ ?]]; [lia|done]. }
  rewrite decide_True. 2: { split; [done|]. by apply (up_to_date_core req n n1 Hc). }
  unfold persistHardStateLocked.
  destruct (save_reliable (with_votedFor (rv_CandidateID req) n1).(commitIndex) (with_votedFor (rv_CandidateID req) n1))
    as (st & -> & _); done.
Qed.

(** ** The commit rule *)

(** How many nodes are known to store index [i], the leader included. *)
Definition replicas n (i : N) : nat :=
  1 + length (filter (λ p, i ≤ map_N n.(matchIndex) p)%N (map_to_list n.(params).(peerAddrs)).*1).

Definition committable n (i : N) : Prop :=
  (n.(commitIndex) < i ≤ lastIndexLocked n)%N ∧ termAtLocked n i = Some n.(currentTerm) ∧
  quorum n ≤ replicas n i.

Lemma advanceLoop_max fuel n : ∀ index,
  (index < two64)%N → N.to_nat index ≤ fuel →
  ∀ j, (default n.(commitIndex) (advanceLoop fuel index n) < j ≤ index)%N →
  termAtLocked n j = Some n.(currentTerm) → replicas n j < quorum n.
Proof.
  induction fuel as [|fuel IH]; intros index Hi Hf j Hj Ht; cbn [advanceLoop] in Hj; [cbn in Hj; lia|].
  case_decide as Hc; [|cbn in Hj; lia]. usimp. destruct (decide (j = index)) as [->|Hne].
  - rewrite decide_False in Hj by (rewrite Ht; tauto). case_decide as Hq; [cbn in Hj; lia|].
    unfold replicas. lia.
  - case_decide; [apply (IH (index - 1)%N); [lia|lia|lia|done]|].
    case_decide; [cbn in Hj; lia|]. apply (IH (index - 1)%N); [lia|lia|lia|done].
Qed.

(** ** After a storage failure *)

Definition storage_failed n : Prop := n.(storageFatal) ≠ None ∧ n.(role) = Follower.

Lemma storage_failed_fields n n' : storage_failed n → n'.(storageFatal) = n.(storageFatal) → n'.(role) = n.(role) → storage_failed n'.
Proof. intros [? ?] Hs Hr. split; congruence. Qed.

Lemma storage_failed_disabled n : storage_failed n → disabled n.
Proof. intros [? _]. by right. Qed.

Lemma storage_failed_becomeFollower term leader b n e n' :
  becomeFollowerWithTimerLocked term leader b n = (e, n') → storage_failed n → storage_failed n'.
Proof.
  unfold becomeFollowerWithTimerLocked. set (n2 := if b then _ else _).
  assert (storage_failed n → storage_failed n2) as Hn2
    by (intros [? ?]; subst n2; destruct b, (decide (currentTerm n < term)%N); by split).
  clearbody n2. unfold persistHardStateLocked. destruct (saveHardStateLocked _ n2) as [e2 n3] eqn:E.
  apply save_fields in E as (st & le & -> & _ & _).
  destruct e2; intros [= <- <-] [Hs Hr]%Hn2; [done|]. by destruct (decide (role n = Leader)).
Qed.

Lemma storage_failed_stepDown t leader n : storage_failed n → storage_failed (stepDown t leader n).
Proof. unfold stepDown, becomeFollowerLocked. destruct (becomeFollowerWithTimerLocked _ _ _ _) eqn:E. by eapply storage_failed_becomeFollower. Qed.

Lemma storage_failed_propose ctx c n : storage_failed n → (Propose_start ctx c n).2 = n.
Proof.
  intros [Hs Hr]. unfold Propose_start. destruct ctx; [done|]. unfold proposeAppend.
  destruct (stopped n); [done|]. by destruct (storageFatal n).
Qed.

Lemma storage_failed_install req body n : storage_failed n → storage_failed (nrun (DoInstallFinal req body) n).
Proof.
  intros Hf. cbn [nrun]. unfold HandleInstallSnapshot_final.
  destruct (match body with [] => _ | _ => _ end); [|done]. unfold isGuards.
  rewrite decide_True by (by apply storage_failed_disabled). done.
Qed.

(** No step takes a failed node back in. *)
Lemma storage_failed_nrun op n : storage_failed n → storage_failed (nrun op n).
Proof.
  intros Hf. pose proof (storage_failed_disabled _ Hf) as Hd.
  destruct op; try by (apply (storage_failed_fields n); [exact Hf|done|done]).
  - cbn [nrun]. unfold Stop. by destruct (stopped n).
  - cbn [nrun]. unfold HandleAppendEntries. by rewrite decide_True.
  - cbn [nrun]. unfold HandleInstallSnapshot_recv, isGuards. by rewrite decide_True.
  - by apply storage_failed_install.
  - cbn [nrun]. by rewrite storage_failed_propose.
  - cbn [nrun]. unfold Propose_select, removeWaiter. by destruct (chans n !! w) as [[[|] [] ]|], ctx; cbn; repeat case_decide.
  - cbn [nrun]. unfold applyReady_next. case_decide; [done|]. case_decide; [done|]. by destruct (entryAtLocked _ _).
  - cbn [nrun]. unfold applyReady_apply. by destruct (Apply _ _).
  - cbn [nrun]. unfold applyReady_finish. by case_decide.
  - cbn [nrun]. unfold persistSnapshot_save. by destruct (SaveSnapshot _ _) as [[]].
  - cbn [nrun]. unfold persistSnapshot_finish. case_decide; [done|]. by destruct (ReplaceEntries _ _) as [[]].
  - cbn [nrun]. unfold acquirePeerReplication_poll. destruct ctx; [done|]. case_decide; [done|]. by destruct (map_bool _ _).
  - cbn [nrun]. unfold replicateAllOnce_begin. destruct (stopped n); [done|]. by case_decide.
  - cbn [nrun]. unfold replicateToPeer_prepare. destruct Hf as [? Hr]. by rewrite decide_True by (right; by rewrite Hr).
  - cbn [nrun]. unfold replicateToPeer_snapshotDone. by case_decide.
  - cbn [nrun]. unfold replicateToPeer_response. case_decide; [by apply storage_failed_stepDown|].
    destruct Hf as [? Hr]. by rewrite decide_True by (left; by rewrite Hr).
  - cbn [nrun]. unfold sendSnapshot_check. case_decide; [by apply storage_failed_stepDown|]. by case_decide.
  - cbn [nrun]. unfold startElection. rewrite decide_True; [done|]. destruct Hf. auto.
  - cbn [nrun]. unfold HandleRequestVote. by rewrite decide_True.
  - cbn [nrun]. unfold becomeLeader. rewrite decide_True; [done|]. destruct Hf as [_ Hr]. rewrite Hr. auto.
  - cbn [nrun]. by apply storage_failed_stepDown.
Qed.

(** What a failed node answers. *)
Record refuses n : Prop := {
  rf_role : n.(role) = Follower;
  rf_fatal : n.(storageFatal) ≠ None;
  rf_election : startElection n = (None, n);
  rf_vote : ∀ req, HandleRequestVote req n = (mkRequestVoteResponse n.(currentTerm) false, n);
  rf_append : ∀ req, HandleAppendEntries req n = aeReject n;
  rf_install : ∀ req, HandleInstallSnapshot_recv req n = (inl (mkInstallSnapshotResponse n.(currentTerm) false 0), n);
  rf_propose : ∀ ctx c, ∃ err, Propose_start ctx c n = (inr err, n) }.

Lemma storage_failed_refuses n : storage_failed n → refuses n.
Proof.
  intros Hf. pose proof (storage_failed_disabled _ Hf) as Hd. destruct Hf as [Hfat Hr]. split; [done|done|..].
  - unfold startElection. rewrite decide_True; auto.
  - intros req. unfold HandleRequestVote. by rewrite decide_True.
  - intros req. unfold HandleAppendEntries. by rewrite decide_True.
  - intros req. unfold HandleInstallSnapshot_recv, isGuards. by rewrite decide_True.
  - intros ctx c. unfold Propose_start. destruct ctx as [err|]; [by exists err|]. unfold proposeAppend.
    destruct (stopped n); [by eexists|]. destruct (storageFatal n) as [err|]; [by exists err|done].
Qed.

Lemma storage_failed_steps n n' : storage_failed n → rtc (λ m m', ∃ op, m' = nrun op m) n n' → storage_failed n'.
Proof. intros Hf. induction 1 as [|m m' m'' [op ->] _ IH]; [done|]. apply IH. by apply storage_failed_nrun. Qed.

End handlers.

(** ** Properties *)

Section properties.
Context {SM St : Type} `{StateMachine SM} `{Store St} `{RandSource} `{MapCodec}.
Implicit Types n : Node SM St.

(** C15. The contract of AppendEntries.  When the handler reports success, the
    node follows the sender in the request's term; its log agrees with the
    request at [PrevLogIndex] and at every entry of the request; the commit
    index is the old one or the smaller of the leader's and the last new
    index, whichever is greater; and the log on disk is the log in memory.
    Whether it succeeds or not, nothing at or below the old commit index
    changes, the indices stay ordered and the reply carries the node's
    term. *)
Theorem append_entries_contract `{!LogLaws St} req n resp n' :
  node_wf n → op_ok (DoAppendEntries req) n → synced n →
  HandleAppendEntries req n = (resp, n') →
  (resp.(aer_Success) = true →
     n'.(role) = Follower ∧ n'.(currentTerm) = req.(ae_Term) ∧ n'.(leaderID) = req.(ae_LeaderID) ∧
     termAtLocked n' req.(ae_PrevLogIndex) = Some req.(ae_PrevLogTerm) ∧
     (∀ i e, req.(ae_Entries) !! i = Some e →
        e.(Index) = (req.(ae_PrevLogIndex) + 1 + N.of_nat i)%N ∧ termAtLocked n' e.(Index) = Some e.(Term)) ∧
     n'.(commitIndex) = N.max n.(commitIndex)
       (N.min req.(ae_LeaderCommit) (req.(ae_PrevLogIndex) + len req.(ae_Entries))) ∧
     synced n') ∧
  node_wf n' ∧ (∀ i, (i ≤ n.(commitIndex))%N → entryAtLocked n' i = entryAtLocked n i) ∧
  resp.(aer_Term) = n'.(currentTerm).
Proof.
  intros Hwf Hok Hs E. pose proof (evolves_HandleAppendEntries req n Hwf Hok) as Hev. rewrite E in Hev.
  split; [|split_and!; [apply Hev|apply Hev|]].
  - destruct (HandleAppendEntries_cases req n) as [(n1 & c & He & _)|(n0 & n1 & Hf & Hn1 & Hr & Ht & Hc & Hlo & Hp & He)];
      rewrite E in He; [by injection He as -> ->|]. intros Hsucc.
    assert (node_wf n1) as Hwf1 by (by eapply node_wf_core).
    assert (synced n1) as Hs1.
    { assert (synced n0) as Hs0; [|by rewrite Hn1].
      revert Hf. case_decide; intros Hf; [by eapply synced_becomeFollower|by injection Hf as <-]. }
    destruct (aeMerge_success req n1 resp n' Hwf1 Hok Hlo Hp (eq_sym He) Hsucc) as [? ? Hco [= Hro Hte Hle]].
    apply core_fields in Hc as (_ & _ & Hci & _). rewrite Hci in Hco.
    split_and!; try done; [congruence..|by rewrite Hle, Hn1|].
    pose proof (synced_aeMerge req n1 Hwf1 Hok Hlo Hp Hs1) as Hsy. rewrite <- He in Hsy. by apply Hsy.
  - by eapply HandleAppendEntries_term.
Qed.

(** C16. The contract of RequestVote.  A vote is granted only to a known
    peer whose log is at least as up to date, only when no other vote was
    cast in that term, and it is on disk and in memory before the reply
    leaves; and when those conditions hold and the store accepts the write,
    it is granted. *)
Theorem request_vote_contract `{!HardStateLaws St} `{!ReliableStore St} req n resp n' :
  HandleRequestVote req n = (resp, n') →
  (resp.(rvr_VoteGranted) = true →
     ¬ disabled n ∧ isKnownRemotePeerLocked n req.(rv_CandidateID) = true ∧
     may_vote req n ∧ up_to_date req n ∧
     mem_hs n' = (req.(rv_Term), req.(rv_CandidateID)) ∧
     disk_hs n'.(store) = (req.(rv_Term), req.(rv_CandidateID))) ∧
  (¬ disabled n → isKnownRemotePeerLocked n req.(rv_CandidateID) = true → may_vote req n →
   up_to_date req n → reliable n.(store) → resp.(rvr_VoteGranted) = true).
Proof.
  intros E. split.
  - intros Hg. destruct (vote_guards _ _ _ _ E Hg) as (? & ? & ?).
    apply vote_granted in E as [_ Hv]. destruct (Hv Hg) as (? & ? & ?). done.
  - intros ? ? ? ? ?. pose proof (vote_reliable req n) as Hv. rewrite E in Hv. by apply Hv.
Qed.

(** C17. The commit rule.  [advanceCommitLocked] moves the commit index only
    to an entry of the leader's own term that a majority is known to store,
    and only once that commit index is on disk; and it moves it to the
    greatest such entry, unless the write failed, in which case the commit
    index stays and the node stops taking part. *)
Theorem commit_rule `{!HardStateLaws St} n :
  node_wf n →
  let n' := advanceCommitLocked n in
  (n'.(commitIndex) = n.(commitIndex) ∨
   committable n n'.(commitIndex) ∧ (durable_hs n'.(store)).(CommitIndex) = n'.(commitIndex)) ∧
  ((n'.(commitIndex) = n.(commitIndex) ∧ n'.(storageFatal) ≠ None ∧ n'.(role) = Follower) ∨
   ∀ j, (n'.(commitIndex) < j)%N → ¬ committable n j).
Proof.
  intros Hwf n'. pose proof (nw_max _ Hwf) as Hmax.
  pose proof (advanceLoop_max (N.to_nat (lastIndexLocked n)) n (lastIndexLocked n) ltac:(lia) ltac:(lia)) as Hm.
  subst n'. unfold advanceCommitLocked.
  destruct (advanceLoop _ _ _) as [i|] eqn:El; cbn [from_option Datatypes.id] in Hm.
  - pose proof El as (Hi & Ht & Hq)%advanceLoop_spec; [|lia]. unfold persistHardStateLocked.
    destruct (saveHardStateLocked _ _) as [e n1] eqn:E. apply save_fields in E as (st & le & -> & -> & ->).
    cbn [commitIndex with_commitIndex currentTerm votedFor store].
    destruct (SaveHardState _ _) as [[e|] st] eqn:Es; cbn.
    + split; [by left|left]. done.
    + split; [right|right].
      * split; [done|]. by rewrite (SaveHardState_ok _ _ _ Es).
      * intros j Hj (Hr & Htj & Hqj). specialize (Hm j ltac:(lia) Htj). lia.
  - split; [by left|right]. intros j Hj (Hr & Htj & Hqj). specialize (Hm j Hr Htj). lia.
Qed.

End properties.

(** *** Instances *)

Definition kvnode (i : string) (acts : list nop) : option (Node KV.KVStateMachine Mem.MemStore) :=
  match newKVNode i (Mem.empty []) with
  | inl n => Some (foldl (λ n op, nrun op n) n acts)
  | inr _ => None
  end.

(** ["n2"] takes two entries of the leader ["n1"] of term 1 and commits one. *)
Definition entries2 : list LogEntry := [mkLogEntry 1 1 noop; mkLogEntry 2 1 (put "x" "1")].
Definition append2 : AppendEntriesRequest := mkAppendEntriesRequest 1 "n1" 0 0 entries2 1.

Lemma fresh_wf i n : newKVNode i (Mem.empty []) = inl n → node_wf n.
Proof. intros Hn. exact (proj1 (NewNode_inv _ _ _ _ _ _ (clean_empty []) Hn)). Qed.

Lemma append_entries_contract_witness :
  ∃ n n' resp, newKVNode "n2" (Mem.empty []) = inl n ∧ HandleAppendEntries append2 n = (resp, n') ∧
    resp.(aer_Success) = true ∧ n'.(commitIndex) = 1%N ∧ termAtLocked n' 2 = Some 1%N ∧ synced n'.
Proof.
  assert (match newKVNode "n2" (Mem.empty []) with
          | inl n => ((HandleAppendEntries append2 n).1.(aer_Success), n.(commitIndex), n.(store).(Mem.m_log), n.(log))
          | inr _ => (false, 1%N, [], []) end = (true, 0%N, [], [])) as Hv by (vm_compute; reflexivity).
  destruct (newKVNode "n2" (Mem.empty [])) as [n|] eqn:En; [|discriminate Hv].
  destruct (HandleAppendEntries append2 n) as [resp n'] eqn:E. injection Hv as Hs Hc Hd Hl. cbn in Hs.
  destruct (append_entries_contract append2 n resp n') as [Hok _].
  - by eapply fresh_wf.
  - split; [done|]. repeat constructor.
  - split; [exact I|]. rewrite Hl. exact Hd.
  - exact E.
  - destruct (Hok Hs) as (_ & _ & _ & _ & Hen & Hco & Hsy).
    exists n, n', resp. split_and!; [reflexivity|exact E|exact Hs|by rewrite Hco, Hc| |exact Hsy].
    exact (proj2 (Hen 1 _ eq_refl)).
Defined.

Lemma request_vote_contract_witness :
  ∃ n n' resp, newKVNode "n2" (Mem.empty []) = inl n ∧
    HandleRequestVote (mkRequestVoteRequest 1 "n1" 0 0) n = (resp, n') ∧
    resp.(rvr_VoteGranted) = true ∧ disk_hs n'.(store) = (1%N, "n1").
Proof.
  assert (match newKVNode "n2" (Mem.empty []) with
          | inl n => (HandleRequestVote (mkRequestVoteRequest 1 "n1" 0 0) n).1.(rvr_VoteGranted)
          | inr _ => false end = true) as Hv by (vm_compute; reflexivity).
  destruct (newKVNode "n2" (Mem.empty [])) as [n|] eqn:En; [|discriminate Hv].
  destruct (HandleRequestVote (mkRequestVoteRequest 1 "n1" 0 0) n) as [resp n'] eqn:E. cbn in Hv.
  destruct (request_vote_contract _ n resp n' E) as [Hg _]. destruct (Hg Hv) as (_ & _ & _ & _ & _ & Hd).
  exists n, n', resp. auto.
Defined.

(** The leader of the run with one write proposed: index 2 is committable. *)
Lemma commit_rule_witness :
  ∃ n, after (take 2 run1) = Some (n, AIdle) ∧
    let m := with_commitIndex 0 (with_lastApplied 0 n) in
    node_wf m ∧ (advanceCommitLocked m).(commitIndex) = 1%N ∧ committable m 1.
Proof.
  assert (match after (take 2 run1) with
          | Some (n, AIdle) => let m := with_commitIndex 0 (with_lastApplied 0 n) in
              ((advanceCommitLocked m).(commitIndex), n.(lastApplied), n.(snapshot).(LastIncludedIndex))
          | _ => (0%N, 0%N, 0%N) end = (1%N, 0%N, 0%N)) as Hv by (vm_compute; reflexivity).
  destruct (after (take 2 run1)) as [[n [|?|? ?|?|?|?]]|] eqn:E; try discriminate Hv.
  cbv zeta in Hv. set (m := with_commitIndex 0 (with_lastApplied 0 n)) in *. injection Hv as Hc Ha Hs.
  pose proof (proj1 (sys_reachable_inv _ (after_reachable _ _ E))) as [Hl Hm _ _ _].
  assert (node_wf m) as Hwf.
  { split; [exact Hl|exact Hm|cbn; lia|cbn; lia|cbn; lia]. }
  exists n. split; [reflexivity|]. split_and!; [exact Hwf|exact Hc|..];
    destruct (commit_rule m Hwf) as [[Hsame|[Hcom _]] _]; try (rewrite Hc in Hsame; discriminate Hsame);
    rewrite Hc in Hcom; apply Hcom.
Defined.
