(* ===== verification/StorageFault.v ===== *)
(** * Failed writes

    What a node does when its store refuses a write.  [Recorded St] is the
    store [St] with a record of every write and of its outcome, so that a
    statement can speak of all the writes that a critical section makes; the
    node's code is the same over every store. *)

From S2P Require Import Prelude Types StateMachine StoreIntf RaftLog NodeState Node Replication NodeStep NodeInv ApplySys TestEnv Handlers.

(** ** A store that records its writes *)

Inductive write :=
  | WHardState (hs : HardState)
  | WAppend (es : list LogEntry)
  | WReplace (es : list LogEntry)
  | WSnapshot (sn : Snapshot).

Record Recorded (St : Type) := mkRecorded {
  rec_store : St;
  rec_writes : list (write * option error) }.
Arguments mkRecorded {_} _ _.
Arguments rec_store {_} _.
Arguments rec_writes {_} _.

Definition recording {St} (w : write) (f : St → option error * St) (r : Recorded St) : option error * Recorded St :=
  let '(err, st) := f r.(rec_store) in (err, mkRecorded st (r.(rec_writes) ++ [(w, err)])).

#[global] Instance Recorded_store `{Store St} : Store (Recorded St) := {|
  Load r := let '(res, st) := Load r.(rec_store) in (res, mkRecorded st r.(rec_writes));
  SaveHardState hs := recording (WHardState hs) (SaveHardState hs);
  AppendEntries es := recording (WAppend es) (AppendEntries es);
  ReplaceEntries es := recording (WReplace es) (ReplaceEntries es);
  SaveSnapshot sn := recording (WSnapshot sn) (SaveSnapshot sn)
|}.

Lemma recording_writes {St} w (f : St → option error * St) r err r' :
  recording w f r = (err, r') → r'.(rec_writes) = r.(rec_writes) ++ [(w, err)].
Proof. unfold recording. destruct (f _). by intros [= <- <-]. Qed.

Section faults.
Context {SM St : Type} `{StateMachine SM} `{Store St} `{RandSource} `{MapCodec}.
#[local] Abbreviation Node := (Node SM (Recorded St)).
Implicit Types n m : Node.

Definition writes n : list (write * option error) := n.(store).(rec_writes).

(** The writes between [n] and [m]: all succeeded. *)
Definition quiet n m : Prop :=
  (∃ ws, writes m = writes n ++ ws ∧ Forall (λ x, x.2 = None) ws) ∧ m.(storageFatal) = n.(storageFatal).

(** A failed write between [n] and [m] is the node's last error, and it is
    final for the node unless it is one of [P]. *)
Definition settles (P : write → Prop) n m : Prop :=
  ∃ ws, writes m = writes n ++ ws ∧ ∀ w err, (w, Some err) ∈ ws →
    m.(lastErr) = Some err ∧ (storage_failed m ∨ P w ∧ m.(storageFatal) = n.(storageFatal)).

Lemma quiet_same n m : m.(store) = n.(store) → m.(storageFatal) = n.(storageFatal) → quiet n m.
Proof. intros Hs Hf. split; [|done]. exists []. unfold writes. by rewrite Hs, app_nil_r. Qed.

Lemma quiet_settles P n m : quiet n m → settles P n m.
Proof.
  intros [(ws & Hw & Hok) _]. exists ws. split; [done|]. intros w err Hin.
  by pose proof (proj1 (Forall_forall _ _) Hok _ Hin).
Qed.

Lemma settles_same P n m : m.(store) = n.(store) → settles P n m.
Proof. intros Hs. exists []. unfold writes. rewrite Hs, app_nil_r. split; [done|]. by intros w err ?%not_elem_of_nil. Qed.

Lemma settles_after P n m m' : quiet n m → settles P m m' → settles P n m'.
Proof.
  intros [(ws & Hw & Hok) Hf] (ws' & Hw' & Hs). exists (ws ++ ws'). split; [by rewrite Hw', Hw, app_assoc|].
  intros w err [Hin|Hin]%elem_of_app; [by pose proof (proj1 (Forall_forall _ _) Hok _ Hin)|].
  rewrite <- Hf. by apply Hs.
Qed.

Lemma settles_mono (P Q : write → Prop) n m : (∀ w, P w → Q w) → settles P n m → settles Q n m.
Proof. intros HPQ (ws & Hw & Hs). exists ws. split; [done|]. intros w err Hin. naive_solver. Qed.

(** One write, after which the node is [m]. *)
Lemma settles_write (P : write → Prop) w err n m :
  writes m = writes n ++ [(w, err)] →
  (∀ e, err = Some e → m.(lastErr) = Some e ∧ (storage_failed m ∨ P w ∧ m.(storageFatal) = n.(storageFatal))) →
  settles P n m.
Proof.
  intros Hw Hs. exists [(w, err)]. split; [done|]. intros w' e Hin%list_elem_of_singleton. injection Hin as -> <-. by apply Hs.
Qed.

Lemma quiet_write w n m : writes m = writes n ++ [(w, None)] → m.(storageFatal) = n.(storageFatal) → quiet n m.
Proof. intros Hw Hf. split; [|done]. exists [(w, None)]. split; [done|]. by apply Forall_singleton. Qed.

(** ** The sections *)

Lemma save_writes commit n e n' : saveHardStateLocked commit n = (e, n') →
  writes n' = writes n ++ [(WHardState (mkHardState n.(currentTerm) n.(votedFor) commit), e)] ∧
  n'.(storageFatal) = n.(storageFatal) ∧ n'.(commitIndex) = n.(commitIndex) ∧
  ∀ err, e = Some err → n'.(lastErr) = Some err.
Proof.
  unfold saveHardStateLocked, writes. destruct (SaveHardState _ _) as [err st] eqn:E. apply recording_writes in E.
  destruct err; intros [= <- <-]; cbn; rewrite E; split_and!; done.
Qed.

Lemma follower_settles t l b n e n' : becomeFollowerWithTimerLocked t l b n = (e, n') →
  n'.(commitIndex) = n.(commitIndex) ∧
  match e with None => quiet n n' | Some _ => settles (λ _, False) n n' end.
Proof.
  unfold becomeFollowerWithTimerLocked. set (n2 := if b then _ else _).
  assert (writes n2 = writes n ∧ n2.(storageFatal) = n.(storageFatal) ∧ n2.(commitIndex) = n.(commitIndex)) as (Hw & Hf & Hc)
    by (subst n2; destruct b, (decide (currentTerm n < t)%N); done).
  clearbody n2. unfold persistHardStateLocked. destruct (saveHardStateLocked _ n2) as [e2 n3] eqn:E.
  apply save_writes in E as (Hw3 & Hf3 & Hc3 & He3). rewrite Hw in Hw3. destruct e2 as [err|]; intros [= <- <-]; split; try (cbn; congruence).
  - eapply settles_write; [exact Hw3|]. intros e [= <-]. split; [done|by left].
  - case_decide; cbn; congruence.
  - eapply quiet_write; [|by case_decide; cbn; congruence]. case_decide; exact Hw3.
Qed.

(** The handlers step down first when the term of the message is higher. *)
Lemma maybe_follower_settles (Q : Prop) `{Decision Q} t l b n e n' :
  (if decide Q then becomeFollowerWithTimerLocked t l b n else (None, n)) = (e, n') →
  n'.(commitIndex) = n.(commitIndex) ∧
  match e with None => quiet n n' | Some _ => settles (λ _, False) n n' end.
Proof. case_decide; [apply follower_settles|]. intros [= <- <-]. split; [done|by apply quiet_same]. Qed.

Lemma stepDown_settles t l n : settles (λ _, False) n (becomeFollowerLocked t l n).2.
Proof.
  unfold becomeFollowerLocked. destruct (becomeFollowerWithTimerLocked t l true n) as [[err|] n'] eqn:E;
    apply follower_settles in E as [_ Hs]; [done|by apply quiet_settles].
Qed.

Lemma advance_settles n : settles (λ _, False) n (advanceCommitLocked n).
Proof.
  unfold advanceCommitLocked. destruct (advanceLoop _ _ _) as [i|]; [|by apply settles_same].
  unfold persistHardStateLocked. destruct (saveHardStateLocked _ _) as [e n1] eqn:E.
  apply save_writes in E as (Hw & Hf & _ & He). destruct e as [err|].
  - eapply settles_write; [exact Hw|]. intros e [= <-]. split; [done|by left].
  - apply quiet_settles. by eapply quiet_write.
Qed.

(** A write of the log or of a snapshot that fails closed. *)
Lemma fail_settles P w (f : St → option error * St) n n1 st err :
  recording w f n.(store) = (Some err, st) → n1.(store) = st → settles P n (failStorageLocked err n1).
Proof.
  intros E Hs. eapply settles_write; [unfold writes; cbn; rewrite Hs; by apply recording_writes in E|].
  intros e [= <-]. split; [done|by left].
Qed.

Lemma append_settles req n :
  settles (λ w, ∃ hs, w = WHardState hs ∧ n.(commitIndex) < hs.(CommitIndex))%N n (HandleAppendEntries req n).2.
Proof.
  unfold HandleAppendEntries. do 3 (case_decide; [by apply settles_same|]).
  destruct (if decide _ then _ else _) as [e n1] eqn:E.
  apply maybe_follower_settles in E as [Hc Hs]. destruct e as [err|]; [by eapply settles_mono; [|exact Hs]|].
  apply (settles_after _ _ n1); [done|]. set (n2 := resetElectionLocked (with_leaderID (ae_LeaderID req) n1)).
  apply (settles_after _ _ n2); [by apply quiet_same|]. replace (commitIndex n) with (commitIndex n2) by done.
  clearbody n2. clear. do 2 (case_decide; [by apply settles_same|]). unfold aeMerge.
  destruct (mergeEntries _ _ _ _ _) as [merge log']. case_decide; [by apply settles_same|].
  assert (∀ x : Node, quiet n2 x → x.(commitIndex) = n2.(commitIndex) →
    settles (λ w, ∃ hs, w = WHardState hs ∧ n2.(commitIndex) < hs.(CommitIndex))%N n2 (aeCommit req (lastNewIndex merge) x).2) as Hcommit.
  { intros x Hq Hx. apply (settles_after _ _ x); [done|]. unfold aeCommit. case_decide as Hlt; [|by apply settles_same].
    unfold persistHardStateLocked. destruct (saveHardStateLocked _ _) as [e n3] eqn:E.
    apply save_writes in E as (Hw & Hf & _ & He). destruct e as [err|].
    - eapply settles_write; [exact Hw|]. intros e [= <-]. split; [by apply He|right]. split; [|exact Hf].
      eexists. split; [done|]. cbn. by rewrite <- Hx.
    - apply quiet_settles. by eapply quiet_write. }
  destruct (changed merge); [|by apply Hcommit; [apply quiet_same|]].
  destruct (if replaced merge then _ else _) as [e st] eqn:E.
  assert (∃ w f, recording w f n2.(store) = (e, st)) as (w & f & Hw).
  { destruct (replaced merge); [exists (WReplace log'), (ReplaceEntries log')|
      exists (WAppend (appended merge)), (AppendEntries (appended merge))]; exact E. }
  destruct e as [err|]; [by eapply fail_settles|]. apply recording_writes in Hw.
  apply Hcommit; [|done]. by eapply quiet_write.
Qed.

Lemma guards_settles req n :
  match isGuards req n with (inl _, n') => settles (λ _, False) n n' | (inr _, n') => quiet n n' end.
Proof.
  unfold isGuards. do 3 (case_decide; [by apply settles_same|]).
  destruct (if decide _ then _ else _) as [e n1] eqn:E.
  apply maybe_follower_settles in E as [_ Hs]. destruct e as [err|]; [exact Hs|]. case_decide; [by apply quiet_settles|exact Hs].
Qed.

Lemma recv_settles req n : settles (λ _, False) n (HandleInstallSnapshot_recv req n).2.
Proof.
  unfold HandleInstallSnapshot_recv. pose proof (guards_settles req n) as Hg.
  destruct (isGuards req n) as [[resp|[]] n1]; [done|]. apply (settles_after _ _ n1); [done|].
  assert (∀ p x, settles (λ _, False) x (isChunk req p x).2) as Hchunk.
  { intros p x. unfold isChunk. case_decide; [by apply settles_same|]. destruct (is_Done req); by apply settles_same. }
  destruct (pendingSnapshot n1) as [p|]; repeat case_decide; try by apply settles_same.
  - apply Hchunk.
  - eapply settles_after; [|apply Hchunk]. by apply quiet_same.
  - eapply settles_after; [|apply Hchunk]. by apply quiet_same.
Qed.

Lemma final_settles req body n : settles (λ _, False) n (HandleInstallSnapshot_final req body n).2.
Proof.
  unfold HandleInstallSnapshot_final. destruct (match body with [] => _ | _ => _ end) as [data|]; [|by apply settles_same].
  pose proof (guards_settles req n) as Hg. destruct (isGuards req n) as [[resp|[]] n1]; [exact Hg|].
  apply (settles_after _ _ n1); [done|]. destruct (pendingSnapshot n1) as [p|]; [|by apply settles_same].
  case_decide; [|by apply settles_same]. clear. unfold isInstall, isStorageFail. cbv zeta.
  set (c := if decide (commitIndex n1 < _)%N then _ else _). clearbody c.
  destruct (SaveSnapshot _ _) as [e st1] eqn:E1. destruct e as [err|]; [by eapply fail_settles; [exact E1|]|].
  apply recording_writes in E1. set (n2 := with_store st1 n1).
  apply (settles_after _ _ n2); [by eapply quiet_write|]. clearbody n2.
  destruct (ReplaceEntries _ _) as [e st2] eqn:E2. destruct e as [err|]; [by eapply fail_settles; [exact E2|]|].
  apply recording_writes in E2. set (n3 := with_store st2 n2).
  apply (settles_after _ _ n3); [by eapply quiet_write|]. clearbody n3.
  destruct (saveHardStateLocked _ n3) as [e n4] eqn:E3. apply save_writes in E3 as (Hw & Hf & _ & He).
  destruct e as [err|].
  - eapply settles_write; [exact Hw|]. intros e [= <-]. split; [done|by left].
  - apply quiet_settles. eapply quiet_write; [|repeat case_decide; exact Hf]. repeat case_decide; exact Hw.
Qed.

Lemma propose_settles ctx c n : settles (λ _, False) n (Propose_start ctx c n).2.
Proof.
  unfold Propose_start. destruct ctx; [by apply settles_same|]. unfold proposeAppend.
  destruct (stopped n); [by apply settles_same|]. destruct (storageFatal n) eqn:Hf; [by apply settles_same|].
  case_decide; [by apply settles_same|]. destruct (AppendEntries _ _) as [e st] eqn:E.
  destruct e as [err|]; [by eapply fail_settles; [exact E|]|]. apply recording_writes in E. cbn [snd].
  set (x := with_waiters _ _). apply (settles_after _ _ x); [by eapply quiet_write|]. exact (advance_settles x).
Qed.

Lemma leader_settles t n : settles (λ _, False) n (becomeLeader t n).2.
Proof.
  unfold becomeLeader. case_decide; [by apply settles_same|]. cbv zeta.
  destruct (AppendEntries _ _) as [e st] eqn:E. destruct e as [err|]; [by eapply fail_settles; [exact E|]|].
  apply recording_writes in E. cbn [snd]. match goal with |- settles _ _ (advanceCommitLocked ?y) => set (x := y) end.
  apply (settles_after _ _ x); [by eapply quiet_write|]. exact (advance_settles x).
Qed.

Lemma vote_settles req n :
  settles (λ w, ∃ hs, w = WHardState hs ∧ hs.(VotedFor) = req.(rv_CandidateID)) n (HandleRequestVote req n).2.
Proof.
  unfold HandleRequestVote. do 3 (case_decide; [by apply settles_same|]).
  destruct (if decide _ then _ else _) as [e n1] eqn:E.
  apply maybe_follower_settles in E as [_ Hs]. destruct e as [err|]; [by eapply settles_mono; [|exact Hs]|]. apply (settles_after _ _ n1); [done|].
  cbv zeta. case_decide; [|by apply settles_same]. unfold persistHardStateLocked.
  destruct (saveHardStateLocked _ _) as [e n2] eqn:E. apply save_writes in E as (Hw & Hf & _ & He). destruct e as [err|].
  - eapply settles_write; [exact Hw|]. intros e [= <-]. split; [by apply He|right]. split; [by eexists|exact Hf].
  - apply quiet_settles. by eapply quiet_write.
Qed.

Lemma election_settles n : settles (λ w, ∃ hs, w = WHardState hs) n (startElection n).2.
Proof.
  unfold startElection. case_decide; [by apply settles_same|]. cbv zeta. unfold persistHardStateLocked.
  destruct (saveHardStateLocked _ _) as [e n2] eqn:E. apply save_writes in E as (Hw & Hf & _ & He). destruct e as [err|].
  - eapply settles_write; [exact Hw|]. intros e [= <-]. split; [by apply He|right]. split; [by eexists|exact Hf].
  - apply quiet_settles. by eapply quiet_write.
Qed.

Lemma snapshotSave_settles sn n : settles (λ w, w = WSnapshot sn) n (persistSnapshot_save sn n).2.
Proof.
  unfold persistSnapshot_save. destruct (SaveSnapshot _ _) as [e st] eqn:E. apply recording_writes in E.
  destruct e as [err|]; (eapply settles_write; [exact E|]); intros e [= <-]. split; [done|by right].
Qed.

Lemma snapshotFinish_settles sn n : settles (λ w, ∃ es, w = WReplace es) n (persistSnapshot_finish sn n).
Proof.
  unfold persistSnapshot_finish. case_decide; [by apply settles_same|]. destruct (ReplaceEntries _ _) as [e st] eqn:E.
  apply recording_writes in E. destruct e as [err|]; (eapply settles_write; [exact E|]); intros e [= <-].
  split; [done|right]. split; [by eexists|done].
Qed.

Lemma response_settles p req resp n : settles (λ _, False) n (replicateToPeer_response p req resp n).2.
Proof.
  unfold replicateToPeer_response. case_decide; [apply stepDown_settles|]. case_decide; [by apply settles_same|].
  destruct (aer_Success resp); [|case_decide; by apply settles_same]. cbn [snd].
  match goal with |- settles _ _ (advanceCommitLocked ?y) => set (x := y) end.
  apply (settles_after _ _ x); [by apply quiet_same|apply advance_settles].
Qed.

(** The writes whose failure a section only reports: the vote, the
    candidacy, a follower's commit index, and the two writes of a
    compaction. *)
Definition reported_only (op : nop) n (w : write) : Prop :=
  match op, w with
  | DoRequestVote req, WHardState hs => hs.(VotedFor) = req.(rv_CandidateID)
  | DoStartElection, WHardState _ => True
  | DoAppendEntries _, WHardState hs => (n.(commitIndex) < hs.(CommitIndex))%N
  | DoSnapshotSave sn, WSnapshot sn' => sn' = sn
  | DoSnapshotFinish _, WReplace _ => True
  | _, _ => False
  end.

Lemma nrun_settles op n : settles (reported_only op n) n (nrun op n).
Proof.
  destruct op; cbn [nrun]; try (by apply settles_same);
    try (eapply settles_mono; [|first [apply append_settles|apply recv_settles|apply final_settles|apply propose_settles|
      apply leader_settles|apply vote_settles|apply election_settles|apply snapshotSave_settles|apply snapshotFinish_settles|
      apply response_settles|apply stepDown_settles]]; intros w' Hw'; naive_solver).
  - unfold Stop. destruct (stopped n); by apply settles_same.
  - unfold Propose_select, removeWaiter. apply settles_same. by destruct (chans n !! w) as [[[|] [] ]|], ctx; cbn; repeat case_decide.
  - unfold applyReady_next. apply settles_same. case_decide; [done|]. case_decide; [done|]. by destruct (entryAtLocked _ _).
  - unfold applyReady_apply. apply settles_same. by destruct (Apply _ _).
  - unfold applyReady_finish. apply settles_same. by case_decide.
  - unfold acquirePeerReplication_poll. apply settles_same. destruct ctx; [done|]. case_decide; [done|]. by destruct (map_bool _ _).
  - unfold replicateAllOnce_begin. apply settles_same. destruct (stopped n); [done|]. by case_decide.
  - apply settles_same. unfold replicateToPeer_prepare. case_decide; [done|]. cbv zeta.
    case_decide; (case_decide; [done|]); by destruct (termAtLocked _ _).
  - unfold replicateToPeer_snapshotDone. apply settles_same. by case_decide.
  - unfold sendSnapshot_check. case_decide; [|by apply settles_same; case_decide].
    eapply settles_mono; [|apply stepDown_settles]. done.
Qed.

(** ** Property *)

(** C21. What a failed write does.  Whichever critical section of the node
    makes it: a write that the store refuses becomes the node's last error,
    and the node is out of service for good, whatever steps follow (it stays
    a follower that neither stands for election, nor grants votes, nor
    accepts entries, snapshots or proposals: each is refused and changes
    nothing) -- unless the write was the vote for a candidate, the node's own
    candidacy, the commit index of a follower, or one of the two writes of a
    compaction: these failures are only reported, and the node goes on. *)
Theorem storage_failure_is_final n op ws w err :
  writes (nrun op n) = writes n ++ ws → (w, Some err) ∈ ws →
  (nrun op n).(lastErr) = Some err ∧
  (reported_only op n w ∧ (nrun op n).(storageFatal) = n.(storageFatal) ∨
   ∀ n', rtc (λ m m', ∃ op, m' = nrun op m) (nrun op n) n' → refuses n').
Proof.
  intros Hw Hin. destruct (nrun_settles op n) as (ws' & Hw' & Hs). rewrite Hw in Hw'. apply app_inv_head in Hw' as ->.
  destruct (Hs w err Hin) as [He [Hf|Hr]]; (split; [done|]); [right|by left].
  intros n' Hn'. apply storage_failed_refuses. by eapply storage_failed_steps.
Qed.

End faults.

(** *** An instance

    A node of a cluster of one votes for itself, and cannot write the entry
    that a new leader starts with. *)
Definition candidate : option (Node KV.KVStateMachine (Recorded Mem.MemStore)) :=
  match NewNode cfg1 (mkRecorded (Mem.empty [Mem.NoFault; Mem.FailBefore]) []) KV.NewKVStateMachine 0 0 with
  | inl n => Some (nrun DoStartElection n)
  | inr _ => None
  end.

Lemma candidate_some : is_Some candidate.
Proof. vm_compute. eexists. reflexivity. Qed.

Lemma storage_failure_is_final_witness :
  let n := is_Some_proj candidate_some in
  (nrun (DoBecomeLeader 1) n).(lastErr) = Some (ErrText "injected fault") ∧
  refuses (nrun (DoStepDown 4 "n2") (nrun (DoBecomeLeader 1) n)).
Proof.
  intros n. destruct (storage_failure_is_final n (DoBecomeLeader 1)
    [(WAppend [mkLogEntry 1 1 (mkCommand OpNoop "" "" "")], Some (ErrText "injected fault"))]
    (WAppend [mkLogEntry 1 1 (mkCommand OpNoop "" "" "")]) (ErrText "injected fault")) as [He [[[] _]|Hr]].
  - vm_compute. reflexivity.
  - by left.
  - split; [exact He|]. apply Hr. apply rtc_once. exists (DoStepDown 4 "n2"). reflexivity.
Defined.
