(* ===== verification/RaftReadProofs.v ===== *)
(** * Reads are linearizable

    A read that returns saw every entry that was committed, anywhere in the
    cluster, when it was called.  The argument follows the barrier: the
    members that elected the leader of the term in which an entry was
    committed had that term when the read began, so none of them would have
    answered a leader of an earlier term; the leader that collected a majority
    of answers therefore knows the entry or has it below its no-op. *)

From S2P Require Import Prelude Types StateMachine StoreIntf RaftLog NodeState Node Replication NodeStep NodeInv VoteFrame Cluster ApplySys Disk Consensus LogTree Raft RaftInv RaftNode RaftSteps RaftElect RaftLead RaftSnap RaftApply RaftProofs RaftSafety RaftReads Handlers Wal WalProofs DiskWal TestEnv.

Section proofs.
Context {SM St : Type} `{StateMachine SM} `{Store St} `{RandSource} `{MapCodec}
  `{!HardStateLaws St} `{!DiskLaws St} `{!StateMachineLaws SM} `{!MapCodecLaws}.
#[local] Abbreviation Node := (Node SM St).
#[local] Abbreviation raft := (@raft SM St).
#[local] Abbreviation reads := (@reads SM St).
Context (members : gset string) (cfg : string → Config) (s0 : SM).
Context (Hcfg : config_ok members cfg) (Hs0 : Restore None s0 = s0).
Implicit Types (h : history) (n m : Node) (i j p : string) (r : raft) (q : reads) (cs : gmap (string * N) (N * N)).

#[local] Abbreviation committed_by := (committed_by members).
#[local] Abbreviation rinv_at := (rinv_at members s0).

(** ** A running node moves forward *)

(** A node and its apply goroutine, and the same later. *)
Record ahead (x x' : Node * apply_pc) : Prop := {
  ah_steps : rtc sstep x x';
  ah_term : (x.1.(currentTerm) ≤ x'.1.(currentTerm))%N }.

Lemma ahead_refl x : ahead x x.
Proof. by split. Qed.

(** An operation that is not part of an election. *)
Lemma ahead_op op n pc : is_background op = true → op_ok op n → is_election op = false → ahead (n, pc) (nrun op n, pc).
Proof.
  intros Hb Hop He. split; [by apply rtc_once, ss_background|]. destruct (vf_mem _ _ (vf_nrun op n He)) as [Hm|[Hm _]]; cbn in *; lia.
Qed.

Lemma ahead_vote req n pc : ahead (n, pc) ((HandleRequestVote req n).2, pc).
Proof.
  split; [exact (rtc_once _ _ (ss_background n pc (DoRequestVote req) eq_refl I))|]. destruct (HandleRequestVote req n) as [resp n'] eqn:E.
  destruct (vote_granted _ _ _ _ E) as [Hf _]. destruct (vf_mem _ _ Hf) as [Hm|[Hm _]]; cbn in *; lia.
Qed.

Lemma ahead_elect n pc : (n.(currentTerm) < two64 - 1)%N → ahead (n, pc) ((startElection n).2, pc).
Proof.
  intros Hr. split; [exact (rtc_once _ _ (ss_background n pc DoStartElection eq_refl I))|]. destruct (startElection n) as [o n'] eqn:E.
  apply vote_startElection in E; [|done]. destruct o as [[t req]|].
  - destruct E as (-> & _ & _ & _ & _ & Hm & _). unfold mem_hs in Hm. injection Hm as Hm _. cbn. lia.
  - destruct (vf_mem _ _ E) as [Hm|[Hm _]]; cbn in *; lia.
Qed.

Lemma ahead_lead term n pc : (lastIndexLocked n < two64 - 2)%N → ahead (n, pc) ((becomeLeader term n).2, pc).
Proof.
  intros Hr. split; [exact (rtc_once _ _ (ss_background n pc (DoBecomeLeader term) eq_refl Hr))|]. destruct (becomeLeader term n) as [o n'] eqn:E.
  apply vote_becomeLeader in E as (_ & Hm & _). unfold mem_hs in Hm. injection Hm as Hm _. cbn. lia.
Qed.

Lemma ahead_stepDown term leader n pc : ahead (n, pc) (stepDown term leader n, pc).
Proof.
  split; [exact (rtc_once _ _ (ss_background n pc (DoStepDown term leader) eq_refl I))|].
  destruct (vf_mem _ _ (vf_stepDown term leader n)) as [Hm|[Hm _]]; cbn in *; lia.
Qed.

Lemma ahead_apply n pc : ahead (n, pc) (apply_micro n pc).
Proof.
  split; [apply rtc_once; destruct pc; constructor|].
  assert (∀ op, is_election op = false → (n.(currentTerm) ≤ (nrun op n).(currentTerm))%N) as Hop.
  { intros op He. destruct (vf_mem _ _ (vf_nrun op n He)) as [Hm|[Hm _]]; cbn in *; lia. }
  destruct pc as [|e|e res|sn|sn|sn]; cbn [apply_micro fst].
  - by apply (Hop DoApplyNext).
  - by apply (Hop (DoApplyApply e)).
  - by apply (Hop (DoApplyFinish e res)).
  - done.
  - by apply (Hop (DoSnapshotSave sn)).
  - by apply (Hop (DoSnapshotFinish sn)).
Qed.

(** ** A follower that answers is in the term of the request *)

Lemma append_success_term req n resp n' : HandleAppendEntries req n = (resp, n') → resp.(aer_Success) = true →
  n'.(currentTerm) = req.(ae_Term).
Proof.
  destruct (HandleAppendEntries_cases req n) as [(n1 & c & -> & _)|(n0 & n1 & _ & _ & _ & Ht & _ & _ & _ & ->)]; [by intros [= <- <-]|].
  unfold aeMerge. destruct (mergeEntries _ _ _ _ _) as [m log']. case_decide; [by intros [= <- <-]|].
  assert (∀ k n2, n2.(currentTerm) = n1.(currentTerm) → aeCommit req k n2 = (resp, n') → resp.(aer_Success) = true →
    n'.(currentTerm) = req.(ae_Term)) as Hc.
  { intros k n2 Ht2 E Hs. apply aeCommit_success in E as (_ & _ & _ & E); [|done]. injection E as _ E _. congruence. }
  destruct (changed m); [|by apply Hc].
  destruct (if replaced m then _ else _) as [[e|] st]; [by intros [= <- <-]|by apply Hc].
Qed.

Lemma guards_term req n o n1 : isGuards req n = (o, n1) →
  match o with inl resp => resp.(isr_Success) = true | inr _ => True end → n1.(currentTerm) = req.(is_Term).
Proof.
  unfold isGuards. case_decide; [by intros [= <- <-]|]. case_decide; [by intros [= <- <-]|]. case_decide as Hlow; [by intros [= <- <-]|].
  destruct (if decide (_ ∨ _) then _ else _) as [[e|] n2] eqn:E; [by intros [= <- <-]|].
  apply follow_fields in E as (_ & Ht & _); [|lia|intros Hd; split; [lia|destruct (role n); naive_solver]].
  case_decide; intros [= <- <-] _; exact Ht.
Qed.

Lemma recv_success_term req n resp n' : HandleInstallSnapshot_recv req n = (inl resp, n') → resp.(isr_Success) = true →
  n'.(currentTerm) = req.(is_Term).
Proof.
  unfold HandleInstallSnapshot_recv. destruct (isGuards req n) as [o n1] eqn:E1. pose proof (guards_term _ _ _ _ E1) as Eg. clear E1.
  destruct o as [r|[]]; [by intros [= <- <-]|]. specialize (Eg I).
  assert (∀ pr n2, n2.(currentTerm) = n1.(currentTerm) → isChunk req pr n2 = (inl resp, n') → resp.(isr_Success) = true →
    n'.(currentTerm) = req.(is_Term)) as Hc.
  { intros pr n2 Ht. unfold isChunk. case_decide; [by intros [= <- <-]|]. destruct (is_Done req); [done|].
    intros [= <- <-] _. by transitivity n2.(currentTerm); [|congruence]. }
  destruct (pendingSnapshot n1); [case_decide; [by apply Hc|]|]; (case_decide; [by intros [= <- <-]|by apply Hc]).
Qed.

Lemma final_success_term req body n resp n' : HandleInstallSnapshot_final req body n = (resp, n') → resp.(isr_Success) = true →
  n'.(currentTerm) = req.(is_Term).
Proof.
  unfold HandleInstallSnapshot_final. destruct (match body with [] => _ | _ => _ end) as [data|]; [|by intros [= <- <-]].
  destruct (isGuards req n) as [o n1] eqn:E1. pose proof (guards_term _ _ _ _ E1) as Eg. clear E1. destruct o as [r|[]]; [by intros [= <- <-]|]. specialize (Eg I).
  destruct (pendingSnapshot n1); [|by intros [= <- <-]]. case_decide; [|by intros [= <- <-]].
  unfold isInstall. destruct (SaveSnapshot _ _) as [[e|] st1]; [by intros [= <- <-]|].
  destruct (ReplaceEntries _ _) as [[e|] st2]; [by intros [= <- <-]|].
  destruct (saveHardStateLocked _ _) as [e n3] eqn:E. apply save_fields in E as (st & le & -> & _ & _).
  destruct e; [by intros [= <- <-]|]. intros [= <- <-] _. cbn. by case_decide.
Qed.

Section step.
Context r h cs (Hr : rinv_at r h cs) (Hinv : inv members r.(r_cl)).

Definition stays (r' : raft) i n : Prop :=
  ∃ n', r'.(r_cl).(cl_slots) !! i = Some (Up n') ∧ ahead (n, pc_of r i) (n', pc_of r' i).

Lemma stays_node r' i n j m m' : r.(r_cl).(cl_slots) !! i = Some (Up n) → r.(r_cl).(cl_slots) !! j = Some (Up m) →
  r'.(r_cl).(cl_slots) = <[j := Up m']> r.(r_cl).(cl_slots) → (∀ k, k ≠ j → r'.(r_pc) !! k = r.(r_pc) !! k) →
  ahead (m, pc_of r j) (m', pc_of r' j) → stays r' i n.
Proof.
  intros Hi Hj Hs Hpc Ha. unfold stays. rewrite Hs. destruct (decide (i = j)) as [->|Hne].
  - rewrite lookup_insert_eq. exists m'. split; [done|]. by simplify_eq.
  - rewrite lookup_insert_ne by done. exists n. split; [done|]. unfold pc_of. rewrite Hpc by done. apply ahead_refl.
Qed.

Lemma stays_op r' i n j m op : r.(r_cl).(cl_slots) !! i = Some (Up n) → r.(r_cl).(cl_slots) !! j = Some (Up m) →
  is_background op = true → op_ok op m → is_election op = false →
  r'.(r_cl).(cl_slots) = <[j := Up (nrun op m)]> r.(r_cl).(cl_slots) → r'.(r_pc) = r.(r_pc) → stays r' i n.
Proof.
  intros Hi Hj Hb Hop He Hs Hpc. eapply stays_node; [done|done|done|by rewrite Hpc|]. unfold pc_of. rewrite Hpc. by apply ahead_op.
Qed.

Lemma stays_net r' i n : r.(r_cl).(cl_slots) !! i = Some (Up n) → r'.(r_cl).(cl_slots) = r.(r_cl).(cl_slots) → r'.(r_pc) = r.(r_pc) → stays r' i n.
Proof. intros Hi Hs Hpc. exists n. rewrite Hs. split; [done|]. unfold pc_of. rewrite Hpc. apply ahead_refl. Qed.

Lemma cluster_stays a r' i n : rperform cfg s0 (RCluster a) r = Some r' → r.(r_cl).(cl_slots) !! i = Some (Up n) →
  a ≠ ACrash i → stays r' i n.
Proof.
  cbn [rperform]. case_decide as Hroom; [|done]. intros Hp Hi Hne. apply bind_Some in Hp as (c' & Hp & [= <-]).
  destruct a as [j|j s rng0 now0|j|k|j|k]; cbn [machine_action after_action perform] in *.
  - apply bind_Some in Hp as (m & Hm%up_at_Some & [= <-]). assert (i ≠ j) as Hij by congruence. exists n. cbn.
    rewrite lookup_insert_ne by done. split; [done|]. unfold pc_of. cbn. rewrite lookup_delete_ne by done. apply ahead_refl.
  - destruct (cl_slots _ !! j) as [[|st]|] eqn:Hs; [done| |done]. assert (j ≠ i) as Hij by congruence.
    destruct (NewNode _ _ _ _ _) as [m|[e st']]; simplify_eq; exists n; cbn; rewrite lookup_insert_ne by done; (split; [done|apply ahead_refl]).
  - apply bind_Some in Hp as (m & Hm%up_at_Some & Hp). case_decide; [|done]. case_decide; [|done].
    eapply (stays_node _ i n j m (startElection m).2); [done|done| |done|by apply ahead_elect].
    destruct (startElection m) as [[[t req]|] m']; by simplify_eq.
  - apply bind_Some in Hp as ([[cand j] req] & Hk & Hp). apply bind_Some in Hp as (m & Hm%up_at_Some & Hp).
    eapply (stays_node _ i n j m (HandleRequestVote req m).2); [done|done| |done|apply ahead_vote].
    destruct (HandleRequestVote req m) as [resp m']; by simplify_eq.
  - apply bind_Some in Hp as (m & Hm & Hp). unfold action_room, room in Hroom. rewrite Hm in Hroom. apply up_at_Some in Hm.
    apply bind_Some in Hp as (e & He & Hp). case_decide; simplify_eq.
    by eapply (stays_node _ i n j m (becomeLeader e.(el_term) m).2); [done|done|done|done|apply ahead_lead].
  - apply bind_Some in Hp as ([[[j p] req] resp] & Hk & Hp). cbn [action_room] in Hroom. rewrite Hk in Hroom.
    apply bind_Some in Hp as (m & Hm & Hp). unfold room in Hroom. rewrite Hm in Hroom. apply up_at_Some in Hm.
    apply bind_Some in Hp as (e & He & Hp). case_decide; simplify_eq. destruct (collectVote _ _ _ _) as [v|t|].
    + by apply stays_net.
    + by eapply (stays_node _ i n j m (stepDown t "" m)); [done|done|done|done|apply ahead_stepDown].
    + by eapply (stays_node _ i n j m (becomeLeader e.(el_term) m).2); [done|done|done|done|apply ahead_lead].
Qed.

(** A node that runs and does not crash goes on running. *)
Lemma rperform_stays a r' i n : rperform cfg s0 a r = Some r' → r.(r_cl).(cl_slots) !! i = Some (Up n) →
  a ≠ RCluster (ACrash i) → stays r' i n.
Proof.
  intros Hp Hi Hne. destruct a as [a|j p|j|j op|j ctx command|j p|k|k|k offset|k|k|k|k m|j];
    [apply (cluster_stays a); [done|done|congruence]|cbn [rperform] in Hp..].
  - apply bind_Some in Hp as (e & He & Hp). case_decide; simplify_eq. by apply stays_net.
  - simplify_eq. by apply stays_net.
  - apply bind_Some in Hp as (m & Hm%up_at_Some & Hp). destruct (is_local op) eqn:Hl; simplify_eq.
    apply (stays_op _ i n j m op); [done|done|by destruct op|by destruct op|by destruct op|done|done].
  - apply bind_Some in Hp as (m & Hm%up_at_Some & Hp). case_decide; simplify_eq.
    by apply (stays_op _ i n j m (DoPropose ctx command)).
  - apply bind_Some in Hp as (m & Hm%up_at_Some & Hp). case_decide; [|done].
    apply (stays_op _ i n j m (DoReplPrepare p)); [done|done|done|done|done|..]; cbn [nrun];
      destruct (replicateToPeer_prepare p m) as [[] m']; by simplify_eq.
  - apply bind_Some in Hp as ([[j p] req] & Hk%list_elem_of_lookup_2 & Hp). apply bind_Some in Hp as (m & Hm%up_at_Some & Hp).
    pose proof (proj1 (ri_msgs _ _ _ _ _ Hr) _ _ _ Hk) as Hreq.
    apply (stays_op _ i n p m (DoAppendEntries req)); [done|done|done|by eapply ae_op_ok, Hreq; apply Hr|done|..]; cbn [nrun];
      destruct (HandleAppendEntries req m); by simplify_eq.
  - apply bind_Some in Hp as ([[[j p] req] resp] & Hk & Hp). apply bind_Some in Hp as (m & Hm%up_at_Some & [= <-]).
    by apply (stays_op _ i n j m (DoReplResponse p req resp)).
  - apply bind_Some in Hp as (sd & Hk & [= <-]). by apply stays_net.
  - apply bind_Some in Hp as ([[j p] req] & Hk & Hp). apply bind_Some in Hp as (m & Hm%up_at_Some & Hp).
    apply (stays_op _ i n p m (DoInstallRecv req)); [done|done|done|done|done|..]; cbn [nrun];
      destruct (HandleInstallSnapshot_recv req m) as [[] m']; by simplify_eq.
  - apply bind_Some in Hp as ([[[j p] req] body] & Hk%list_elem_of_lookup_2 & Hp). apply bind_Some in Hp as (m & Hm%up_at_Some & Hp).
    destruct (install_allowed _) eqn:Hpc; [|done]. destruct (ri_msgs _ _ _ _ _ Hr) as (_ & _ & _ & _ & _ & Hmf).
    destruct (Hmf _ _ _ _ Hk) as (Hreq & _). destruct (HandleInstallSnapshot_final req body m) as [resp m'] eqn:E. simplify_eq.
    eapply (stays_node _ i n p m m'); [done|done|done|done|].
    replace m' with (nrun (DoInstallFinal req body) m) by (cbn; by rewrite E). split.
    + apply rtc_once, ss_install; [done|]. cbn. destruct Hreq as (_ & b & en & (_ & Hcom & _) & _).
      apply (ri_max _ _ _ _ _ Hr (is_pos req)). eapply committed_valid; [apply Hr|done].
    + destruct (vf_mem _ _ (vf_install_final req body m)) as [?|[? _]]; cbn in *; lia.
  - apply bind_Some in Hp as ([[[j p] req] resp] & Hk & Hp). apply bind_Some in Hp as (m & Hm%up_at_Some & [= <-]).
    by apply (stays_op _ i n j m (DoSendCheck req.(is_Term) resp)).
  - apply bind_Some in Hp as (sd & Hk & Hp). apply bind_Some in Hp as ([[[j p] req] resp] & Hm & Hp).
    apply bind_Some in Hp as (m' & Hn%up_at_Some & Hp). case_decide as Hd; [|done]. destruct Hd as (-> & -> & _).
    destruct (sendSnapshot_next _ _ _ _) as [[]|]; simplify_eq. by apply (stays_op _ i n sd.(sd_from) m' (DoReplSnapshot sd.(sd_to) sd.(sd_term) sd.(sd_index))).
  - apply bind_Some in Hp as (m & Hm%up_at_Some & Hp). case_decide; [|done].
    destruct (apply_micro m (pc_of r j)) as [m' pc'] eqn:E. simplify_eq.
    eapply (stays_node _ i n j m m'); [done|done|done| |].
    + intros k Hk. cbn. by rewrite lookup_insert_ne.
    + unfold pc_of at 2. cbn. rewrite lookup_insert_eq. cbn. rewrite <- E. apply ahead_apply.
Qed.

(** New replies, and the term of the follower that made them. *)
Lemma rperform_replies a r' : rperform cfg s0 a r = Some r' →
  (r'.(r_aer) = r.(r_aer) ∧ r'.(r_isr) = r.(r_isr)) ∨
  (∃ i p req resp n', r'.(r_aer) = (i, p, req, resp) :: r.(r_aer) ∧ r'.(r_isr) = r.(r_isr) ∧
     r'.(r_cl).(cl_slots) !! p = Some (Up n') ∧ (resp.(aer_Success) = true → n'.(currentTerm) = req.(ae_Term))) ∨
  (∃ i p req resp n', r'.(r_aer) = r.(r_aer) ∧ r'.(r_isr) = (i, p, req, resp) :: r.(r_isr) ∧
     r'.(r_cl).(cl_slots) !! p = Some (Up n') ∧ (resp.(isr_Success) = true → n'.(currentTerm) = req.(is_Term))).
Proof.
  intros Hp. destruct a as [a|j p|j|j op|j ctx command|j p|k|k|k offset|k|k|k|k m|j]; cbn [rperform] in Hp.
  - case_decide; [|done]. apply bind_Some in Hp as (c' & _ & [= <-]). left. by destruct a.
  - apply bind_Some in Hp as (e & He & Hp). case_decide; simplify_eq. by left.
  - simplify_eq. by left.
  - apply bind_Some in Hp as (m & _ & Hp). destruct (is_local op); simplify_eq. by left.
  - apply bind_Some in Hp as (m & _ & Hp). case_decide; simplify_eq. by left.
  - apply bind_Some in Hp as (m & _ & Hp). case_decide; [|done]. left. destruct (replicateToPeer_prepare p m) as [[] m']; by simplify_eq.
  - apply bind_Some in Hp as ([[j p] req] & _ & Hp). apply bind_Some in Hp as (m & _ & Hp).
    destruct (HandleAppendEntries req m) as [resp m'] eqn:E. simplify_eq. right. left. exists j, p, req, resp, m'.
    split_and!; [done|done|cbn; by rewrite lookup_insert_eq|by eapply append_success_term].
  - apply bind_Some in Hp as ([[[j p] req] resp] & _ & Hp). apply bind_Some in Hp as (m & _ & [= <-]). by left.
  - apply bind_Some in Hp as (sd & _ & [= <-]). by left.
  - apply bind_Some in Hp as ([[j p] req] & _ & Hp). apply bind_Some in Hp as (m & _ & Hp).
    destruct (HandleInstallSnapshot_recv req m) as [[resp|body] m'] eqn:E; simplify_eq; [|by left]. right. right.
    exists j, p, req, resp, m'. split_and!; [done|done|cbn; by rewrite lookup_insert_eq|by eapply recv_success_term].
  - apply bind_Some in Hp as ([[[j p] req] body] & _ & Hp). apply bind_Some in Hp as (m & _ & Hp). destruct (install_allowed _); [|done].
    destruct (HandleInstallSnapshot_final req body m) as [resp m'] eqn:E. simplify_eq. right. right.
    exists j, p, req, resp, m'. split_and!; [done|done|cbn; by rewrite lookup_insert_eq|by eapply final_success_term].
  - apply bind_Some in Hp as ([[[j p] req] resp] & _ & Hp). apply bind_Some in Hp as (m & _ & [= <-]). by left.
  - apply bind_Some in Hp as (sd & _ & Hp). apply bind_Some in Hp as ([[[j p] req] resp] & _ & Hp).
    apply bind_Some in Hp as (m' & _ & Hp). case_decide; [|done]. destruct (sendSnapshot_next _ _ _ _) as [[]|]; simplify_eq. by left.
  - apply bind_Some in Hp as (m & _ & Hp). case_decide; [|done]. destruct (apply_micro m (pc_of r j)). simplify_eq. by left.
Qed.

End step.
(** ** What the invariant says of a call *)

(** No vote of [p] is beyond term [t]. *)
Definition votes_below h p (t : N) : Prop := ∀ u e, (p, u, e) ∈ h.(h_votes) → (u ≤ t)%N.

(** Something at [k] or above is committed in a term up to [u]. *)
Definition reached h (u k : N) : Prop := ∃ z, committed_by h u z ∧ (k ≤ z.1)%N.

Lemma reached_grow h h' u k : extends h h' → reached h u k → reached h' u k.
Proof. intros Hx (z & ? & ?). exists z. split; [by eapply ex_committed|done]. Qed.

Lemma reached_below h u k k' : reached h u k → (k' ≤ k)%N → reached h u k'.
Proof. intros (z & ? & ?) Hk. exists z. split; [done|lia]. Qed.

(** A barrier round that began with the history [h0]: whoever answered since
    had cast no vote of a later term by then. *)
Record round_ok r h0 i n (floor term : N) (since : nat * nat) (replied acked : gset string) : Prop := {
  ro_inv : ginv members h0;
  ro_floor : ∃ u, reached h0 u floor;
  ro_self : votes_below h0 i term;
  ro_aer : ∀ k j p req resp, r.(r_aer) !! k = Some (j, p, req, resp) → k + since.1 < length r.(r_aer) →
    resp.(aer_Success) = true → votes_below h0 p req.(ae_Term);
  ro_isr : ∀ k j p req resp, r.(r_isr) !! k = Some (j, p, req, resp) → k + since.2 < length r.(r_isr) →
    resp.(isr_Success) = true → votes_below h0 p req.(is_Term);
  ro_replied : ∀ p, p ∈ replied → p ∈ members ∧ p ≠ i ∧ votes_below h0 p n.(currentTerm);
  ro_acked : ∀ p, p ∈ acked → p ∈ members ∧ p ≠ i ∧ votes_below h0 p term }.

Definition phase_ok r h n (seen : N) (call : readCall) : Prop :=
  match call.(rd_phase) with
  | RStart => True
  | RBarrier term since replied acked =>
      ∃ h0, extends h0 h ∧ round_ok r h0 call.(rd_node) n call.(rd_floor) term since replied acked
  | RConfirmed term => reached h term call.(rd_floor)
  | RWaiting _ index => (call.(rd_floor) ≤ index)%N
  | RApplied _ => (call.(rd_floor) ≤ n.(lastApplied))%N
  | RDone v k =>
      (call.(rd_floor) ≤ k ≤ seen)%N ∧
      ∃ u x tr, x.1 = k ∧ committed_by h u x ∧ trace h.(h_tree) x tr ∧ v = Get call.(rd_key) (apply_all tr s0)
  end.

(** ** The steps of a call *)

(** A term confirmed by a majority is the last in which anything had been
    committed. *)
Lemma round_confirms r h0 h i n floor term since replied acked : round_ok r h0 i n floor term since replied acked → extends h0 h →
  i ∈ members → node_ok members i n → quorum n ≤ S (size acked) → reached h term floor.
Proof.
  intros [Hg (u & z & Hz & Hle) Hself _ _ _ Hack] Hx Hi Hno Hq. exists z. split; [|done].
  destruct Hz as [->|(t & y & _ & Hc & Hon)]; [by left|]. eapply ex_committed; [done|]. right. exists t, y. split_and!; [|done|done].
  destruct (gi_commit _ _ Hg _ _ (proj1 Hc)) as [[l e] He]. destruct (gi_elect _ _ Hg _ _ _ He) as (_ & _ & Q & HQ & Hv).
  rewrite (quorum_majority members i n Hi Hno) in Hq.
  assert (majority_of members ({[i]} ∪ acked)) as HQ'.
  { split; [intros p [->%elem_of_singleton|Hp]%elem_of_union; [done|by apply Hack]|].
    rewrite size_union, size_singleton; [unfold majority in Hq; lia|].
    intros p ->%elem_of_singleton Hp. by destruct (Hack i Hp) as (_ & ? & _). }
  destruct (majorities_share members _ _ HQ HQ') as (p & Hp & [->%elem_of_singleton|Hp']%elem_of_union);
    destruct (Hv _ Hp) as [Hvote _]; [exact (Hself _ _ Hvote)|]. destruct (Hack p Hp') as (_ & _ & Hb). exact (Hb _ _ Hvote).
Qed.

(** The index a leader of the confirmed term waits for. *)
Lemma index_reaches r h cs i n floor (index : N) : rinv_at r h cs → r.(r_cl).(cl_slots) !! i = Some (Up n) → n.(role) = Leader →
  reached h n.(currentTerm) floor → (n.(commitIndex) ≤ index)%N → (n.(leaderNoopIndex) ≤ index)%N → (floor ≤ index)%N.
Proof.
  intros Hr Hi Er (z & Hz & Hle) Hc Hnp. pose proof (ri_ginv _ _ _ _ _ Hr) as Hg. pose proof (gi_tree _ _ Hg) as Hok.
  destruct (up_slot _ _ _ _ _ Hr i n Hi) as [[_ Hro _ _] _]. unfold role_ok in Hro. rewrite Er in Hro.
  destruct Hro as [_ [(e & He & _ & Hen) _ _ _ _ Hcm]]. destruct Hz as [->|(t & y & Ht & Hcom & Hon)]; [cbn in Hle; lia|].
  apply (on_index _ Hok) in Hon as (Hzy & _). destruct (decide (t = n.(currentTerm))) as [->|Hne].
  - pose proof (Hcm y (proj1 Hcom)). lia.
  - assert (on h.(h_tree) e y) as Hey by (eapply leader_has_committed; [done|done|done|lia]).
    apply (on_index _ Hok) in Hey as (? & _). lia.
Qed.

(** What the state machine of a node holds, between any two sections. *)
Lemma machine_trace r h cs i n : rinv_at r h cs → r.(r_cl).(cl_slots) !! i = Some (Up n) →
  (n.(lastApplied) ≤ machineIndex n (pc_of r i) ≤ n.(commitIndex))%N ∧
  ∃ x tr, x.1 = machineIndex n (pc_of r i) ∧ committed_by h n.(currentTerm) x ∧ trace h.(h_tree) x tr ∧ n.(sm) = apply_all tr s0.
Proof.
  intros Hr Hi. destruct (up_slot _ _ _ _ _ Hr i n Hi) as [_ Hsys]. destruct (up_mem members s0 r h cs Hr i n Hi) as (Hwf & vt & Hle & Hm).
  pose proof Hwf as []. pose proof (ri_ginv _ _ _ _ _ Hr) as Hg.
  assert ((n.(lastApplied) ≤ machineIndex n (pc_of r i) ≤ n.(commitIndex))%N ∧ n.(sm) = replayed n (machineIndex n (pc_of r i))) as [Hk Hsm].
  { destruct Hsys as [_ Hsys]. destruct (pc_of r i); cbn [machineIndex]; try (split; [lia|]; try done; by destruct Hsys).
    destruct Hsys as (Hs & _ & He & Hc). split; [lia|]. by rewrite (replayed_next n e Hwf He Hc). }
  split; [done|]. destruct (replayed_trace members s0 Hs0 h Hg i vt n (machineIndex n (pc_of r i)) Hm Hwf ltac:(lia)) as (x & tr & Hx & _ & Hon & Htr & Hrep).
  exists x, tr. split_and!; [done| |done|congruence]. eapply committed_by_mono; [|exact Hle].
  destruct (m_com _ _ _ _ _ _ Hm) as (cp & Hcp & Hcon & Hcom). eapply committed_on; [done|exact Hcom|].
  eapply on_linear; [apply Hg|exact Hcon|done|lia].
Qed.

(** ** The invariant *)

Record qinv q h cs : Prop := {
  qi_raft : rinv_at q.(q_raft) h cs;
  qi_cluster : inv members q.(q_raft).(r_cl);
  qi_seen : ∃ u, reached h u q.(q_seen);
  qi_commit : ∀ i n, q.(q_raft).(r_cl).(cl_slots) !! i = Some (Up n) → (n.(commitIndex) ≤ q.(q_seen))%N;
  qi_call : ∀ c call, q.(q_calls) !! c = Some call → (call.(rd_floor) ≤ q.(q_seen))%N ∧
    ∃ n, q.(q_raft).(r_cl).(cl_slots) !! call.(rd_node) = Some (Up n) ∧ phase_ok q.(q_raft) h n q.(q_seen) call }.

(** A round while the cluster moves. *)
Lemma round_moves r h h0 r' h' cs' a i n n' floor term since replied acked :
  rperform cfg s0 a r = Some r' → rinv_at r' h' cs' → inv members r'.(r_cl) → extends h0 h' → (n.(currentTerm) ≤ n'.(currentTerm))%N →
  round_ok r h0 i n floor term since replied acked → round_ok r' h0 i n' floor term since replied acked.
Proof.
  intros Hp Hr' Hi' Hx Ht [Hg Hf Hs Ha His Hre Hac]. split; [done|done|done| | | |done].
  - destruct (rperform_replies r a r' Hp) as [[-> _]|[(j & p & req & resp & m & -> & _ & Hm & Hterm)|(? & ? & ? & ? & ? & -> & _)]]; [done| |done].
    intros [|k] j' p' req' resp' Hk Hlt Hsu; cbn in *; [|apply (Ha k j' p' req' resp'); [done|lia|done]]. injection Hk as <- <- <- <-.
    intros u e Hv. rewrite <- (Hterm Hsu). eapply (votes_bound _ _ _ _ _ Hr' Hi' p m Hm). by apply (ex_votes _ _ Hx).
  - destruct (rperform_replies r a r' Hp) as [[_ ->]|[(? & ? & ? & ? & ? & _ & -> & _)|(j & p & req & resp & m & _ & -> & Hm & Hterm)]]; [done|done|].
    intros [|k] j' p' req' resp' Hk Hlt Hsu; cbn in *; [|apply (His k j' p' req' resp'); [done|lia|done]]. injection Hk as <- <- <- <-.
    intros u e Hv. rewrite <- (Hterm Hsu). eapply (votes_bound _ _ _ _ _ Hr' Hi' p m Hm). by apply (ex_votes _ _ Hx).
  - intros p Hp'. destruct (Hre p Hp') as (? & ? & Hv). split_and!; [done|done|]. intros u e Hue. specialize (Hv u e Hue). lia.
Qed.

Lemma phase_moves r h cs r' h' cs' a n n' seen seen' call : rinv_at r h cs → extends h h' →
  rperform cfg s0 a r = Some r' → rinv_at r' h' cs' → inv members r'.(r_cl) →
  r.(r_cl).(cl_slots) !! call.(rd_node) = Some (Up n) →
  ahead (n, pc_of r call.(rd_node)) (n', pc_of r' call.(rd_node)) → (seen ≤ seen')%N →
  phase_ok r h n seen call → phase_ok r' h' n' seen' call.
Proof.
  intros Hr Hx Hp Hr' Hi' Hn [Hst Ht] Hs. unfold phase_ok. destruct (rd_phase call) as [|term since replied acked|term|term index|term|v k].
  - done.
  - intros (h0 & Hx0 & Hro). exists h0. pose proof (extends_trans _ _ _ Hx0 Hx) as Hx'. split; [done|]. by eapply round_moves.
  - by apply reached_grow.
  - done.
  - intros Hle. pose proof (gr_applied _ _ (grows_steps _ _ (proj2 (up_slot _ _ _ _ _ Hr _ n Hn)) Hst)). cbn in *. lia.
  - intros (? & u & x & tr & ? & ? & ? & ?). split; [lia|]. exists u, x, tr.
    split_and!; [done|by eapply ex_committed|eapply trace_grow; [apply Hx|done]|done].
Qed.

(** Every commit index is below the maximum, and the maximum is one of them. *)
Lemma maxCommit_spec (c : @cluster SM St) : (∀ i s, c.(cl_slots) !! i = Some s → (commit_of s ≤ maxCommit c)%N) ∧
  (maxCommit c = 0%N ∨ ∃ i n, c.(cl_slots) !! i = Some (Up n) ∧ maxCommit c = n.(commitIndex)).
Proof.
  unfold maxCommit. generalize c.(cl_slots) as m.
  apply (map_fold_weak_ind (λ (b : N) (m : gmap string (@slot SM St)), (∀ i s, m !! i = Some s → (commit_of s ≤ b)%N) ∧
    (b = 0%N ∨ ∃ i n, m !! i = Some (Up n) ∧ b = n.(commitIndex)))).
  - split; [|by left]. intros i s. by rewrite lookup_empty.
  - intros i s m b Hn [Hle Hor]. split.
    + intros j s' [[_ <-]|[_ Hj]]%lookup_insert_Some; [lia|]. specialize (Hle j s' Hj). lia.
    + destruct (N.max_spec (commit_of s) b) as [[Hlt ->]|[_ ->]].
      * destruct Hor as [?|(j & n & Hj & ?)]; [by left|right]. exists j, n. split; [|done]. rewrite lookup_insert_ne; [done|congruence].
      * destruct s as [n|st]; [right; exists i, n; by rewrite lookup_insert_eq|by left].
Qed.

Lemma seen_moves r h cs seen : rinv_at r h cs → (∃ u, reached h u seen) → ∃ u, reached h u (N.max seen (maxCommit r.(r_cl))).
Proof.
  intros Hr Hs. destruct (N.max_spec seen (maxCommit r.(r_cl))) as [[_ ->]|[_ ->]]; [|done].
  destruct (maxCommit_spec r.(r_cl)) as [_ [->|(i & n & Hi & ->)]]; [exists 0%N, root; split; [by left|done]|].
  destruct (up_mem members s0 r h cs Hr i n Hi) as (_ & vt & _ & Hm). destruct (m_com _ _ _ _ _ _ Hm) as (cp & Hcp & _ & Hcom).
  exists vt, cp. split; [done|lia].
Qed.

Lemma survivors_Some (a : @raction SM) calls c call : survivors a calls !! c = Some call →
  calls !! c = Some call ∧ a ≠ RCluster (ACrash call.(rd_node)).
Proof.
  destruct a as [[j| | | | |]| | | | | | | | | | | | |]; cbn; try done.
  intros [Hc Hne]%map_lookup_filter_Some. split; [done|]. intros [= ->]. by apply Hne.
Qed.

Lemma cluster_qinv a q q' h cs : qinv q h cs → cluster_step cfg s0 a q = Some q' → ∃ h' cs', qinv q' h' cs' ∧ extends h h'.
Proof.
  intros [Hr Hi Hs Hc Hcall]. unfold cluster_step. intros (r' & Hp & [= <-])%bind_Some.
  destruct (rperform_post members cfg s0 Hcfg Hs0 _ h cs Hr Hi a r' Hp) as (h' & cs' & Hr' & Hx).
  pose proof (rperform_inv members cfg s0 Hcfg a _ r' Hp Hi) as Hi'. exists h', cs'. split; [|done]. split; cbn [q_raft q_seen q_calls].
  - done.
  - done.
  - eapply seen_moves; [done|]. destruct Hs as [u Hu]. exists u. by eapply reached_grow.
  - intros i n Hn. pose proof (proj1 (maxCommit_spec r'.(r_cl)) i (Up n) Hn). cbn in *. lia.
  - intros c call [Hcc Hne]%survivors_Some. destruct (Hcall c call Hcc) as (Hfl & n & Hn & Hph). split; [lia|].
    destruct (rperform_stays _ _ _ Hr a r' _ n Hp Hn Hne) as (n' & Hn' & Ha). exists n'. split; [done|].
    eapply (phase_moves q.(q_raft) h cs r' h' cs' a n n' q.(q_seen)); [exact Hr|done|done|done|done|done|done|lia|done].
Qed.

(** A call moves on. *)
Lemma advances_ok q h cs c call n (p : readPhase) : qinv q h cs → caller c q = Some (call, n) → phase_ok q.(q_raft) h n q.(q_seen) call →
  advances q.(q_raft) c call n p → phase_ok q.(q_raft) h n q.(q_seen) (with_phase p call).
Proof.
  intros [Hr Hi Hs Hc Hcall] [Hcc Hn]%caller_Some Hph Ha. pose proof (slot_member _ _ _ _ Hi Hn) as Hmem.
  pose proof (inv_node _ _ Hi _ _ Hn) as Hno. unfold phase_ok in *. destruct Ha as [term Hp Hb|term since replied acked p Hp Hin Er Ht|
    term since replied acked Hp Hq Er Ht|term index Hp Er Ht Hci Hnp|term index Hp Hle|term Hp|]; cbn [with_phase rd_phase rd_node rd_floor rd_key] in *;
    try rewrite Hp in Hph.
  - exists h. split; [eapply extends_refl, Hr|]. unfold ensureQuorum_begin in Hb. destruct (stopped n); [done|]. case_decide; [done|]. injection Hb as <-.
    split; [apply Hr| | | | |set_solver|set_solver].
    + destruct Hs as [u Hu]. exists u. eapply reached_below; [done|]. by apply (Hcall c).
    + intros u e. by apply (votes_bound _ _ _ _ _ Hr Hi _ n Hn).
    + intros k j p req resp Hk Hlt. apply lookup_lt_Some in Hk. cbn in Hlt. lia.
    + intros k j p req resp Hk Hlt. apply lookup_lt_Some in Hk. cbn in Hlt. lia.
  - destruct Hph as (h0 & Hx & [Hg Hf Hse Ha His Hre Hac]). exists h0. split; [done|]. split; try done.
    intros p' [->%elem_of_singleton|Hp']%elem_of_union; [|by apply Hac]. destruct (Hre p Hin) as (? & ? & Hv). by rewrite Ht in Hv.
  - destruct Hph as (h0 & Hx & Hro). by eapply round_confirms.
  - subst term. by eapply index_reaches.
  - lia.
  - destruct (machine_trace _ h cs _ n Hr Hn) as (Hk & x & tr & Hx & Hcom & Htr & Hsm). pose proof (Hc _ n Hn). split; [lia|].
    exists n.(currentTerm), x, tr. split_and!; [done|done|done|by rewrite <- Hsm].
  - done.
Qed.

(** An answer arrives. *)
Lemma answers_ok q h cs c call n term since replied acked p a : qinv q h cs → caller c q = Some (call, n) →
  phase_ok q.(q_raft) h n q.(q_seen) call → call.(rd_phase) = RBarrier term since replied acked →
  answers q.(q_raft) call n since p a → p ∈ dom n.(params).(peerAddrs) →
  phase_ok q.(q_raft) h n q.(q_seen) (with_phase (RBarrier term since ({[p]} ∪ replied) acked) call).
Proof.
  intros [Hr Hi Hs Hc Hcall] [Hcc Hn]%caller_Some Hph Hp Ha Hpeer. unfold phase_ok in *. rewrite Hp in Hph.
  destruct Hph as (h0 & Hx & [Hg Hf Hse Haer His Hre Hac]). exists h0. split; [done|]. split; try done.
  intros p' [->%elem_of_singleton|Hp']%elem_of_union; [|by apply Hre].
  destruct (inv_node _ _ Hi _ _ Hn) as [_ Hdom]. rewrite Hdom in Hpeer. cbn [rd_node with_phase]. split_and!; [set_solver|set_solver|].
  destruct Ha as [k req resp Hk Hlt Hsu Ht|m req resp Hk Hlt Hsu Ht]; rewrite Ht; [by eapply Haer|by eapply His].
Qed.

(** Changing the phase of one call. *)
Lemma qinv_phase q h cs c call n (p : readPhase) : qinv q h cs → caller c q = Some (call, n) →
  phase_ok q.(q_raft) h n q.(q_seen) (with_phase p call) → qinv (set_phase c p q) h cs.
Proof.
  intros [Hr Hi Hs Hc Hcall] [Hcc Hn]%caller_Some Hph. split; cbn [set_phase q_raft q_seen q_calls]; try done.
  intros c' call'. rewrite lookup_alter_Some. intros [(-> & call0 & Hc0 & ->)|[Hne Hc']]; [|by apply (Hcall c')].
  rewrite Hcc in Hc0. injection Hc0 as <-. split; [exact (proj1 (Hcall _ call Hcc))|]. by exists n.
Qed.

Lemma caller_ok q h cs c call n : qinv q h cs → caller c q = Some (call, n) → phase_ok q.(q_raft) h n q.(q_seen) call.
Proof.
  intros Hq [Hcc Hn]%caller_Some. destruct (qi_call _ _ _ Hq c call Hcc) as (_ & n' & Hn' & Hph). rewrite Hn in Hn'. by injection Hn' as ->.
Qed.

(** Steps that receive a reply end no call. *)
Lemma answers_survivors r (call : readCall) n since p (a : @raction SM) calls : answers r call n since p a → survivors a calls = calls.
Proof. by destruct 1. Qed.

(** Receiving the reply and noting who sent it can be done in either order. *)
Lemma set_phase_step c (p : readPhase) (a : @raction SM) q q' : (∀ calls, survivors a calls = calls) → cluster_step cfg s0 a q = Some q' →
  cluster_step cfg s0 a (set_phase c p q) = Some (set_phase c p q').
Proof.
  unfold cluster_step. intros Ha (r' & Hr & [= <-])%bind_Some. cbn [set_phase q_raft q_seen q_calls]. rewrite Hr. cbn. by rewrite !Ha.
Qed.

Lemma qstep_qinv q q' h cs : qinv q h cs → qstep cfg s0 q q' → ∃ h' cs', qinv q' h' cs' ∧ extends h h'.
Proof.
  intros Hq [a Ha]. apply qperform_case in Ha. pose proof Hq as [Hr Hi Hs Hc Hcall].
  destruct Ha as [a' q' Hs'|c i key n Hn Hup|c call n p Hcl Had|c call n term since replied acked p a' q' Hcl Hp Han Hpeer Hs'|c].
  - by eapply cluster_qinv.
  - exists h, cs. split; [|eapply extends_refl, Hr]. split; cbn [q_raft q_seen q_calls]; try done.
    intros c' call [[_ <-]|[_ Hc']]%lookup_insert_Some; [|by apply (Hcall c')]. apply up_at_Some in Hup. cbn. split; [lia|]. by exists n.
  - exists h, cs. split; [|eapply extends_refl, Hr]. eapply qinv_phase; [done|done|]. eapply advances_ok; [done|done|by eapply caller_ok|done].
  - pose proof (answers_ok _ _ _ _ _ _ _ _ _ _ _ _ Hq Hcl (caller_ok _ _ _ _ _ _ Hq Hcl) Hp Han Hpeer) as Hph.
    eapply cluster_qinv; [by eapply qinv_phase|]. apply set_phase_step; [|done]. intros calls. by eapply answers_survivors.
  - exists h, cs. split; [|eapply extends_refl, Hr]. split; cbn [q_raft q_seen q_calls]; try done.
    intros c' call [_ Hc']%lookup_delete_Some. by apply (Hcall c').
Qed.

Lemma qsteps_qinv q q' h cs : qinv q h cs → rtc (qstep cfg s0) q q' → ∃ h' cs', qinv q' h' cs' ∧ extends h h'.
Proof.
  intros Hq Hs. revert h cs Hq. induction Hs as [q|q q1 q2 Hq1 _ IH]; intros h cs Hq.
  - exists h, cs. split; [done|]. eapply extends_refl, Hq.
  - destruct (qstep_qinv q q1 h cs Hq Hq1) as (h1 & cs1 & Hinv1 & Hx1). destruct (IH h1 cs1 Hinv1) as (h2 & cs2 & Hinv2 & Hx2).
    exists h2, cs2. split; [done|by eapply extends_trans].
Qed.

Lemma qreachable_qinv q : qreachable cfg s0 members q → ∃ h cs, qinv q h cs.
Proof.
  intros (q0 & (Hi & Hs & Hc) & Hst). pose proof (rinv_initial members s0 q0.(q_raft) Hi) as Hr.
  assert (qinv q0 h_empty ∅) as Hq0.
  { destruct Hi as ((Hd & Hdown & Hi') & Hi). split; [done|apply inv_initial; by split|rewrite Hs; exists 0%N, root; split; [by left|done]| |].
    - intros i n Hn. by destruct (Hdown _ _ Hn).
    - intros c call. by rewrite Hc. }
  destruct (qsteps_qinv q0 q h_empty ∅ Hq0 Hst) as (h & cs & Hq & _). by exists h, cs.
Qed.

(** ** Calls made later *)

Lemma cluster_step_calls (a : @raction SM) q q' : cluster_step cfg s0 a q = Some q' →
  (q.(q_seen) ≤ q'.(q_seen))%N ∧ ∀ c call, q'.(q_calls) !! c = Some call → q.(q_calls) !! c = Some call.
Proof.
  unfold cluster_step. intros (r' & Hr & [= <-])%bind_Some. cbn. split; [lia|]. by intros c call [? _]%survivors_Some.
Qed.

Lemma set_phase_call c (p : readPhase) q c' call : (set_phase c p q).(q_calls) !! c' = Some call →
  ∃ call', q.(q_calls) !! c' = Some call' ∧ call.(rd_floor) = call'.(rd_floor).
Proof.
  cbn. rewrite lookup_alter_Some. intros [(-> & call' & Hc & ->)|[_ Hc]]; by eexists.
Qed.

(** A call that a step finds or makes. *)
Lemma qstep_calls q q' : qstep cfg s0 q q' → (q.(q_seen) ≤ q'.(q_seen))%N ∧
  ∀ c call, q'.(q_calls) !! c = Some call →
    (∃ call', q.(q_calls) !! c = Some call' ∧ call.(rd_floor) = call'.(rd_floor)) ∨ call.(rd_floor) = q.(q_seen).
Proof.
  intros [a Ha]. apply qperform_case in Ha.
  destruct Ha as [a' q' Hs'|c i key n Hn Hup|c call n p Hcl Had|c call n term since replied acked p a' q' Hcl Hp Han Hpeer Hs'|c].
  - destruct (cluster_step_calls _ _ _ Hs') as [? Hc]. split; [done|]. intros c call ?%Hc. left. by exists call.
  - split; [cbn; lia|]. cbn. intros c' call [[_ <-]|[_ Hc']]%lookup_insert_Some; [by right|left; by exists call].
  - split; [cbn; lia|]. intros c' call' ?%set_phase_call. by left.
  - destruct (cluster_step_calls _ _ _ Hs') as [? Hc]. split; [done|]. intros c' call' (call0 & ?%Hc & ?)%set_phase_call. left. by exists call0.
  - split; [cbn; lia|]. cbn. intros c' call' [_ Hc']%lookup_delete_Some. left. by exists call'.
Qed.

Lemma later_floor q q' c call : rtc (qstep cfg s0) q q' → q.(q_calls) !! c = None → q'.(q_calls) !! c = Some call →
  (q.(q_seen) ≤ call.(rd_floor))%N.
Proof.
  intros Hs Hn. assert ((q.(q_seen) ≤ q'.(q_seen))%N ∧ ∀ call, q'.(q_calls) !! c = Some call → (q.(q_seen) ≤ call.(rd_floor))%N) as [_ Hall]; [|by apply Hall].
  clear call. revert q' Hs. apply rtc_ind_r.
  - split; [done|]. intros call. by rewrite Hn.
  - intros q1 q2 _ Hstep [Hle Hfl]. destruct (qstep_calls _ _ Hstep) as [Hle' Hc]. split; [lia|].
    intros call [(call' & ?%Hfl & ->)| ->]%Hc; [done|lia].
Qed.

(** ** What a returned value is made of *)

(** The command at a position of the path. *)
Lemma trace_lookup T x y (p : N) c (cs : list Command) : tree_ok T → trace T x cs → on T x y → T !! y = Some (p, c) →
  cs !! N.to_nat (y.1 - 1) = Some c.
Proof.
  intros Hok Ht Hon HT. destruct (trace_on T x y cs Hok Hon Ht) as (cs1 & cs2 & -> & Hy).
  inversion Hy as [|? p' c' cs' HT' Hp]; subst; [pose proof (to_index _ Hok _ _ HT); cbn in *; lia|].
  rewrite HT in HT'. injection HT' as <- <-. pose proof (trace_index _ _ _ Hok Hp) as Hl. cbn in Hl.
  rewrite <- app_assoc. rewrite lookup_app_r by (unfold len in Hl; lia). by replace (_ - _) with 0 by (unfold len in Hl; lia).
Qed.

(** A committed entry of a node is in the commands of a later committed
    position, when that reaches so far. *)
Lemma committed_in_trace r h cs h' i n k a x (tr : list Command) u : rinv_at r h cs → extends h h' → ginv members h' →
  r.(r_cl).(cl_slots) !! i = Some (Up n) → entryAtLocked n k = Some a → (k ≤ n.(commitIndex))%N → (k ≤ x.1)%N →
  committed_by h' u x → trace h'.(h_tree) x tr → tr !! N.to_nat (k - 1) = Some a.(EntryCommand).
Proof.
  intros Hr Hx Hg' Hn Ha Hc Hk Hcom Htr. pose proof (gi_tree _ _ Hg') as Hok'.
  destruct (node_entry members s0 r h cs Hr i n Hn k a Ha) as (Hidx & _ & p & Hp).
  pose proof (ex_committed _ _ _ Hx _ _ (node_committed members s0 r h cs Hr i n Hn k a Ha Hc)) as Hca.
  rewrite <- Hidx. apply (trace_lookup h'.(h_tree) x (entry_pos a) p); [done|done| |by eapply lookup_weaken, ex_tree].
  eapply committed_below; [done|exact Hcom|exact Hca|cbn; lia].
Qed.

End proofs.

(** ** Property *)

(** C6. Reads are linearizable, cluster-wide.  Let a call of
    [LinearizableGet] begin after the state [q] and return by the state [q'],
    on whatever node, while elections, crashes, restarts, losses and storage
    failures go on.  Then there is a list of commands, as long as the number
    [k] of entries behind the value, such that the value is the key's in the
    state machine that ran them; every entry that any node had committed in
    [q] is among them, at its index, so that no write acknowledged before the
    read began is missed; the list is as long as that of any read that had
    returned by [q]; and every entry that a node has committed up to [k] at
    any time after [q'] is the one the read used.  (The cluster below is that
    of [Raft.v], where no snapshot file is replaced by an older one.) *)
Theorem linearizable_read {SM St : Type} `{StateMachine SM} `{Store St} `{RandSource} `{MapCodec}
    `{!HardStateLaws St} `{!DiskLaws St} `{!StateMachineLaws SM} `{!MapCodecLaws}
    (members : gset string) (cfg : string → Config) (s0 : SM) (q q' : @reads SM St) c call v k :
  config_ok members cfg → Restore None s0 = s0 → qreachable cfg s0 members q → rtc (qstep cfg s0) q q' →
  q.(q_calls) !! c = None → q'.(q_calls) !! c = Some call → call.(rd_phase) = RDone v k →
  ∃ commands, len commands = k ∧ v = Get call.(rd_key) (apply_all commands s0) ∧
    (∀ i n idx a, q.(q_raft).(r_cl).(cl_slots) !! i = Some (Up n) → entryAtLocked n idx = Some a → (idx ≤ n.(commitIndex))%N →
       commands !! N.to_nat (idx - 1) = Some a.(EntryCommand)) ∧
    (∀ i n, q.(q_raft).(r_cl).(cl_slots) !! i = Some (Up n) → (n.(commitIndex) ≤ k)%N) ∧
    (∀ d call' v' k', q.(q_calls) !! d = Some call' → call'.(rd_phase) = RDone v' k' → (k' ≤ k)%N) ∧
    (∀ q'' i n idx a, rtc (qstep cfg s0) q' q'' → q''.(q_raft).(r_cl).(cl_slots) !! i = Some (Up n) →
       entryAtLocked n idx = Some a → (idx ≤ n.(commitIndex))%N → (idx ≤ k)%N →
       commands !! N.to_nat (idx - 1) = Some a.(EntryCommand)).
Proof.
  intros Hcfg Hs0 Hq Hs Hnew Hc Hph. destruct (qreachable_qinv members cfg s0 Hcfg Hs0 q Hq) as (h & cs & Hinv).
  destruct (qsteps_qinv members cfg s0 Hcfg Hs0 q q' h cs Hinv Hs) as (h' & cs' & Hinv' & Hx).
  pose proof (later_floor cfg s0 q q' c call Hs Hnew Hc) as Hfl.
  destruct (qi_call _ _ _ _ _ Hinv' c call Hc) as (_ & n0 & _ & Hdone). unfold phase_ok in Hdone. rewrite Hph in Hdone.
  destruct Hdone as ([Hk _] & u & x & tr & Hxk & Hcom & Htr & ->). pose proof (ri_ginv _ _ _ _ _ (qi_raft _ _ _ _ _ Hinv')) as Hg'.
  pose proof (trace_index _ _ _ (gi_tree _ _ Hg') Htr) as Hlen. exists tr. split_and!.
  - congruence.
  - done.
  - intros i n idx a Hn Ha Hle. pose proof (qi_commit _ _ _ _ _ Hinv i n Hn).
    eapply (committed_in_trace members s0 _ h cs h' i n idx a x tr u); [apply Hinv|done|done|done|done|done|lia|done|done].
  - intros i n Hn. pose proof (qi_commit _ _ _ _ _ Hinv i n Hn). lia.
  - intros d call' v' k' Hd Hp. destruct (qi_call _ _ _ _ _ Hinv d call' Hd) as (_ & n' & _ & Hok). unfold phase_ok in Hok.
    rewrite Hp in Hok. destruct Hok as ([_ ?] & _). lia.
  - intros q'' i n idx a Hs' Hn Ha Hle Hik. destruct (qsteps_qinv members cfg s0 Hcfg Hs0 q' q'' h' cs' Hinv' Hs') as (h2 & cs2 & Hinv2 & Hx2).
    eapply (committed_in_trace members s0 _ h2 cs2 h2 i n idx a x tr u); [apply Hinv2|eapply extends_refl, (qi_raft _ _ _ _ _ Hinv2)| |done|done|done|lia| |eapply trace_grow; [apply Hx2|done]].
    + apply (qi_raft _ _ _ _ _ Hinv2).
    + by eapply ex_committed.
Qed.

(** ** A read in a cluster of three *)

Definition reads3 : @reads KV.KVStateMachine FileStore := mkReads raft3 0 ∅.

(** ["n1"] leads and has committed the put; a read begins; ["n2"] answers
    its barrier. *)
Definition beforeRead : list (@qaction KV.KVStateMachine) := QRaft <$> firstTerm.
Definition theRead : list (@qaction KV.KVStateMachine) :=
  [QCall 0 "n1" "x"; QBarrier 0; QRaft (RPrepare "n1" "n2"); QRaft (RAppend 0); QReply 0 0; QCount 0 "n2"; QConfirm 0; QIndex 0; QWait 0; QRead 0].


Definition call3 : readCall := mkRead "n1" "x" 2 (RDone ("1", true) 2).

Lemma qinitial_reads3 : qinitial (dom peers3) reads3.
Proof. exact (conj rinitial_raft3 (conj eq_refl eq_refl)). Qed.

Lemma readRun : ∃ q q', qreachable cfg3 KV.NewKVStateMachine (dom peers3) q ∧ rtc (qstep cfg3 KV.NewKVStateMachine) q q' ∧
  q.(q_calls) !! 0 = None ∧ q'.(q_calls) !! 0 = Some call3 ∧
  view q.(q_raft) "n1" = Some (Leader, 1, 2, 2, 0, Some noop1, Some put2, AIdle, machine1)%N.
Proof.
  assert ((λ q, (q.(q_calls) !! 0, view q.(q_raft) "n1")) <$> qrun cfg3 KV.NewKVStateMachine beforeRead reads3 =
    Some (None, Some (Leader, 1, 2, 2, 0, Some noop1, Some put2, AIdle, machine1))%N) as H1 by (vm_compute; reflexivity).
  assert ((λ q, q.(q_calls) !! 0) <$> (qrun cfg3 KV.NewKVStateMachine beforeRead reads3 ≫= qrun cfg3 KV.NewKVStateMachine theRead) =
    Some (Some call3)) as H2 by (vm_compute; reflexivity).
  apply fmap_Some in H1 as (q & Eq & H1). apply fmap_Some in H2 as (q' & Hb & H2). apply bind_Some in Hb as (q2 & Eq2 & Eq').
  rewrite Eq in Eq2. injection Eq2 as <-. pose proof (f_equal fst H1) as H1a. pose proof (f_equal snd H1) as H1b. cbn [fst snd] in H1a, H1b.
  exists q, q'. split_and!; [|by eapply qrun_steps|done|done|done].
  exists reads3. split; [exact qinitial_reads3|]. by eapply qrun_steps.
Qed.

Lemma linearizable_read_witness : ∃ (q q' : @reads KV.KVStateMachine FileStore) n commands,
  q.(q_raft).(r_cl).(cl_slots) !! "n1" = Some (Up n) ∧ entryAtLocked n 2 = Some put2 ∧ q'.(q_calls) !! 0 = Some call3 ∧
  len commands = 2%N ∧ ("1", true) = Get "x" (apply_all commands KV.NewKVStateMachine) ∧ commands !! 1 = Some putX.
Proof.
  destruct readRun as (q & q' & Hq & Hs & Hnew & Hc & H1). apply view_node in H1 as (n & Hn & _ & _ & Hnc & _ & _ & _ & Hn2 & _).
  destruct (linearizable_read (dom peers3) cfg3 KV.NewKVStateMachine q q' 0 call3 ("1", true) 2 config_ok_cfg3 restore_nil Hq Hs Hnew Hc eq_refl)
    as (commands & Hlen & Hv & Hall & _). exists q, q', n, commands. split_and!; try done.
  apply (Hall "n1" n 2%N put2 Hn Hn2). by rewrite Hnc.
Defined.
