(* ===== verification/Reads.v ===== *)
(** * Linearizable reads

    The parts of [LinearizableGet]: the read barrier of [ensureQuorum], the
    wait for the read index and the read itself.  The waits sleep on
    [applyCond]; [waiter_step] is one such wait among the other goroutines,
    with its context and the callback that the end of the context runs, and
    no sleeper misses the wake-up that ends its wait. *)

From S2P Require Import Prelude Types StateMachine StoreIntf RaftLog NodeState Node Replication NodeStep NodeInv ApplySys TestEnv Waiters Proposals Handlers.

(** ** The barrier *)

Lemma barrier_spec target npeers : ∀ results (t : tally),
  t.(acked) < target → t.(acked) + t.(failed) + length results = npeers + 1 → results ≠ [] →
  barrier target npeers t results = Some (bool_decide (target ≤ t.(acked) + length (filter (λ b, b = true) results))).
Proof.
  induction results as [|ok rest IH]; intros t Hlt Hlen Hne; [done|].
  assert (acked (tally_result t ok) + length (filter (λ b, b = true) rest) =
          acked t + length (filter (λ b, b = true) (ok :: rest))) as Hcount.
  { destruct ok; [rewrite filter_cons_True by done|rewrite filter_cons_False by done]; cbn [acked tally_result length]; lia. }
  assert (acked (tally_result t ok) + failed (tally_result t ok) + length rest = npeers + 1) as Hlen'.
  { cbn in Hlen. destruct ok; cbn; lia. }
  cbn [barrier]. unfold tally_signal. rewrite <- Hcount.
  case_decide as Hq; [by rewrite bool_decide_true by lia|].
  case_decide as Hall; [|apply IH; [lia|done|intros ->; cbn in Hlen'; lia]].
  assert (rest = []) as -> by (destruct rest; [done|cbn in Hlen'; lia]). cbn. by rewrite bool_decide_false by lia.
Qed.

Section wake.
Context {SM St : Type} `{StateMachine SM} `{Store St} `{RandSource} `{MapCodec}.
#[local] Abbreviation Node := (Node SM St).
Implicit Types n : Node.

(** ** Wake-ups *)

(** What a sleeper's test looks at has not moved in a direction that ends
    its wait. *)
Definition asleep n n' : Prop :=
  n'.(lastApplied) = n.(lastApplied) ∧ n'.(stopped) = n.(stopped) ∧ n'.(storageFatal) = n.(storageFatal) ∧
  (n.(role) = Leader → n'.(role) = Leader ∧ n'.(currentTerm) = n.(currentTerm)).

Definition wakes n n' : Prop :=
  n.(broadcasts) < n'.(broadcasts) ∨ n'.(broadcasts) = n.(broadcasts) ∧ asleep n n'.

#[global] Instance wakes_preorder : PreOrder wakes.
Proof.
  split; [right; by split_and!|]. intros n1 n2 n3 [H12|[H12 (Ha & Hs & Hf & Hr)]] [H23|[H23 (Ha' & Hs' & Hf' & Hr')]].
  1-3: left; lia. right. split; [lia|]. split_and!; [congruence..|].
  intros Hl. destruct (Hr Hl) as [Hl2 Ht]. destruct (Hr' Hl2). split; [done|congruence].
Qed.

(** The fields a wake-up depends on. *)
Definition sleepers n :=
  (n.(lastApplied), n.(stopped), n.(storageFatal), n.(role), n.(currentTerm), n.(broadcasts)).

Lemma sleepers_wakes n n' : sleepers n' = sleepers n → wakes n n'.
Proof. unfold sleepers. intros [= Ha Hs Hf Hr Ht Hb]. right. split; [done|]. split_and!; try done. by rewrite Hr. Qed.

Lemma save_sleepers commit n e n' : saveHardStateLocked commit n = (e, n') → sleepers n' = sleepers n.
Proof. by intros (st & le & -> & _ & _)%save_fields. Qed.

Lemma failStorage_wakes e n : wakes n (failStorageLocked e n).
Proof. left. cbn. lia. Qed.

Lemma becomeFollower_wakes term leader b n e n' :
  becomeFollowerWithTimerLocked term leader b n = (e, n') → wakes n n'.
Proof.
  unfold becomeFollowerWithTimerLocked. set (n2 := if b then _ else _).
  assert (n2.(broadcasts) = n.(broadcasts) ∧ n2.(lastApplied) = n.(lastApplied) ∧
          n2.(stopped) = n.(stopped) ∧ n2.(storageFatal) = n.(storageFatal)) as (Hb & Ha & Hs & Hf).
  { by subst n2; destruct b, (decide (currentTerm n < term)%N). }
  clearbody n2. unfold persistHardStateLocked. destruct (saveHardStateLocked _ n2) as [e2 n3] eqn:E.
  apply save_sleepers in E. unfold sleepers in E. injection E as Ha3 Hs3 Hf3 _ _ Hb3.
  destruct e2 as [e2|]; intros [= <- <-]; [left; cbn; lia|].
  destruct (decide (role n = Leader)); [left; cbn; lia|]. right. split; [congruence|]. split_and!; [congruence..|done].
Qed.

Lemma follow_wakes (P : Prop) `{Decision P} term leader n e n' :
  (if decide P then becomeFollowerLocked term leader n else (None, n)) = (e, n') → wakes n n'.
Proof. case_decide; intros E; [by eapply becomeFollower_wakes|by simplify_eq]. Qed.

Lemma stepDown_wakes t leader n : wakes n (stepDown t leader n).
Proof. unfold stepDown, becomeFollowerLocked. destruct (becomeFollowerWithTimerLocked _ _ _ _) eqn:E. by eapply becomeFollower_wakes. Qed.

Lemma advance_wakes n : wakes n (advanceCommitLocked n).
Proof.
  unfold advanceCommitLocked. destruct (advanceLoop _ _ _) as [i|]; [|done]. unfold persistHardStateLocked.
  destruct (saveHardStateLocked _ _) as [[e|] n1] eqn:E; apply save_sleepers in E; unfold sleepers in E;
    injection E as _ _ _ _ _ Hb; left; cbn in *; lia.
Qed.

Lemma aeCommit_wakes req lastNew n : wakes n (aeCommit req lastNew n).2.
Proof.
  unfold aeCommit. case_decide; [|done]. unfold persistHardStateLocked.
  destruct (saveHardStateLocked _ _) as [[e|] n1] eqn:E; apply save_sleepers in E.
  - by apply sleepers_wakes.
  - unfold sleepers in E. injection E as _ _ _ _ _ Hb. left. cbn in *. lia.
Qed.

Lemma aeMerge_wakes req n : wakes n (aeMerge req n).2.
Proof.
  unfold aeMerge. destruct (mergeEntries _ _ _ _ _) as [m log'].
  case_decide; [by apply sleepers_wakes|]. destruct (changed m).
  - set (r := if replaced m then _ else _). destruct r as [[e|] st]; [left; cbn; lia|].
    etrans; [|apply aeCommit_wakes]. by apply sleepers_wakes.
  - etrans; [|apply aeCommit_wakes]. by apply sleepers_wakes.
Qed.

Lemma HandleAppendEntries_wakes req n : wakes n (HandleAppendEntries req n).2.
Proof.
  unfold HandleAppendEntries. do 3 (case_decide; [done|]).
  destruct (if decide (_ ∨ _) then _ else _) as [e n1] eqn:E. apply follow_wakes in E.
  destruct e as [e|]; [done|]. set (n2 := resetElectionLocked _).
  assert (wakes n n2) as Hw by (etrans; [exact E|by apply sleepers_wakes]).
  do 2 (case_decide; [exact Hw|]). etrans; [exact Hw|apply aeMerge_wakes].
Qed.

Lemma isGuards_wakes req n : wakes n (isGuards req n).2.
Proof.
  unfold isGuards. do 3 (case_decide; [done|]).
  destruct (if decide (_ ∨ _) then _ else _) as [e n1] eqn:E. apply follow_wakes in E.
  destruct e as [e|]; [|case_decide]; (etrans; [exact E|by apply sleepers_wakes]).
Qed.

Lemma isChunk_wakes req p n : wakes n (isChunk req p n).2.
Proof. unfold isChunk. case_decide; [done|]. destruct (is_Done req); by apply sleepers_wakes. Qed.

Lemma install_recv_wakes req n : wakes n (HandleInstallSnapshot_recv req n).2.
Proof.
  unfold HandleInstallSnapshot_recv. pose proof (isGuards_wakes req n) as Hg.
  destruct (isGuards req n) as [[r|[]] n1]; cbn in Hg; [done|]. etrans; [exact Hg|].
  destruct (pendingSnapshot n1); repeat case_decide; try done; try apply isChunk_wakes;
    (etrans; [|apply isChunk_wakes]; by apply sleepers_wakes).
Qed.

Lemma isInstall_wakes req data sz n : wakes n (isInstall req data sz n).2.
Proof.
  unfold isInstall. destruct (SaveSnapshot _ _) as [[e|] st1]; [left; cbn; lia|].
  destruct (ReplaceEntries _ _) as [[e|] st2]; [left; cbn; lia|].
  destruct (saveHardStateLocked _ _) as [[e|] n1] eqn:E; apply save_sleepers in E; unfold sleepers in E;
    injection E as _ _ _ _ _ Hb; left; cbn in *; [lia|]. case_decide; cbn; lia.
Qed.

Lemma install_final_wakes req body n : wakes n (HandleInstallSnapshot_final req body n).2.
Proof.
  unfold HandleInstallSnapshot_final. destruct (match body with [] => _ | _ => _ end); [|by apply sleepers_wakes].
  pose proof (isGuards_wakes req n) as Hg. destruct (isGuards req n) as [[r|[]] n1]; cbn in Hg.
  { etrans; [exact Hg|by apply sleepers_wakes]. }
  etrans; [exact Hg|]. destruct (pendingSnapshot n1); [|done]. case_decide; [apply isInstall_wakes|done].
Qed.

Lemma startElection_wakes n : wakes n (startElection n).2.
Proof.
  unfold startElection. case_decide as Hd; [done|]. unfold persistHardStateLocked.
  destruct (saveHardStateLocked _ _) as [[e|] n1] eqn:E; apply save_sleepers in E; unfold sleepers in E;
    injection E as Ha Hs Hf _ _ Hb; cbn in *; right; (split; [done|]); split_and!; try done.
  intros Hl. exfalso. apply Hd. auto.
Qed.

Lemma HandleRequestVote_wakes req n : wakes n (HandleRequestVote req n).2.
Proof.
  unfold HandleRequestVote. do 3 (case_decide; [done|]).
  destruct (if decide _ then _ else _) as [e n1] eqn:E.
  assert (wakes n n1) as Hs.
  { revert E. case_decide; intros E; [by eapply becomeFollower_wakes|by injection E as _ <-]. }
  clear E. destruct e; [done|]. case_decide; [|done]. etrans; [exact Hs|]. unfold persistHardStateLocked.
  destruct (saveHardStateLocked _ _) as [[e|] n2] eqn:E; apply save_sleepers in E; by apply sleepers_wakes.
Qed.

Lemma becomeLeader_wakes t n : wakes n (becomeLeader t n).2.
Proof.
  unfold becomeLeader. case_decide as Hd; [done|].
  destruct (AppendEntries _ _) as [[e|] st]; (etrans; [|apply failStorage_wakes || apply advance_wakes]);
    (right; split; [done|]; split_and!; try done; intros Hl; exfalso; apply Hd; right; left; congruence).
Qed.

Lemma kick_wakes n : wakes n (kickReplication n).
Proof. by apply sleepers_wakes. Qed.

Lemma propose_wakes ctx c n : wakes n (Propose_start ctx c n).2.
Proof.
  unfold Propose_start. destruct ctx; [done|]. unfold proposeAppend.
  destruct (stopped n); [done|]. destruct (storageFatal n); [done|]. case_decide; [done|].
  destruct (AppendEntries _ _) as [[e|] st]; [left; cbn; lia|]. cbn [snd].
  match goal with |- wakes n (kickReplication (advanceCommitLocked ?m)) => assert (wakes n m) as Hm by (by apply sleepers_wakes) end.
  etrans; [exact Hm|]. etrans; [apply advance_wakes|]. apply kick_wakes.
Qed.

Lemma select_wakes w i ctx n : wakes n (Propose_select w i ctx n).2.
Proof.
  apply sleepers_wakes. unfold Propose_select, removeWaiter.
  by destruct (chans n !! w) as [[[|] [] ]|], ctx; cbn; repeat case_decide.
Qed.

Lemma finish_wakes e r n : wakes n (applyReady_finish e r n).2.
Proof. unfold applyReady_finish. case_decide; [done|]. left. cbn. lia. Qed.

(** Every step of every goroutine that changes what a waiting reader tests
    broadcasts. *)
Lemma nrun_wakes op n : node_wf n → wakes n (nrun op n).
Proof.
  intros Hwf. destruct op; cbn [nrun]; try by apply sleepers_wakes.
  - unfold Stop. destruct (stopped n); [done|]. left. cbn. lia.
  - apply HandleAppendEntries_wakes.
  - apply install_recv_wakes.
  - apply install_final_wakes.
  - apply propose_wakes.
  - apply select_wakes.
  - by destruct (applyReady_next_wf n Hwf) as (-> & _).
  - apply sleepers_wakes. unfold applyReady_apply. by destruct (Apply _ _).
  - apply finish_wakes.
  - apply sleepers_wakes. unfold persistSnapshot_save. by destruct (SaveSnapshot _ _) as [[]].
  - apply sleepers_wakes. unfold persistSnapshot_finish. case_decide; [done|]. by destruct (ReplaceEntries _ _) as [[]].
  - apply sleepers_wakes. unfold acquirePeerReplication_poll. destruct ctx; [done|]. case_decide; [done|].
    by destruct (map_bool _ _).
  - apply sleepers_wakes. unfold replicateAllOnce_begin. destruct (stopped n) eqn:Es; [done|]. by case_decide.
  - apply sleepers_wakes. unfold replicateToPeer_prepare. case_decide; [done|].
    destruct (decide (map_N _ _ = 0%N)); case_decide; try done; by destruct (termAtLocked _ _).
  - apply sleepers_wakes. unfold replicateToPeer_snapshotDone. by case_decide.
  - unfold replicateToPeer_response. case_decide; [apply stepDown_wakes|]. case_decide; [done|].
    destruct (aer_Success resp); [|case_decide; [by apply sleepers_wakes|done]].
    etrans; [|apply advance_wakes]. by apply sleepers_wakes.
  - unfold sendSnapshot_check. case_decide; [apply stepDown_wakes|]. by case_decide.
  - apply startElection_wakes.
  - apply HandleRequestVote_wakes.
  - apply becomeLeader_wakes.
  - apply stepDown_wakes.
Qed.

Lemma asleep_waits ctx index n n' :
  asleep n n' → waitUntilApplied_check ctx index n = None → waitUntilApplied_check ctx index n' = None.
Proof. intros (Ha & Hs & Hf & _). unfold waitUntilApplied_check. by rewrite Ha, Hs, Hf. Qed.

Lemma asleep_waits_leader ctx index term n n' :
  asleep n n' → waitUntilAppliedAsLeader_check ctx index term n = None →
  waitUntilAppliedAsLeader_check ctx index term n' = None.
Proof.
  intros (Ha & Hs & Hf & Hr). unfold waitUntilAppliedAsLeader_check. rewrite Ha, Hs, Hf.
  destruct (stopped n); [done|]. destruct (storageFatal n); [done|].
  destruct (decide (role n ≠ Leader ∨ currentTerm n ≠ term)) as [|Hd]; [done|]. destruct (Hr ltac:(destruct (role n); naive_solver)) as [Hr' Ht'].
  intros Hn. rewrite (decide_False (P:=(role n' ≠ Leader ∨ currentTerm n' ≠ term))); [done|].
  rewrite Hr', Ht'. naive_solver.
Qed.

(** A done context ends the loop. *)
Lemma check_ctx_done ctx index n : waitUntilApplied_check ctx index n = None → ctx = None.
Proof. unfold waitUntilApplied_check. case_decide; [|done]. destruct (stopped n), (storageFatal n), ctx; done. Qed.

Lemma check_leader_ctx_done ctx index term n : waitUntilAppliedAsLeader_check ctx index term n = None → ctx = None.
Proof.
  unfold waitUntilAppliedAsLeader_check. destruct (stopped n); [done|]. destruct (storageFatal n); [done|].
  case_decide; [done|]. case_decide; [|done]. by destruct ctx.
Qed.

(** ** A wait

    [waitUntilApplied] and [waitUntilAppliedAsLeader] as a goroutine among
    the others: [check] is the test of the loop and [callback] the function
    given to [context.AfterFunc].  [wt_func] says that the callback is
    registered and has not run; [wt_asleep] is [Some b] while the caller is
    in [applyCond.Wait()], which it entered after [b] broadcasts; [wt_result]
    is what it returned. *)
Record waiter := mkWaiter {
  wt_sys : Node * apply_pc;
  wt_ctx : option error;
  wt_func : bool;
  wt_asleep : option nat;
  wt_result : option (option error) }.

Section wait.
Context (check : option error → Node → option (option error)) (callback : Node → Node).

(** The caller and the callback: the context being done lets the callback
    run, once; a broadcast lets a sleeper go on; a caller that is awake
    tests and returns (which unregisters the callback) or sleeps. *)
Inductive own_step : waiter → waiter → Prop :=
  | os_callback n pc e a r :
      own_step (mkWaiter (n, pc) (Some e) true a r) (mkWaiter (callback n, pc) (Some e) false a r)
  | os_wake n pc ctx f b :
      b < n.(broadcasts) → own_step (mkWaiter (n, pc) ctx f (Some b) None) (mkWaiter (n, pc) ctx f None None)
  | os_test n pc ctx f :
      own_step (mkWaiter (n, pc) ctx f None None)
        match check ctx n with
        | Some r => mkWaiter (n, pc) ctx false None (Some r)
        | None => mkWaiter (n, pc) ctx f (Some n.(broadcasts)) None
        end.

(** With the other goroutines of the node, and the end of the context. *)
Inductive waiter_step : waiter → waiter → Prop :=
  | ws_own w w' : own_step w w' → waiter_step w w'
  | ws_node x x' ctx f a r : sstep x x' → waiter_step (mkWaiter x ctx f a r) (mkWaiter x' ctx f a r)
  | ws_ctx x e f a r : waiter_step (mkWaiter x None f a r) (mkWaiter x (Some e) f a r).

(** The call: [AfterFunc], then the lock and the first test. *)
Definition wait_begin (x : Node * apply_pc) (ctx : option error) : waiter := mkWaiter x ctx true None None.

Hypothesis callback_broadcasts : ∀ n, callback n = broadcast n.
Hypothesis check_ctx : ∀ ctx n, check ctx n = None → ctx = None.
Hypothesis check_asleep : ∀ n n', asleep n n' → check None n = None → check None n' = None.
Hypothesis check_broadcast : ∀ ctx n, check ctx (broadcast n) = check ctx n.

Context `{!StateMachineLaws SM}.

(** A sleeper whose number of broadcasts is still current has nothing to
    wake up for but its context, and the callback will run for that. *)
Definition wait_inv (w : waiter) : Prop :=
  sys_inv w.(wt_sys) ∧ (w.(wt_result) = None → w.(wt_func) = false → w.(wt_ctx) ≠ None) ∧
  ∀ b, w.(wt_asleep) = Some b → w.(wt_result) = None ∧ b ≤ w.(wt_sys).1.(broadcasts) ∧
    (b = w.(wt_sys).1.(broadcasts) → check None w.(wt_sys).1 = None ∧ (w.(wt_ctx) ≠ None → w.(wt_func) = true)).

Lemma sstep_wakes x x' : sys_inv x → sstep x x' → wakes x.1 x'.1.
Proof.
  intros Hi Hs. destruct Hs as [n pc op _ _|n pc req body _ _|n|n e|n e r|n sn|n sn|n sn]; destruct Hi as [Hwf _]; cbn [fst].
  - by apply nrun_wakes.
  - by apply nrun_wakes.
  - by apply (nrun_wakes DoApplyNext).
  - by apply (nrun_wakes (DoApplyApply e)).
  - by apply (nrun_wakes (DoApplyFinish e r)).
  - done.
  - by apply (nrun_wakes (DoSnapshotSave sn)).
  - by apply (nrun_wakes (DoSnapshotFinish sn)).
Qed.

Lemma wait_inv_own w w' : wait_inv w → own_step w w' → wait_inv w'.
Proof.
  intros (Hi & Hf & Ha) Hs. destruct Hs as [n pc e a r|n pc ctx f b Hb|n pc ctx f]; cbn in *.
  - rewrite callback_broadcasts. split_and!; [|done|].
    + apply (sys_inv_evolves n); [done|]. by apply evolves_core; [apply Hi|].
    + intros b Hb. destruct (Ha b Hb) as (Hr & Hle & _). cbn. split_and!; [done|lia|lia].
  - by split_and!.
  - destruct (check ctx n) as [r|] eqn:Ec; cbn; [by split_and!|]. split_and!; [done|done|].
    intros b [= <-]. apply check_ctx in Ec as Hc. subst ctx. by split_and!.
Qed.

Lemma wait_inv_step w w' : wait_inv w → waiter_step w w' → wait_inv w'.
Proof.
  intros Hw Hs. destruct Hs as [w w' Hs|x x' ctx f a r Hs|x e f a r]; [by eapply wait_inv_own| |];
    destruct Hw as (Hi & Hf & Ha); cbn in *; (split_and!; [|done|]); cbn.
  - by eapply sys_inv_step.
  - intros b Hb. destruct (Ha b Hb) as (Hr & Hle & Hcur).
    destruct (sstep_wakes x x' Hi Hs) as [Hlt|[Heq Hsl]]; [split_and!; [done|lia|lia]|]. rewrite Heq.
    split_and!; [done|done|]. intros Hbb. destruct (Hcur Hbb) as [Hn Hc]. split; [by eapply check_asleep|done].
  - done.
  - intros b Hb. destruct (Ha b Hb) as (Hr & Hle & Hcur). split_and!; [done|done|]. intros Hbb.
    destruct (Hcur Hbb) as [Hn _]. split; [done|]. intros _. destruct f; [done|]. by destruct (Hf Hr eq_refl).
Qed.

(** A wait that is over ends: by its own steps alone. *)
Lemma wait_returns w r : wait_inv w → w.(wt_result) = None → check w.(wt_ctx) w.(wt_sys).1 = Some r →
  ∃ k w', k ≤ 3 ∧ nsteps own_step k w w' ∧ w'.(wt_result) = Some r.
Proof.
  destruct w as [[n pc] ctx f a res]. intros (Hi & Hf & Ha) Hres Hc. cbn in *. subst res.
  assert (∀ m f', check ctx m = Some r → ∃ w', own_step (mkWaiter (m, pc) ctx f' None None) w' ∧ w'.(wt_result) = Some r) as Htest.
  { intros m f' Hm. eexists. split; [apply os_test|]. by rewrite Hm. }
  destruct a as [b|]; [|destruct (Htest n f Hc) as (w' & ? & ?); exists 1, w'; split_and!; [lia|by apply nsteps_once|done]].
  destruct (Ha b eq_refl) as (_ & Hle & Hcur). destruct (decide (b = n.(broadcasts))) as [Heq|Hne].
  - destruct (Hcur Heq) as [Hn Hfn]. destruct ctx as [e|]; [|congruence]. rewrite (Hfn ltac:(done)) in *.
    destruct (Htest (broadcast n) false) as (w' & Hw' & ?); [by rewrite check_broadcast|].
    exists 3, w'. split_and!; [lia| |done]. eapply nsteps_l; [apply os_callback|]. rewrite callback_broadcasts.
    eapply nsteps_l; [apply os_wake; cbn; lia|]. by apply nsteps_once.
  - destruct (Htest n f Hc) as (w' & Hw' & ?). exists 2, w'. split_and!; [lia| |done].
    eapply nsteps_l; [apply os_wake; lia|]. by apply nsteps_once.
Qed.

Lemma wait_over_ends x ctx w r : sys_reachable x → rtc waiter_step (wait_begin x ctx) w →
  w.(wt_result) = None → check w.(wt_ctx) w.(wt_sys).1 = Some r →
  ∃ k w', k ≤ 3 ∧ nsteps own_step k w w' ∧ w'.(wt_result) = Some r.
Proof.
  intros Hx Hs. apply wait_returns. assert (wait_inv (wait_begin x ctx)) as Hi.
  { split_and!; [by apply sys_reachable_inv|done|done]. }
  clear Hx. revert Hi. induction Hs as [|w1 w2 w3 H12 _ IH]; [done|]. intros Hi. apply IH. by eapply wait_inv_step.
Qed.

End wait.

(** ** The steps of a read *)

Context `{!StateMachineLaws SM}.

(** In every reachable state the machine is a replay of at least
    [lastApplied] entries. *)
Lemma machine_replays n pc : sys_reachable (n, pc) →
  ∃ a, (n.(lastApplied) ≤ a ≤ n.(commitIndex))%N ∧ n.(sm) = replayed n a.
Proof.
  intros [Hwf Hi]%sys_reachable_inv. pose proof (nw_applied _ Hwf).
  destruct pc as [|e|e r|sn|sn|sn]; [exists n.(lastApplied); split; [lia|done]| | |..];
    try (exists n.(lastApplied); split; [lia|apply Hi]).
  - destruct Hi as (Hsm & _ & He & Hc). exists (n.(lastApplied) + 1)%N. split; [lia|].
    by rewrite Hsm, (replayed_next n e Hwf He Hc).
Qed.

End wake.

(** ** Properties *)

Section properties.
Context {SM St : Type} `{StateMachine SM} `{Store St} `{RandSource} `{MapCodec}.
Implicit Types n : Node SM St.

(** C40. The read barrier counts a majority.  Once every peer has answered or
    failed, the barrier has signalled, and it has signalled success exactly
    when the acknowledgements and the leader together reach the quorum. *)
Theorem barrier_counts_majority n (results : list bool) :
  length results = size n.(params).(peerAddrs) → results ≠ [] →
  barrier (quorum n) (size n.(params).(peerAddrs)) (mkTally 1 0) results =
    Some (bool_decide (quorum n ≤ 1 + length (filter (λ b, b = true) results))).
Proof.
  intros Hl Hne. apply barrier_spec; cbn [acked failed]; [|lia|done]. unfold quorum.
  assert (1 ≤ length results) as Hs by (destruct results; [done|cbn; lia]). rewrite Hl in Hs.
  assert (1 ≤ (size n.(params).(peerAddrs) + 1) / 2) by (apply Nat.div_le_lower_bound; lia). lia.
Qed.

(** C25. No lost wake-up.  Take a wait of a reader, from the call on, in any
    interleaving with the goroutines of the node, the end of its context and
    the callback registered for it.  As soon as its wait is over (the entry
    got applied, leadership or the term was lost, storage failed, the node
    stopped, or the context is done), the call returns what the test then
    says within three steps of its own (the callback, the wake-up, the test),
    without any help from the other goroutines: it never sleeps on. *)
Theorem no_lost_wakeup `{!StateMachineLaws SM} x ctx index term w r :
  sys_reachable x → w.(wt_result) = None →
  (let check c n := waitUntilApplied_check c index n in
   rtc (waiter_step check waitUntilApplied_afterFunc) (wait_begin x ctx) w → check w.(wt_ctx) w.(wt_sys).1 = Some r →
   ∃ k w', k ≤ 3 ∧ nsteps (own_step check waitUntilApplied_afterFunc) k w w' ∧ w'.(wt_result) = Some r) ∧
  (let check c n := waitUntilAppliedAsLeader_check c index term n in
   rtc (waiter_step check waitUntilAppliedAsLeader_afterFunc) (wait_begin x ctx) w →
   check w.(wt_ctx) w.(wt_sys).1 = Some r →
   ∃ k w', k ≤ 3 ∧ nsteps (own_step check waitUntilAppliedAsLeader_afterFunc) k w w' ∧ w'.(wt_result) = Some r).
Proof.
  intros Hx Hr. split; intros check Hs Hc; (eapply wait_over_ends; [..|exact Hc]; try done); unfold check.
  - intros c n. by apply check_ctx_done.
  - intros n n'. apply asleep_waits.
  - intros c n. by apply check_leader_ctx_done.
  - intros n n'. apply asleep_waits_leader.
Qed.

(** The sections of one successful turn of [LinearizableGet] along a run:
    the barrier of term [t] started in [n0] and ended in [n1], the read index
    taken in [n2], the wait over in [n3], the value read in [n4]. *)
Lemma read_sections `{!StateMachineLaws SM} n0 pc0 n1 pc1 n2 pc2 n3 pc3 n4 pc4 t index key v :
  sys_reachable (n0, pc0) → rtc sstep (n0, pc0) (n1, pc1) → rtc sstep (n1, pc1) (n2, pc2) →
  rtc sstep (n2, pc2) (n3, pc3) → rtc sstep (n3, pc3) (n4, pc4) →
  ensureQuorum_begin n0 = inl t → ensureQuorum_end t true n1 = inl t →
  LinearizableGet_index t n2 = ReadOk index →
  waitUntilAppliedAsLeader_check None index t n3 = Some None →
  LinearizableGet_read t key n4 = ReadOk v →
  ∃ a, v = Get key (replayed n4 a) ∧ (n0.(commitIndex) ≤ a)%N ∧ (n2.(commitIndex) ≤ a)%N ∧ (n2.(leaderNoopIndex) ≤ a)%N ∧
    (a ≤ n4.(commitIndex))%N ∧
    n2.(role) = Leader ∧ n2.(currentTerm) = t ∧ n4.(role) = Leader ∧ n4.(currentTerm) = t.
Proof.
  intros Hr H01 H12 H23 H34 _ Hq Hidx Hw Hread.
  assert (sys_reachable (n1, pc1)) as R1 by (by eapply sys_reachable_steps).
  assert (sys_reachable (n2, pc2)) as R2 by (by eapply sys_reachable_steps).
  assert (sys_reachable (n3, pc3)) as R3 by (by eapply sys_reachable_steps).
  assert (sys_reachable (n4, pc4)) as R4 by (by eapply sys_reachable_steps).
  pose proof (gr_commit _ _ (grows_steps _ _ (sys_reachable_inv _ Hr) H01)) as G01.
  pose proof (gr_commit _ _ (grows_steps _ _ (sys_reachable_inv _ R1) H12)) as G12.
  pose proof (gr_applied _ _ (grows_steps _ _ (sys_reachable_inv _ R3) H34)) as G34. cbn [fst] in *.
  destruct (machine_replays n4 pc4 R4) as (a & Ha & Hsm).
  unfold ensureQuorum_end in Hq. destruct (stopped n1); [done|]. case_decide; [done|].
  unfold LinearizableGet_index in Hidx. destruct (stopped n2); [done|]. case_decide as Hl2; [done|].
  case_decide as Ht2; [done|]. injection Hidx as Hidx.
  unfold waitUntilAppliedAsLeader_check in Hw. destruct (stopped n3); [done|]. destruct (storageFatal n3); [done|].
  case_decide; [done|]. case_decide as Happ; [done|].
  unfold LinearizableGet_read in Hread. destruct (stopped n4); [done|]. case_decide as Hl4; [done|].
  case_decide as Ht4; [done|]. injection Hread as <-.
  exists a. rewrite Hsm. revert Hidx. case_decide; intros Hidx; split_and!; try done; try lia;
    try (destruct (role n2); naive_solver); try (destruct (role n4); naive_solver);
    destruct (decide (currentTerm n2 = t)), (decide (currentTerm n4 = t)); tauto.
Qed.

End properties.

(** *** Instances *)

Lemma barrier_counts_majority_witness :
  ∃ n : Node KV.KVStateMachine Mem.MemStore, newKVNode "n1" (Mem.empty []) = inl n ∧
    barrier (quorum n) (size n.(params).(peerAddrs)) (mkTally 1 0) [false; true] = Some true.
Proof.
  assert (match newKVNode "n1" (Mem.empty []) with
          | inl n => (size n.(params).(peerAddrs), quorum n) | inr _ => (0, 0) end = (2, 2)) as Hv
    by (vm_compute; reflexivity).
  destruct (newKVNode "n1" (Mem.empty [])) as [n|]; [|discriminate Hv]. injection Hv as Hs Hq.
  exists n. split; [reflexivity|].
  rewrite (barrier_counts_majority n [false; true] (eq_sym Hs) ltac:(discriminate)). rewrite Hq. reflexivity.
Defined.

(** A reader falls asleep waiting for index 9, then its context ends: the
    callback runs, the reader wakes and returns the error of the context. *)
Lemma no_lost_wakeup_witness :
  ∃ x k w', after (take 4 run1) = Some x ∧ k ≤ 3 ∧
    let check c n := waitUntilApplied_check c 9 n in
    nsteps (own_step check waitUntilApplied_afterFunc) k (mkWaiter x (Some ContextDeadlineExceeded) true (Some x.1.(broadcasts)) None) w' ∧
    w'.(wt_result) = Some (Some ContextDeadlineExceeded).
Proof.
  assert (match after (take 4 run1) with
          | Some x => (waitUntilApplied_check None 9 x.1, waitUntilApplied_check (Some ContextDeadlineExceeded) 9 x.1)
          | _ => (None, None) end = (None, Some (Some ContextDeadlineExceeded))) as Hv by (vm_compute; reflexivity).
  destruct (after (take 4 run1)) as [x|] eqn:E; [|discriminate Hv]. apply pair_equal_spec in Hv as [Hn Hd].
  destruct (no_lost_wakeup x None 9 0 (mkWaiter x (Some ContextDeadlineExceeded) true (Some x.1.(broadcasts)) None)
    (Some ContextDeadlineExceeded) (after_reachable _ _ E) eq_refl) as [Hw _].
  destruct Hw as (k & w' & Hk & Hs & Hr); [|exact Hd|exists x, k, w'; auto].
  destruct x as [n pc]. eapply rtc_l; [apply ws_own, os_test|]. cbn [fst] in Hn. cbn beta. rewrite Hn.
  apply rtc_once. apply ws_ctx.
Defined.
