(* ===== verification/Calls.v ===== *)
(** * What the callers of the blocking methods may rely on

    [Propose] and [LinearizableGet] as wholes ([Methods.v]), on a node whose
    goroutines run in any order while the call blocks. *)

From S2P Require Import Prelude Types StateMachine StoreIntf RaftLog NodeState Node Replication Methods NodeStep NodeInv ApplySys TestEnv Waiters Proposals Handlers Reads.

Section calls.
Context {SM St : Type} `{StateMachine SM} `{Store St} `{RandSource} `{MapCodec} `{!StateMachineLaws SM}.
#[local] Abbreviation Node := (Node SM St).
#[local] Abbreviation world := (Node * @apply_pc)%type.
Implicit Types w : world.

(** A move of the rest of the node: any run of its goroutines. *)
Definition lawful (m : world → world) : Prop := ∀ w, sys_reachable w → rtc sstep w (m w).

Definition lawful_event (e : barrierEvent (SM:=SM) (St:=St) (X:=apply_pc)) : Prop :=
  match e with BarrierMove m => lawful m | BarrierResult _ => True end.

Record lawful_turn (t : readTurn (SM:=SM) (St:=St) (X:=apply_pc)) : Prop := {
  lt_barrier : Forall lawful_event t.(rt_barrier);
  lt_before : lawful t.(rt_before);
  lt_wait : Forall lawful t.(rt_wait);
  lt_after : lawful t.(rt_after) }.

Lemma rtc_trans {A} {R : A → A → Prop} {x y z} : rtc R x y → rtc R y z → rtc R x z.
Proof. intros. by etrans. Qed.

(** ** The wait loops *)

Lemma waitAsLeader_runs index term moves e : ∀ w w',
  sys_reachable w → Forall lawful moves →
  waitUntilAppliedAsLeader index term moves e w = (None, w') →
  rtc sstep w w' ∧ waitUntilAppliedAsLeader_check None index term w'.1 = Some None.
Proof.
  induction moves as [|m moves IH]; intros w w' Hr Hm Hw; cbn [waitUntilAppliedAsLeader] in Hw.
  - destruct (waitUntilAppliedAsLeader_check None index term w.1) as [r|] eqn:E.
    + simplify_eq. split; [done|congruence].
    + revert Hw. unfold waitUntilAppliedAsLeader_check in *. destruct (stopped w.1); [done|].
      destruct (storageFatal w.1); [done|]. case_decide; [done|]. case_decide; done.
  - destruct (waitUntilAppliedAsLeader_check None index term w.1) as [r|] eqn:E.
    + simplify_eq. split; [done|congruence].
    + apply Forall_cons in Hm as [Hm Hms]. pose proof (Hm w Hr) as Hs.
      destruct (IH (m w) w' (sys_reachable_steps _ _ Hr Hs) Hms Hw) as [? ?]. split; [by etrans|done].
Qed.

(** ** The barrier *)

Definition is_ack (e : barrierEvent (SM:=SM) (St:=St) (X:=apply_pc)) : bool :=
  match e with BarrierResult true => true | _ => false end.

(** The acks among the events. *)
Definition acks (events : list (barrierEvent (SM:=SM) (St:=St) (X:=apply_pc))) : nat :=
  length (filter (λ e, is_ack e = true) events).

Lemma acks_cons e events : acks (e :: events) = (if is_ack e then 1 else 0) + acks events.
Proof.
  unfold acks. destruct (is_ack e) eqn:E; [by rewrite filter_cons_True|]. rewrite filter_cons_False; [done|congruence].
Qed.

Lemma barrierLag_runs events : ∀ w, sys_reachable w → Forall lawful_event events → rtc sstep w (barrierLag events w).
Proof.
  induction events as [|[m|ok] events IH]; intros w Hr He; cbn [barrierLag]; [done| |done].
  apply Forall_cons in He as [Hm He]. pose proof (Hm w Hr) as Hs. etrans; [exact Hs|].
  apply IH; [by eapply sys_reachable_steps|done].
Qed.

Lemma barrierWait_runs term e events : ∀ t w w' t',
  sys_reachable w → Forall lawful_event events →
  barrierWait term t events e w = (inl t', w') →
  rtc sstep w w' ∧ t' = term ∧ ensureQuorum_end term true w'.1 = inl term ∧
  ∃ s, rtc sstep w s ∧ rtc sstep s w' ∧ quorum s.1 ≤ t.(acked) + acks events.
Proof.
  induction events as [|[m|ok] events IH]; intros t w w' t' Hr He Hw; cbn [barrierWait] in Hw; [done|..].
  - apply Forall_cons in He as [Hm He]. pose proof (Hm w Hr) as Hs.
    destruct (IH t (m w) w' t' (sys_reachable_steps _ _ Hr Hs) He Hw) as (? & ? & ? & s & ? & ? & ?).
    split_and!; [by etrans|done|done|]. exists s. split_and!; [by etrans|done|]. rewrite acks_cons. cbn [is_ack]. lia.
  - apply Forall_cons in He as [_ He]. set (t1 := tally_result t _) in Hw.
    assert (t1.(acked) ≤ t.(acked) + (if is_ack (BarrierResult ok) then 1 else 0)) as Ht1.
    { subst t1. destruct ok; cbn; [|lia]. case_bool_decide; cbn; lia. }
    destruct (tally_signal _ _ t1) as [sg|] eqn:Es.
    + injection Hw as Hq <-. assert (sg = true) as ->.
      { destruct sg; [done|]. discriminate Hq. }
      assert (t' = term) as ->.
      { revert Hq. unfold ensureQuorum_end. destruct (stopped _); [done|]. by case_decide; intros [= ->]. }
      pose proof (barrierLag_runs events w Hr He). split_and!; [done|done|done|]. exists w. split_and!; [done|done|].
      unfold tally_signal in Es. rewrite acks_cons. case_decide; [lia|]. by case_decide.
    + destruct (IH t1 w w' t' Hr He Hw) as (? & ? & ? & s & ? & ? & ?). split_and!; [done..|].
      exists s. split_and!; [done..|]. rewrite acks_cons. lia.
Qed.

Lemma ensureQuorum_runs events e w w' t :
  sys_reachable w → Forall lawful_event events → ensureQuorum events e w = (inl t, w') →
  rtc sstep w w' ∧ ensureQuorum_begin w.1 = inl t ∧ ensureQuorum_end t true w'.1 = inl t ∧
  ∃ s, rtc sstep w s ∧ rtc sstep s w' ∧ quorum s.1 ≤ 1 + acks events.
Proof.
  unfold ensureQuorum. intros Hr He. destruct (ensureQuorum_begin w.1) as [t0|] eqn:Eb; [|done]. case_decide as Hq.
  - intros [= <- <-]. assert (ensureQuorum_end t0 true w.1 = inl t0) as Hend.
    { unfold ensureQuorum_begin in Eb. unfold ensureQuorum_end. destruct (stopped w.1); [done|].
      case_decide as Hl; [done|]. injection Eb as <-. rewrite decide_False; [done|]. naive_solver. }
    split_and!; [done|done|done|]. exists w. split_and!; [done|done|lia].
  - intros Hw. apply barrierWait_runs in Hw as (? & -> & ? & ?); [|done..]. done.
Qed.

(** ** LinearizableGet *)

(** The same leadership at two moments. *)
Definition leads_through (n n' : Node) : Prop :=
  n.(role) = Leader ∧ n'.(role) = Leader ∧ n'.(currentTerm) = n.(currentTerm).

Lemma LinearizableGet_runs key e turns : ∀ w v w',
  sys_reachable w → Forall lawful_turn turns → LinearizableGet key turns e w = (inl v, w') →
  rtc sstep w w' ∧
  ∃ a s x turn, v = Get key (replayed w'.1 a) ∧ (w.1.(commitIndex) ≤ a ≤ w'.1.(commitIndex))%N ∧
    turn ∈ turns ∧ rtc sstep w s ∧ rtc sstep s x ∧ rtc sstep x w' ∧
    quorum s.1 ≤ 1 + acks turn.(rt_barrier) ∧ leads_through x.1 w'.1 ∧
    (x.1.(commitIndex) ≤ a)%N ∧ (x.1.(leaderNoopIndex) ≤ a)%N.
Proof.
  induction turns as [|turn turns IH]; intros w v w' Hr Ht Hw; cbn [LinearizableGet] in Hw; [done|].
  apply Forall_cons in Ht as [[Hb Hbe Hwt Haf] Ht].
  destruct (ensureQuorum _ _ w) as [[t|err] w1] eqn:Eq; [|done].
  apply ensureQuorum_runs in Eq as (S1 & Ebeg & Eend & s & Ss & Ss' & Hq); [|done..].
  assert (sys_reachable w1) as R1 by (by eapply sys_reachable_steps).
  set (w2 := rt_before turn w1) in Hw. assert (rtc sstep w1 w2) as S2 by (by apply Hbe).
  assert (sys_reachable w2) as R2 by (by eapply sys_reachable_steps).
  assert (∀ x y, rtc sstep w x → sys_reachable x → LinearizableGet key turns e x = (inl v, y) → w' = y →
    rtc sstep w w' ∧ ∃ a s z turn0, v = Get key (replayed w'.1 a) ∧ (w.1.(commitIndex) ≤ a ≤ w'.1.(commitIndex))%N ∧
      turn0 ∈ turn :: turns ∧ rtc sstep w s ∧ rtc sstep s z ∧ rtc sstep z w' ∧
      quorum s.1 ≤ 1 + acks turn0.(rt_barrier) ∧ leads_through z.1 w'.1 ∧
      (z.1.(commitIndex) ≤ a)%N ∧ (z.1.(leaderNoopIndex) ≤ a)%N) as Hretry.
  { intros x y Hx Hrx Hl ->. destruct (IH x v y Hrx Ht Hl) as (Sx & a & s' & z & t0 & -> & Ha & ? & ? & ? & ? & ? & ? & ? & ?).
    pose proof (gr_commit _ _ (grows_steps _ _ (sys_reachable_inv _ Hr) Hx)) as G.
    split; [by etrans|]. exists a, s', z, t0. split_and!; try done; [lia..|by right|by etrans]. }
  destruct (LinearizableGet_index t w2.1) as [err| |index] eqn:Ei; [done| |].
  { apply (Hretry w2 w'); [exact (rtc_trans S1 S2)|done..]. }
  destruct (waitUntilAppliedAsLeader _ _ _ _ w2) as [[err|] w3] eqn:Ew; [done|].
  apply waitAsLeader_runs in Ew as [S3 Ec]; [|done..].
  assert (sys_reachable w3) as R3 by (by eapply sys_reachable_steps).
  set (w4 := rt_after turn w3) in Hw. assert (rtc sstep w3 w4) as S4 by (by apply Haf).
  pose proof (rtc_trans (rtc_trans S1 S2) (rtc_trans S3 S4)) as S04.
  destruct (LinearizableGet_read t key w4.1) as [err| |v'] eqn:Er; [done| |].
  { apply (Hretry w4 w'); [done|by eapply sys_reachable_steps|done..]. }
  injection Hw as -> <-. destruct w as [n0 p0], w1 as [n1 p1], w2 as [n2 p2], w3 as [n3 p3], w4 as [n4 p4]; cbn [fst] in *.
  destruct (read_sections n0 p0 n1 p1 n2 p2 n3 p3 n4 p4 t index key v Hr S1 S2 S3 S4 Ebeg Eend Ei Ec Er)
    as (a & -> & Hc & Hc2 & Hnoop & Ha & Hl2 & Ht2 & Hl & Ht4).
  split; [done|]. exists a, s, (n2, p2), turn. split_and!; try done; [by left|by etrans|by etrans|].
  split_and!; [done|done|cbn in *; congruence].
Qed.

(** ** Propose *)

(** The channel has been closed and its outcome taken. *)
Definition drained (v : nat) (n : Node) : Prop :=
  match n.(chans) !! v with Some (mkChan [] true _) => True | _ => False end.

#[global] Instance drained_dec v n : Decision (drained v n).
Proof. unfold drained. repeat case_match; apply _. Defined.

(** Nobody but [Propose] receives from the channel it made. *)
Definition leaves (v : nat) (m : world → world) : Prop := ∀ w, ¬ drained v w.1 → ¬ drained v (m w).1.

(** What the caller of [Propose] may be told about command [c], proposed in
    [w]; [w1] is the state after the append. *)
Inductive told (w : world) (entryErr : option error) (c : Command) (ctxErr : option error)
    : ApplyResult → option error → Prop :=
  | told_refused err n' :
      Propose_start entryErr c w.1 = (inr err, n') → told w entryErr c ctxErr zeroApplyResult (Some err)
  | told_outcome v i n1 o :
      Propose_start entryErr c w.1 = (inl (v, i), n1) → good_outcome (n1, w.2) c i o →
      told w entryErr c ctxErr (resultFromOutcome o).1 (resultFromOutcome o).2
  | told_unknown v i n1 err :
      Propose_start entryErr c w.1 = (inl (v, i), n1) → ctxErr = Some err →
      told w entryErr c ctxErr zeroApplyResult (Some (ProposalUnknownError i err)).

(** The call is still blocked in [w']: its context has not ended, and its
    channel has nothing to receive. *)
Definition blocked (w : world) (entryErr : option error) (c : Command) (ctxErr : option error) (w' : world) : Prop :=
  ctxErr = None ∧ ∃ v i n1, Propose_start entryErr c w.1 = (inl (v, i), n1) ∧
    (∀ ch, w'.1.(chans) !! v = Some ch → ch.(buf) = [] ∧ ch.(closed) = false).

Definition answers w entryErr c ctxErr (r : option (ApplyResult * option error)) (w' : world) : Prop :=
  match r with
  | Some (res, err) => told w entryErr c ctxErr res err
  | None => blocked w entryErr c ctxErr w'
  end.

(** What the [select] returns comes from the channel or from the context. *)
Lemma select_cases v i ctx (n : Node) r n' :
  ¬ drained v n → Propose_select v i ctx n = (Some r, n') →
  (∃ ch o, n.(chans) !! v = Some ch ∧ o ∈ ch.(buf) ∧ r = resultFromOutcome o) ∨
  (∃ err, ctx = Some err ∧ r = (zeroApplyResult, Some (ProposalUnknownError i err))).
Proof.
  unfold drained, Propose_select. intros Hd.
  destruct (chans n !! v) as [[[|o rest] [] mis]|] eqn:Ec; try done; (destruct ctx as [err|]; intros Hr; simplify_eq);
    try (by right; eauto); left; by eexists _, o; (split_and!; [done|left|done]).
Qed.

(** It blocks only with nothing to receive and the context not done. *)
Lemma select_blocks v i ctx (n n' : Node) :
  Propose_select v i ctx n = (None, n') →
  ctx = None ∧ n' = n ∧ ∀ ch, n.(chans) !! v = Some ch → ch.(buf) = [] ∧ ch.(closed) = false.
Proof.
  unfold Propose_select. destruct (chans n !! v) as [[[|o rest] [] mis]|]; try done; destruct ctx; try done;
    intros [= <-]; (split_and!; [done..|]); by intros ch [= <-].
Qed.

Lemma select_step v i ctx (n : Node) pc : sstep (n, pc) ((Propose_select v i ctx n).2, pc).
Proof. exact (ss_background n pc (DoProposeSelect v i ctx) eq_refl I). Qed.

Lemma Propose_wait_told entryErr c ctxErr w v i n1 : sys_reachable w → op_ok (DoPropose entryErr c) w.1 →
  Propose_start entryErr c w.1 = (inl (v, i), n1) →
  ∀ moves x r w', rtc sstep (n1, w.2) x → ¬ drained v x.1 → Forall lawful moves → Forall (leaves v) moves →
  Propose_wait v i moves ctxErr x = (r, w') → rtc sstep x w' ∧ answers w entryErr c ctxErr r w'.
Proof.
  intros Hr Hok Hp moves. destruct w as [n pc]. cbn [fst snd] in *.
  assert (sys_reachable (n1, pc)) as Hr1.
  { eapply sys_reachable_steps; [exact Hr|apply rtc_once].
    by destruct (propose_tracked (n1, pc) _ _ _ _ _ _ _ Hr Hok Hp) as (? & _). }
  assert (∀ x ctx r n', rtc sstep (n1, pc) x → ¬ drained v x.1 → (ctx = None ∨ ctx = ctxErr) →
    Propose_select v i ctx x.1 = (Some r, n') →
    rtc sstep x (n', x.2) ∧ answers (n, pc) entryErr c ctxErr (Some r) (n', x.2)) as Hsel.
  { intros [m pm] ctx r n' Hx Hd Hctx Hs. cbn [fst snd] in *. split.
    { apply rtc_once. replace n' with (Propose_select v i ctx m).2 by (by rewrite Hs). apply select_step. }
    destruct (select_cases _ _ _ _ _ _ Hd Hs) as [(ch & o & Hc & Ho & ->)|(err & -> & ->)].
    - unfold answers. destruct (resultFromOutcome o) as [res e] eqn:Er.
      change res with (res, e).1. change e with (res, e).2 at 2. rewrite <- Er. eapply told_outcome; [exact Hp|].
      destruct (proposal_steps _ _ _ _ _ _ _ _ _ Hr Hok Hp Hx) as [_ Hch _]. by apply (Hch v ch Hc).
    - destruct Hctx as [?|<-]; [done|]. by eapply told_unknown. }
  induction moves as [|m moves IH]; intros x r w' Hx Hd Hl Hv Hw; cbn [Propose_wait] in Hw.
  - destruct (Propose_select v i None x.1) as [[r0|] n'] eqn:E0; [simplify_eq; exact (Hsel _ _ _ _ Hx Hd (or_introl eq_refl) E0)|].
    destruct (Propose_select v i ctxErr x.1) as [[r1|] n2] eqn:E1; [simplify_eq; exact (Hsel _ _ _ _ Hx Hd (or_intror eq_refl) E1)|].
    destruct (select_blocks _ _ _ _ _ E1) as (-> & -> & Hch). injection Hw as <- <-. split; [by destruct x|].
    split; [done|]. by exists v, i, n1.
  - destruct (Propose_select v i None x.1) as [[r0|] n'] eqn:E0; [simplify_eq; exact (Hsel _ _ _ _ Hx Hd (or_introl eq_refl) E0)|].
    apply Forall_cons in Hl as [Hm Hl]. apply Forall_cons in Hv as [Hmv Hv].
    pose proof (Hm x (sys_reachable_steps _ _ Hr1 Hx)) as Hs.
    destruct (IH (m x) r w' (rtc_trans Hx Hs) (Hmv x Hd) Hl Hv Hw) as [? ?]. split; [by etrans|done].
Qed.

(** The channel that [Propose] makes still has its outcome, if any, when the
    append is done. *)
Lemma fail_undrained e (n : Node) v : registered n.(waiters) n.(chans) → ¬ drained v n → ¬ drained v (failStorageLocked e n).
Proof.
  intros Hr Hd. unfold failStorageLocked. cbv zeta. set (n1 := resetElectionLocked _).
  assert (n1.(waiters) = n.(waiters) ∧ n1.(chans) = n.(chans)) as [Hw Hc] by done. clearbody n1.
  unfold drained, failUncommittedWaitersLocked. rewrite failLoop_sweep, Hw, Hc.
  set (o := mkOutcome _ _). set (sel := λ i, negb _).
  destruct (sweep_registered sel o _ _ Hr) as (_ & _ & Hs). specialize (Hs v).
  destruct (sweep sel o _ _) as [ws chs]. cbn in *. unfold drained in Hd.
  destruct (chs !! v) as [ch|]; [|tauto]. destruct (Hs ch eq_refl) as [Hch|[-> _]]; [by rewrite Hch in Hd|by intros []].
Qed.

Lemma advance_undrained (n : Node) v :
  registered n.(waiters) n.(chans) → ¬ drained v n → ¬ drained v (advanceCommitLocked n).
Proof.
  intros Hr Hd. unfold advanceCommitLocked. destruct (advanceLoop _ _ _) as [i|]; [|done].
  unfold persistHardStateLocked. destruct (saveHardStateLocked _ _) as [[e|] n1] eqn:E;
    apply save_wcore in E as ([= Hw Hc _] & _ & _).
  - cbn in Hw, Hc. apply fail_undrained; [cbn; by rewrite Hw, Hc|]. unfold drained in *. cbn. by rewrite Hc.
  - cbn in Hc. unfold drained in *. cbn. by rewrite Hc.
Qed.

Lemma propose_fresh ctx c (n : Node) v i n1 : wbase (λ _ _, True) 0 n →
  Propose_start ctx c n = (inl (v, i), n1) → v = n.(nextChan) ∧ ¬ drained v n1.
Proof.
  intros Hb Hp. split; [by apply Propose_start_entry in Hp as (-> & _)|]. revert Hp.
  unfold Propose_start. destruct ctx; [done|]. unfold proposeAppend.
  destruct (stopped n); [done|]. destruct (storageFatal n); [done|]. case_decide; [done|].
  destruct (AppendEntries _ _) as [[e|] st]; [done|].
  match goal with |- context [advanceCommitLocked ?m] => set (n2 := m) end. set (i0 := Index _).
  destruct (register_base (λ _ _, True) 0 n n2 i0 Hb) as [[Hreg _ _] _]; [done..|]. intros [= <- _ <-].
  apply advance_undrained; [done|]. unfold drained, n2. cbn. rewrite lookup_insert_eq. by intros [].
Qed.

Lemma Propose_told entryErr c moves ctxErr w r w' :
  sys_reachable w → op_ok (DoPropose entryErr c) w.1 →
  Forall lawful moves → Forall (leaves w.1.(nextChan)) moves →
  Propose entryErr c moves ctxErr w = (r, w') → rtc sstep w w' ∧ answers w entryErr c ctxErr r w'.
Proof.
  intros Hr Hok Hl Hv Hp. unfold Propose in Hp. destruct w as [n pc]. cbn [fst snd] in *.
  assert (sstep (n, pc) ((Propose_start entryErr c n).2, pc)) as Hs.
  { exact (ss_background n pc (DoPropose entryErr c) eq_refl Hok). }
  destruct (Propose_start entryErr c n) as [[[v i]|err] n1] eqn:E; cbn [snd] in Hs.
  - destruct (propose_fresh _ _ _ _ _ _ (proj1 (reachable_waiters _ _ Hr)) E) as [-> Hd].
    destruct (Propose_wait_told entryErr c ctxErr (n, pc) _ _ _ Hr Hok E moves (n1, pc) r w' (rtc_refl _ _) Hd Hl Hv Hp)
      as [? ?]. split; [|done]. by eapply rtc_l.
  - simplify_eq. split; [by apply rtc_once|]. by eapply told_refused.
Qed.

End calls.

(** ** Properties *)

Section properties.
Context {SM St : Type} `{StateMachine SM} `{Store St} `{RandSource} `{MapCodec} `{!StateMachineLaws SM}.
Implicit Types w : Node SM St * apply_pc.

(** C13. A linearizable read sees what its leader knows to be committed.  If
    [LinearizableGet] returns a value, whatever the goroutines of the node
    did while it ran and however often it retried, then the value is what
    the key has in the snapshot plus the log entries up to some index [a],
    at most the commit index when it returned.  [a] is at least the commit
    index of this node when the call began; and there is a moment [x] of the
    call, after a majority of the members (counting the node itself)
    acknowledged the node in one barrier round, in which the node led the
    term it still leads when the call returns, such that [a] is at least its
    commit index at [x] and at least the index of the no-op with which it
    began to lead, so that everything it inherited is included (that this
    covers what any node of the cluster had committed is
    [linearizable_read] of [RaftReadProofs.v]). *)
Theorem read_sees_committed key turns ctxErr w v w' :
  sys_reachable w → Forall lawful_turn turns → LinearizableGet key turns ctxErr w = (inl v, w') →
  rtc sstep w w' ∧
  ∃ a s x turn, v = Get key (replayed w'.1 a) ∧ (w.1.(commitIndex) ≤ a ≤ w'.1.(commitIndex))%N ∧
    turn ∈ turns ∧ rtc sstep w s ∧ rtc sstep s x ∧ rtc sstep x w' ∧
    quorum s.1 ≤ 1 + acks turn.(rt_barrier) ∧ leads_through x.1 w'.1 ∧
    (x.1.(commitIndex) ≤ a)%N ∧ (x.1.(leaderNoopIndex) ≤ a)%N.
Proof. apply LinearizableGet_runs. Qed.

(** C11. [Propose] never lies.  Whatever the goroutines of the node do while
    the call blocks, what it returns is one of: the error with which the
    append was refused (nothing was proposed); the result of the state
    machine on this very command, applied in this run at the index it was
    given, committed, right after the entries below it; a not-leader or
    node-stopped error; or, when the context ended first, the error that says
    that the outcome at that index is not known.  It has not returned only
    while its context has not ended and no outcome has been sent to it: with
    a context that ends, it returns. *)
Theorem propose_is_truthful entryErr c moves ctxErr w r w' :
  sys_reachable w → op_ok (DoPropose entryErr c) w.1 →
  Forall lawful moves → Forall (leaves w.1.(nextChan)) moves →
  Propose entryErr c moves ctxErr w = (r, w') →
  rtc sstep w w' ∧
  match r with
  | Some (res, err) => told w entryErr c ctxErr res err
  | None => blocked w entryErr c ctxErr w'
  end.
Proof. intros Hr Hok Hl Hv Hp. exact (Propose_told _ _ _ _ _ _ _ Hr Hok Hl Hv Hp). Qed.

End properties.

(** *** Instances

    One node with three committed entries, of which none is applied yet. *)
Definition runs (acts : list sact) (w : Node KV.KVStateMachine Mem.MemStore * apply_pc) := default w (srun acts w).

Lemma runs_lawful acts : lawful (runs acts).
Proof.
  intros w _. unfold runs. destruct (srun acts w) as [w'|] eqn:E; cbn; [by eapply srun_steps|done].
Qed.

(** A run that leaves the channel alone. *)
Definition runsBeside (v : nat) (acts : list sact) (w : Node KV.KVStateMachine Mem.MemStore * apply_pc) :=
  if decide (drained v (runs acts w).1) then w else runs acts w.

Lemma runsBeside_lawful v acts : lawful (runsBeside v acts) ∧ leaves v (runsBeside v acts).
Proof.
  split; intros w; unfold runsBeside; case_decide; try done. apply runs_lawful.
Qed.

Definition catchUp : list sact := replicate 12 SApply.

Lemma read_sees_committed_witness :
  ∃ w w' a, after (take 4 run1) = Some w ∧
    LinearizableGet "x" [mkTurn [] Datatypes.id [runs catchUp] Datatypes.id] ContextDeadlineExceeded w = (inl ("1", true), w') ∧
    w.1.(commitIndex) = 3%N ∧ ("1", true) = Get "x" (replayed w'.1 a) ∧ (3 ≤ a)%N.
Proof.
  set (turn := mkTurn _ _ _ _).
  assert (match after (take 4 run1) with
    | Some w => ((LinearizableGet "x" [turn] ContextDeadlineExceeded w).1, w.1.(commitIndex))
    | None => (inr ErrNotLeader, 0%N) end = (inl ("1", true), 3%N)) as Hv by (vm_compute; reflexivity).
  destruct (after (take 4 run1)) as [w|] eqn:E; [|discriminate Hv].
  pose proof (f_equal fst Hv) as Hg. pose proof (f_equal snd Hv) as Hc. cbn [fst snd] in Hg, Hc. clear Hv.
  destruct (LinearizableGet "x" [turn] ContextDeadlineExceeded w) as [r w'] eqn:Eg. cbn [fst] in Hg. subst r.
  destruct (read_sees_committed "x" [turn] ContextDeadlineExceeded w ("1", true) w' (after_reachable _ _ E))
    as (_ & a & _ & x & _ & Ha & Hca & _ & _ & _ & _ & _ & _ & _ & Hnoop).
  - apply Forall_singleton. split; [apply Forall_nil_2|by intros ? _|apply Forall_singleton, runs_lawful|by intros ? _].
  - exact Eg.
  - exists w, w', a. split_and!; [reflexivity|exact Eg|exact Hc|exact Ha|]. rewrite <- Hc. apply Hca.
Defined.

Lemma propose_is_truthful_witness :
  ∃ w w', after (take 4 run1) = Some w ∧
    Propose None (put "z" "3") [runsBeside w.1.(nextChan) (replicate 30 SApply)] None w =
      (Some (mkApplyResult true true "3" false "", None), w') ∧
    told w None (put "z" "3") None (mkApplyResult true true "3" false "") None.
Proof.
  assert (match after (take 4 run1) with
    | Some w => ((Propose None (put "z" "3") [runsBeside w.1.(nextChan) (replicate 30 SApply)] None w).1,
                 N.ltb (lastIndexLocked w.1) (two64 - 2))
    | None => (None, false) end = (Some (mkApplyResult true true "3" false "", None), true)) as Hv
    by (vm_compute; reflexivity).
  destruct (after (take 4 run1)) as [w|] eqn:E; [|discriminate Hv].
  pose proof (f_equal fst Hv) as Hg. pose proof (f_equal snd Hv) as Hok%N.ltb_lt. cbn [fst] in Hg. clear Hv.
  set (m := runsBeside _ _) in *.
  destruct (Propose None (put "z" "3") [m] None w) as [r w'] eqn:Ep. cbn [fst] in Hg. subst r.
  destruct (propose_is_truthful None (put "z" "3") [m] None w (Some (mkApplyResult true true "3" false "", None)) w'
    (after_reachable _ _ E) Hok) as [_ Ht].
  - apply Forall_singleton. apply runsBeside_lawful.
  - apply Forall_singleton. apply runsBeside_lawful.
  - exact Ep.
  - exists w, w'. split_and!; [reflexivity|exact Ep|exact Ht].
Defined.
