(* ===== verification/Api.v ===== *)
(** * The RPC messages and their plumbing

    [api/rpc.go].  Each message is a record with its JSON encoding, given by
    the fields the struct tags name; [Marshal] and [Unmarshal] are the codec
    that the package registers with gRPC.  The client stubs and the handler
    tables are functions of the connection and of the service, so the two
    ends can be composed.

    [Ctx] is the type of contexts and [W] the state of the world an RPC may
    change.  The gRPC runtime itself is a parameter: a connection takes the
    method name and the encoded request and yields the encoded reply. *)

From S2P Require Import Prelude Types Wal Json JsonProofs.

(** ** The codec *)

Class Message (A : Type) := {
  msgZero : A;
  msgFields : A → list (string * json);
  msgSetters : list (string * (json → A → option A)) }.

Fixpoint assoc {B} (k : string) (l : list (string * B)) : option B :=
  match l with
  | [] => None
  | (k', b) :: l => if decide (k = k') then Some b else assoc k l
  end.

Definition msgStep `{Message A} (k : string) (v : json) (a : A) : option A :=
  match assoc k msgSetters with
  | Some set => set v a
  | None => Some a
  end.

Definition JSONCodecName : string := "json".

Definition Marshal `{Message A} (a : A) : bytes := print (JObj (msgFields a)).
Definition Unmarshal `{Message A} (data : bytes) : option A := unmarshalStruct msgStep msgZero data.

Class MessageLaws (A : Type) `{Message A} :=
  msg_roundtrip : ∀ a : A, decodeFields msgStep (msgFields a) msgZero = Some a.

Lemma Unmarshal_Marshal `{MessageLaws A} (a : A) : Unmarshal (Marshal a) = Some a.
Proof. apply unmarshal_struct, msg_roundtrip. Qed.

Definition setBool (v : json) (cur : bool) : option bool :=
  match v with JBool b => Some b | JNull => Some cur | _ => None end.

(** Setters of one field: [setStr], [setNum], ... followed by the update. *)
Definition strF {A} (get : A → string) (upd : string → A → A) (v : json) (a : A) : option A :=
  s ← setStr v (get a); Some (upd s a).
Definition numF {A} (get : A → N) (upd : N → A → A) (v : json) (a : A) : option A :=
  s ← setNum v (get a); Some (upd s a).
Definition boolF {A} (get : A → bool) (upd : bool → A → A) (v : json) (a : A) : option A :=
  s ← setBool v (get a); Some (upd s a).
Definition bytesF {A} (get : A → bytes) (upd : bytes → A → A) (v : json) (a : A) : option A :=
  s ← setBytes v (get a); Some (upd s a).

(** ** The messages *)
Module api.

Record PutRequest := mkPutRequest { put_Key : string; put_Value : string }.
Record PutResponse := mkPutResponse {
  pr_OK : bool; pr_Error : string; pr_LeaderID : string; pr_LeaderAddress : string }.

Record GetRequest := mkGetRequest { get_Key : string }.
Record GetResponse := mkGetResponse {
  gr_OK : bool; gr_Found : bool; gr_Value : string; gr_Error : string;
  gr_LeaderID : string; gr_LeaderAddress : string }.

Record DeleteRequest := mkDeleteRequest { del_Key : string }.
Record DeleteResponse := mkDeleteResponse {
  dr_OK : bool; dr_Found : bool; dr_PreviousValue : string; dr_Error : string;
  dr_LeaderID : string; dr_LeaderAddress : string }.

Record CASRequest := mkCASRequest { cas_Key : string; cas_Expected : string; cas_Value : string }.
Record CASResponse := mkCASResponse {
  cr_OK : bool; cr_Swapped : bool; cr_Found : bool; cr_CurrentValue : string; cr_Error : string;
  cr_LeaderID : string; cr_LeaderAddress : string }.

(** The nil map and the empty map of [Peers] are one value here: both are
    left out of the encoding. *)
Record StatusRequest := mkStatusRequest { }.
Record StatusResponse := mkStatusResponse {
  sr_NodeID : string; sr_State : string; sr_Term : N; sr_LeaderID : string; sr_LeaderAddress : string;
  sr_CommitIndex : N; sr_LastApplied : N; sr_LastLogIndex : N; sr_SnapshotIndex : N;
  sr_Peers : gmap string string }.

Record LogEntry := mkLogEntry { le_Index : N; le_Term : N; le_Command : bytes }.

Record RequestVoteRequest := mkRequestVoteRequest {
  rv_Term : N; rv_CandidateID : string; rv_LastLogIndex : N; rv_LastLogTerm : N }.
Record RequestVoteResponse := mkRequestVoteResponse { rvr_Term : N; rvr_VoteGranted : bool }.

Record AppendEntriesRequest := mkAppendEntriesRequest {
  ae_Term : N; ae_LeaderID : string; ae_PrevLogIndex : N; ae_PrevLogTerm : N;
  ae_Entries : list LogEntry; ae_LeaderCommit : N }.
Record AppendEntriesResponse := mkAppendEntriesResponse {
  aer_Term : N; aer_Success : bool; aer_ConflictIndex : N; aer_MatchIndex : N }.

Record InstallSnapshotRequest := mkInstallSnapshotRequest {
  is_Term : N; is_LeaderID : string; is_LastIncludedIndex : N; is_LastIncludedTerm : N;
  is_Offset : N; is_Data : bytes; is_Done : bool }.
Record InstallSnapshotResponse := mkInstallSnapshotResponse {
  isr_Term : N; isr_Success : bool; isr_BytesReceived : N }.

End api.
Import api.

(** ** Their encodings *)

#[global] Instance PutRequest_msg : Message PutRequest := {|
  msgZero := mkPutRequest "" "";
  msgFields r := [("key", JStr r.(put_Key)); ("value", JStr r.(put_Value))];
  msgSetters :=
    [("key", strF put_Key (λ s r, mkPutRequest s r.(put_Value)));
     ("value", strF put_Value (λ s r, mkPutRequest r.(put_Key) s))] |}.

#[global] Instance PutResponse_msg : Message PutResponse := {|
  msgZero := mkPutResponse false "" "" "";
  msgFields r := ("ok", JBool r.(pr_OK)) :: optStr "error" r.(pr_Error) ++
    optStr "leader_id" r.(pr_LeaderID) ++ optStr "leader_address" r.(pr_LeaderAddress);
  msgSetters :=
    [("ok", boolF pr_OK (λ b '(mkPutResponse _ e l a), mkPutResponse b e l a));
     ("error", strF pr_Error (λ e '(mkPutResponse b _ l a), mkPutResponse b e l a));
     ("leader_id", strF pr_LeaderID (λ l '(mkPutResponse b e _ a), mkPutResponse b e l a));
     ("leader_address", strF pr_LeaderAddress (λ a '(mkPutResponse b e l _), mkPutResponse b e l a))] |}.

#[global] Instance GetRequest_msg : Message GetRequest := {|
  msgZero := mkGetRequest "";
  msgFields r := [("key", JStr r.(get_Key))];
  msgSetters := [("key", strF get_Key (λ s _, mkGetRequest s))] |}.

#[global] Instance GetResponse_msg : Message GetResponse := {|
  msgZero := mkGetResponse false false "" "" "" "";
  msgFields r := ("ok", JBool r.(gr_OK)) :: ("found", JBool r.(gr_Found)) :: optStr "value" r.(gr_Value) ++
    optStr "error" r.(gr_Error) ++ optStr "leader_id" r.(gr_LeaderID) ++
    optStr "leader_address" r.(gr_LeaderAddress);
  msgSetters :=
    [("ok", boolF gr_OK (λ b '(mkGetResponse _ f v e l a), mkGetResponse b f v e l a));
     ("found", boolF gr_Found (λ f '(mkGetResponse b _ v e l a), mkGetResponse b f v e l a));
     ("value", strF gr_Value (λ v '(mkGetResponse b f _ e l a), mkGetResponse b f v e l a));
     ("error", strF gr_Error (λ e '(mkGetResponse b f v _ l a), mkGetResponse b f v e l a));
     ("leader_id", strF gr_LeaderID (λ l '(mkGetResponse b f v e _ a), mkGetResponse b f v e l a));
     ("leader_address", strF gr_LeaderAddress (λ a '(mkGetResponse b f v e l _), mkGetResponse b f v e l a))] |}.

#[global] Instance DeleteRequest_msg : Message DeleteRequest := {|
  msgZero := mkDeleteRequest "";
  msgFields r := [("key", JStr r.(del_Key))];
  msgSetters := [("key", strF del_Key (λ s _, mkDeleteRequest s))] |}.

#[global] Instance DeleteResponse_msg : Message DeleteResponse := {|
  msgZero := mkDeleteResponse false false "" "" "" "";
  msgFields r := ("ok", JBool r.(dr_OK)) :: ("found", JBool r.(dr_Found)) ::
    optStr "previous_value" r.(dr_PreviousValue) ++ optStr "error" r.(dr_Error) ++
    optStr "leader_id" r.(dr_LeaderID) ++ optStr "leader_address" r.(dr_LeaderAddress);
  msgSetters :=
    [("ok", boolF dr_OK (λ b '(mkDeleteResponse _ f v e l a), mkDeleteResponse b f v e l a));
     ("found", boolF dr_Found (λ f '(mkDeleteResponse b _ v e l a), mkDeleteResponse b f v e l a));
     ("previous_value", strF dr_PreviousValue (λ v '(mkDeleteResponse b f _ e l a), mkDeleteResponse b f v e l a));
     ("error", strF dr_Error (λ e '(mkDeleteResponse b f v _ l a), mkDeleteResponse b f v e l a));
     ("leader_id", strF dr_LeaderID (λ l '(mkDeleteResponse b f v e _ a), mkDeleteResponse b f v e l a));
     ("leader_address", strF dr_LeaderAddress (λ a '(mkDeleteResponse b f v e l _), mkDeleteResponse b f v e l a))] |}.

#[global] Instance CASRequest_msg : Message CASRequest := {|
  msgZero := mkCASRequest "" "" "";
  msgFields r := [("key", JStr r.(cas_Key)); ("expected", JStr r.(cas_Expected)); ("value", JStr r.(cas_Value))];
  msgSetters :=
    [("key", strF cas_Key (λ s '(mkCASRequest _ e v), mkCASRequest s e v));
     ("expected", strF cas_Expected (λ s '(mkCASRequest k _ v), mkCASRequest k s v));
     ("value", strF cas_Value (λ s '(mkCASRequest k e _), mkCASRequest k e s))] |}.

#[global] Instance CASResponse_msg : Message CASResponse := {|
  msgZero := mkCASResponse false false false "" "" "" "";
  msgFields r := ("ok", JBool r.(cr_OK)) :: ("swapped", JBool r.(cr_Swapped)) :: ("found", JBool r.(cr_Found)) ::
    optStr "current_value" r.(cr_CurrentValue) ++ optStr "error" r.(cr_Error) ++
    optStr "leader_id" r.(cr_LeaderID) ++ optStr "leader_address" r.(cr_LeaderAddress);
  msgSetters :=
    [("ok", boolF cr_OK (λ b '(mkCASResponse _ s f v e l a), mkCASResponse b s f v e l a));
     ("swapped", boolF cr_Swapped (λ s '(mkCASResponse b _ f v e l a), mkCASResponse b s f v e l a));
     ("found", boolF cr_Found (λ f '(mkCASResponse b s _ v e l a), mkCASResponse b s f v e l a));
     ("current_value", strF cr_CurrentValue (λ v '(mkCASResponse b s f _ e l a), mkCASResponse b s f v e l a));
     ("error", strF cr_Error (λ e '(mkCASResponse b s f v _ l a), mkCASResponse b s f v e l a));
     ("leader_id", strF cr_LeaderID (λ l '(mkCASResponse b s f v e _ a), mkCASResponse b s f v e l a));
     ("leader_address", strF cr_LeaderAddress (λ a '(mkCASResponse b s f v e l _), mkCASResponse b s f v e l a))] |}.

#[global] Instance StatusRequest_msg : Message StatusRequest := {|
  msgZero := mkStatusRequest; msgFields _ := []; msgSetters := [] |}.

#[global] Instance StatusResponse_msg : Message StatusResponse := {|
  msgZero := mkStatusResponse "" "" 0 "" "" 0 0 0 0 ∅;
  msgFields r := ("node_id", JStr r.(sr_NodeID)) :: ("state", JStr r.(sr_State)) :: ("term", JNum r.(sr_Term)) ::
    optStr "leader_id" r.(sr_LeaderID) ++ optStr "leader_address" r.(sr_LeaderAddress) ++
    [("commit_index", JNum r.(sr_CommitIndex)); ("last_applied", JNum r.(sr_LastApplied));
     ("last_log_index", JNum r.(sr_LastLogIndex)); ("snapshot_index", JNum r.(sr_SnapshotIndex))] ++
    (if decide (r.(sr_Peers) = ∅) then [] else [("peers", mapJson (Some r.(sr_Peers)))]);
  msgSetters :=
    [("node_id", strF sr_NodeID (λ x '(mkStatusResponse _ s t l a c p i n m), mkStatusResponse x s t l a c p i n m));
     ("state", strF sr_State (λ x '(mkStatusResponse d _ t l a c p i n m), mkStatusResponse d x t l a c p i n m));
     ("term", numF sr_Term (λ x '(mkStatusResponse d s _ l a c p i n m), mkStatusResponse d s x l a c p i n m));
     ("leader_id", strF sr_LeaderID (λ x '(mkStatusResponse d s t _ a c p i n m), mkStatusResponse d s t x a c p i n m));
     ("leader_address", strF sr_LeaderAddress (λ x '(mkStatusResponse d s t l _ c p i n m), mkStatusResponse d s t l x c p i n m));
     ("commit_index", numF sr_CommitIndex (λ x '(mkStatusResponse d s t l a _ p i n m), mkStatusResponse d s t l a x p i n m));
     ("last_applied", numF sr_LastApplied (λ x '(mkStatusResponse d s t l a c _ i n m), mkStatusResponse d s t l a c x i n m));
     ("last_log_index", numF sr_LastLogIndex (λ x '(mkStatusResponse d s t l a c p _ n m), mkStatusResponse d s t l a c p x n m));
     ("snapshot_index", numF sr_SnapshotIndex (λ x '(mkStatusResponse d s t l a c p i _ m), mkStatusResponse d s t l a c p i x m));
     ("peers", λ v '(mkStatusResponse d s t l a c p i n m),
        m' ← decodeMap v (Some m); Some (mkStatusResponse d s t l a c p i n (default ∅ m')))] |}.

#[global] Instance LogEntry_msg : Message LogEntry := {|
  msgZero := mkLogEntry 0 0 [];
  msgFields r := [("index", JNum r.(le_Index)); ("term", JNum r.(le_Term)); ("command", JStr (b64Encode r.(le_Command)))];
  msgSetters :=
    [("index", numF le_Index (λ x '(mkLogEntry _ t c), mkLogEntry x t c));
     ("term", numF le_Term (λ x '(mkLogEntry i _ c), mkLogEntry i x c));
     ("command", bytesF le_Command (λ x '(mkLogEntry i t _), mkLogEntry i t x))] |}.

#[global] Instance RequestVoteRequest_msg : Message RequestVoteRequest := {|
  msgZero := mkRequestVoteRequest 0 "" 0 0;
  msgFields r := [("term", JNum r.(rv_Term)); ("candidate_id", JStr r.(rv_CandidateID));
    ("last_log_index", JNum r.(rv_LastLogIndex)); ("last_log_term", JNum r.(rv_LastLogTerm))];
  msgSetters :=
    [("term", numF rv_Term (λ x '(mkRequestVoteRequest _ c i l), mkRequestVoteRequest x c i l));
     ("candidate_id", strF rv_CandidateID (λ x '(mkRequestVoteRequest t _ i l), mkRequestVoteRequest t x i l));
     ("last_log_index", numF rv_LastLogIndex (λ x '(mkRequestVoteRequest t c _ l), mkRequestVoteRequest t c x l));
     ("last_log_term", numF rv_LastLogTerm (λ x '(mkRequestVoteRequest t c i _), mkRequestVoteRequest t c i x))] |}.

#[global] Instance RequestVoteResponse_msg : Message RequestVoteResponse := {|
  msgZero := mkRequestVoteResponse 0 false;
  msgFields r := [("term", JNum r.(rvr_Term)); ("vote_granted", JBool r.(rvr_VoteGranted))];
  msgSetters :=
    [("term", numF rvr_Term (λ x '(mkRequestVoteResponse _ g), mkRequestVoteResponse x g));
     ("vote_granted", boolF rvr_VoteGranted (λ x '(mkRequestVoteResponse t _), mkRequestVoteResponse t x))] |}.

(** An array replaces the slice; null empties it. *)
Definition setEntries (v : json) : option (list LogEntry) :=
  match v with
  | JNull => Some []
  | JArr items =>
      mapM (λ item, match item with
                    | JObj fields => decodeFields msgStep fields msgZero
                    | JNull => Some msgZero
                    | _ => None
                    end) items
  | _ => None
  end.

#[global] Instance AppendEntriesRequest_msg : Message AppendEntriesRequest := {|
  msgZero := mkAppendEntriesRequest 0 "" 0 0 [] 0;
  msgFields r := [("term", JNum r.(ae_Term)); ("leader_id", JStr r.(ae_LeaderID));
    ("prev_log_index", JNum r.(ae_PrevLogIndex)); ("prev_log_term", JNum r.(ae_PrevLogTerm));
    ("entries", JArr ((λ e, JObj (msgFields e)) <$> r.(ae_Entries))); ("leader_commit", JNum r.(ae_LeaderCommit))];
  msgSetters :=
    [("term", numF ae_Term (λ x '(mkAppendEntriesRequest _ l i p e c), mkAppendEntriesRequest x l i p e c));
     ("leader_id", strF ae_LeaderID (λ x '(mkAppendEntriesRequest t _ i p e c), mkAppendEntriesRequest t x i p e c));
     ("prev_log_index", numF ae_PrevLogIndex (λ x '(mkAppendEntriesRequest t l _ p e c), mkAppendEntriesRequest t l x p e c));
     ("prev_log_term", numF ae_PrevLogTerm (λ x '(mkAppendEntriesRequest t l i _ e c), mkAppendEntriesRequest t l i x e c));
     ("entries", λ v '(mkAppendEntriesRequest t l i p e c), x ← setEntries v; Some (mkAppendEntriesRequest t l i p x c));
     ("leader_commit", numF ae_LeaderCommit (λ x '(mkAppendEntriesRequest t l i p e _), mkAppendEntriesRequest t l i p e x))] |}.

#[global] Instance AppendEntriesResponse_msg : Message AppendEntriesResponse := {|
  msgZero := mkAppendEntriesResponse 0 false 0 0;
  msgFields r := ("term", JNum r.(aer_Term)) :: ("success", JBool r.(aer_Success)) ::
    optNum "conflict_index" r.(aer_ConflictIndex) ++ optNum "match_index" r.(aer_MatchIndex);
  msgSetters :=
    [("term", numF aer_Term (λ x '(mkAppendEntriesResponse _ s c m), mkAppendEntriesResponse x s c m));
     ("success", boolF aer_Success (λ x '(mkAppendEntriesResponse t _ c m), mkAppendEntriesResponse t x c m));
     ("conflict_index", numF aer_ConflictIndex (λ x '(mkAppendEntriesResponse t s _ m), mkAppendEntriesResponse t s x m));
     ("match_index", numF aer_MatchIndex (λ x '(mkAppendEntriesResponse t s c _), mkAppendEntriesResponse t s c x))] |}.

#[global] Instance InstallSnapshotRequest_msg : Message InstallSnapshotRequest := {|
  msgZero := mkInstallSnapshotRequest 0 "" 0 0 0 [] false;
  msgFields r := [("term", JNum r.(is_Term)); ("leader_id", JStr r.(is_LeaderID));
    ("last_included_index", JNum r.(is_LastIncludedIndex)); ("last_included_term", JNum r.(is_LastIncludedTerm));
    ("offset", JNum r.(is_Offset)); ("data", JStr (b64Encode r.(is_Data))); ("done", JBool r.(is_Done))];
  msgSetters :=
    [("term", numF is_Term (λ x '(mkInstallSnapshotRequest _ l i s o d e), mkInstallSnapshotRequest x l i s o d e));
     ("leader_id", strF is_LeaderID (λ x '(mkInstallSnapshotRequest t _ i s o d e), mkInstallSnapshotRequest t x i s o d e));
     ("last_included_index", numF is_LastIncludedIndex (λ x '(mkInstallSnapshotRequest t l _ s o d e), mkInstallSnapshotRequest t l x s o d e));
     ("last_included_term", numF is_LastIncludedTerm (λ x '(mkInstallSnapshotRequest t l i _ o d e), mkInstallSnapshotRequest t l i x o d e));
     ("offset", numF is_Offset (λ x '(mkInstallSnapshotRequest t l i s _ d e), mkInstallSnapshotRequest t l i s x d e));
     ("data", bytesF is_Data (λ x '(mkInstallSnapshotRequest t l i s o _ e), mkInstallSnapshotRequest t l i s o x e));
     ("done", boolF is_Done (λ x '(mkInstallSnapshotRequest t l i s o d _), mkInstallSnapshotRequest t l i s o d x))] |}.

#[global] Instance InstallSnapshotResponse_msg : Message InstallSnapshotResponse := {|
  msgZero := mkInstallSnapshotResponse 0 false 0;
  msgFields r := ("term", JNum r.(isr_Term)) :: ("success", JBool r.(isr_Success)) ::
    optNum "bytes_received" r.(isr_BytesReceived);
  msgSetters :=
    [("term", numF isr_Term (λ x '(mkInstallSnapshotResponse _ s b), mkInstallSnapshotResponse x s b));
     ("success", boolF isr_Success (λ x '(mkInstallSnapshotResponse t _ b), mkInstallSnapshotResponse t x b));
     ("bytes_received", numF isr_BytesReceived (λ x '(mkInstallSnapshotResponse t s _), mkInstallSnapshotResponse t s x))] |}.

(** ** Round trips *)

Ltac msg_roundtrip :=
  intros []; cbn; unfold optStr, optNum;
  repeat match goal with
  | |- context [@decide (?x = ?y) ?d] => destruct (@decide (x = y) d); [subst|]
  end; reflexivity.

#[global] Instance PutRequest_laws : MessageLaws PutRequest.
Proof. msg_roundtrip. Qed.
#[global] Instance PutResponse_laws : MessageLaws PutResponse.
Proof. msg_roundtrip. Qed.
#[global] Instance GetRequest_laws : MessageLaws GetRequest.
Proof. msg_roundtrip. Qed.
#[global] Instance GetResponse_laws : MessageLaws GetResponse.
Proof. msg_roundtrip. Qed.
#[global] Instance DeleteRequest_laws : MessageLaws DeleteRequest.
Proof. msg_roundtrip. Qed.
#[global] Instance DeleteResponse_laws : MessageLaws DeleteResponse.
Proof. msg_roundtrip. Qed.
#[global] Instance CASRequest_laws : MessageLaws CASRequest.
Proof. msg_roundtrip. Qed.
#[global] Instance CASResponse_laws : MessageLaws CASResponse.
Proof. msg_roundtrip. Qed.
#[global] Instance StatusRequest_laws : MessageLaws StatusRequest.
Proof. msg_roundtrip. Qed.
#[global] Instance RequestVoteRequest_laws : MessageLaws RequestVoteRequest.
Proof. msg_roundtrip. Qed.
#[global] Instance RequestVoteResponse_laws : MessageLaws RequestVoteResponse.
Proof. msg_roundtrip. Qed.
#[global] Instance AppendEntriesResponse_laws : MessageLaws AppendEntriesResponse.
Proof. msg_roundtrip. Qed.
#[global] Instance InstallSnapshotResponse_laws : MessageLaws InstallSnapshotResponse.
Proof. msg_roundtrip. Qed.

#[global] Instance LogEntry_laws : MessageLaws LogEntry.
Proof.
  intros [i t c]. change ((c' ← b64Decode (b64Encode c); Some (mkLogEntry i t c')) = Some (mkLogEntry i t c)).
  by rewrite b64_roundtrip.
Qed.

#[global] Instance InstallSnapshotRequest_laws : MessageLaws InstallSnapshotRequest.
Proof.
  intros [t l i s o d e].
  change ((d' ← b64Decode (b64Encode d); Some (mkInstallSnapshotRequest t l i s o d' false)) ≫= msgStep "done" (JBool e) =
          Some (mkInstallSnapshotRequest t l i s o d e)).
  by rewrite b64_roundtrip.
Qed.

Lemma setEntries_roundtrip (es : list LogEntry) : setEntries (JArr ((λ e, JObj (msgFields e)) <$> es)) = Some es.
Proof.
  cbn [setEntries]. apply mapM_Some. apply Forall2_fmap_l. induction es as [|e es IH]; constructor; [|done].
  apply msg_roundtrip.
Qed.

#[global] Instance AppendEntriesRequest_laws : MessageLaws AppendEntriesRequest.
Proof.
  intros [t l i p es c].
  change ((x ← setEntries (JArr ((λ e, JObj (msgFields e)) <$> es)); Some (mkAppendEntriesRequest t l i p x 0)) ≫=
            msgStep "leader_commit" (JNum c) = Some (mkAppendEntriesRequest t l i p es c)).
  by rewrite setEntries_roundtrip.
Qed.

#[global] Instance StatusResponse_laws : MessageLaws StatusResponse.
Proof.
  intros [d s t l a c p i n m]. cbn [msgFields StatusResponse_msg sr_NodeID sr_State sr_Term sr_LeaderID
    sr_LeaderAddress sr_CommitIndex sr_LastApplied sr_LastLogIndex sr_SnapshotIndex sr_Peers].
  set (tl := if decide (m = ∅) then _ else _).
  assert (decodeFields msgStep tl (mkStatusResponse d s t l a c p i n ∅) = Some (mkStatusResponse d s t l a c p i n m)) as Ht.
  { subst tl. case_decide; [by subst|].
    change ((m' ← decodeMap (mapJson (Some m)) (Some ∅); Some (mkStatusResponse d s t l a c p i n (default ∅ m'))) =
            Some (mkStatusResponse d s t l a c p i n m)).
    change (decodeMap (mapJson (Some m)) (Some ∅)) with (decodeMap (mapJson (Some m)) None). by rewrite map_roundtrip. }
  rewrite <- Ht. unfold optStr. clearbody tl.
  destruct (decide (l = "")) as [->|], (decide (a = "")) as [->|]; reflexivity.
Qed.

(** ** Handlers and stubs *)
Section rpc.
Context {Ctx W : Type}.

(** The decoding step, the handler and the encoding of its reply; with an
    interceptor the handler is passed to it. *)
Definition unaryHandler {Req Resp} `{Message Req} `{Message Resp}
    (fn : Ctx → Req → W → (Resp + error) * W)
    (interceptor : option ((Ctx → Req → W → (Resp + error) * W) → Ctx → Req → W → (Resp + error) * W))
    (ctx : Ctx) (data : bytes) (w : W) : (bytes + error) * W :=
  match Unmarshal data with
  | None => (inr (ErrText "failed to unmarshal the received message"), w)
  | Some req =>
      let r := match interceptor with
               | None => fn ctx req w
               | Some i => i fn ctx req w
               end in
      match r with
      | (inl resp, w) => (inl (Marshal resp), w)
      | (inr e, w) => (inr e, w)
      end
  end.

Record KVServiceServer := {
  kv_Put : Ctx → PutRequest → W → (PutResponse + error) * W;
  kv_GetRPC : Ctx → GetRequest → W → (GetResponse + error) * W;
  kv_Delete : Ctx → DeleteRequest → W → (DeleteResponse + error) * W;
  kv_CAS : Ctx → CASRequest → W → (CASResponse + error) * W;
  kv_Status : Ctx → StatusRequest → W → (StatusResponse + error) * W }.

Record RaftPeerServiceServer := {
  rp_RequestVote : Ctx → RequestVoteRequest → W → (RequestVoteResponse + error) * W;
  rp_AppendEntries : Ctx → AppendEntriesRequest → W → (AppendEntriesResponse + error) * W;
  rp_InstallSnapshot : Ctx → InstallSnapshotRequest → W → (InstallSnapshotResponse + error) * W }.

(** The method table of a server, by full method name; it has no
    interceptor ([grpc.NewServer] is called without options). *)
Definition methods : Type := list (string * (Ctx → bytes → W → (bytes + error) * W)).

Definition fullName (service method : string) : string := "/" +:+ service +:+ "/" +:+ method.

Definition RegisterKVServiceServer (service : KVServiceServer) (server : methods) : methods :=
  server ++
  [(fullName "raftkv.v1.KV" "Put", unaryHandler service.(kv_Put) None);
   (fullName "raftkv.v1.KV" "Get", unaryHandler service.(kv_GetRPC) None);
   (fullName "raftkv.v1.KV" "Delete", unaryHandler service.(kv_Delete) None);
   (fullName "raftkv.v1.KV" "CAS", unaryHandler service.(kv_CAS) None);
   (fullName "raftkv.v1.KV" "Status", unaryHandler service.(kv_Status) None)].

Definition RegisterRaftPeerServiceServer (service : RaftPeerServiceServer) (server : methods) : methods :=
  server ++
  [(fullName "raftkv.v1.RaftPeer" "RequestVote", unaryHandler service.(rp_RequestVote) None);
   (fullName "raftkv.v1.RaftPeer" "AppendEntries", unaryHandler service.(rp_AppendEntries) None);
   (fullName "raftkv.v1.RaftPeer" "InstallSnapshot", unaryHandler service.(rp_InstallSnapshot) None)].

(** A client connection, [grpc.ClientConnInterface.Invoke] with the codec of
    this package: method, encoded request, encoded reply or error. *)
Definition connection : Type := Ctx → string → bytes → W → (bytes + error) * W.

Definition invoke {Req Resp} `{Message Req} `{Message Resp}
    (conn : connection) (ctx : Ctx) (method : string) (in_ : Req) (w : W) : (Resp + error) * W :=
  match conn ctx method (Marshal in_) w with
  | (inr e, w) => (inr e, w)
  | (inl data, w) =>
      match Unmarshal data with
      | Some out => (inl out, w)
      | None => (inr (ErrText "failed to unmarshal the received message"), w)
      end
  end.

Definition KVClient_Put (conn : connection) (ctx : Ctx) (in_ : PutRequest) : W → (PutResponse + error) * W :=
  invoke conn ctx "/raftkv.v1.KV/Put" in_.
Definition KVClient_Get (conn : connection) (ctx : Ctx) (in_ : GetRequest) : W → (GetResponse + error) * W :=
  invoke conn ctx "/raftkv.v1.KV/Get" in_.
Definition KVClient_Delete (conn : connection) (ctx : Ctx) (in_ : DeleteRequest) : W → (DeleteResponse + error) * W :=
  invoke conn ctx "/raftkv.v1.KV/Delete" in_.
Definition KVClient_CAS (conn : connection) (ctx : Ctx) (in_ : CASRequest) : W → (CASResponse + error) * W :=
  invoke conn ctx "/raftkv.v1.KV/CAS" in_.
Definition KVClient_Status (conn : connection) (ctx : Ctx) (in_ : StatusRequest) : W → (StatusResponse + error) * W :=
  invoke conn ctx "/raftkv.v1.KV/Status" in_.
Definition RaftPeerClient_RequestVote (conn : connection) (ctx : Ctx) (in_ : RequestVoteRequest)
    : W → (RequestVoteResponse + error) * W := invoke conn ctx "/raftkv.v1.RaftPeer/RequestVote" in_.
Definition RaftPeerClient_AppendEntries (conn : connection) (ctx : Ctx) (in_ : AppendEntriesRequest)
    : W → (AppendEntriesResponse + error) * W := invoke conn ctx "/raftkv.v1.RaftPeer/AppendEntries" in_.
Definition RaftPeerClient_InstallSnapshot (conn : connection) (ctx : Ctx) (in_ : InstallSnapshotRequest)
    : W → (InstallSnapshotResponse + error) * W := invoke conn ctx "/raftkv.v1.RaftPeer/InstallSnapshot" in_.

(** What gRPC promises of a call to a server with method table [server]: it
    runs the handler and delivers its reply, or it fails, before the handler
    ran or after it. *)
Definition serves (server : methods) (conn : connection) : Prop :=
  ∀ ctx method h data w, assoc method server = Some h →
    conn ctx method data w = h ctx data w ∨
    (∃ e, conn ctx method data w = (inr e, w)) ∨
    (∃ e, conn ctx method data w = (inr e, (h ctx data w).2)).

(** The reply [r] of a call, or a failed call that had no effect or whose
    reply was lost. *)
Definition delivered {R} (call r : (R + error) * W) (w : W) : Prop :=
  call = r ∨ (∃ e, call = (inr e, w)) ∨ (∃ e, call = (inr e, r.2)).

Lemma invoke_delivered {Req Resp} `{MessageLaws Req} `{MessageLaws Resp} server conn method
    (fn : Ctx → Req → W → (Resp + error) * W) ctx in_ w :
  serves server conn → assoc method server = Some (unaryHandler fn None) →
  delivered (invoke conn ctx method in_ w) (fn ctx in_ w) w.
Proof.
  intros Hs Hm. specialize (Hs ctx method _ (Marshal in_) w Hm). unfold unaryHandler, invoke in *.
  rewrite Unmarshal_Marshal in Hs. destruct Hs as [->|[[e ->]|[e ->]]].
  - left. destruct (fn ctx in_ w) as [[resp|e] w']; [|done]. by rewrite Unmarshal_Marshal.
  - right. left. eauto.
  - right. right. exists e. by destruct (fn ctx in_ w) as [[resp|e'] w'].
Qed.

End rpc.
Arguments methods : clear implicits.
Arguments connection : clear implicits.
Arguments KVServiceServer : clear implicits.
Arguments RaftPeerServiceServer : clear implicits.
