(* ===== verification/Server.v ===== *)
(** * The gRPC service and the gRPC transport

    [internal/server/service.go], [command_codec.go] and [transport.go].
    The service is a function of the node it serves, which it uses through
    the methods of [NodeApi]; the transport keeps a pool of connections and
    uses the gRPC runtime through [Grpc].  [Ctx] is the type of contexts and
    [W] the state of the world. *)

From S2P Require Import Prelude Types Wal Json JsonProofs Api.

(** ** Command codec *)

Definition encodeCommand (command : Command) : bytes := print (JObj (commandFields command)).

(** The error of [json.Unmarshal] is dropped: a document that does not parse
    leaves the zero command, and a field of the wrong type is skipped. *)
Definition decodeCommand (data : bytes) : Command :=
  match parse data with
  | Some (JObj fields) => foldl (λ c kv, default c (commandStep kv.1 kv.2 c)) zeroCommand fields
  | _ => zeroCommand
  end.

Lemma lenient_fields {A} (step : string → json → A → option A) fields : ∀ a b,
  decodeFields step fields a = Some b → foldl (λ c kv, default c (step kv.1 kv.2 c)) a fields = b.
Proof.
  induction fields as [|[k v] fields IH]; intros a b Hd; [by injection Hd|].
  unfold decodeFields in Hd. cbn in *. destruct (step k v a) as [a'|] eqn:E; cbn.
  - by apply IH.
  - exfalso. clear -Hd. induction fields as [|kv fields IH]; [done|]. cbn in Hd. by apply IH.
Qed.

Lemma decode_encode_command c : decodeCommand (encodeCommand c) = c.
Proof. unfold decodeCommand, encodeCommand. rewrite parse_print. apply lenient_fields, command_roundtrip. Qed.

(** ** Service *)

(** The methods of [raft.Node] that the service calls. *)
Record NodeApi (Ctx W : Type) := {
  na_Propose : Ctx → Command → W → (ApplyResult * option error) * W;
  na_LinearizableGet : Ctx → string → W → (string * bool + error) * W;
  na_Status : W → Status;
  na_HandleRequestVote : RequestVoteRequest → W → RequestVoteResponse * W;
  na_HandleAppendEntries : AppendEntriesRequest → W → AppendEntriesResponse * W;
  na_HandleInstallSnapshot : InstallSnapshotRequest → W → InstallSnapshotResponse * W }.
Arguments na_Propose {_ _}. Arguments na_LinearizableGet {_ _}. Arguments na_Status {_ _}.
Arguments na_HandleRequestVote {_ _}. Arguments na_HandleAppendEntries {_ _}. Arguments na_HandleInstallSnapshot {_ _}.

Definition leaderHint (err : error) : string * string := default ("", "") (errors_As_NotLeader err).

Definition logEntriesToAPI (entries : list LogEntry) : list api.LogEntry :=
  (λ e, api.mkLogEntry e.(Index) e.(Term) (encodeCommand e.(EntryCommand))) <$> entries.

Definition apiToLogEntries (entries : list api.LogEntry) : list LogEntry :=
  (λ e, mkLogEntry e.(api.le_Index) e.(api.le_Term) (decodeCommand e.(api.le_Command))) <$> entries.

Lemma entries_roundtrip es : apiToLogEntries (logEntriesToAPI es) = es.
Proof.
  unfold apiToLogEntries, logEntriesToAPI. rewrite <- list_fmap_compose.
  induction es as [|[i t c] es IH]; [done|]. rewrite fmap_cons, IH. f_equal. unfold compose.
  cbn [api.le_Index api.le_Term api.le_Command Index Term EntryCommand]. by rewrite decode_encode_command.
Qed.

Section service.
Context {Ctx W : Type} (node : NodeApi Ctx W).

Definition Service_Put (ctx : Ctx) (req : api.PutRequest) (w : W) : (api.PutResponse + error) * W :=
  match node.(na_Propose) ctx (mkCommand OpPut req.(api.put_Key) req.(api.put_Value) "") w with
  | ((_, Some err), w) =>
      let '(leaderID, leaderAddr) := leaderHint err in
      (inl (api.mkPutResponse false (Error err) leaderID leaderAddr), w)
  | ((res, None), w) => (inl (api.mkPutResponse res.(OK) res.(ResError) "" ""), w)
  end.

Definition Service_Get (ctx : Ctx) (req : api.GetRequest) (w : W) : (api.GetResponse + error) * W :=
  match node.(na_LinearizableGet) ctx req.(api.get_Key) w with
  | (inr err, w) =>
      let '(leaderID, leaderAddr) := leaderHint err in
      (inl (api.mkGetResponse false false "" (Error err) leaderID leaderAddr), w)
  | (inl (value, found), w) => (inl (api.mkGetResponse true found value "" "" ""), w)
  end.

Definition Service_Delete (ctx : Ctx) (req : api.DeleteRequest) (w : W) : (api.DeleteResponse + error) * W :=
  match node.(na_Propose) ctx (mkCommand OpDelete req.(api.del_Key) "" "") w with
  | ((_, Some err), w) =>
      let '(leaderID, leaderAddr) := leaderHint err in
      (inl (api.mkDeleteResponse false false "" (Error err) leaderID leaderAddr), w)
  | ((res, None), w) => (inl (api.mkDeleteResponse res.(OK) res.(Found) res.(ResValue) res.(ResError) "" ""), w)
  end.

Definition Service_CAS (ctx : Ctx) (req : api.CASRequest) (w : W) : (api.CASResponse + error) * W :=
  match node.(na_Propose) ctx
          (mkCommand OpCAS req.(api.cas_Key) req.(api.cas_Value) req.(api.cas_Expected)) w with
  | ((_, Some err), w) =>
      let '(leaderID, leaderAddr) := leaderHint err in
      (inl (api.mkCASResponse false false false "" (Error err) leaderID leaderAddr), w)
  | ((res, None), w) =>
      (inl (api.mkCASResponse res.(OK) res.(Swapped) res.(Found) res.(ResValue) res.(ResError) "" ""), w)
  end.

Definition Service_Status (_ : Ctx) (_ : api.StatusRequest) (w : W) : (api.StatusResponse + error) * W :=
  let status := node.(na_Status) w in
  let peers := foldl (λ (m : gmap string string) p, <[p.(ps_ID) := p.(ps_Address)]> m) ∅ status.(st_Peers) in
  (inl (api.mkStatusResponse status.(st_ID) (from_option Role_string "" status.(st_Role)) status.(st_Term)
          status.(st_LeaderID) status.(st_LeaderAddress) status.(st_CommitIndex) status.(st_LastApplied)
          status.(st_LastLogIndex) status.(st_SnapshotIndex) peers), w).

Definition Service_RequestVote (_ : Ctx) (req : api.RequestVoteRequest) (w : W)
    : (api.RequestVoteResponse + error) * W :=
  let '(resp, w) := node.(na_HandleRequestVote)
    (mkRequestVoteRequest req.(api.rv_Term) req.(api.rv_CandidateID) req.(api.rv_LastLogIndex) req.(api.rv_LastLogTerm)) w in
  (inl (api.mkRequestVoteResponse resp.(rvr_Term) resp.(rvr_VoteGranted)), w).

Definition Service_AppendEntries (_ : Ctx) (req : api.AppendEntriesRequest) (w : W)
    : (api.AppendEntriesResponse + error) * W :=
  let '(resp, w) := node.(na_HandleAppendEntries)
    (mkAppendEntriesRequest req.(api.ae_Term) req.(api.ae_LeaderID) req.(api.ae_PrevLogIndex) req.(api.ae_PrevLogTerm)
       (apiToLogEntries req.(api.ae_Entries)) req.(api.ae_LeaderCommit)) w in
  (inl (api.mkAppendEntriesResponse resp.(aer_Term) resp.(aer_Success) resp.(aer_ConflictIndex) resp.(aer_LastLogIndex)), w).

Definition Service_InstallSnapshot (_ : Ctx) (req : api.InstallSnapshotRequest) (w : W)
    : (api.InstallSnapshotResponse + error) * W :=
  let '(resp, w) := node.(na_HandleInstallSnapshot)
    (mkInstallSnapshotRequest req.(api.is_Term) req.(api.is_LeaderID) req.(api.is_LastIncludedIndex)
       req.(api.is_LastIncludedTerm) req.(api.is_Offset) req.(api.is_Data) req.(api.is_Done)) w in
  (inl (api.mkInstallSnapshotResponse resp.(isr_Term) resp.(isr_Success) resp.(isr_BytesReceived)), w).

(** [NewService], as the implementation of the two service interfaces. *)
Definition kvService : KVServiceServer Ctx W :=
  {| kv_Put := Service_Put; kv_GetRPC := Service_Get; kv_Delete := Service_Delete; kv_CAS := Service_CAS;
     kv_Status := Service_Status |}.
Definition peerService : RaftPeerServiceServer Ctx W :=
  {| rp_RequestVote := Service_RequestVote; rp_AppendEntries := Service_AppendEntries;
     rp_InstallSnapshot := Service_InstallSnapshot |}.

(** The server that [main] sets up. *)
Definition grpcServer : methods Ctx W :=
  RegisterRaftPeerServiceServer peerService (RegisterKVServiceServer kvService []).

End service.

(** ** Transport *)

(** What the transport uses of gRPC: dialing an address, the state of a
    connection, closing it and calling a method on it. *)
Class Grpc (Ctx W Conn : Type) := {
  NewClient : string → W → (Conn + error) * W;
  isShutdown : Conn → W → bool;
  CloseConn : Conn → W → W;
  Invoke : Conn → connection Ctx W }.

(** What gRPC documents of connections: a new one is open and leads to the
    address it was dialed for, closing closes just that one, a call neither
    opens nor closes one, and a connection in state Shutdown is closed. *)
Class GrpcLaws (Ctx W Conn : Type) `{Grpc Ctx W Conn} := {
  is_open : W → Conn → Prop;
  target : W → Conn → string;
  NewClient_open : ∀ a w c w', NewClient a w = (inl c, w') →
    ¬ is_open w c ∧ target w' c = a ∧ (∀ d, is_open w' d ↔ d = c ∨ is_open w d) ∧
    (∀ d, d ≠ c → target w' d = target w d);
  NewClient_fail : ∀ a w e w', NewClient a w = (inr e, w') →
    (∀ d, is_open w' d ↔ is_open w d) ∧ (∀ d, target w' d = target w d);
  Close_open : ∀ c w, (∀ d, is_open (CloseConn c w) d ↔ is_open w d ∧ d ≠ c) ∧
    (∀ d, target (CloseConn c w) d = target w d);
  Invoke_open : ∀ c ctx m data w, (∀ d, is_open (Invoke c ctx m data w).2 d ↔ is_open w d) ∧
    (∀ d, target (Invoke c ctx m data w).2 d = target w d);
  shutdown_closed : ∀ c w, isShutdown c w = true → ¬ is_open w c }.

Section transport.
Context {Ctx W Conn : Type} `{EqDecision Conn} `{Grpc Ctx W Conn}.

Record GRPCTransport := mkTransport {
  t_peers : gmap string string;
  t_conns : gmap string Conn }.

Definition with_conns (v : gmap string Conn) (t : GRPCTransport) : GRPCTransport := mkTransport t.(t_peers) v.

Definition NewGRPCTransport (peers : gmap string string) : GRPCTransport := mkTransport peers ∅.

Definition Transport_Close (s : GRPCTransport * W) : GRPCTransport * W :=
  let '(t, w) := s in
  map_fold (λ id conn '(t, w), (with_conns (delete id t.(t_conns)) t, CloseConn conn w)) (t, w) t.(t_conns).

(** The part of [connFor] after a usable pooled connection was not found. *)
Definition dial (peerID : string) (s : GRPCTransport * W) : (Conn + error) * (GRPCTransport * W) :=
  let '(t, w) := s in
  let addr := default "" (t.(t_peers) !! peerID) in
  if decide (addr = "") then (inr (ErrText "unknown peer"), (t, w))
  else match NewClient addr w with
       | (inr err, w) => (inr err, (t, w))
       | (inl conn, w) => (inl conn, (with_conns (<[peerID := conn]> t.(t_conns)) t, w))
       end.

Definition connFor (peerID : string) (s : GRPCTransport * W) : (Conn + error) * (GRPCTransport * W) :=
  let '(t, w) := s in
  match t.(t_conns) !! peerID with
  | Some conn =>
      if isShutdown conn w then
        dial peerID (with_conns (delete peerID t.(t_conns)) t, CloseConn conn w)
      else (inl conn, (t, w))
  | None => dial peerID (t, w)
  end.

Definition dropConn (peerID : string) (observed : Conn) (s : GRPCTransport * W) : GRPCTransport * W :=
  let '(t, w) := s in
  match t.(t_conns) !! peerID with
  | Some cur =>
      if decide (cur = observed) then (with_conns (delete peerID t.(t_conns)) t, CloseConn cur w)
      else (t, w)
  | None => (t, w)
  end.

(** An RPC of the transport: take a connection, call the stub, and drop the
    connection when the call failed.  [others] is what the other goroutines
    do to the pool while the call is out. *)
Definition transportCall {Req Resp} (others : GRPCTransport * W → GRPCTransport * W)
    (stub : connection Ctx W → Ctx → Req → W → (Resp + error) * W)
    (ctx : Ctx) (peerID : string) (req : Req) (s : GRPCTransport * W) : (Resp + error) * (GRPCTransport * W) :=
  match connFor peerID s with
  | (inr err, s) => (inr err, s)
  | (inl conn, (t, w)) =>
      match stub (Invoke conn) ctx req w with
      | (inr err, w) => (inr err, dropConn peerID conn (others (t, w)))
      | (inl resp, w) => (inl resp, others (t, w))
      end
  end.

Definition Transport_RequestVote others (ctx : Ctx) (peerID : string) (req : RequestVoteRequest) s
    : (RequestVoteResponse + error) * (GRPCTransport * W) :=
  match transportCall others RaftPeerClient_RequestVote ctx peerID
          (api.mkRequestVoteRequest req.(rv_Term) req.(rv_CandidateID) req.(rv_LastLogIndex) req.(rv_LastLogTerm)) s with
  | (inr err, s) => (inr err, s)
  | (inl resp, s) => (inl (mkRequestVoteResponse resp.(api.rvr_Term) resp.(api.rvr_VoteGranted)), s)
  end.

Definition Transport_AppendEntries others (ctx : Ctx) (peerID : string) (req : AppendEntriesRequest) s
    : (AppendEntriesResponse + error) * (GRPCTransport * W) :=
  match transportCall others RaftPeerClient_AppendEntries ctx peerID
          (api.mkAppendEntriesRequest req.(ae_Term) req.(ae_LeaderID) req.(ae_PrevLogIndex) req.(ae_PrevLogTerm)
             (logEntriesToAPI req.(ae_Entries)) req.(ae_LeaderCommit)) s with
  | (inr err, s) => (inr err, s)
  | (inl resp, s) =>
      (inl (mkAppendEntriesResponse resp.(api.aer_Term) resp.(api.aer_Success) resp.(api.aer_MatchIndex)
              resp.(api.aer_ConflictIndex)), s)
  end.

Definition Transport_InstallSnapshot others (ctx : Ctx) (peerID : string) (req : InstallSnapshotRequest) s
    : (InstallSnapshotResponse + error) * (GRPCTransport * W) :=
  match transportCall others RaftPeerClient_InstallSnapshot ctx peerID
          (api.mkInstallSnapshotRequest req.(is_Term) req.(is_LeaderID) req.(is_LastIncludedIndex)
             req.(is_LastIncludedTerm) req.(is_Offset) req.(is_Data) req.(is_Done)) s with
  | (inr err, s) => (inr err, s)
  | (inl resp, s) =>
      (inl (mkInstallSnapshotResponse resp.(api.isr_Term) resp.(api.isr_Success) resp.(api.isr_BytesReceived)), s)
  end.

End transport.
Arguments GRPCTransport : clear implicits.
