(* ===== verification/ServerProofs.v ===== *)
(** * The service and the transport, end to end

    A message that leaves a node through the transport reaches the other
    node's handler as it was, and so does the reply; the connection pool
    neither leaks nor confuses connections; and what a client is told by the
    service holds of the replicated log. *)

From S2P Require Import Prelude Types StateMachine StoreIntf RaftLog NodeState Node Replication Methods NodeStep NodeInv ApplySys Wal Json JsonProofs TestEnv Waiters Proposals Handlers Reads Calls Api Server.

(** ** Messages *)

Section messages.
Context {Ctx W Conn : Type} `{EqDecision Conn} `{Grpc Ctx W Conn} (node : NodeApi Ctx W).

(** The call [call] to a handler that would have returned [r] in world [w]:
    the reply arrives, or the call fails and its connection is dropped; the
    handler may have run in either case. *)
Definition reaches {R} (call : (R + error) * (GRPCTransport Conn * W)) (r : R * W)
    (peer : string) (conn : Conn) (t : GRPCTransport Conn) (w : W) : Prop :=
  call = (inl r.1, (t, r.2)) ∨
  ∃ e w', (w' = w ∨ w' = r.2) ∧ call = (inr e, dropConn peer conn (t, w')).

Lemma transportCall_reaches {Req Resp} (stub : connection Ctx W → Ctx → Req → W → (Resp + error) * W)
    (fn : Ctx → Req → W → (Resp + error) * W) ctx peer req conn s t w :
  connFor peer s = (inl conn, (t, w)) →
  delivered (stub (Invoke conn) ctx req w) (fn ctx req w) w →
  (∃ resp w', fn ctx req w = (inl resp, w')) →
  ∃ resp, (fn ctx req w).1 = inl resp ∧
    reaches (transportCall Datatypes.id stub ctx peer req s) (resp, (fn ctx req w).2) peer conn t w.
Proof.
  intros Hc Hd (resp & w' & Hf). exists resp. rewrite Hf in *. split; [done|]. unfold transportCall, reaches. rewrite Hc.
  destruct Hd as [->|[[e ->]|[e ->]]]; [by left|right..]; [exists e, w|exists e, w']; split; auto.
Qed.

(** The server answers each method with the method of the service. *)
Lemma server_methods :
  assoc "/raftkv.v1.RaftPeer/RequestVote" (grpcServer node) = Some (unaryHandler (Service_RequestVote node) None) ∧
  assoc "/raftkv.v1.RaftPeer/AppendEntries" (grpcServer node) = Some (unaryHandler (Service_AppendEntries node) None) ∧
  assoc "/raftkv.v1.RaftPeer/InstallSnapshot" (grpcServer node) = Some (unaryHandler (Service_InstallSnapshot node) None) ∧
  assoc "/raftkv.v1.KV/Put" (grpcServer node) = Some (unaryHandler (Service_Put node) None) ∧
  assoc "/raftkv.v1.KV/Get" (grpcServer node) = Some (unaryHandler (Service_Get node) None) ∧
  assoc "/raftkv.v1.KV/Delete" (grpcServer node) = Some (unaryHandler (Service_Delete node) None) ∧
  assoc "/raftkv.v1.KV/CAS" (grpcServer node) = Some (unaryHandler (Service_CAS node) None).
Proof. split_and!; reflexivity. Qed.

Lemma vote_reaches ctx peer req conn s t w :
  connFor peer s = (inl conn, (t, w)) → serves (grpcServer node) (Invoke conn) →
  reaches (Transport_RequestVote Datatypes.id ctx peer req s) (node.(na_HandleRequestVote) req w) peer conn t w.
Proof.
  intros Hc Hs. unfold Transport_RequestVote. set (areq := api.mkRequestVoteRequest _ _ _ _).
  destruct server_methods as (Hm & _).
  pose proof (invoke_delivered _ _ _ (Service_RequestVote node) ctx areq w Hs Hm) as Hd.
  assert (Service_RequestVote node ctx areq w =
    (inl (api.mkRequestVoteResponse (node.(na_HandleRequestVote) req w).1.(rvr_Term)
                                    (node.(na_HandleRequestVote) req w).1.(rvr_VoteGranted)),
     (node.(na_HandleRequestVote) req w).2)) as Hf.
  { unfold Service_RequestVote. subst areq. destruct req; cbn. by destruct (na_HandleRequestVote _ _ _). }
  destruct (transportCall_reaches RaftPeerClient_RequestVote _ ctx peer areq conn s t w Hc Hd ltac:(eauto))
    as (resp & Hr & Hc'). rewrite Hf in Hr, Hc'. injection Hr as <-. unfold reaches in *.
  destruct Hc' as [->|(e & w' & Hw & ->)]; [left|right; by exists e, w'].
  cbn. by destruct (na_HandleRequestVote node req w) as [[] ?].
Qed.

Lemma append_reaches ctx peer req conn s t w :
  connFor peer s = (inl conn, (t, w)) → serves (grpcServer node) (Invoke conn) →
  reaches (Transport_AppendEntries Datatypes.id ctx peer req s) (node.(na_HandleAppendEntries) req w) peer conn t w.
Proof.
  intros Hc Hs. unfold Transport_AppendEntries. set (areq := api.mkAppendEntriesRequest _ _ _ _ _ _).
  destruct server_methods as (_ & Hm & _).
  pose proof (invoke_delivered _ _ _ (Service_AppendEntries node) ctx areq w Hs Hm) as Hd.
  set (r := node.(na_HandleAppendEntries) req w) in *.
  assert (Service_AppendEntries node ctx areq w =
    (inl (api.mkAppendEntriesResponse r.1.(aer_Term) r.1.(aer_Success) r.1.(aer_ConflictIndex) r.1.(aer_LastLogIndex)),
     r.2)) as Hf.
  { unfold Service_AppendEntries. subst areq r. cbn [api.ae_Term api.ae_LeaderID api.ae_PrevLogIndex api.ae_PrevLogTerm
      api.ae_Entries api.ae_LeaderCommit]. rewrite entries_roundtrip. destruct req; cbn.
    by destruct (na_HandleAppendEntries _ _ _). }
  destruct (transportCall_reaches RaftPeerClient_AppendEntries _ ctx peer areq conn s t w Hc Hd ltac:(eauto))
    as (resp & Hr & Hc'). rewrite Hf in Hr, Hc'. injection Hr as <-. unfold reaches in *.
  destruct Hc' as [->|(e & w' & Hw & ->)]; [left|right; by exists e, w'].
  cbn. by destruct r as [[] ?].
Qed.

Lemma install_reaches ctx peer req conn s t w :
  connFor peer s = (inl conn, (t, w)) → serves (grpcServer node) (Invoke conn) →
  reaches (Transport_InstallSnapshot Datatypes.id ctx peer req s) (node.(na_HandleInstallSnapshot) req w) peer conn t w.
Proof.
  intros Hc Hs. unfold Transport_InstallSnapshot. set (areq := api.mkInstallSnapshotRequest _ _ _ _ _ _ _).
  destruct server_methods as (_ & _ & Hm & _).
  pose proof (invoke_delivered _ _ _ (Service_InstallSnapshot node) ctx areq w Hs Hm) as Hd.
  set (r := node.(na_HandleInstallSnapshot) req w) in *.
  assert (Service_InstallSnapshot node ctx areq w =
    (inl (api.mkInstallSnapshotResponse r.1.(isr_Term) r.1.(isr_Success) r.1.(isr_BytesReceived)), r.2)) as Hf.
  { unfold Service_InstallSnapshot. subst areq r. destruct req; cbn. by destruct (na_HandleInstallSnapshot _ _ _). }
  destruct (transportCall_reaches RaftPeerClient_InstallSnapshot _ ctx peer areq conn s t w Hc Hd ltac:(eauto))
    as (resp & Hr & Hc'). rewrite Hf in Hr, Hc'. injection Hr as <-. unfold reaches in *.
  destruct Hc' as [->|(e & w' & Hw & ->)]; [left|right; by exists e, w'].
  cbn. by destruct r as [[] ?].
Qed.

End messages.

(** ** The connection pool *)

Section pool.
Context {Ctx W Conn : Type} `{EqDecision Conn} `{Grpc Ctx W Conn} `{!GrpcLaws Ctx W Conn}.
Implicit Types s : GRPCTransport Conn * W.

(** What the goroutines that share a transport do to it, in any order. *)
Inductive pool_step : GRPCTransport Conn * W → GRPCTransport Conn * W → Prop :=
  | ps_connFor p s : pool_step s (connFor p s).2
  | ps_dropConn p c s : pool_step s (dropConn p c s)
  | ps_call c ctx m data t w : pool_step (t, w) (t, (Invoke c ctx m data w).2)
  | ps_close s : pool_step s (Transport_Close s).

(** The open connections are exactly the pooled ones, each belongs to one
    peer and leads to its address. *)
Record pool_inv (peers : gmap string string) s : Prop := {
  pi_peers : s.1.(t_peers) = peers;
  pi_open : ∀ c, is_open s.2 c ↔ ∃ p, s.1.(t_conns) !! p = Some c;
  pi_inj : ∀ p q c, s.1.(t_conns) !! p = Some c → s.1.(t_conns) !! q = Some c → p = q;
  pi_target : ∀ p c, s.1.(t_conns) !! p = Some c → peers !! p = Some (target s.2 c) }.

(** Removing a pooled connection and closing it. *)
Lemma pool_remove peers t w p c : pool_inv peers (t, w) → t.(t_conns) !! p = Some c →
  pool_inv peers (with_conns (delete p t.(t_conns)) t, CloseConn c w).
Proof.
  intros [Hp Ho Hi Ht] Hc. destruct (Close_open c w) as [Hcl Htg]. cbn in *. split; cbn.
  - done.
  - intros d. rewrite Hcl, Ho. split.
    + intros [[q Hq] Hne]. exists q. rewrite lookup_delete_ne; [done|]. intros ->. congruence.
    + intros [q [Hne Hq]%lookup_delete_Some]. split; [eauto|]. intros ->. by apply Hne, (Hi p q c).
  - intros q q' d [_ Hq]%lookup_delete_Some [_ Hq']%lookup_delete_Some. by eapply Hi.
  - intros q d [_ Hq]%lookup_delete_Some. rewrite Htg. by apply Ht.
Qed.

Lemma pool_dial peers p s : pool_inv peers s → s.1.(t_conns) !! p = None →
  pool_inv peers (dial p s).2 ∧
  (∀ c, (dial p s).1 = inl c → is_open (dial p s).2.2 c ∧ (dial p s).2.1.(t_conns) !! p = Some c).
Proof.
  destruct s as [t w]. intros [Hp Ho Hi Ht] Hn. cbn in *. unfold dial. case_decide as Ha; [by split; [split|]|].
  destruct (NewClient _ w) as [[c|e] w'] eqn:E; cbn.
  - destruct (NewClient_open _ _ _ _ E) as (Hf & Hta & Hop & Htg).
    assert (∀ q, t.(t_conns) !! q ≠ Some c) as Hc by (intros q Hq; apply Hf, Ho; eauto).
    split; [split; cbn|].
    + done.
    + intros d. rewrite Hop, Ho. split.
      * intros [->|[q Hq]]; [exists p; by rewrite lookup_insert_eq|]. exists q.
        rewrite lookup_insert_ne; [done|]. intros ->. congruence.
      * intros [q [[_ <-]|[_ Hq]]%lookup_insert_Some]; [by left|right; eauto].
    + intros q q' d [[<- <-]|[? Hq]]%lookup_insert_Some [[<- Hd]|[? Hq']]%lookup_insert_Some; [done|..].
      * by destruct (Hc q').
      * subst d. by destruct (Hc q).
      * by eapply Hi.
    + intros q d [[<- <-]|[Hne Hq]]%lookup_insert_Some.
      * rewrite Hta, <- Hp. destruct (t_peers t !! p); [done|]. by cbn in Ha.
      * rewrite Htg; [by apply Ht|]. intros ->. by destruct (Hc q).
    + intros d [= <-]. split; [apply Hop; by left|by rewrite lookup_insert_eq].
  - destruct (NewClient_fail _ _ _ _ E) as [Hop Htg]. split; [split; cbn|done].
    + done.
    + intros d. by rewrite Hop.
    + done.
    + intros q d Hq. rewrite Htg. by apply Ht.
Qed.

Lemma pool_connFor peers p s : pool_inv peers s →
  pool_inv peers (connFor p s).2 ∧
  (∀ c, (connFor p s).1 = inl c → is_open (connFor p s).2.2 c ∧ (connFor p s).2.1.(t_conns) !! p = Some c).
Proof.
  intros Hs. destruct s as [t w]. unfold connFor. destruct (t_conns t !! p) as [c|] eqn:Ec; [|by apply pool_dial].
  destruct (isShutdown c w) eqn:Es.
  - apply pool_dial; [by apply pool_remove|]. cbn. apply lookup_delete_eq.
  - split; [done|]. intros d [= <-]. split; [apply (pi_open _ _ Hs); by exists p|done].
Qed.

Lemma pool_dropConn peers p c s : pool_inv peers s → pool_inv peers (dropConn p c s).
Proof.
  intros Hs. destruct s as [t w]. unfold dropConn. destruct (t_conns t !! p) as [cur|] eqn:Ec; [|done].
  case_decide; [|done]. by apply pool_remove.
Qed.

Lemma pool_Close peers s : pool_inv peers s → pool_inv peers (Transport_Close s) ∧ (Transport_Close s).1.(t_conns) = ∅.
Proof.
  destruct s as [t w]. intros Hs. unfold Transport_Close.
  set (f := λ id conn '(t, w), (with_conns (delete id t.(t_conns)) t, CloseConn conn w)).
  enough (∀ m, m ⊆ t.(t_conns) → pool_inv peers (map_fold f (t, w) m) ∧
    (map_fold f (t, w) m).1.(t_conns) = t.(t_conns) ∖ m) as Hm.
  { destruct (Hm t.(t_conns) (reflexivity _)) as [? ->]. split; [done|apply map_difference_diag]. }
  apply (map_fold_weak_ind (λ r m, m ⊆ t.(t_conns) → pool_inv peers r ∧ r.1.(t_conns) = t.(t_conns) ∖ m)).
  - intros _. split; [done|]. by rewrite map_difference_empty.
  - intros p c m [t' w'] Hp IH Hsub. assert (t.(t_conns) !! p = Some c) as Hc
      by (eapply lookup_weaken; [|exact Hsub]; by rewrite lookup_insert_eq).
    destruct IH as [Hi Hd]; [etrans; [|exact Hsub]; by apply insert_subseteq|]. cbn in Hd.
    assert (t'.(t_conns) !! p = Some c) as Hc'.
    { rewrite Hd. by apply lookup_difference_Some. }
    split; [by apply pool_remove|]. cbn. rewrite Hd. apply map_eq. intros q.
    destruct (decide (p = q)) as [<-|Hne].
    + rewrite lookup_delete_eq. symmetry. apply lookup_difference_None. right. rewrite lookup_insert_eq. eauto.
    + rewrite lookup_delete_ne by done. rewrite !lookup_difference, lookup_insert_ne by done. done.
Qed.

Lemma pool_inv_step peers s s' : pool_inv peers s → pool_step s s' → pool_inv peers s'.
Proof.
  intros Hs. destruct 1 as [p s|p c s|c ctx m data t w|s].
  - by apply pool_connFor.
  - by apply pool_dropConn.
  - destruct (Invoke_open c ctx m data w) as [Hop Htg], Hs as [? Ho ? Ht]. cbn in *. split; cbn; [done| |done|].
    + intros d. by rewrite Hop.
    + intros q d Hq. rewrite Htg. by apply Ht.
  - by apply pool_Close.
Qed.

Lemma pool_reachable peers w0 s : (∀ c, ¬ is_open w0 c) →
  rtc pool_step (NewGRPCTransport peers, w0) s → pool_inv peers s.
Proof.
  intros H0 Hs. assert (pool_inv peers (NewGRPCTransport peers, w0)) as Hi.
  { split; cbn; [done| |done|].
    - intros c. split; [by intros ?%H0|]. intros [p Hp]. by rewrite lookup_empty in Hp.
    - intros p c Hp. by rewrite lookup_empty in Hp. }
  revert Hi. induction Hs as [|s1 s2 s3 Hst _ IH]; [done|]. intros Hi. apply IH. by eapply pool_inv_step.
Qed.

End pool.

(** ** Clients *)

(** What a caller's context stands for: its state when the method is
    entered, the moves of the rest of the system while it blocks, and the
    error it ends with after them (a request of a client that waits for ever
    has no outcome to speak of). *)
Record callCtx {SM St X : Type} := mkCallCtx {
  cc_entry : option error;
  cc_moves : list (Node SM St * X → Node SM St * X);
  cc_turns : list (readTurn (SM:=SM) (St:=St) (X:=X));
  cc_err : error }.
Arguments callCtx : clear implicits.
Arguments mkCallCtx {SM St X}.

Section clients.
Context {SM St : Type} `{StateMachine SM} `{Store St} `{RandSource} `{MapCodec}.

(** The node behind the service; [others] runs between the two sections of
    HandleInstallSnapshot. *)
Definition raftNode {X} (others : Node SM St → Node SM St) : NodeApi (callCtx SM St X) (Node SM St * X) := {|
  na_Propose ctx c w :=
    let '(r, w) := Propose ctx.(cc_entry) c ctx.(cc_moves) (Some ctx.(cc_err)) w in
    (default (zeroApplyResult, Some ctx.(cc_err)) r, w);
  na_LinearizableGet ctx key w := LinearizableGet key ctx.(cc_turns) ctx.(cc_err) w;
  na_Status w := NodeStatus w.1;
  na_HandleRequestVote req w := let '(r, n) := HandleRequestVote req w.1 in (r, (n, w.2));
  na_HandleAppendEntries req w := let '(r, n) := HandleAppendEntries req w.1 in (r, (n, w.2));
  na_HandleInstallSnapshot req w := let '(r, n) := HandleInstallSnapshot others req w.1 in (r, (n, w.2)) |}.

Context `{!StateMachineLaws SM}.
Implicit Types w : Node SM St * apply_pc.

Record lawful_ctx (w : Node SM St * apply_pc) (ctx : callCtx SM St apply_pc) : Prop := {
  lc_moves : Forall lawful ctx.(cc_moves);
  lc_leaves : Forall (leaves w.1.(nextChan)) ctx.(cc_moves);
  lc_turns : Forall lawful_turn ctx.(cc_turns) }.

(** Command [c] was applied with result [r] in a run that starts in [w]: it
    is the entry at a committed index, applied right after those below. *)
Definition committed_result w (c : Command) (r : ApplyResult) : Prop :=
  ∃ n e, rtc sstep w (n, AApplied e r) ∧ e.(EntryCommand) = c ∧
    entryAtLocked n (n.(lastApplied) + 1) = Some e ∧ (n.(lastApplied) + 1 ≤ n.(commitIndex))%N ∧
    r = (Apply c (replayed n n.(lastApplied))).1.

Lemma told_ok w entryErr c ctxErr r :
  sys_reachable w → op_ok (DoPropose entryErr c) w.1 → told w entryErr c ctxErr r None → committed_result w c r.
Proof.
  intros Hr Hok Ht. inversion Ht as [|v i n1 o Hp Ho Hres Herr|]; subst. destruct w as [n pc]. cbn [fst snd] in *.
  assert (sstep (n, pc) (n1, pc)) as Hs.
  { pose proof (ss_background n pc (DoPropose entryErr c) eq_refl Hok) as Hs. cbn [nrun] in Hs. by rewrite Hp in Hs. }
  destruct Ho as [err Hstop|m e r' Hrun Hc Hi Hen Hcm Hr']; [done|]. subst i.
  exists m, e. unfold resultFromOutcome in *. cbn in *. case_decide; cbn in *; [done|].
  split_and!; try done. by eapply rtc_l.
Qed.

Context (others : Node SM St → Node SM St).

Lemma propose_ok ctx c w r w' :
  sys_reachable w → (lastIndexLocked w.1 < two64 - 2)%N → lawful_ctx w ctx →
  (raftNode others).(na_Propose) ctx c w = ((r, None), w') → committed_result w c r.
Proof.
  intros Hr Hok [Hl Hv _]. cbn [na_Propose raftNode].
  destruct (Propose _ _ _ _ w) as [o w1] eqn:Hp. destruct (Propose_told _ c _ _ w o w1 Hr Hok Hl Hv Hp) as [_ Ht].
  destruct o as [[r' e]|]; [|by destruct Ht]. intros [= -> -> ->]. by eapply told_ok.
Qed.

(** A reply that a client got is the one the service computed. *)
Lemma client_got {Req Resp} `{MessageLaws Req} `{MessageLaws Resp} server conn method
    (fn : callCtx SM St apply_pc → Req → Node SM St * apply_pc → (Resp + error) * (Node SM St * apply_pc)) ctx in_ w resp w' :
  serves server conn → assoc method server = Some (unaryHandler fn None) →
  invoke conn ctx method in_ w = (inl resp, w') → fn ctx in_ w = (inl resp, w').
Proof.
  intros Hs Hm Hi. destruct (invoke_delivered _ _ _ fn ctx in_ w Hs Hm) as [Heq|[[e He]|[e He]]];
    rewrite Hi in *; [by rewrite Heq|done|done].
Qed.

End clients.

(** ** Properties *)

(** C31. The transport is transparent.  A request that a node sends through
    its transport on a connection to a peer's server reaches the handler of
    the peer's node with every field unchanged (commands pass through JSON
    and base64), and the handler's reply comes back unchanged; the only
    other outcome is an error, on which the connection is dropped and the
    handler may or may not have run.  This holds for all three RPCs. *)
Theorem rpc_transparent {Ctx W Conn : Type} `{EqDecision Conn} `{Grpc Ctx W Conn} (node : NodeApi Ctx W)
    (ctx : Ctx) (peer : string) (conn : Conn) s t w :
  connFor peer s = (inl conn, (t, w)) → serves (grpcServer node) (Invoke conn) →
  (∀ req, reaches (Transport_RequestVote Datatypes.id ctx peer req s)
            (node.(na_HandleRequestVote) req w) peer conn t w) ∧
  (∀ req, reaches (Transport_AppendEntries Datatypes.id ctx peer req s)
            (node.(na_HandleAppendEntries) req w) peer conn t w) ∧
  (∀ req, reaches (Transport_InstallSnapshot Datatypes.id ctx peer req s)
            (node.(na_HandleInstallSnapshot) req w) peer conn t w).
Proof. intros Hc Hs. split_and!; intros req; [by apply vote_reaches|by apply append_reaches|by apply install_reaches]. Qed.

(** C32. The pool neither leaks nor confuses connections.  Whatever the
    goroutines that share a transport do, the open connections are exactly
    the pooled ones, each leads to the configured address of the one peer it
    is pooled for; [connFor] hands out an open connection; and after [Close]
    none is open. *)
Theorem pool_tracks_connections {Ctx W Conn : Type} `{EqDecision Conn} `{Grpc Ctx W Conn} `{!GrpcLaws Ctx W Conn}
    (peers : gmap string string) (w0 : W) (s : GRPCTransport Conn * W) :
  (∀ c, ¬ is_open w0 c) → rtc (pool_step (Conn:=Conn)) (NewGRPCTransport peers, w0) s →
  (∀ c, is_open s.2 c ↔ ∃ p, s.1.(t_conns) !! p = Some c) ∧
  (∀ p c, s.1.(t_conns) !! p = Some c → peers !! p = Some (target s.2 c)) ∧
  (∀ p c s', connFor p s = (inl c, s') → is_open s'.2 c ∧ s'.1.(t_conns) !! p = Some c) ∧
  (∀ c, ¬ is_open (Transport_Close s).2 c).
Proof.
  intros H0 Hs. apply (pool_reachable _ _ _ H0) in Hs as Hi. split_and!.
  - apply Hi.
  - intros p c. by apply (pi_target _ _ Hi).
  - intros p c s' E. destruct (pool_connFor peers p s Hi) as [_ Hc]. rewrite E in Hc. by apply Hc.
  - intros c Ho. destruct (pool_Close peers s Hi) as [Hc He]. apply (pi_open _ _ Hc) in Ho as [p Hp].
    by rewrite He, lookup_empty in Hp.
Qed.

Section properties.
Context {SM St : Type} `{StateMachine SM} `{Store St} `{RandSource} `{MapCodec} `{!StateMachineLaws SM}.
Implicit Types w : Node SM St * apply_pc.

(** C14. An acknowledged operation took effect.  If a client's Put, Delete or
    CAS over a connection to a node's server is answered with OK, then the
    command was applied, in the run during the call, as the entry at a
    committed index, right after the entries below it, and the fields of the
    answer are those of the state machine's result; if a Get is answered with OK,
    the value is what the key has after at least all entries that the serving
    node had committed when the call began, and after the no-op with which
    it began to lead the term that it leads at some moment [x] of the call
    and still at its end. *)
Theorem acknowledged_operation others conn ctx w :
  sys_reachable w → (lastIndexLocked w.1 < two64 - 2)%N → lawful_ctx w ctx →
  serves (grpcServer (raftNode others)) conn →
  (∀ k v resp w', KVClient_Put conn ctx (api.mkPutRequest k v) w = (inl resp, w') → resp.(api.pr_OK) = true →
     ∃ r, committed_result w (mkCommand OpPut k v "") r ∧ r.(OK) = true) ∧
  (∀ k resp w', KVClient_Delete conn ctx (api.mkDeleteRequest k) w = (inl resp, w') → resp.(api.dr_OK) = true →
     ∃ r, committed_result w (mkCommand OpDelete k "" "") r ∧
       resp = api.mkDeleteResponse true r.(Found) r.(ResValue) r.(ResError) "" "") ∧
  (∀ k e v resp w', KVClient_CAS conn ctx (api.mkCASRequest k e v) w = (inl resp, w') → resp.(api.cr_OK) = true →
     ∃ r, committed_result w (mkCommand OpCAS k v e) r ∧
       resp = api.mkCASResponse true r.(Swapped) r.(Found) r.(ResValue) r.(ResError) "" "") ∧
  (∀ k resp w', KVClient_Get conn ctx (api.mkGetRequest k) w = (inl resp, w') → resp.(api.gr_OK) = true →
     ∃ a x, (resp.(api.gr_Value), resp.(api.gr_Found)) = Get k (replayed w'.1 a) ∧
       (w.1.(commitIndex) ≤ a ≤ w'.1.(commitIndex))%N ∧
       rtc sstep w x ∧ rtc sstep x w' ∧ leads_through x.1 w'.1 ∧
       (x.1.(commitIndex) ≤ a)%N ∧ (x.1.(leaderNoopIndex) ≤ a)%N).
Proof.
  intros Hr Hlast Hctx Hs. destruct (server_methods (raftNode (X:=apply_pc) others)) as (_ & _ & _ & Mp & Mg & Md & Mc).
  split_and!.
  - intros k v resp w' E Hok. apply (client_got _ _ _ _ _ _ _ _ _ Hs Mp) in E. unfold Service_Put in E.
    destruct (na_Propose _ _ _ _) as [[r [err|]] w1] eqn:Ep; [destruct (leaderHint err)|]; simplify_eq/=.
    exists r. split; [by eapply (propose_ok others)|done].
  - intros k resp w' E Hok. apply (client_got _ _ _ _ _ _ _ _ _ Hs Md) in E. unfold Service_Delete in E.
    destruct (na_Propose _ _ _ _) as [[r [err|]] w1] eqn:Ep; [destruct (leaderHint err)|]; simplify_eq/=.
    exists r. split; [by eapply (propose_ok others)|by rewrite Hok].
  - intros k e v resp w' E Hok. apply (client_got _ _ _ _ _ _ _ _ _ Hs Mc) in E. unfold Service_CAS in E.
    destruct (na_Propose _ _ _ _) as [[r [err|]] w1] eqn:Ep; [destruct (leaderHint err)|]; simplify_eq/=.
    exists r. split; [by eapply (propose_ok others)|by rewrite Hok].
  - intros k resp w' E Hok. apply (client_got _ _ _ _ _ _ _ _ _ Hs Mg) in E. unfold Service_Get in E.
    destruct (na_LinearizableGet _ _ _ _) as [[[v f]|err] w1] eqn:Eg; [|destruct (leaderHint err)]; simplify_eq/=.
    destruct (LinearizableGet_runs _ _ _ _ _ _ Hr (lc_turns _ _ Hctx) Eg) as (_ & a & s & x & _ & Ha & Hc & _ & Hws & Hsx & Hxw & _ & Hlead & Hcx & Hnoop).
    exists a, x. split_and!; try done; [apply Hc..|by etrans].
Qed.

End properties.

(** *** A connection that delivers *)
Definition directConn {Ctx W} (server : methods Ctx W) : connection Ctx W := λ ctx method data w,
  match assoc method server with
  | Some h => h ctx data w
  | None => (inr (ErrText "unknown method"), w)
  end.

Lemma directConn_serves {Ctx W} (server : methods Ctx W) : serves server (directConn server).
Proof. intros ctx m h data w Hm. left. unfold directConn. by rewrite Hm. Qed.

(** A write and a read at the node of [ApplySys] with three committed
    entries, over RPC. *)
Definition ctx1 (v : nat) : callCtx KV.KVStateMachine Mem.MemStore apply_pc :=
  mkCallCtx None [runsBeside v (replicate 30 SApply)] [mkTurn [] Datatypes.id [runs catchUp] Datatypes.id]
    ContextDeadlineExceeded.

Lemma ctx1_lawful w : lawful_ctx w (ctx1 w.1.(nextChan)).
Proof.
  split; apply Forall_singleton; [apply runsBeside_lawful..|].
  split; [apply Forall_nil_2|by intros ? _|apply Forall_singleton, runs_lawful|by intros ? _].
Qed.

Lemma acknowledged_operation_witness :
  ∃ w r a w' w'', after (take 4 run1) = Some w ∧
    KVClient_Put (directConn (grpcServer (raftNode Datatypes.id))) (ctx1 w.1.(nextChan))
      (api.mkPutRequest "z" "3") w = (inl (api.mkPutResponse true "" "" ""), w') ∧
    committed_result w (put "z" "3") r ∧
    KVClient_Get (directConn (grpcServer (raftNode Datatypes.id))) (ctx1 w.1.(nextChan))
      (api.mkGetRequest "x") w = (inl (api.mkGetResponse true true "1" "" "" ""), w'') ∧
    ("1", true) = Get "x" (replayed w''.1 a) ∧ (3 ≤ a)%N.
Proof.
  set (conn := directConn (grpcServer (raftNode Datatypes.id))).
  assert (match after (take 4 run1) with
    | Some w => ((KVClient_Put conn (ctx1 w.1.(nextChan)) (api.mkPutRequest "z" "3") w).1,
                 (KVClient_Get conn (ctx1 w.1.(nextChan)) (api.mkGetRequest "x") w).1,
                 N.ltb (lastIndexLocked w.1) (two64 - 2), w.1.(commitIndex))
    | None => (inr ErrNotLeader, inr ErrNotLeader, false, 0%N) end =
    (inl (api.mkPutResponse true "" "" ""), inl (api.mkGetResponse true true "1" "" "" ""), true, 3%N)) as Hv
    by (vm_compute; reflexivity).
  destruct (after (take 4 run1)) as [w|] eqn:E; [|discriminate Hv].
  pose proof (f_equal (λ x, x.1.1.1) Hv) as Hp. pose proof (f_equal (λ x, x.1.1.2) Hv) as Hg.
  pose proof (f_equal (λ x, x.1.2) Hv) as Hl%N.ltb_lt. pose proof (f_equal snd Hv) as Hc.
  cbn [fst snd] in Hp, Hg, Hc. clear Hv.
  destruct (KVClient_Put conn _ _ w) as [rp w'] eqn:Ep. destruct (KVClient_Get conn _ _ w) as [rg w''] eqn:Eg.
  cbn [fst] in Hp, Hg. subst rp rg.
  destruct (acknowledged_operation Datatypes.id conn (ctx1 w.1.(nextChan)) w (after_reachable _ _ E) Hl
    (ctx1_lawful w) (directConn_serves _)) as (Hput & _ & _ & Hget).
  destruct (Hput _ _ _ _ Ep eq_refl) as (r & Hr & _). destruct (Hget _ _ _ Eg eq_refl) as (a & _ & Ha & Hca & _).
  exists w, r, a, w', w''. split_and!; [reflexivity|exact Ep|exact Hr|exact Eg|exact Ha|]. rewrite <- Hc. apply Hca.
Defined.

(** *** A gRPC runtime

    Connections are numbers; [invoke] says what a call does. *)
Record netWorld := mkNet {
  net_addr : gmap nat string;
  net_open : gset nat;
  net_node : Node KV.KVStateMachine Mem.MemStore * unit }.

Definition netNode : NodeApi unit netWorld :=
  let lift {R} (f : Node KV.KVStateMachine Mem.MemStore * unit → R * (Node KV.KVStateMachine Mem.MemStore * unit)) w :=
    let '(r, n) := f w.(net_node) in (r, mkNet w.(net_addr) w.(net_open) n) in
  {| na_Propose _ c := lift ((raftNode Datatypes.id).(na_Propose) (mkCallCtx None [] [] ContextDeadlineExceeded) c);
     na_LinearizableGet _ key := lift (LinearizableGet key [] ContextDeadlineExceeded);
     na_Status w := NodeStatus w.(net_node).1;
     na_HandleRequestVote req := lift ((raftNode Datatypes.id).(na_HandleRequestVote) req);
     na_HandleAppendEntries req := lift ((raftNode Datatypes.id).(na_HandleAppendEntries) req);
     na_HandleInstallSnapshot req := lift ((raftNode Datatypes.id).(na_HandleInstallSnapshot) req) |}.

Definition netGrpc (invoke : connection unit netWorld) : Grpc unit netWorld nat := {|
  NewClient a w := let c := fresh (dom w.(net_addr)) in
    (inl c, mkNet (<[c := a]> w.(net_addr)) ({[c]} ∪ w.(net_open)) w.(net_node));
  isShutdown c w := bool_decide (c ∉ w.(net_open));
  CloseConn c w := mkNet w.(net_addr) (w.(net_open) ∖ {[c]}) w.(net_node);
  Invoke _ := invoke |}.

(** A network that is down. *)
Definition downConn : connection unit netWorld := λ _ _ _ w, (inr (ErrText "connection refused"), w).

#[program] Definition netGrpcLaws : @GrpcLaws unit netWorld nat (netGrpc downConn) :=
  {| is_open w c := c ∈ w.(net_open) ∧ c ∈ dom w.(net_addr); target w c := default "" (w.(net_addr) !! c) |}.
Next Obligation.
  intros a w c w' [= <- <-]. set (c := fresh _). assert (c ∉ dom w.(net_addr)) as Hc by apply is_fresh. cbn. split_and!.
  - naive_solver.
  - by rewrite lookup_insert_eq.
  - intros d. set_solver.
  - intros d Hd. by rewrite lookup_insert_ne.
Qed.
Next Obligation. done. Qed.
Next Obligation. intros c w. cbn. split; [set_solver|done]. Qed.
Next Obligation. done. Qed.
Next Obligation. intros c w. cbn. intros ?%bool_decide_eq_true. naive_solver. Qed.

(** ["n1"] asks ["n2"] for its vote. *)
Definition net0 (n : Node KV.KVStateMachine Mem.MemStore) : netWorld := mkNet ∅ ∅ (n, tt).

Lemma rpc_transparent_witness :
  ∃ n w, newKVNode "n2" (Mem.empty []) = inl n ∧
    (@Transport_RequestVote unit netWorld nat _ (netGrpc (directConn (grpcServer netNode))) Datatypes.id tt "n2"
       (mkRequestVoteRequest 1 "n1" 0 0) (NewGRPCTransport peers3, net0 n)).1 = inl (mkRequestVoteResponse 1 true) ∧
    (mkRequestVoteResponse 1 true, w) = netNode.(na_HandleRequestVote) (mkRequestVoteRequest 1 "n1" 0 0)
      (mkNet {[0 := "h2:1"]} {[0]} (n, tt)).
Proof.
  set (g := netGrpc (directConn (grpcServer netNode))).
  assert (match newKVNode "n2" (Mem.empty []) with
    | inl n => ((@Transport_RequestVote unit netWorld nat _ g Datatypes.id tt "n2"
                   (mkRequestVoteRequest 1 "n1" 0 0) (NewGRPCTransport peers3, net0 n)).1,
                match @connFor unit netWorld nat g "n2" (NewGRPCTransport peers3, net0 n) with
                | (inl c, (t, w)) => (c, map_to_list t.(t_conns), map_to_list w.(net_addr), elements w.(net_open))
                | _ => (1, [], [], []) end)
    | inr _ => (inr ErrNotLeader, (1, [], [], [])) end =
    (inl (mkRequestVoteResponse 1 true), (0, [("n2", 0)], [(0, "h2:1")], [0]))) as Hv by (vm_compute; reflexivity).
  destruct (newKVNode "n2" (Mem.empty [])) as [n|]; [|discriminate Hv].
  pose proof (f_equal fst Hv) as Hr. pose proof (f_equal snd Hv) as Hc. cbn [fst snd] in Hr, Hc. clear Hv.
  assert (@connFor unit netWorld nat g "n2" (NewGRPCTransport peers3, net0 n) =
    (inl 0, (mkTransport peers3 {["n2" := 0]}, mkNet {[0 := "h2:1"]} {[0]} (n, tt)))) as Hconn by reflexivity.
  destruct (@rpc_transparent unit netWorld nat _ g netNode tt "n2" 0 _ _ _ Hconn (directConn_serves _)) as (Hvote & _).
  specialize (Hvote (mkRequestVoteRequest 1 "n1" 0 0)).
  destruct (netNode.(na_HandleRequestVote) (mkRequestVoteRequest 1 "n1" 0 0) (mkNet {[0 := "h2:1"]} {[0]} (n, tt)))
    as [r w] eqn:E. exists n, w. split; [reflexivity|]. split; [exact Hr|].
  destruct Hvote as [He|(e & w' & _ & He)]; rewrite He in Hr; [|discriminate Hr]. cbn in Hr. by injection Hr as ->.
Defined.

Lemma pool_tracks_connections_witness :
  ∃ n s, newKVNode "n2" (Mem.empty []) = inl n ∧
    s = (@connFor unit netWorld nat (netGrpc downConn) "n3"
           (@connFor unit netWorld nat (netGrpc downConn) "n2" (NewGRPCTransport peers3, net0 n)).2).2 ∧
    map_to_list s.1.(t_conns) = [("n3", 1); ("n2", 0)] ∧
    ∀ c, ¬ is_open (GrpcLaws:=netGrpcLaws) (@Transport_Close unit netWorld nat (netGrpc downConn) s).2 c.
Proof.
  assert (match newKVNode "n2" (Mem.empty []) with inl _ => true | inr _ => false end = true) as Hv by (vm_compute; reflexivity).
  destruct (newKVNode "n2" (Mem.empty [])) as [n|] eqn:E; [|discriminate Hv]. clear Hv.
  exists n. eexists. split; [reflexivity|]. split; [reflexivity|]. split; [vm_compute; reflexivity|].
  refine (proj2 (proj2 (proj2 (@pool_tracks_connections unit netWorld nat _ (netGrpc downConn) netGrpcLaws peers3
    (net0 n) _ _ _)))).
  - intros c [Hc _]. cbn in Hc. set_solver.
  - eapply rtc_l; [apply ps_connFor|]. eapply rtc_l; [apply ps_connFor|]. apply rtc_refl.
Defined.
