(* ===== verification/Kvctl.v ===== *)
(** * The command line client

    [cmd/kvctl/main.go].  A command is sent to the endpoints in turn; an
    endpoint that is not the leader may name it, and the named address joins
    the queue once.  [W] is the state of the world and [Ctx] the type of
    contexts; dialing and calling go through [Grpc]. *)

From S2P Require Import Prelude Types Wal Api Server GoStrings.

Definition comma : Ascii.ascii := Ascii.ascii_of_nat 44.

Definition splitCSV (raw : string) : list string :=
  filter (λ p, p ≠ "") (TrimSpace <$> Split comma raw).

Definition defaultEndpoints (env : string) : string :=
  if decide (env ≠ "") then env
  else "127.0.0.1:9101,127.0.0.1:9102,127.0.0.1:9103,127.0.0.1:9001".

(** The responses [leaderFrom] and [responseError] are called with. *)
Inductive response :=
  | RespPut (r : api.PutResponse)
  | RespGet (r : api.GetResponse)
  | RespDelete (r : api.DeleteResponse)
  | RespCAS (r : api.CASResponse)
  | RespOther (typeName : string).

(** OK and leader address. *)
Definition leaderFrom (resp : response) : bool * string + error :=
  match resp with
  | RespPut v => inl (v.(api.pr_OK), v.(api.pr_LeaderAddress))
  | RespGet v => inl (v.(api.gr_OK), v.(api.gr_LeaderAddress))
  | RespDelete v => inl (v.(api.dr_OK), v.(api.dr_LeaderAddress))
  | RespCAS v => inl (v.(api.cr_OK), v.(api.cr_LeaderAddress))
  | RespOther ty => inr (ErrText ("response " +:+ ty +:+ " does not carry a leader hint"))
  end.

Definition responseError (resp : response) : string :=
  match resp with
  | RespPut v => v.(api.pr_Error)
  | RespGet v => v.(api.gr_Error)
  | RespDelete v => v.(api.dr_Error)
  | RespCAS v => v.(api.cr_Error)
  | RespOther _ => ""
  end.

(** ** The retry loop *)
Section retry.
Context {T W : Type} (any : T → response).
Context (caller : string → W → (T + error) * W).

(** What is left when the loop ends without an answer. *)
Definition retryEnd (lastErr : option error) (w : W) : (T + error) * W :=
  (inr (default (ErrText "no reachable leader") lastErr), w).

(** Where the loop goes after a reply that is not OK. *)
Definition retryHint (endpoint leaderAddr : string) (queue : list string) (queuedHints : gset string)
    : list string * gset string :=
  if decide (leaderAddr ≠ "" ∧ leaderAddr ≠ endpoint ∧ leaderAddr ∉ queuedHints)
  then (queue ++ [leaderAddr], {[leaderAddr]} ∪ queuedHints) else (queue, queuedHints).

Fixpoint retryLoop (attempts : nat) (queue : list string) (queuedHints : gset string)
    (lastErr : option error) (w : W) : (T + error) * W :=
  match attempts, queue with
  | S attempts, endpoint :: queue =>
      if decide (endpoint = "") then retryLoop attempts queue queuedHints lastErr w
      else
        match caller endpoint w with
        | (inr err, w) => retryLoop attempts queue queuedHints (Some err) w
        | (inl resp, w) =>
            match leaderFrom (any resp) with
            | inr err => (inr err, w)
            | inl (true, _) => (inl resp, w)
            | inl (false, leaderAddr) =>
                let lastErr := if decide (responseError (any resp) ≠ "")
                               then Some (ErrText (responseError (any resp))) else lastErr in
                let '(queue, queuedHints) := retryHint endpoint leaderAddr queue queuedHints in
                retryLoop attempts queue queuedHints lastErr w
            end
        end
  | _, _ => retryEnd lastErr w
  end.

Definition withLeaderRetryUsing (endpoints : list string) (w : W) : (T + error) * W :=
  retryLoop (length endpoints + 5) endpoints ∅ None w.

End retry.

(** ** The commands *)
Section commands.
Context {Ctx W Conn : Type} `{Grpc Ctx W Conn} (WithTimeout : Ctx → Z → Ctx).

Definition call {T} (ctx : Ctx) (fn : Ctx → connection Ctx W → W → (T + error) * W) (endpoint : string) (w : W)
    : (T + error) * W :=
  let callCtx := WithTimeout ctx 1500000000 in
  match NewClient endpoint w with
  | (inr err, w) => (inr err, w)
  | (inl conn, w) => let '(r, w) := fn callCtx (Invoke conn) w in (r, CloseConn conn w)
  end.

Definition withLeaderRetry {T} (any : T → response) (ctx : Ctx) (endpoints : list string)
    (fn : Ctx → connection Ctx W → W → (T + error) * W) (w : W) : (T + error) * W :=
  withLeaderRetryUsing any (call ctx fn) endpoints w.

(** What a command prints on standard output when it succeeds. *)
Inductive output :=
  | OutLine (line : string)
  | OutStatuses (statuses : list api.StatusResponse).

Definition put (ctx : Ctx) (endpoints : list string) (key value : string) (w : W) : (output + error) * W :=
  match withLeaderRetry RespPut ctx endpoints
          (λ ctx client, KVClient_Put client ctx (api.mkPutRequest key value)) w with
  | (inr err, w) => (inr err, w)
  | (inl resp, w) =>
      if resp.(api.pr_OK) then (inl (OutLine "OK"), w) else (inr (ErrText resp.(api.pr_Error)), w)
  end.

Definition get (ctx : Ctx) (endpoints : list string) (key : string) (w : W) : (output + error) * W :=
  match withLeaderRetry RespGet ctx endpoints
          (λ ctx client, KVClient_Get client ctx (api.mkGetRequest key)) w with
  | (inr err, w) => (inr err, w)
  | (inl resp, w) =>
      if resp.(api.gr_OK) then
        if resp.(api.gr_Found) then (inl (OutLine resp.(api.gr_Value)), w) else (inr (ErrText "not found"), w)
      else (inr (ErrText resp.(api.gr_Error)), w)
  end.

Definition del (ctx : Ctx) (endpoints : list string) (key : string) (w : W) : (output + error) * W :=
  match withLeaderRetry RespDelete ctx endpoints
          (λ ctx client, KVClient_Delete client ctx (api.mkDeleteRequest key)) w with
  | (inr err, w) => (inr err, w)
  | (inl resp, w) =>
      if resp.(api.dr_OK) then
        if resp.(api.dr_Found) then (inl (OutLine resp.(api.dr_PreviousValue)), w) else (inl (OutLine "OK"), w)
      else (inr (ErrText resp.(api.dr_Error)), w)
  end.

Definition cas (ctx : Ctx) (endpoints : list string) (key expected value : string) (w : W)
    : (output + error) * W :=
  match withLeaderRetry RespCAS ctx endpoints
          (λ ctx client, KVClient_CAS client ctx (api.mkCASRequest key expected value)) w with
  | (inr err, w) => (inr err, w)
  | (inl resp, w) =>
      if resp.(api.cr_OK) then
        if resp.(api.cr_Swapped) then (inl (OutLine "OK"), w)
        else (inr (ErrText ("not swapped current=" +:+ quoted resp.(api.cr_CurrentValue))), w)
      else (inr (ErrText resp.(api.cr_Error)), w)
  end.

(** The statuses of the endpoints that answer, in order. *)
Fixpoint statusLoop (ctx : Ctx) (endpoints : list string) (statuses : list api.StatusResponse) (w : W)
    : list api.StatusResponse * W :=
  match endpoints with
  | [] => (statuses, w)
  | endpoint :: endpoints =>
      match call ctx (λ ctx client, KVClient_Status client ctx api.mkStatusRequest) endpoint w with
      | (inl resp, w) => statusLoop ctx endpoints (statuses ++ [resp]) w
      | (inr _, w) => statusLoop ctx endpoints statuses w
      end
  end.

Definition status (ctx : Ctx) (endpoints : list string) (w : W) : (output + error) * W :=
  let '(statuses, w) := statusLoop ctx endpoints [] w in
  match statuses with
  | [] => (inr (ErrText "no reachable endpoints"), w)
  | _ => (inl (OutStatuses statuses), w)
  end.

(** [main] after the flags are parsed: the exit code, what went to standard
    output and what went to standard error.  [None] for standard error is
    the usage text. *)
Record exit := mkExit {
  ex_code : nat;
  ex_out : option output;
  ex_err : option error }.

Definition usageExit (w : W) : exit * W := (mkExit 2 None None, w).

Definition finish (r : (output + error) * W) : exit * W :=
  match r with
  | (inl out, w) => (mkExit 0 (Some out) None, w)
  | (inr err, w) => (mkExit 1 None (Some err), w)
  end.

Definition main (ctx : Ctx) (endpointsFlag : string) (args : list string) (w : W) : exit * W :=
  match args with
  | [] => usageExit w
  | cmd :: args =>
      match splitCSV endpointsFlag with
      | [] => (mkExit 2 None (Some (ErrText "no endpoints configured")), w)
      | endpoints =>
          if decide (cmd = "put") then
            match args with [k; v] => finish (put ctx endpoints k v w) | _ => usageExit w end
          else if decide (cmd = "get") then
            match args with [k] => finish (get ctx endpoints k w) | _ => usageExit w end
          else if decide (cmd = "delete") then
            match args with [k] => finish (del ctx endpoints k w) | _ => usageExit w end
          else if decide (cmd = "cas") then
            match args with [k; e; v] => finish (cas ctx endpoints k e v w) | _ => usageExit w end
          else if decide (cmd = "status") then finish (status ctx endpoints w)
          else usageExit w
      end
  end.

End commands.
