(* ===== verification/KvctlProofs.v ===== *)
(** * The client's search for the leader

    What [withLeaderRetryUsing] does, seen as the sequence of calls it makes:
    it stops at the first OK, asks no endpoint more often than it is listed
    plus once, follows only hints it was given, and finds a leader that is
    listed or hinted.  [main] leaves no connection open and reports success
    only on an OK. *)

From S2P Require Import Prelude Types Wal Api Server GoStrings Kvctl.

Section search.
Context {T W : Type} (any : T → response).
Context (caller : string → W → (T + error) * W).
Implicit Types (queue endpoints : list string) (calls : list (string * (T + error))) (w : W).

Definition answersOK (resp : T) : Prop := ∃ a, leaderFrom (any resp) = inl (true, a).
Definition hints (resp : T) (a : string) : Prop := leaderFrom (any resp) = inl (false, a).

(** The caller that also writes down its calls. *)
Definition traced (e : string) (s : W * list (string * (T + error)))
    : (T + error) * (W * list (string * (T + error))) :=
  let '(r, w) := caller e s.1 in (r, (w, s.2 ++ [(e, r)])).

Definition drop_calls (x : (T + error) * (W * list (string * (T + error)))) : (T + error) * W := (x.1, x.2.1).

Lemma traced_same attempts : ∀ queue queued lastErr s,
  drop_calls (retryLoop any traced attempts queue queued lastErr s) =
  retryLoop any caller attempts queue queued lastErr s.1.
Proof.
  induction attempts as [|n IH]; intros queue queued lastErr s; [done|]. destruct queue as [|e queue]; [done|].
  cbn [retryLoop]. case_decide; [apply IH|]. unfold traced at 1. destruct (caller e s.1) as [[resp|err] w]; [|apply IH].
  destruct (leaderFrom (any resp)) as [[[] a]|err]; [done| |done].
  destruct (retryHint _ _ _ _) as [q h]. apply IH.
Qed.

(** The error a call leaves in [lastErr]. *)
Definition callError (x : string * (T + error)) : option error :=
  match x.2 with
  | inr err => Some err
  | inl resp => if decide (responseError (any resp) ≠ "") then Some (ErrText (responseError (any resp))) else None
  end.

Definition failed (x : string * (T + error)) : Prop := ∀ resp, x.2 = inl resp → ¬ answersOK resp.

(** [e] is named as the leader by a reply among [calls]. *)
Definition hinted calls (e : string) : Prop := ∃ e' resp, (e', inl resp) ∈ calls ∧ hints resp e.

Definition times (e : string) (l : list string) : nat := length (filter (e =.) l).

(** What the calls of a run of the loop look like. *)
Record search_spec (attempts : nat) queue (queued : gset string) (lastErr : option error) calls (r : T + error) : Prop := {
  sp_length : length calls ≤ attempts;
  sp_times : ∀ e, times e (calls.*1) ≤ times e queue + (if decide (e ∈ queued) then 0 else 1);
  sp_source : ∀ pre e x post, calls = pre ++ (e, x) :: post → e ≠ "" ∧ (e ∈ queue ∨ hinted pre e);
  sp_result : match r with
    | inl resp => answersOK resp ∧ ∃ pre e, calls = pre ++ [(e, inl resp)] ∧ Forall failed pre
    | inr err => Forall failed calls ∧
        err = default (ErrText "no reachable leader") (from_option Some lastErr (last (omap callError calls)))
    end }.

Lemma times_cons e x l : times e (x :: l) = (if decide (e = x) then 1 else 0) + times e l.
Proof. unfold times. rewrite filter_cons. by case_decide. Qed.
Lemma times_snoc e x l : times e (l ++ [x]) = times e l + (if decide (e = x) then 1 else 0).
Proof. unfold times. rewrite filter_app, length_app. cbn. by case_decide. Qed.

Lemma search_end attempts queue queued lastErr :
  search_spec attempts queue queued lastErr [] (inr (default (ErrText "no reachable leader") lastErr)).
Proof.
  split; cbn; [lia|intros; cbn; lia| |by split; [apply Forall_nil_2|]]. by intros [] ???.
Qed.

Lemma search_skip attempts queue queued lastErr calls r :
  search_spec attempts queue queued lastErr calls r → search_spec (S attempts) ("" :: queue) queued lastErr calls r.
Proof.
  intros [Hl Ht Hs Hr]. split; [lia| | |done].
  - intros e. rewrite times_cons. specialize (Ht e). lia.
  - intros pre e x post ->. destruct (Hs pre e x post eq_refl) as [? [?|?]]; rewrite elem_of_cons; auto.
Qed.

(** A call that does not end the loop: the queue may grow by a hint. *)
Lemma search_call attempts queue queue' queued queued' lastErr lastErr' e x calls r :
  e ≠ "" → failed (e, x) → lastErr' = from_option Some lastErr (callError (e, x)) →
  ((queue' = queue ∧ queued' = queued) ∨
   ∃ a resp, x = inl resp ∧ hints resp a ∧ a ∉ queued ∧ queue' = queue ++ [a] ∧ queued' = {[a]} ∪ queued) →
  search_spec attempts queue' queued' lastErr' calls r →
  search_spec (S attempts) (e :: queue) queued lastErr ((e, x) :: calls) r.
Proof.
  intros He Hf -> Hq [Hl Ht Hs Hr]. split.
  - cbn. lia.
  - intros d. specialize (Ht d). rewrite fmap_cons, !times_cons. cbn [fst].
    enough (times d (calls.*1) ≤ times d queue + (if decide (d ∈ queued) then 0 else 1)) by lia.
    destruct Hq as [[-> ->]|(a & resp & -> & Hh & Ha & -> & ->)]; [done|].
    rewrite times_snoc in Ht. repeat case_decide; try lia; set_solver.
  - intros pre d y post Heq. destruct pre as [|p pre]; [by injection Heq as <- <- <-; rewrite elem_of_cons; auto|].
    injection Heq as <- ->. destruct (Hs pre d y post eq_refl) as [Hd [Hd'|(e' & resp & Hin & Hh)]]; split; auto.
    + destruct Hq as [[-> ->]|(a & resp & -> & Hh & Ha & -> & ->)]; [left; by apply elem_of_cons; right|].
      apply elem_of_app in Hd' as [|Hd2%list_elem_of_singleton]; [left; by apply elem_of_cons; right|].
      subst d. right. exists e, resp. split; [by apply elem_of_cons; left|done].
    + right. exists e', resp. split; [by apply elem_of_cons; right|done].
  - destruct r as [resp|err].
    + destruct Hr as [? (pre & d & -> & Hp)]. split; [done|]. exists ((e, x) :: pre), d. split; [done|by constructor].
    + destruct Hr as [Hc ->]. split; [by constructor|]. cbn [omap list_omap].
      destruct (callError (e, x)) as [c|]; [|done]. change (omap callError calls) with (list_omap _ _ callError calls).
      rewrite last_cons. by destruct (last _).
Qed.

Lemma retryHint_cases e a queue queued resp :
  hints resp a →
  let '(queue', queued') := retryHint e a queue queued in
  (queue' = queue ∧ queued' = queued) ∨
  ∃ a' resp', @inl T error resp = inl resp' ∧ hints resp' a' ∧ a' ∉ queued ∧ queue' = queue ++ [a'] ∧ queued' = {[a']} ∪ queued.
Proof.
  intros Hh. unfold retryHint. case_decide as Hd; [right|by left]. destruct Hd as (_ & _ & ?). by exists a, resp.
Qed.

(** Responses that the client is used with carry a leader hint. *)
Context (Hany : ∀ resp, ∃ ok a, leaderFrom (any resp) = inl (ok, a)).

Lemma retryLoop_spec attempts : ∀ queue queued lastErr w tr r w' tr',
  retryLoop any traced attempts queue queued lastErr (w, tr) = (r, (w', tr')) →
  ∃ calls, tr' = tr ++ calls ∧ search_spec attempts queue queued lastErr calls r.
Proof.
  assert (∀ attempts queue queued lastErr w tr r w' tr', retryEnd lastErr (w, tr) = (r, (w', tr')) →
    ∃ calls, tr' = tr ++ calls ∧ search_spec attempts queue queued lastErr calls r) as Hend.
  { intros * [= <- <- <-]. exists []. split; [by rewrite app_nil_r|apply search_end]. }
  induction attempts as [|n IH]; intros queue queued lastErr w tr r w' tr' E; [by eapply Hend|].
  destruct queue as [|e queue]; [by eapply Hend|]. cbn [retryLoop] in E. case_decide as He.
  { destruct (IH _ _ _ _ _ _ _ _ E) as (calls & ? & ?). subst e. exists calls. split; [done|by apply search_skip]. }
  unfold traced at 1 in E. destruct (caller e (w, tr).1) as [[resp|err] w1]; cbn [snd] in E.
  - destruct (Hany resp) as ([] & a & Ha); rewrite Ha in E.
    + injection E as <- <- <-. exists [(e, inl resp)]. split; [done|]. split; [cbn; lia| | |].
      * intros d. change (times d [e] ≤ times d (e :: queue) + (if decide (d ∈ queued) then 0 else 1)).
        rewrite !times_cons. unfold times at 1. cbn. lia.
      * intros [|p [|]] ??? Heq; try done. injection Heq as <- <- <-. by rewrite elem_of_cons; auto.
      * split; [by exists a|]. exists [], e. by split; [|apply Forall_nil_2].
    + pose proof (retryHint_cases e a queue queued resp Ha) as Hh. destruct (retryHint e a queue queued) as [q h].
      destruct (IH _ _ _ _ _ _ _ _ E) as (calls & -> & Hc). exists ((e, inl resp) :: calls).
      split; [by rewrite <- app_assoc|]. eapply search_call; [done| | |exact Hh|exact Hc].
      * intros resp' [= <-] [a' Ha']. congruence.
      * unfold callError. cbn. by case_decide.
  - destruct (IH _ _ _ _ _ _ _ _ E) as (calls & -> & Hc). exists ((e, inr err) :: calls).
    split; [by rewrite <- app_assoc|]. by eapply search_call; [done|done| |left|exact Hc].
Qed.

(** ** A leader that answers is found *)
Context (I : W → Prop) (HI : ∀ e w, I w → I (caller e w).2).
Context (leader : string) (Hne : leader ≠ "").
Context (Hleader : ∀ w, I w → ∃ resp, (caller leader w).1 = inl resp ∧ answersOK resp).

Definition found (x : (T + error) * W) : Prop := ∃ resp w, x = (inl resp, w) ∧ answersOK resp.

(** One turn of the loop, when the reply does not end it. *)
Lemma retry_turn attempts e queue queued lastErr w :
  I w →
  found (retryLoop any caller (S attempts) (e :: queue) queued lastErr w) ∨
  ((e = leader → False) ∧
   ∃ lastErr' w' queue' queued', I w' ∧
     retryLoop any caller (S attempts) (e :: queue) queued lastErr w = retryLoop any caller attempts queue' queued' lastErr' w' ∧
     ((queue' = queue ∧ queued' = queued ∧
       (∀ resp a, e ≠ "" → (caller e w).1 = inl resp → hints resp a → a = "" ∨ a = e ∨ a ∈ queued)) ∨
      ∃ resp a, e ≠ "" ∧ (caller e w).1 = inl resp ∧ hints resp a ∧ a ≠ "" ∧ a ∉ queued ∧
        queue' = queue ++ [a] ∧ queued' = {[a]} ∪ queued)).
Proof.
  intros Hw. cbn [retryLoop]. case_decide as He.
  { right. split; [congruence|]. exists lastErr, w, queue, queued. split_and!; [done..|]. left. by split_and!. }
  pose proof (HI e w Hw) as Hw'. destruct (caller e w) as [[resp|err] w1] eqn:E; cbn [snd] in *.
  - destruct (Hany resp) as ([] & a & Ha); rewrite Ha; [left; exists resp, w1; split; [done|by exists a]|].
    right. split.
    { intros ->. destruct (Hleader w Hw) as (r & Hr & a' & Ha'). rewrite E in Hr. cbn in Hr. congruence. }
    unfold retryHint. case_decide as Hd; eexists _, w1, _, _; (split; [done|split; [reflexivity|]]).
    + destruct Hd as (? & ? & ?). right. by exists resp, a.
    + left. split_and!; [done..|]. intros r a' _ [= <-] Ha'. unfold hints in Ha'. rewrite Ha in Ha'. injection Ha' as <-.
      destruct (decide (a = "")); [by left|]. destruct (decide (a = e)); [by right; left|]. right. right.
      destruct (decide (a ∈ queued)); [done|]. by destruct Hd.
  - right. split.
    { intros ->. destruct (Hleader w Hw) as (r & Hr & _). by rewrite E in Hr. }
    eexists _, w1, queue, queued. split; [done|]. split; [reflexivity|]. left. by split_and!.
Qed.

Lemma found_queued attempts : ∀ pre post queued lastErr w,
  I w → length pre < attempts → found (retryLoop any caller attempts (pre ++ leader :: post) queued lastErr w).
Proof.
  induction attempts as [|n IH]; intros pre post queued lastErr w Hw Hl; [lia|]. destruct pre as [|e pre]; cbn in Hl.
  - destruct (retry_turn n leader post queued lastErr w Hw) as [?|[[] _]]; done.
  - change ((e :: pre) ++ leader :: post) with (e :: (pre ++ leader :: post)).
    destruct (retry_turn n e (pre ++ leader :: post) queued lastErr w Hw) as [?|[_ (le & w' & q & h & Hw' & -> & Hq)]]; [done|].
    destruct Hq as [(-> & -> & _)|(resp & a & _ & _ & _ & _ & _ & -> & ->)].
    + apply IH; [done|lia].
    + rewrite <- app_assoc. apply IH; [done|lia].
Qed.

(** An endpoint that knows the leader, while few addresses are hinted. *)
Context (guide : string) (addrs : gset string).

Lemma found_hinted attempts : ∀ queue queued lastErr w,
  guide ≠ "" → guide ≠ leader →
  (∀ w, I w → ∃ resp, (caller guide w).1 = inl resp ∧ hints resp leader) →
  (∀ e w resp a, I w → (caller e w).1 = inl resp → hints resp a → a = "" ∨ a ∈ addrs) →
  I w → guide ∈ queue → leader ∉ queued → queued ⊆ addrs →
  length queue + size addrs ≤ attempts + size queued →
  found (retryLoop any caller attempts queue queued lastErr w).
Proof.
  intros queue queued lastErr w Hg Hgl Hguide Hhint. revert queue queued lastErr w.
  induction attempts as [|n IH]; intros queue queued lastErr w Hw Hin Hnq Hsub Hlen;
    assert (size queued ≤ size addrs) by by apply subseteq_size.
  { destruct queue; [by apply elem_of_nil in Hin|cbn in Hlen; lia]. }
  destruct (decide (leader ∈ queue)) as [(pre & post & ->)%list_elem_of_split|Hlq].
  { apply found_queued; [done|]. rewrite length_app in Hlen. cbn in Hlen. lia. }
  destruct queue as [|e queue]; [by apply elem_of_nil in Hin|]. cbn in Hlen.
  destruct (retry_turn n e queue queued lastErr w Hw) as [?|[_ (le & w' & q & h & Hw' & -> & Hq)]]; [done|].
  destruct Hq as [(-> & -> & Hno)|(resp & a & He & Hc & Hh & Ha & Haq & -> & ->)].
  - assert (e ≠ guide) as Heg.
    { intros ->. destruct (Hguide w Hw) as (resp & Hr & Hrh). destruct (Hno resp leader Hg Hr Hrh) as [|[|]]; done. }
    apply IH; try done; [|lia]. apply elem_of_cons in Hin as [|]; [congruence|done].
  - assert (size ({[a]} ∪ queued) = S (size queued)) as Hsz by (rewrite size_union, size_singleton by set_solver; lia).
    assert (a ∈ addrs) as Had by (by destruct (Hhint e w resp a Hw Hc Hh)).
    destruct (decide (a = leader)) as [->|Hal].
    { apply found_queued; [done|]. assert (size ({[leader]} ∪ queued) ≤ size addrs) by (apply subseteq_size; set_solver). lia. }
    assert (e ≠ guide) as Heg.
    { intros ->. destruct (Hguide w Hw) as (resp' & Hr & Hrh). rewrite Hc in Hr. injection Hr as <-.
      unfold hints in *. congruence. }
    apply IH; try done; [|set_solver|set_solver|].
    + apply elem_of_app. left. apply elem_of_cons in Hin as [|]; [congruence|done].
    + rewrite length_app, Hsz. cbn. lia.
Qed.

End search.

(** ** Commands *)
Section commands.
Context {Ctx W Conn : Type} `{Grpc Ctx W Conn} (WithTimeout : Ctx → Z → Ctx).

(** A reply of the retry loop is the OK reply of its last call. *)
Lemma retryLoop_reply {T} (any : T → response) (caller : string → W → (T + error) * W) (R : W → W → Prop) attempts :
  PreOrder R → (∀ e w, R w (caller e w).2) →
  ∀ queue queued lastErr w resp w',
  retryLoop any caller attempts queue queued lastErr w = (inl resp, w') →
  answersOK any resp ∧ ∃ e w1, R w w1 ∧ caller e w1 = (inl resp, w').
Proof.
  intros HR Hc. induction attempts as [|n IH]; intros queue queued lastErr w resp w' E; [done|].
  destruct queue as [|e queue]; [done|].
  cbn [retryLoop] in E. case_decide; [by eapply IH|]. specialize (Hc e w). destruct (caller e w) as [[r|err] w1] eqn:Ec; cbn in Hc.
  - destruct (leaderFrom (any r)) as [[[] a]|err] eqn:El; [| |done].
    + injection E as <- <-. split; [by exists a|by exists e, w].
    + destruct (retryHint _ _ _ _). apply IH in E as (? & e' & w2 & ? & ?). split; [done|]. exists e', w2. split; [by etrans|done].
  - apply IH in E as (? & e' & w2 & ? & ?). split; [done|]. exists e', w2. split; [by etrans|done].
Qed.

(** The loop changes the world only by its calls. *)
Lemma retryLoop_world {T} (any : T → response) (caller : string → W → (T + error) * W) (R : W → W → Prop) attempts :
  PreOrder R → (∀ e w, R w (caller e w).2) →
  ∀ queue queued lastErr w, R w (retryLoop any caller attempts queue queued lastErr w).2.
Proof.
  intros HR Hc. induction attempts as [|n IH]; intros queue queued lastErr w; [done|]. destruct queue as [|e queue]; [done|].
  cbn [retryLoop]. case_decide; [apply IH|]. specialize (Hc e w).
  destruct (caller e w) as [[r|err] w1]; cbn in Hc; [|etrans; [exact Hc|apply IH]].
  destruct (leaderFrom (any r)) as [[[] a]|err]; [done| |done].
  destruct (retryHint _ _ _ _). etrans; [exact Hc|apply IH].
Qed.

Section connections.
Context `{!GrpcLaws Ctx W Conn}.

Definition same_open (w w' : W) : Prop := ∀ d, is_open w' d ↔ is_open w d.

#[local] Instance same_open_preorder : PreOrder same_open.
Proof. split; [by intros w d|]. intros w1 w2 w3 H1 H2 d. by rewrite (H2 d), (H1 d). Qed.

Lemma call_open {T} ctx (fn : Ctx → connection Ctx W → W → (T + error) * W) e w :
  (∀ ctx conn w, same_open w (fn ctx (Invoke conn) w).2) → same_open w (call WithTimeout ctx fn e w).2.
Proof.
  intros Hf. unfold call. destruct (NewClient e w) as [[c|err] w1] eqn:E.
  - destruct (NewClient_open _ _ _ _ E) as (Hfresh & _ & Ho & _). specialize (Hf (WithTimeout ctx 1500000000) c w1).
    destruct (fn _ _ w1) as [r w2]. cbn in *. intros d. destruct (Close_open c w2) as [-> _]. rewrite (Hf d), Ho.
    split; [by intros [[->|?] ?]|]. intros Hd. split; [by right|]. by intros ->.
  - by destruct (NewClient_fail _ _ _ _ E).
Qed.

Lemma invoke_open {Req Resp} `{!Message Req, !Message Resp} c ctx m (req : Req) w :
  same_open w (invoke (Resp:=Resp) (Invoke c) ctx m req w).2.
Proof.
  unfold invoke. pose proof (Invoke_open c ctx m (Marshal req) w) as [Ho _].
  destruct (Invoke c ctx m (Marshal req) w) as [[data|err] w1]; cbn in *; [destruct (Unmarshal data)|]; exact Ho.
Qed.

Lemma statusLoop_open ctx endpoints : ∀ statuses w, same_open w (statusLoop WithTimeout ctx endpoints statuses w).2.
Proof.
  induction endpoints as [|e endpoints IH]; intros statuses w; [done|]. cbn [statusLoop].
  pose proof (call_open ctx (λ ctx client, KVClient_Status client ctx api.mkStatusRequest) e w
    ltac:(intros; apply invoke_open)) as Hc.
  destruct (call _ _ _ _ _) as [[resp|err] w1]; cbn in Hc; (etrans; [exact Hc|apply IH]).
Qed.

Lemma retry_open {T} (any : T → response) ctx endpoints (fn : Ctx → connection Ctx W → W → (T + error) * W) w :
  (∀ ctx conn w, same_open w (fn ctx (Invoke conn) w).2) →
  same_open w (withLeaderRetry WithTimeout any ctx endpoints fn w).2.
Proof.
  intros Hf. unfold withLeaderRetry, withLeaderRetryUsing. apply retryLoop_world; [apply _|].
  intros e w'. by apply call_open.
Qed.

Lemma finish_open r w : same_open w r.2 → same_open w (finish r).2.
Proof. by destruct r as [[]]. Qed.

Lemma usage_open w : same_open w (usageExit w).2.
Proof. by intros d. Qed.

#[local] Ltac by_retry :=
  match goal with
  | |- context [withLeaderRetry WithTimeout ?any ?ctx ?es ?fn ?w] =>
      let Hr := fresh in
      pose proof (retry_open any ctx es fn w ltac:(intros; apply invoke_open)) as Hr;
      destruct (withLeaderRetry WithTimeout any ctx es fn w) as [[resp|err] w']; cbn in Hr |- *;
      repeat match goal with |- context [if ?b then _ else _] => destruct b end; exact Hr
  end.

Lemma put_open ctx es k v w : same_open w (put WithTimeout ctx es k v w).2.
Proof. unfold put. by_retry. Qed.
Lemma get_open ctx es k w : same_open w (get WithTimeout ctx es k w).2.
Proof. unfold get. by_retry. Qed.
Lemma del_open ctx es k w : same_open w (del WithTimeout ctx es k w).2.
Proof. unfold del. by_retry. Qed.
Lemma cas_open ctx es k e v w : same_open w (cas WithTimeout ctx es k e v w).2.
Proof. unfold cas. by_retry. Qed.
Lemma status_open ctx es w : same_open w (status WithTimeout ctx es w).2.
Proof.
  unfold status. pose proof (statusLoop_open ctx es [] w) as Hs.
  by destruct (statusLoop _ _ _ _ _) as [[] w'].
Qed.

End connections.

(** What the client does to the world. *)
Inductive client_step : W → W → Prop :=
  | cs_dial a w : client_step w (NewClient a w).2
  | cs_call c ctx m data w : client_step w (Invoke c ctx m data w).2
  | cs_close c w : client_step w (CloseConn c w).

(** Between [w] and [w'] the client dialed an address, and its last call, of
    [stub] with [req] on that connection, was answered with a reply that
    satisfies [P]. *)
Definition repliedTo {Req Resp} (w w' : W) (stub : connection Ctx W → Ctx → Req → W → (Resp + error) * W) (req : Req)
    (P : Resp → Prop) : Prop :=
  ∃ addr conn ctx w1 w2 w3 resp, rtc client_step w w1 ∧ NewClient addr w1 = (inl conn, w2) ∧
    stub (Invoke conn) ctx req w2 = (inl resp, w3) ∧ w' = CloseConn conn w3 ∧ P resp.

(** A stub that makes one call. *)
Definition one_call {T} (fn : Ctx → connection Ctx W → W → (T + error) * W) : Prop :=
  ∀ ctx conn w, rtc client_step w (fn ctx (Invoke conn) w).2.

Lemma invoke_one_call {Req Resp} `{!Message Req, !Message Resp} m (req : Req) :
  one_call (λ ctx client, invoke (Resp:=Resp) client ctx m req).
Proof.
  intros ctx c w. apply rtc_once. unfold invoke. pose proof (cs_call c ctx m (Marshal req) w) as Hs.
  destruct (Invoke c ctx m (Marshal req) w) as [[data|err] w1]; cbn in *; [destruct (Unmarshal data)|]; exact Hs.
Qed.

Lemma call_steps {T} ctx (fn : Ctx → connection Ctx W → W → (T + error) * W) e w :
  one_call fn → rtc client_step w (call WithTimeout ctx fn e w).2.
Proof.
  intros Hf. unfold call. pose proof (cs_dial e w) as Hd. destruct (NewClient e w) as [[c|err] w1]; cbn in Hd; [|by apply rtc_once].
  specialize (Hf (WithTimeout ctx 1500000000) c w1). destruct (fn _ _ w1) as [r w2]. cbn in *.
  eapply rtc_l; [exact Hd|]. eapply rtc_r; [exact Hf|constructor].
Qed.

Lemma retry_reply {Req T} (any : T → response) ctx endpoints
    (stub : connection Ctx W → Ctx → Req → W → (T + error) * W) req w resp w' (P : T → Prop) :
  one_call (λ ctx client, stub client ctx req) →
  withLeaderRetry WithTimeout any ctx endpoints (λ ctx client, stub client ctx req) w = (inl resp, w') →
  (answersOK any resp → P resp) → repliedTo w w' stub req P.
Proof.
  intros H1 E HP. apply (retryLoop_reply _ _ (rtc client_step)) in E as (Hok & e & w1 & Hw & Hc);
    [|apply _|by intros; apply call_steps].
  unfold call in Hc. destruct (NewClient e w1) as [[c|err] w2] eqn:En; [|done].
  destruct (stub _ _ _ w2) as [r w3] eqn:Es. injection Hc as -> <-. exists e, c, (WithTimeout ctx 1500000000), w1, w2, w3, resp. auto 10.
Qed.

(** What each command prints, from the reply it got. *)
Lemma put_reply ctx es k v w out w' : put WithTimeout ctx es k v w = (inl out, w') →
  out = OutLine "OK" ∧ repliedTo w w' KVClient_Put (api.mkPutRequest k v) (λ r, r.(api.pr_OK) = true).
Proof.
  unfold put. destruct (withLeaderRetry _ _ _ _ _ _) as [[r|] w1] eqn:E; [|done].
  destruct (api.pr_OK r) eqn:Hr; [|done]. intros [= <- <-]. split; [done|]. by eapply retry_reply; [apply invoke_one_call|..].
Qed.

Lemma get_reply ctx es k w out w' : get WithTimeout ctx es k w = (inl out, w') →
  ∃ v, out = OutLine v ∧ repliedTo w w' KVClient_Get (api.mkGetRequest k)
    (λ r, r.(api.gr_OK) = true ∧ r.(api.gr_Found) = true ∧ r.(api.gr_Value) = v).
Proof.
  unfold get. destruct (withLeaderRetry _ _ _ _ _ _) as [[r|] w1] eqn:E; [|done].
  destruct (api.gr_OK r) eqn:Hr; [|done]. destruct (api.gr_Found r) eqn:Hf; [|done].
  intros [= <- <-]. eexists. split; [done|]. by eapply retry_reply; [apply invoke_one_call|..].
Qed.

Lemma del_reply ctx es k w out w' : del WithTimeout ctx es k w = (inl out, w') →
  ∃ v, out = OutLine v ∧ repliedTo w w' KVClient_Delete (api.mkDeleteRequest k)
    (λ r, r.(api.dr_OK) = true ∧ v = if r.(api.dr_Found) then r.(api.dr_PreviousValue) else "OK").
Proof.
  unfold del. destruct (withLeaderRetry _ _ _ _ _ _) as [[r|] w1] eqn:E; [|done].
  destruct (api.dr_OK r) eqn:Hr; [|done]. destruct (api.dr_Found r) eqn:Hf;
    intros [= <- <-]; (eexists; split; [done|]; eapply retry_reply; [apply invoke_one_call|done|]; by rewrite Hf).
Qed.

Lemma cas_reply ctx es k e v w out w' : cas WithTimeout ctx es k e v w = (inl out, w') →
  out = OutLine "OK" ∧ repliedTo w w' KVClient_CAS (api.mkCASRequest k e v)
    (λ r, r.(api.cr_OK) = true ∧ r.(api.cr_Swapped) = true).
Proof.
  unfold cas. destruct (withLeaderRetry _ _ _ _ _ _) as [[r|] w1] eqn:E; [|done].
  destruct (api.cr_OK r) eqn:Hr; [|done]. destruct (api.cr_Swapped r) eqn:Hf; [|done].
  intros [= <- <-]. split; [done|]. by eapply retry_reply; [apply invoke_one_call|..].
Qed.

Lemma finish_ok r x w' : finish (W:=W) r = (x, w') → x.(ex_code) = 0 → ∃ out, r = (inl out, w') ∧ x.(ex_out) = Some out.
Proof. destruct r as [[out|err] w]; intros [= <- <-]; cbn; [eauto|done]. Qed.

End commands.

(** ** Properties *)

(** C33. The client finds the leader.  If the leader's address answers OK
    whenever it is called and is listed among the endpoints, or an endpoint
    that is listed always names it and at most five addresses are ever named,
    then the retry loop ends with an OK reply, whatever the other endpoints
    do and however their answers change. *)
Theorem retry_finds_leader {T W : Type} (any : T → response) (caller : string → W → (T + error) * W)
    (I : W → Prop) (leader : string) endpoints w :
  (∀ resp, ∃ ok a, leaderFrom (any resp) = inl (ok, a)) → (∀ e w, I w → I (caller e w).2) →
  leader ≠ "" → (∀ w, I w → ∃ resp, (caller leader w).1 = inl resp ∧ answersOK any resp) →
  (leader ∈ endpoints ∨
   ∃ guide (addrs : gset string), guide ∈ endpoints ∧ guide ≠ "" ∧ guide ≠ leader ∧ size addrs ≤ 5 ∧
     (∀ w, I w → ∃ resp, (caller guide w).1 = inl resp ∧ hints any resp leader) ∧
     (∀ e w resp a, I w → (caller e w).1 = inl resp → hints any resp a → a = "" ∨ a ∈ addrs)) →
  I w → found any (withLeaderRetryUsing any caller endpoints w).
Proof.
  intros Hany HI Hne Hl Hor Hw. unfold withLeaderRetryUsing.
  destruct Hor as [(pre & post & ->)%list_elem_of_split|(guide & addrs & Hin & Hg & Hgl & Hsz & Hguide & Hhint)].
  - eapply found_queued; try done. rewrite length_app. lia.
  - eapply (found_hinted any caller Hany I HI leader Hne Hl guide addrs); try done; [set_solver..|].
    rewrite size_empty. lia.
Qed.

(** C34. The search is bounded and honest.  The loop makes at most
    [len(endpoints)+5] calls, none to the empty address; an address is called
    at most as often as it is listed plus once; every address called is
    listed or was named as leader by an earlier reply; the loop returns a reply exactly
    when the last call was answered with OK, and no call before it was;
    otherwise it returns the last error that was seen. *)
Theorem retry_calls {T W : Type} (any : T → response) (caller : string → W → (T + error) * W) endpoints w r w' calls :
  (∀ resp, ∃ ok a, leaderFrom (any resp) = inl (ok, a)) →
  withLeaderRetryUsing any (traced caller) endpoints (w, []) = (r, (w', calls)) →
  withLeaderRetryUsing any caller endpoints w = (r, w') ∧
  search_spec any (length endpoints + 5) endpoints ∅ None calls r.
Proof.
  intros Hany E. unfold withLeaderRetryUsing in *. split.
  - pose proof (traced_same any caller (length endpoints + 5) endpoints ∅ None (w, [])) as Hs.
    cbn [fst] in Hs. rewrite <- Hs. by rewrite E.
  - by destruct (retryLoop_spec any caller Hany _ _ _ _ _ _ _ _ _ E) as (? & -> & ?).
Qed.

(** The client closes every connection that it opens, whatever the
    command line is and however the calls end. *)
Theorem kvctl_closes_connections {Ctx W Conn : Type} `{Grpc Ctx W Conn} `{!GrpcLaws Ctx W Conn}
    (WithTimeout : Ctx → Z → Ctx) ctx endpointsFlag args w :
  ∀ conn, is_open (main WithTimeout ctx endpointsFlag args w).2 conn ↔ is_open w conn.
Proof.
  change (same_open w (main WithTimeout ctx endpointsFlag args w).2). unfold main.
  destruct args as [|cmd args]; [by apply usage_open|]. destruct (splitCSV endpointsFlag) as [|e0 es]; [by intros d|].
  case_decide; [|case_decide; [|case_decide; [|case_decide; [|case_decide]]]].
  - destruct args as [|k [|v [|]]]; auto using usage_open, finish_open, put_open.
  - destruct args as [|k [|]]; auto using usage_open, finish_open, get_open.
  - destruct args as [|k [|]]; auto using usage_open, finish_open, del_open.
  - destruct args as [|k [|e [|v [|]]]]; auto using usage_open, finish_open, cas_open.
  - apply finish_open, status_open.
  - apply usage_open.
Qed.

(** C35. Success is reported only on an acknowledgement.  When the client
    exits with 0 after put, delete or cas, a server answered the request that the
    arguments say with OK (and, for cas, with Swapped), and what is printed is
    OK or the previous value that the reply carries; after get, a
    server answered OK and Found and the value printed is that of the reply. *)
Theorem kvctl_reports_acknowledged {Ctx W Conn : Type} `{Grpc Ctx W Conn} (WithTimeout : Ctx → Z → Ctx) ctx
    endpointsFlag args w x w' :
  main WithTimeout ctx endpointsFlag args w = (x, w') → x.(ex_code) = 0 →
  (∃ k v, args = ["put"; k; v] ∧ x.(ex_out) = Some (OutLine "OK") ∧
     repliedTo w w' KVClient_Put (api.mkPutRequest k v) (λ r, r.(api.pr_OK) = true)) ∨
  (∃ k v, args = ["get"; k] ∧ x.(ex_out) = Some (OutLine v) ∧
     repliedTo w w' KVClient_Get (api.mkGetRequest k)
       (λ r, r.(api.gr_OK) = true ∧ r.(api.gr_Found) = true ∧ r.(api.gr_Value) = v)) ∨
  (∃ k out, args = ["delete"; k] ∧ x.(ex_out) = Some (OutLine out) ∧
     repliedTo w w' KVClient_Delete (api.mkDeleteRequest k)
       (λ r, r.(api.dr_OK) = true ∧ out = if r.(api.dr_Found) then r.(api.dr_PreviousValue) else "OK")) ∨
  (∃ k e v, args = ["cas"; k; e; v] ∧ x.(ex_out) = Some (OutLine "OK") ∧
     repliedTo w w' KVClient_CAS (api.mkCASRequest k e v) (λ r, r.(api.cr_OK) = true ∧ r.(api.cr_Swapped) = true)) ∨
  (∃ rest s ss, args = "status" :: rest ∧ x.(ex_out) = Some (OutStatuses (s :: ss))).
Proof.
  intros E Hx. unfold main in E. destruct args as [|cmd args]; [by injection E as <- <-|].
  destruct (splitCSV endpointsFlag) as [|e0 es]; [by injection E as <- <-|].
  repeat case_decide; subst; [| | | | |by injection E as <- <-].
  - destruct args as [|k [|v [|]]]; try by injection E as <- <-. apply finish_ok in E as (out & Hp & ->); [|done].
    apply put_reply in Hp as [-> ?]. left. by exists k, v.
  - destruct args as [|k [|]]; try by injection E as <- <-. apply finish_ok in E as (out & Hp & ->); [|done].
    apply get_reply in Hp as (v & -> & ?). right. left. by exists k, v.
  - destruct args as [|k [|]]; try by injection E as <- <-. apply finish_ok in E as (out & Hp & ->); [|done].
    apply del_reply in Hp as (v & -> & ?). right. right. left. by exists k, v.
  - destruct args as [|k [|e [|v [|]]]]; try by injection E as <- <-. apply finish_ok in E as (out & Hp & ->); [|done].
    apply cas_reply in Hp as [-> ?]. right. right. right. left. by exists k, e, v.
  - apply finish_ok in E as (out & Hp & ->); [|done]. right. right. right. right. unfold status in Hp.
    destruct (statusLoop _ _ _ _ _) as [[|s ss] w1]; [done|]. injection Hp as <- <-. by exists args, s, ss.
Qed.

(** ** Witnesses *)

(** Three servers; [s1] is down, [s2] names [s3], which leads.  The world
    counts the calls. *)
Definition putAt (e : string) (w : nat) : (api.PutResponse + error) * nat :=
  (if decide (e = "s3:1") then inl (api.mkPutResponse true "" "" "")
   else if decide (e = "s2:1") then inl (api.mkPutResponse false "not leader" "n3" "s3:1")
   else inr (ErrText "connection refused"), S w).

Lemma retry_finds_leader_witness :
  withLeaderRetryUsing RespPut putAt ["s1:1"; "s2:1"] 0 = (inl (api.mkPutResponse true "" "" ""), 3) ∧
  found RespPut (withLeaderRetryUsing RespPut putAt ["s1:1"; "s2:1"] 0).
Proof.
  split; [vm_compute; reflexivity|].
  apply (retry_finds_leader RespPut putAt (λ _, True) "s3:1"); [by intros []; eexists _, _|done|done| | |done].
  - intros w _. eexists. split; [vm_compute; reflexivity|]. by eexists.
  - right. exists "s2:1", {["s3:1"]}. split_and!; [set_solver|done|done|rewrite size_singleton; lia| |].
    + intros w _. eexists. split; vm_compute; reflexivity.
    + intros e w resp a _. unfold putAt. cbn [fst]. repeat case_decide; intros [= <-]; unfold hints; cbn; [done|].
      intros [= <-]. right. set_solver.
Defined.

Lemma retry_calls_witness :
  let r := @inl _ error (api.mkPutResponse true "" "" "") in
  let calls := [("s1:1", inr (ErrText "connection refused"));
                ("s2:1", inl (api.mkPutResponse false "not leader" "n3" "s3:1"));
                ("s3:1", r)] in
  withLeaderRetryUsing RespPut (traced putAt) ["s1:1"; "s2:1"] (0, []) = (r, (3, calls)) ∧
  search_spec RespPut 7 ["s1:1"; "s2:1"] ∅ None calls r.
Proof.
  intros r calls. assert (withLeaderRetryUsing RespPut (traced putAt) ["s1:1"; "s2:1"] (0, []) = (r, (3, calls))) as E
    by (vm_compute; reflexivity).
  split; [exact E|]. apply (retry_calls RespPut putAt ["s1:1"; "s2:1"] 0 r 3 calls); [by intros []; eexists _, _|exact E].
Defined.

(** A runtime in which every address is the leader's server. *)
Definition kvctlServer : connection unit nat := λ _ method data w,
  (inl (if decide (method = "/raftkv.v1.KV/Put") then Marshal (api.mkPutResponse true "" "" "")
        else Marshal (api.mkGetResponse true true "7" "" "" "")), w).

#[local] Instance kvctlGrpc : Grpc unit nat nat := {|
  NewClient a w := (inl w, S w); isShutdown _ _ := false; CloseConn _ w := w; Invoke _ := kvctlServer |}.

Lemma kvctl_reports_acknowledged_witness :
  main (λ c _, c) tt "s1:1, s2:1" ["put"; "k"; "v"] 0 = (mkExit 0 (Some (OutLine "OK")) None, 1) ∧
  repliedTo 0 1 KVClient_Put (api.mkPutRequest "k" "v") (λ r, r.(api.pr_OK) = true).
Proof.
  assert (main (λ c _, c) tt "s1:1, s2:1" ["put"; "k"; "v"] 0 = (mkExit 0 (Some (OutLine "OK")) None, 1)) as E
    by (vm_compute; reflexivity).
  split; [exact E|].
  pose proof (kvctl_reports_acknowledged (λ c _, c) tt "s1:1, s2:1" ["put"; "k"; "v"] 0 _ _ E eq_refl) as Ho. clear E.
  destruct Ho as [(k & v & Hk & _ & Ha)|Ho].
  { injection Hk as <- <-. exact Ha. }
  exfalso. destruct Ho as [(? & ? & Hk & _)|[(? & ? & Hk & _)|[(? & ? & ? & Hk & _)|(? & ? & ? & Hk & _)]]]; discriminate Hk.
Defined.

(** A runtime that numbers its connections: their addresses and the open
    ones.  The server of ["s1:1"] is down. *)
Record lab := mkLab { lab_addr : gmap nat string; lab_open : gset nat }.

#[local] Instance labGrpc : Grpc unit lab nat := {|
  NewClient a w := let c := fresh (dom w.(lab_addr)) in
    (inl c, mkLab (<[c := a]> w.(lab_addr)) ({[c]} ∪ w.(lab_open)));
  isShutdown c w := bool_decide (c ∉ w.(lab_open));
  CloseConn c w := mkLab w.(lab_addr) (w.(lab_open) ∖ {[c]});
  Invoke c ctx method data w :=
    if decide (w.(lab_addr) !! c = Some "s1:1") then (inr (ErrText "connection refused"), w)
    else (inl (Marshal (api.mkPutResponse true "" "" "")), w) |}.

#[local, program] Instance labLaws : GrpcLaws unit lab nat :=
  {| is_open w c := c ∈ w.(lab_open) ∧ c ∈ dom w.(lab_addr); target w c := default "" (w.(lab_addr) !! c) |}.
Next Obligation.
  intros a [m o] c w' [= <- <-]. cbn. pose proof (is_fresh (dom m)) as Hf. split_and!.
  - tauto.
  - by rewrite lookup_insert_eq.
  - set_solver.
  - intros d Hd. by rewrite lookup_insert_ne.
Qed.
Next Obligation. done. Qed.
Next Obligation. intros c w. cbn. split; [set_solver|done]. Qed.
Next Obligation. intros c ctx m data w. cbn. by case_decide. Qed.
Next Obligation. intros c w. cbn. intros ?%bool_decide_eq_true. naive_solver. Qed.

Lemma kvctl_closes_connections_witness :
  main (λ c _, c) tt "s1:1,s2:1" ["put"; "k"; "v"] (mkLab ∅ ∅) =
    (mkExit 0 (Some (OutLine "OK")) None, mkLab {[0 := "s1:1"; 1 := "s2:1"]} ∅) ∧
  ∀ conn, is_open (mkLab {[0 := "s1:1"; 1 := "s2:1"]} ∅) conn ↔ is_open (mkLab ∅ ∅) conn.
Proof.
  assert (main (λ c _, c) tt "s1:1,s2:1" ["put"; "k"; "v"] (mkLab ∅ ∅) =
    (mkExit 0 (Some (OutLine "OK")) None, mkLab {[0 := "s1:1"; 1 := "s2:1"]} ∅)) as E by (vm_compute; reflexivity).
  split; [exact E|].
  pose proof (kvctl_closes_connections (λ c _, c) tt "s1:1,s2:1" ["put"; "k"; "v"] (mkLab ∅ ∅)) as Hc.
  rewrite E in Hc. exact Hc.
Defined.
