(* ===== verification/ServerMain.v ===== *)
(** * The server command

    [cmd/server/main.go]: the configuration from the environment and the
    command line, the start of a node over its data directory and the
    shutdown.  [env] is the environment ([""] for a variable that is not
    set) and [flags] the values given on the command line; the package flag
    has already parsed the integer flag. *)

From S2P Require Import Prelude Types GoStrings StateMachine StoreIntf RaftLog NodeState Node Wal Api Server.
Import KV.

Definition comma : Ascii.ascii := Ascii.ascii_of_nat 44.
Definition equals : Ascii.ascii := Ascii.ascii_of_nat 61.

(** ** Maps of addresses *)

(** The body of the loop of [parseMap]. *)
Definition parseMapPart (out : gmap string string) (part : string) : gmap string string + error :=
  match Cut equals (TrimSpace part) with
  | Some (key, value) =>
      if decide (key = "" ∨ value = "")
      then inr (ErrText ("invalid mapping " +:+ quoted part +:+ ", want id=address"))
      else inl (<[key := value]> out)
  | None => inr (ErrText ("invalid mapping " +:+ quoted part +:+ ", want id=address"))
  end.

Fixpoint parseMapLoop (out : gmap string string) (parts : list string) : gmap string string + error :=
  match parts with
  | [] => inl out
  | part :: parts =>
      match parseMapPart out part with
      | inr err => inr err
      | inl out => parseMapLoop out parts
      end
  end.

Definition parseMap (raw : string) : gmap string string + error :=
  let raw := TrimSpace raw in
  if decide (raw = "") then inl ∅ else parseMapLoop ∅ (Split comma raw).

(** ** Configuration *)

Record config := mkServerConfig {
  c_id : string;
  c_listen : string;
  c_advertise : string;
  c_dataDir : string;
  c_peers : gmap string string;
  c_clientAddrs : gmap string string;
  c_electionMin : Z;
  c_electionMax : Z;
  c_heartbeat : Z;
  c_snapshotThreshold : Z }.

Section flags.
Context (fracProduct : N → N → N → N) (env : string → string).

Definition getenv (key fallback : string) : string :=
  let value := env key in if decide (value ≠ "") then value else fallback.

Definition getenvInt (key : string) (fallback : Z) : Z :=
  let value := env key in if decide (value ≠ "") then default fallback (Atoi value) else fallback.

Context (flags : string → option string) (thresholdFlag : option Z).

(** A string flag whose default comes from the environment. *)
Definition stringVar (name key fallback : string) : string := default (getenv key fallback) (flags name).

Definition parseFlags : config + error :=
  let id := stringVar "id" "NODE_ID" "node1" in
  let listen := stringVar "listen" "RAFT_LISTEN" ":9001" in
  let advertise := stringVar "advertise" "RAFT_ADVERTISE" "127.0.0.1:9001" in
  let dataDir := stringVar "data-dir" "RAFT_DATA_DIR" "data/node1" in
  let peers := stringVar "peers" "RAFT_PEERS" "node1=127.0.0.1:9001" in
  let clientAddrs := stringVar "client-addrs" "RAFT_CLIENT_ADDRS" "" in
  let electionMin := stringVar "election-min" "RAFT_ELECTION_MIN" "1s" in
  let electionMax := stringVar "election-max" "RAFT_ELECTION_MAX" "2s" in
  let heartbeat := stringVar "heartbeat" "RAFT_HEARTBEAT" "150ms" in
  let snapshotThreshold := default (getenvInt "RAFT_SNAPSHOT_THRESHOLD" 64) thresholdFlag in
  match parseMap peers with
  | inr err => inr err
  | inl peers =>
  match parseMap clientAddrs with
  | inr err => inr err
  | inl clientAddrs =>
  let clientAddrs := if decide (map_str clientAddrs id = "") then <[id := advertise]> clientAddrs else clientAddrs in
  match ParseDuration fracProduct electionMin with
  | inr err => inr err
  | inl electionMin =>
  match ParseDuration fracProduct electionMax with
  | inr err => inr err
  | inl electionMax =>
  match ParseDuration fracProduct heartbeat with
  | inr err => inr err
  | inl heartbeat =>
      inl (mkServerConfig id listen advertise dataDir peers clientAddrs electionMin electionMax heartbeat snapshotThreshold)
  end end end end end.

End flags.

(** ** Start and shutdown *)
Section server.
Context `{RandSource} `{MapCodec} `{StoreJson} {W Conn : Type} {Ctx : Type} `{EqDecision Conn} `{Grpc Ctx W Conn}.

(** The configuration that [main] gives the node; the fields that it leaves out are zero. *)
Definition nodeConfig (cfg : config) : Config :=
  mkConfig cfg.(c_id) cfg.(c_advertise) (Some cfg.(c_peers)) (Some cfg.(c_clientAddrs))
    cfg.(c_electionMin) cfg.(c_electionMax) cfg.(c_heartbeat) 0 cfg.(c_snapshotThreshold) 0.

Record server := mkServer {
  sv_node : Node KVStateMachine FileStore;
  sv_transport : GRPCTransport Conn }.

(** [main] up to the point where the node's loops are started: an error ends
    the process through [log.Fatal].  [dir] is the data directory and
    [listenErr] what [net.Listen] returns. *)
Definition startup (cfg : config + error) (dir : FileStore) (rng0 : nat) (now0 : Z) (listenErr : option error)
    : (server + error) * FileStore :=
  match cfg with
  | inr err => (inr err, dir)
  | inl cfg =>
      match Open dir with
      | (inr err, dir) => (inr err, dir)
      | (inl st, _) =>
          let transport := NewGRPCTransport cfg.(c_peers) in
          let stateMachine := NewKVStateMachine in
          match NewNode (nodeConfig cfg) st stateMachine rng0 now0 with
          | inr (err, dir) => (inr err, dir)
          | inl node =>
              match listenErr with
              | Some err => (inr err, node.(store))
              | None => (inl (mkServer node transport), node.(store))
              end
          end
      end
  end.

(** [main] after the signal: [GracefulStop] has let the running requests
    end. *)
Definition shutdown (s : server * W) : server * W :=
  let '(sv, w) := s in
  let node := Stop sv.(sv_node) in
  let '(transport, w) := Transport_Close (sv.(sv_transport), w) in
  (mkServer node transport, w).

End server.
