(* ===== verification/MainProofs.v ===== *)
(** * The server command: configuration, start and shutdown

    The flags are read back as they are written, a server starts only with a
    configuration that names it, and a shutdown answers every waiter and
    closes every connection. *)

From S2P Require Import Prelude Types GoStrings StateMachine StoreIntf RaftLog NodeState Node Wal Json JsonProofs TestEnv NodeStep NodeInv ApplySys Waiters Proposals Api Server ServerProofs KvctlProofs ServerMain.
Import KV.

(** ** Maps of addresses *)

(** An association that can be written as [id=address]. *)
Definition mappable (kv : string * string) : bool :=
  headSolid kv.1 && free equals kv.1 && free comma kv.1 && lastSolid kv.2 && free comma kv.2.

Definition showMapping (kv : string * string) : string := kv.1 +:+ String equals kv.2.
Definition showMap (l : list (string * string)) : string := Join comma (showMapping <$> l).

(** The map with the associations of [l], the last one of a key winning. *)
Definition mapOf (l : list (string * string)) : gmap string string :=
  foldl (λ m kv, <[kv.1 := kv.2]> m) ∅ l.

Lemma mappable_inv kv : mappable kv = true →
  headSolid kv.1 = true ∧ free equals kv.1 = true ∧ free comma (showMapping kv) = true ∧
  headSolid (showMapping kv) = true ∧ lastSolid (showMapping kv) = true ∧ kv.1 ≠ "" ∧ kv.2 ≠ "".
Proof.
  destruct kv as [k v]. unfold mappable, showMapping. cbn [fst snd].
  intros [[[[Hk He]%andb_true_iff Hc]%andb_true_iff Hv]%andb_true_iff Hv']%andb_true_iff.
  assert (lastSolid (String equals v) = true) as Hl by (by destruct v).
  split_and!; try done.
  - rewrite free_app, Hc. cbn. rewrite Hv'. by vm_compute.
  - by apply headSolid_app.
  - by apply lastSolid_app.
  - by intros ->.
  - by intros ->.
Qed.

Lemma parseMapPart_show out kv : mappable kv = true → parseMapPart out (showMapping kv) = inl (<[kv.1 := kv.2]> out).
Proof.
  intros (_ & He & _ & Hh & Hl & Hk & Hv)%mappable_inv. unfold parseMapPart.
  rewrite TrimSpace_solid by done. unfold showMapping. rewrite Cut_app by done. rewrite decide_False; [done|tauto].
Qed.

Lemma parseMapLoop_show l : Forall (λ kv, mappable kv = true) l → ∀ out,
  parseMapLoop out (showMapping <$> l) = inl (foldl (λ m kv, <[kv.1 := kv.2]> m) out l).
Proof.
  induction 1 as [|kv l Hkv _ IH]; intros out; [done|]. rewrite fmap_cons. cbn [parseMapLoop].
  by rewrite parseMapPart_show.
Qed.

Lemma Join_solid sep ps : ps ≠ [] → Forall (λ p, headSolid p = true ∧ lastSolid p = true) ps →
  headSolid (Join sep ps) = true ∧ lastSolid (Join sep ps) = true.
Proof.
  intros Hne Hps. destruct ps as [|p ps]; [done|]. clear Hne. revert p Hps.
  induction ps as [|q ps IH]; intros p Hps; apply Forall_cons in Hps as [[Hh Hl] Hps]; [done|].
  change (Join sep (p :: q :: ps)) with (p +:+ String sep (Join sep (q :: ps))).
  destruct (IH q Hps) as [_ Hl']. split; [by apply headSolid_app|]. apply lastSolid_app.
  cbn [lastSolid]. by destruct (Join sep (q :: ps)).
Qed.

Lemma parseMap_show l : Forall (λ kv, mappable kv = true) l → parseMap (showMap l) = inl (mapOf l).
Proof.
  intros Hl. destruct (decide (l = [])) as [->|Hne]; [reflexivity|].
  assert (showMapping <$> l ≠ []) as Hne' by (by intros ?%fmap_nil_inv).
  destruct (Join_solid comma (showMapping <$> l) Hne') as [Hh Hla].
  { apply Forall_fmap. eapply Forall_impl; [exact Hl|]. by intros kv (_ & _ & _ & ? & ? & _)%mappable_inv. }
  unfold parseMap, showMap. rewrite TrimSpace_solid by done. rewrite decide_False by (intros E; by rewrite E in Hh).
  rewrite Split_Join; [by apply parseMapLoop_show|done|].
  apply Forall_fmap. eapply Forall_impl; [exact Hl|]. by intros kv (_ & _ & ? & _)%mappable_inv.
Qed.

(** *** What is accepted *)

Lemma Cut_spec sep s k v : Cut sep s = Some (k, v) → s = k +:+ String sep v ∧ free sep k = true.
Proof.
  revert k v. induction s as [|a s IH]; intros k v; cbn; [done|]. case_decide as Ha.
  - intros [= <- <-]. by subst a.
  - destruct (Cut sep s) as [[b c]|]; [|done]. intros [= <- <-]. destruct (IH b c eq_refl) as [-> Hf]. split; [done|].
    cbn. rewrite Hf, bool_decide_eq_true_2 by congruence. done.
Qed.

(** A part of the list that gives no association. *)
Definition malformed (part : string) : Prop :=
  ∀ k v, TrimSpace part = k +:+ String equals v → free equals k = true → k = "" ∨ v = "".

Lemma parseMapPart_cases out part :
  (∃ k v, TrimSpace part = k +:+ String equals v ∧ free equals k = true ∧ k ≠ "" ∧ v ≠ "" ∧
     parseMapPart out part = inl (<[k := v]> out)) ∨
  (malformed part ∧ parseMapPart out part = inr (ErrText ("invalid mapping " +:+ quoted part +:+ ", want id=address"))).
Proof.
  unfold parseMapPart. destruct (Cut equals (TrimSpace part)) as [[k v]|] eqn:E.
  - destruct (Cut_spec _ _ _ _ E) as [Hs Hf]. case_decide as Hd.
    + right. split; [|done]. intros k' v' Hs' Hf'. rewrite Hs', Cut_app in E by done. by injection E as <- <-.
    + left. exists k, v. split_and!; try done; tauto.
  - right. split; [|done]. intros k v Hs Hf. by rewrite Hs, Cut_app in E by done.
Qed.

Definition wf_addrs (m : gmap string string) : Prop := ∀ k v, m !! k = Some v → k ≠ "" ∧ v ≠ "".

Lemma parseMapLoop_spec parts : ∀ out, wf_addrs out →
  (Forall (λ p, ¬ malformed p) parts ∧ ∃ m, parseMapLoop out parts = inl m ∧ wf_addrs m) ∨
  (∃ pre p post, parts = pre ++ p :: post ∧ Forall (λ p, ¬ malformed p) pre ∧ malformed p ∧
     parseMapLoop out parts = inr (ErrText ("invalid mapping " +:+ quoted p +:+ ", want id=address"))).
Proof.
  induction parts as [|p parts IH]; intros out Hout; [left; split; [apply Forall_nil_2|by exists out]|]. cbn [parseMapLoop].
  destruct (parseMapPart_cases out p) as [(k & v & Hs & Hf & Hk & Hv & ->)|[Hm ->]].
  - assert (¬ malformed p) as Hp by (intros Hm; by destruct (Hm k v Hs Hf)).
    destruct (IH (<[k := v]> out)) as [[Hps Hm]|(pre & q & post & -> & Hpre & Hq & Hr)].
    { intros k' v' [[<- <-]|[_ ?]]%lookup_insert_Some; [done|by apply Hout]. }
    + left. split; [by constructor|done].
    + right. exists (p :: pre), q, post. split_and!; [done|by constructor|done|done].
  - right. exists [], p, parts. split_and!; [done|apply Forall_nil_2|done|done].
Qed.

(** ** The node's configuration *)
Section node.
Context {SM St : Type} `{StateMachine SM} `{Store St} `{RandSource} `{MapCodec}.
Implicit Types n : Node SM St.

Lemma persist_frame n r n' : persistHardStateLocked n = (r, n') →
  n'.(params) = n.(params) ∧ n'.(role) = n.(role) ∧ n'.(electionDue) = n.(electionDue).
Proof.
  unfold persistHardStateLocked, saveHardStateLocked. destruct (SaveHardState _ _) as [[e|] st]; intros [= <- <-]; done.
Qed.

Lemma electionDelay_range n :
  if decide (n.(params).(timeoutMax) ≤ n.(params).(timeoutMin))%Z then (electionDelay n).1 = n.(params).(timeoutMin)
  else (n.(params).(timeoutMin) ≤ (electionDelay n).1 < n.(params).(timeoutMax))%Z.
Proof.
  unfold electionDelay. case_decide as Hd; case_decide as Hs; cbn; try lia.
  pose proof (Int63n_range n.(rng) (timeoutMax (params n) - timeoutMin (params n)) Hs). lia.
Qed.

(** A new node with the parameters of the normalised configuration, whose
    first election is due after a delay in the range of its timeouts. *)
Record configured (cfg : Config) (now0 : Z) n : Prop := {
  cf_id : n.(params).(id) = cfg.(cfg_ID);
  cf_role : n.(role) = Follower;
  cf_peers : n.(params).(peerAddrs) = filter (λ kv, kv.1 ≠ cfg.(cfg_ID)) (default ∅ (normalizeConfig cfg).(cfg_Peers));
  cf_heartbeat : n.(params).(heartbeatEvery) = (normalizeConfig cfg).(cfg_HeartbeatInterval);
  cf_min : n.(params).(timeoutMin) = (normalizeConfig cfg).(cfg_ElectionTimeoutMin);
  cf_max : n.(params).(timeoutMax) = (normalizeConfig cfg).(cfg_ElectionTimeoutMax);
  cf_snapshot : n.(params).(snapshotEvery) = (normalizeConfig cfg).(cfg_SnapshotThreshold);
  cf_due : ∃ m : Node SM St, m.(params) = n.(params) ∧ n.(electionDue) = (now0 + (electionDelay m).1)%Z }.

Lemma NewNode_configured cfg st s rng0 now0 n :
  NewNode cfg st s rng0 now0 = inl n →
  cfg.(cfg_ID) ≠ "" ∧ validateConfig (normalizeConfig cfg) = None ∧ configured cfg now0 n.
Proof.
  unfold NewNode. case_decide as Hid; [done|]. destruct (validateConfig _) eqn:Hv; [done|].
  destruct (Load st) as [[[[hs entries] snap]|err] st']; [|done]. cbv zeta.
  destruct (replayLoop _ _ _ _) as [applied s']. set (m := mkNode _ _ _ _ _ _ _ _ _ _ _ _ _ _ _ _ _ _ _ _ _ _ _ _ _ _ _ _).
  assert (∀ x : Node SM St, params x = params m → role x = Follower → electionDue x = electionDue (resetElectionLocked m) →
    configured cfg now0 x) as Hall.
  { intros x Hp Hr He. split; rewrite ?Hp, ?He; try done. by exists m. }
  case_decide; [|intros [= <-]; split_and!; [done..|by apply Hall]].
  destruct (persistHardStateLocked _) as [[e|] x] eqn:Ep; [done|]. intros [= <-].
  apply persist_frame in Ep as (Hp & Hr & He). split_and!; [done..|by apply Hall].
Qed.

Lemma validate_ok cfg : validateConfig (normalizeConfig cfg) = None →
  ∃ a, a ≠ "" ∧ default ∅ (normalizeConfig cfg).(cfg_Peers) !! cfg.(cfg_ID) = Some a.
Proof.
  unfold validateConfig. repeat case_decide; try done. intros _.
  replace (cfg_ID (normalizeConfig cfg)) with (cfg_ID cfg) in * by done.
  unfold map_str in *. destruct (default ∅ (cfg_Peers (normalizeConfig cfg)) !! cfg_ID cfg) as [a|] eqn:E; [|done].
  by exists a.
Qed.

(** What [normalizeConfig] guarantees of the times. *)
Lemma normalize_times cfg :
  let cfg' := normalizeConfig cfg in
  (0 < cfg'.(cfg_ElectionTimeoutMin) ∧ 0 < cfg'.(cfg_ElectionTimeoutMax) ∧ 0 < cfg'.(cfg_HeartbeatInterval) ∧
   0 < cfg'.(cfg_ReadTimeout) ∧ 0 < cfg'.(cfg_SnapshotThreshold) ∧ 0 < cfg'.(cfg_SnapshotChunkBytes))%Z ∧
  (cfg'.(cfg_ElectionTimeoutMax) ≤ cfg'.(cfg_ElectionTimeoutMin) ↔
   cfg.(cfg_ElectionTimeoutMax) ≤ cfg.(cfg_ElectionTimeoutMin) ∧ 600000000 ≤ cfg.(cfg_ElectionTimeoutMin))%Z.
Proof. cbn. unfold defaultSnapshotChunkBytes. repeat case_decide; split_and!; lia. Qed.

End node.

(** ** Where a setting comes from

    A setting is the flag of the command line when it is given; else the
    environment variable when it is set and not empty; else the default. *)
Inductive chosen (env : string → string) (flags : string → option string) (name key fallback : string) : string → Prop :=
  | from_flag s : flags name = Some s → chosen env flags name key fallback s
  | from_env s : flags name = None → env key = s → s ≠ "" → chosen env flags name key fallback s
  | from_default : flags name = None → env key = "" → chosen env flags name key fallback fallback.

(** The same for a number: an environment variable that is not a number
    counts as not set. *)
Inductive chosenInt (env : string → string) (flag : option Z) (key : string) (fallback : Z) : Z → Prop :=
  | int_flag z : flag = Some z → chosenInt env flag key fallback z
  | int_env s z : flag = None → env key = s → s ≠ "" → Atoi s = Some z → chosenInt env flag key fallback z
  | int_bad s : flag = None → env key = s → s ≠ "" → Atoi s = None → chosenInt env flag key fallback fallback
  | int_default : flag = None → env key = "" → chosenInt env flag key fallback fallback.

Lemma stringVar_chosen env flags name key fallback s :
  chosen env flags name key fallback s → stringVar env flags name key fallback = s.
Proof.
  unfold stringVar, getenv. intros [s' ->|s' -> -> Hs| -> ->]; cbn; [done|by rewrite decide_True|by rewrite decide_False by tauto].
Qed.

Lemma getenvInt_chosen env flag key fallback z :
  chosenInt env flag key fallback z → default (getenvInt env key fallback) flag = z.
Proof.
  unfold getenvInt. intros [z' ->|s z' -> -> Hs Ha|s -> -> Hs Ha| -> ->]; cbn; [done| | |by rewrite decide_False by tauto].
  all: by rewrite decide_True, Ha.
Qed.

(** ** Properties *)

(** C36. The configuration is read as it is written.  Each setting is the flag
    if it is given, else the environment variable if it is not empty, else
    the default.  When those for the addresses are maps written
    [id=address,...] and those for the times whole numbers of a time unit
    that fit a duration, [parseFlags] succeeds with exactly these values, the
    last address of an id winning, and the node's own client address is its
    advertised address unless one is given. *)
Theorem flags_roundtrip fracProduct env flags thresholdFlag own listen advertised dir threshold
    peers clients (n1 n2 n3 k1 k2 k3 : N) (u1 u2 u3 : string) :
  let setting := chosen env flags in
  setting "id" "NODE_ID" "node1" own → setting "listen" "RAFT_LISTEN" ":9001" listen →
  setting "advertise" "RAFT_ADVERTISE" "127.0.0.1:9001" advertised →
  setting "data-dir" "RAFT_DATA_DIR" "data/node1" dir →
  setting "peers" "RAFT_PEERS" "node1=127.0.0.1:9001" (showMap peers) →
  setting "client-addrs" "RAFT_CLIENT_ADDRS" "" (showMap clients) →
  setting "election-min" "RAFT_ELECTION_MIN" "1s" (showDuration n1 u1) →
  setting "election-max" "RAFT_ELECTION_MAX" "2s" (showDuration n2 u2) →
  setting "heartbeat" "RAFT_HEARTBEAT" "150ms" (showDuration n3 u3) →
  chosenInt env thresholdFlag "RAFT_SNAPSHOT_THRESHOLD" 64 threshold →
  Forall (λ kv, mappable kv = true) peers → Forall (λ kv, mappable kv = true) clients →
  unitMap u1 = Some k1 → unitMap u2 = Some k2 → unitMap u3 = Some k3 →
  (n1 * k1 < two63)%N → (n2 * k2 < two63)%N → (n3 * k3 < two63)%N →
  ∃ addrs, parseFlags fracProduct env flags thresholdFlag = inl (mkServerConfig own listen advertised dir
    (mapOf peers) addrs (Z.of_N (n1 * k1)) (Z.of_N (n2 * k2)) (Z.of_N (n3 * k3)) threshold) ∧
  ∀ i, addrs !! i = if decide (i = own ∧ map_str (mapOf clients) own = "") then Some advertised else mapOf clients !! i.
Proof.
  intros setting Ei%stringVar_chosen El%stringVar_chosen Ea%stringVar_chosen Ed%stringVar_chosen Ep%stringVar_chosen
    Ec%stringVar_chosen E1%stringVar_chosen E2%stringVar_chosen E3%stringVar_chosen Et%getenvInt_chosen
    Hp Hc U1 U2 U3 D1 D2 D3. unfold parseFlags.
  rewrite Ei, El, Ea, Ed, Ep, Ec, E1, E2, E3, Et, !parseMap_show by done.
  rewrite (ParseDuration_show _ _ _ _ U1), (ParseDuration_show _ _ _ _ U2), (ParseDuration_show _ _ _ _ U3) by done.
  eexists. split; [reflexivity|]. intros i. case_decide as Hd.
  - destruct (decide (i = own)) as [->|Hi]; [rewrite decide_True, lookup_insert_eq by done; done|].
    rewrite decide_False, lookup_insert_ne by naive_solver. done.
  - rewrite decide_False by naive_solver. done.
Qed.

(** A list of addresses is taken as a whole or refused.  Either every
    comma separated part is [id=address] with both sides non-empty, and then
    [parseMap] gives a map without empty ids or addresses; or it fails with
    an error that names the first part that is not. *)
Theorem parseMap_outcome raw :
  let parts := if decide (TrimSpace raw = "") then [] else Split comma (TrimSpace raw) in
  (Forall (λ p, ¬ malformed p) parts ∧ ∃ m, parseMap raw = inl m ∧ wf_addrs m) ∨
  (∃ pre p post, parts = pre ++ p :: post ∧ Forall (λ p, ¬ malformed p) pre ∧ malformed p ∧
     parseMap raw = inr (ErrText ("invalid mapping " +:+ quoted p +:+ ", want id=address"))).
Proof.
  intros parts. unfold parseMap. subst parts. case_decide.
  - left. split; [apply Forall_nil_2|]. exists ∅. split; [done|]. intros k v Hk. by rewrite lookup_empty in Hk.
  - apply parseMapLoop_spec. intros k v Hk. by rewrite lookup_empty in Hk.
Qed.

(** C37. Election timeouts.  A node that was constructed waits, before each
    election, a time in [[min, max)] when the normalised configuration has
    min < max, and exactly min otherwise; all its intervals are positive.
    The timeouts are not spread out precisely when the configured maximum is
    not above the minimum and the minimum is 600ms or more: the fallback of
    600ms is then not above the minimum either. *)
Theorem election_timeout_range {SM St : Type} `{StateMachine SM} `{Store St} `{RandSource} `{MapCodec}
    cfg (st : St) (s : SM) rng0 now0 n :
  NewNode cfg st s rng0 now0 = inl n →
  let lo := n.(params).(timeoutMin) in let hi := n.(params).(timeoutMax) in
  (0 < lo ∧ 0 < hi ∧ 0 < n.(params).(heartbeatEvery) ∧ 0 < n.(params).(snapshotEvery))%Z ∧
  (∀ m : Node SM St, m.(params) = n.(params) →
     if decide (hi ≤ lo)%Z then (resetElectionLocked m).(electionDue) = (m.(now) + lo)%Z
     else (m.(now) + lo ≤ (resetElectionLocked m).(electionDue) < m.(now) + hi)%Z) ∧
  (hi ≤ lo ↔ cfg.(cfg_ElectionTimeoutMax) ≤ cfg.(cfg_ElectionTimeoutMin) ∧ 600000000 ≤ cfg.(cfg_ElectionTimeoutMin))%Z.
Proof.
  intros (_ & _ & Hc)%NewNode_configured lo hi. destruct (normalize_times cfg) as [Hpos Hiff].
  rewrite <- (cf_min _ _ _ Hc), <- (cf_max _ _ _ Hc), <- (cf_heartbeat _ _ _ Hc), <- (cf_snapshot _ _ _ Hc) in *.
  split; [tauto|]. split; [|exact Hiff].
  intros m Hm. pose proof (electionDelay_range m) as Hd. rewrite Hm in Hd. subst lo hi.
  unfold resetElectionLocked. cbn. case_decide; lia.
Qed.

Section server.
Context `{RandSource} `{MapCodec} `{StoreJson} {Ctx W Conn : Type} `{EqDecision Conn} `{Grpc Ctx W Conn} `{!GrpcLaws Ctx W Conn}.

(** C38. A server starts only with a configuration that names it.  When
    [main] gets as far as serving, the flags were accepted, the listener was
    opened, the node's id is in its peer map with an address, the node is a
    follower with the configured parameters, and the connection pool is
    empty.  When the peer map lacks the id or its address, [main] fails and
    leaves the files of the data directory as they were. *)
Theorem server_startup cfg dir rng0 now0 listenErr :
  (∀ sv dir', startup (Conn:=Conn) cfg dir rng0 now0 listenErr = (inl sv, dir') →
     ∃ c addr, cfg = inl c ∧ listenErr = None ∧ c.(c_id) ≠ "" ∧ c.(c_peers) !! c.(c_id) = Some addr ∧ addr ≠ "" ∧
       configured (nodeConfig c) now0 sv.(sv_node) ∧ dir' = sv.(sv_node).(store) ∧
       sv.(sv_transport) = mkTransport c.(c_peers) ∅) ∧
  (∀ c, cfg = inl c → map_str c.(c_peers) c.(c_id) = "" →
     ∃ err dir', startup (Conn:=Conn) cfg dir rng0 now0 listenErr = (inr err, dir') ∧ ∀ p, content p dir' = content p dir).
Proof.
  assert (∀ r dir1, Open dir = (r, dir1) → (∀ p, content p dir1 = content p dir) ∧ ∀ st, r = inl st → st = dir1) as Hopen.
  { intros r dir1. unfold Open, syscall. destruct (f_faults dir) as [|[] ?]; intros [= <- <-]; split; try done;
      try (by intros []); by intros ? [= <-]. }
  split.
  - intros sv dir' E. unfold startup in E. destruct cfg as [c|]; [|done].
    destruct (Open dir) as [[st|] dir1]; [|done]. destruct (NewNode _ _ _ _ _) as [n|[e d]] eqn:En; [|done].
    destruct listenErr; [done|]. injection E as <- <-.
    apply NewNode_configured in En as (Hid & (addr & Hne & Ha)%validate_ok & Hc). by exists c, addr.
  - intros c -> Hp. unfold startup. destruct (Open dir) as [[st|err] dir1] eqn:Eo;
      destruct (Hopen _ _ eq_refl) as [Hf Hst]; [|by exists err, dir1].
    rewrite (Hst st eq_refl). destruct (NewNode _ _ _ _ _) as [n|[e d]] eqn:En.
    { apply NewNode_configured in En as (_ & (addr & Hne & Ha)%validate_ok & _). cbn in Ha.
      unfold map_str in Hp. rewrite Ha in Hp. by cbn in Hp. }
    exists e, d. split; [done|]. revert En. unfold NewNode. case_decide; [by intros [= <- <-]|].
    destruct (validateConfig _) eqn:Hv; [by intros [= <- <-]|].
    apply validate_ok in Hv as (addr & Hne & Ha). cbn in Ha. unfold map_str in Hp. rewrite Ha in Hp. by cbn in Hp.
Qed.

(** C39. A shutdown leaves nobody waiting.  After the shutdown of a running
    server the node is stopped, every proposal that was waiting has been sent
    the error of a stopped node, no waiter is registered and no connection to a peer
    is open. *)
Theorem shutdown_releases n pc (t : GRPCTransport Conn) peers w0 w sv' w' :
  sys_reachable (n, pc) → n.(stopped) = false →
  (∀ c, ¬ is_open w0 c) → rtc pool_step (NewGRPCTransport peers, w0) (t, w) →
  shutdown (mkServer n t, w) = (sv', w') →
  sv'.(sv_node).(stopped) = true ∧ sv'.(sv_node).(waiters) = ∅ ∧
  (∀ i v, waits n i v →
     sv'.(sv_node).(chans) !! v = Some (answered (mkOutcome zeroApplyResult (Some ErrNodeStopped)))) ∧
  (∀ c, ¬ is_open w' c).
Proof.
  intros Hr Hs Hnone Hp E. destruct (reachable_waiters _ _ Hr) as [[Hreg _ _] _].
  apply (pool_reachable _ _ _ Hnone) in Hp as Hi. destruct (pool_Close _ _ Hi) as [Hc He].
  unfold shutdown in E. cbn [sv_node sv_transport] in E. destruct (Transport_Close (t, w)) as [t' w1] eqn:Et.
  injection E as <- <-. cbn in *. unfold Stop. rewrite Hs. cbn.
  destruct (sweep_swept (λ _, true) (mkOutcome zeroApplyResult (Some ErrNodeStopped)) _ _ Hreg) as (S1 & S2 & _).
  rewrite <- stopLoop_sweep in S1, S2. split_and!.
  - done.
  - apply map_eq. intros i. change (waiters n) with (waiters (with_stopped true n)). rewrite lookup_empty.
    etrans; [apply S1|]. destruct (waiters n !! i) eqn:Ei; [by rewrite decide_True|by destruct (decide _)].
  - intros i v (l & Hl & Hv). by eapply S2.
  - intros c Ho. apply (pi_open _ _ Hc) in Ho as [p Hp']. cbn in Hp'. by rewrite He, lookup_empty in Hp'.
Qed.

End server.

(** ** Witnesses *)

(** A three-node cluster: the node and its times on the command line, the
    addresses and the threshold in the environment, the rest by default; the
    flag wins over the environment variable of the id. *)
Definition flags1 (name : string) : option string :=
  if decide (name = "id") then Some "n2"
  else if decide (name = "client-addrs") then Some "n1=c1:9"
  else if decide (name = "election-min") then Some "750ms"
  else None.

Definition env1 (key : string) : string :=
  if decide (key = "RAFT_PEERS") then "n1=h1:1,n2=h2:1,n3=h3:1"
  else if decide (key = "NODE_ID") then "n1"
  else if decide (key = "RAFT_ADVERTISE") then "h2:1"
  else if decide (key = "RAFT_ELECTION_MAX") then "3s"
  else if decide (key = "RAFT_SNAPSHOT_THRESHOLD") then "128"
  else "".

Lemma flags_roundtrip_witness :
  ∃ addrs, parseFlags (λ _ _ _, 0%N) env1 flags1 None = inl (mkServerConfig "n2" ":9001" "h2:1" "data/node1"
    (mapOf [("n1", "h1:1"); ("n2", "h2:1"); ("n3", "h3:1")]) addrs 750000000 3000000000 150000000 128) ∧
  addrs !! "n2" = Some "h2:1" ∧ addrs !! "n1" = Some "c1:9".
Proof.
  destruct (flags_roundtrip (λ _ _ _, 0%N) env1 flags1 None "n2" ":9001" "h2:1" "data/node1" 128
    [("n1", "h1:1"); ("n2", "h2:1"); ("n3", "h3:1")] [("n1", "c1:9")] 750 3 150 1000000 1000000000 1000000 "ms" "s" "ms")
    as (addrs & Hf & Ha).
  - by apply from_flag.
  - by apply from_default.
  - by apply from_env.
  - by apply from_default.
  - by apply from_env.
  - by apply from_flag.
  - by apply from_flag.
  - by apply from_env.
  - by apply from_default.
  - by apply (int_env _ _ _ _ "128").
  - repeat constructor.
  - repeat constructor.
  - reflexivity.
  - reflexivity.
  - reflexivity.
  - reflexivity.
  - reflexivity.
  - reflexivity.
  - exists addrs. split_and!; [exact Hf|rewrite Ha; reflexivity..].
Defined.

(** A node whose timeouts were given the wrong way round. *)
Definition cfgNarrow : Config :=
  mkConfig "n1" "h1:1" (Some {[ "n1" := "h1:1" ]}) None 1000000000 800000000 75 5000 2 4.

Lemma election_timeout_range_witness :
  ∃ n, NewNode cfgNarrow (Mem.empty []) NewKVStateMachine 0 0 = inl n ∧
    (n.(params).(timeoutMax) ≤ n.(params).(timeoutMin))%Z ∧
    (resetElectionLocked n).(electionDue) = (n.(now) + 1000000000)%Z.
Proof.
  assert (match NewNode cfgNarrow (Mem.empty []) NewKVStateMachine 0 0 with
    | inl n => (n.(params).(timeoutMin), n.(params).(timeoutMax)) | inr _ => (0, 0)%Z end = (1000000000, 600000000)%Z) as Hv
    by (vm_compute; reflexivity).
  destruct (NewNode cfgNarrow (Mem.empty []) NewKVStateMachine 0 0) as [n|e] eqn:E; [|discriminate Hv].
  pose proof (f_equal fst Hv) as Hlo. cbn [fst] in Hlo. clear Hv.
  destruct (election_timeout_range cfgNarrow (Mem.empty []) NewKVStateMachine 0 0 n E) as (_ & Hd & Hiff).
  assert (n.(params).(timeoutMax) ≤ n.(params).(timeoutMin))%Z as Hle by (apply Hiff; cbn; lia).
  exists n. split_and!; [reflexivity|exact Hle|].
  specialize (Hd n eq_refl). rewrite decide_True, Hlo in Hd by exact Hle. exact Hd.
Defined.

(** A single server over a new data directory. *)
Definition config1 : config :=
  mkServerConfig "n1" ":1" "h1:1" "data" {[ "n1" := "h1:1" ]} {[ "n1" := "h1:1" ]} 1000 2000 150 64.
Definition newDir : FileStore := mkFileStore None None None [].

Lemma server_startup_witness :
  ∃ sv dir', startup (Conn:=nat) (inl config1) newDir 0 0 None = (inl sv, dir') ∧
    configured (nodeConfig config1) 0 sv.(sv_node) ∧ dir' = sv.(sv_node).(store).
Proof.
  assert (match startup (Conn:=nat) (inl config1) newDir 0 0 None with (inl _, _) => true | _ => false end = true) as Hv
    by (vm_compute; reflexivity).
  destruct (startup _ _ _ _ _) as [[sv|err] dir'] eqn:E; [|discriminate Hv]. exists sv, dir'.
  destruct (server_startup (Conn:=nat) (inl config1) newDir 0 0 None) as [Hs _].
  destruct (Hs sv dir' E) as (c & addr & Hc & _ & _ & _ & _ & Hconf & Hd & _). injection Hc as <-. auto.
Defined.

(** The node elects itself and gets a proposal; the shutdown comes before
    the entry is applied. *)
Definition runToShutdown : list sact :=
  [SBackground DoStartElection; SBackground (DoBecomeLeader 1); SBackground (DoPropose None (put "x" "1"))].

Definition beforeShutdown : option (Node KVStateMachine FileStore * apply_pc) :=
  match NewNode (nodeConfig config1) newDir NewKVStateMachine 0 0 with
  | inl n => srun runToShutdown (n, AIdle)
  | inr _ => None
  end.

Lemma clean_newDir : clean_start newDir NewKVStateMachine.
Proof.
  assert (Load newDir = (inl (zeroHardState, [], zeroSnapshot), newDir)) as Hl by (vm_compute; reflexivity).
  split; [|done]. intros hs entries snap st'. rewrite Hl. intros [= <- <- <- <-]. split; [|done].
  split; [apply contiguous_nil|done].
Qed.

Lemma beforeShutdown_reachable x : beforeShutdown = Some x → sys_reachable x.
Proof.
  unfold beforeShutdown. destruct (NewNode _ _ _ _ _) as [n|] eqn:En; [|done]. intros Hr.
  exists (nodeConfig config1), newDir, NewKVStateMachine, 0, 0%Z, n.
  split_and!; [apply clean_newDir|exact En|by eapply srun_steps].
Qed.

#[local] Existing Instance labGrpc.
#[local] Existing Instance labLaws.

Lemma shutdown_releases_witness :
  ∃ n pc sv' w', beforeShutdown = Some (n, pc) ∧ waits n 2 0 ∧
    shutdown (mkServer n (NewGRPCTransport ∅), mkLab ∅ ∅) = (sv', w') ∧
    sv'.(sv_node).(chans) !! 0 = Some (answered (mkOutcome zeroApplyResult (Some ErrNodeStopped))).
Proof.
  assert (match beforeShutdown with
    | Some (n, _) => (n.(waiters) !! 2%N, n.(stopped)) | None => (None, true) end = (Some [0], false)) as Hv
    by (vm_compute; reflexivity).
  destruct beforeShutdown as [[n pc]|] eqn:E; [|discriminate Hv].
  pose proof (f_equal fst Hv) as Hw. pose proof (f_equal snd Hv) as Hst. cbn [fst snd] in Hw, Hst. clear Hv.
  destruct (shutdown (mkServer n (NewGRPCTransport ∅), mkLab ∅ ∅)) as [sv' w'] eqn:Es.
  assert (waits n 2 0) as Hwait by (exists [0]; split; [exact Hw|by left]).
  assert (∀ c, ¬ is_open (mkLab ∅ ∅) c) as Hno by (intros c [Hc _]; by apply not_elem_of_empty in Hc).
  pose proof (shutdown_releases n pc (NewGRPCTransport ∅) ∅ (mkLab ∅ ∅) (mkLab ∅ ∅) sv' w'
    (beforeShutdown_reachable _ E) Hst Hno (rtc_refl _ _) Es) as (_ & _ & Hc & _).
  exists n, pc, sv', w'. split_and!; [reflexivity|exact Hwait|exact Es|exact (Hc 2%N 0 Hwait)].
Defined.
